(* ===== verification/_CoqProject ===== *)
-Q . S2P
Prelude.v
Process.v
Dict.v
Json.v
Graph.v
Registry.v
GraphResolution.v
FanOutTopology.v
Context.v
Merge.v
Guards.v
RunStore.v
Secrets.v
RunInputs.v
OutputCap.v
StepRunner.v
CapabilityFlow.v
Subgraph.v
ChangeStore.v
FanOut.v
RunAccess.v
RunService.v
SessionPool.v
RepoLock.v
ChangeRequests.v
BatchApproval.v
RunLifecycle.v
