(* ===== verification/Prelude.v ===== *)
(** * The execution engine of Auxilium Manus, verified

    Auxilium Manus runs network-automation workflows: a canvas of steps drawn in
    an editor, executed over an inventory of devices by workers of the Hatchet
    engine, with fan-out over groups of devices, approvals between batches, runs
    that start runs, and a review gate for configuration changes.  This
    development models the part of [src/backend] that decides what is executed,
    in which order, with which data, and what the database says about it
    afterwards.  All paths below are relative to [src/backend].

    ** The parts, from the inside out

    - Prelude.v: exceptions and the error monad [res], lemmas on lists.
      Process.v: sequences of transactions ([proc]), their execution in a history
      in which anything else happens in between ([exec]), alone ([run]), in pairs
      ([race]) and in pools ([play]), with a rely/guarantee discipline.  Dict.v and
      Json.v: Python dicts in insertion order and JSON values with Python's [==].
    - Graph.v ([services/execution/graph.py]): Kahn's algorithm, dependency
      layers, the closure below a node, the fan-in of a fan-out.  Registry.v
      ([services/plugin_registry]): the loaded plugin registry.
      GraphResolution.v ([step_runner/graph_resolution.py], the canvas part of
      [runner.py]): funnels, switched-off steps and stop-here resolved away, and
      the execution plan.  FanOutTopology.v ([fan_out_topology.py]): the three
      rules a canvas with fan-out must satisfy.
    - Context.v ([models/workflow_context.py], [step_result_status.py],
      [services/workflow_context/run_inputs.py]): the data that flows along the
      edges, and the status of a step.  Merge.v ([services/workflow_context/merge.py]):
      joining branches and fanning children in.  Guards.v ([guards.py]): the
      capability contracts checked before and after each step.  CapabilityFlow.v
      ([services/workflow/workflow_validation_service.py], the capability tier): the
      same contracts checked on the canvas, before any run.
    - RunStore.v ([repositories/run_repository.py], [core/models/runs.py]): the run
      tables; every operation that writes them is one transaction [tables -> _ * tables].
      ChangeStore.v ([repositories/change_request_repository.py]): the change
      requests beside them ([world]), their guarded transition and reconciliation.
    - Secrets.v ([services/workflow_context/secret_fields.py]): sealing, redaction and
      scrubbing.  RunInputs.v ([run_input_validation.py]): declared inputs resolved
      and typed.  OutputCap.v ([output_cap.py]): the size cap on persisted output.
    - StepRunner.v ([step_runner/runner.py], [signals.py]): the walk of a canvas,
      wave by wave, the steps of a wave interleaved at their awaits.
      Subgraph.v ([step_runner/subgraph.py], [progress.py],
      [hatchet/workflows/device_group_execution.py]): the same walk in a fan-out
      child.  FanOut.v ([hatchet/workflows/workflow_run/fan_out_dispatch.py],
      [aggregation.py]): splitting into device groups, aggregation onto the parent,
      the walk resumed behind the fan-in.
    - RunAccess.v ([services/execution/run_service.py]): who may do what with a run,
      over the interface [Rbac].  RunService.v (the rest of [run_service.py] that
      changes state, [dispatch_breaker.py], [schedule_fire.py],
      [hatchet/workflows/dispatch.py], [run_metadata.py]): starting, cancelling and
      deleting runs, child runs; what the service gets from elsewhere is the
      interface [Services].  BatchApproval.v ([batch_approval.py]): the gated
      dispatch and the operators, as a step relation.  RunLifecycle.v
      ([workflow_run/__init__.py], [phase1.py],
      [services/execution/run_lifecycle_service.py], [run_reaper.py]): the tasks of a
      run, its finalisation, and the reaper; it composes StepRunner.v, FanOut.v,
      BatchApproval.v and RunService.v.  ChangeRequests.v
      ([services/change_requests]): the review gate and the git webhook.
    - SessionPool.v ([services/network/netmiko/session_pool.py]): the device sessions
      a run keeps open for its steps, as a step relation.  RepoLock.v
      ([services/git/repo_lock.py], the lock commands of
      [services/cache/redis_cache_service.py]): the lease on a git working tree, as a
      step relation over Redis, its failures and the clock.

    ** What is shown

    - The plan.  An accepted canvas gives a duplicate-free plan of exactly the
      executable steps that are switched on and not behind a stop-here, every edge
      going forward; funnels and switched-off steps are transparent; a cyclic
      canvas is refused and only a cyclic one; the fan-out check reports exactly
      the violations of its rules.
    - The walk.  Its result does not depend on how the steps of a wave interleave;
      a step sees exactly the contexts its parents put on its edges; after a
      raise nothing behind it runs; success is reported iff nothing failed; a run
      delivered twice executes no step twice; a fan-out child refines the walk; the
      static capability check is sound for it, given executors that honour their
      contract.
    - The data.  Joining succeeds iff the branches agree, and is a least upper bound
      on the places the merge checks; fan-in sums the counters of the node being
      merged; the parent's row is the merge of its children's; guards hold of
      what passes them; inputs are resolved or every offence is reported; redaction
      leaves no secret at a known place, in every bag at any depth; scrubbing leaves
      no occurrence; capped output fits.
    - The state.  Through every sequence of the repository's writes, deletions and
      purge batches included, a finished run keeps its status while it exists; it has
      one finisher; cancelling freezes the history; purging deletes exactly the old
      finished runs; every exit of [execute_steps], at whatever stretch it is
      cancelled, closes the run; the reaper fails exactly what is stuck; cancelling
      ends every run a run caused; a child started while its parent is cancelled is
      cancelled; every start of a run is accounted for; at most one deployment per
      review; no device group runs before the approval it needs, and the gated
      dispatch ends.
    - The shared resources.  A pooled session is used by one thread at a time; a
      lease on a git tree that is renewed in time has one holder, and nobody else
      ends it.
    - Where the code departs from its documentation, a theorem says how:
      [merge_drops_right_dry_run], [fan_in_foreign_counter_order],
      [cancelled_partial_row_reopens], [sealed_list_item_survives],
      [default_not_coerced], [child_status_diverges], [run_now_extends_breaker],
      [paused_run_left_open], [cancelled_suspend_shares_session],
      [grace_is_no_limit], [cleared_cache_shares_tree], [split_lease_unchecked].

    ** Choices

    - Python's exceptions are values of [exn]: the class, and the message's literal
      with what is interpolated into it.  Integers are unbounded, as Python's are.
    - Concurrency is explicit: transactions are atomic; coroutines of one wave
      interleave at awaits; other processes write between waves ([env]) or between
      the stretches of a process (the history).  Theorems that need the others to
      behave say so: [lawful], [lived evolves].  The purge commits batch by batch,
      and each batch is a transaction of its own ([St_purge_batch]).
    - An id, [source] or [target] of a canvas that is an explicit JSON null is read
      like a missing one; a run's column that a call sets to null is written only
      where the code does so ([approval_state]).  The default of a declared input is
      absent or a value that is not null.
    - Fuel appears where the recursion is not structural, with the theorem that it
      is enough: the number of nodes for Kahn's queue and the closure
      ([topological_order_correct], [downstream_spec]), the height of the value for
      redaction, the number of runs for purging ([purge_exact]) and for cancelling
      child runs ([cancel_child_runs_total]), the number of batches for the gated
      dispatch ([wait_and_run_completes]); in [execute_steps] it is the task's time
      limit, after which the engine cancels it.
    - Parameters: what is not in the repository (Hatchet's answers, the cipher, the
      clock, [uuid4], pydantic's validation, the text of a float, Netmiko's sessions,
      the answers of Redis) and, behind interfaces, what is but is not modelled: the
      step executors ([STEP_REGISTRY]), the accounts ([Rbac]), and what the run
      service reads of another ([Services]: the validator's verdict, whether a
      release is current).

    ** Not modelled, and why

    The step executors ([workflow_steps]) and the services they call (netmiko beyond
    its session pool, pyATS, Batfish, ACI, ISE, Catalyst Center, Nautobot, git beyond
    its lock, mail) are mostly network I/O around third-party clients; the engine
    sees an executor through its contract only.  The rest of the canvas validation,
    the stored workflows, schedules, accounts and sessions are program logic before
    or beside the execution and are left out; the AI assistant is prompts and tool
    plumbing; the routers, the pydantic models and the migrations are declarations;
    the frontend and the agents are other programs; read-only listings change nothing
    and are left out. *)
From Stdlib Require Export Ascii.
From stdpp Require Export base tactics option list strings gmap sets fin_maps relations sorting.
From Stdlib Require Export ZArith Lia.

#[export] Set Default Goal Selector "!".

(** ** Exceptions and the error monad

    A Python function that can raise returns [res A].  An exception keeps its
    class (a constructor) and, in place of the rendered text, the literal of
    the message and the strings interpolated into it. *)

Inductive exn : Set :=
  | ValueError (msg : string) (args : list string)
  | GraphCycleError (ids : list string)        (* subclass of ValueError *)
  | KeyError (key : string)
  | RuntimeError (msg : string) (args : list string)
  | RunAlreadyStarted (run : string)           (* subclass of RuntimeError *)
  | RegexUnavailableError (code message : string)   (* an Exception of its own *)
  | OtherError (cls : string).

#[export] Instance exn_eq_dec : EqDecision exn.
Proof. solve_decision. Defined.

(** [isinstance(exc, ValueError)] / [isinstance(exc, RuntimeError)]. *)
Definition is_value_error (e : exn) : bool :=
  match e with ValueError _ _ | GraphCycleError _ => true | _ => false end.
(** [str(exc)] of a [ValueError], as a literal and what is interpolated *)
Definition exn_literal (e : exn) : string * list string :=
  match e with
  | ValueError msg args => (msg, args)
  | GraphCycleError ids => ("Workflow graph contains a cycle involving node(s): {', '.join(cyclic_ids)}", ids)
  | _ => ("", [])
  end.
Definition is_runtime_error (e : exn) : bool :=
  match e with RuntimeError _ _ | RunAlreadyStarted _ => true | _ => false end.

Inductive res (A : Type) : Type :=
  | Ok (a : A)
  | Raise (e : exn).
Arguments Ok {A} a.
Arguments Raise {A} e.

#[export] Instance res_ret : MRet res := fun A a => Ok a.
#[export] Instance res_bind : MBind res := fun A B f m =>
  match m with Ok a => f a | Raise e => Raise e end.
#[export] Instance res_fmap : FMap res := fun A B f m =>
  match m with Ok a => Ok (f a) | Raise e => Raise e end.
#[export] Instance res_eq_dec {A} `{EqDecision A} : EqDecision (res A).
Proof. solve_decision. Defined.

Definition is_ok {A} (m : res A) : bool := match m with Ok _ => true | Raise _ => false end.

Lemma res_bind_Ok {A B} (m : res A) (f : A -> res B) b :
  m ≫= f = Ok b <-> exists a, m = Ok a /\ f a = Ok b.
Proof.
  destruct m as [a|e]; simpl; split.
  - eauto.
  - intros (a' & [= ->] & ?). done.
  - done.
  - by intros (a' & ? & _).
Qed.

Lemma res_fmap_Ok {A B} (f : A -> B) (m : res A) b : f <$> m = Ok b <-> exists a, m = Ok a /\ b = f a.
Proof. destruct m; naive_solver. Qed.

Lemma res_bind_ret {A} (m : res A) : m ≫= mret = m.
Proof. by destruct m. Qed.

Lemma res_bind_assoc {A B C} (m : res A) (f : A -> res B) (g : B -> res C) :
  (m ≫= f) ≫= g = m ≫= (fun a => f a ≫= g).
Proof. by destruct m. Qed.

(** [for x in l: acc = f(acc, x)] where the body may raise. *)
Fixpoint foldM {A B} (f : B -> A -> res B) (b : B) (l : list A) : res B :=
  match l with
  | [] => Ok b
  | x :: l' => match f b x with Ok b' => foldM f b' l' | Raise e => Raise e end
  end.

Lemma foldM_app {A B} (f : B -> A -> res B) b l1 l2 :
  foldM f b (l1 ++ l2) = foldM f b l1 ≫= (fun b' => foldM f b' l2).
Proof.
  revert b; induction l1 as [|x l1 IH]; intros b; simpl; [done|].
  destruct (f b x); simpl; [apply IH | done].
Qed.

(** An invariant of the body is an invariant of the loop. *)
Lemma foldM_ind {A B} (P : B -> Prop) (f : B -> A -> res B) l b b' :
  (forall b0 x b1, x ∈ l -> P b0 -> f b0 x = Ok b1 -> P b1) ->
  P b -> foldM f b l = Ok b' -> P b'.
Proof.
  revert b; induction l as [|x l IH]; simpl; intros b Hf Hb Hl; [congruence|].
  destruct (f b x) as [b1|] eqn:E; [|done].
  eapply IH; [| |exact Hl].
  - intros; eapply Hf; [|done..]. by right.
  - eapply Hf; [by left|done|done].
Qed.

(** A loop that does not raise ran its body without raising on every element. *)
Lemma foldM_each {A B} (f : B -> A -> res B) b l b' x :
  foldM f b l = Ok b' -> x ∈ l -> exists b0 b1, f b0 x = Ok b1.
Proof.
  revert b; induction l as [|y l IH]; cbn [foldM]; intros b Hl Hx; [by apply not_elem_of_nil in Hx|].
  destruct (f b y) as [b1|] eqn:E; [|done].
  apply elem_of_cons in Hx as [->|Hx]; [eauto|]. by eapply IH.
Qed.

(** A loop whose body never raises under [P] returns; what its body
    establishes of an element, and the rest keeps, holds of all at the end. *)
Lemma foldM_establishes {A B} (P : B -> Prop) (Q : A -> B -> Prop) (f : B -> A -> res B) l b :
  P b -> (forall b x, x ∈ l -> P b -> exists b', f b x = Ok b' /\ P b' /\ Q x b' /\ forall y, Q y b -> Q y b') ->
  exists b', foldM f b l = Ok b' /\ P b' /\ (forall x, x ∈ l -> Q x b') /\ (forall y, Q y b -> Q y b').
Proof.
  revert b. induction l as [|x l IH]; intros b Hb Hstep; cbn [foldM].
  - exists b. split_and!; [done..| |done]. by intros x ?%not_elem_of_nil.
  - destruct (Hstep b x) as (b1 & -> & Hb1 & Hx & Hkeep); [by left|done|].
    destruct (IH b1 Hb1) as (b' & Hok & Hb' & Hall & Hkeep'); [intros b2 y Hy; apply Hstep; by right|].
    exists b'. split_and!; [done..| |auto]. intros y [->|Hy]%elem_of_cons; auto.
Qed.

(** Destructs the successful binds of the context. *)
Ltac res_inv :=
  repeat match goal with
  | H : ?m ≫= ?f = Ok _ |- _ => apply res_bind_Ok in H; destruct H as (? & ? & ?)
  | H : Ok _ = Ok _ |- _ => injection H as H
  | H : Raise _ = Ok _ |- _ => discriminate H
  | H : Ok _ = Raise _ |- _ => discriminate H
  | H : mret _ = Ok _ |- _ => injection H as H
  end; simplify_eq/=.

(** ** Lists *)

(** Number of occurrences, as an integer. *)
Definition occ {A} `{EqDecision A} (x : A) (l : list A) : Z := Z.of_nat (length (filter (eq x) l)).

Lemma occ_nonneg {A} `{EqDecision A} (x : A) l : (0 <= occ x l)%Z.
Proof. unfold occ. lia. Qed.

Lemma occ_cons {A} `{EqDecision A} (x y : A) l :
  occ x (y :: l) = ((if decide (x = y) then 1 else 0) + occ x l)%Z.
Proof.
  unfold occ. rewrite filter_cons. case_decide; simpl; lia.
Qed.

Lemma occ_zero {A} `{EqDecision A} (x : A) l : occ x l = 0%Z <-> x ∉ l.
Proof.
  unfold occ. induction l as [|y l IH]; [split; [intros _; apply not_elem_of_nil | done]|].
  rewrite filter_cons, not_elem_of_cons. case_decide; simpl; [|naive_solver].
  split; [lia | naive_solver].
Qed.

(** [x] occurs before [y]. *)
Definition before {A} (l : list A) (x y : A) : Prop :=
  exists l1 l2, l = l1 ++ y :: l2 /\ x ∈ l1.

Lemma before_snoc {A} (l : list A) x y z : before l x y -> before (l ++ [z]) x y.
Proof.
  intros (l1 & l2 & -> & Hx). exists l1, (l2 ++ [z]). by rewrite <- app_assoc.
Qed.

Lemma before_last {A} (l : list A) x z : x ∈ l -> before (l ++ [z]) x z.
Proof. intros Hx. by exists l, []. Qed.

Lemma before_elem_l {A} (l : list A) x y : before l x y -> x ∈ l.
Proof. intros (l1 & l2 & -> & Hx). apply elem_of_app. by left. Qed.

(** With no repetition, [before] is irreflexive and transitive: an order. *)
Lemma before_irrefl {A} (l : list A) x : NoDup l -> ~ before l x x.
Proof.
  intros Hnd (l1 & l2 & -> & Hx). apply NoDup_app in Hnd as (_ & Hd & _).
  apply (Hd x Hx). by left.
Qed.

(** Without repetition the prefix in front of an element is unique. *)
Lemma NoDup_split_unique {A} (x : A) l1 l2 k1 k2 :
  NoDup (l1 ++ x :: l2) -> l1 ++ x :: l2 = k1 ++ x :: k2 -> k1 = l1.
Proof.
  revert k1. induction l1 as [|a l1 IH]; intros [|b k1] Hnd Heq; simpl in *; [done| | |].
  - injection Heq as -> Heq. subst. apply NoDup_cons in Hnd as [Hb _]. exfalso.
    apply Hb, elem_of_app. right. by left.
  - injection Heq as -> Heq. apply NoDup_cons in Hnd as [Hb _]. exfalso.
    apply Hb, elem_of_app. right. by left.
  - injection Heq as -> Heq. apply NoDup_cons in Hnd as [_ Hnd]. f_equal. eauto.
Qed.

Lemma before_split {A} (l1 l2 : list A) x y : NoDup (l1 ++ y :: l2) -> before (l1 ++ y :: l2) x y -> x ∈ l1.
Proof.
  intros Hnd (k1 & k2 & Heq & Hx). apply NoDup_split_unique in Heq; [|done]. by subst.
Qed.

Lemma before_trans {A} (l : list A) x y z : NoDup l -> before l x y -> before l y z -> before l x z.
Proof.
  intros Hnd Hxy (k1 & k2 & -> & Hy). exists k1, k2. split; [done|].
  apply list_elem_of_split in Hy as (k3 & k4 & ->).
  rewrite <- app_assoc in Hnd, Hxy. apply before_split in Hxy; [|done].
  apply elem_of_app. by left.
Qed.

Lemma filter_none {A} (P : A -> Prop) `{forall x, Decision (P x)} (l : list A) :
  (forall x, x ∈ l -> ~ P x) -> filter P l = [].
Proof.
  induction l as [|x l IH]; intros Hl; [done|]. rewrite filter_cons_False by (apply Hl; by left).
  apply IH. intros y Hy. apply Hl. by right.
Qed.

Lemma omap_ext_in {A B} (f g : A -> option B) (l : list A) :
  (forall x, x ∈ l -> f x = g x) -> omap f l = omap g l.
Proof.
  induction l as [|x l IH]; intros Hfg; [done|]. cbn. rewrite (Hfg x) by (by left).
  destruct (g x); [f_equal|]; apply IH; intros y Hy; apply Hfg; by right.
Qed.

Lemma filter_length_le {A} (P : A -> Prop) `{forall x, Decision (P x)} (l : list A) :
  length (filter P l) <= length l.
Proof. induction l as [|x l IH]; [done|]. rewrite filter_cons. case_decide; simpl; lia. Qed.

Lemma filter_all {A} (P : A -> Prop) `{forall x, Decision (P x)} (l : list A) :
  (forall x, x ∈ l -> P x) -> filter P l = l.
Proof.
  induction l as [|x l IH]; intros Hl; [done|]. rewrite filter_cons, decide_True by (apply Hl; by left).
  f_equal. apply IH. intros y Hy. apply Hl. by right.
Qed.

Lemma filter_ext_in {A} (P Q : A -> Prop) `{forall x, Decision (P x)} `{forall x, Decision (Q x)} (l : list A) :
  (forall x, x ∈ l -> P x <-> Q x) -> filter P l = filter Q l.
Proof.
  induction l as [|x l IH]; intros Hl; [done|]. rewrite !filter_cons, IH by (intros y Hy; apply Hl; by right).
  assert (Hx : P x <-> Q x) by (apply Hl; by left).
  destruct (decide (P x)) as [HP|HP], (decide (Q x)) as [HQ|HQ]; tauto.
Qed.

(** ** Cycles in a finite set

    If every element of a finite set has a predecessor in the set, then every
    element is reached from a cycle. *)
Lemma filter_ne_length {A} `{EqDecision A} (v : A) (l : list A) :
  v ∈ l -> length (filter (fun z => z ≠ v) l) < length l.
Proof.
  induction l as [|a l IH]; [by intros ?%not_elem_of_nil|].
  rewrite filter_cons. intros [->|Hin]%elem_of_cons.
  - rewrite decide_False by naive_solver. simpl.
    pose proof (filter_length_le (fun z => z ≠ a) l). lia.
  - specialize (IH Hin). case_decide; simpl; lia.
Qed.

Lemma finite_pred_cycle {A} `{EqDecision A} (R : relation A) (n : nat) (pool : list A) (v : A) :
  length pool <= n -> v ∈ pool -> (forall x, x ∈ pool -> exists y, y ∈ pool /\ tc R y x) ->
  exists c, tc R c c /\ rtc R c v.
Proof.
  revert pool v. induction n as [|n IH]; intros pool v Hlen Hv Hpred.
  { destruct pool; [by apply not_elem_of_nil in Hv | simpl in Hlen; lia]. }
  destruct (Hpred v Hv) as (y & Hy & Hyv).
  destruct (decide (y = v)) as [->|Hne]; [by exists v; split; [|constructor]|].
  destruct (IH (filter (fun z => z ≠ v) pool) y) as (c & Hc & Hcy).
  - pose proof (filter_ne_length v pool Hv). lia.
  - by apply list_elem_of_filter.
  - intros x [Hxv Hx]%list_elem_of_filter. destruct (Hpred x Hx) as (w & Hw & Hwx).
    destruct (decide (w = v)) as [->|Hwv].
    + exists y. split; [by apply list_elem_of_filter | by eapply tc_transitive].
    + exists w. split; [by apply list_elem_of_filter | done].
  - exists c. split; [done|]. etrans; [done|]. by apply tc_rtc.
Qed.

(** ** [sorted]: stable, by a total order *)
Fixpoint insert_sorted {A} (R : relation A) `{forall x y, Decision (R x y)} (x : A) (l : list A) : list A :=
  match l with
  | [] => [x]
  | y :: l' => if decide (R x y) then x :: l else y :: insert_sorted R x l'
  end.
Definition stable_sort {A} (R : relation A) `{forall x y, Decision (R x y)} (l : list A) : list A :=
  foldr (insert_sorted R) [] l.

Lemma insert_sorted_perm {A} (R : relation A) `{forall x y, Decision (R x y)} x l : insert_sorted R x l ≡ₚ x :: l.
Proof.
  induction l as [|y l IH]; simpl; [done|]. destruct (decide (R x y)); [done|]. rewrite IH. apply perm_swap.
Qed.
Lemma stable_sort_perm {A} (R : relation A) `{forall x y, Decision (R x y)} l : stable_sort R l ≡ₚ l.
Proof. induction l as [|x l IH]; simpl; [done|]. by rewrite insert_sorted_perm, IH. Qed.

(** ** [str.strip], [str.lower]

    On ASCII text; the bytes of other characters are kept. *)
Definition is_space (c : ascii) : bool :=
  let n := nat_of_ascii c in ((9 <=? n) && (n <=? 13)) || ((28 <=? n) && (n <=? 32)).

Fixpoint lstrip (s : string) : string :=
  match s with String c s' => if is_space c then lstrip s' else s | EmptyString => s end.

Fixpoint rstrip (s : string) : string :=
  match s with
  | EmptyString => EmptyString
  | String c s' =>
      match rstrip s' with
      | EmptyString => if is_space c then EmptyString else String c EmptyString
      | t => String c t
      end
  end.

Definition strip (s : string) : string := rstrip (lstrip s).

Definition lower_char (c : ascii) : ascii :=
  let n := nat_of_ascii c in if (65 <=? n) && (n <=? 90) then ascii_of_nat (n + 32) else c.

Fixpoint lower (s : string) : string :=
  match s with EmptyString => EmptyString | String c s' => String (lower_char c) (lower s') end.

(** [s.split(c)] *)
Fixpoint split_on (c : ascii) (current s : string) : list string :=
  match s with
  | EmptyString => [current]
  | String x s' => if Ascii.eqb x c then current :: split_on c "" s' else split_on c (String.append current (String x EmptyString)) s'
  end.

(** [s.startswith(prefix)] and the rest *)
Fixpoint strip_prefix (prefix s : string) : option string :=
  match prefix, s with
  | EmptyString, _ => Some s
  | String a p, String b s' => if Ascii.eqb a b then strip_prefix p s' else None
  | String _ _, EmptyString => None
  end.

(** ASCII [str.upper], and [b in a] *)
Definition upper_char (c : ascii) : ascii :=
  let n := nat_of_ascii c in if (97 <=? n) && (n <=? 122) then ascii_of_nat (n - 32) else c.
Fixpoint upper (s : string) : string :=
  match s with EmptyString => EmptyString | String c s' => String (upper_char c) (upper s') end.

(** [b in a] *)
Fixpoint contains (b a : string) : bool :=
  match strip_prefix b a with
  | Some _ => true
  | None => match a with EmptyString => false | String _ a' => contains b a' end
  end.

(** Python's order on strings *)
Definition string_le (a b : string) : Prop := String.leb a b = true.
#[export] Instance string_le_dec a b : Decision (string_le a b) := decide (String.leb a b = true).
