(* ===== verification/Process.v ===== *)
(** * Processes: sequences of transactions

    A service method is not atomic: it runs a sequence of committed database
    transactions and engine calls, and other processes run theirs in between.
    [proc A] is such a sequence over a state [S] (each [Tx] one atomic stretch,
    its continuation free to branch on what the stretch returned), [exec] runs
    it inside a history of the state in which anything may happen between its
    stretches, [run] runs it alone and [race] interleaves two of them.

    The rely/guarantee discipline: a history whose steps all satisfy a relation
    [R] is [lived R]; a process whose stretches all satisfy it [keeps R]. *)
From S2P Require Import Prelude.

Inductive proc (S A : Type) : Type :=
  | Ret (r : res A)
  | Tx (X : Type) (f : S -> X * S) (k : X -> proc S A).
Arguments Ret {S A} r.
Arguments Tx {S A X} f k.

Section Process.
Context {S : Type}.
Implicit Types (s : S) (W : nat -> S).

Fixpoint proc_bind {A B} (k : A -> proc S B) (p : proc S A) : proc S B :=
  match p with
  | Ret (Ok a) => k a
  | Ret (Raise e) => Ret (Raise e)
  | Tx f c => Tx f (fun x => proc_bind k (c x))
  end.
(** [try: p except: h] *)
Fixpoint catch {A} (h : exn -> proc S A) (p : proc S A) : proc S A :=
  match p with
  | Ret (Ok a) => Ret (Ok a)
  | Ret (Raise e) => h e
  | Tx f c => Tx f (fun x => catch h (c x))
  end.
End Process.

#[export] Instance proc_mret S : MRet (proc S) := fun A a => Ret (Ok a).
#[export] Instance proc_mbind S : MBind (proc S) := fun A B k p => proc_bind k p.

(** One transaction that reads and writes, one that only reads, one that only
    writes; and a pure computation that may raise. *)
Definition tx {S X} (f : S -> X * S) : proc S X := Tx f (fun x => Ret (Ok x)).
Definition read {S X} (f : S -> X) : proc S X := tx (fun s => (f s, s)).
Definition write {S} (f : S -> S) : proc S unit := tx (fun s => (tt, f s)).
Definition raise {S A} (e : exn) : proc S A := Ret (Raise e).
Definition lift {S A} (r : res A) : proc S A := Ret r.

(** A process over a part of the state *)
Fixpoint zoom {S T A} (get : S -> T) (put : T -> S -> S) (p : proc T A) : proc S A :=
  match p with
  | Ret r => Ret r
  | Tx f k => Tx (fun s => let (x, t) := f (get s) in (x, put t s)) (fun x => zoom get put (k x))
  end.

Section Histories.
Context {S : Type}.
Implicit Types (s : S) (W : nat -> S).

(** [p], begun at time [t], ends at [t'] with [r]; [W i] is the state after
    the [i]-th step of the history. *)
Fixpoint exec {A} W (p : proc S A) (t : nat) (r : res A) (t' : nat) : Prop :=
  match p with
  | Ret r0 => r = r0 /\ t' = t
  | Tx f k => exists i x, t <= i /\ f (W i) = (x, W (i + 1)) /\ exec W (k x) (i + 1) r t'
  end.

Fixpoint run {A} (p : proc S A) s : res A * S :=
  match p with
  | Ret r => (r, s)
  | Tx f k => let (x, s') := f s in run (k x) s'
  end.

(** The states a lone process goes through. *)
Fixpoint trace {A} (p : proc S A) s : list S :=
  match p with
  | Ret r => []
  | Tx f k => let (x, s') := f s in s' :: trace (k x) s'
  end.

(** Two processes, [true] letting the first one run its next stretch. *)
Definition step {A} (p : proc S A) s : proc S A * S :=
  match p with Ret r => (Ret r, s) | Tx f k => let (x, s') := f s in (k x, s') end.

Fixpoint race {A B} (turns : list bool) (p : proc S A) (q : proc S B) s : list S * (proc S A * proc S B) :=
  match turns with
  | [] => ([], (p, q))
  | turn :: rest =>
      if turn : bool
      then let (p', s') := step p s in let (l, e) := race rest p' q s' in (s' :: l, e)
      else let (q', s') := step q s in let (l, e) := race rest p q' s' in (s' :: l, e)
  end.

(** A finite list of states as a history: the last one stays. *)
Fixpoint history s (l : list S) (i : nat) : S :=
  match l, i with
  | s' :: l', Datatypes.S i' => history s' l' i'
  | _, _ => s
  end.

(** ** Facts *)

Lemma exec_le {A} W (p : proc S A) t r t' : exec W p t r t' -> t <= t'.
Proof.
  revert t. induction p as [r0|X f k IH]; intros t; cbn [exec]; [lia|].
  intros (i & x & Hi & _ & Hk%IH). lia.
Qed.

Lemma exec_bind {A B} W (p : proc S A) (k : A -> proc S B) t r t' :
  exec W (p ≫= k) t r t' <->
  (exists a u, exec W p t (Ok a) u /\ exec W (k a) u r t') \/ (exists e, exec W p t (Raise e) t' /\ r = Raise e).
Proof.
  change (p ≫= k) with (proc_bind k p). revert t. induction p as [[a|e]|X f c IH]; intros t; cbn [proc_bind exec].
  - split; [intros Hk; left; by exists a, t|].
    intros [(a' & u & [[= ->] ->] & Hk)|(e & [[=] _] & _)]; done.
  - split; [intros [-> ->]; right; by exists e|].
    intros [(a' & u & [[=] _] & _)|(e' & [[= ->] ->] & ->)]; done.
  - split.
    + intros (i & x & Hi & Hf & Hx). apply IH in Hx as [(a & u & Ha & Hk)|(e & He & ->)].
      * left. exists a, u. split; [by exists i, x|done].
      * right. exists e. split; [by exists i, x|done].
    + intros [(a & u & (i & x & Hi & Hf & Ha) & Hk)|(e & (i & x & Hi & Hf & He) & ->)]; exists i, x;
        (split_and!; [done|done|]); apply IH; [left; by exists a, u|right; by exists e].
Qed.

Lemma exec_catch {A} W (p : proc S A) h t r t' :
  exec W (catch h p) t r t' <->
  (exists a, exec W p t (Ok a) t' /\ r = Ok a) \/ (exists e u, exec W p t (Raise e) u /\ exec W (h e) u r t').
Proof.
  revert t. induction p as [[a|e]|X f c IH]; intros t; cbn [catch exec].
  - split; [intros [-> ->]; left; by exists a|].
    intros [(a' & [[= ->] ->] & ->)|(e & u & [[=] _] & _)]; done.
  - split; [intros Hh; right; by exists e, t|].
    intros [(a' & [[=] _] & _)|(e' & u & [[= ->] ->] & Hh)]; done.
  - split.
    + intros (i & x & Hi & Hf & Hx). apply IH in Hx as [(a & Ha & ->)|(e & u & He & Hh)].
      * left. exists a. split; [by exists i, x|done].
      * right. exists e, u. split; [by exists i, x|done].
    + intros [(a & (i & x & Hi & Hf & Ha) & ->)|(e & u & (i & x & Hi & Hf & He) & Hh)]; exists i, x;
        (split_and!; [done|done|]); apply IH; [left; by exists a|right; by exists e, u].
Qed.

Lemma exec_tx {A} W (f : S -> A * S) t r t' :
  exec W (tx f) t r t' <-> exists i, t <= i /\ t' = i + 1 /\ exists x, f (W i) = (x, W (i + 1)) /\ r = Ok x.
Proof. cbn. split; [intros (i & x & ? & ? & -> & ->)|intros (i & ? & -> & x & ? & ->)]; by eauto 10. Qed.

Lemma exec_read {A} W (f : S -> A) t r t' :
  exec W (read f) t r t' <-> exists i, t <= i /\ t' = i + 1 /\ W (i + 1) = W i /\ r = Ok (f (W i)).
Proof.
  unfold read. rewrite exec_tx. split; intros (i & Hi & -> & H); exists i; (split_and!; [done|done|..]).
  - by destruct H as (x & [= _ ->] & _).
  - by destruct H as (x & [= <- _] & ->).
  - destruct H as [HW ->]. exists (f (W i)). by rewrite HW.
Qed.

Lemma exec_write W (f : S -> S) t r t' :
  exec W (write f) t r t' <-> exists i, t <= i /\ t' = i + 1 /\ W (i + 1) = f (W i) /\ r = Ok tt.
Proof.
  unfold write. rewrite exec_tx. split; intros (i & Hi & -> & H); exists i; (split_and!; [done|done|..]).
  - by destruct H as (x & [= _ ->] & _).
  - by destruct H as ([] & _ & ->).
  - destruct H as [HW ->]. exists tt. by rewrite HW.
Qed.

(** What came before a process that returned *)
Lemma exec_bind_Ok {A B} W (p : proc S A) (k : A -> proc S B) t b t' :
  exec W (p ≫= k) t (Ok b) t' -> exists a u, exec W p t (Ok a) u /\ exec W (k a) u (Ok b) t'.
Proof. intros [H|(e & _ & [=])]%exec_bind. done. Qed.
Lemma exec_read_Ok {A B} W (f : S -> A) (k : A -> proc S B) t b t' :
  exec W (read f ≫= k) t (Ok b) t' -> exists i, t <= i /\ exec W (k (f (W i))) (i + 1) (Ok b) t'.
Proof. intros (a & u & (i & Hi & -> & _ & [= ->])%exec_read & Hk)%exec_bind_Ok. by exists i. Qed.
Lemma exec_lift_Ok {A B} W (r : res A) (k : A -> proc S B) t b t' :
  exec W (lift r ≫= k) t (Ok b) t' -> exists a, r = Ok a /\ exec W (k a) t (Ok b) t'.
Proof. intros (a & u & [<- ->] & Hk)%exec_bind_Ok. by exists a. Qed.

(** A process may be started earlier. *)
Lemma exec_earlier {A} W (p : proc S A) t u r t' : u <= t -> exec W p t r t' -> exists t'', t'' <= t' /\ exec W p u r t''.
Proof.
  intros Hu. destruct p as [r0|X f k]; cbn [exec].
  - intros [-> ->]. by exists u.
  - intros (i & x & Hi & Hf & Hk). exists t'. split; [done|]. exists i, x. split_and!; [lia|done|done].
Qed.

(** ** What a lone process and two racing ones do, as histories *)

Lemma history_0 s l : history s l 0 = s.
Proof. by destruct l. Qed.

Lemma run_exec {A} W (p : proc S A) s n :
  (forall i, i <= length (trace p s) -> W (n + i) = history s (trace p s) i) ->
  exec W p n (run p s).1 (n + length (trace p s)) /\ W (n + length (trace p s)) = (run p s).2.
Proof.
  revert s n. induction p as [r|X f k IH]; intros s n HW; cbn [run trace exec] in *.
  - split; [simpl; split; [done|lia]|]. by apply (HW 0).
  - destruct (f s) as [x s'] eqn:Hf. cbn [length] in *.
    assert (Hn : W n = s) by (specialize (HW 0); rewrite Nat.add_0_r in HW; apply HW; lia).
    assert (Hn' : W (n + 1) = s') by (rewrite HW by lia; apply history_0).
    destruct (IH x s' (n + 1)) as [He Hl].
    { intros i Hi. replace (n + 1 + i) with (n + Datatypes.S i) by lia. by rewrite HW by lia. }
    replace (n + 1 + length (trace (k x) s')) with (n + Datatypes.S (length (trace (k x) s'))) in * by lia.
    split; [|done]. exists n, x. split_and!; [done|by rewrite Hn, Hn'|done].
Qed.

Lemma run_exec_alone {A} (p : proc S A) s :
  exec (history s (trace p s)) p 0 (run p s).1 (length (trace p s)) /\
  history s (trace p s) (length (trace p s)) = (run p s).2.
Proof. by apply (run_exec (history s (trace p s)) p s 0). Qed.

Lemma race_exec {A B} W turns (p : proc S A) (q : proc S B) s n l r r' :
  race turns p q s = (l, (Ret r, Ret r')) ->
  (forall i, i <= length l -> W (n + i) = history s l i) ->
  exists t t', t <= n + length l /\ t' <= n + length l /\ exec W p n r t /\ exec W q n r' t'.
Proof.
  revert p q s n l. induction turns as [|turn turns IH]; intros p q s n l; cbn [race].
  { intros [= <- -> ->] _. exists n, n. cbn [exec length]. split_and!; try done; lia. }
  intros Hrace HW.
  assert (Hn : W n = s) by (specialize (HW 0); rewrite Nat.add_0_r, history_0 in HW; apply HW; lia).
  assert (Hnext : forall s' l', l = s' :: l' -> W (n + 1) = s' /\ forall i, i <= length l' -> W (n + 1 + i) = history s' l' i).
  { intros s' l' ->. cbn [length] in HW. split; [rewrite HW by lia; apply history_0|]. intros i Hi.
    replace (n + 1 + i) with (n + Datatypes.S i) by lia. by rewrite HW by lia. }
  destruct turn.
  - destruct (step p s) as [p' s'] eqn:Hstep. destruct (race turns p' q s') as [l' e] eqn:Hr. simplify_eq/=.
    destruct (Hnext s' l' eq_refl) as [Hn' HW']. destruct (IH _ _ _ _ _ Hr HW') as (t & t' & Ht & Ht' & Hp & Hq).
    destruct (exec_earlier W q (n + 1) n r' t' ltac:(lia) Hq) as (t2 & Ht2 & Hq2).
    destruct p as [r0|X f k].
    + injection Hstep as <- Hs. destruct (exec_earlier W (Ret r0) (n + 1) n r t ltac:(lia) Hp) as (t1 & Ht1 & Hp1).
      exists t1, t2. split_and!; [lia|lia|done..].
    + cbn [step] in Hstep. destruct (f (W n)) as [x s2] eqn:Hf. injection Hstep as <- <-.
      exists t, t2. split_and!; [lia|lia| |done]. exists n, x. split_and!; [done| |done]. by rewrite Hf, Hn'.
  - destruct (step q s) as [q' s'] eqn:Hstep. destruct (race turns p q' s') as [l' e] eqn:Hr. simplify_eq/=.
    destruct (Hnext s' l' eq_refl) as [Hn' HW']. destruct (IH _ _ _ _ _ Hr HW') as (t & t' & Ht & Ht' & Hp & Hq).
    destruct (exec_earlier W p (n + 1) n r t ltac:(lia) Hp) as (t1 & Ht1 & Hp1).
    destruct q as [r0|X f k].
    + injection Hstep as <- Hs. destruct (exec_earlier W (Ret r0) (n + 1) n r' t' ltac:(lia) Hq) as (t2 & Ht2 & Hq2).
      exists t1, t2. split_and!; [lia|lia|done..].
    + cbn [step] in Hstep. destruct (f (W n)) as [x s2] eqn:Hf. injection Hstep as <- <-.
      exists t1, t'. split_and!; [lia|lia|done|]. exists n, x. split_and!; [done| |done]. by rewrite Hf, Hn'.
Qed.

(** ** Rely and guarantee *)

Definition lived (R : S -> S -> Prop) W : Prop := forall i, R (W i) (W (i + 1)).

Fixpoint keeps {A} (R : S -> S -> Prop) (p : proc S A) : Prop :=
  match p with
  | Ret _ => True
  | Tx f k => forall s, R s (f s).2 /\ keeps R (k (f s).1)
  end.

Fixpoint guarantees {A} (R : S -> S -> Prop) (P : A -> Prop) (p : proc S A) : Prop :=
  match p with
  | Ret (Ok a) => P a
  | Ret (Raise _) => True
  | Tx f k => forall s, R s (f s).2 /\ guarantees R P (k (f s).1)
  end.

Section Rely.
Context (R : S -> S -> Prop) `{!PreOrder R}.

Lemma lived_le W i j : lived R W -> i <= j -> R (W i) (W j).
Proof.
  intros HW. induction 1 as [|j Hj IH]; [reflexivity|]. etrans; [exact IH|].
  replace (Datatypes.S j) with (j + 1) by lia. apply HW.
Qed.

Lemma keeps_bind {A B} (p : proc S A) (k : A -> proc S B) :
  keeps R p -> (forall a, keeps R (k a)) -> keeps R (p ≫= k).
Proof.
  change (p ≫= k) with (proc_bind k p). intros Hp Hk. induction p as [[a|e]|X f c IH]; cbn [proc_bind keeps] in *; [apply Hk|done|].
  intros s. destruct (Hp s) as [Hs Hc]. split; [done|]. by apply IH.
Qed.

Lemma keeps_mono {A} (R' : S -> S -> Prop) (p : proc S A) : (forall s s', R s s' -> R' s s') -> keeps R p -> keeps R' p.
Proof.
  intros HR. induction p as [r|X f k IH]; cbn [keeps]; [done|]. intros Hp s. destruct (Hp s) as [Hs Hk]. split; [by apply HR|by apply IH].
Qed.

Lemma keeps_catch {A} (p : proc S A) h : keeps R p -> (forall e, keeps R (h e)) -> keeps R (catch h p).
Proof.
  intros Hp Hh. induction p as [[a|e]|X f c IH]; cbn [catch keeps] in *; [done|apply Hh|].
  intros s. destruct (Hp s) as [Hs Hc]. split; [done|]. by apply IH.
Qed.

Lemma keeps_bind_left {A B} (p : proc S A) (k : A -> proc S B) : keeps R (p ≫= k) -> keeps R p.
Proof.
  change (p ≫= k) with (proc_bind k p). induction p as [[a|e]|X f c IH]; cbn [proc_bind keeps]; [done..|].
  intros Hp s. destruct (Hp s) as [Hs Hc]. split; [done|by apply IH].
Qed.

(** What a process returns, if it returns, satisfies [P]. *)
Lemma guarantees_bind {A B} (P : B -> Prop) (p : proc S A) (k : A -> proc S B) :
  keeps R p -> (forall a, guarantees R P (k a)) -> guarantees R P (p ≫= k).
Proof.
  change (p ≫= k) with (proc_bind k p). intros Hp Hk. induction p as [[a|e]|X f c IH]; cbn [proc_bind guarantees keeps] in *; [apply Hk|done|].
  intros s. destruct (Hp s) as [Hs Hc]. split; [done|]. by apply IH.
Qed.

Lemma guarantees_keeps {A B} (P : A -> Prop) (p : proc S A) (k : A -> proc S B) :
  guarantees R P p -> (forall a, P a -> keeps R (k a)) -> keeps R (p ≫= k).
Proof.
  change (p ≫= k) with (proc_bind k p). intros Hp Hk. induction p as [[a|e]|X f c IH]; cbn [proc_bind guarantees keeps] in *; [by apply Hk|done|].
  intros s. destruct (Hp s) as [Hs Hc]. split; [done|]. by apply IH.
Qed.

Lemma exec_guarantees {A} (P : A -> Prop) (p : proc S A) W t a t' : guarantees R P p -> exec W p t (Ok a) t' -> P a.
Proof.
  revert t. induction p as [[b|e]|X f k IH]; intros t Hp; cbn [exec guarantees] in *; [by intros [[= ->] _]|by intros [[=] _]|].
  intros (i & x & _ & Hf & Hk). eapply IH; [|exact Hk]. specialize (Hp (W i)) as [_ Hp]. by rewrite Hf in Hp.
Qed.

Lemma keeps_tx {X} (f : S -> X * S) : (forall s, R s (f s).2) -> keeps R (tx f).
Proof. intros Hf s. by split. Qed.
Lemma keeps_read {X} (f : S -> X) : keeps R (read f).
Proof. apply keeps_tx. intros s. reflexivity. Qed.
Lemma keeps_write (f : S -> S) : (forall s, R s (f s)) -> keeps R (write f).
Proof. intros Hf. by apply keeps_tx. Qed.

Lemma trace_lived {A} (p : proc S A) s : keeps R p -> lived R (history s (trace p s)).
Proof.
  revert s. induction p as [r|X f k IH]; intros s Hp i; cbn [trace keeps] in *; [simpl; reflexivity|].
  specialize (Hp s) as [Hs Hk]. destruct (f s) as [x s'] eqn:Hf. destruct i as [|i].
  - cbn [history Nat.add]. by rewrite history_0.
  - cbn [history Nat.add]. by apply IH.
Qed.

Lemma step_keeps {A} (p : proc S A) s : keeps R p -> R s (step p s).2 /\ keeps R (step p s).1.
Proof. destruct p as [r|X f k]; cbn [keeps step]; [done|]. intros Hp. destruct (Hp s). by destruct (f s). Qed.

Lemma race_lived {A B} turns (p : proc S A) (q : proc S B) s :
  keeps R p -> keeps R q -> lived R (history s (race turns p q s).1).
Proof.
  revert p q s. induction turns as [|turn turns IH]; intros p q s Hp Hq i; cbn [race]; [simpl; reflexivity|].
  destruct turn.
  - destruct (step_keeps p s Hp) as [Hs Hp']. destruct (step p s) as [p' s']. specialize (IH p' q s' Hp' Hq).
    destruct (race turns p' q s') as [l e]. destruct i as [|i]; cbn [fst history Nat.add]; [by rewrite history_0|apply IH].
  - destruct (step_keeps q s Hq) as [Hs Hq']. destruct (step q s) as [q' s']. specialize (IH p q' s' Hp Hq').
    destruct (race turns p q' s') as [l e]. destruct i as [|i]; cbn [fst history Nat.add]; [by rewrite history_0|apply IH].
Qed.

(** Every stretch a lone process runs satisfies [R]. *)
Lemma run_keeps {A} (p : proc S A) s : keeps R p -> R s (run p s).2.
Proof.
  intros Hp. destruct (run_exec_alone p s) as [_ <-]. rewrite <- (history_0 s (trace p s)) at 1.
  apply lived_le; [by apply trace_lived|lia].
Qed.
End Rely.

(** ** Running alone *)

Lemma run_bind {A B} (p : proc S A) (k : A -> proc S B) s :
  run (p ≫= k) s = match run p s with (Ok a, s') => run (k a) s' | (Raise e, s') => (Raise e, s') end.
Proof.
  change (p ≫= k) with (proc_bind k p). revert s. induction p as [[a|e]|X f c IH]; intros s; cbn [proc_bind run]; [done..|].
  by destruct (f s) as [x s'].
Qed.

Lemma run_catch {A} (p : proc S A) h s :
  run (catch h p) s = match run p s with (Ok a, s') => (Ok a, s') | (Raise e, s') => run (h e) s' end.
Proof.
  revert s. induction p as [[a|e]|X f c IH]; intros s; cbn [catch run]; [done..|].
  by destruct (f s) as [x s'].
Qed.
End Histories.

(** A zoomed process, alone, is the process on its part. *)
Lemma run_zoom {S T A} (get : S -> T) (put : T -> S -> S) (p : proc T A) s :
  (forall t s, get (put t s) = t) -> (forall t t' s, put t (put t' s) = put t s) -> (forall s, put (get s) s = s) ->
  run (zoom get put p) s = ((run p (get s)).1, put (run p (get s)).2 s).
Proof.
  intros Hgp Hpp Hpg. revert s. induction p as [r|X f k IH]; intros s; cbn [zoom run fst snd]; [by rewrite Hpg|].
  destruct (f (get s)) as [x t]. by rewrite IH, Hgp, Hpp.
Qed.

(** Whatever happens on the way, the process returns [v], if it returns. *)
Fixpoint returns {S A} (v : A) (p : proc S A) : Prop :=
  match p with
  | Ret (Ok a) => a = v
  | Ret (Raise _) => True
  | Tx f k => forall x, returns v (k x)
  end.

Lemma exec_returns {S A} (v : A) W (p : proc S A) t a t' : returns v p -> exec W p t (Ok a) t' -> a = v.
Proof.
  revert t. induction p as [[r|e]|X f k IH]; intros t Hp; cbn [exec]; [intros [[= ->] _]; exact Hp|by intros [[=] _]|].
  intros (i & x & _ & _ & Hk). by eapply IH.
Qed.

Lemma returns_bind {S A B} (v : B) (p : proc S A) (k : A -> proc S B) : (forall a, returns v (k a)) -> returns v (p ≫= k).
Proof.
  change (p ≫= k) with (proc_bind k p). intros Hk. induction p as [[a|e]|X f c IH]; cbn [proc_bind returns]; [apply Hk|done|].
  intros x. apply IH.
Qed.

(** In a history, a zoomed process is the process in the history of its part. *)
Lemma exec_zoom {S T A} (get : S -> T) (put : T -> S -> S) W (p : proc T A) t r t' :
  (forall t s, get (put t s) = t) -> exec W (zoom get put p) t r t' -> exec (fun i => get (W i)) p t r t'.
Proof.
  intros Hgp. revert t. induction p as [r0|X f k IH]; intros t; cbn [zoom exec]; [done|].
  intros (i & x & Hi & Hf & Hk). destruct (f (get (W i))) as [y u] eqn:Hfu. injection Hf as <- Hput.
  exists i, y. split_and!; [done| |by apply IH]. by rewrite Hfu, <- Hput, Hgp.
Qed.

Create HintDb keeps.
#[export] Hint Resolve keeps_bind keeps_catch keeps_read keeps_write keeps_tx : keeps.

(** ** Cancellation

    A task that is cancelled gets the exception at one of its awaits: here at
    its [n]-th stretch, which does not run. *)
Fixpoint cut_at {S A} (n : nat) (e : exn) (p : proc S A) : proc S A :=
  match p, n with
  | Ret r, _ => Ret r
  | Tx _ _, 0 => Ret (Raise e)
  | Tx f k, Datatypes.S n' => Tx f (fun x => cut_at n' e (k x))
  end.

(** What a cut process does, the whole one does, up to the cut. *)
Lemma exec_cut {S A} (W : nat -> S) n e (p : proc S A) t r t' :
  exec W (cut_at n e p) t r t' -> exec W p t r t' \/ r = Raise e.
Proof.
  revert n t. induction p as [r0|X f k IH]; intros n t; [by destruct n; left|].
  destruct n as [|n]; cbn [cut_at exec]; [intros [-> _]; by right|].
  intros (i & x & Hi & Hf & [Hk| ->]%IH); [left; by exists i, x|by right].
Qed.

(** ** Any number of processes, and a resource only one of them can take

    [play] lets the processes of a pool take their stretches in any order.
    [settled] is a property of the state that a process makes true when it takes
    the resource, that only the process holding it can make false again, by
    letting go; [exclusive held p] says that [p] follows this discipline, [held]
    telling whether it holds the resource, and that it ends with [Some _]
    exactly when it kept it. *)
Section Pool.
Context {S A : Type}.

Fixpoint play (turns : list nat) (pool : list (proc S (option A))) (s : S) : list (proc S (option A)) * S :=
  match turns with
  | [] => (pool, s)
  | i :: rest =>
      match pool !! i with
      | Some p => let (p', s') := step p s in play rest (<[i := p']> pool) s'
      | None => play rest pool s
      end
  end.

Context (settled : S -> Prop).

Fixpoint exclusive {B} (keep : B -> bool) (held : bool) (p : proc S B) : Prop :=
  match p with
  | Ret r => held = match r with Ok b => keep b | Raise _ => false end
  | Tx f k => forall s, (settled s -> held = false -> settled (f s).2) /\
      if held
      then (settled s -> settled (f s).2) /\ exclusive keep true (k (f s).1) \/ exclusive keep false (k (f s).1)
      else exclusive keep false (k (f s).1) \/ ~ settled s /\ settled (f s).2 /\ exclusive keep true (k (f s).1)
  end.

Definition kept (o : option A) : bool := match o with Some _ => true | None => false end.

(** The pool, with the holder if there is one. *)
Definition held_by (holder : option nat) (pool : list (proc S (option A))) (s : S) : Prop :=
  (forall i p, pool !! i = Some p -> exclusive kept (bool_decide (holder = Some i)) p) /\ (is_Some holder -> settled s).

Lemma held_by_step holder pool s i p :
  held_by holder pool s -> pool !! i = Some p ->
  exists holder', held_by holder' (<[i := (step p s).1]> pool) (step p s).2.
Proof.
  intros [Hall Hset] Hi. pose proof (Hall i p Hi) as Hp.
  assert (Hothers : forall holder', (forall j, j <> i -> holder' = Some j <-> holder = Some j) ->
            exclusive kept (bool_decide (holder' = Some i)) (step p s).1 ->
            forall j q, <[i := (step p s).1]> pool !! j = Some q -> exclusive kept (bool_decide (holder' = Some j)) q).
  { intros holder' Hh Hpi j q. destruct (decide (j = i)) as [->|Hne].
    - rewrite list_lookup_insert_eq by (by eapply lookup_lt_Some). by intros [= <-].
    - rewrite list_lookup_insert_ne by done. intros Hq. rewrite (bool_decide_ext _ (holder = Some j)) by (by apply Hh). by apply Hall. }
  destruct p as [r|X f k].
  { exists holder. split; [|done]. by apply Hothers. }
  cbn [step] in *. specialize (Hp s) as [Hsettle Hp]. destruct (f s) as [x s'] eqn:Hf. cbn [fst snd] in *.
  destruct (decide (holder = Some i)) as [->|Hne].
  - rewrite bool_decide_true in Hp by done. destruct Hp as [[Hs Hk]|Hk].
    + exists (Some i). split; [apply Hothers; [done|by rewrite bool_decide_true]|]. intros _. apply Hs, Hset. by eexists.
    + exists None. split; [|by intros [? [=]]]. apply Hothers; [|by rewrite bool_decide_false].
      intros j Hj. split; [done|]. congruence.
  - rewrite bool_decide_false in Hp by done. destruct Hp as [Hk|(Hns & Hs & Hk)].
    + exists holder. split; [apply Hothers; [done|by rewrite bool_decide_false]|]. intros Hh. apply Hsettle; [by apply Hset|by apply bool_decide_false].
    + exists (Some i). split; [apply Hothers; [|by rewrite bool_decide_true]|by intros _].
      intros j Hj. split; [congruence|]. intros ->. destruct Hns. apply Hset. by eexists.
Qed.

Lemma held_by_play turns holder pool s :
  held_by holder pool s -> exists holder', held_by holder' (play turns pool s).1 (play turns pool s).2.
Proof.
  revert holder pool s. induction turns as [|i turns IH]; intros holder pool s Hh; cbn [play]; [by exists holder|].
  destruct (pool !! i) as [p|] eqn:Hi; [|by eapply IH]. destruct (held_by_step holder pool s i p Hh Hi) as [holder' Hh'].
  destruct (step p s) as [p' s']. by eapply IH.
Qed.

(** Of a pool of processes that follow the discipline, at most one ends with
    the resource, and then it stays taken. *)
Lemma one_winner turns pool s :
  (forall p, p ∈ pool -> exclusive kept false p) ->
  let (pool', s') := play turns pool s in
  (forall i j a b, pool' !! i = Some (Ret (Ok (Some a))) -> pool' !! j = Some (Ret (Ok (Some b))) -> i = j) /\
  (forall i a, pool' !! i = Some (Ret (Ok (Some a))) -> settled s').
Proof.
  intros Hpool. destruct (held_by_play turns None pool s) as [holder [Hall Hset]].
  { split; [|by intros [? [=]]]. intros i p Hi. rewrite bool_decide_false by done. apply Hpool. by eapply list_elem_of_lookup_2. }
  destruct (play turns pool s) as [pool' s']. cbn [fst snd] in *.
  assert (Hwin : forall i a, pool' !! i = Some (Ret (Ok (Some a))) -> holder = Some i).
  { intros i a Hi. specialize (Hall i _ Hi). cbn in Hall. by apply bool_decide_eq_true in Hall. }
  split; [|intros i a Hi; apply Hset; rewrite (Hwin i a Hi); by eexists].
  intros i j a b Hi%Hwin Hj%Hwin. congruence.
Qed.

(** Stretches that never unsettle do not matter to the discipline. *)
Definition stays (s s' : S) : Prop := settled s -> settled s'.

Lemma exclusive_catch {B C} (keep : C -> bool) held (p : proc S B) h (k : B -> proc S C) :
  keeps stays p -> (forall b, exclusive keep held (k b)) -> (forall e, exclusive keep held (h e ≫= k)) ->
  exclusive keep held (catch h p ≫= k).
Proof.
  intros Hp Hk Hh. change (catch h p ≫= k) with (proc_bind k (catch h p)). induction p as [[b|e]|X f c IH]; cbn [catch proc_bind keeps] in *.
  - apply Hk.
  - apply Hh.
  - intros s. destruct (Hp s) as [Hs Hc]. split; [intros ? _; by apply Hs|]. specialize (IH (f s).1 Hc). destruct held; left; [split; [exact Hs|done]|done].
Qed.

Lemma exclusive_bind {B C} (keep : C -> bool) (p : proc S B) (k : B -> proc S C) :
  keeps stays p -> (forall b, exclusive keep false (k b)) -> exclusive keep false (p ≫= k).
Proof.
  intros Hp Hk. change (p ≫= k) with (proc_bind k p). induction p as [[b|e]|X f c IH]; cbn [proc_bind keeps] in *; [apply Hk|done|].
  intros s. destruct (Hp s) as [Hs Hc]. split; [intros ? _; by apply Hs|]. left. by apply IH.
Qed.

(** In sequence *)
Lemma exclusive_seq {B C} (keep : B -> bool) (keep' : C -> bool) held (p : proc S B) (k : B -> proc S C) :
  exclusive keep held p -> (forall b, exclusive keep' (keep b) (k b)) -> exclusive keep' held (p ≫= k).
Proof.
  intros Hp Hk. change (p ≫= k) with (proc_bind k p). revert held Hp. induction p as [[b|e]|X f c IH]; intros held; cbn [proc_bind exclusive].
  - intros ->. apply Hk.
  - done.
  - intros Hp s. specialize (Hp s) as [Hs Hc]. split; [done|]. destruct held; destruct Hc as [Hc|Hc]; [left|right|left|right]; naive_solver.
Qed.

Lemma exclusive_handle {B} (keep : B -> bool) held (p : proc S B) h :
  exclusive keep held p -> (forall e, exclusive keep false (h e)) -> exclusive keep held (catch h p).
Proof.
  intros Hp Hh. revert held Hp. induction p as [[b|e]|X f c IH]; intros held; cbn [catch exclusive].
  - done.
  - intros ->. apply Hh.
  - intros Hp s. specialize (Hp s) as [Hs Hc]. split; [done|]. destruct held; destruct Hc as [Hc|Hc]; [left|right|left|right]; naive_solver.
Qed.

(** Taking the resource, recording something while holding it, letting it go. *)
Lemma exclusive_take {B C} (keep : C -> bool) (f : S -> option B * S) (k : option B -> proc S C) :
  (forall s, settled s -> f s = (None, s)) -> (forall s, is_Some (f s).1 -> settled (f s).2) ->
  (forall b, exclusive keep true (k (Some b))) -> exclusive keep false (k None) -> exclusive keep false (tx f ≫= k).
Proof.
  intros Hno Htake Hsome Hnone s. cbn. split; [by intros Hs _; rewrite (Hno s Hs)|].
  destruct (f s) as [[b|] s'] eqn:Hf; [|by left]. right. split_and!; [|by specialize (Htake s); rewrite Hf in Htake; eauto|apply Hsome].
  intros Hs%Hno. congruence.
Qed.

Lemma exclusive_hold {B C} (keep : C -> bool) (f : S -> B * S) (k : B -> proc S C) :
  (forall s, stays s (f s).2) -> (forall b, exclusive keep true (k b)) -> exclusive keep true (tx f ≫= k).
Proof. intros Hf Hk s. cbn. split; [by intros|]. left. split; [apply Hf|apply Hk]. Qed.

Lemma exclusive_drop {B C} (keep : C -> bool) (f : S -> B * S) (k : B -> proc S C) :
  (forall b, exclusive keep false (k b)) -> exclusive keep true (tx f ≫= k).
Proof. intros Hk s. cbn. split; [by intros|]. right. apply Hk. Qed.
End Pool.

(** ** What a process may raise *)
Fixpoint raises {S A} (P : exn -> Prop) (p : proc S A) : Prop :=
  match p with
  | Ret (Ok _) => True
  | Ret (Raise e) => P e
  | Tx f k => forall x, raises P (k x)
  end.

Lemma raises_bind {S A B} (P : exn -> Prop) (p : proc S A) (k : A -> proc S B) : raises P p -> (forall a, raises P (k a)) -> raises P (p ≫= k).
Proof.
  change (p ≫= k) with (proc_bind k p). intros Hp Hk. induction p as [[a|e]|X f c IH]; cbn [proc_bind raises] in *; [apply Hk|exact Hp|]. intros x. by apply IH.
Qed.
Lemma exec_raises {S A} (P : exn -> Prop) W (p : proc S A) t e t' : raises P p -> exec W p t (Raise e) t' -> P e.
Proof.
  revert t. induction p as [[b|e0]|X f k IH]; intros t Hp; cbn [exec raises] in *; [by intros [[=] _]|by intros [[= ->] _]|].
  intros (i & x & _ & _ & Hk). by eapply IH.
Qed.
