(* ===== verification/Dict.v ===== *)
(** * Insertion-ordered string dictionaries

    A Python [dict] with string keys is an association list in insertion
    order: assigning an existing key keeps its position, a new key goes to the
    end.  [dict_equiv] is equality of the lookups, which is what [==] on dicts
    and every order-insensitive use of them sees. *)
From S2P Require Import Prelude.

Abbreviation dict V := (list (string * V)).

Section dict.
Context {V : Type}.
Implicit Types (d e : dict V) (k : string) (v : V).

Fixpoint dget k d : option V :=
  match d with
  | [] => None
  | (k', v) :: d' => if decide (k = k') then Some v else dget k d'
  end.

Fixpoint dset k v d : dict V :=
  match d with
  | [] => [(k, v)]
  | (k', v') :: d' => if decide (k = k') then (k', v) :: d' else (k', v') :: dset k v d'
  end.

Definition dkeys d : list string := d.*1.
Definition dvalues d : list V := d.*2.

(** [k in d] *)
Definition dmem k d : bool := bool_decide (k ∈ dkeys d).

(** [d.get(k, default)] *)
Definition dget_or (dflt : V) k d : V := default dflt (dget k d).

(** [{**d, **e}]: also the loop [for k, v in e.items(): d[k] = v]. *)
Definition dupdate d e : dict V := foldl (fun acc kv => dset kv.1 kv.2 acc) d e.

Definition dict_wf d : Prop := NoDup (dkeys d).

Lemma dget_dset_eq k v d : dget k (dset k v d) = Some v.
Proof.
  induction d as [|[k' v'] d IH]; simpl.
  - by rewrite decide_True.
  - destruct (decide (k = k')) as [->|]; simpl.
    + by rewrite decide_True.
    + by rewrite decide_False.
Qed.

Lemma dget_dset_ne k k' v d : k ≠ k' -> dget k (dset k' v d) = dget k d.
Proof.
  intros Hne. induction d as [|[k0 v0] d IH]; simpl.
  - by rewrite decide_False.
  - destruct (decide (k' = k0)) as [->|]; simpl; case_decide; congruence.
Qed.

Lemma dget_dset k k' v d :
  dget k (dset k' v d) = if decide (k = k') then Some v else dget k d.
Proof.
  case_decide; [subst; apply dget_dset_eq | by apply dget_dset_ne].
Qed.

Lemma dget_Some_elem k v d : dget k d = Some v -> (k, v) ∈ d.
Proof.
  induction d as [|[k' v'] d IH]; simpl; [done|]. case_decide; intros Hg.
  - simplify_eq. by left.
  - right. auto.
Qed.

Lemma elem_dget_Some k v d : dict_wf d -> (k, v) ∈ d -> dget k d = Some v.
Proof.
  unfold dict_wf, dkeys. induction d as [|[k' v'] d IH]; simpl.
  - by intros _ ?%not_elem_of_nil.
  - intros [Hk Hd]%NoDup_cons [?|Hin]%elem_of_cons; case_decide; simplify_eq; auto.
    exfalso. apply Hk. apply list_elem_of_fmap. by exists (k', v).
Qed.

Lemma elem_of_dkeys k d : k ∈ dkeys d <-> is_Some (dget k d).
Proof.
  induction d as [|[k' v'] d IH]; simpl.
  - split; [by intros ?%not_elem_of_nil | by intros [? ?]].
  - rewrite elem_of_cons. case_decide; subst; [split; eauto|].
    fold (dkeys d). rewrite IH. naive_solver.
Qed.

Lemma dget_None k d : dget k d = None <-> k ∉ dkeys d.
Proof. rewrite elem_of_dkeys. by rewrite eq_None_not_Some. Qed.

Lemma dmem_spec k d : dmem k d = true <-> is_Some (dget k d).
Proof. unfold dmem. rewrite bool_decide_eq_true. apply elem_of_dkeys. Qed.

Lemma dkeys_cons k v d : dkeys ((k, v) :: d) = k :: dkeys d.
Proof. done. Qed.

Lemma dkeys_dset k v d :
  dkeys (dset k v d) = if decide (k ∈ dkeys d) then dkeys d else dkeys d ++ [k].
Proof.
  induction d as [|[k' v'] d IH]; cbn [dset].
  - rewrite decide_False; [done | apply not_elem_of_nil].
  - destruct (decide (k = k')) as [->|Hne].
    + by rewrite !dkeys_cons, decide_True by left.
    + rewrite !dkeys_cons, IH. destruct (decide (k ∈ dkeys d)) as [Hin|Hin].
      * by rewrite decide_True by (by right).
      * rewrite decide_False; [done|]. rewrite elem_of_cons. naive_solver.
Qed.

Lemma elem_of_dkeys_dset k k' v d : k ∈ dkeys (dset k' v d) <-> k = k' \/ k ∈ dkeys d.
Proof.
  rewrite !elem_of_dkeys, dget_dset. case_decide; subst; naive_solver.
Qed.

Lemma dict_wf_nil : dict_wf [].
Proof. apply NoDup_nil_2. Qed.

Lemma dset_fresh k v d : k ∉ dkeys d -> dset k v d = d ++ [(k, v)].
Proof.
  induction d as [|[k' w] d IH]; cbn; [done|]. intros [Hk Hd]%not_elem_of_cons. rewrite decide_False by done. by rewrite IH.
Qed.

Lemma dset_wf k v d : dict_wf d -> dict_wf (dset k v d).
Proof.
  unfold dict_wf. rewrite dkeys_dset. case_decide; [done|].
  intros ?. apply NoDup_app. split_and!; [done| |apply NoDup_singleton].
  intros x Hx ->%list_elem_of_singleton. done.
Qed.

Lemma dupdate_wf d e : dict_wf d -> dict_wf (dupdate d e).
Proof.
  unfold dupdate. revert d.
  induction e as [|[k v] e IH]; intros d Hd; simpl; [done|].
  apply IH. by apply dset_wf.
Qed.

Lemma dget_dupdate k d e :
  dict_wf e -> dget k (dupdate d e) = match dget k e with Some v => Some v | None => dget k d end.
Proof.
  unfold dupdate, dict_wf, dkeys. revert d. induction e as [|[k' v'] e IH]; intros d; simpl.
  - done.
  - intros [Hk He]%NoDup_cons. rewrite IH by done. rewrite dget_dset.
    destruct (decide (k = k')) as [->|]; [|done].
    apply dget_None in Hk. by rewrite Hk.
Qed.

Definition dict_equiv : relation (dict V) := fun d e => forall k, dget k d = dget k e.

#[export] Instance dict_equiv_equivalence : Equivalence dict_equiv.
Proof. split; unfold dict_equiv; repeat intro; congruence. Qed.

#[export] Instance dset_proper : Proper (eq ==> eq ==> dict_equiv ==> dict_equiv) dset.
Proof. intros k ? <- v ? <- d e Hde k'. by rewrite !dget_dset, (Hde k'). Qed.

#[export] Instance dget_proper : Proper (eq ==> dict_equiv ==> eq) dget.
Proof. intros k ? <- d e Hde. apply Hde. Qed.

Lemma dset_comm k1 k2 v1 v2 d :
  k1 ≠ k2 -> dict_equiv (dset k1 v1 (dset k2 v2 d)) (dset k2 v2 (dset k1 v1 d)).
Proof. intros ? k. rewrite !dget_dset. repeat case_decide; congruence. Qed.

Lemma dset_same k v d : dget k d = Some v -> dset k v d = d.
Proof.
  induction d as [|[k' v'] d IH]; simpl; [done|].
  case_decide; intros; simplify_eq; [done|]. by rewrite IH.
Qed.

(** Building a dict from the keys of a list ([{k: f(k) for k in l}]). *)
Definition dict_of_keys (f : string -> V) (l : list string) : dict V :=
  foldl (fun acc k => dset k (f k) acc) [] l.

Lemma dget_foldl_dset f (l : list string) d k :
  dget k (foldl (fun acc k => dset k (f k) acc) d l)
  = if decide (k ∈ l) then Some (f k) else dget k d.
Proof.
  revert d. induction l as [|x l IH]; intros d; cbn [foldl].
  - rewrite decide_False; [done|apply not_elem_of_nil].
  - rewrite IH, dget_dset.
    destruct (decide (k ∈ l)) as [Hl|Hl].
    + rewrite decide_True by (by right). done.
    + destruct (decide (k = x)) as [->|Hx].
      * by rewrite decide_True by left.
      * rewrite decide_False; [done|]. rewrite elem_of_cons. naive_solver.
Qed.

Lemma dget_dict_of_keys f (l : list string) k :
  dget k (dict_of_keys f l) = if decide (k ∈ l) then Some (f k) else None.
Proof. apply dget_foldl_dset. Qed.

Lemma dict_of_keys_wf f (l : list string) : dict_wf (dict_of_keys f l).
Proof.
  unfold dict_of_keys. generalize (dict_wf_nil). generalize ([] : dict V).
  induction l as [|x l IH]; intros d Hd; simpl; [done|].
  apply IH. by apply dset_wf.
Qed.
End dict.

Arguments dict_equiv {V} d e : simpl never.

(** Mapping over the values keeps the keys. *)
Lemma dget_fmap {V W} (f : V -> W) k (d : dict V) :
  dget k ((fun kv => (kv.1, f kv.2)) <$> d) = f <$> dget k d.
Proof.
  induction d as [|[k' v'] d IH]; simpl; [done|]. by case_decide.
Qed.

Create HintDb dict discriminated.
Create Rewrite HintDb dict.
#[export] Hint Resolve dict_wf_nil dset_wf dupdate_wf dict_of_keys_wf dget_dset_eq : dict.
#[export] Hint Rewrite @dget_dset_eq @dget_dset @dget_dict_of_keys @dget_fmap : dict.
