(* ===== verification/Json.v ===== *)
(** * JSON values and Python equality

    The values the program calls [Any]: what a run context, a node's
    configuration or a run input can hold.  A float is a finite double,
    written as [m * 2^e] (the payloads are JSON, which has no NaN and no
    infinity).  [py_eq] is Python's [==]: [True == 1 == 1.0], dicts compare
    without regard to order.  It is the kernel of the normal form [canon], so
    it is an equivalence by construction; [py_eq_dict] and [py_eq_list] say
    what it means on containers. *)
From Stdlib Require Import Sorting.Sorted Structures.OrdersEx.
From S2P Require Import Prelude Dict.

Set Warnings "-register-all".

Inductive json : Type :=
  | JNull
  | JBool (b : bool)
  | JInt (z : Z)
  | JFloat (m e : Z)
  | JStr (s : string)
  | JList (l : list json)
  | JDict (d : list (string * json)).

(** The induction principle that goes through the containers. *)
Section json_ind.
Variable P : json -> Prop.
Hypothesis Hnull : P JNull.
Hypothesis Hbool : forall b, P (JBool b).
Hypothesis Hint : forall z, P (JInt z).
Hypothesis Hfloat : forall m e, P (JFloat m e).
Hypothesis Hstr : forall s, P (JStr s).
Hypothesis Hlist : forall l, Forall P l -> P (JList l).
Hypothesis Hdict : forall d, Forall (fun kv => P kv.2) d -> P (JDict d).

Fixpoint json_ind' (j : json) : P j.
Proof.
  destruct j as [|b|z|m e|s|l|d].
  - apply Hnull.
  - apply Hbool.
  - apply Hint.
  - apply Hfloat.
  - apply Hstr.
  - apply Hlist. induction l as [|x l IH]; constructor; [apply json_ind' | apply IH].
  - apply Hdict. induction d as [|[k x] d IH]; constructor; [apply json_ind' | apply IH].
Qed.
End json_ind.

#[export] Instance json_eq_dec : EqDecision json.
Proof.
  unfold EqDecision, RelDecision. fix go 1. intros x y.
  assert (Hl : forall l l' : list json, Decision (l = l')).
  { refine (fix gol l l' := match l, l' with
      | [], [] => left eq_refl
      | a :: l, b :: l' =>
          match go a b with
          | left _ => match gol l l' with left _ => left _ | right _ => right _ end
          | right _ => right _
          end
      | _, _ => right _ end); congruence. }
  assert (Hd : forall d d' : list (string * json), Decision (d = d')).
  { refine (fix god d d' := match d, d' with
      | [], [] => left eq_refl
      | (k, a) :: d, (k', b) :: d' =>
          match decide (k = k') with
          | left _ =>
              match go a b with
              | left _ => match god d d' with left _ => left _ | right _ => right _ end
              | right _ => right _
              end
          | right _ => right _
          end
      | _, _ => right _ end); congruence. }
  destruct x as [|b|z|m e|s|l|d], y as [|b'|z'|m' e'|s'|l'|d']; try (right; congruence).
  - by left.
  - destruct (decide (b = b')); [left|right]; congruence.
  - destruct (decide (z = z')); [left|right]; congruence.
  - destruct (decide (m = m')), (decide (e = e')); [left|right..]; congruence.
  - destruct (decide (s = s')); [left|right]; congruence.
  - destruct (Hl l l'); [left|right]; congruence.
  - destruct (Hd d d'); [left|right]; congruence.
Defined.

(** ** Normal form *)

(** The odd part of [m * 2^e]: equal numbers get equal pairs. *)
Fixpoint strip_pos (p : positive) (e : Z) : Z * Z :=
  match p with
  | xO p' => strip_pos p' (e + 1)
  | _ => (Zpos p, e)
  end.

Definition dyadic (m e : Z) : Z * Z :=
  match m with
  | Z0 => (0, 0)%Z
  | Zpos p => strip_pos p e
  | Zneg p => let (q, e') := strip_pos p e in ((- q)%Z, e')
  end.

Definition jnum (m e : Z) : json := let (m', e') := dyadic m e in JFloat m' e'.

(** Insertion into a key-sorted list; a key already present keeps its value
    (the first binding of a key is the one [dget] sees). *)
Fixpoint sinsert {V} (k : string) (v : V) (d : dict V) : dict V :=
  match d with
  | [] => [(k, v)]
  | (k', v') :: d' =>
      match String.compare k k' with
      | Lt => (k, v) :: d
      | Eq => (k, v) :: d'
      | Gt => (k', v') :: sinsert k v d'
      end
  end.

Definition ssort {V} (d : dict V) : dict V :=
  foldr (fun kv acc => sinsert kv.1 kv.2 acc) [] d.

Fixpoint canon (j : json) : json :=
  match j with
  | JNull => JNull
  | JBool b => jnum (if b then 1 else 0) 0
  | JInt z => jnum z 0
  | JFloat m e => jnum m e
  | JStr s => JStr s
  | JList l => JList (map canon l)
  | JDict d => JDict (ssort (map (fun kv => (kv.1, canon kv.2)) d))
  end.

(** ** Typed values and [==] *)

(** [model_dump(mode="json")] of a typed value. *)
Class Dump (A : Type) := dump : A -> json.

Definition py_eq {A} `{Dump A} (a b : A) : bool := bool_decide (canon (dump a) = canon (dump b)).

#[export] Instance json_dump : Dump json := id.
#[export] Instance string_dump : Dump string := JStr.
#[export] Instance bool_dump : Dump bool := JBool.
#[export] Instance Z_dump : Dump Z := JInt.
#[export] Instance option_dump {A} `{Dump A} : Dump (option A) :=
  fun o => match o with Some a => dump a | None => JNull end.
#[export] Instance list_dump {A} `{Dump A} : Dump (list A) := fun l => JList (map dump l).
#[export] Instance dict_dump {A} `{Dump A} : Dump (dict A) :=
  fun d => JDict (map (fun kv => (kv.1, dump kv.2)) d).

Section py_eq.
Context {A} `{Dump A}.
Implicit Types a b c : A.

Lemma py_eq_refl a : py_eq a a = true.
Proof. by apply bool_decide_eq_true. Qed.

Lemma py_eq_sym a b : py_eq a b = py_eq b a.
Proof. unfold py_eq. apply bool_decide_ext. split; congruence. Qed.

Lemma py_eq_trans a b c : py_eq a b = true -> py_eq b c = true -> py_eq a c = true.
Proof. unfold py_eq. rewrite !bool_decide_eq_true. congruence. Qed.

Lemma py_eq_cong a b c : py_eq a b = true -> py_eq a c = py_eq b c.
Proof. unfold py_eq. rewrite bool_decide_eq_true. by intros ->. Qed.

Definition py_equiv : relation A := fun a b => py_eq a b = true.

#[export] Instance py_equiv_equivalence : Equivalence py_equiv.
Proof.
  split.
  - exact py_eq_refl.
  - intros a b. unfold py_equiv. by rewrite py_eq_sym.
  - exact py_eq_trans.
Qed.
End py_eq.

(** [isinstance(value, int) and not isinstance(value, bool)] and its relatives. *)
Definition is_dict (j : json) : bool := match j with JDict _ => true | _ => false end.
Definition is_list (j : json) : bool := match j with JList _ => true | _ => false end.
Definition is_true (j : json) : bool := match j with JBool true => true | _ => false end.

(** [bool(value)] *)
Definition truthy (j : json) : bool :=
  match j with
  | JNull => false
  | JBool b => b
  | JInt z => negb (z =? 0)%Z
  | JFloat m _ => negb (m =? 0)%Z
  | JStr s => negb (String.eqb s "")
  | JList l => negb (Nat.eqb (length l) 0)
  | JDict d => negb (Nat.eqb (length d) 0)
  end.

(** [obj.get(key)] on a value that is a dict, [None] otherwise. *)
Definition jget (k : string) (j : json) : option json :=
  match j with JDict d => dget k d | _ => None end.

(** ** What [==] means on numbers and containers *)

Lemma strip_pos_spec p e :
  let r := strip_pos p e in (e <= r.2 /\ Zpos p = r.1 * 2 ^ (r.2 - e))%Z.
Proof.
  revert e. induction p as [p IH|p IH|]; intros e; simpl.
  - by rewrite Z.sub_diag, Z.mul_1_r.
  - destruct (IH (e + 1)%Z) as [Hle Heq]. split; [lia|].
    rewrite Pos2Z.inj_xO, Heq.
    replace ((strip_pos p (e + 1)).2 - e)%Z with (1 + ((strip_pos p (e + 1)).2 - (e + 1)))%Z by lia.
    rewrite Z.pow_add_r by lia. lia.
  - by rewrite Z.sub_diag.
Qed.

Lemma dyadic_spec m e :
  m ≠ 0%Z -> let r := dyadic m e in (e <= r.2 /\ m = r.1 * 2 ^ (r.2 - e))%Z.
Proof.
  destruct m as [|p|p]; simpl; intros Hm; [done|exact (strip_pos_spec p e)|].
  pose proof (strip_pos_spec p e) as Hs.
  destruct (strip_pos p e) as [q e']; simpl in *. split; lia.
Qed.

Lemma dyadic_inj m m' e : dyadic m e = dyadic m' e -> m = m'.
Proof.
  assert (Hz : forall p e0, (dyadic (Zpos p) e0).1 ≠ 0%Z /\ (dyadic (Zneg p) e0).1 ≠ 0%Z).
  { intros p e0. pose proof (strip_pos_spec p e0) as Hs. simpl.
    destruct (strip_pos p e0) as [q e']; simpl in *. split; lia. }
  destruct (Z.eq_dec m 0) as [->|Hm], (Z.eq_dec m' 0) as [->|Hm']; intros Heq.
  - done.
  - exfalso. destruct m' as [|p|p]; [done| |].
    + apply (proj1 (Hz p e)). by rewrite <- Heq.
    + apply (proj2 (Hz p e)). by rewrite <- Heq.
  - exfalso. destruct m as [|p|p]; [done| |].
    + apply (proj1 (Hz p e)). by rewrite Heq.
    + apply (proj2 (Hz p e)). by rewrite Heq.
  - apply (dyadic_spec m e) in Hm as [_ ->]. apply (dyadic_spec m' e) in Hm' as [_ ->].
    by rewrite Heq.
Qed.

Lemma jnum_inj m e m' e' : jnum m e = jnum m' e' <-> dyadic m e = dyadic m' e'.
Proof.
  unfold jnum. destruct (dyadic m e), (dyadic m' e'). split; congruence.
Qed.

Lemma py_eq_int (a b : Z) : py_eq (JInt a) (JInt b) = true <-> a = b.
Proof.
  unfold py_eq. rewrite bool_decide_eq_true. simpl. rewrite jnum_inj.
  split; [apply dyadic_inj | by intros ->].
Qed.

Lemma py_eq_bool_int (b : bool) (z : Z) :
  py_eq (JBool b) (JInt z) = true <-> z = (if b then 1 else 0)%Z.
Proof.
  unfold py_eq. rewrite bool_decide_eq_true. simpl. rewrite jnum_inj.
  split; [intros Heq; symmetry; by eapply dyadic_inj | by intros ->].
Qed.

Lemma py_eq_string (a b : string) : py_eq a b = bool_decide (a = b).
Proof. unfold py_eq. apply bool_decide_ext. unfold dump, string_dump. simpl. split; congruence. Qed.

Lemma py_eq_list {A} `{Dump A} (l l' : list A) :
  py_eq l l' = true <-> Forall2 py_equiv l l'.
Proof.
  unfold py_equiv, py_eq. rewrite bool_decide_eq_true. unfold dump at 1 2, list_dump. simpl. split.
  - intros [=Hl]. revert l' Hl. induction l as [|a l IH]; intros [|b l']; simpl; try done.
    intros [=]. constructor; [by apply bool_decide_eq_true | auto].
  - intros HF. f_equal. induction HF as [|a b l l' Hab _ IH]; simpl; [done|].
    apply bool_decide_eq_true in Hab. congruence.
Qed.

Definition slt (a b : string) : Prop := String.compare a b = Lt.

#[export] Instance slt_strict : StrictOrder slt.
Proof. exact OrdersEx.String_as_OT.lt_strorder. Qed.

Lemma compare_slt a b : CompSpec eq slt a b (String.compare a b).
Proof. exact (OrdersEx.String_as_OT.compare_spec a b). Qed.

Section ssort.
Context {V : Type}.
Implicit Types d : dict V.

Lemma dget_sinsert k k' v d :
  dget k (sinsert k' v d) = if decide (k = k') then Some v else dget k d.
Proof.
  induction d as [|[k0 v0] d IH]; simpl; [done|].
  destruct (compare_slt k' k0) as [<-|Hlt|Hgt]; simpl.
  - by case_decide.
  - done.
  - rewrite IH. repeat case_decide; subst; try done.
    exfalso; eapply StrictOrder_Irreflexive; exact Hgt.
Qed.

Lemma dget_ssort k d : dget k (ssort d) = dget k d.
Proof.
  induction d as [|[k' v] d IH]; simpl; [done|]. by rewrite dget_sinsert, IH.
Qed.

Definition sorted_dict d : Prop := Sorted.StronglySorted slt (dkeys d).

Lemma sinsert_keys k v d x : x ∈ dkeys (sinsert k v d) -> x = k \/ x ∈ dkeys d.
Proof. rewrite !elem_of_dkeys, dget_sinsert. case_decide; naive_solver. Qed.

Lemma sinsert_sorted k v d : sorted_dict d -> sorted_dict (sinsert k v d).
Proof.
  unfold sorted_dict. induction d as [|[k0 v0] d IH]; cbn [sinsert].
  - intros _. repeat constructor.
  - rewrite dkeys_cons. intros Hs. apply Sorted.StronglySorted_inv in Hs as [Hs Hall].
    destruct (compare_slt k k0) as [->|Hlt|Hgt]; rewrite ?dkeys_cons.
    + by constructor.
    + constructor; [by constructor|]. constructor; [done|].
      eapply Forall_impl; [exact Hall|]. intros x; by transitivity k0.
    + constructor; [auto|]. apply Forall_forall. intros x [->|Hx]%sinsert_keys; [done|].
      rewrite Forall_forall in Hall. auto.
Qed.

Lemma ssort_sorted d : sorted_dict (ssort d).
Proof.
  induction d as [|[k v] d IH]; simpl; [constructor | by apply sinsert_sorted].
Qed.

(** Key-sorted dictionaries are determined by their lookups. *)
Lemma sorted_dict_ext d e : sorted_dict d -> sorted_dict e -> dict_equiv d e -> d = e.
Proof.
  unfold sorted_dict. revert e.
  induction d as [|[k v] d IH]; intros [|[k' v'] e] Hd He Heq; try done.
  - specialize (Heq k'). simpl in Heq. by rewrite decide_True in Heq.
  - specialize (Heq k). simpl in Heq. by rewrite decide_True in Heq.
  - rewrite !dkeys_cons in Hd, He.
    apply Sorted.StronglySorted_inv in Hd as [Hd Hall].
    apply Sorted.StronglySorted_inv in He as [He Hall'].
    rewrite Forall_forall in Hall, Hall'.
    assert (Hkk : k = k').
    { destruct (decide (k = k')) as [|Hne]; [done|exfalso].
      assert (Hk : k ∈ dkeys ((k', v') :: e)).
      { apply elem_of_dkeys. rewrite <- (Heq k). simpl. rewrite decide_True; eauto. }
      assert (Hk' : k' ∈ dkeys ((k, v) :: d)).
      { apply elem_of_dkeys. rewrite (Heq k'). simpl. rewrite decide_True; eauto. }
      rewrite dkeys_cons, elem_of_cons in Hk, Hk'.
      destruct Hk as [|Hk], Hk' as [|Hk']; try congruence.
      apply Hall' in Hk. apply Hall in Hk'.
      eapply (StrictOrder_Irreflexive k). by transitivity k'. }
    subst k'. pose proof (Heq k) as Hv. simpl in Hv. rewrite !decide_True in Hv by done.
    injection Hv as ->. f_equal. apply IH; [done..|].
    assert (Hnot : forall d0 : dict V, (forall x, x ∈ dkeys d0 -> slt k x) -> dget k d0 = None).
    { intros d0 H0. apply dget_None. intros Hin. apply H0 in Hin.
      by eapply StrictOrder_Irreflexive. }
    intros x. destruct (decide (x = k)) as [->|Hx].
    + by rewrite !Hnot.
    + specialize (Heq x). simpl in Heq. by rewrite !decide_False in Heq.
Qed.
End ssort.

(** [==] of two dicts: the same keys, and equal values under each of them. *)
Lemma py_eq_dict {A} `{Dump A} (d e : dict A) :
  py_eq d e = true <-> forall k, option_relation py_equiv (fun _ => False) (fun _ => False) (dget k d) (dget k e).
Proof.
  assert (Hm : forall k (d : dict A),
    dget k (map (fun kv => (kv.1, canon kv.2)) (map (fun kv => (kv.1, dump kv.2)) d))
    = (fun a => canon (dump a)) <$> dget k d).
  { intros k d0. induction d0 as [|[k' v] d0 IH]; simpl; [done|]. by case_decide. }
  assert (Hk : forall k, option_relation py_equiv (fun _ => False) (fun _ => False) (dget k d) (dget k e)
    <-> ((fun a => canon (dump a)) <$> dget k d) = ((fun a => canon (dump a)) <$> dget k e)).
  { intros k. unfold py_equiv, py_eq.
    destruct (dget k d), (dget k e); simpl; rewrite ?bool_decide_eq_true; split; congruence || done. }
  unfold py_eq at 1. rewrite bool_decide_eq_true.
  unfold dump at 1 2, dict_dump. cbn [canon]. split.
  - intros [=Heq] k. apply Hk. rewrite <- !Hm, <- !(dget_ssort k (map _ (map _ _))). by rewrite Heq.
  - intros Hall. f_equal. apply sorted_dict_ext; [apply ssort_sorted..|].
    intros k. rewrite !dget_ssort, !Hm. by apply Hk.
Qed.
