(* ===== verification/Graph.v ===== *)
(** * The canvas graph ([backend/services/execution/graph.py])

    Nodes and edges as the persisted canvas stores them, Kahn's topological
    sort, the dependency layers ("waves") the engine runs concurrently, the
    downstream closure and the split of a fan-out branch at its fan-in node. *)
From S2P Require Import Prelude Dict Json.

(** ** Canvas nodes and edges

    A canvas node is a JSON object of which the engine reads ["id"] and
    ["data"]; a missing or null ["data"] is the empty object.  An edge is read
    through its five named fields; [edge_rest] keeps the others. *)
Record node := Node { node_id : option string; node_data : dict json }.
Record edge := Edge {
  edge_id : option string;
  source : option string;
  target : option string;
  sourceHandle : option string;
  targetHandle : option string;
  edge_rest : dict json
}.

#[export] Instance node_eq_dec : EqDecision node.
Proof. solve_decision. Defined.
#[export] Instance edge_eq_dec : EqDecision edge.
Proof. solve_decision. Defined.

(** [edge.get("source", "")] and [edge.get("target", "")] *)
Definition edge_source (e : edge) : string := default "" (source e).
Definition edge_target (e : edge) : string := default "" (target e).

(** [(node.get("data") or {}).get("kind")] *)
Definition node_kind (n : node) : option json := dget "kind" (node_data n).

(** [{n["id"] for n in nodes if "id" in n}] *)
Definition node_ids (nodes : list node) : list string := omap node_id nodes.

(** [{n["id"]: n for n in nodes if "id" in n}] *)
Definition node_map (nodes : list node) : dict node :=
  foldl (fun m n => match node_id n with Some i => dset i n m | None => m end) [] nodes.

(** ** Kahn's algorithm *)

(** One edge of the counting loop: bump the target's in-degree, append the
    target to the source's dependents. *)
Definition count_edge (st : dict Z * dict (list string)) (e : edge) : dict Z * dict (list string) :=
  let src := edge_source e in
  let tgt := edge_target e in
  if dmem src st.1 && dmem tgt st.1
  then (dset tgt (dget_or 0%Z tgt st.1 + 1)%Z st.1, dset src (dget_or [] src st.2 ++ [tgt]) st.2)
  else st.

Definition count_edges (ids : list string) (edges : list edge) : dict Z * dict (list string) :=
  foldl count_edge (dict_of_keys (fun _ => 0%Z) ids, dict_of_keys (fun _ => []) ids) edges.

(** [in_degree[dep] -= 1; if in_degree[dep] == 0: queue.append(dep)] *)
Definition relax_dep (st : dict Z * list string) (dep : string) : dict Z * list string :=
  let n := (dget_or 0%Z dep st.1 - 1)%Z in
  (dset dep n st.1, if (n =? 0)%Z then st.2 ++ [dep] else st.2).

(** The [while queue] loop on node ids; [None] is out of fuel. *)
Fixpoint kahn_loop (fuel : nat) (dependents : dict (list string))
    (in_degree : dict Z) (queue result : list string) : option (list string) :=
  match queue, fuel with
  | [], _ => Some result
  | _, 0 => None
  | nid :: queue', S fuel' =>
      let st := foldl relax_dep (in_degree, queue') (dget_or [] nid dependents) in
      kahn_loop fuel' dependents st.1 st.2 (result ++ [nid])
  end.

(** [sorted(...)] of a set of strings. *)
Definition sorted_strings (l : list string) : list string := dkeys (ssort ((fun s => (s, tt)) <$> l)).

Definition topological_order (nodes : list node) (edges : list edge) : res (list node) :=
  let nm := node_map nodes in
  let ids := dkeys nm in
  let st := count_edges ids edges in
  let queue := filter (fun nid => dget_or 0%Z nid st.1 = 0%Z) ids in
  match kahn_loop (length ids) st.2 st.1 queue [] with
  | None => Raise (OtherError "out of fuel")
  | Some order =>
      if length order =? length ids
      then Ok (omap (fun nid => dget nid nm) order)
      else Raise (GraphCycleError (sorted_strings (filter (fun i => i ∉ order) ids)))
  end.

(** ** Dependency layers *)

Definition parents_of (ids : list string) (edges : list edge) : dict (list string) :=
  foldl (fun ps e =>
    let src := edge_source e in
    let tgt := edge_target e in
    if bool_decide (src ∈ ids) && bool_decide (tgt ∈ ids)
    then dset tgt (dget_or [] tgt ps ++ [src]) ps
    else ps) (dict_of_keys (fun _ => []) ids) edges.

(** [1 + max((depth_by_id[p] for p in parents), default=-1)]; [KeyError] when
    a parent has no depth yet. *)
Fixpoint max_depth (depth_by_id : dict nat) (ps : list string) : res nat :=
  match ps with
  | [] => Ok 0
  | p :: ps' =>
      match dget p depth_by_id with
      | None => Raise (KeyError p)
      | Some d => m ← max_depth depth_by_id ps'; Ok (Nat.max (S d) m)
      end
  end.

(** [generations[depth].append(node)] after the [if depth == len(generations)]
    line; [IndexError] when the layer does not exist. *)
Definition push_generation (depth : nat) (n : node) (gens : list (list node)) : res (list (list node)) :=
  let gens := if depth =? length gens then gens ++ [[]] else gens in
  match gens !! depth with
  | None => Raise (OtherError "IndexError")
  | Some wave => Ok (<[depth := wave ++ [n]]> gens)
  end.

Definition place_node (parents : dict (list string)) (st : dict nat * list (list node)) (n : node)
    : res (dict nat * list (list node)) :=
  match node_id n with
  | None => Raise (KeyError "id")
  | Some nid =>
      match dget nid parents with
      | None => Raise (KeyError nid)
      | Some ps =>
          depth ← max_depth st.1 ps;
          gens ← push_generation depth n st.2;
          Ok (dset nid depth st.1, gens)
      end
  end.

Definition topological_generations (ordered_nodes : list node) (edges : list edge)
    : res (list (list node)) :=
  let ids := node_ids ordered_nodes in
  st ← foldM (place_node (parents_of ids edges)) ([], []) ordered_nodes;
  Ok st.2.

(** ** Downstream closure *)

Definition adjacency (nodes : list node) (edges : list edge) : dict (list string) :=
  foldl (fun adj e =>
    let src := edge_source e in
    let tgt := edge_target e in
    if dmem src adj && dmem tgt adj
    then dset src (dget_or [] src adj ++ [tgt]) adj
    else adj) (dict_of_keys (fun _ => []) (node_ids nodes)) edges.

(** The breadth-first loop; [None] is out of fuel. *)
Fixpoint bfs (fuel : nat) (adj : dict (list string)) (queue : list string) (visited : gset string)
    : option (gset string) :=
  match queue, fuel with
  | [], _ => Some visited
  | _, 0 => None
  | nid :: queue', S fuel' =>
      if decide (nid ∈ visited) then bfs fuel' adj queue' visited
      else bfs fuel' adj (queue' ++ dget_or [] nid adj) ({[nid]} ∪ visited)
  end.

(** Every edge is enqueued at most once from [start] and once from the visit
    of its source, so twice the number of edges is enough fuel. *)
Definition downstream_node_ids (start_node_id : string) (nodes : list node) (edges : list edge)
    : gset string :=
  let adj := adjacency nodes edges in
  default ∅ (bfs (2 * length edges) adj (dget_or [] start_node_id adj) ∅).

(** ** Fan-in node and fan-out branch *)

Definition is_fan_in (n : node) : bool := bool_decide (node_kind n = Some (JStr "fan-in")).

(** [node.get("id", "")] *)
Definition node_id_or_empty (n : node) : string := default "" (node_id n).

Definition find_join_node_id (inventory_node_id : string) (nodes : list node) (edges : list edge)
    : option string :=
  let downstream := downstream_node_ids inventory_node_id nodes edges in
  node_id_or_empty <$>
    head (filter (fun n => node_id_or_empty n ∈ downstream /\ is_fan_in n = true) nodes).

Definition child_node_ids (inventory_node_id : string) (join_node_id : option string)
    (nodes : list node) (edges : list edge) : gset string :=
  let downstream := downstream_node_ids inventory_node_id nodes edges in
  match join_node_id with
  | None => downstream
  | Some j => downstream ∖ ({[j]} ∪ downstream_node_ids j nodes edges)
  end.

(** * Facts *)

(** The dependency relation the graph functions see: an edge between two
    listed nodes. *)
Definition dep (nodes : list node) (edges : list edge) (u v : string) : Prop :=
  u ∈ node_ids nodes /\ v ∈ node_ids nodes /\
  exists e, e ∈ edges /\ edge_source e = u /\ edge_target e = v.

(** The same edges as a list of pairs, in edge order, with repetitions. *)
Definition pairs (ids : list string) (edges : list edge) : list (string * string) :=
  filter (fun p => p.1 ∈ ids /\ p.2 ∈ ids) ((fun e => (edge_source e, edge_target e)) <$> edges).

Definition targets (u : string) (E : list (string * string)) : list string :=
  (filter (fun p => p.1 = u) E).*2.

Lemma elem_of_node_ids i nodes : i ∈ node_ids nodes <-> exists n, n ∈ nodes /\ node_id n = Some i.
Proof. unfold node_ids. rewrite list_elem_of_omap. naive_solver. Qed.

Lemma elem_of_pairs u v ids edges :
  (u, v) ∈ pairs ids edges <->
  u ∈ ids /\ v ∈ ids /\ exists e, e ∈ edges /\ edge_source e = u /\ edge_target e = v.
Proof.
  unfold pairs. rewrite list_elem_of_filter, list_elem_of_fmap. simpl. naive_solver.
Qed.

Lemma pairs_dep nodes edges ids u v :
  (forall i, i ∈ ids <-> i ∈ node_ids nodes) ->
  (u, v) ∈ pairs ids edges <-> dep nodes edges u v.
Proof. intros Hids. rewrite elem_of_pairs, !Hids. done. Qed.

Lemma pairs_snoc ids edges e :
  pairs ids (edges ++ [e]) = pairs ids edges ++
    (if decide (edge_source e ∈ ids /\ edge_target e ∈ ids) then [(edge_source e, edge_target e)] else []).
Proof.
  unfold pairs. by rewrite fmap_app, filter_app.
Qed.

Lemma elem_of_targets u v E : v ∈ targets u E <-> (u, v) ∈ E.
Proof.
  unfold targets. rewrite list_elem_of_fmap. split.
  - intros ([u' v'] & -> & [<- Hin]%list_elem_of_filter). done.
  - intros Hin. exists (u, v). split; [done|]. by apply list_elem_of_filter.
Qed.

(** ** [node_map] *)

Lemma node_map_snoc nodes n :
  node_map (nodes ++ [n]) =
  match node_id n with Some i => dset i n (node_map nodes) | None => node_map nodes end.
Proof. unfold node_map. by rewrite foldl_app. Qed.

Lemma node_map_keys i nodes : i ∈ dkeys (node_map nodes) <-> i ∈ node_ids nodes.
Proof.
  induction nodes as [|n nodes IH] using rev_ind; [done|].
  rewrite node_map_snoc. unfold node_ids. rewrite omap_app, elem_of_app. fold (node_ids nodes).
  simpl. destruct (node_id n) as [j|] eqn:Hj; simpl.
  - rewrite elem_of_dkeys_dset, IH, list_elem_of_singleton. naive_solver.
  - rewrite IH, elem_of_nil. naive_solver.
Qed.

Lemma node_map_wf nodes : dict_wf (node_map nodes).
Proof.
  induction nodes as [|n nodes IH] using rev_ind; [apply dict_wf_nil|].
  rewrite node_map_snoc. destruct (node_id n); auto using dset_wf.
Qed.

Lemma node_map_lookup i n nodes :
  dget i (node_map nodes) = Some n -> n ∈ nodes /\ node_id n = Some i.
Proof.
  induction nodes as [|n' nodes IH] using rev_ind; [done|].
  rewrite node_map_snoc, elem_of_app. destruct (node_id n') as [j|] eqn:Hj.
  - rewrite dget_dset. case_decide; intros; simplify_eq; [|naive_solver].
    split; [right; by left | done].
  - naive_solver.
Qed.

Lemma node_map_values l nodes :
  (forall i, i ∈ l -> i ∈ node_ids nodes) ->
  node_ids (omap (fun i => dget i (node_map nodes)) l) = l.
Proof.
  induction l as [|i l IH]; intros Hl; [done|]. simpl.
  destruct (dget i (node_map nodes)) as [n|] eqn:Hn.
  - apply node_map_lookup in Hn as Hn'. destruct Hn' as [_ Hid].
    unfold node_ids in *. simpl. rewrite Hid. f_equal. apply IH. intros j Hj. apply Hl. by right.
  - exfalso. apply dget_None in Hn. apply Hn, node_map_keys, Hl. by left.
Qed.

(** ** The counting loop *)

Lemma count_edges_keys ids edges k :
  (k ∈ dkeys (count_edges ids edges).1 <-> k ∈ ids) /\
  (k ∈ dkeys (count_edges ids edges).2 <-> k ∈ ids).
Proof.
  unfold count_edges. induction edges as [|e edges IH] using rev_ind.
  - simpl. rewrite !elem_of_dkeys, !dget_dict_of_keys. case_decide; split; split; intros; eauto.
    all: by destruct H.
  - rewrite foldl_app. cbn [foldl]. destruct IH as [IH1 IH2].
    set (st := foldl _ _ _) in *. unfold count_edge, dmem.
    case_bool_decide as Hs; [case_bool_decide as Ht|]; cbn [andb fst snd]; [|done..].
    rewrite !elem_of_dkeys_dset. naive_solver.
Qed.

Lemma count_edges_spec ids edges :
  (forall v, v ∈ ids -> dget v (count_edges ids edges).1 = Some (occ v (pairs ids edges).*2)) /\
  (forall u, u ∈ ids -> dget u (count_edges ids edges).2 = Some (targets u (pairs ids edges))).
Proof.
  induction edges as [|e edges IH] using rev_ind.
  - split; intros x Hx; unfold count_edges; simpl; rewrite dget_dict_of_keys; by rewrite decide_True.
  - pose proof (fun k => count_edges_keys ids edges k) as Hk.
    destruct IH as [IH1 IH2]. rewrite pairs_snoc.
    unfold count_edges in *. rewrite foldl_app. cbn [foldl].
    set (st := foldl _ _ _) in *. unfold count_edge, dmem.
    destruct (decide (edge_source e ∈ ids /\ edge_target e ∈ ids)) as [[Hs Ht]|Hno].
    + rewrite !bool_decide_eq_true_2 by (by apply Hk). cbn [andb fst snd].
      split; intros x Hx; rewrite dget_dset.
      * rewrite fmap_app. unfold occ. rewrite filter_app, length_app.
        cbn [fmap list_fmap snd]. rewrite filter_cons.
        case_decide as Hxe; [subst x|].
        -- unfold dget_or. rewrite IH1 by done. unfold occ. simpl. f_equal. lia.
        -- rewrite IH1 by done. unfold occ. simpl. f_equal. lia.
      * unfold targets. rewrite filter_app, fmap_app.
        rewrite filter_cons, filter_nil. cbn [fst].
        case_decide as Hxe; [subst x; rewrite decide_True by done | rewrite decide_False by done].
        -- unfold dget_or. by rewrite IH2 by done.
        -- rewrite IH2 by done. by rewrite app_nil_r.
    + rewrite app_nil_r.
      replace (bool_decide _ && bool_decide _) with false; [done|].
      symmetry. apply andb_false_iff. rewrite !bool_decide_eq_false.
      destruct (Hk (edge_source e)) as [-> _], (Hk (edge_target e)) as [-> _].
      destruct (decide (edge_source e ∈ ids)); naive_solver.
Qed.

(** ** The Kahn loop *)

(** Edges into [v] whose source is not yet in the result. *)
Definition waiting (result : list string) (E : list (string * string)) (v : string) : Z :=
  Z.of_nat (length (filter (fun p => p.2 = v /\ p.1 ∉ result) E)).

Lemma waiting_nil E v : waiting [] E v = occ v E.*2.
Proof.
  unfold waiting, occ. f_equal. induction E as [|[a b] E IH]; [done|].
  cbn [fmap list_fmap snd]. rewrite !filter_cons. cbn [fst snd].
  destruct (decide (v = b)) as [Hb|Hne].
  - rewrite decide_True by (split; [done | apply not_elem_of_nil]). cbn [length]. by rewrite IH.
  - rewrite decide_False by naive_solver. done.
Qed.

Lemma waiting_snoc result E nid v :
  nid ∉ result -> waiting result E v = (waiting (result ++ [nid]) E v + occ v (targets nid E))%Z.
Proof.
  intros Hnid. unfold waiting, targets, occ.
  induction E as [|[a b] E IH]; [done|].
  rewrite !filter_cons. simpl.
  destruct (decide (a = nid)) as [->|Ha].
  - rewrite (decide_False (P := b = v /\ nid ∉ result ++ [nid]))
      by (rewrite not_elem_of_app, not_elem_of_cons; naive_solver).
    cbn [fmap list_fmap snd]. rewrite filter_cons.
    destruct (decide (b = v)) as [->|Hb].
    + rewrite decide_True by done. rewrite decide_True by done. simpl. lia.
    + rewrite decide_False by naive_solver. rewrite decide_False by congruence. lia.
  - destruct (decide (b = v /\ a ∉ result)) as [Hd|Hd].
    + rewrite decide_True; [simpl; lia|].
      rewrite not_elem_of_app, list_elem_of_singleton. naive_solver.
    + rewrite decide_False; [simpl; lia|].
      rewrite not_elem_of_app, list_elem_of_singleton. naive_solver.
Qed.

Lemma waiting_zero result E v : waiting result E v = 0%Z <-> forall u, (u, v) ∈ E -> u ∈ result.
Proof.
  unfold waiting. split.
  - intros Hz u Hin. destruct (decide (u ∈ result)) as [|Hu]; [done|exfalso].
    assert (Hf : (u, v) ∈ filter (fun p => p.2 = v /\ p.1 ∉ result) E) by (by apply list_elem_of_filter).
    destruct (filter _ E); [by apply not_elem_of_nil in Hf | simpl in Hz; lia].
  - intros Hall. destruct (filter _ E) as [|[a b] l] eqn:Hf; [done|exfalso].
    assert (Hin : (a, b) ∈ filter (fun p => p.2 = v /\ p.1 ∉ result) E) by (rewrite Hf; by left).
    apply list_elem_of_filter in Hin as [[Hb Ha] Hin]. simpl in *. subst. by apply Ha, Hall.
Qed.

Lemma waiting_nonneg result E v : (0 <= waiting result E v)%Z.
Proof. unfold waiting. lia. Qed.

(** The loop invariant; [todo] are the dependents of the last popped node
    that the inner loop still has to relax. *)
Record kahn_inv (ids : list string) (E : list (string * string))
    (result queue todo : list string) (in_degree : dict Z) : Prop := {
  ki_nodup : NoDup (result ++ queue);
  ki_sub v : v ∈ result ++ queue -> v ∈ ids;
  ki_deg v : v ∈ ids -> dget v in_degree = Some (waiting result E v + occ v todo)%Z;
  ki_zero v : v ∈ ids -> v ∈ result ++ queue <-> (waiting result E v + occ v todo = 0)%Z;
  ki_topo u v : (u, v) ∈ E -> v ∈ result -> before result u v
}.

Lemma kahn_relax ids E result todo queue in_degree :
  (forall v, v ∈ todo -> v ∈ ids) ->
  kahn_inv ids E result queue todo in_degree ->
  let st := foldl relax_dep (in_degree, queue) todo in
  kahn_inv ids E result st.2 [] st.1.
Proof.
  revert queue in_degree. induction todo as [|d todo IH]; intros queue deg Hsub Hinv; [done|].
  cbn [foldl].
  assert (Hd : d ∈ ids) by (apply Hsub; by left).
  destruct Hinv as [Hnd Hin Hdeg Hzero Htopo].
  assert (Hdv : dget_or 0%Z d deg = (waiting result E d + occ d todo + 1)%Z).
  { unfold dget_or. rewrite (Hdeg d Hd), occ_cons, decide_True by done. simpl. lia. }
  pose proof (waiting_nonneg result E d) as Hw0. pose proof (occ_nonneg d todo) as Ho0.
  assert (Hdq : d ∉ result ++ queue).
  { rewrite (Hzero d Hd), occ_cons, decide_True by done. lia. }
  set (n := (waiting result E d + occ d todo + 1 - 1)%Z).
  assert (Hrelax : relax_dep (deg, queue) d = (dset d n deg, if (n =? 0)%Z then queue ++ [d] else queue)).
  { unfold relax_dep. cbn [fst snd]. by rewrite Hdv. }
  rewrite Hrelax. apply IH; [intros v Hv; apply Hsub; by right|]. unfold n. clear Hrelax n.
  assert (Hocc : forall v, v ≠ d -> occ v (d :: todo) = occ v todo).
  { intros v Hv. rewrite occ_cons, decide_False by done. lia. }
  assert (Hdeg' : forall v, v ∈ ids ->
    dget v (dset d (waiting result E d + occ d todo + 1 - 1)%Z deg) = Some (waiting result E v + occ v todo)%Z).
  { intros v Hv. rewrite dget_dset. case_decide as Hvd; [subst; f_equal; lia|].
    rewrite Hdeg, Hocc by done. done. }
  destruct (Z.eqb_spec (waiting result E d + occ d todo + 1 - 1) 0) as [Hz|Hz].
  - split.
    + rewrite app_assoc. apply NoDup_app. split_and!; [done| |apply NoDup_singleton].
      intros x Hx ->%list_elem_of_singleton. done.
    + intros v. rewrite app_assoc, elem_of_app, list_elem_of_singleton. intros [?| ->]; auto.
    + done.
    + intros v Hv. rewrite app_assoc, elem_of_app, list_elem_of_singleton.
      destruct (decide (v = d)) as [->|Hvd]; [split; [lia | by right]|].
      rewrite (Hzero v Hv), Hocc by done. naive_solver.
    + done.
  - split; [done..| |done].
    intros v Hv. destruct (decide (v = d)) as [->|Hvd]; [split; [done | lia]|].
    by rewrite (Hzero v Hv), Hocc.
Qed.

Lemma kahn_pop ids E result nid queue in_degree :
  kahn_inv ids E result (nid :: queue) [] in_degree ->
  kahn_inv ids E (result ++ [nid]) queue (targets nid E) in_degree.
Proof.
  intros [Hnd Hin Hdeg Hzero Htopo].
  assert (Hnid : nid ∈ ids) by (apply Hin, elem_of_app; right; by left).
  assert (Hnr : nid ∉ result).
  { apply NoDup_app in Hnd as (_ & Hd & _). intros Hr. apply (Hd nid Hr). by left. }
  assert (Hw : waiting result E nid = 0%Z).
  { assert (Hq : nid ∈ result ++ nid :: queue) by (apply elem_of_app; right; by left).
    apply (Hzero nid Hnid) in Hq. unfold occ in Hq. simpl in Hq. lia. }
  rewrite waiting_zero in Hw.
  assert (Heq : forall v, (waiting result E v + occ v [])%Z = (waiting (result ++ [nid]) E v + occ v (targets nid E))%Z).
  { intros v. rewrite <- waiting_snoc by done. unfold occ. simpl. lia. }
  split.
  - by rewrite <- app_assoc.
  - intros v. rewrite <- app_assoc. apply Hin.
  - intros v Hv. by rewrite <- Heq, Hdeg.
  - intros v Hv. by rewrite <- Heq, <- Hzero, <- app_assoc.
  - intros u v Huv [Hv|Hv]%elem_of_app.
    + by apply before_snoc, Htopo.
    + apply list_elem_of_singleton in Hv as ->. by apply before_last, Hw.
Qed.

(** One fuel unit per listed node is enough, and at the end everything whose
    in-degree reached zero is in the result. *)
Lemma kahn_loop_spec ids E dependents fuel result queue in_degree :
  (forall u, u ∈ ids -> dget u dependents = Some (targets u E)) ->
  (forall u v, (u, v) ∈ E -> v ∈ ids) ->
  length ids <= length result + fuel ->
  kahn_inv ids E result queue [] in_degree ->
  exists order deg, kahn_loop fuel dependents in_degree queue result = Some order /\
    kahn_inv ids E order [] [] deg.
Proof.
  intros Hdep HE. revert result queue in_degree.
  induction fuel as [|fuel IH]; intros result queue deg Hfuel Hinv.
  - destruct queue as [|nid queue]; simpl; [by eauto|exfalso].
    destruct Hinv as [Hnd Hin _ _ _].
    assert (Hlen : length (result ++ nid :: queue) <= length ids).
    { apply NoDup_incl_length; [by apply NoDup_ListNoDup|].
      intros x Hx. apply list_elem_of_In. apply Hin. by apply list_elem_of_In. }
    rewrite length_app in Hlen. simpl in Hlen. lia.
  - destruct queue as [|nid queue]; simpl; [by eauto|].
    assert (Hnid : nid ∈ ids) by (apply Hinv, elem_of_app; right; by left).
    unfold dget_or. rewrite (Hdep nid Hnid). simpl.
    apply IH; [rewrite length_app; simpl; lia|].
    apply (kahn_relax ids E (result ++ [nid])).
    + intros v Hv%elem_of_targets. by eapply HE.
    + by apply kahn_pop.
Qed.

(** ** [topological_order] *)

Lemma elem_of_sorted_strings v l : v ∈ sorted_strings l <-> v ∈ l.
Proof.
  unfold sorted_strings. rewrite elem_of_dkeys, dget_ssort, <- elem_of_dkeys.
  unfold dkeys. rewrite <- list_fmap_compose. rewrite list_elem_of_fmap. naive_solver.
Qed.

Lemma kahn_inv_init ids E deg :
  NoDup ids ->
  (forall v, v ∈ ids -> dget v deg = Some (occ v E.*2)) ->
  kahn_inv ids E [] (filter (fun nid => dget_or 0%Z nid deg = 0%Z) ids) [] deg.
Proof.
  intros Hnd Hdeg. split; cbn [app].
  - by apply NoDup_filter.
  - intros v [_ Hv]%list_elem_of_filter. done.
  - intros v Hv. rewrite waiting_nil, Hdeg by done. unfold occ at 3. simpl. f_equal. lia.
  - intros v Hv. rewrite list_elem_of_filter, waiting_nil. unfold dget_or.
    rewrite Hdeg by done. unfold occ at 3. simpl. split; [intros [? _]; lia | intros; split; [lia|done]].
  - by intros u v _ Hv%not_elem_of_nil.
Qed.

(** The run of the loop on a canvas: it terminates within its fuel. *)
Lemma topological_order_run nodes edges :
  let ids := dkeys (node_map nodes) in
  exists order deg, kahn_inv ids (pairs ids edges) order [] [] deg /\
    topological_order nodes edges =
      if length order =? length ids
      then Ok (omap (fun nid => dget nid (node_map nodes)) order)
      else Raise (GraphCycleError (sorted_strings (filter (fun i => i ∉ order) ids))).
Proof.
  intros ids. pose proof (count_edges_spec ids edges) as [Hdeg Hdep].
  destruct (kahn_loop_spec ids (pairs ids edges) (count_edges ids edges).2 (length ids) []
    (filter (fun nid => dget_or 0%Z nid (count_edges ids edges).1 = 0%Z) ids)
    (count_edges ids edges).1) as (order & deg & Hrun & Hinv).
  - done.
  - intros u v Huv%elem_of_pairs. naive_solver.
  - simpl. lia.
  - apply kahn_inv_init; [apply node_map_wf | done].
  - exists order, deg. split; [done|]. unfold topological_order. fold ids. by rewrite Hrun.
Qed.

Lemma kahn_inv_before nodes edges ids order deg u v :
  (forall i, i ∈ ids <-> i ∈ node_ids nodes) ->
  kahn_inv ids (pairs ids edges) order [] [] deg ->
  tc (dep nodes edges) u v -> v ∈ order -> before order u v.
Proof.
  intros Hids Hinv Htc Hv. destruct Hinv as [Hnd _ _ _ Htopo]. rewrite app_nil_r in Hnd.
  assert (Hstep : forall x y, dep nodes edges x y -> y ∈ order -> before order x y).
  { intros x y Hxy Hy. apply Htopo; [|done]. by apply (pairs_dep nodes). }
  induction Htc as [x y Hxy | x y z Hxy _ IH]; [by apply Hstep|].
  specialize (IH Hv). eapply before_trans; [done| |done].
  apply Hstep; [done|]. by eapply before_elem_l.
Qed.

(** The order lists every canvas node that has an id exactly once, and every
    edge goes forward in it. *)
Lemma topological_order_sound nodes edges l :
  topological_order nodes edges = Ok l ->
  NoDup (node_ids l) /\ (forall i, i ∈ node_ids l <-> i ∈ node_ids nodes) /\
  (forall n, n ∈ l -> n ∈ nodes) /\
  forall u v, dep nodes edges u v -> before (node_ids l) u v.
Proof.
  destruct (topological_order_run nodes edges) as (order & deg & Hinv & ->).
  destruct (Nat.eqb_spec (length order) (length (dkeys (node_map nodes)))) as [Hlen|]; [|done].
  intros [=<-]. pose proof Hinv as [Hnd Hsub _ _ _]. rewrite app_nil_r in Hnd, Hsub.
  assert (Hall : forall i, i ∈ order <-> i ∈ node_ids nodes).
  { intros i. rewrite <- node_map_keys. split; [apply Hsub|].
    rewrite !list_elem_of_In. apply NoDup_length_incl; [by apply NoDup_ListNoDup|lia|].
    intros x. rewrite <- !list_elem_of_In. apply Hsub. }
  rewrite node_map_values by (intros i; by apply Hall).
  split_and!; [done|done| |].
  - intros n (i & _ & Hi)%list_elem_of_omap. by apply node_map_lookup in Hi as [].
  - intros u v Huv. eapply (kahn_inv_before nodes edges); [intros i; apply node_map_keys|done|by apply tc_once|].
    apply Hall, Huv.
Qed.

Lemma tc_dep_listed nodes edges u v :
  tc (dep nodes edges) u v -> u ∈ node_ids nodes /\ v ∈ node_ids nodes.
Proof.
  induction 1 as [x y Hxy | x y z Hxy _ [_ IH]]; split; try done; apply Hxy.
Qed.

Lemma topological_order_decides nodes edges :
  match topological_order nodes edges with
  | Ok _ => forall v, ~ tc (dep nodes edges) v v
  | Raise (GraphCycleError ids) =>
      (exists v, tc (dep nodes edges) v v) /\
      forall v, v ∈ ids <-> exists c, tc (dep nodes edges) c c /\ rtc (dep nodes edges) c v
  | Raise _ => False
  end.
Proof.
  destruct (topological_order_run nodes edges) as (order & deg & Hinv & ->).
  set (ids := dkeys (node_map nodes)) in *.
  assert (Hids : forall i, i ∈ ids <-> i ∈ node_ids nodes) by (intros i; apply node_map_keys).
  pose proof Hinv as [Hnd Hsub _ Hzero _]. rewrite app_nil_r in Hnd, Hsub, Hzero.
  assert (Hcyc : forall v, v ∈ order -> ~ tc (dep nodes edges) v v).
  { intros v Hv Htc. eapply before_irrefl; [done|]. by eapply kahn_inv_before. }
  assert (Hup : forall c v, rtc (dep nodes edges) c v -> v ∈ order -> c ∈ order).
  { intros c v [->|Htc]%rtc_tc Hv; [done|].
    eapply before_elem_l. by eapply kahn_inv_before. }
  assert (Hpred : forall x, x ∈ filter (fun i => i ∉ order) ids ->
    exists y, y ∈ filter (fun i => i ∉ order) ids /\ dep nodes edges y x).
  { intros x [Hx Hxi]%list_elem_of_filter. rewrite (Hzero x Hxi) in Hx.
    unfold occ in Hx. simpl in Hx. rewrite Z.add_0_r, waiting_zero in Hx.
    destruct (decide (Exists (fun p => p.2 = x /\ p.1 ∉ order) (pairs ids edges))) as [He|He].
    - apply Exists_exists in He as ([y x'] & Hin & [Hx' Hy]). simpl in *. subst x'.
      exists y. apply (pairs_dep nodes) in Hin as Hd; [|done].
      split; [|done]. apply list_elem_of_filter. split; [done|]. apply Hids, Hd.
    - exfalso. apply Hx. intros u Hin. apply dec_stable. intros Hu. apply He.
      apply Exists_exists. by exists (u, x). }
  assert (Hfrom : forall v, v ∈ filter (fun i => i ∉ order) ids ->
    exists c, tc (dep nodes edges) c c /\ rtc (dep nodes edges) c v).
  { intros v Hv. eapply finite_pred_cycle; [reflexivity|exact Hv|].
    intros x (y & Hy & Hyx)%Hpred. exists y. split; [done|by apply tc_once]. }
  destruct (Nat.eqb_spec (length order) (length ids)) as [Hlen|Hlen].
  - intros v Htc. apply (Hcyc v); [|done]. apply list_elem_of_In.
    apply (NoDup_length_incl (l := order)) with (l' := ids); [by apply NoDup_ListNoDup|lia| |].
    + intros x. rewrite <- !list_elem_of_In. apply Hsub.
    + by apply list_elem_of_In, Hids, (tc_dep_listed nodes edges v v).
  - split.
    + destruct (filter (fun i => i ∉ order) ids) as [|x l] eqn:Hf.
      * exfalso. apply Hlen. apply Permutation_length. apply NoDup_Permutation; [done|apply node_map_wf|].
        intros x. split; [apply Hsub|]. intros Hx. apply dec_stable. intros Ho.
        assert (Hin : x ∈ filter (fun i => i ∉ order) ids) by (by apply list_elem_of_filter).
        rewrite Hf in Hin. by apply not_elem_of_nil in Hin.
      * destruct (Hfrom x) as (c & Hc & _); [by left | by exists c].
    + intros v. rewrite elem_of_sorted_strings. split; [apply Hfrom|].
      intros (c & Hc & Hcv). apply list_elem_of_filter. split.
      * intros Hv. apply (Hcyc c); [|done]. by eapply Hup.
      * apply Hids. eapply (tc_dep_listed nodes edges c v). by eapply tc_rtc_r.
Qed.

(** C1. [topological_order] always answers.  On an acyclic canvas it returns an
    order that lists every node with an id exactly once and puts every edge
    forward; on a cyclic one it raises [GraphCycleError] naming exactly the
    nodes that lie on a cycle or downstream of one. *)
Theorem topological_order_correct nodes edges :
  match topological_order nodes edges with
  | Ok l =>
      (forall v, ~ tc (dep nodes edges) v v) /\
      NoDup (node_ids l) /\ (forall i, i ∈ node_ids l <-> i ∈ node_ids nodes) /\
      forall u v, dep nodes edges u v -> before (node_ids l) u v
  | Raise (GraphCycleError ids) =>
      (exists v, tc (dep nodes edges) v v) /\
      forall v, v ∈ ids <-> exists c, tc (dep nodes edges) c c /\ rtc (dep nodes edges) c v
  | Raise _ => False
  end.
Proof.
  pose proof (topological_order_decides nodes edges) as Hd.
  destruct (topological_order nodes edges) as [l|e] eqn:Hl; [|done].
  apply topological_order_sound in Hl. naive_solver.
Qed.

(** ** [topological_generations] *)

Definition sources (v : string) (E : list (string * string)) : list string :=
  (filter (fun p => p.2 = v) E).*1.

Lemma elem_of_sources u v E : u ∈ sources v E <-> (u, v) ∈ E.
Proof.
  unfold sources. rewrite list_elem_of_fmap. split.
  - intros ([u' v'] & -> & [<- Hin]%list_elem_of_filter). done.
  - intros Hin. exists (u, v). split; [done|]. by apply list_elem_of_filter.
Qed.

Lemma parents_of_spec ids edges v :
  v ∈ ids -> dget v (parents_of ids edges) = Some (sources v (pairs ids edges)).
Proof.
  intros Hv. unfold parents_of. induction edges as [|e edges IH] using rev_ind.
  - simpl. by rewrite dget_dict_of_keys, decide_True.
  - rewrite pairs_snoc, foldl_app. cbn [foldl].
    set (ps := foldl _ _ _) in *. unfold sources in *. rewrite filter_app, fmap_app.
    destruct (decide (edge_source e ∈ ids /\ edge_target e ∈ ids)) as [[Hs Ht]|Hno].
    + rewrite !bool_decide_eq_true_2 by done. cbn [andb].
      rewrite dget_dset, filter_cons, filter_nil. cbn [snd].
      destruct (decide (v = edge_target e)) as [->|Hne].
      * rewrite decide_True by done. unfold dget_or. by rewrite IH.
      * rewrite decide_False by done. by rewrite IH, app_nil_r.
    + rewrite app_nil_r. replace (bool_decide _ && bool_decide _) with false; [done|].
      symmetry. apply andb_false_iff. rewrite !bool_decide_eq_false.
      destruct (decide (edge_source e ∈ ids)); naive_solver.
Qed.

Lemma max_depth_spec depths ps :
  (forall p, p ∈ ps -> is_Some (dget p depths)) ->
  exists m, max_depth depths ps = Ok m /\
    (forall p d, p ∈ ps -> dget p depths = Some d -> d < m) /\
    (forall m', m = S m' -> exists p, p ∈ ps /\ dget p depths = Some m').
Proof.
  induction ps as [|p ps IH]; intros Hps; simpl.
  - exists 0. split_and!; [done| |done]. by intros p d ?%not_elem_of_nil.
  - destruct (Hps p) as [d Hd]; [by left|]. rewrite Hd.
    destruct IH as (m & -> & Hlt & Hmax); [intros; apply Hps; by right|]. cbn [mbind res_bind].
    exists (Nat.max (S d) m). split_and!; [done| |].
    + intros q dq [->|Hq]%elem_of_cons Hdq; [simplify_eq; lia|]. specialize (Hlt q dq Hq Hdq). lia.
    + intros m' Hm'. destruct (Nat.max_spec (S d) m) as [[_ Hm]|[_ Hm]]; rewrite Hm in Hm'.
      * destruct (Hmax m' Hm') as (q & Hq & ?). exists q. split; [by right|done].
      * exists p. split; [by left|congruence].
Qed.

Lemma push_generation_spec depth n gens :
  depth <= length gens ->
  exists gens', push_generation depth n gens = Ok gens' /\
    length gens' = Nat.max (length gens) (S depth) /\
    (forall d, gens' !! d = if decide (d = depth) then Some (default [] (gens !! depth) ++ [n]) else gens !! d) /\
    concat gens' ≡ₚ concat gens ++ [n].
Proof.
  intros Hle. unfold push_generation.
  destruct (Nat.eqb_spec depth (length gens)) as [->|Hne].
  - rewrite lookup_app_r, Nat.sub_diag by lia. cbn [lookup list_lookup].
    eexists. split; [done|]. split_and!.
    + rewrite length_insert, length_app. simpl. lia.
    + intros d. rewrite (lookup_ge_None_2 gens (length gens)) by lia. case_decide as Hd.
      * subst. rewrite list_lookup_insert_eq; [done|]. rewrite length_app. simpl. lia.
      * rewrite list_lookup_insert_ne by done.
        destruct (decide (d < length gens)); [by rewrite lookup_app_l|].
        rewrite !lookup_ge_None_2; [done|lia|rewrite length_app; simpl; lia].
    + rewrite insert_app_r_alt, Nat.sub_diag by lia. simpl. by rewrite concat_app.
  - destruct (lookup_lt_is_Some_2 gens depth) as [wave Hw]; [lia|]. rewrite Hw.
    eexists. split; [done|]. split_and!.
    + rewrite length_insert. lia.
    + intros d. case_decide as Hd; [subst; rewrite list_lookup_insert_eq by lia; done|].
      by rewrite list_lookup_insert_ne.
    + rewrite <- (take_drop_middle gens depth wave Hw) at 2.
      rewrite insert_take_drop by lia.
      rewrite !concat_app. simpl. rewrite <- !app_assoc. f_equiv.
      rewrite (Permutation_app_comm (concat _) [n]). by rewrite app_assoc, <- !app_assoc.
Qed.

(** What [topological_generations] expects of its input. *)
Record valid_order (l : list node) (edges : list edge) : Prop := {
  vo_ids n : n ∈ l -> is_Some (node_id n);
  vo_nodup : NoDup (node_ids l);
  vo_forward u v : dep l edges u v -> before (node_ids l) u v
}.

Lemma topological_order_valid nodes edges l :
  topological_order nodes edges = Ok l -> valid_order l edges.
Proof.
  intros Hl. apply topological_order_sound in Hl as Hs. destruct Hs as (Hnd & Hids & Hin & Hfw).
  split; [|done|].
  - intros n Hn. destruct (topological_order_run nodes edges) as (order & deg & _ & Heq).
    rewrite Heq in Hl. case_match; [|done]. injection Hl as <-.
    apply list_elem_of_omap in Hn as (i & _ & Hi). apply node_map_lookup in Hi as [_ Hi]. by eexists.
  - intros u v (Hu & Hv & He). apply Hfw. split_and!; [by apply Hids..|done].
Qed.

(** The node with id [i] sits in layer [d]. *)
Definition wave_of (gens : list (list node)) (i : string) (d : nat) : Prop :=
  exists wave n, gens !! d = Some wave /\ n ∈ wave /\ node_id n = Some i.

Record gen_inv (E : list (string * string)) (placed : list node) (st : dict nat * list (list node)) : Prop := {
  gi_keys i : i ∈ node_ids placed <-> is_Some (dget i st.1);
  gi_wave i d : wave_of st.2 i d <-> dget i st.1 = Some d;
  gi_perm : concat st.2 ≡ₚ placed;
  gi_nonempty d : st.2 !! d ≠ Some [];
  gi_lt u v dv : (u, v) ∈ E -> dget v st.1 = Some dv -> exists du, dget u st.1 = Some du /\ du < dv;
  gi_tight v d : dget v st.1 = Some (S d) -> exists u, (u, v) ∈ E /\ dget u st.1 = Some d
}.

Lemma gen_inv_bound E placed st i d : gen_inv E placed st -> dget i st.1 = Some d -> d < length st.2.
Proof.
  intros Hinv Hi. apply (gi_wave _ _ _ Hinv) in Hi as (wave & n & Hw & _). by apply lookup_lt_Some in Hw.
Qed.

Lemma node_ids_snoc l n i : node_id n = Some i -> node_ids (l ++ [n]) = node_ids l ++ [i].
Proof. intros Hi. unfold node_ids. rewrite omap_app. simpl. by rewrite Hi. Qed.

Lemma place_node_inv ids edges placed st n i :
  let E := pairs ids edges in
  gen_inv E placed st -> node_id n = Some i -> i ∈ ids -> i ∉ node_ids placed ->
  (forall u, (u, i) ∈ E -> u ∈ node_ids placed) ->
  (forall v, (i, v) ∈ E -> v ∉ node_ids placed) ->
  exists st', place_node (parents_of ids edges) st n = Ok st' /\ gen_inv E (placed ++ [n]) st'.
Proof.
  intros E Hinv Hn Hi Hnew Hpar Hchild. unfold place_node.
  rewrite Hn, parents_of_spec by done. fold E.
  destruct (max_depth_spec st.1 (sources i E)) as (depth & -> & Hlt & Hmax).
  { intros p Hp%elem_of_sources. by apply (gi_keys _ _ _ Hinv), Hpar. }
  cbn [mbind res_bind].
  destruct (push_generation_spec depth n st.2) as (gens & -> & Hlen & Hgens & Hperm).
  { destruct depth as [|d]; [lia|]. destruct (Hmax d eq_refl) as (p & _ & Hp).
    apply (gen_inv_bound _ _ _ _ _ Hinv) in Hp. lia. }
  cbn [mbind res_bind]. eexists. split; [done|].
  assert (Hfresh : dget i st.1 = None).
  { apply eq_None_not_Some. intros Hs. by apply Hnew, (gi_keys _ _ _ Hinv). }
  split; cbn [fst snd].
  - intros j. rewrite (node_ids_snoc _ _ i Hn), elem_of_app, list_elem_of_singleton, dget_dset.
    case_decide; [naive_solver|]. rewrite (gi_keys _ _ _ Hinv). naive_solver.
  - intros j d. unfold wave_of. rewrite dget_dset. setoid_rewrite Hgens.
    destruct (decide (d = depth)) as [->|Hd].
    + case_decide as Hj.
      * subst j. split; [done|]. intros _. eexists _, n. split; [done|].
        split; [|done]. apply elem_of_app. right. by left.
      * rewrite <- (gi_wave _ _ _ Hinv). unfold wave_of. split.
        -- intros (wave & m & [=<-] & Hm & Hid).
           apply elem_of_app in Hm as [Hm|Hm%list_elem_of_singleton]; [|congruence].
           destruct (st.2 !! depth) as [w|]; [by eauto|by apply not_elem_of_nil in Hm].
        -- intros (wave & m & Hw & Hm & Hid). eexists _, m. split; [done|].
           rewrite Hw. split; [|done]. apply elem_of_app. by left.
    + case_decide as Hj; [|apply (gi_wave _ _ _ Hinv)]. subst j. split; [|congruence].
      intros Hw. apply (gi_wave _ _ _ Hinv) in Hw. congruence.
  - rewrite Hperm. by rewrite (gi_perm _ _ _ Hinv).
  - intros d. rewrite Hgens. case_decide; [|apply (gi_nonempty _ _ _ Hinv)].
    intros [=Hnil]. by destruct (default [] (st.2 !! depth)).
  - intros u v dv Huv Hv. rewrite dget_dset in Hv. rewrite dget_dset. case_decide as Hvi.
    + simplify_eq. assert (Hu : u ∈ node_ids placed) by (by apply Hpar).
      apply (gi_keys _ _ _ Hinv) in Hu as [du Hu].
      assert (Hui : u ≠ i) by (intros ->; congruence). rewrite decide_False by done.
      exists du. split; [done|]. by apply (Hlt u); [apply elem_of_sources|].
    + destruct (decide (u = i)) as [->|Hui].
      * exfalso. eapply Hchild; [exact Huv|]. apply (gi_keys _ _ _ Hinv). by eexists.
      * by eapply (gi_lt _ _ _ Hinv).
  - intros v d. rewrite dget_dset. case_decide as Hvi.
    + intros [=Hd]. destruct (Hmax d Hd) as (p & Hp%elem_of_sources & Hpd).
      subst v. exists p. split; [done|]. rewrite dget_dset_ne by (intros ->; congruence). done.
    + intros Hv. destruct (gi_tight _ _ _ Hinv v d Hv) as (u & Huv & Hu).
      exists u. split; [done|]. rewrite dget_dset_ne by (intros ->; congruence). done.
Qed.

Lemma place_nodes_inv ids edges placed rest st :
  let E := pairs ids edges in
  gen_inv E placed st ->
  (forall n, n ∈ rest -> is_Some (node_id n)) -> NoDup (node_ids (placed ++ rest)) ->
  (forall i, i ∈ node_ids (placed ++ rest) <-> i ∈ ids) ->
  (forall u v, (u, v) ∈ E -> before (node_ids (placed ++ rest)) u v) ->
  exists st', foldM (place_node (parents_of ids edges)) st rest = Ok st' /\ gen_inv E (placed ++ rest) st'.
Proof.
  intros E. revert placed st. induction rest as [|n rest IH]; intros placed st Hinv Hsome Hnd Hids Hfw.
  { exists st. rewrite app_nil_r. done. }
  destruct (Hsome n) as [i Hi]; [by left|].
  assert (Hsplit : node_ids (placed ++ n :: rest) = node_ids placed ++ i :: node_ids rest).
  { unfold node_ids. rewrite omap_app. simpl. by rewrite Hi. }
  assert (Hnew : i ∉ node_ids placed).
  { rewrite Hsplit in Hnd. apply NoDup_app in Hnd as (_ & Hd & _). intros Hp. apply (Hd i Hp). by left. }
  assert (Hbef : forall u, before (node_ids placed ++ i :: node_ids rest) u i -> u ∈ node_ids placed).
  { intros u Hu. rewrite Hsplit in Hnd. by eapply before_split. }
  destruct (place_node_inv ids edges placed st n i Hinv Hi) as (st1 & Hst1 & Hinv1).
  - apply Hids. rewrite Hsplit. apply elem_of_app. right. by left.
  - done.
  - intros u Hu. apply Hbef. rewrite <- Hsplit. by apply Hfw.
  - intros v Hv Hvp. specialize (Hfw i v Hv). rewrite Hsplit in Hfw, Hnd.
    apply list_elem_of_split in Hvp as (k1 & k2 & Hk). rewrite Hk, <- app_assoc in Hfw, Hnd.
    destruct Hfw as (l1 & l2 & Heq & Hil).
    eapply (before_irrefl _ v Hnd). eapply before_trans; [done| |].
    + exists (k1 ++ v :: k2), (node_ids rest). split; [by rewrite <- app_assoc|].
      apply elem_of_app. right. by left.
    + by exists l1, l2.
  - cbn [foldM]. rewrite Hst1.
    destruct (IH (placed ++ [n]) st1) as (st' & Hst' & Hinv'); [done|..].
    + intros m Hm. apply Hsome. by right.
    + by rewrite <- app_assoc.
    + by rewrite <- app_assoc.
    + by rewrite <- app_assoc.
    + exists st'. by rewrite <- app_assoc in Hinv'.
Qed.

(** The layers of a valid order: total, a partition of the nodes into
    non-empty layers, each edge going to a strictly later layer, and each node
    in the earliest layer its parents allow. *)
Lemma topological_generations_spec l edges :
  valid_order l edges ->
  exists gens, topological_generations l edges = Ok gens /\ concat gens ≡ₚ l /\
    (forall d, gens !! d ≠ Some []) /\
    (forall i, i ∈ node_ids l <-> exists d, wave_of gens i d) /\
    (forall i d d', wave_of gens i d -> wave_of gens i d' -> d = d') /\
    (forall u v du dv, dep l edges u v -> wave_of gens u du -> wave_of gens v dv -> du < dv) /\
    (forall v d, wave_of gens v (S d) -> exists u, dep l edges u v /\ wave_of gens u d).
Proof.
  intros [Hsome Hnd Hfw]. unfold topological_generations.
  assert (HE : forall u v, (u, v) ∈ pairs (node_ids l) edges <-> dep l edges u v).
  { intros u v. by apply pairs_dep. }
  destruct (place_nodes_inv (node_ids l) edges [] l ([], [])) as ([depths gens] & -> & Hinv).
  - split; cbn [fst snd].
    + intros i. split; [by intros ?%not_elem_of_nil | by intros [? ?]].
    + intros i d. split; [|done]. by intros (wave & n & ? & _).
    + done.
    + intros d. by rewrite lookup_nil.
    + done.
    + done.
  - done.
  - done.
  - done.
  - intros u v Huv. by apply Hfw, HE.
  - cbn [mbind res_bind snd]. exists gens. destruct Hinv as [Hk Hw Hp Hne Hlt Ht]. cbn [fst snd app] in *.
    split_and!; [done|done|done| | | |].
    + intros i. rewrite Hk. split; [intros [d Hd]; exists d; by apply Hw | intros [d Hd]; exists d; by apply Hw].
    + intros i d d' Hd Hd'. apply Hw in Hd, Hd'. congruence.
    + intros u v du dv Huv Hu Hv. apply Hw in Hu, Hv.
      destruct (Hlt u v dv) as (du' & Hu' & ?); [by apply HE|done|]. congruence.
    + intros v d Hv%Hw. destruct (Ht v d Hv) as (u & Huv & Hu). exists u. rewrite <- HE, Hw. done.
Qed.

(** ** [downstream_node_ids] *)

Lemma adjacency_lookup nodes edges u :
  dget_or [] u (adjacency nodes edges) = targets u (pairs (node_ids nodes) edges) /\
  (u ∈ dkeys (adjacency nodes edges) <-> u ∈ node_ids nodes).
Proof.
  unfold adjacency. revert u. induction edges as [|e edges IH] using rev_ind; intros u.
  - simpl. unfold dget_or. rewrite elem_of_dkeys, dget_dict_of_keys.
    case_decide; split; try done; naive_solver.
  - rewrite pairs_snoc, foldl_app. cbn [foldl].
    set (adj := foldl _ _ _) in *. unfold targets in *. rewrite filter_app, fmap_app.
    unfold dmem.
    destruct (decide (edge_source e ∈ node_ids nodes /\ edge_target e ∈ node_ids nodes)) as [[Hs Ht]|Hno].
    + rewrite !bool_decide_eq_true_2 by (by apply IH). cbn [andb].
      destruct (IH u) as [IHu IHk], (IH (edge_source e)) as [IHs _].
      rewrite elem_of_dkeys_dset, filter_cons, filter_nil. cbn [fst]. unfold dget_or in *.
      rewrite dget_dset. split; [|naive_solver].
      destruct (decide (u = edge_source e)) as [->|Hne].
      * rewrite decide_True by done. simpl. by rewrite IHs.
      * rewrite decide_False by done. by rewrite IHu, app_nil_r.
    + rewrite app_nil_r. replace (bool_decide _ && bool_decide _) with false; [apply IH|].
      symmetry. apply andb_false_iff. rewrite !bool_decide_eq_false.
      destruct (IH (edge_source e)) as [_ ->], (IH (edge_target e)) as [_ ->].
      destruct (decide (edge_source e ∈ node_ids nodes)); naive_solver.
Qed.

(** Edges whose source has not been visited yet. *)
Definition unvisited (visited : gset string) (E : list (string * string)) : nat :=
  length (filter (fun p => p.1 ∉ visited) E).

Lemma unvisited_visit visited nid E :
  nid ∉ visited ->
  unvisited visited E = unvisited ({[nid]} ∪ visited) E + length (targets nid E).
Proof.
  intros Hn. unfold unvisited, targets. rewrite length_fmap.
  induction E as [|[a b] E IH]; [done|]. rewrite !filter_cons. cbn [fst].
  destruct (decide (a = nid)) as [->|Ha].
  - rewrite (decide_True (P := nid ∉ visited)) by done. rewrite decide_False by set_solver.
    cbn [length]. lia.
  - destruct (decide (a ∉ visited)) as [Hv|Hv].
    + rewrite decide_True by set_solver. cbn [length]. lia.
    + rewrite decide_False by set_solver. lia.
Qed.

Definition edge_rel (E : list (string * string)) (u v : string) : Prop := (u, v) ∈ E.

Lemma bfs_spec E adj fuel queue visited :
  (forall u, dget_or [] u adj = targets u E) ->
  length queue + unvisited visited E <= fuel ->
  exists r, bfs fuel adj queue visited = Some r /\ visited ⊆ r /\
    (forall v, v ∈ queue -> v ∈ r) /\
    (forall u v, u ∈ r -> u ∉ visited -> edge_rel E u v -> v ∈ r) /\
    (forall v, v ∈ r -> v ∈ visited \/ exists q, q ∈ queue /\ rtc (edge_rel E) q v).
Proof.
  intros Hadj. revert queue visited. induction fuel as [|fuel IH]; intros queue visited Hfuel.
  - destruct queue as [|nid queue]; [|simpl in Hfuel; lia]. simpl. exists visited.
    split_and!; [done|done|by intros v ?%not_elem_of_nil|done|auto].
  - destruct queue as [|nid queue]; simpl in *.
    { exists visited. split_and!; [done|done|by intros v ?%not_elem_of_nil|done|auto]. }
    case_decide as Hv.
    + destruct (IH queue visited) as (r & -> & Hsub & Hq & Hcl & Hex); [lia|].
      exists r. split_and!; [done|done| |done|].
      * intros v [->|Hin]%elem_of_cons; auto.
      * intros v Hr. destruct (Hex v Hr) as [|(q & Hin & ?)]; [auto|].
        right. exists q. split; [by right|done].
    + rewrite Hadj. pose proof (unvisited_visit visited nid E Hv) as Hun.
      destruct (IH (queue ++ targets nid E) ({[nid]} ∪ visited)) as (r & -> & Hsub & Hq & Hcl & Hex).
      { rewrite length_app. lia. }
      exists r. split_and!; [done|set_solver| | |].
      * intros v [->|Hin]%elem_of_cons; [set_solver|]. apply Hq, elem_of_app. by left.
      * intros u v Hu Huv Hr. destruct (decide (u = nid)) as [->|Hne].
        -- apply Hq, elem_of_app. right. by apply elem_of_targets.
        -- apply (Hcl u); [done|set_solver|done].
      * intros v Hr. destruct (Hex v Hr) as [Hin|(q & Hin & Hrtc)].
        -- apply elem_of_union in Hin as [->%elem_of_singleton|Hin]; [|auto].
           right. exists nid. split; [by left|done].
        -- right. apply elem_of_app in Hin as [Hin|Hin%elem_of_targets].
           ++ exists q. split; [by right|done].
           ++ exists nid. split; [by left|]. by eapply rtc_l.
Qed.

Lemma unvisited_le visited E : unvisited visited E <= length E.
Proof. apply filter_length_le. Qed.

Lemma targets_length_le u E : length (targets u E) <= length E.
Proof. unfold targets. rewrite length_fmap. apply filter_length_le. Qed.

Lemma pairs_length ids edges : length (pairs ids edges) <= length edges.
Proof.
  unfold pairs. etrans; [apply filter_length_le|]. by rewrite length_fmap.
Qed.

(** [downstream_node_ids] terminates within its fuel and returns exactly the
    nodes reachable from the start by one or more dependency edges. *)
Lemma downstream_spec start nodes edges v :
  v ∈ downstream_node_ids start nodes edges <-> tc (dep nodes edges) start v.
Proof.
  set (E := pairs (node_ids nodes) edges).
  assert (HE : forall u w, edge_rel E u w <-> dep nodes edges u w).
  { intros u w. by apply pairs_dep. }
  unfold downstream_node_ids. rewrite (proj1 (adjacency_lookup nodes edges start)). fold E.
  destruct (bfs_spec E (adjacency nodes edges) (2 * length edges) (targets start E) ∅)
    as (r & -> & _ & Hq & Hcl & Hex).
  { intros u. apply adjacency_lookup. }
  { pose proof (pairs_length (node_ids nodes) edges) as HlE. fold E in HlE.
    pose proof (unvisited_le ∅ E). pose proof (targets_length_le start E). lia. }
  cbn [default from_option]. split.
  - intros [?%not_elem_of_empty|(q & Hq' & Hrtc)]%Hex; [done|].
    apply elem_of_targets in Hq'. apply tc_rtc_r with q.
    + apply tc_once. by apply HE.
    + clear -HE Hrtc. induction Hrtc; [done|]. eapply rtc_l; [by apply HE|done].
  - intros Htc. revert v Htc. apply (tc_ind_r (fun v => v ∈ r) start).
    + intros w Hw. apply Hq, elem_of_targets. by apply HE.
    + intros w z _ Hwz Hw. apply (Hcl w); [done|set_solver|by apply HE].
Qed.

(** ** Fan-out branch *)

Lemma find_join_spec inv nodes edges j :
  find_join_node_id inv nodes edges = Some j ->
  tc (dep nodes edges) inv j /\ exists n, n ∈ nodes /\ node_id_or_empty n = j /\ is_fan_in n = true.
Proof.
  unfold find_join_node_id. intros Hj.
  apply fmap_Some in Hj as (n & Hn & ->).
  apply head_Some_elem_of in Hn. apply list_elem_of_filter in Hn as [[Hd Hf] Hn].
  apply downstream_spec in Hd. eauto.
Qed.

Lemma elem_of_child_node_ids inv j nodes edges v :
  v ∈ child_node_ids inv j nodes edges <->
  tc (dep nodes edges) inv v /\ (forall j', j = Some j' -> ~ rtc (dep nodes edges) j' v).
Proof.
  unfold child_node_ids. destruct j as [j|].
  - rewrite elem_of_difference, elem_of_union, elem_of_singleton, !downstream_spec.
    split; intros [Hv Hn]; (split; [done|]).
    + intros ? [= <-] [->|]%rtc_tc; naive_solver.
    + intros Hor. apply (Hn j eq_refl). apply rtc_tc. naive_solver.
  - rewrite downstream_spec. naive_solver.
Qed.

(** C2. The fan-in node splits the region below an inventory step in two: the
    child branch and the post-join part (the fan-in node and everything below
    it).  They are disjoint and cover the region, no dependency leads from the
    post-join part back into the child branch, and every child node is reached
    from the inventory step through child nodes only. *)
Theorem fan_out_branch_split inv j nodes edges :
  find_join_node_id inv nodes edges = Some j ->
  let child := child_node_ids inv (Some j) nodes edges in
  let post := {[j]} ∪ downstream_node_ids j nodes edges in
  downstream_node_ids inv nodes edges = child ∪ post /\
  child ## post /\
  (forall u v, u ∈ post -> dep nodes edges u v -> v ∈ post) /\
  (forall v, v ∈ child ->
     tc (fun a b => dep nodes edges a b /\ b ∈ child /\ (a = inv \/ a ∈ child)) inv v).
Proof.
  intros Hj child post. apply find_join_spec in Hj as [Hj _].
  assert (Hpost : forall v, v ∈ post <-> rtc (dep nodes edges) j v).
  { intros v. unfold post. rewrite elem_of_union, elem_of_singleton, downstream_spec, rtc_tc.
    naive_solver. }
  assert (Hchild : forall v, v ∈ child <-> tc (dep nodes edges) inv v /\ ~ rtc (dep nodes edges) j v).
  { intros v. unfold child. rewrite elem_of_child_node_ids. naive_solver. }
  split_and!.
  - apply set_eq. intros v. rewrite downstream_spec, elem_of_union, Hpost, Hchild. split.
    + intros Hv. destruct (decide (v ∈ post)) as [Hp%Hpost|Hp]; [by right|].
      left. split; [done|]. by rewrite <- Hpost.
    + intros [[? _]|Hv]; [done|]. by eapply tc_rtc_r.
  - intros v Hc%Hchild Hp%Hpost. naive_solver.
  - intros u v Hu%Hpost Huv. apply Hpost. by eapply rtc_r.
  - intros v [Htc Hnj]%Hchild. revert v Htc Hnj.
    set (R := fun a b => dep nodes edges a b /\ b ∈ child /\ (a = inv \/ a ∈ child)).
    apply (tc_ind_r (fun v => ~ rtc (dep nodes edges) j v -> tc R inv v) inv).
    + intros w Hw Hnj. apply tc_once. split_and!; [done| |by left].
      apply Hchild. split; [by apply tc_once|done].
    + intros w z Hw Hwz IH Hnj.
      assert (Hnw : ~ rtc (dep nodes edges) j w) by (intros Hr; apply Hnj; by eapply rtc_r).
      eapply tc_r; [by apply IH|]. split_and!; [done| |right; by apply Hchild].
      apply Hchild. split; [by eapply tc_r|done].
Qed.

(** A canvas on which the theorems above are exercised:
    [inv -> a -> join -> z], with a side input [side -> a]. *)
Definition kind_data (kind : string) : dict json := [("kind", JStr kind)].
Definition mk_node (i kind : string) : node := Node (Some i) (kind_data kind).
Definition mk_edge (u v : string) : edge := Edge (Some (u +:+ "-" +:+ v)) (Some u) (Some v) None None [].

Definition sample_nodes : list node :=
  [mk_node "z" "store"; mk_node "inv" "get-devices"; mk_node "a" "run-command";
   mk_node "join" "fan-in"; mk_node "side" "get-devices"].
Definition sample_edges : list edge :=
  [mk_edge "inv" "a"; mk_edge "side" "a"; mk_edge "a" "join"; mk_edge "join" "z"; mk_edge "z" "ghost"].

Example sample_order :
  node_ids <$> (match topological_order sample_nodes sample_edges with Ok l => Some l | Raise _ => None end)
  = Some ["inv"; "side"; "a"; "join"; "z"].
Proof. reflexivity. Qed.

Example sample_cycle :
  topological_order sample_nodes (mk_edge "z" "a" :: sample_edges) = Raise (GraphCycleError ["a"; "join"; "z"]).
Proof. reflexivity. Qed.

Lemma fan_out_branch_split_witness :
  find_join_node_id "inv" sample_nodes sample_edges = Some "join" /\
  child_node_ids "inv" (Some "join") sample_nodes sample_edges
    ## {["join"]} ∪ downstream_node_ids "join" sample_nodes sample_edges.
Proof.
  split; [reflexivity|].
  exact (proj1 (proj2 (fan_out_branch_split "inv" "join" sample_nodes sample_edges eq_refl))).
Defined.
