(* ===== verification/Registry.v ===== *)
(** * The plugin registry

    The step catalogue the engine consults: [models/plugins.py]'s
    [PluginDefinition], read through
    [services/plugin_registry/plugin_registry_service.py].  Only the fields an
    execution reads are kept. *)
From S2P Require Import Prelude Dict Json.

Record PluginDefinition := Plugin {
  plugin_id : string;
  enabled : bool;
  executable : bool;
  requires : list string;
  produces : list string;
  consumes : list string;
  requires_parsed : list string
}.

(** [get_plugin(plugin_id, include_disabled)]: the first plugin of that id
    that is enabled, or any when [include_disabled] is set. *)
Definition get_plugin (registry : list PluginDefinition) (pid : string) (include_disabled : bool)
    : option PluginDefinition :=
  head (filter (fun p => plugin_id p = pid /\ include_disabled || enabled p = true) registry).

(** [registry.get_plugin(kind)] for a [kind] read from the canvas: a value that
    is not a string equals no plugin id. *)
Definition get_plugin_of_kind (registry : list PluginDefinition) (kind : json) : option PluginDefinition :=
  match kind with JStr s => get_plugin registry s false | _ => None end.

Definition list_plugins (registry : list PluginDefinition) (include_disabled : bool) : list PluginDefinition :=
  if include_disabled then registry else filter (fun p => enabled p = true) registry.

(** [_validate_unique_plugins] *)
Definition validate_unique_plugins (registry : list PluginDefinition) : res unit :=
  let ids := plugin_id <$> registry in
  if length ids =? length (remove_dups ids) then Ok tt
  else Raise (RuntimeError "Plugin ids must be unique" []).

Lemma get_plugin_spec registry pid incl p :
  get_plugin registry pid incl = Some p ->
  p ∈ registry /\ plugin_id p = pid /\ (incl = true \/ enabled p = true).
Proof.
  unfold get_plugin. intros Hp%head_Some_elem_of.
  apply list_elem_of_filter in Hp as [[Hid Hen] Hin]. apply orb_true_iff in Hen. done.
Qed.

(** On a registry that passed [_validate_unique_plugins], the lookup is exact:
    it finds the one plugin of that id if it is visible, nothing otherwise. *)
Lemma get_plugin_unique registry pid incl p :
  validate_unique_plugins registry = Ok tt ->
  p ∈ registry -> plugin_id p = pid -> incl = true \/ enabled p = true ->
  get_plugin registry pid incl = Some p.
Proof.
  unfold validate_unique_plugins. destruct (Nat.eqb_spec (length (plugin_id <$> registry))
    (length (remove_dups (plugin_id <$> registry)))) as [Hlen|]; [intros _|done].
  intros Hin Hid Hvis.
  assert (Hnd : NoDup (plugin_id <$> registry)).
  { apply NoDup_ListNoDup. eapply NoDup_incl_NoDup; [apply NoDup_ListNoDup, NoDup_remove_dups| |].
    - by rewrite <- Hlen.
    - intros x. rewrite <- !list_elem_of_In. by rewrite elem_of_remove_dups. }
  unfold get_plugin. destruct (head _) as [q|] eqn:Hq.
  - apply head_Some_elem_of, list_elem_of_filter in Hq as [[Hqid _] Hq].
    f_equal. apply list_elem_of_lookup in Hin as [i Hi], Hq as [j Hj].
    assert (Hij : i = j); [|congruence].
    eapply (NoDup_lookup _ _ _ pid Hnd); by rewrite list_lookup_fmap, ?Hi, ?Hj; simpl; f_equal.
  - apply head_None in Hq. assert (Hf : p ∈ filter (fun p => plugin_id p = pid /\ incl || enabled p = true) registry).
    { apply list_elem_of_filter. split; [|done]. split; [done|]. by apply orb_true_iff. }
    rewrite Hq in Hf. by apply not_elem_of_nil in Hf.
Qed.

(** ** What only the canvas validation reads

    [PluginIOField] and the rest of [PluginDefinition]: the display name, the
    declared outcomes, the promised parsed keys and the configuration form. *)
Record PluginIOField := IOField { field_name : string; required : bool; field_default : json }.

Record PluginEntry := Entry {
  plugin : PluginDefinition;
  plugin_name : string;
  outcome_names : list string;
  produces_parsed : list string;
  configuration_input : list PluginIOField
}.
