(* ===== verification/GraphResolution.v ===== *)
(** * Canvas-graph resolution
      ([backend/services/execution/step_runner/graph_resolution.py])

    What graph the engine really walks: funnel nodes and author-disabled steps
    are spliced out, everything below a stop-here node is cut off, and canvas
    decorations are dropped before the topological sort.

    A Python set of ids that is only tested for membership is a list of ids
    here.  Where the code iterates such a set ([for funnel_id in funnel_ids])
    the model goes in node order; the order only decides which of several
    malformed funnels is reported. *)
From S2P Require Import Prelude Dict Json Graph Registry.

(** [node.get("data") or {}]'s [disabled is True], except structural kinds *)
Definition is_author_disabled (n : node) : bool :=
  bool_decide (dget "disabled" (node_data n) = Some (JBool true)) &&
  negb (bool_decide (node_kind n = Some (JStr "fan-in"))).

(** [{n["id"] for n in nodes if "id" in n and p(n)}] *)
Definition ids_where (p : node -> bool) (nodes : list node) : list string :=
  node_ids (filter (fun n => p n = true) nodes).

(** [o in ids], where [None] is in no set of ids. *)
Definition option_in (o : option string) (ids : list string) : bool :=
  match o with Some i => bool_decide (i ∈ ids) | None => false end.

(** [[n for n in nodes if n.get("id") not in ids]] *)
Definition drop_ids (ids : list string) (nodes : list node) : list node :=
  filter (fun n => option_in (node_id n) ids = false) nodes.

(** ** Disabled steps *)

(** [outgoing.setdefault(edge.get("source", ""), []).append(edge)] *)
Definition outgoing_edges (edges : list edge) : dict (list edge) :=
  foldl (fun out e => dset (edge_source e) (dget_or [] (edge_source e) out ++ [e]) out) [] edges.

(** [edge.get("sourceHandle") or "success"] *)
Definition handle_or_success (e : edge) : string :=
  match sourceHandle e with Some h => if decide (h = "") then "success" else h | None => "success" end.

(** The out-edges a bypass may follow: all of a lone one, the success ones of
    a branching step. *)
Definition pass_edges (out_edges : list edge) : list edge :=
  if 1 <? length out_edges then filter (fun e => handle_or_success e = "success") out_edges
  else out_edges.

(** The recursion of [enabled_targets_beyond]: [seen] grows by a disabled id at
    each call, so one more than the number of disabled ids is enough fuel;
    [None] is out of fuel. *)
Fixpoint enabled_targets_beyond (fuel : nat) (disabled_ids : list string)
    (outgoing : dict (list edge)) (disabled_id : string) (seen : list string)
    : option (list (string * option string)) :=
  match fuel with
  | 0 => None
  | S fuel' =>
      foldr (fun e rest =>
        let tgt := edge_target e in
        if decide (tgt = "") then rest
        else if decide (tgt ∈ disabled_ids) then
          if decide (tgt ∈ seen) then rest
          else r ← enabled_targets_beyond fuel' disabled_ids outgoing tgt (tgt :: seen);
               rest' ← rest; Some (r ++ rest')
        else rest' ← rest; Some ((tgt, targetHandle e) :: rest'))
      (Some []) (pass_edges (dget_or [] disabled_id outgoing))
  end.

(** [wire] of [keep]: source, source handle, target, target handle *)
Definition wire : Type := string * option string * string * option string.
Definition wire_of (e : edge) : wire :=
  (edge_source e, sourceHandle e, edge_target e, targetHandle e).

Definition keep (kept : list edge) (e : edge) : list edge :=
  if decide (wire_of e ∈ wire_of <$> kept) then kept else kept ++ [e].

(** [{**edge, "id": ..., "target": far_target, "targetHandle": far_handle}] *)
Definition bypass_edge (e : edge) (far : string * option string) : edge :=
  Edge (Some ((default "edge" (edge_id e)) +:+ "::bypass::" +:+ far.1))
    (source e) (Some far.1) (sourceHandle e) far.2 (edge_rest e).

Definition bypass_step (disabled_ids : list string) (outgoing : dict (list edge))
    (kept : list edge) (e : edge) : list edge :=
  if decide (edge_source e ∈ disabled_ids) then kept
  else if decide (edge_target e ∈ disabled_ids) then
    foldl keep kept (bypass_edge e <$>
      default [] (enabled_targets_beyond (S (length disabled_ids)) disabled_ids outgoing
                    (edge_target e) [edge_target e]))
  else keep kept e.

Definition resolve_disabled_steps (nodes : list node) (edges : list edge) : list node * list edge :=
  match ids_where is_author_disabled nodes with
  | [] => (nodes, edges)
  | disabled_ids =>
      (drop_ids disabled_ids nodes,
       foldl (bypass_step disabled_ids (outgoing_edges edges)) [] edges)
  end.

(** ** Funnels *)

Definition is_funnel (n : node) : bool := bool_decide (node_kind n = Some (JStr "funnel")).

(** One funnel's check: its one outgoing edge, or the error it raises. *)
Definition funnel_outgoing (funnel_ids : list string) (edges : list edge) (f : string) : res edge :=
  match filter (fun e => source e = Some f) edges with
  | [e] =>
      if decide (edge_target e ∈ funnel_ids)
      then Raise (ValueError "Funnel node {funnel_id!r} feeds into another funnel {downstream_target!r}"
                    [f; edge_target e])
      else Ok e
  | _ => Raise (ValueError "Funnel node {funnel_id!r} must have exactly one outgoing connection" [f])
  end.

Definition outgoing_by_funnel (funnel_ids : list string) (edges : list edge) : res (dict edge) :=
  foldM (fun d f => e ← funnel_outgoing funnel_ids edges f; Ok (dset f e d)) [] funnel_ids.

(** [{**edge, "target": ..., "targetHandle": ...}] *)
Definition funnel_edge (e down : edge) : edge :=
  Edge (edge_id e) (source e) (Some (edge_target down)) (sourceHandle e) (targetHandle down) (edge_rest e).

Definition resolve_funnels (nodes : list node) (edges : list edge) : res (list node * list edge) :=
  match ids_where is_funnel nodes with
  | [] => Ok (nodes, edges)
  | funnel_ids =>
      out ← outgoing_by_funnel funnel_ids edges;
      let direct := filter (fun e => option_in (source e) funnel_ids = false /\
                                     option_in (target e) funnel_ids = false) edges in
      let rewired := omap (fun e =>
        if decide (edge_target e ∈ funnel_ids)
        then funnel_edge e <$> dget (edge_target e) out else None) edges in
      Ok (drop_ids funnel_ids nodes, direct ++ rewired)
  end.

(** ** Stop-here *)

Definition is_stop_here (n : node) : bool := bool_decide (node_kind n = Some (JStr "stop-here")).

Definition truncated_ids (stop_ids : list string) (nodes : list node) (edges : list edge) : gset string :=
  foldl (fun acc s => acc ∪ downstream_node_ids s nodes edges) ∅ stop_ids.

Definition resolve_stop_here (nodes : list node) (edges : list edge) : list node * list edge :=
  match ids_where is_stop_here nodes with
  | [] => (nodes, edges)
  | stop_ids =>
      let truncated := elements (truncated_ids stop_ids nodes edges) in
      (drop_ids truncated nodes,
       filter (fun e => edge_source e ∉ truncated /\ edge_target e ∉ truncated) edges)
  end.

(** ** Executable nodes and the execution order *)

Definition is_executable_node (registry : list PluginDefinition) (n : node) : bool :=
  if is_author_disabled n then false
  else match node_kind n with
       | None => true
       | Some kind =>
           if negb (truthy kind) then true
           else match get_plugin_of_kind registry kind with
                | None => true
                | Some plugin => executable plugin
                end
       end.

Definition edges_within (ids : list string) (edges : list edge) : list edge :=
  filter (fun e => edge_source e ∈ ids /\ edge_target e ∈ ids) edges.

Definition filter_executable_graph (registry : list PluginDefinition)
    (nodes : list node) (edges : list edge) : list node * list edge :=
  let executable_nodes := filter (fun n => is_executable_node registry n = true) nodes in
  (executable_nodes, edges_within (node_ids executable_nodes) edges).

Definition topological_sort (registry : list PluginDefinition)
    (nodes : list node) (edges : list edge) : res (list node) :=
  let g := filter_executable_graph registry nodes edges in
  topological_order g.1 g.2.

(** [StepRunner.load_execution_graph] on the persisted canvas: funnels first,
    then disabled steps, stop-here last. *)
Definition load_execution_graph (canvas_nodes : list node) (canvas_edges : list edge)
    : res (list node * list edge) :=
  g ← resolve_funnels canvas_nodes canvas_edges;
  let g := resolve_disabled_steps g.1 g.2 in
  Ok (resolve_stop_here g.1 g.2).

(** * Facts *)

Lemma option_in_spec o ids : option_in o ids = true <-> exists i, o = Some i /\ i ∈ ids.
Proof. destruct o; simpl; [rewrite bool_decide_eq_true|]; naive_solver. Qed.

Lemma option_in_false o ids : option_in o ids = false <-> forall i, o = Some i -> i ∉ ids.
Proof. destruct o; simpl; [rewrite bool_decide_eq_false|]; naive_solver. Qed.

Lemma elem_of_ids_where p nodes i :
  i ∈ ids_where p nodes <-> exists n, n ∈ nodes /\ node_id n = Some i /\ p n = true.
Proof. unfold ids_where. rewrite elem_of_node_ids. setoid_rewrite list_elem_of_filter. naive_solver. Qed.

Lemma elem_of_drop_ids ids nodes i :
  i ∈ node_ids (drop_ids ids nodes) <-> i ∈ node_ids nodes /\ i ∉ ids.
Proof.
  rewrite !elem_of_node_ids. unfold drop_ids. setoid_rewrite list_elem_of_filter.
  setoid_rewrite option_in_false. naive_solver.
Qed.

(** A link of the raw edge list. *)
Definition link (edges : list edge) (u v : string) : Prop :=
  exists e, e ∈ edges /\ edge_source e = u /\ edge_target e = v.

Lemma dep_link nodes edges u v :
  dep nodes edges u v <-> u ∈ node_ids nodes /\ v ∈ node_ids nodes /\ link edges u v.
Proof. done. Qed.

Lemma dep_listed nodes edges u v : dep nodes edges u v -> u ∈ node_ids nodes /\ v ∈ node_ids nodes.
Proof. intros (? & ? & _). done. Qed.

Lemma dep_drop_ids ids nodes edges u v :
  dep (drop_ids ids nodes) edges u v <-> dep nodes edges u v /\ u ∉ ids /\ v ∉ ids.
Proof. rewrite !dep_link, !elem_of_drop_ids. naive_solver. Qed.

(** ** Disabled steps *)

Lemma outgoing_edges_lookup edges s :
  dget_or [] s (outgoing_edges edges) = filter (fun e => edge_source e = s) edges.
Proof.
  unfold outgoing_edges. induction edges as [|e edges IH] using rev_ind; [done|].
  rewrite foldl_app, filter_app. cbn [foldl]. set (out := foldl _ _ _) in *.
  unfold dget_or in *. rewrite dget_dset, filter_cons, filter_nil. cbn [from_option].
  destruct (decide (s = edge_source e)) as [->|Hne].
  - rewrite (decide_True (P := edge_source e = edge_source e)) by done.
    cbn [default from_option id]. by rewrite <- IH.
  - rewrite decide_False by congruence. by rewrite IH, app_nil_r.
Qed.

Section Bypass.
Context (disabled : list string) (edges : list edge).

(** The out-edges a bypass follows from a disabled step. *)
Definition passes (d : string) (e : edge) : Prop :=
  e ∈ pass_edges (filter (fun e => edge_source e = d) edges).

(** One disabled step to the next one. *)
Definition hop (d t : string) : Prop :=
  t ≠ "" /\ t ∈ disabled /\ exists e, passes d e /\ edge_target e = t.

(** Out of a disabled step to an enabled one. *)
Definition exit_to (d : string) (far : string * option string) : Prop :=
  far.1 ≠ "" /\ far.1 ∉ disabled /\
  exists e, passes d e /\ far = (edge_target e, targetHandle e).

(** [far] lies beyond the disabled step [d]: some chain of disabled steps,
    however long or cyclic, leads from [d] out to it. *)
Definition beyond (d : string) (far : string * option string) : Prop :=
  exists d', rtc hop d d' /\ exit_to d' far.

Fixpoint hops (d : string) (l : list string) (d' : string) : Prop :=
  match l with [] => d = d' | t :: l' => hop d t /\ hops t l' d' end.

Lemma hops_rtc d d' : rtc hop d d' <-> exists l, hops d l d'.
Proof.
  split.
  - induction 1 as [d|d t d' Hh _ [l Hl]]; [by exists []|]. by exists (t :: l).
  - intros [l Hl]. revert d Hl. induction l as [|t l IH]; simpl; intros d; [intros ->; done|].
    intros [Hh Hl]. eapply rtc_l; [done|]. by apply IH.
Qed.

Lemma hops_app d l1 t l2 d' : hops d (l1 ++ t :: l2) d' -> hops t l2 d'.
Proof. revert d; induction l1 as [|s l1 IH]; simpl; intros d [_ H]; [done|]. by apply (IH s). Qed.

(** A chain need not come back to where it starts. *)
Lemma hops_cut d l d' : hops d l d' -> exists l', hops d l' d' /\ d ∉ l' /\ l' ⊆ l.
Proof.
  intros Hl. destruct (decide (d ∈ l)) as [Hin|Hin]; [|by exists l].
  apply list_elem_of_split_r in Hin as (l1 & l2 & -> & Hn).
  exists l2. split_and!; [by eapply hops_app|done|set_solver].
Qed.

Definition fresh (seen l : list string) : Prop := forall t, t ∈ l -> t ∉ seen.

Definition found (d : string) (seen : list string) (far : string * option string) : Prop :=
  exists l d', hops d l d' /\ fresh seen l /\ exit_to d' far.

Lemma found_unfold d seen far :
  found d seen far <->
  exists e, passes d e /\ edge_target e ≠ "" /\
    (edge_target e ∈ disabled /\ edge_target e ∉ seen /\ found (edge_target e) (edge_target e :: seen) far \/
     edge_target e ∉ disabled /\ far = (edge_target e, targetHandle e)).
Proof.
  split.
  - intros ([|t l] & d' & Hl & Hf & Hx); simpl in Hl.
    + subst d'. destruct Hx as (Hne & Hd & e & He & ->). naive_solver.
    + destruct Hl as [(Hne & Hd & e & He & <-) Hl].
      exists e. split_and!; [done..|]. left.
      split_and!; [done|apply Hf; by left|].
      apply hops_cut in Hl as (l' & Hl' & Hn & Hsub). exists l', d'. split_and!; [done| |done].
      intros t Ht Hin. apply elem_of_cons in Hin as [->|Hin]; [done|].
      eapply Hf; [right; by apply Hsub|done].
  - intros (e & He & Hne & [(Hd & Hs & l & d' & Hl & Hf & Hx)|(Hd & ->)]).
    + exists (edge_target e :: l), d'. split; [split; [|done]|split; [|done]].
      * split_and!; [done|done|by exists e].
      * intros t [->|Ht]%elem_of_cons; [done|]. specialize (Hf t Ht). set_solver.
    + exists [], d. split_and!; [done|intros t ?%not_elem_of_nil; done|].
      split_and!; [done|done|by exists e].
Qed.

Definition unseen (seen : list string) : nat := length (filter (fun i => i ∉ seen) disabled).

Lemma unseen_decreases t seen : t ∈ disabled -> t ∉ seen -> unseen (t :: seen) < unseen seen.
Proof.
  unfold unseen. intros Hd Hs.
  replace (filter (fun i => i ∉ t :: seen) disabled)
    with (filter (fun i => i ≠ t) (filter (fun i => i ∉ seen) disabled)).
  - apply filter_ne_length. by apply list_elem_of_filter.
  - rewrite list_filter_filter. apply list_filter_iff. intros i. rewrite not_elem_of_cons. tauto.
Qed.

(** The body of the recursion, on any sublist of the out-edges: its result
    is the union of what each edge contributes. *)
Lemma enabled_targets_beyond_spec fuel d seen :
  unseen seen < fuel ->
  exists r, enabled_targets_beyond fuel disabled (outgoing_edges edges) d seen = Some r /\
    forall far, far ∈ r <-> found d seen far.
Proof.
  revert d seen. induction fuel as [|fuel IH]; intros d seen Hfuel; [lia|].
  cbn [enabled_targets_beyond]. setoid_rewrite found_unfold. unfold passes.
  rewrite outgoing_edges_lookup.
  generalize (pass_edges (filter (fun e => edge_source e = d) edges)) as es.
  induction es as [|e es (r & Hr & IHes)]; cbn [foldr].
  { exists []. split; [done|]. intros far. rewrite elem_of_nil. split; [done|].
    intros (? & ?%not_elem_of_nil & _). done. }
  setoid_rewrite elem_of_cons. rewrite Hr.
  destruct (decide (edge_target e = "")) as [He|Hne];
    [|destruct (decide (edge_target e ∈ disabled)) as [Hd|Hd]];
    [| destruct (decide (edge_target e ∈ seen)) as [Hs|Hs] |].
  - exists r. split; [done|]. intros far. rewrite IHes. naive_solver.
  - exists r. split; [done|]. intros far. rewrite IHes. naive_solver.
  - destruct (IH (edge_target e) (edge_target e :: seen)) as (r1 & -> & Hr1).
    { pose proof (unseen_decreases (edge_target e) seen Hd Hs). lia. }
    exists (r1 ++ r). split; [done|]. intros far. rewrite elem_of_app, Hr1, IHes. naive_solver.
  - exists ((edge_target e, targetHandle e) :: r). split; [done|].
    intros far. rewrite elem_of_cons, IHes. naive_solver.
Qed.

(** The walk from a disabled step terminates within its fuel and returns
    exactly what lies beyond that step. *)
Lemma enabled_targets_beyond_correct d :
  exists r, enabled_targets_beyond (S (length disabled)) disabled (outgoing_edges edges) d [d] = Some r /\
    forall far, far ∈ r <-> beyond d far.
Proof.
  destruct (enabled_targets_beyond_spec (S (length disabled)) d [d]) as (r & Hr & Hspec).
  { unfold unseen. pose proof (filter_length_le (fun i => i ∉ [d]) disabled). lia. }
  exists r. split; [done|]. intros far. rewrite Hspec. split.
  - intros (l & d' & Hl & _ & Hx). exists d'. split; [|done]. apply hops_rtc. by exists l.
  - intros (d' & [l Hl]%hops_rtc & Hx). apply hops_cut in Hl as (l' & Hl & Hn & _).
    exists l', d'. split_and!; [done| |done]. intros t Ht. set_solver.
Qed.

(** The wires an edge contributes to the resolved graph. *)
Definition contributes (e : edge) (w : wire) : Prop :=
  edge_source e ∉ disabled /\
  (edge_target e ∉ disabled /\ w = wire_of e \/
   edge_target e ∈ disabled /\
   exists far, beyond (edge_target e) far /\ w = (edge_source e, sourceHandle e, far.1, far.2)).

Lemma wires_keep kept e w :
  w ∈ wire_of <$> keep kept e <-> w ∈ wire_of <$> kept \/ w = wire_of e.
Proof.
  unfold keep. case_decide as Hk; [naive_solver|].
  rewrite fmap_app, elem_of_app. cbn [fmap list_fmap]. by rewrite list_elem_of_singleton.
Qed.

Lemma keep_nodup kept e : NoDup (wire_of <$> kept) -> NoDup (wire_of <$> keep kept e).
Proof.
  unfold keep. case_decide as Hk; [done|]. intros Hn. rewrite fmap_app. apply NoDup_app.
  split_and!; [done| |apply NoDup_singleton]. by intros w Hw ->%list_elem_of_singleton.
Qed.

Lemma wires_keep_all es kept w :
  w ∈ wire_of <$> foldl keep kept es <-> w ∈ wire_of <$> kept \/ w ∈ wire_of <$> es.
Proof.
  revert kept. induction es as [|e es IH]; intros kept; cbn [foldl fmap list_fmap].
  - rewrite elem_of_nil. naive_solver.
  - rewrite IH, wires_keep, elem_of_cons. naive_solver.
Qed.

Lemma wires_bypass_step kept e w :
  w ∈ wire_of <$> bypass_step disabled (outgoing_edges edges) kept e <->
  w ∈ wire_of <$> kept \/ contributes e w.
Proof.
  unfold bypass_step, contributes.
  destruct (decide (edge_source e ∈ disabled)) as [Hs|Hs]; [naive_solver|].
  destruct (decide (edge_target e ∈ disabled)) as [Ht|Ht].
  - destruct (enabled_targets_beyond_correct (edge_target e)) as (r & -> & Hr).
    rewrite wires_keep_all. cbn [default from_option].
    rewrite <- list_fmap_compose, (list_elem_of_fmap (wire_of ∘ bypass_edge e)). setoid_rewrite Hr.
    split.
    + intros [?|(far & -> & Hfar)]; [by left|]. right. split; [done|]. right. by eauto.
    + intros [?|(_ & [[? _]|(_ & far & Hfar & ->)])]; [by left|done|]. right. by exists far.
  - rewrite wires_keep. naive_solver.
Qed.

Lemma wires_bypass es kept w :
  w ∈ wire_of <$> foldl (bypass_step disabled (outgoing_edges edges)) kept es <->
  w ∈ wire_of <$> kept \/ exists e, e ∈ es /\ contributes e w.
Proof.
  revert kept. induction es as [|e es IH]; intros kept; cbn [foldl].
  - split; [by left|]. intros [?|(? & ?%not_elem_of_nil & _)]; done.
  - rewrite IH, wires_bypass_step. setoid_rewrite elem_of_cons. naive_solver.
Qed.

Lemma bypass_nodup es kept :
  NoDup (wire_of <$> kept) ->
  NoDup (wire_of <$> foldl (bypass_step disabled (outgoing_edges edges)) kept es).
Proof.
  revert kept. induction es as [|e es IH]; intros kept Hn; cbn [foldl]; [done|].
  apply IH. unfold bypass_step. case_decide; [done|]. case_decide; [|by apply keep_nodup].
  generalize (bypass_edge e <$> default []
    (enabled_targets_beyond (S (length disabled)) disabled (outgoing_edges edges) (edge_target e) [edge_target e])).
  intros l. revert kept Hn. induction l as [|x l IHl]; intros kept Hn; [done|].
  apply IHl. by apply keep_nodup.
Qed.

End Bypass.

Lemma resolve_disabled_wires nodes edges w :
  w ∈ wire_of <$> (resolve_disabled_steps nodes edges).2 <->
  exists e, e ∈ edges /\ contributes (ids_where is_author_disabled nodes) edges e w.
Proof.
  unfold resolve_disabled_steps. destruct (ids_where is_author_disabled nodes) as [|d ds] eqn:Hd; cbn [snd].
  - rewrite list_elem_of_fmap. unfold contributes.
    setoid_rewrite elem_of_nil. naive_solver.
  - rewrite wires_bypass. cbn [fmap list_fmap]. rewrite elem_of_nil. naive_solver.
Qed.

Lemma resolve_disabled_nodes nodes edges :
  (resolve_disabled_steps nodes edges).1 = drop_ids (ids_where is_author_disabled nodes) nodes.
Proof.
  unfold resolve_disabled_steps. destruct (ids_where _ _) eqn:Hd; [|done]. cbn [fst].
  unfold drop_ids. symmetry. apply filter_all. intros n _. by destruct (node_id n).
Qed.

(** C3. Bypassing the disabled steps is exact.  A wire (source, outcome, target,
    input) is in the resolved graph if and only if it is a wire between two
    enabled steps, or an edge entered a disabled step and the target is an
    enabled step that some chain of disabled steps leads out to, through a
    branching step by its success outcome only; chains of any length and
    cycles of disabled steps included.  No disabled step remains, no resolved
    edge starts or ends at one, and when something was spliced out no wire
    appears twice. *)
Theorem resolve_disabled_exact nodes edges ns es :
  resolve_disabled_steps nodes edges = (ns, es) ->
  let disabled := ids_where is_author_disabled nodes in
  (forall i, i ∈ node_ids ns <-> i ∈ node_ids nodes /\ i ∉ disabled) /\
  (forall s h t th, (s, h, t, th) ∈ wire_of <$> es <->
     s ∉ disabled /\
     ((exists e, e ∈ edges /\ wire_of e = (s, h, t, th) /\ t ∉ disabled) \/
      (exists e, e ∈ edges /\ edge_source e = s /\ sourceHandle e = h /\ edge_target e ∈ disabled /\
         beyond disabled edges (edge_target e) (t, th)))) /\
  (forall e, e ∈ es -> edge_source e ∉ disabled /\ edge_target e ∉ disabled) /\
  (disabled ≠ [] -> NoDup (wire_of <$> es)).
Proof.
  intros Hres disabled.
  pose proof (resolve_disabled_nodes nodes edges) as Hn. rewrite Hres in Hn. cbn [fst] in Hn. subst ns.
  pose proof (resolve_disabled_wires nodes edges) as Hw. rewrite Hres in Hw. cbn [snd] in Hw.
  fold disabled in Hw |- *.
  assert (Hwires : forall s h t th, (s, h, t, th) ∈ wire_of <$> es <->
     s ∉ disabled /\
     ((exists e, e ∈ edges /\ wire_of e = (s, h, t, th) /\ t ∉ disabled) \/
      (exists e, e ∈ edges /\ edge_source e = s /\ sourceHandle e = h /\ edge_target e ∈ disabled /\
         beyond disabled edges (edge_target e) (t, th)))).
  { intros s h t th. rewrite Hw. unfold contributes, wire_of. split.
    - intros (e & He & Hs & [[Ht Hwe]|[Ht ([t' th'] & Hfar & Hwe)]]); simplify_eq/=; [|by eauto 10].
      split; [done|]. left. by exists e.
    - intros [Hs [(e & He & Hwe & Ht)|(e & He & <- & <- & Ht & Hfar)]].
      + exists e. simplify_eq. auto.
      + exists e. split_and!; [done..|]. right. split; [done|]. by exists (t, th). }
  split_and!.
  - intros i. apply elem_of_drop_ids.
  - exact Hwires.
  - intros e He.
    assert (Hin : wire_of e ∈ wire_of <$> es) by (apply list_elem_of_fmap; by eauto).
    apply Hwires in Hin as [Hs [(e' & _ & _ & Ht)|(e' & _ & _ & _ & _ & d & _ & (_ & Ht & _))]]; done.
  - intros Hne. unfold resolve_disabled_steps in Hres. fold disabled in Hres.
    destruct disabled as [|d ds]; [done|]. injection Hres as <-.
    apply bypass_nodup. apply NoDup_nil_2.
Qed.

(** A canvas with a branching disabled step [x], a disabled step [y] behind it
    that also loops back to [x], and enabled steps [a], [b], [c]. *)
Definition off_node (i kind : string) : node := Node (Some i) (("disabled", JBool true) :: kind_data kind).
Definition out_edge (u h v : string) : edge := Edge (Some (u +:+ "-" +:+ v)) (Some u) (Some v) (Some h) None [].
Definition bypass_nodes : list node :=
  [mk_node "a" "get-devices"; off_node "x" "run-command"; off_node "y" "run-command";
   mk_node "b" "store"; mk_node "c" "notify"; off_node "parked" "store"].
Definition bypass_edges : list edge :=
  [out_edge "a" "match" "x"; mk_edge "x" "y"; out_edge "x" "failure" "c";
   mk_edge "y" "b"; out_edge "y" "success" "x"].

Example bypass_run :
  (fun g => (node_ids g.1, wire_of <$> g.2)) (resolve_disabled_steps bypass_nodes bypass_edges)
  = (["a"; "b"; "c"], [("a", Some "match", "b", None)]).
Proof. vm_compute. reflexivity. Qed.

Lemma resolve_disabled_exact_witness :
  NoDup (wire_of <$> (resolve_disabled_steps bypass_nodes bypass_edges).2) /\
  (forall h th, ("a", h, "c", th) ∉ wire_of <$> (resolve_disabled_steps bypass_nodes bypass_edges).2).
Proof.
  destruct (resolve_disabled_steps bypass_nodes bypass_edges) as [ns es] eqn:Heq.
  destruct (resolve_disabled_exact _ _ ns es Heq) as (_ & Hw & _ & Hnd). split.
  - apply Hnd. vm_compute. discriminate.
  - intros h th Hin. vm_compute in Heq. injection Heq as <- <-. vm_compute in Hin.
    inversion Hin as [|? ? ? Hin']. inversion Hin'.
Defined.

(** ** Funnels *)

Lemma funnel_outgoing_spec F edges f :
  match funnel_outgoing F edges f with
  | Ok d => edge_target d ∉ F /\ forall e, e ∈ edges /\ source e = Some f <-> e = d
  | Raise err => exists m a, err = ValueError m a
  end.
Proof.
  unfold funnel_outgoing. destruct (filter _ _) as [|d [|]] eqn:Hf; [by eauto| |by eauto].
  case_decide as Hd; [by eauto|]. split; [done|]. intros e.
  rewrite <- (list_elem_of_singleton e d), <- Hf, list_elem_of_filter. tauto.
Qed.

Lemma outgoing_by_funnel_spec F edges fs out0 :
  match foldM (fun d f => e ← funnel_outgoing F edges f; Ok (dset f e d)) out0 fs with
  | Ok out => forall f, dget f out = if decide (f ∈ fs) then
                match funnel_outgoing F edges f with Ok e => Some e | Raise _ => None end else dget f out0
  | Raise err => exists f, f ∈ fs /\ funnel_outgoing F edges f = Raise err
  end.
Proof.
  revert out0. induction fs as [|f fs IH]; intros out0; cbn [foldM].
  { intros f. rewrite decide_False; [done|apply not_elem_of_nil]. }
  destruct (funnel_outgoing F edges f) as [e|err] eqn:He; cbn [mbind res_bind].
  - specialize (IH (dset f e out0)). destruct (foldM _ _ _) as [out|err].
    + intros g. rewrite IH, dget_dset.
      destruct (decide (g ∈ fs)); [by rewrite decide_True by (by right)|].
      destruct (decide (g = f)) as [->|]; [by rewrite He, decide_True by (by left)|].
      rewrite decide_False; [done|]. rewrite elem_of_cons. naive_solver.
    + destruct IH as (g & Hg & ?). exists g. split; [by right|done].
  - exists f. split; [by left|done].
Qed.

(** The well-formedness that [resolve_funnels] demands: each funnel has
    exactly one outgoing connection, and not to another funnel. *)
Definition funnels_well_formed (nodes : list node) (edges : list edge) : Prop :=
  forall f, f ∈ ids_where is_funnel nodes ->
    exists d, edge_target d ∉ ids_where is_funnel nodes /\
      filter (fun e => source e = Some f) edges = [d].

Lemma funnel_outgoing_ok F edges f d :
  funnel_outgoing F edges f = Ok d <->
  edge_target d ∉ F /\ filter (fun e => source e = Some f) edges = [d].
Proof.
  unfold funnel_outgoing. destruct (filter _ _) as [|e [|]]; [naive_solver| |naive_solver].
  case_decide; naive_solver.
Qed.

Lemma resolve_funnels_decides nodes edges :
  match resolve_funnels nodes edges with
  | Ok _ => funnels_well_formed nodes edges
  | Raise err => ~ funnels_well_formed nodes edges /\ exists m a, err = ValueError m a
  end.
Proof.
  unfold resolve_funnels, funnels_well_formed, outgoing_by_funnel.
  destruct (ids_where is_funnel nodes) as [|f0 fs0].
  { intros f ?%not_elem_of_nil. done. }
  set (F := f0 :: fs0). pose proof (outgoing_by_funnel_spec F edges F []) as Hs.
  destruct (foldM _ _ _) as [out|err] eqn:Hfold; cbn [mbind res_bind].
  - intros f Hf. clear Hs.
    destruct (foldM_each _ _ _ _ f Hfold Hf) as (b0 & b1 & Hb). res_inv.
    destruct (funnel_outgoing F edges f) as [d|] eqn:Hd; [|done].
    exists d. by apply funnel_outgoing_ok.
  - destruct Hs as (f & Hf & Herr). split.
    + intros Hwf. destruct (Hwf f Hf) as (d & Hd%funnel_outgoing_ok). congruence.
    + pose proof (funnel_outgoing_spec F edges f) as Hsp. by rewrite Herr in Hsp.
Qed.

(** Where the edges of the funnel-free graph lead. *)
Lemma funnel_links nodes edges ns es u v :
  resolve_funnels nodes edges = Ok (ns, es) -> "" ∉ node_ids nodes ->
  let F := ids_where is_funnel nodes in
  u ∉ F -> v ∉ F ->
  link es u v <-> link edges u v \/ exists f, f ∈ F /\ link edges u f /\ link edges f v.
Proof.
  intros Hres Hne F Hu Hv.
  assert (HF : forall f e, f ∈ F -> edge_source e = f -> source e = Some f).
  { intros f e Hf He. assert (f ≠ "") as Hfe.
    { intros ->. apply elem_of_ids_where in Hf as (n & Hn & Hi & _). apply Hne, elem_of_node_ids. eauto. }
    unfold edge_source in He. destruct (source e); simpl in He; congruence. }
  pose proof (resolve_funnels_decides nodes edges) as Hwf. rewrite Hres in Hwf.
  unfold resolve_funnels, outgoing_by_funnel in Hres. unfold funnels_well_formed in Hwf. fold F in Hwf, Hres.
  destruct F as [|f0 fs0] eqn:HFe.
  { injection Hres as <- <-. split; [by left|]. intros [?|(f & ?%not_elem_of_nil & _)]; done. }
  rewrite <- HFe in *. clear HFe f0 fs0.
  pose proof (outgoing_by_funnel_spec F edges F []) as Hs.
  destruct (foldM _ _ _) as [out|err]; cbn [mbind res_bind] in Hres; [|done]. injection Hres as _ <-.
  assert (Hout : forall f, f ∈ F -> exists d, dget f out = Some d /\ filter (fun e => source e = Some f) edges = [d]).
  { intros f Hf. destruct (Hwf f Hf) as (d & Hd). exists d. rewrite Hs, decide_True by done.
    apply funnel_outgoing_ok in Hd as Hok. rewrite Hok. by destruct Hd. }
  assert (Hin : forall f d, filter (fun e => source e = Some f) edges = [d] -> d ∈ edges /\ source d = Some f).
  { intros f d Hd. apply and_comm, (list_elem_of_filter (fun e => source e = Some f)). rewrite Hd. by left. }
  unfold link. split.
  - intros (e & [[[Hs1 Ht1] He]%list_elem_of_filter|He]%elem_of_app & Hes & Het); [left; eauto|].
    apply list_elem_of_omap in He as (e0 & He0 & Hf). case_decide as Ht; [|done].
    destruct (Hout _ Ht) as (d & Hd & Hdf). rewrite Hd in Hf. injection Hf as <-.
    apply Hin in Hdf as [Hd1 Hd2].
    right. exists (edge_target e0). split_and!; [done|by exists e0|].
    exists d. split_and!; [done|unfold edge_source; by rewrite Hd2|done].
  - intros [(e & He & Hes & Het)|(f & Hf & (e & He & Hes & Het) & d' & Hd' & Hds & Hdt)].
    + exists e. split; [|done]. apply elem_of_app. left. apply list_elem_of_filter. split; [|done].
      rewrite !option_in_false. unfold edge_source, edge_target in *.
      split; intros i Hi; rewrite Hi in *; simpl in *; congruence.
    + destruct (Hout f Hf) as (d & Hd & Hdf).
      assert (d' = d) as ->.
      { apply list_elem_of_singleton. rewrite <- Hdf. apply list_elem_of_filter. auto. }
      exists (funnel_edge e d). split_and!; [|done|done]. apply elem_of_app. right.
      apply list_elem_of_omap. exists e. split; [done|]. subst f. rewrite decide_True, Hd by done. done.
Qed.

Lemma resolve_funnels_nodes nodes edges ns es :
  resolve_funnels nodes edges = Ok (ns, es) -> ns = drop_ids (ids_where is_funnel nodes) nodes.
Proof.
  unfold resolve_funnels. destruct (ids_where is_funnel nodes).
  - intros [= <- <-]. unfold drop_ids. symmetry. apply filter_all. intros n _. by destruct (node_id n).
  - intros ?. by res_inv.
Qed.

(** No edge leads from one funnel to another in a graph that resolves. *)
Lemma funnel_no_chain nodes edges f v :
  funnels_well_formed nodes edges -> "" ∉ node_ids nodes ->
  f ∈ ids_where is_funnel nodes -> link edges f v -> v ∉ ids_where is_funnel nodes.
Proof.
  intros Hwf Hne Hf (e & He & Hs & <-). destruct (Hwf f Hf) as (d & Hd & Hfil).
  assert (e = d) as ->; [|done].
  apply list_elem_of_singleton. rewrite <- Hfil. apply list_elem_of_filter. split; [|done].
  unfold edge_source in Hs. destruct (source e) as [i|]; simpl in Hs; [congruence|].
  exfalso. subst f. apply Hne. apply elem_of_ids_where in Hf as (n & ? & ? & _). apply elem_of_node_ids. eauto.
Qed.

(** Splicing a set [F] of nodes that never follow one another, each bypassed
    through its own links, preserves reachability between the others. *)
Section Splice.
Context (F : list string) (nodes ns : list node) (edges es : list edge).
Hypothesis Hids : forall i, i ∈ node_ids ns <-> i ∈ node_ids nodes /\ i ∉ F.
Hypothesis HF : forall f, f ∈ F -> f ∈ node_ids nodes.
Hypothesis Hchain : forall f v, f ∈ F -> link edges f v -> v ∉ F.
Hypothesis Hlink : forall a b, a ∈ node_ids ns -> b ∈ node_ids ns ->
  link es a b <-> link edges a b \/ exists f, f ∈ F /\ link edges a f /\ link edges f b.

Lemma splice_dep a b : dep ns es a b -> tc (dep nodes edges) a b.
Proof.
  intros (Ha & Hb & Hl). apply Hlink in Hl as [Hl|(f & Hf & Hl1 & Hl2)]; [| |done..];
    apply Hids in Ha as [Ha _], Hb as [Hb _].
  - by apply tc_once.
  - apply tc_l with f; [apply dep_link; by auto|]. apply tc_once, dep_link; by auto.
Qed.

Lemma splice_sound u v : tc (dep ns es) u v -> tc (dep nodes edges) u v.
Proof.
  induction 1 as [a b Hd|a b c Hd _ IH]; [by apply splice_dep|].
  eapply tc_transitive; [by apply splice_dep|done].
Qed.

Lemma splice_complete u v :
  u ∈ node_ids ns -> tc (dep nodes edges) u v ->
  (v ∉ F -> tc (dep ns es) u v) /\
  (v ∈ F -> exists p, p ∈ node_ids ns /\ rtc (dep ns es) u p /\ link edges p v).
Proof.
  intros Hu Htc. revert v Htc. apply (tc_ind_r (fun v => (v ∉ F -> tc (dep ns es) u v) /\
    (v ∈ F -> exists p, p ∈ node_ids ns /\ rtc (dep ns es) u p /\ link edges p v)) u).
  - intros w (_ & Hw & Hl). split; intros HwF; [|by exists u].
    assert (w ∈ node_ids ns) by (by apply Hids).
    apply tc_once, dep_link. split_and!; [done..|]. apply Hlink; auto.
  - intros w z _ (Hw & Hz & Hl) [IH1 IH2]. destruct (decide (w ∈ F)) as [HwF|HwF].
    + pose proof (Hchain w z HwF Hl) as HzF. split; [intros _|done].
      destruct (IH2 HwF) as (p & Hp & Hup & Hpw).
      assert (z ∈ node_ids ns) by (by apply Hids).
      eapply tc_rtc_l; [done|]. apply tc_once, dep_link. split_and!; [done..|]. apply Hlink; eauto.
    + assert (w ∈ node_ids ns) by (by apply Hids). split; intros HzF.
      * assert (z ∈ node_ids ns) by (by apply Hids).
        eapply tc_r; [by apply IH1|]. apply dep_link. split_and!; [done..|]. apply Hlink; auto.
      * exists w. split_and!; [done| |done]. apply tc_rtc. by apply IH1.
Qed.
End Splice.

(** C4. Splicing out the funnels does not change what depends on what: between
    steps that are not funnels, one reaches the other in the resolved graph
    exactly when it did on the canvas.  The funnels, and only they, are gone.
    The resolution fails, with a [ValueError], exactly on a canvas that has a
    funnel without exactly one outgoing connection or feeding another funnel. *)
Theorem resolve_funnels_transparent nodes edges (Hne : "" ∉ node_ids nodes) :
  (is_ok (resolve_funnels nodes edges) = true <-> funnels_well_formed nodes edges) /\
  (forall err, resolve_funnels nodes edges = Raise err -> is_value_error err = true) /\
  forall ns es, resolve_funnels nodes edges = Ok (ns, es) ->
    (forall i, i ∈ node_ids ns <-> i ∈ node_ids nodes /\ i ∉ ids_where is_funnel nodes) /\
    forall u v, u ∈ node_ids ns -> v ∈ node_ids ns ->
      tc (dep ns es) u v <-> tc (dep nodes edges) u v.
Proof.
  pose proof (resolve_funnels_decides nodes edges) as Hdec. split_and!.
  - destruct (resolve_funnels nodes edges); [done|]. split; [done|]. tauto.
  - intros err Herr. rewrite Herr in Hdec. by destruct Hdec as (_ & m & a & ->).
  - intros ns es Hres. rewrite Hres in Hdec. apply resolve_funnels_nodes in Hres as Hns.
    set (F := ids_where is_funnel nodes) in *.
    assert (Hids : forall i, i ∈ node_ids ns <-> i ∈ node_ids nodes /\ i ∉ F).
    { intros i. subst ns. apply elem_of_drop_ids. }
    assert (HF : forall f, f ∈ F -> f ∈ node_ids nodes).
    { intros f (n & ? & ? & _)%elem_of_ids_where. apply elem_of_node_ids. eauto. }
    assert (Hlink : forall a b, a ∈ node_ids ns -> b ∈ node_ids ns -> link es a b <->
              link edges a b \/ exists f, f ∈ F /\ link edges a f /\ link edges f b).
    { intros a b Ha%Hids Hb%Hids. apply (funnel_links nodes edges ns es a b Hres Hne); tauto. }
    split; [done|]. intros u v Hu Hv. split.
    + by apply (splice_sound F nodes ns edges es).
    + intros Htc. apply (splice_complete F nodes ns edges es Hids) with (v := v); try done.
      * intros f w Hf Hl. by apply (funnel_no_chain nodes edges f w).
      * by apply Hids.
Qed.

Definition funnel_nodes : list node :=
  [mk_node "a" "run-command"; mk_node "b" "run-command"; mk_node "f" "funnel"; mk_node "n" "notify"].
Definition funnel_edges : list edge :=
  [out_edge "a" "failure" "f"; out_edge "b" "failure" "f"; mk_edge "f" "n"; mk_edge "a" "b"].

Lemma resolve_funnels_transparent_witness :
  is_ok (resolve_funnels funnel_nodes funnel_edges) = true /\
  ("" ∉ node_ids funnel_nodes /\ funnels_well_formed funnel_nodes funnel_edges).
Proof.
  assert (Hne : "" ∉ node_ids funnel_nodes) by (by apply (bool_decide_unpack _); vm_compute).
  split; [by vm_compute|]. split; [exact Hne|].
  apply (proj1 (resolve_funnels_transparent funnel_nodes funnel_edges Hne)). by vm_compute.
Defined.

(** Resolving disabled steps first would make funnel resolution fail where the
    order of [load_execution_graph] succeeds. *)
Example disabled_first_raises :
  let ns := [mk_node "a" "run-command"; mk_node "f" "funnel"; off_node "n" "notify"] in
  let es := [mk_edge "a" "f"; mk_edge "f" "n"] in
  is_ok (load_execution_graph ns es) = true /\
  let g := resolve_disabled_steps ns es in is_ok (resolve_funnels g.1 g.2) = false.
Proof. by vm_compute. Qed.

(** ** Stop-here *)

Lemma elem_of_truncated stops nodes edges v :
  v ∈ truncated_ids stops nodes edges <-> exists s, s ∈ stops /\ tc (dep nodes edges) s v.
Proof.
  unfold truncated_ids. induction stops as [|s stops IH] using rev_ind.
  - simpl. split; [by intros ?%not_elem_of_empty|]. intros (s & ?%not_elem_of_nil & _). done.
  - rewrite foldl_app. cbn [foldl]. rewrite elem_of_union, downstream_spec, IH.
    setoid_rewrite elem_of_app. setoid_rewrite list_elem_of_singleton. naive_solver.
Qed.

(** [v] lies below a stop-here node. *)
Definition stopped (nodes : list node) (edges : list edge) (v : string) : Prop :=
  exists s, s ∈ ids_where is_stop_here nodes /\ tc (dep nodes edges) s v.

Lemma resolve_stop_here_spec nodes edges ns es :
  resolve_stop_here nodes edges = (ns, es) ->
  (forall i, i ∈ node_ids ns <-> i ∈ node_ids nodes /\ ~ stopped nodes edges i) /\
  (forall u v, dep ns es u v <->
     dep nodes edges u v /\ ~ stopped nodes edges u /\ ~ stopped nodes edges v).
Proof.
  unfold resolve_stop_here, stopped. destruct (ids_where is_stop_here nodes) as [|s0 ss] eqn:Hs.
  - intros [= <- <-]. setoid_rewrite elem_of_nil. naive_solver.
  - intros [= <- <-]. clear Hs. set (stops := s0 :: ss).
    assert (Ht : forall v, v ∈ elements (truncated_ids stops nodes edges) <->
                           exists s, s ∈ stops /\ tc (dep nodes edges) s v).
    { intros v. by rewrite elem_of_elements, elem_of_truncated. }
    split.
    + intros i. by rewrite elem_of_drop_ids, Ht.
    + intros u v. rewrite !dep_link, !elem_of_drop_ids, <- !Ht. unfold link.
      setoid_rewrite list_elem_of_filter. naive_solver.
Qed.

(** C5. Stop-here truncates exactly: a step survives if and only if no stop-here
    step lies above it; the surviving dependencies are those between
    survivors; and every surviving stop-here step is a last step. *)
Theorem resolve_stop_here_exact nodes edges ns es :
  resolve_stop_here nodes edges = (ns, es) ->
  (forall i, i ∈ node_ids ns <-> i ∈ node_ids nodes /\ ~ stopped nodes edges i) /\
  (forall u v, u ∈ node_ids ns -> v ∈ node_ids ns -> dep ns es u v <-> dep nodes edges u v) /\
  (forall s v, s ∈ ids_where is_stop_here nodes -> ~ dep ns es s v) /\
  (forall u v, u ∈ node_ids ns -> v ∈ node_ids ns ->
     tc (dep ns es) u v <-> tc (dep nodes edges) u v).
Proof.
  intros Hres. destruct (resolve_stop_here_spec nodes edges ns es Hres) as [Hn Hd].
  split_and!; [done| | |].
  - intros u v Hu%Hn Hv%Hn. rewrite Hd. tauto.
  - intros s v Hs Hsv%Hd. destruct Hsv as (Hsv & _ & Hnv). apply Hnv. exists s. split; [done|]. by apply tc_once.
  - intros u v Hu%Hn Hv%Hn. split.
    + clear Hu Hv. induction 1 as [a b Hab|a b c Hab _ IH]; apply Hd in Hab as (Hab & _ & _).
      * by apply tc_once.
      * by eapply tc_l.
    + intros Htc. destruct Hv as [_ Hv]. induction Htc as [a b Hab|a b c Hab Hbc IH].
      * apply tc_once, Hd. tauto.
      * assert (Hb : ~ stopped nodes edges b).
        { intros (s & Hs & Hsb). apply Hv. exists s. split; [done|]. by eapply tc_transitive. }
        apply tc_l with b; [apply Hd; tauto|]. apply IH; [|done]. split; [|done]. by eapply dep_listed.
Qed.

Definition stop_nodes : list node :=
  [mk_node "a" "get-devices"; mk_node "s" "stop-here"; mk_node "z" "store"; mk_node "s2" "stop-here"; mk_node "o" "store"].
Definition stop_edges : list edge := [mk_edge "a" "s"; mk_edge "s" "z"; mk_edge "z" "s2"; mk_edge "a" "o"].

Lemma resolve_stop_here_exact_witness :
  node_ids (resolve_stop_here stop_nodes stop_edges).1 = ["a"; "s"; "o"] /\
  ~ dep (resolve_stop_here stop_nodes stop_edges).1 (resolve_stop_here stop_nodes stop_edges).2 "s" "z".
Proof.
  split; [by vm_compute|].
  destruct (resolve_stop_here stop_nodes stop_edges) as [ns es] eqn:Heq.
  destruct (resolve_stop_here_exact _ _ ns es Heq) as (_ & _ & Hlast & _).
  apply Hlast. by apply (bool_decide_unpack _); vm_compute.
Defined.

(** ** The execution plan *)

Lemma elem_of_edges_within ids edges u v :
  link (edges_within ids edges) u v <-> link edges u v /\ u ∈ ids /\ v ∈ ids.
Proof.
  unfold link, edges_within. setoid_rewrite list_elem_of_filter. naive_solver.
Qed.

Lemma topological_sort_sound registry nodes edges plan :
  topological_sort registry nodes edges = Ok plan ->
  NoDup (node_ids plan) /\
  (forall n, n ∈ plan -> n ∈ nodes /\ is_executable_node registry n = true) /\
  (forall i, i ∈ node_ids plan <-> i ∈ ids_where (is_executable_node registry) nodes) /\
  (forall u v, u ∈ node_ids plan -> v ∈ node_ids plan -> link edges u v -> before (node_ids plan) u v).
Proof.
  unfold topological_sort, filter_executable_graph. cbn [fst snd]. intros Hplan.
  apply topological_order_sound in Hplan. fold (ids_where (is_executable_node registry) nodes) in *.
  destruct Hplan as (Hnd & Hids & Hin & Hord). split_and!; [done| |done|].
  - intros n Hn. apply Hin, list_elem_of_filter in Hn. naive_solver.
  - intros u v Hu%Hids Hv%Hids Huv. apply Hord, dep_link. split_and!; [done..|].
    by apply elem_of_edges_within.
Qed.

Lemma load_execution_graph_inv cn ce ns es :
  load_execution_graph cn ce = Ok (ns, es) ->
  exists g1, resolve_funnels cn ce = Ok g1 /\
    let g2 := resolve_disabled_steps g1.1 g1.2 in resolve_stop_here g2.1 g2.2 = (ns, es).
Proof. unfold load_execution_graph. intros H. res_inv. eauto. Qed.

Lemma stop_here_sublist nodes edges n : n ∈ (resolve_stop_here nodes edges).1 -> n ∈ nodes.
Proof.
  unfold resolve_stop_here. destruct (ids_where _ _); [done|]. by intros [_ ?]%list_elem_of_filter.
Qed.

(** C6. The execution plan of a canvas (load, then sort).  It runs each step
    at most once; every step of it is a canvas node that is executable, not
    switched off by its author and not a funnel; every executable step of the
    resolved graph is in it; a step comes after everything it depends on in
    the resolved graph; and nothing in it depends on a stop-here step. *)
Theorem execution_plan_correct registry cn ce ns es plan :
  load_execution_graph cn ce = Ok (ns, es) ->
  topological_sort registry ns es = Ok plan ->
  NoDup (node_ids plan) /\
  (forall n, n ∈ plan -> n ∈ cn /\ is_executable_node registry n = true /\ is_author_disabled n = false /\
     forall i, node_id n = Some i -> i ∉ ids_where is_funnel cn) /\
  (forall i, i ∈ node_ids plan <-> i ∈ ids_where (is_executable_node registry) ns) /\
  (forall u v, u ∈ node_ids plan -> v ∈ node_ids plan -> link es u v ->
     before (node_ids plan) u v) /\
  (forall n s v, n ∈ plan -> node_id n = Some s -> is_stop_here n = true ->
     v ∈ node_ids plan -> ~ link es s v).
Proof.
  intros Hload Hsort. apply topological_sort_sound in Hsort as (Hnd & Hex & Hids & Hord).
  apply load_execution_graph_inv in Hload as ([n1 e1] & Hf & Hstop). cbn [fst snd] in Hstop.
  destruct (resolve_stop_here_spec _ _ _ _ Hstop) as [Hn Hd].
  assert (Hsub : forall n, n ∈ ns -> n ∈ (resolve_disabled_steps n1 e1).1).
  { intros n Hin. apply stop_here_sublist with (resolve_disabled_steps n1 e1).2. by rewrite Hstop. }
  rewrite resolve_disabled_nodes in Hsub, Hn, Hd, Hstop.
  apply resolve_funnels_nodes in Hf as ->.
  split_and!; [done| |done|done|].
  - intros n Hin. apply Hex in Hin as [Hin Hexec]. apply Hsub in Hin.
    apply list_elem_of_filter in Hin as [_ [Hf2 Hin]%list_elem_of_filter].
    split_and!; [done|done| |by apply option_in_false].
    unfold is_executable_node in Hexec. by destruct (is_author_disabled n).
  - intros n s v Hin Hs Hst Hv Hl. apply Hex in Hin as [Hin _].
    assert (Hlisted : s ∈ node_ids ns /\ v ∈ node_ids ns).
    { split; [apply elem_of_node_ids; eauto|]. apply Hids, elem_of_ids_where in Hv as (m & ? & ? & _).
      apply elem_of_node_ids. eauto. }
    assert (Hdep : dep ns es s v) by (apply dep_link; tauto).
    apply Hd in Hdep as (Hdep & _ & Hnv). apply Hnv. exists s. split; [|by apply tc_once].
    apply elem_of_ids_where. exists n. split; [by apply Hsub|done].
Qed.

Definition plan_registry : list PluginDefinition :=
  [Plugin "get-devices" true true [] [] [] []; Plugin "run-command" true true [] [] [] [];
   Plugin "label" true false [] [] [] []].
Definition plan_nodes : list node :=
  [mk_node "z" "store"; mk_node "s" "stop-here"; mk_node "note" "label"; off_node "x" "run-command";
   mk_node "f" "funnel"; mk_node "a" "get-devices"].
Definition plan_edges : list edge :=
  [mk_edge "a" "x"; mk_edge "x" "f"; mk_edge "f" "s"; mk_edge "s" "z"].

Lemma execution_plan_correct_witness :
  exists ns es plan, load_execution_graph plan_nodes plan_edges = Ok (ns, es) /\
    topological_sort plan_registry ns es = Ok plan /\
    node_ids plan = ["a"; "s"] /\ before (node_ids plan) "a" "s".
Proof.
  do 3 eexists. split; [vm_compute; reflexivity|]. split; [vm_compute; reflexivity|].
  split; [vm_compute; reflexivity|].
  eapply (execution_plan_correct plan_registry plan_nodes plan_edges); [vm_compute; reflexivity..| | |].
  - apply (bool_decide_unpack _). by vm_compute.
  - apply (bool_decide_unpack _). by vm_compute.
  - eexists. split; [by left|]. split; by vm_compute.
Defined.
