(* ===== verification/FanOutTopology.v ===== *)
(** * Fan-out topology rules ([backend/services/execution/fan_out_topology.py])

    The save-time and pre-run check that a canvas with a fan-out step can be
    split into phase 1, child branches and the post-join walk. *)
From S2P Require Import Prelude Dict Json Graph Registry GraphResolution.

Definition CANVAS_ONLY_KINDS : list string := ["label"; "background"; "funnel"; "step-group"].

Inductive fan_out_rule := R1 | R2 | R3.

(** [message] is rendered from the two ids kept in [message_args]. *)
Record FanOutViolation := Violation { rule : fan_out_rule; v_node_id : string; message_args : list string }.

Definition is_canvas_only (n : node) : bool :=
  match node_kind n with Some (JStr k) => bool_decide (k ∈ CANVAS_ONLY_KINDS) | _ => false end.

(** [x or {}] where [x] is read with [.get] afterwards. *)
Definition or_empty_dict (o : option json) : res (dict json) :=
  match o with
  | None => Ok []
  | Some (JDict d) => Ok d
  | Some j => if truthy j then Raise (OtherError "AttributeError") else Ok []
  end.

(** [fan_out.get("enabled")] for the node's [pluginConfig.fan_out or {}], when
    that is a dict. *)
Definition fan_out_enabled (n : node) : res bool :=
  config ← or_empty_dict (dget "pluginConfig" (node_data n));
  match dget "fan_out" config with
  | Some (JDict fan_out) =>
      Ok (match dget "enabled" fan_out with Some v => truthy v | None => false end)
  | _ => Ok false
  end.

Definition enabled_fan_out_ids (nodes : list node) : res (list string) :=
  foldM (fun (ids : list string) (n : node) =>
    fan_out_enabled n ≫= fun b : bool =>
    Ok (match node_id n with Some i => if b then ids ++ [i] else ids | None => ids end)) [] nodes.

(** The [try] block: the executable nodes, the edges between them, and the
    topological order. *)
Definition engine_graph (nodes : list node) (edges : list edge)
    : res (list node * list edge * list node) :=
  g ← load_execution_graph nodes edges;
  let executable := filter (fun n => is_canvas_only n = false) g.1 in
  let ids := node_ids executable in
  let edges := filter (fun e => option_in (source e) ids = true /\ option_in (target e) ids = true) g.2 in
  ordered ← topological_order executable edges;
  Ok (executable, edges, ordered).

(** [{n["id"]: d for d, wave in enumerate(...) for n in wave}] *)
Definition depth_map (generations : list (list node)) : dict nat :=
  foldl (fun m dw => foldl (fun m n => match node_id n with Some i => dset i dw.1 m | None => m end) m dw.2)
    [] (imap pair generations).

(** [min(x :: l, key=...)]: the first of the minimal ones. *)
Fixpoint min_by (key : string -> nat) (x : string) (l : list string) : string :=
  match l with
  | [] => x
  | y :: l' => if key y <? key x then min_by key y l' else min_by key x l'
  end.

Definition check_R3 (fan_out : list string) (inventory : string) : list FanOutViolation :=
  (fun extra => Violation R3 extra [inventory]) <$> filter (fun x => x ≠ inventory) fan_out.

Definition check_R1 (depth : string -> nat) (ids : list string) (region : gset string) (inventory : string)
    : list FanOutViolation :=
  (fun i => Violation R1 i [i; inventory]) <$>
    filter (fun i => depth inventory < depth i)
      (sorted_strings (filter (fun i => i ∉ region /\ i ≠ inventory) ids)).

Definition check_R2 (edges : list edge) (region : gset string) (inventory : string) : list FanOutViolation :=
  (fun e => Violation R2 (edge_target e) [edge_target e; inventory; edge_source e]) <$>
    filter (fun e => edge_target e ∈ region /\ edge_source e ∉ region /\ edge_source e ≠ inventory) edges.

Definition validate_fan_out_topology (nodes : list node) (edges : list edge) : res (list FanOutViolation) :=
  match engine_graph nodes edges with
  | Raise err => if is_value_error err then Ok [] else Raise err
  | Ok (executable, edges, ordered) =>
      fan_out ← enabled_fan_out_ids executable;
      match fan_out with
      | [] => Ok []
      | x :: rest =>
          generations ← topological_generations ordered edges;
          let depth := fun i => dget_or 0 i (depth_map generations) in
          let inventory := min_by depth x rest in
          let region := downstream_node_ids inventory executable edges in
          Ok (check_R3 fan_out inventory
              ++ check_R1 depth (node_ids executable) region inventory
              ++ check_R2 edges region inventory)
      end
  end.

(** * Facts *)

Lemma min_by_spec key x l :
  min_by key x l ∈ x :: l /\ forall y, y ∈ x :: l -> key (min_by key x l) <= key y.
Proof.
  revert x. induction l as [|y l IH]; intros x; simpl.
  - split; [by left|]. by intros y ->%list_elem_of_singleton.
  - destruct (Nat.ltb_spec (key y) (key x)) as [Hlt|Hge].
    + destruct (IH y) as [Hin Hmin]. split; [by right|].
      intros z [->|Hz]%elem_of_cons; [|by apply Hmin].
      specialize (Hmin y). assert (y ∈ y :: l) by (by left). specialize (Hmin H). lia.
    + destruct (IH x) as [Hin Hmin]. split; [set_solver|].
      intros z [->|[->|Hz]%elem_of_cons]%elem_of_cons; [apply Hmin; by left| |apply Hmin; by right].
      specialize (Hmin x). assert (x ∈ x :: l) by (by left). specialize (Hmin H). lia.
Qed.

(** The depth map of a layering whose layers are disjoint. *)
Lemma dget_wave_fold (d : nat) (wave : list node) m i :
  dget i (foldl (fun m n => match node_id n with Some i => dset i d m | None => m end) m wave)
  = if decide (i ∈ node_ids wave) then Some d else dget i m.
Proof.
  induction wave as [|n wave IH] using rev_ind; [done|].
  rewrite foldl_app. cbn [foldl]. unfold node_ids in *. rewrite omap_app. simpl.
  destruct (node_id n) as [j|]; simpl.
  - rewrite dget_dset, IH. destruct (decide (i = j)) as [->|Hne].
    + rewrite decide_True; [done|]. set_solver.
    + destruct (decide (i ∈ omap node_id wave)); [rewrite decide_True by set_solver|rewrite decide_False by set_solver]; done.
  - rewrite app_nil_r. apply IH.
Qed.

Lemma depth_map_spec gens i d :
  (forall d d', wave_of gens i d -> wave_of gens i d' -> d = d') ->
  dget i (depth_map gens) = Some d <-> wave_of gens i d.
Proof.
  intros Huniq. induction gens as [|w gens IH] using rev_ind.
  - split; [done|]. intros (wave & n & Hl & _). done.
  - assert (Hsnoc : forall j e, wave_of (gens ++ [w]) j e <-> wave_of gens j e \/ e = length gens /\ j ∈ node_ids w).
    { intros j e. unfold wave_of. setoid_rewrite lookup_snoc_Some. setoid_rewrite elem_of_node_ids. split.
      - intros (wave & n & [[? ?]|[-> ->]] & ? & ?); naive_solver.
      - intros [(wave & n & Hl & ? & ?)|(-> & n & ? & ?)]; [|naive_solver].
        exists wave, n. split_and!; [|done|done]. left. split; [by eapply lookup_lt_Some|done]. }
    unfold depth_map in *. rewrite imap_app, foldl_app. cbn [imap foldl fst snd].
    rewrite dget_wave_fold, Hsnoc. unfold compose. rewrite Nat.add_0_r.
    destruct (decide (i ∈ node_ids w)) as [Hi|Hi].
    + split; [intros [= <-]; by right|]. intros H. f_equal. apply Huniq; apply Hsnoc; tauto.
    + rewrite IH; [tauto|]. intros; apply Huniq; apply Hsnoc; tauto.
Qed.

Lemma dep_same_ids ns ms es u v :
  (forall i, i ∈ node_ids ns <-> i ∈ node_ids ms) -> dep ns es u v <-> dep ms es u v.
Proof. intros H. by rewrite !dep_link, !H. Qed.

(** Layers of the walked graph. *)
Record layered (executable : list node) (edges : list edge) (gens : list (list node)) : Prop := {
  ly_total i : i ∈ node_ids executable <-> exists d, wave_of gens i d;
  ly_unique i d d' : wave_of gens i d -> wave_of gens i d' -> d = d';
  ly_forward u v du dv : dep executable edges u v -> wave_of gens u du -> wave_of gens v dv -> du < dv
}.

Lemma engine_graph_layers nodes edges executable es ordered :
  engine_graph nodes edges = Ok (executable, es, ordered) ->
  exists gens, topological_generations ordered es = Ok gens /\ layered executable es gens.
Proof.
  unfold engine_graph. intros H. res_inv.
  match goal with Ho : topological_order _ _ = Ok _ |- _ => rename Ho into Hord end.
  apply topological_order_valid in Hord as Hvalid. apply topological_order_sound in Hord as (_ & Hids & _ & _).
  destruct (topological_generations_spec _ _ Hvalid) as (gens & Hg & _ & _ & Htot & Hun & Hfw & _).
  exists gens. split; [done|]. split.
  - intros i. by rewrite <- Hids.
  - done.
  - intros u v du dv Hd. apply Hfw. by eapply dep_same_ids.
Qed.

Lemma engine_graph_edges nodes edges executable es ordered e :
  engine_graph nodes edges = Ok (executable, es, ordered) -> e ∈ es ->
  dep executable es (edge_source e) (edge_target e).
Proof.
  unfold engine_graph. intros H He. res_inv. apply list_elem_of_filter in He as He'.
  destruct He' as [[(s & Hs & Hs')%option_in_spec (t & Ht & Ht')%option_in_spec] _].
  apply dep_link. unfold edge_source, edge_target. rewrite Hs, Ht. cbn [default from_option id].
  split_and!; [done|done|]. exists e. split; [done|]. unfold edge_source, edge_target. by rewrite Hs, Ht.
Qed.

Lemma dget_or_depth gens i :
  (forall i d d', wave_of gens i d -> wave_of gens i d' -> d = d') ->
  forall d, wave_of gens i d -> dget_or 0 i (depth_map gens) = d.
Proof. intros Huniq d Hd. unfold dget_or. apply depth_map_spec in Hd; [by rewrite Hd|apply Huniq]. Qed.

Lemma elem_of_fmap_violation {A} (f : A -> FanOutViolation) (l : list A) v :
  v ∈ f <$> l <-> exists x, x ∈ l /\ v = f x.
Proof. rewrite list_elem_of_fmap. naive_solver. Qed.

(** The three rules of the fan-out topology for the fan-out step [inv], in
    terms of the dependency relation and the layers of the walked graph. *)
Definition rule_R1_broken (executable : list node) (es : list edge) (gens : list (list node)) (inv i : string) : Prop :=
  i ∈ node_ids executable /\ i ≠ inv /\ ~ tc (dep executable es) inv i /\
  exists di dinv, wave_of gens i di /\ wave_of gens inv dinv /\ dinv < di.
Definition rule_R2_broken (executable : list node) (es : list edge) (inv t : string) : Prop :=
  tc (dep executable es) inv t /\
  exists s, dep executable es s t /\ s ≠ inv /\ ~ tc (dep executable es) inv s.

Section Checks.
Context (nodes : list node) (edges : list edge) (executable : list node) (es : list edge) (ordered : list node).
Context (gens : list (list node)) (inv : string).
Hypothesis Hengine : engine_graph nodes edges = Ok (executable, es, ordered).
Hypothesis Hlayers : layered executable es gens.
Hypothesis Hinv : inv ∈ node_ids executable.

Let depth i := dget_or 0 i (depth_map gens).
Let region := downstream_node_ids inv executable es.

Lemma elem_of_region v : v ∈ region <-> tc (dep executable es) inv v.
Proof. apply downstream_spec. Qed.

Lemma check_R1_spec i :
  (exists a, Violation R1 i a ∈ check_R1 depth (node_ids executable) region inv) <->
  rule_R1_broken executable es gens inv i.
Proof.
  unfold check_R1, rule_R1_broken. setoid_rewrite elem_of_fmap_violation.
  setoid_rewrite list_elem_of_filter. setoid_rewrite elem_of_sorted_strings.
  setoid_rewrite list_elem_of_filter. setoid_rewrite elem_of_region.
  pose proof (fun j => dget_or_depth gens j (ly_unique _ _ _ Hlayers)) as Hdepth.
  split.
  - intros (a & x & (Hd & (Hr & Hne) & Hx) & [= -> _]). split_and!; [done..|].
    apply (ly_total _ _ _ Hlayers) in Hx as [di Hi]. apply (ly_total _ _ _ Hlayers) in Hinv as [dv Hv].
    exists di, dv. split_and!; [done..|]. unfold depth in Hd. rewrite (Hdepth _ _ Hi), (Hdepth _ _ Hv) in Hd. exact Hd.
  - intros (Hi & Hne & Hr & di & dv & Hdi & Hdv & Hlt). exists [i; inv], i.
    split; [|done]. split_and!; [|done..]. unfold depth. by rewrite (Hdepth _ _ Hdi), (Hdepth _ _ Hdv).
Qed.

Lemma check_R2_spec t :
  (exists a, Violation R2 t a ∈ check_R2 es region inv) <-> rule_R2_broken executable es inv t.
Proof.
  unfold check_R2, rule_R2_broken. setoid_rewrite elem_of_fmap_violation.
  setoid_rewrite list_elem_of_filter. setoid_rewrite elem_of_region. split.
  - intros (a & e & ((Ht & Hs & Hne) & He) & [= -> _]). split; [done|].
    exists (edge_source e). split_and!; [|done..]. by eapply engine_graph_edges.
  - intros (Ht & s & (_ & _ & e & He & <- & <-) & Hne & Hs). by repeat esplit.
Qed.
End Checks.

Lemma check_R3_spec fan_out inv x :
  (exists a, Violation R3 x a ∈ check_R3 fan_out inv) <-> x ∈ fan_out /\ x ≠ inv.
Proof.
  unfold check_R3. setoid_rewrite elem_of_fmap_violation. setoid_rewrite list_elem_of_filter.
  split; [naive_solver|]. intros [? ?]. by repeat esplit.
Qed.
Lemma rule_of_check_R1 depth ids region inv v : v ∈ check_R1 depth ids region inv -> rule v = R1.
Proof. unfold check_R1. rewrite elem_of_fmap_violation. naive_solver. Qed.
Lemma rule_of_check_R2 es region inv v : v ∈ check_R2 es region inv -> rule v = R2.
Proof. unfold check_R2. rewrite elem_of_fmap_violation. naive_solver. Qed.
Lemma rule_of_check_R3 fo inv v : v ∈ check_R3 fo inv -> rule v = R3.
Proof. unfold check_R3. rewrite elem_of_fmap_violation. naive_solver. Qed.

Lemma enabled_fan_out_listed nodes ids i : enabled_fan_out_ids nodes = Ok ids -> i ∈ ids -> i ∈ node_ids nodes.
Proof.
  unfold enabled_fan_out_ids. intros H. revert i. revert H.
  apply (foldM_ind (fun ids : list string => forall i, i ∈ ids -> i ∈ node_ids nodes)); [|by intros i ?%not_elem_of_nil].
  intros ids0 n ids1 Hn IH H i Hi. res_inv.
  destruct (node_id n) as [j|] eqn:Hj; [|by apply IH].
  match type of Hi with context [if ?b then _ else _] => destruct b end; [|by apply IH].
  apply elem_of_app in Hi as [Hi| ->%list_elem_of_singleton]; [by apply IH|].
  apply elem_of_node_ids. eauto.
Qed.

(** C14. The fan-out topology check is sound and complete.  On a canvas the
    engine can order and that enables fan-out somewhere, it returns (it does
    not fail) and picks as inventory step an enabled one of the earliest
    layer; it reports R3 for exactly the other enabled steps, R1 for exactly
    the steps that are neither below the inventory step nor in a layer at or
    before its own, and R2 for exactly the steps below it that also depend on
    a step outside the branch.  So it is silent exactly when all three rules
    hold. *)
Theorem validate_fan_out_exact nodes edges executable es ordered fan_out :
  engine_graph nodes edges = Ok (executable, es, ordered) ->
  enabled_fan_out_ids executable = Ok fan_out -> fan_out ≠ [] ->
  exists inv gens vs,
    validate_fan_out_topology nodes edges = Ok vs /\
    topological_generations ordered es = Ok gens /\
    inv ∈ fan_out /\
    (forall x d dinv, x ∈ fan_out -> wave_of gens x d -> wave_of gens inv dinv -> dinv <= d) /\
    (forall x, (exists a, Violation R3 x a ∈ vs) <-> x ∈ fan_out /\ x ≠ inv) /\
    (forall i, (exists a, Violation R1 i a ∈ vs) <-> rule_R1_broken executable es gens inv i) /\
    (forall t, (exists a, Violation R2 t a ∈ vs) <-> rule_R2_broken executable es inv t).
Proof.
  intros Heng Hfan Hne. destruct (engine_graph_layers _ _ _ _ _ Heng) as (gens & Hgens & Hlay).
  unfold validate_fan_out_topology. rewrite Heng, Hfan. cbn [mbind res_bind].
  destruct fan_out as [|x rest]; [done|]. rewrite Hgens. cbn [mbind res_bind].
  set (depth := fun i => dget_or 0 i (depth_map gens)). set (inv := min_by depth x rest).
  destruct (min_by_spec depth x rest) as [Hin Hmin]. fold inv in Hin, Hmin.
  pose proof (enabled_fan_out_listed _ _ _ Hfan Hin) as Hlisted.
  eexists inv, gens, _. split_and!; [done|done|done| | | |].
  - intros y d dinv Hy Hd Hdinv.
    rewrite <- (dget_or_depth gens _ (ly_unique _ _ _ Hlay) _ Hd).
    rewrite <- (dget_or_depth gens _ (ly_unique _ _ _ Hlay) _ Hdinv). by apply Hmin.
  - intros y. rewrite <- (check_R3_spec (x :: rest) inv y). split; intros (a & Ha); exists a; revert Ha; rewrite !elem_of_app; [|tauto].
    by intros [H|[H|H]]; [|apply rule_of_check_R1 in H|apply rule_of_check_R2 in H].
  - intros i. rewrite <- (check_R1_spec executable es gens inv Hlay Hlisted i).
    split; intros (a & Ha); exists a; revert Ha; rewrite !elem_of_app; [|tauto].
    by intros [H|[H|H]]; [apply rule_of_check_R3 in H| |apply rule_of_check_R2 in H].
  - intros t. rewrite <- (check_R2_spec nodes edges executable es ordered inv Heng t).
    split; intros (a & Ha); exists a; revert Ha; rewrite !elem_of_app; [|tauto].
    by intros [H|[H|H]]; [apply rule_of_check_R3 in H|apply rule_of_check_R1 in H|].
Qed.

(** An inventory step with fan-out, a step behind it that also listens to a
    side branch, an unconnected later step, and a second fan-out step. *)
Definition fan_out_node (i : string) : node :=
  Node (Some i) (("pluginConfig", JDict [("fan_out", JDict [("enabled", JBool true)])]) :: kind_data "get-devices").
Definition bad_nodes : list node :=
  [fan_out_node "inv"; mk_node "a" "run-command"; mk_node "p" "store"; fan_out_node "q"].
Definition bad_edges : list edge := [mk_edge "inv" "a"; mk_edge "p" "q"; mk_edge "p" "a"].

Lemma validate_fan_out_exact_witness :
  validate_fan_out_topology bad_nodes bad_edges =
    Ok [Violation R3 "q" ["inv"]; Violation R1 "q" ["q"; "inv"]; Violation R2 "a" ["a"; "inv"; "p"]] /\
  exists inv vs,
    validate_fan_out_topology bad_nodes bad_edges = Ok vs /\ inv ∈ ["inv"; "q"] /\
    (forall x, (exists a, Violation R3 x a ∈ vs) <-> x ∈ ["inv"; "q"] /\ x ≠ inv).
Proof.
  split; [by vm_compute|].
  destruct (validate_fan_out_exact bad_nodes bad_edges bad_nodes bad_edges
    [fan_out_node "inv"; mk_node "p" "store"; fan_out_node "q"; mk_node "a" "run-command"] ["inv"; "q"])
    as (inv & gens & vs & Hv & _ & Hin & _ & HR3 & _); [by vm_compute|by vm_compute|done|].
  exists inv, vs. split; [exact Hv|]. split; [exact Hin|exact HR3].
Defined.
