(* ===== verification/Context.v ===== *)
(** * The workflow envelope ([backend/models/workflow_context.py])

    The value that flows along every edge of the workflow graph: the devices
    with what is known about each, pending commands and metadata.  Field names
    are the source's, with a prefix naming the class where two classes share
    one.  Also
    [services/workflow_context/run_inputs.py], which seeds the run inputs onto
    every device, and [services/execution/step_result_status.py]. *)
From S2P Require Import Prelude Dict Json.

Inductive Capability :=
  | IDENTITY | ATTRIBUTES | RUNNING_CONFIG | STARTUP_CONFIG
  | PARSED | PENDING_COMMANDS | PYATS_TESTBED | NAUTOBOT_JOB.

#[export] Instance Capability_eq_dec : EqDecision Capability.
Proof. solve_decision. Defined.

Definition all_capabilities : list Capability :=
  [IDENTITY; ATTRIBUTES; RUNNING_CONFIG; STARTUP_CONFIG; PARSED; PENDING_COMMANDS; PYATS_TESTBED; NAUTOBOT_JOB].

Definition capability_value (c : Capability) : string :=
  match c with
  | IDENTITY => "identity" | ATTRIBUTES => "attributes" | RUNNING_CONFIG => "running_config"
  | STARTUP_CONFIG => "startup_config" | PARSED => "parsed" | PENDING_COMMANDS => "pending_commands"
  | PYATS_TESTBED => "pyats_testbed" | NAUTOBOT_JOB => "nautobot_job"
  end.

(** [Capability(value)]: [ValueError] on an unknown value. *)
Definition Capability_of (value : string) : res Capability :=
  match filter (fun c => capability_value c = value) all_capabilities with
  | c :: _ => Ok c
  | [] => Raise (ValueError "is not a valid Capability" [value])
  end.

Lemma Capability_of_value c : Capability_of (capability_value c) = Ok c.
Proof. by destruct c. Qed.

#[export] Program Instance Capability_countable : Countable Capability :=
  inj_countable capability_value (fun s => match Capability_of s with Ok c => Some c | Raise _ => None end) _.
Next Obligation. by intros []. Qed.

Inductive DeviceStatus := PENDING | OK | FAILED | SKIPPED.

#[export] Instance DeviceStatus_eq_dec : EqDecision DeviceStatus.
Proof. solve_decision. Defined.

(** [_STATUS_RANK] *)
Definition status_rank (s : DeviceStatus) : nat :=
  match s with FAILED => 3 | SKIPPED => 2 | PENDING => 1 | OK => 0 end.

Definition worst_device_status (left right : DeviceStatus) : DeviceStatus :=
  if status_rank right <=? status_rank left then left else right.

(** [worst_device_status] is the maximum of the rank order. *)
Lemma status_rank_inj s t : status_rank s = status_rank t -> s = t.
Proof. by destruct s, t. Qed.
Lemma worst_device_status_rank s t :
  status_rank (worst_device_status s t) = Nat.max (status_rank s) (status_rank t).
Proof. by destruct s, t. Qed.

Record ArtifactRef := Artifact {
  artifact_id : string; ar_kind : string; media_type : string;
  size_bytes : option Z; sha256 : option string; created_at : string
}.

(** [models/failure.py]: members of closed vocabularies, numbers and a class name *)
Record FailureInfo := Failure {
  fi_phase : string; fi_kind : string; fi_retryable : bool;
  fi_attempts : option Z; fi_max_attempts : option Z; fi_elapsed_ms : option Z;
  fi_http_status : option Z; fi_line : option Z; fi_exception_type : option string;
  fi_hint : option string
}.

Record CommandResult := Command {
  cr_node_id : string; cr_command : string; cr_success : bool; executed_at : string;
  output_ref : option ArtifactRef; cr_summary : option string
}.

Record RequestRecord := Request {
  rr_target : string; rr_method : string; rr_endpoint : string;
  rr_request : option (dict json); rr_response : option (dict json);
  rr_ok : bool; sent_at : string
}.

Record DeviceError := DevError {
  de_node_id : string; de_step_id : string; de_code : string; de_message : string;
  occurred_at : string; de_failure : option FailureInfo
}.

Record DeviceContext := Device {
  dc_id : string; dc_name : string; hostname : string;
  platform : option string; network_driver : option string; primary_ip4 : option string;
  dc_source : string; dc_source_id : string;
  attribute_bags : dict (dict json);
  running_config_ref : option ArtifactRef;
  startup_config_ref : option ArtifactRef;
  parsed : dict json;
  command_results : dict (list CommandResult);
  dry_run_results : dict (dict json);
  requests : dict (list RequestRecord);
  capabilities : gset Capability;
  status : DeviceStatus;
  errors : list DeviceError
}.

Record WorkflowContext := Workflow {
  run_id : string; workflow_id : string; schema_version : Z;
  devices : dict DeviceContext;
  pending_commands : dict (dict (list string));
  metadata : dict json
}.

Record StepOutcome := Outcome {
  so_name : string; so_context : WorkflowContext;
  so_summary : option string; so_failure : option FailureInfo
}.

(** [model_dump(mode="json")] *)
#[export] Instance ArtifactRef_dump : Dump ArtifactRef := fun a =>
  JDict [("artifact_id", dump (artifact_id a)); ("kind", dump (ar_kind a)); ("media_type", dump (media_type a));
         ("size_bytes", dump (size_bytes a)); ("sha256", dump (sha256 a)); ("created_at", dump (created_at a))].
#[export] Instance CommandResult_dump : Dump CommandResult := fun c =>
  JDict [("node_id", dump (cr_node_id c)); ("command", dump (cr_command c)); ("success", dump (cr_success c));
         ("executed_at", dump (executed_at c)); ("output_ref", dump (output_ref c)); ("summary", dump (cr_summary c))].
#[export] Instance RequestRecord_dump : Dump RequestRecord := fun r =>
  JDict [("target", dump (rr_target r)); ("method", dump (rr_method r)); ("endpoint", dump (rr_endpoint r));
         ("request", dump (rr_request r)); ("response", dump (rr_response r));
         ("ok", dump (rr_ok r)); ("sent_at", dump (sent_at r))].

#[export] Instance FailureInfo_dump : Dump FailureInfo := fun f =>
  JDict [("phase", dump (fi_phase f)); ("kind", dump (fi_kind f)); ("retryable", dump (fi_retryable f));
         ("attempts", dump (fi_attempts f)); ("max_attempts", dump (fi_max_attempts f));
         ("elapsed_ms", dump (fi_elapsed_ms f)); ("http_status", dump (fi_http_status f)); ("line", dump (fi_line f));
         ("exception_type", dump (fi_exception_type f)); ("hint", dump (fi_hint f))].
#[export] Instance DeviceError_dump : Dump DeviceError := fun e =>
  JDict [("node_id", dump (de_node_id e)); ("step_id", dump (de_step_id e)); ("code", dump (de_code e));
         ("message", dump (de_message e)); ("occurred_at", dump (occurred_at e)); ("failure", dump (de_failure e))].

(** [serialize_capabilities]: the values, sorted. *)
#[export] Instance capabilities_dump : Dump (gset Capability) := fun s =>
  JList (JStr <$> dkeys (ssort ((fun c => (capability_value c, tt)) <$> elements s))).
Definition device_status_value (s : DeviceStatus) : string :=
  match s with PENDING => "pending" | OK => "ok" | FAILED => "failed" | SKIPPED => "skipped" end.

#[export] Instance DeviceContext_dump : Dump DeviceContext := fun d =>
  JDict [("id", dump (dc_id d)); ("name", dump (dc_name d)); ("hostname", dump (hostname d));
         ("platform", dump (platform d)); ("network_driver", dump (network_driver d));
         ("primary_ip4", dump (primary_ip4 d)); ("source", dump (dc_source d)); ("source_id", dump (dc_source_id d));
         ("attribute_bags", dump (attribute_bags d)); ("running_config_ref", dump (running_config_ref d));
         ("startup_config_ref", dump (startup_config_ref d)); ("parsed", dump (parsed d));
         ("command_results", dump (command_results d)); ("dry_run_results", dump (dry_run_results d));
         ("requests", dump (requests d)); ("capabilities", dump (capabilities d));
         ("status", JStr (device_status_value (status d))); ("errors", dump (errors d))].
#[export] Instance WorkflowContext_dump : Dump WorkflowContext := fun c =>
  JDict [("run_id", dump (run_id c)); ("workflow_id", dump (workflow_id c)); ("schema_version", dump (schema_version c));
         ("devices", dump (devices c)); ("pending_commands", dump (pending_commands c)); ("metadata", dump (metadata c))].

(** [failure_to_json]: [model_dump(mode="json", exclude_none=True)] *)
Definition failure_to_json (f : FailureInfo) : json :=
  match dump f with
  | JDict d => JDict (filter (fun kv => kv.2 ≠ JNull) d)
  | j => j
  end.

(** ** [provided_capabilities], [provided_parsed_keys] *)

Definition intersect_all {A} `{Countable A} (sets : list (gset A)) : gset A :=
  match sets with [] => ∅ | s :: rest => foldl (∩) s rest end.

Definition provided_capabilities (c : WorkflowContext) : gset Capability :=
  match devices c with
  | [] => list_to_set all_capabilities
  | _ => intersect_all (capabilities <$> dvalues (devices c))
  end.

Definition provided_parsed_keys (c : WorkflowContext) : gset string :=
  match devices c with
  | [] => ∅
  | _ => intersect_all ((fun d => list_to_set (dkeys (parsed d))) <$> dvalues (devices c))
  end.

Lemma elem_of_intersect_all {A} `{Countable A} (sets : list (gset A)) x :
  sets ≠ [] -> x ∈ intersect_all sets <-> forall s, s ∈ sets -> x ∈ s.
Proof.
  destruct sets as [|s rest]; [done|intros _]. simpl.
  revert s. induction rest as [|t rest IH]; intros s; simpl.
  - setoid_rewrite list_elem_of_singleton. naive_solver.
  - rewrite IH. split; intros Hx u Hu.
    + apply elem_of_cons in Hu as [->|[->|Hu]%elem_of_cons]; [| |apply Hx; by right];
        specialize (Hx (s ∩ t)); rewrite elem_of_intersection in Hx; apply Hx; by left.
    + apply elem_of_cons in Hu as [->|Hu]; [|apply Hx; by do 2 right].
      apply elem_of_intersection. split; apply Hx; [by left|right; by left].
Qed.

Lemma elem_of_provided_capabilities c cap :
  cap ∈ provided_capabilities c <-> forall i d, (i, d) ∈ devices c -> cap ∈ capabilities d.
Proof.
  unfold provided_capabilities. destruct (devices c) as [|kv rest] eqn:Hd.
  - split; [intros _ i d ?%not_elem_of_nil; done|intros _]. apply elem_of_list_to_set. unfold all_capabilities. rewrite !elem_of_cons. by destruct cap; auto 10.
  - rewrite elem_of_intersect_all by done. unfold dvalues. split.
    + intros H i d Hin. apply H. apply list_elem_of_fmap. exists d. split; [done|].
      apply list_elem_of_fmap. by exists (i, d).
    + intros H s (d & -> & ([i d'] & -> & Hin)%list_elem_of_fmap)%list_elem_of_fmap. by apply (H i).
Qed.

Lemma elem_of_provided_parsed_keys c k :
  devices c ≠ [] ->
  k ∈ provided_parsed_keys c <-> forall i d, (i, d) ∈ devices c -> k ∈ dkeys (parsed d).
Proof.
  unfold provided_parsed_keys. intros Hne. destruct (devices c) as [|kv rest] eqn:Hd; [done|].
  rewrite elem_of_intersect_all by done. unfold dvalues. split.
  - intros H i d Hin. apply (elem_of_list_to_set (C := gset string)). apply H.
    apply list_elem_of_fmap. exists d. split; [done|]. apply list_elem_of_fmap. by exists (i, d).
  - intros H s (d & -> & ([i d'] & -> & Hin)%list_elem_of_fmap)%list_elem_of_fmap.
    apply elem_of_list_to_set. by apply (H i).
Qed.

(** ** [bare_hostname] *)

(** [s.split("/")[0]] *)
Fixpoint before_slash (s : string) : string :=
  match s with
  | EmptyString => EmptyString
  | String c s' => if decide (c = "/"%char) then EmptyString else String c (before_slash s')
  end.

Definition bare_hostname (primary : option string) (fallback : string) : string :=
  match primary with
  | Some p => if decide (p = "") then fallback else before_slash p
  | None => fallback
  end.

(** ** [seed_run_input_bag] *)

Definition set_attribute_bags (d : DeviceContext) (bags : dict (dict json)) : DeviceContext :=
  Device (dc_id d) (dc_name d) (hostname d) (platform d) (network_driver d) (primary_ip4 d)
    (dc_source d) (dc_source_id d) bags (running_config_ref d) (startup_config_ref d) (parsed d)
    (command_results d) (dry_run_results d) (requests d) (capabilities d) (status d) (errors d).

Definition set_devices (c : WorkflowContext) (ds : dict DeviceContext) : WorkflowContext :=
  Workflow (run_id c) (workflow_id c) (schema_version c) ds (pending_commands c) (metadata c).

Definition RUN_INPUT_BAG_NAME : string := "run_input".

Definition has_run_input_bag (d : DeviceContext) : bool := dmem RUN_INPUT_BAG_NAME (attribute_bags d).

Definition seed_device (run_inputs : dict json) (d : DeviceContext) : DeviceContext :=
  if has_run_input_bag d then d
  else set_attribute_bags d (dset RUN_INPUT_BAG_NAME run_inputs (attribute_bags d)).

Definition seed_run_input_bag (c : WorkflowContext) (run_inputs : dict json) : WorkflowContext :=
  match run_inputs with
  | [] => c
  | _ =>
      let updated := (fun kv => (kv.1, seed_device run_inputs kv.2)) <$> devices c in
      if existsb (fun kv => negb (has_run_input_bag kv.2)) (devices c) then set_devices c updated else c
  end.

Lemma seed_run_input_bag_map c ri :
  ri ≠ [] -> seed_run_input_bag c ri =
  set_devices c ((fun kv => (kv.1, seed_device ri kv.2)) <$> devices c).
Proof.
  intros Hne. unfold seed_run_input_bag. destruct ri as [|r ri]; [done|].
  destruct (existsb _ _) eqn:He; [done|].
  assert (Hid : (fun kv => (kv.1, seed_device (r :: ri) kv.2)) <$> devices c = devices c).
  { revert He. induction (devices c) as [|[i d] ds IH]; [done|]. cbn [existsb]. rewrite fmap_cons.
    intros [Hd Hds]%orb_false_iff. rewrite IH by done. unfold seed_device. cbn [fst snd] in *.
    by rewrite (proj1 (negb_false_iff _) Hd). }
  rewrite Hid. by destruct c.
Qed.

(** ** [derive_step_result_status] *)

Definition find_outcome (name : string) (outcomes : list StepOutcome) : option StepOutcome :=
  head (filter (fun o => so_name o = name) outcomes).

(** The devices of an outcome, if it is there *)
Definition devices_at (name : string) (outs : list StepOutcome) : dict DeviceContext :=
  match find_outcome name outs with Some o => devices (so_context o) | None => [] end.

(** [s.endswith(suffix)] *)
Definition ends_with (suffix s : string) : bool :=
  String.eqb (String.substring (String.length s - String.length suffix) (String.length suffix) s) suffix
  && (String.length suffix <=? String.length s).

Definition workflow_level_failure (outcome : option StepOutcome) : bool :=
  match outcome with
  | None => false
  | Some o =>
      existsb (fun kv => ends_with ".git_operation" kv.1 &&
                 bool_decide (jget "success" kv.2 = Some (JBool false))) (metadata (so_context o))
  end.

Inductive step_status := S_pending | S_running | S_success | S_partial | S_failed | S_skipped.

#[export] Instance step_status_eq_dec : EqDecision step_status.
Proof. solve_decision. Defined.

Definition device_count (o : option StepOutcome) : nat :=
  match o with Some o => length (devices (so_context o)) | None => 0 end.

Definition derive_step_result_status (outcomes : list StepOutcome) : step_status :=
  let success := find_outcome "success" outcomes in
  let failure := find_outcome "failure" outcomes in
  let success_count := device_count success in
  let failure_count := device_count failure in
  if (0 <? failure_count) && (0 <? success_count) then S_partial
  else if (0 <? failure_count) && (success_count =? 0) then S_failed
  else if workflow_level_failure failure && (success_count =? 0) then S_failed
  else S_success.
