(* ===== verification/Merge.v ===== *)
(** * Merging workflow contexts ([backend/services/workflow_context/merge.py])

    The merge of the parents' contexts where branches converge, and the fan-in
    of the contexts the fan-out children produced.

    Where the code iterates the union of two key sets, in an order Python does
    not fix, the model takes the left keys and then the new right ones; results
    are compared by their lookups ([dict_equiv]), so the choice is not visible.
    [now] is the clock reading stamped on a conflict error. *)
From S2P Require Import Prelude Dict Json Context.

(** ** [repr] of a string

    Bytes from 128 up (UTF-8 continuation) are printed as they are. *)
Definition hex_digit (n : nat) : ascii :=
  ascii_of_nat (if n <? 10 then 48 + n else 87 + n).

Definition repr_char (quote c : ascii) : string :=
  let n := nat_of_ascii c in
  if decide (c = quote \/ c = "\"%char) then String "\" (String c "")
  else if n =? 10 then "\n" else if n =? 13 then "\r" else if n =? 9 then "\t"
  else if (n <? 32) || (n =? 127) then "\x" +:+ String (hex_digit (n / 16)) (String (hex_digit (n mod 16)) "")
  else String c "".

Definition single_quote : ascii := "'".
Definition double_quote : ascii := ascii_of_nat 34.

Definition py_repr (s : string) : string :=
  let cs := String.list_ascii_of_string s in
  let q := if bool_decide (single_quote ∈ cs) && negb (bool_decide (double_quote ∈ cs))
           then double_quote else single_quote in
  String q "" +:+ String.concat "" (repr_char q <$> cs) +:+ String q "".

(** ** The merge *)

Section Merge.
Context (now : string).

Definition assert_same_invariants (left right : WorkflowContext) : res unit :=
  if decide (run_id left ≠ run_id right) then Raise (ValueError "Cannot merge contexts with different run_id" [])
  else if decide (workflow_id left ≠ workflow_id right)
    then Raise (ValueError "Cannot merge contexts with different workflow_id" [])
  else if decide (schema_version left ≠ schema_version right)
    then Raise (ValueError "Cannot merge contexts with different schema_version" [])
  else Ok tt.

Definition identity_conflict (left right : string) : DeviceError :=
  DevError "" "merge" "identity_conflict"
    ("Conflicting identity values during merge: " +:+ py_repr left +:+ " vs " +:+ py_repr right) now None.

Definition merge_scalar_identity (left right : option string) : option string * option DeviceError :=
  if decide (left = right \/ right = None) then (left, None)
  else match left, right with
       | Some l, Some r => (left, Some (identity_conflict l r))
       | _, _ => (right, None)
       end.

(** The loop shared by [_merge_shallow_dicts], [_merge_command_results],
    [_merge_requests], [_merge_pending_commands_for_device] and
    [_merge_metadata]: copy the left dict, fail on a key both sides hold with
    different values, otherwise assign. *)
Definition merge_dict {V} `{Dump V} (conflict : string -> exn) (left right : dict V) : res (dict V) :=
  foldM (fun merged kv =>
    match dget kv.1 merged with
    | Some v => if py_eq v kv.2 then Ok (dset kv.1 kv.2 merged) else Raise (conflict kv.1)
    | None => Ok (dset kv.1 kv.2 merged)
    end) left right.

Definition merge_shallow_dicts (label : string) : dict json -> dict json -> res (dict json) :=
  merge_dict (fun k => ValueError "Conflict merging {label} key {key!r}" [label; k]).

Definition merge_command_results : dict (list CommandResult) -> dict (list CommandResult) -> res (dict (list CommandResult)) :=
  merge_dict (fun k => ValueError "Conflict merging command_results for node_id {node_id!r}" [k]).

Definition merge_requests : dict (list RequestRecord) -> dict (list RequestRecord) -> res (dict (list RequestRecord)) :=
  merge_dict (fun k => ValueError "Conflict merging requests for node_id {node_id!r}" [k]).

Definition merge_pending_commands_for_device : dict (list string) -> dict (list string) -> res (dict (list string)) :=
  merge_dict (fun k => ValueError "Conflict merging pending_commands for node_id {node_id!r}" [k]).

Definition merge_metadata : dict json -> dict json -> res (dict json) :=
  merge_dict (fun k => ValueError "Conflict merging metadata key {key!r}" [k]).

Definition merge_attribute_bags (left right : dict (dict json)) : res (dict (dict json)) :=
  foldM (fun merged kv =>
    match dget kv.1 merged with
    | Some bag => m ← merge_shallow_dicts ("attribute_bags[" +:+ py_repr kv.1 +:+ "]") bag kv.2;
                  Ok (dset kv.1 m merged)
    | None => Ok (dset kv.1 kv.2 merged)
    end) left right.

Definition merge_artifact_ref (left right : option ArtifactRef) : res (option ArtifactRef) :=
  match left, right with
  | None, _ => Ok right
  | _, None => Ok left
  | Some l, Some r =>
      if py_eq l r then Ok left else Raise (ValueError "Conflict merging artifact refs with different values" [])
  end.

Definition error_key (e : DeviceError) : string * string := (de_node_id e, de_step_id e).

Definition merge_errors (left right : list DeviceError) : list DeviceError :=
  foldl (fun merged e => if decide (error_key e ∈ error_key <$> merged) then merged else merged ++ [e]) left right.

(** [_IDENTITY_SCALAR_FIELDS] of a device, in order. *)
Definition identity_fields (d : DeviceContext) : list (option string) :=
  [Some (dc_id d); Some (dc_name d); Some (hostname d); platform d; network_driver d;
   primary_ip4 d; Some (dc_source d); Some (dc_source_id d)].

Definition identity_conflicts (left right : DeviceContext) : list DeviceError :=
  omap (fun p => (merge_scalar_identity p.1 p.2).2) (zip (identity_fields left) (identity_fields right)).

(** The merged value of a field that is always a string. *)
Definition merge_string (left right : string) : string :=
  default left (merge_scalar_identity (Some left) (Some right)).1.
Definition merge_optional (left right : option string) : option string := (merge_scalar_identity left right).1.

(** [left.model_copy(update=updates)]: [dry_run_results] is not in [updates]. *)
Definition merge_two_devices (left right : DeviceContext) : res DeviceContext :=
  bags ← merge_attribute_bags (attribute_bags left) (attribute_bags right);
  parsed' ← merge_shallow_dicts "parsed" (parsed left) (parsed right);
  running ← merge_artifact_ref (running_config_ref left) (running_config_ref right);
  startup ← merge_artifact_ref (startup_config_ref left) (startup_config_ref right);
  commands ← merge_command_results (command_results left) (command_results right);
  reqs ← merge_requests (requests left) (requests right);
  Ok (Device
    (merge_string (dc_id left) (dc_id right))
    (merge_string (dc_name left) (dc_name right))
    (merge_string (hostname left) (hostname right))
    (merge_optional (platform left) (platform right))
    (merge_optional (network_driver left) (network_driver right))
    (merge_optional (primary_ip4 left) (primary_ip4 right))
    (merge_string (dc_source left) (dc_source right))
    (merge_string (dc_source_id left) (dc_source_id right))
    bags running startup parsed' commands (dry_run_results left) reqs
    (capabilities left ∪ capabilities right)
    (worst_device_status (status left) (status right))
    (merge_errors (errors left) (errors right ++ identity_conflicts left right))).

(** [set(left) | set(right)] *)
Definition union_keys {V} (left right : dict V) : list string :=
  dkeys left ++ filter (fun k => k ∉ dkeys left) (dkeys right).

(** [merge_device_contexts([d0, d1, ...])] *)
Definition merge_device_contexts (ds : list DeviceContext) : res DeviceContext :=
  match ds with
  | [] => Raise (ValueError "merge_device_contexts requires at least one device" [])
  | d :: rest => foldM merge_two_devices d rest
  end.

Definition merge_device_at (left right : dict DeviceContext) (i : string) : res DeviceContext :=
  match dget i left, dget i right with
  | None, Some r => Ok r
  | Some l, None => Ok l
  | Some l, Some r => merge_device_contexts [l; r]
  | None, None => Raise (KeyError i)
  end.

(** [for k in keys: merged[k] = f(k)] *)
Definition build_dict {V} (f : string -> res V) (keys : list string) : res (dict V) :=
  foldM (fun merged k => v ← f k; Ok (dset k v merged)) [] keys.

Definition merge_pending_commands (left right : dict (dict (list string))) : res (dict (dict (list string))) :=
  build_dict (fun i => merge_pending_commands_for_device (dget_or [] i left) (dget_or [] i right))
    (union_keys left right).

Definition merge_two_contexts (left right : WorkflowContext) : res WorkflowContext :=
  ds ← build_dict (merge_device_at (devices left) (devices right)) (union_keys (devices left) (devices right));
  pending ← merge_pending_commands (pending_commands left) (pending_commands right);
  meta ← merge_metadata (metadata left) (metadata right);
  Ok (Workflow (run_id left) (workflow_id left) (schema_version left) ds pending meta).

Definition merge_workflow_contexts (contexts : list WorkflowContext) : res WorkflowContext :=
  match contexts with
  | [] => Raise (ValueError "merge_workflow_contexts requires at least one context" [])
  | base :: others =>
      foldM (fun base other => assert_same_invariants base other ≫= fun _ => merge_two_contexts base other)
        base others
  end.

(** [flatten_pending_commands] *)
Definition flatten_pending_commands (pending_by_node : dict (list string)) (node_order : list string) : list string :=
  concat ((fun i => dget_or [] i pending_by_node) <$> node_order).

(** ** Fan-in of the children's contexts *)

Definition is_count (j : json) : bool := match j with JInt _ => true | _ => false end.
Definition is_count_dict (j : json) : bool :=
  match j with JDict d => forallb is_count (dvalues d) | _ => false end.
Definition count_of (j : json) : Z := match j with JInt z => z | _ => 0%Z end.

Definition has_summed_suffix (key : string) : bool :=
  ends_with "_count" key || ends_with ".total" key || ends_with "_total" key.

(** [{name: current.get(name, 0) + value.get(name, 0) for name in {*current, *value}}] *)
Definition add_counts (current value : dict json) : dict json :=
  dict_of_keys (fun name => JInt (count_of (dget_or (JInt 0) name current) + count_of (dget_or (JInt 0) name value)))
    (union_keys current value).

Definition is_own (own_node_id : option string) (key : string) : bool :=
  match own_node_id with Some o => String.prefix (o +:+ ".") key | None => false end.

(** One colliding key. *)
Definition fan_in_value (own_node_id : option string) (key : string) (current value : json) : json :=
  let own := is_own own_node_id key in
  let counter := has_summed_suffix key && is_count current && is_count value in
  let counts := ends_with "_counts" key && is_count_dict current && is_count_dict value in
  let differ := negb (py_eq current value) in
  if counter && (own || differ) then JInt (count_of current + count_of value)
  else if counts && (own || differ) then
    match current, value with
    | JDict c, JDict v => JDict (add_counts c v)
    | _, _ => current
    end
  else if negb differ then current
  else match current, value with
       | JList c, JList v => JList (c ++ v)
       | _, _ => current
       end.

Definition merge_metadata_fan_out (own_node_id : option string) (left right : dict json) : dict json :=
  foldl (fun merged kv =>
    match dget kv.1 merged with
    | None => dset kv.1 kv.2 merged
    | Some current => dset kv.1 (fan_in_value own_node_id kv.1 current kv.2) merged
    end) left right.

Definition fan_in_two_contexts (own_node_id : option string) (left right : WorkflowContext) : res WorkflowContext :=
  pending ← merge_pending_commands (pending_commands left) (pending_commands right);
  Ok (Workflow (run_id left) (workflow_id left) (schema_version left)
        (dupdate (devices left) (devices right)) pending
        (merge_metadata_fan_out own_node_id (metadata left) (metadata right))).

Definition merge_fan_out_contexts (own_node_id : option string) (contexts : list WorkflowContext) : res WorkflowContext :=
  match contexts with
  | [] => Raise (ValueError "merge_fan_out_contexts requires at least one context" [])
  | base :: others =>
      foldM (fun base other => assert_same_invariants base other ≫= fun _ => fan_in_two_contexts own_node_id base other)
        base others
  end.
End Merge.

(** * Facts *)

(** ** What a context says

    The abstraction the merge is specified against: the value a context holds
    at each addressable place, in the normal form that [==] compares. *)
Inductive place :=
  | P_device (i : string)
  | P_bag (i bag : string) | P_attribute (i bag k : string)
  | P_running_config (i : string) | P_startup_config (i : string)
  | P_parsed (i k : string)
  | P_command_result (i node : string) | P_request (i node : string)
  | P_pending_device (i : string) | P_pending (i node : string)
  | P_metadata (k : string).

Definition normal {A} `{Dump A} (a : A) : json := canon (dump a).

Lemma py_eq_normal {A} `{Dump A} (a b : A) : py_eq a b = true <-> normal a = normal b.
Proof. apply bool_decide_eq_true. Qed.

(** That something is there, whatever it holds. *)
Definition present {A} (o : option A) : option json := (fun _ => JNull) <$> o.

Definition device_view (d : DeviceContext) (p : place) : option json :=
  match p with
  | P_device _ => Some JNull
  | P_bag _ bag => present (dget bag (attribute_bags d))
  | P_attribute _ bag k => b ← dget bag (attribute_bags d); normal <$> dget k b
  | P_running_config _ => normal <$> running_config_ref d
  | P_startup_config _ => normal <$> startup_config_ref d
  | P_parsed _ k => normal <$> dget k (parsed d)
  | P_command_result _ n => normal <$> dget n (command_results d)
  | P_request _ n => normal <$> dget n (requests d)
  | _ => None
  end.

Definition place_device (p : place) : string :=
  match p with
  | P_device i | P_bag i _ | P_attribute i _ _ | P_running_config i | P_startup_config i
  | P_parsed i _ | P_command_result i _ | P_request i _ | P_pending_device i | P_pending i _ => i
  | P_metadata _ => ""
  end.

Definition view (c : WorkflowContext) (p : place) : option json :=
  match p with
  | P_pending_device i => present (dget i (pending_commands c))
  | P_pending i n => per_node ← dget i (pending_commands c); normal <$> dget n per_node
  | P_metadata k => normal <$> dget k (metadata c)
  | _ => d ← dget (place_device p) (devices c); device_view d p
  end.

(** Two views that do not contradict each other, and the join of such views. *)
Definition compatible (a b : option json) : Prop := forall v w, a = Some v -> b = Some w -> v = w.
Definition joined (a b m : option json) : Prop := compatible a b /\ m = a ∪ b.

Record device_wf (d : DeviceContext) : Prop := {
  dw_bags : dict_wf (attribute_bags d);
  dw_bag bag b : dget bag (attribute_bags d) = Some b -> dict_wf b;
  dw_parsed : dict_wf (parsed d);
  dw_commands : dict_wf (command_results d);
  dw_requests : dict_wf (requests d)
}.

(** The Python dicts of a context have no repeated key. *)
Record context_wf (c : WorkflowContext) : Prop := {
  cw_devices : dict_wf (devices c);
  cw_device i d : dget i (devices c) = Some d -> device_wf d;
  cw_pending : dict_wf (pending_commands c);
  cw_pending_node i p : dget i (pending_commands c) = Some p -> dict_wf p;
  cw_metadata : dict_wf (metadata c)
}.

Lemma joined_none_l b : joined None b b.
Proof. split; [by intros v w|]. by destruct b. Qed.
Lemma joined_none_r a : joined a None a.
Proof. split; [by intros v w|]. by destruct a. Qed.
Lemma joined_same v : joined (Some v) (Some v) (Some v).
Proof. split; [by intros ? ? [= <-] [= <-]|done]. Qed.

(** ** The dict merges *)

Lemma merge_dict_spec {V} `{Dump V} conflict (l r : dict V) :
  dict_wf r ->
  match merge_dict conflict l r with
  | Ok m => (forall k v w, dget k l = Some v -> dget k r = Some w -> normal v = normal w) /\
            (forall k, dget k m = match dget k r with Some w => Some w | None => dget k l end) /\
            (dict_wf l -> dict_wf m)
  | Raise e => exists k v w, dget k l = Some v /\ dget k r = Some w /\ normal v ≠ normal w /\ e = conflict k
  end.
Proof.
  unfold merge_dict, dict_wf. revert l. induction r as [|[k x] r IH]; intros l Hr; [done|].
  rewrite dkeys_cons in Hr. apply NoDup_cons in Hr as [Hk Hr]. apply dget_None in Hk. cbn [foldM fst snd].
  assert (Hstep : forall P : Prop, (forall v, dget k l = Some v -> normal v = normal x) ->
    (match foldM (fun merged kv =>
        match dget kv.1 merged with
        | Some v => if py_eq v kv.2 then Ok (dset kv.1 kv.2 merged) else Raise (conflict kv.1)
        | None => Ok (dset kv.1 kv.2 merged)
        end) (dset k x l) r with
    | Ok m => (forall k0 v w, dget k0 l = Some v -> dget k0 ((k, x) :: r) = Some w -> normal v = normal w) /\
            (forall k0, dget k0 m = match dget k0 ((k, x) :: r) with Some w => Some w | None => dget k0 l end) /\
            (NoDup (dkeys l) -> NoDup (dkeys m))
    | Raise e => exists k0 v w, dget k0 l = Some v /\ dget k0 ((k, x) :: r) = Some w /\ normal v ≠ normal w /\ e = conflict k0
    end)).
  { intros _ Hx. specialize (IH (dset k x l) Hr). cbn [dget].
    destruct (foldM _ _ _) as [m|e].
    - destruct IH as (Hc & Hm & Hwf). split_and!.
      + intros k0 v w Hv. case_decide as Hk0; [intros [= <-]; subst; by apply Hx|].
        intros Hw. apply (Hc k0 v w); [|done]. by rewrite dget_dset_ne.
      + intros k0. rewrite Hm, dget_dset. case_decide as Hk0; [subst k0; by rewrite Hk|done].
      + intros Hl. apply Hwf. by apply dset_wf.
    - destruct IH as (k0 & v & w & Hv & Hw & Hne & ->). exists k0, v, w.
      rewrite dget_dset in Hv. destruct (decide (k0 = k)); [congruence|done]. }
  destruct (dget k l) as [v|] eqn:Hv; [|by apply (Hstep True)].
  destruct (py_eq v x) eqn:Heq; [apply py_eq_normal in Heq; apply (Hstep True); by intros ? [= <-]|].
  exists k, v, x. split_and!; [done| | |done].
  - cbn [dget]. by rewrite decide_True.
  - intros Hn. apply py_eq_normal in Hn. congruence.
Qed.

(** The same, in terms of views. *)
Lemma merge_dict_joined {V} `{Dump V} conflict (l r : dict V) :
  dict_wf r ->
  match merge_dict conflict l r with
  | Ok m => (forall k, joined (normal <$> dget k l) (normal <$> dget k r) (normal <$> dget k m)) /\
            (forall k, is_Some (dget k m) <-> is_Some (dget k l) \/ is_Some (dget k r)) /\
            (dict_wf l -> dict_wf m)
  | Raise e => exists k, ~ compatible (normal <$> dget k l) (normal <$> dget k r) /\ e = conflict k
  end.
Proof.
  intros Hr. pose proof (merge_dict_spec conflict l r Hr) as Hs. destruct (merge_dict _ _ _) as [m|e].
  - destruct Hs as (Hc & Hm & Hwf). split_and!; [| |done].
    + intros k. specialize (Hc k). rewrite Hm.
      destruct (dget k r) as [w|], (dget k l) as [v|]; simpl;
        [|apply joined_none_l|apply joined_none_r|apply joined_none_l].
      rewrite (Hc v w) by done. apply joined_same.
    + intros k. rewrite Hm. destruct (dget k r), (dget k l); unfold is_Some; naive_solver.
  - destruct Hs as (k & v & w & Hv & Hw & Hne & ->). exists k. split; [|done].
    rewrite Hv, Hw. intros Hc. by apply Hne, Hc.
Qed.

Lemma merge_attribute_bags_spec l r :
  dict_wf r -> (forall b x, dget b r = Some x -> dict_wf x) ->
  match merge_attribute_bags l r with
  | Ok m => (forall b, match dget b l, dget b r with
               | Some x, Some y => exists z label, merge_shallow_dicts label x y = Ok z /\ dget b m = Some z
               | None, o => dget b m = o
               | o, None => dget b m = o end) /\
            (dict_wf l -> dict_wf m)
  | Raise e => exists b x y label, dget b l = Some x /\ dget b r = Some y /\ merge_shallow_dicts label x y = Raise e
  end.
Proof.
  unfold merge_attribute_bags, dict_wf at 1 4. revert l. induction r as [|[k x] r IH]; intros l Hr Hx.
  { cbn [foldM]. split; [|done]. intros b. cbn [dget]. by destruct (dget b l). }
  rewrite dkeys_cons in Hr. apply NoDup_cons in Hr as [Hk Hr]. apply dget_None in Hk.
  assert (Hx' : forall b y, dget b r = Some y -> dict_wf y).
  { intros b y Hb. apply (Hx b). cbn [dget]. case_decide as Hbk; [|done]. subst. congruence. }
  cbn [foldM fst snd]. destruct (dget k l) as [v|] eqn:Hv.
  - destruct (merge_shallow_dicts _ v x) as [z|e] eqn:Hz; cbn [mbind res_bind].
    + specialize (IH (dset k z l) Hr Hx'). destruct (foldM _ _ _) as [m|e].
      * destruct IH as (Hm & Hwf). split; [|by intros ?; apply Hwf, dset_wf].
        intros b. specialize (Hm b). rewrite dget_dset in Hm. cbn [dget].
        case_decide as Hb; [|done]. subst b. rewrite Hk in Hm. rewrite Hv. eauto.
      * destruct IH as (b & x' & y & label & Hx0 & Hy & He). exists b, x', y, label.
        rewrite dget_dset in Hx0. cbn [dget]. destruct (decide (b = k)); [congruence|done].
    + exists k, v, x. eexists. split_and!; [done| |done]. cbn [dget]. by rewrite decide_True.
  - specialize (IH (dset k x l) Hr Hx'). destruct (foldM _ _ _) as [m|e].
    + destruct IH as (Hm & Hwf). split; [|by intros ?; apply Hwf, dset_wf].
      intros b. specialize (Hm b). rewrite dget_dset in Hm. cbn [dget].
      case_decide as Hb; [|done]. subst b. rewrite Hk in Hm. by rewrite Hv.
    + destruct IH as (b & x' & y & label & Hx0 & Hy & He). exists b, x', y, label.
      rewrite dget_dset in Hx0. cbn [dget]. destruct (decide (b = k)); [congruence|done].
Qed.

Lemma merge_artifact_ref_joined l r :
  match merge_artifact_ref l r with
  | Ok m => joined (normal <$> l) (normal <$> r) (normal <$> m)
  | Raise e => ~ compatible (normal <$> l) (normal <$> r) /\ is_value_error e = true
  end.
Proof.
  unfold merge_artifact_ref. destruct l as [x|]; [|apply joined_none_l].
  destruct r as [y|]; [|apply joined_none_r].
  destruct (py_eq x y) eqn:Heq; simpl.
  - apply py_eq_normal in Heq. rewrite Heq. apply joined_same.
  - split; [|done]. intros Hc. specialize (Hc _ _ eq_refl eq_refl). apply py_eq_normal in Hc. congruence.
Qed.

(** ** Devices *)

Ltac destruct_merge H :=
  match goal with
  | |- context [match (?m ≫= _) with Ok _ => _ | Raise _ => _ end] =>
      destruct m eqn:H; cbn [mbind res_bind]
  end.

Lemma joined_present {A B C} (l : option A) (r : option B) (m : option C) :
  (is_Some m <-> is_Some l \/ is_Some r) -> joined (present l) (present r) (present m).
Proof.
  unfold is_Some, present. intros Hm. split.
  - intros v w. by destruct l, r; simpl; intros; simplify_eq.
  - destruct l, r, m; simpl; try done; naive_solver.
Qed.

Lemma merge_shallow_joined label (l r : dict json) :
  dict_wf r ->
  match merge_shallow_dicts label l r with
  | Ok m => (forall k, joined (normal <$> dget k l) (normal <$> dget k r) (normal <$> dget k m)) /\
            (dict_wf l -> dict_wf m)
  | Raise e => (exists k, ~ compatible (normal <$> dget k l) (normal <$> dget k r)) /\ is_value_error e = true
  end.
Proof.
  intros Hr. pose proof (merge_dict_joined (fun k => ValueError "Conflict merging {label} key {key!r}" [label; k]) l r Hr) as Hj.
  unfold merge_shallow_dicts. destruct (merge_dict _ l r); [by destruct Hj as (? & _ & ?)|].
  destruct Hj as (k & Hk & ->). eauto.
Qed.

Lemma merge_bags_joined l r :
  dict_wf r -> (forall b x, dget b r = Some x -> dict_wf x) ->
  let at_ (d : dict (dict json)) b k := x ← dget b d; normal <$> dget k x in
  match merge_attribute_bags l r with
  | Ok m => (forall b k, joined (at_ l b k) (at_ r b k) (at_ m b k)) /\
            (forall b, joined (present (dget b l)) (present (dget b r)) (present (dget b m))) /\
            (dict_wf l -> dict_wf m) /\
            ((forall b x, dget b l = Some x -> dict_wf x) -> forall b x, dget b m = Some x -> dict_wf x)
  | Raise e => exists b k, ~ compatible (at_ l b k) (at_ r b k) /\ is_value_error e = true
  end.
Proof.
  intros Hr Hx at_. pose proof (merge_attribute_bags_spec l r Hr Hx) as Hs.
  destruct (merge_attribute_bags l r) as [m|e].
  - destruct Hs as [Hm Hwf]. split_and!; [| |done|].
    + intros b k. specialize (Hm b). unfold at_.
      destruct (dget b l) as [x|], (dget b r) as [y|] eqn:Hb; simpl.
      * destruct Hm as (z & label & Hz & ->). simpl. apply Hx in Hb.
        pose proof (merge_shallow_joined label x y Hb) as Hj. rewrite Hz in Hj. apply Hj.
      * rewrite Hm. apply joined_none_r.
      * rewrite Hm. apply joined_none_l.
      * rewrite Hm. apply joined_none_l.
    + intros b. apply joined_present. specialize (Hm b). unfold is_Some.
      destruct (dget b l), (dget b r), (dget b m); naive_solver.
    + intros Hl b z Hz. specialize (Hm b).
      destruct (dget b l) as [x|] eqn:Hbl, (dget b r) as [y|] eqn:Hbr; simplify_eq.
      * destruct Hm as (z' & label & Hz' & Hm). simplify_eq.
        pose proof (merge_shallow_joined label x y (Hx b y Hbr)) as Hj. rewrite Hz' in Hj. apply Hj. eauto.
      * by eapply Hl.
      * by eapply Hx.
  - destruct Hs as (b & x & y & label & Hl & Hb & He). exists b.
    pose proof (merge_shallow_joined label x y (Hx b y Hb)) as Hj. rewrite He in Hj.
    destruct Hj as ((k & Hk) & Hv). exists k. unfold at_. by rewrite Hl, Hb.
Qed.

(** A place of another device. *)
Definition relocate (i : string) (p : place) : place :=
  match p with
  | P_device _ => P_device i
  | P_bag _ b => P_bag i b
  | P_attribute _ b k => P_attribute i b k
  | P_running_config _ => P_running_config i
  | P_startup_config _ => P_startup_config i
  | P_parsed _ k => P_parsed i k
  | P_command_result _ n => P_command_result i n
  | P_request _ n => P_request i n
  | P_pending_device _ => P_pending_device i
  | P_pending _ n => P_pending i n
  | P_metadata k => P_metadata k
  end.

Lemma merge_two_devices_spec now l r :
  device_wf l -> device_wf r ->
  match merge_two_devices now l r with
  | Ok m => device_wf m /\
      (forall p, joined (device_view l p) (device_view r p) (device_view m p)) /\
      capabilities m = capabilities l ∪ capabilities r /\
      status m = worst_device_status (status l) (status r)
  | Raise e => is_value_error e = true /\ exists p, ~ compatible (device_view l p) (device_view r p)
  end.
Proof.
  intros [Hlb Hlbb Hlp Hlc Hlr] [Hrb Hrbb Hrp Hrc Hrr]. unfold merge_two_devices.
  pose proof (merge_bags_joined (attribute_bags l) (attribute_bags r) Hrb Hrbb) as Hbags.
  destruct_merge E1; [|destruct Hbags as (b & k & Hc & ?); split; [done|by exists (P_attribute "" b k)]].
  pose proof (merge_shallow_joined "parsed" (parsed l) (parsed r) Hrp) as Hparsed.
  destruct_merge E2; [|destruct Hparsed as ((k & ?) & ?); split; [done|by exists (P_parsed "" k)]].
  pose proof (merge_artifact_ref_joined (running_config_ref l) (running_config_ref r)) as Hrun.
  destruct_merge E3; [|destruct Hrun; split; [done|by exists (P_running_config "")]].
  pose proof (merge_artifact_ref_joined (startup_config_ref l) (startup_config_ref r)) as Hstart.
  destruct_merge E4; [|destruct Hstart; split; [done|by exists (P_startup_config "")]].
  pose proof (merge_dict_joined (fun k => ValueError "Conflict merging command_results for node_id {node_id!r}" [k])
    (command_results l) (command_results r) Hrc) as Hcmd. fold merge_command_results in Hcmd.
  destruct_merge E5; [|destruct Hcmd as (k & ? & ->); split; [done|by exists (P_command_result "" k)]].
  pose proof (merge_dict_joined (fun k => ValueError "Conflict merging requests for node_id {node_id!r}" [k])
    (requests l) (requests r) Hrr) as Hreq. fold merge_requests in Hreq.
  destruct_merge E6; [|destruct Hreq as (k & ? & ->); split; [done|by exists (P_request "" k)]].
  destruct Hbags as (Hb1 & Hb2 & Hb3 & Hb4), Hparsed as (Hp1 & Hp2), Hcmd as (Hc1 & _ & Hc3), Hreq as (Hr1 & _ & Hr3).
  split_and!; [|intros p|done|done].
  - by split; eauto.
  - destruct p; simpl; try apply joined_none_l; auto using joined_same.
Qed.

(** ** Contexts *)

Lemma build_dict_spec {V} (f : string -> res V) keys :
  match build_dict f keys with
  | Ok m => dict_wf m /\ (forall k, k ∈ keys -> exists v, f k = Ok v /\ dget k m = Some v) /\
            (forall k, k ∉ keys -> dget k m = None)
  | Raise e => exists k, k ∈ keys /\ f k = Raise e
  end.
Proof.
  unfold build_dict.
  assert (Hg : forall m0 : dict V, dict_wf m0 ->
    match foldM (fun merged k => v ← f k; Ok (dset k v merged)) m0 keys with
    | Ok m => dict_wf m /\ (forall k, k ∈ keys -> exists v, f k = Ok v /\ dget k m = Some v) /\
              (forall k, k ∉ keys -> dget k m = dget k m0)
    | Raise e => exists k, k ∈ keys /\ f k = Raise e
    end).
  { induction keys as [|k keys IH]; intros m0 Hm0; cbn [foldM].
    { split_and!; [done|by intros k ?%not_elem_of_nil|done]. }
    destruct (f k) as [v|e] eqn:Hf; cbn [mbind res_bind]; [|exists k; split; [by left|done]].
    specialize (IH (dset k v m0) (dset_wf _ _ _ Hm0)). destruct (foldM _ _ _) as [m|e].
    - destruct IH as (Hwf & Hin & Hout). split_and!; [done| |].
      + intros k' Hk'. destruct (decide (k' ∈ keys)) as [|Hn]; [by apply Hin|].
        apply elem_of_cons in Hk' as [->|]; [|done]. exists v. split; [done|]. rewrite Hout by done. apply dget_dset_eq.
      + intros k' [Hne Hn]%not_elem_of_cons. rewrite Hout by done. by apply dget_dset_ne.
    - destruct IH as (k' & ? & ?). exists k'. split; [by right|done]. }
  exact (Hg [] dict_wf_nil).
Qed.

Lemma elem_of_union_keys {V} (l r : dict V) k : k ∈ union_keys l r <-> is_Some (dget k l) \/ is_Some (dget k r).
Proof.
  unfold union_keys. rewrite elem_of_app, list_elem_of_filter, !elem_of_dkeys.
  destruct (dget k l); unfold is_Some; naive_solver.
Qed.

Lemma merge_pending_joined l r :
  (forall i p, dget i r = Some p -> dict_wf p) ->
  let at_ (d : dict (dict (list string))) i n := p ← dget i d; normal <$> dget n p in
  match merge_pending_commands l r with
  | Ok m => dict_wf m /\ (forall i n, joined (at_ l i n) (at_ r i n) (at_ m i n)) /\
            (forall i, joined (present (dget i l)) (present (dget i r)) (present (dget i m))) /\
            ((forall i p, dget i l = Some p -> dict_wf p) -> forall i p, dget i m = Some p -> dict_wf p)
  | Raise e => is_value_error e = true /\ exists i n, ~ compatible (at_ l i n) (at_ r i n)
  end.
Proof.
  intros Hr at_. unfold merge_pending_commands.
  assert (Hrw : forall i, dict_wf (dget_or [] i r)).
  { intros i. unfold dget_or. destruct (dget i r) eqn:E; [by eapply Hr|apply dict_wf_nil]. }
  assert (Hat : forall d i n, at_ d i n = normal <$> dget n (dget_or [] i d)).
  { intros d i n. unfold at_, dget_or. by destruct (dget i d). }
  set (f := fun i => merge_pending_commands_for_device (dget_or [] i l) (dget_or [] i r)).
  pose proof (fun i => merge_dict_joined (fun k => ValueError "Conflict merging pending_commands for node_id {node_id!r}" [k])
    (dget_or [] i l) (dget_or [] i r) (Hrw i)) as Hd. fold merge_pending_commands_for_device in Hd.
  pose proof (build_dict_spec f (union_keys l r)) as Hb.
  destruct (build_dict f (union_keys l r)) as [m|e].
  - destruct Hb as (Hwf & Hin & Hout).
    assert (Hcase : forall i, (exists p, f i = Ok p /\ dget i m = Some p /\ (is_Some (dget i l) \/ is_Some (dget i r))) \/
                              dget i m = None /\ dget i l = None /\ dget i r = None).
    { intros i. destruct (decide (i ∈ union_keys l r)) as [Hi|Hi].
      - left. destruct (Hin i Hi) as (v & ? & ?). exists v. split_and!; [done|done|by apply elem_of_union_keys].
      - right. split; [by apply Hout|]. rewrite elem_of_union_keys in Hi.
        split; apply eq_None_not_Some; tauto. }
    split_and!; [done| | |].
    + intros i n. rewrite !Hat. specialize (Hd i). destruct (Hcase i) as [(p & Hf & Hm & _)|(Hm & Hl & Hr')].
      * unfold f in Hf; rewrite Hf in Hd. unfold dget_or at 3. rewrite Hm. apply Hd.
      * unfold dget_or. rewrite Hm, Hl, Hr'. apply joined_none_l.
    + intros i. apply joined_present. destruct (Hcase i) as [(p & _ & -> & ?)|(-> & -> & ->)]; [unfold is_Some; naive_solver|].
      unfold is_Some. naive_solver.
    + intros Hl i p Hp. destruct (Hcase i) as [(p' & Hf & Hm & _)|(Hm & _)]; [|congruence].
      specialize (Hd i). unfold f in Hf; rewrite Hf in Hd. simplify_eq. apply Hd.
      unfold dget_or. destruct (dget i l) eqn:E; [by eapply Hl|apply dict_wf_nil].
  - destruct Hb as (i & _ & Hf). specialize (Hd i). unfold f in Hf; rewrite Hf in Hd. destruct Hd as (n & Hn & ->).
    split; [done|]. exists i, n. by rewrite !Hat.
Qed.

(** One device of the merged context. *)
Lemma merge_device_at_spec now l r i :
  (forall d, dget i l = Some d -> device_wf d) -> (forall d, dget i r = Some d -> device_wf d) ->
  i ∈ union_keys l r ->
  match merge_device_at now l r i with
  | Ok m => device_wf m /\
      (forall p, joined (dget i l ≫= fun d => device_view d p) (dget i r ≫= fun d => device_view d p) (device_view m p)) /\
      (forall c, c ∈ capabilities m <-> (exists d, dget i l = Some d /\ c ∈ capabilities d) \/
                                       (exists d, dget i r = Some d /\ c ∈ capabilities d)) /\
      (forall n, n <= status_rank (status m) <-> (exists d, dget i l = Some d /\ n <= status_rank (status d)) \/
                                       (exists d, dget i r = Some d /\ n <= status_rank (status d)))
  | Raise e => is_value_error e = true /\ exists p,
      ~ compatible (dget i l ≫= fun d => device_view d p) (dget i r ≫= fun d => device_view d p)
  end.
Proof.
  intros Hl Hr Hi%elem_of_union_keys. unfold merge_device_at.
  destruct (dget i l) as [dl|], (dget i r) as [dr|].
  - unfold merge_device_contexts. cbn [foldM].
    pose proof (merge_two_devices_spec now dl dr (Hl _ eq_refl) (Hr _ eq_refl)) as Hs.
    destruct (merge_two_devices now dl dr) as [m|e]; [|done].
    destruct Hs as (Hwf & Hv & Hc & Hst). split_and!; [done|done| |].
    + intros c. rewrite Hc, elem_of_union. naive_solver.
    + intros n. rewrite Hst, worst_device_status_rank. split.
      * intros Hn. destruct (Nat.max_spec (status_rank (status dl)) (status_rank (status dr))) as [[_ Hm]|[_ Hm]];
          rewrite Hm in Hn; eauto.
      * intros [(d & [= <-] & ?)|(d & [= <-] & ?)]; lia.
  - split_and!; [by apply Hl|intros p; apply joined_none_r|naive_solver|].
    intros n. split; [eauto|]. by intros [(d & [= <-] & ?)|(d & ? & ?)].
  - split_and!; [by apply Hr|intros p; apply joined_none_l|naive_solver|].
    intros n. split; [eauto|]. by intros [(d & ? & ?)|(d & [= <-] & ?)].
  - unfold is_Some in Hi. naive_solver.
Qed.

(** Device [i] of the context has the capability / a status at least that bad. *)
Definition capability_at (c : WorkflowContext) (i : string) (cap : Capability) : Prop :=
  exists d, dget i (devices c) = Some d /\ cap ∈ capabilities d.
Definition status_at_least (c : WorkflowContext) (i : string) (n : nat) : Prop :=
  exists d, dget i (devices c) = Some d /\ n <= status_rank (status d).

Definition same_invariants (c c' : WorkflowContext) : Prop :=
  run_id c = run_id c' /\ workflow_id c = workflow_id c' /\ schema_version c = schema_version c'.

Definition is_device_place (p : place) : bool :=
  match p with P_pending_device _ | P_pending _ _ | P_metadata _ => false | _ => true end.

Lemma view_device_place c p :
  is_device_place p = true -> view c p = dget (place_device p) (devices c) ≫= fun d => device_view d p.
Proof. by destruct p. Qed.

Lemma device_view_other d p : is_device_place p = false -> device_view d p = None.
Proof. by destruct p. Qed.

Lemma device_view_relocate d i p : device_view d (relocate i p) = device_view d p.
Proof. by destruct p. Qed.

Lemma device_incompatible l r i p :
  ~ compatible (dget i (devices l) ≫= fun d => device_view d p) (dget i (devices r) ≫= fun d => device_view d p) ->
  ~ compatible (view l (relocate i p)) (view r (relocate i p)).
Proof.
  intros Hc. destruct (is_device_place p) eqn:Hp.
  - rewrite !view_device_place by (by destruct p).
    replace (place_device (relocate i p)) with i by (by destruct p).
    intros Hr. apply Hc. intros v w Hv Hw. apply (Hr v w).
    + rewrite <- Hv. destruct (dget i (devices l)); [apply device_view_relocate|done].
    + rewrite <- Hw. destruct (dget i (devices r)); [apply device_view_relocate|done].
  - exfalso. apply Hc. intros v w. destruct (dget i (devices l)); simpl; [|done].
    by rewrite device_view_other.
Qed.

Lemma merge_devices_spec now l r :
  (forall i d, dget i (devices l) = Some d -> device_wf d) ->
  (forall i d, dget i (devices r) = Some d -> device_wf d) ->
  match build_dict (merge_device_at now (devices l) (devices r)) (union_keys (devices l) (devices r)) with
  | Ok m => dict_wf m /\ (forall i d, dget i m = Some d -> device_wf d) /\
      (forall i p, joined (dget i (devices l) ≫= fun d => device_view d p)
                          (dget i (devices r) ≫= fun d => device_view d p) (dget i m ≫= fun d => device_view d p)) /\
      (forall i cap, (exists d, dget i m = Some d /\ cap ∈ capabilities d) <-> capability_at l i cap \/ capability_at r i cap) /\
      (forall i n, (exists d, dget i m = Some d /\ n <= status_rank (status d)) <-> status_at_least l i n \/ status_at_least r i n)
  | Raise e => is_value_error e = true /\ exists p, ~ compatible (view l p) (view r p)
  end.
Proof.
  intros Hl Hr. pose proof (build_dict_spec (merge_device_at now (devices l) (devices r)) (union_keys (devices l) (devices r))) as Hb.
  pose proof (fun i => merge_device_at_spec now (devices l) (devices r) i (Hl i) (Hr i)) as Hd.
  destruct (build_dict _ _) as [m|e].
  - destruct Hb as (Hwf & Hin & Hout). split; [done|].
    assert (Hcase : forall i, (exists d, merge_device_at now (devices l) (devices r) i = Ok d /\ dget i m = Some d /\ i ∈ union_keys (devices l) (devices r)) \/
                              dget i m = None /\ dget i (devices l) = None /\ dget i (devices r) = None).
    { intros i. destruct (decide (i ∈ union_keys (devices l) (devices r))) as [Hi|Hi].
      - left. destruct (Hin i Hi) as (v & ? & ?). by exists v.
      - right. split; [by apply Hout|]. rewrite elem_of_union_keys in Hi. split; apply eq_None_not_Some; tauto. }
    unfold capability_at, status_at_least.
    split_and!; intros i; specialize (Hd i); destruct (Hcase i) as [(d & Hi & Hm & Hk)|(Hm & Hl' & Hr')];
      rewrite ?Hm, ?Hl', ?Hr'; try (specialize (Hd Hk); rewrite Hi in Hd; destruct Hd as (Hd1 & Hd2 & Hd3 & Hd4)).
    + by intros d' [= <-].
    + done.
    + intros p. apply Hd2.
    + intros p. apply joined_none_l.
    + intros cap. rewrite <- Hd3. naive_solver.
    + naive_solver.
    + intros n. rewrite <- Hd4. naive_solver.
    + naive_solver.
  - destruct Hb as (i & Hi & He). specialize (Hd i Hi). rewrite He in Hd. destruct Hd as (Hv & p & Hp).
    split; [done|]. exists (relocate i p). by apply device_incompatible.
Qed.

Lemma merge_two_contexts_spec now l r :
  context_wf l -> context_wf r ->
  match merge_two_contexts now l r with
  | Ok m => context_wf m /\ same_invariants l m /\
      (forall p, joined (view l p) (view r p) (view m p)) /\
      (forall i cap, capability_at m i cap <-> capability_at l i cap \/ capability_at r i cap) /\
      (forall i n, status_at_least m i n <-> status_at_least l i n \/ status_at_least r i n)
  | Raise e => is_value_error e = true /\ exists p, ~ compatible (view l p) (view r p)
  end.
Proof.
  intros [Hl1 Hl2 Hl3 Hl4 Hl5] [Hr1 Hr2 Hr3 Hr4 Hr5]. unfold merge_two_contexts.
  pose proof (merge_devices_spec now l r Hl2 Hr2) as Hdev. destruct_merge E1; [|done].
  pose proof (merge_pending_joined (pending_commands l) (pending_commands r) Hr4) as Hpend.
  destruct_merge E2; [|destruct Hpend as (? & i & n & ?); split; [done|by exists (P_pending i n)]].
  pose proof (merge_dict_joined (fun k => ValueError "Conflict merging metadata key {key!r}" [k])
    (metadata l) (metadata r) Hr5) as Hmeta. fold merge_metadata in Hmeta.
  destruct_merge E3; [|destruct Hmeta as (k & ? & ->); split; [done|by exists (P_metadata k)]].
  destruct Hdev as (Hd1 & Hd2 & Hd3 & Hd4 & Hd5), Hpend as (Hp1 & Hp2 & Hp3 & Hp4), Hmeta as (Hm1 & _ & Hm2).
  split_and!; [|done|intros p|apply Hd4|apply Hd5].
  - split; eauto.
  - destruct (is_device_place p) eqn:Hp.
    + rewrite !view_device_place by done. apply Hd3.
    + destruct p; simpl; try done.
Qed.

(** ** Any number of parents *)

Lemma joined_Some a b m v : joined a b m -> m = Some v <-> a = Some v \/ b = Some v.
Proof.
  intros [Hc ->]. destruct a as [x|], b as [y|]; simpl.
  - specialize (Hc x y eq_refl eq_refl). subst. naive_solver.
  - naive_solver.
  - naive_solver.
  - naive_solver.
Qed.

Lemma assert_same_invariants_spec l r :
  match assert_same_invariants l r with
  | Ok _ => same_invariants l r
  | Raise e => is_value_error e = true /\ ~ same_invariants l r
  end.
Proof. unfold assert_same_invariants, same_invariants. repeat case_decide; naive_solver. Qed.

(** Two contexts that cannot meet: of different runs, or saying different
    things about the same place. *)
Definition conflicting (c c' : WorkflowContext) : Prop :=
  ~ same_invariants c c' \/ exists p, ~ compatible (view c p) (view c' p).

Definition conflict_free (cs : list WorkflowContext) : Prop :=
  forall c c', c ∈ cs -> c' ∈ cs -> same_invariants c c' /\ forall p, compatible (view c p) (view c' p).

(** [m] says what some context of [cs] says, and nothing else. *)
Record is_join (cs : list WorkflowContext) (m : WorkflowContext) : Prop := {
  ij_view p v : view m p = Some v <-> exists c, c ∈ cs /\ view c p = Some v;
  ij_capability i cap : capability_at m i cap <-> exists c, c ∈ cs /\ capability_at c i cap;
  ij_status i n : status_at_least m i n <-> exists c, c ∈ cs /\ status_at_least c i n;
  ij_invariants c : c ∈ cs -> same_invariants c m
}.

Lemma same_invariants_sym c c' : same_invariants c c' -> same_invariants c' c.
Proof. intros (?&?&?). split_and!; congruence. Qed.
Lemma same_invariants_trans c1 c2 c3 : same_invariants c1 c2 -> same_invariants c2 c3 -> same_invariants c1 c3.
Proof. intros (?&?&?) (?&?&?). split_and!; congruence. Qed.

Lemma is_join_step l r m1 rest m :
  is_join [l; r] m1 -> is_join (m1 :: rest) m -> is_join (l :: r :: rest) m.
Proof.
  intros [V1 C1 S1 I1] [V2 C2 S2 I2].
  assert (Hex : forall (P : WorkflowContext -> Prop),
    (P m1 <-> exists c, c ∈ [l; r] /\ P c) ->
    (exists c, c ∈ m1 :: rest /\ P c) <-> (exists c, c ∈ l :: r :: rest /\ P c)).
  { intros P HP. setoid_rewrite elem_of_cons. setoid_rewrite elem_of_cons in HP.
    setoid_rewrite list_elem_of_singleton in HP. setoid_rewrite elem_of_cons. split.
    - intros (c & [->|Hc] & Hp); [|by eauto]. apply HP in Hp. naive_solver.
    - intros (c & [->|[->|Hc]] & Hp); [exists m1; split; [by left|apply HP; eauto]..|by eauto]. }
  split.
  - intros p v. rewrite V2. apply (Hex (fun c => view c p = Some v)), V1.
  - intros i cap. rewrite C2. apply (Hex (fun c => capability_at c i cap)), C1.
  - intros i n. rewrite S2. apply (Hex (fun c => status_at_least c i n)), S1.
  - intros c Hc. apply elem_of_cons in Hc as [->|[->|Hc]%elem_of_cons].
    + eapply same_invariants_trans; [apply I1; by left|apply I2; by left].
    + eapply same_invariants_trans; [apply I1; right; by left|apply I2; by left].
    + apply I2. by right.
Qed.

Lemma conflict_free_step l r m1 rest :
  is_join [l; r] m1 -> conflict_free [l; r] -> conflict_free (m1 :: rest) -> conflict_free (l :: r :: rest).
Proof.
  intros [V1 _ _ I1] Hlr Hm.
  assert (Hold : forall c c', c ∈ [l; r] -> c' ∈ rest -> same_invariants c c' /\ forall p, compatible (view c p) (view c' p)).
  { intros c c' Hc Hc'. destruct (Hm m1 c') as [Hs Hv]; [by left|by right|]. split.
    - eapply same_invariants_trans; [by apply I1|done].
    - intros p v w Hcv Hw. apply (Hv p v w); [|done]. apply V1. eauto. }
  assert (Hsym : forall c c', (same_invariants c c' /\ forall p, compatible (view c p) (view c' p)) ->
                              same_invariants c' c /\ forall p, compatible (view c' p) (view c p)).
  { intros c c' [Hs Hv]. split; [by apply same_invariants_sym|]. intros p v w ? ?. symmetry. by apply (Hv p). }
  assert (Hsplit : forall c, c ∈ l :: r :: rest -> c ∈ [l; r] \/ c ∈ rest).
  { intros c. rewrite !elem_of_cons. naive_solver. }
  intros c c' [Hc|Hc]%Hsplit [Hc'|Hc']%Hsplit; [by apply Hlr|by apply Hold|by apply Hsym, Hold|].
  apply Hm; by right.
Qed.

Lemma merge_two_join now l r :
  context_wf l -> context_wf r ->
  match (assert_same_invariants l r ≫= fun _ => merge_two_contexts now l r) with
  | Ok m => context_wf m /\ is_join [l; r] m /\ conflict_free [l; r]
  | Raise e => is_value_error e = true /\ conflicting l r
  end.
Proof.
  intros Hl Hr. pose proof (assert_same_invariants_spec l r) as Hi.
  destruct (assert_same_invariants l r); cbn [mbind res_bind]; [|unfold conflicting; naive_solver].
  pose proof (merge_two_contexts_spec now l r Hl Hr) as Hs. destruct (merge_two_contexts now l r) as [m|e].
  - destruct Hs as (Hwf & Hinv & Hv & Hc & Hst).
    assert (Hex : forall P : WorkflowContext -> Prop, (P l \/ P r) <-> exists c, c ∈ [l; r] /\ P c).
    { intros P. setoid_rewrite elem_of_cons. setoid_rewrite list_elem_of_singleton. naive_solver. }
    split_and!; [done| |].
    + split.
      * intros p v. rewrite <- (Hex (fun c => view c p = Some v)). by apply joined_Some.
      * intros i cap. by rewrite <- (Hex (fun c => capability_at c i cap)).
      * intros i n. by rewrite <- (Hex (fun c => status_at_least c i n)).
      * intros c [->| ->%list_elem_of_singleton]%elem_of_cons; [done|].
        eapply same_invariants_trans; [by apply same_invariants_sym|done].
    + assert (Hself : forall c : WorkflowContext, same_invariants c c /\ forall p, compatible (view c p) (view c p)).
      { intros c. split; [done|]. intros p v w. congruence. }
      intros c c' [->| ->%list_elem_of_singleton]%elem_of_cons [->| ->%list_elem_of_singleton]%elem_of_cons; [done| | |done].
      * split; [done|]. intros p. apply Hv.
      * split; [by apply same_invariants_sym|]. intros p v w ? ?. symmetry. by apply (Hv p).
  - destruct Hs as (? & p & Hp). split; [done|]. right. eauto.
Qed.

Lemma incompatible_inv a b : ~ compatible a b -> exists v w, a = Some v /\ b = Some w /\ v ≠ w.
Proof.
  intros Hc. destruct a as [v|]; [|exfalso; apply Hc; by intros ? ?].
  destruct b as [w|]; [|exfalso; apply Hc; by intros ? ?].
  exists v, w. split_and!; [done..|]. intros ->. apply Hc. intros ? ?. congruence.
Qed.

Lemma conflicting_sym c c' : conflicting c c' -> conflicting c' c.
Proof.
  intros [Hi|(p & Hp)]; [left|right].
  - intros ?. by apply Hi, same_invariants_sym.
  - exists p. intros Hc. apply Hp. intros v w ? ?. symmetry. by apply Hc.
Qed.

Lemma conflicting_join l r m c :
  is_join [l; r] m -> conflicting m c -> exists a, a ∈ [l; r] /\ conflicting a c.
Proof.
  intros [Hv _ _ Hinv] [Hi|(p & Hp)].
  - exists l. split; [by left|]. left. intros Hs. apply Hi.
    eapply same_invariants_trans; [|done]. apply same_invariants_sym, Hinv. by left.
  - apply incompatible_inv in Hp as (v & w & Hm & Hw & Hne). apply Hv in Hm as (a & Ha & Hav).
    exists a. split; [done|]. right. exists p. intros Hc. by apply Hne, Hc.
Qed.

Lemma merge_workflow_contexts_spec now cs :
  cs ≠ [] -> Forall context_wf cs ->
  match merge_workflow_contexts now cs with
  | Ok m => context_wf m /\ is_join cs m /\ conflict_free cs
  | Raise e => is_value_error e = true /\ exists c c', c ∈ cs /\ c' ∈ cs /\ conflicting c c'
  end.
Proof.
  destruct cs as [|base others]; [done|intros _]. unfold merge_workflow_contexts.
  revert base. induction others as [|o others IH]; intros base Hwf; cbn [foldM].
  - apply Forall_cons in Hwf as [Hb _]. split_and!; [done| |].
    + split; [intros p v|intros i cap|intros i n|by intros c ->%list_elem_of_singleton];
        setoid_rewrite list_elem_of_singleton; naive_solver.
    + intros c c' ->%list_elem_of_singleton ->%list_elem_of_singleton. split; [done|]. intros p v w; congruence.
  - apply Forall_cons in Hwf as [Hb [Ho Hrest]%Forall_cons].
    pose proof (merge_two_join now base o Hb Ho) as Hstep.
    destruct (assert_same_invariants base o ≫= _) as [m1|e].
    2:{ destruct Hstep as [? ?]. split; [done|]. exists base, o. split_and!; [by left|right; by left|done]. }
    destruct Hstep as (Hm1 & Hj1 & Hc1). specialize (IH m1). destruct (foldM _ _ _) as [m|e].
    + destruct IH as (? & ? & ?); [by constructor|].
      split_and!; [done|by eapply is_join_step|by eapply conflict_free_step].
    + destruct IH as (Hv & c & c' & Hin & Hin' & Hconf); [by constructor|]. split; [done|].
      assert (Hfind : forall a b, a ∈ m1 :: others -> conflicting a b ->
                exists a', a' ∈ base :: o :: others /\ conflicting a' b).
      { intros a b [->|Ha]%elem_of_cons Hab; [|exists a; split; [by do 2 right|done]].
        apply (conflicting_join _ _ _ _ Hj1) in Hab as (a' & Ha' & Hab). exists a'. split; [|done].
        rewrite !elem_of_cons in *. rewrite elem_of_nil in Ha'. tauto. }
      apply Hfind in Hconf as (a & Ha & Hconf); [|done]. apply conflicting_sym in Hconf.
      apply Hfind in Hconf as (b & Hb' & Hconf); [|done]. eauto.
Qed.

Lemma conflict_free_decides cs : conflict_free cs -> ~ exists c c', c ∈ cs /\ c' ∈ cs /\ conflicting c c'.
Proof.
  intros Hf (c & c' & Hc & Hc' & [Hi|(p & Hp)]); destruct (Hf c c' Hc Hc') as [Hs Hv]; [done|]. by apply Hp.
Qed.

(** C15. The merge of converging branches is the join of what the parents say.
    For contexts of one run it succeeds exactly when no two of them disagree
    on a place (an attribute, a parsed key, a config reference, the results of
    a command or request step, pending commands, metadata), and fails with a
    [ValueError] otherwise.  The result says at every such place exactly what
    the parents say there, gives each device the union of its capabilities and
    the worst of its statuses, and keeps the run, workflow and schema.  The identity
    fields of a device, its errors and its dry-run results are no such places. *)
Theorem merge_workflow_contexts_join now cs :
  cs ≠ [] -> Forall context_wf cs ->
  (is_ok (merge_workflow_contexts now cs) = true <-> conflict_free cs) /\
  (forall e, merge_workflow_contexts now cs = Raise e -> is_value_error e = true) /\
  (forall m, merge_workflow_contexts now cs = Ok m -> is_join cs m).
Proof.
  intros Hne Hwf. pose proof (merge_workflow_contexts_spec now cs Hne Hwf) as Hs.
  destruct (merge_workflow_contexts now cs) as [m|e]; simpl.
  - destruct Hs as (_ & Hj & Hf). split_and!; [done|done|]. by intros ? [= <-].
  - destruct Hs as (Hv & Hconf). split_and!; [|by intros ? [= <-]|done].
    split; [done|]. intros Hf. by apply conflict_free_decides in Hf.
Qed.

(** The merge does not depend on the order of the parents: reordering them
    neither turns a success into a failure nor changes what the result says at
    any place, the devices' capabilities or their statuses. *)
Theorem merge_workflow_contexts_order now now' cs cs' :
  cs ≠ [] -> Forall context_wf cs -> cs ≡ₚ cs' ->
  match merge_workflow_contexts now cs, merge_workflow_contexts now' cs' with
  | Ok m, Ok m' => (forall p, view m p = view m' p) /\
                   (forall i cap, capability_at m i cap <-> capability_at m' i cap) /\
                   (forall i n, status_at_least m i n <-> status_at_least m' i n) /\
                   same_invariants m m'
  | Raise _, Raise _ => True
  | _, _ => False
  end.
Proof.
  intros Hne Hwf Hp.
  assert (Hne' : cs' ≠ []) by (intros ->; by apply Permutation_nil_r in Hp).
  assert (Hwf' : Forall context_wf cs') by (by rewrite <- Hp).
  assert (Hin : forall c, c ∈ cs <-> c ∈ cs') by (intros c; by rewrite Hp).
  pose proof (merge_workflow_contexts_spec now cs Hne Hwf) as Hs.
  pose proof (merge_workflow_contexts_spec now' cs' Hne' Hwf') as Hs'.
  destruct (merge_workflow_contexts now cs) as [m|e], (merge_workflow_contexts now' cs') as [m'|e'].
  - destruct Hs as (_ & [V C S I] & _), Hs' as (_ & [V' C' S' I'] & _). split_and!.
    + intros p. apply option_eq. intros v. rewrite V, V'. by setoid_rewrite Hin.
    + intros i cap. rewrite C, C'. by setoid_rewrite Hin.
    + intros i n. rewrite S, S'. by setoid_rewrite Hin.
    + destruct cs as [|c cs]; [done|]. eapply same_invariants_trans.
      * apply same_invariants_sym, I. by left.
      * apply I', Hin. by left.
  - destruct Hs as (_ & _ & Hf), Hs' as (_ & c & c' & Hc & Hc' & Hconf). apply conflict_free_decides in Hf.
    apply Hf. exists c, c'. by rewrite !Hin.
  - destruct Hs' as (_ & _ & Hf), Hs as (_ & c & c' & Hc & Hc' & Hconf). apply conflict_free_decides in Hf.
    apply Hf. exists c, c'. by rewrite <- !Hin.
  - done.
Qed.

(** C36. The merge of a device drops the right branch's dry-run results: what
    the left branch recorded is kept and nothing is added, whatever the right
    branch recorded and whether or not the two agree. *)
Theorem merge_drops_right_dry_run now l r m :
  merge_two_devices now l r = Ok m -> dry_run_results m = dry_run_results l.
Proof. unfold merge_two_devices. intros H. by res_inv. Qed.

(** Two branches of one run that enriched the same device. *)
Definition sample_device (parsed' : dict json) (dry : dict (dict json)) (caps : gset Capability)
    (st : DeviceStatus) : DeviceContext :=
  Device "d1" "sw1" "sw1" (Some "ios") None (Some "10.0.0.1/24") "nautobot" "u1"
    [("nautobot", [("site", JStr "fra")])] None None parsed' [] dry [] caps st [].
Definition sample_context (d : DeviceContext) (meta : dict json) : WorkflowContext :=
  Workflow "run1" "wf1" 2 [("d1", d)] [("d1", [("n1", ["show version"])])] meta.
Definition left_context : WorkflowContext :=
  sample_context (sample_device [("facts", JInt 1)] [] {[IDENTITY; PARSED]} OK) [("a.total", JInt 1)].
Definition right_device : DeviceContext :=
  sample_device [("facts", JFloat 2 (-1)); ("bgp", JStr "up")] [("n2", [("diff", JStr "+ ntp")])]
    {[IDENTITY; ATTRIBUTES]} FAILED.
Definition right_context : WorkflowContext := sample_context right_device [("b.total", JInt 2)].

Lemma sample_context_wf d meta : device_wf d -> dict_wf meta -> context_wf (sample_context d meta).
Proof.
  intros Hd Hm. split; simpl; try done; try (by apply NoDup_singleton).
  - intros i d'. by case_decide; intros; simplify_eq.
  - intros i p. by case_decide; intros; simplify_eq; apply NoDup_singleton.
Qed.

Lemma sample_device_wf p dry caps st : dict_wf p -> device_wf (sample_device p dry caps st).
Proof.
  intros Hp. split; simpl; try done; try (by apply NoDup_singleton); try exact NoDup_nil_2.
  intros i b. by case_decide; intros; simplify_eq; apply NoDup_singleton.
Qed.

Lemma sample_contexts_wf : Forall context_wf [left_context; right_context].
Proof.
  apply Forall_cons; split; [|apply Forall_singleton]; apply sample_context_wf; try apply sample_device_wf;
    apply (bool_decide_unpack _); by vm_compute.
Qed.

Lemma merge_workflow_contexts_join_witness :
  exists m, merge_workflow_contexts "t" [left_context; right_context] = Ok m /\
    view m (P_parsed "d1" "bgp") = Some (JStr "up") /\ status_at_least m "d1" 3.
Proof.
  destruct (merge_workflow_contexts_join "t" [left_context; right_context]
    (not_eq_sym (@nil_cons _ _ _)) sample_contexts_wf) as (_ & _ & Hj).
  assert (Hok : is_ok (merge_workflow_contexts "t" [left_context; right_context]) = true) by (vm_compute; reflexivity).
  destruct (merge_workflow_contexts "t" [left_context; right_context]) as [m|]; [|discriminate Hok].
  exists m. destruct (Hj m eq_refl) as [Hv _ Hs _]. split; [reflexivity|]. split.
  - apply Hv. exists right_context. split; [right; by left|vm_compute; reflexivity].
  - apply Hs. exists right_context. split; [right; by left|]. exists right_device. split; [reflexivity|]. apply le_n.
Defined.

Lemma merge_workflow_contexts_order_witness :
  exists m m', merge_workflow_contexts "t" [left_context; right_context] = Ok m /\
    merge_workflow_contexts "u" [right_context; left_context] = Ok m' /\ forall p, view m p = view m' p.
Proof.
  pose proof (merge_workflow_contexts_order "t" "u" [left_context; right_context] [right_context; left_context]
    (not_eq_sym (@nil_cons _ _ _)) sample_contexts_wf (perm_swap _ _ _)) as H.
  assert (Hok : is_ok (merge_workflow_contexts "t" [left_context; right_context]) = true) by (vm_compute; reflexivity).
  destruct (merge_workflow_contexts "t" [left_context; right_context]) as [m|]; [|discriminate Hok].
  destruct (merge_workflow_contexts "u" [right_context; left_context]) as [m'|]; [|contradiction H].
  exists m, m'. split; [reflexivity|]. split; [reflexivity|]. exact (proj1 H).
Defined.

Lemma merge_drops_right_dry_run_witness :
  exists m, merge_two_devices "t" (sample_device [] [] ∅ OK) (sample_device [] [("n2", [("diff", JStr "+ ntp")])] ∅ OK) = Ok m
    /\ dry_run_results m = [].
Proof.
  eexists. split; [vm_compute; reflexivity|].
  exact (merge_drops_right_dry_run "t" (sample_device [] [] ∅ OK)
    (sample_device [] [("n2", [("diff", JStr "+ ntp")])] ∅ OK) _ eq_refl).
Defined.

(** ** Fan-in *)

Definition fan_in_option (own : option string) (k : string) (a b : option json) : option json :=
  match a, b with
  | Some current, Some value => Some (fan_in_value own k current value)
  | None, o => o
  | o, None => o
  end.

Lemma merge_metadata_fan_out_lookup own l r k :
  dict_wf r -> dget k (merge_metadata_fan_out own l r) = fan_in_option own k (dget k l) (dget k r).
Proof.
  unfold merge_metadata_fan_out, dict_wf. revert l. induction r as [|[k0 x] r IH]; intros l Hr.
  { cbn [foldl dget]. by destruct (dget k l). }
  rewrite dkeys_cons in Hr. apply NoDup_cons in Hr as [Hk Hr]. apply dget_None in Hk.
  cbn [foldl fst snd dget]. rewrite IH by done.
  destruct (decide (k = k0)) as [->|Hne].
  - rewrite Hk. destruct (dget k0 l); rewrite dget_dset_eq; done.
  - destruct (dget k0 l); by rewrite dget_dset_ne.
Qed.

Lemma fan_in_two_spec own l r m :
  fan_in_two_contexts own l r = Ok m -> dict_wf (devices r) -> dict_wf (metadata r) ->
  same_invariants l m /\
  (forall i, dget i (devices m) = match dget i (devices r) with Some d => Some d | None => dget i (devices l) end) /\
  (forall k, dget k (metadata m) = fan_in_option own k (dget k (metadata l)) (dget k (metadata r))) /\
  (dict_wf (devices l) -> dict_wf (devices m)).
Proof.
  unfold fan_in_two_contexts. intros H Hd Hm. res_inv. split_and!.
  - done.
  - intros i. by apply dget_dupdate.
  - intros k. by apply merge_metadata_fan_out_lookup.
  - by apply dupdate_wf.
Qed.

(** The fan-in as a left fold over the children, one key at a time. *)
Lemma merge_fan_out_fold own base others m :
  merge_fan_out_contexts own (base :: others) = Ok m -> Forall context_wf (base :: others) ->
  (forall c, c ∈ base :: others -> same_invariants c m) /\
  (forall k, dget k (metadata m) =
     foldl (fan_in_option own k) (dget k (metadata base)) ((fun c => dget k (metadata c)) <$> others)) /\
  (forall i, dget i (devices m) =
     foldl (fun a b => match b with Some d => Some d | None => a end)
       (dget i (devices base)) ((fun c => dget i (devices c)) <$> others)).
Proof.
  cbn [merge_fan_out_contexts]. intros H Hwf. apply Forall_cons in Hwf as [_ Hwf].
  revert base H. induction others as [|o others IH]; intros base; cbn [foldM].
  - intros [= <-]. split_and!; [|done|done]. by intros c ->%list_elem_of_singleton.
  - apply Forall_cons in Hwf as [Ho Hwf].
    pose proof (assert_same_invariants_spec base o) as Hi.
    destruct (assert_same_invariants base o); cbn [mbind res_bind]; [|done].
    destruct (fan_in_two_contexts own base o) as [m1|] eqn:H1; [|done]. intros H.
    apply fan_in_two_spec in H1 as (Hs & Hd & Hm & _); [|apply Ho..].
    destruct (IH Hwf m1 H) as (Hinv & Hmeta & Hdev). cbn [fmap list_fmap foldl]. split_and!.
    + assert (Hm1 : same_invariants m1 m) by (apply Hinv; by left).
      intros c [->|[->|Hc]%elem_of_cons]%elem_of_cons; [by eapply same_invariants_trans| |apply Hinv; by right].
      eapply same_invariants_trans; [by apply same_invariants_sym|]. by eapply same_invariants_trans.
    + intros k. by rewrite Hmeta, Hm.
    + intros i. by rewrite Hdev, Hd.
Qed.

Lemma fan_in_own_counter own k zs z :
  is_own own k = true -> has_summed_suffix k = true ->
  foldl (fan_in_option own k) (Some (JInt z)) ((fun z => Some (JInt z)) <$> zs) = Some (JInt (foldr Z.add z zs)).
Proof.
  intros Ho Hs. revert z. induction zs as [|y zs IH]; intros z; [done|].
  cbn [fmap list_fmap foldl fan_in_option foldr]. unfold fan_in_value. rewrite Ho, Hs. cbn [is_count andb orb count_of].
  rewrite IH. do 2 f_equal. clear. induction zs as [|x zs IH]; simpl; lia.
Qed.

Lemma last_device (l : list (option DeviceContext)) a d :
  (forall d1 d2, Some d1 ∈ a :: l -> Some d2 ∈ a :: l -> d1 = d2) ->
  foldl (fun a b => match b with Some d => Some d | None => a end) a l = Some d <-> Some d ∈ a :: l.
Proof.
  revert a. induction l as [|b l IH]; intros a Huniq; cbn [foldl].
  - rewrite list_elem_of_singleton. naive_solver.
  - rewrite IH.
    + rewrite !elem_of_cons. destruct b as [e|]; [|naive_solver]. split; [naive_solver|].
      intros [<-|Hd]; [left; f_equal; apply Huniq; [by left|right; by left]|naive_solver].
    + intros d1 d2 H1 H2. apply Huniq; rewrite !elem_of_cons in *; destruct b; naive_solver.
Qed.

(** C16. Fan-in loses and invents nothing.  When the children worked on
    disjoint devices, the merged context holds exactly their devices, each as
    its child left it; a counter that every child reports for the node whose
    result is being merged is the sum over the children; and the run, workflow
    and schema are those of every child. *)
Theorem fan_in_totals own cs m :
  cs ≠ [] -> Forall context_wf cs -> merge_fan_out_contexts (Some own) cs = Ok m ->
  (forall c, c ∈ cs -> same_invariants c m) /\
  ((forall i c c' d d', c ∈ cs -> c' ∈ cs -> dget i (devices c) = Some d -> dget i (devices c') = Some d' -> c = c') ->
   forall i d, dget i (devices m) = Some d <-> exists c, c ∈ cs /\ dget i (devices c) = Some d) /\
  (forall k count, is_own (Some own) k = true -> has_summed_suffix k = true ->
     (forall c, c ∈ cs -> dget k (metadata c) = Some (JInt (count c))) ->
     dget k (metadata m) = Some (JInt (foldr Z.add 0%Z (count <$> cs)))).
Proof.
  destruct cs as [|base others]; [done|intros _ Hwf Hm].
  destruct (merge_fan_out_fold _ _ _ _ Hm Hwf) as (Hinv & Hmeta & Hdev). split_and!; [done| |].
  - intros Hdisj i d. rewrite Hdev.
    assert (Hin : forall d, Some d ∈ dget i (devices base) :: ((fun c => dget i (devices c)) <$> others) <->
                            exists c, c ∈ base :: others /\ dget i (devices c) = Some d).
    { intros d'. change (Some d' ∈ (fun c => dget i (devices c)) <$> base :: others <->
                           exists c, c ∈ base :: others /\ dget i (devices c) = Some d').
      rewrite list_elem_of_fmap. naive_solver. }
    rewrite last_device; [apply Hin|]. intros d1 d2 (c1 & Hc1 & H1)%Hin (c2 & Hc2 & H2)%Hin.
    assert (c1 = c2) as -> by (by eapply (Hdisj i)). congruence.
  - intros k count Ho Hs Hall. rewrite Hmeta.
    rewrite (Hall base) by (by left).
    rewrite (list_fmap_ext _ ((fun z => Some (JInt z)) ∘ count)).
    + rewrite list_fmap_compose, fan_in_own_counter by done. do 2 f_equal. cbn [fmap list_fmap foldr].
      generalize (count <$> others). intros zs. induction zs as [|x zs IH]; simpl; lia.
    + intros j c Hc. apply Hall. right. by apply list_elem_of_lookup_2 in Hc.
Qed.

(** Children of one fan-out, each with its own device and counters. *)
Definition child_context (i : string) (counters : dict json) : WorkflowContext :=
  Workflow "run1" "wf1" 2 [(i, sample_device [] [] ∅ OK)] [] counters.

Lemma child_context_wf i k z : context_wf (child_context i [(k, z)]).
Proof.
  split; cbn [devices pending_commands metadata child_context]; try exact dict_wf_nil; try (by apply NoDup_singleton).
  - intros j d. cbn [dget]. case_decide; intros; simplify_eq. apply sample_device_wf, dict_wf_nil.
  - done.
Qed.

Lemma child_counter i k v : dget k (metadata (child_context i [(k, v)])) = Some v.
Proof. cbn [metadata child_context dget]. by rewrite decide_True. Qed.

Lemma fan_in_totals_witness :
  exists m, merge_fan_out_contexts (Some "ping") [child_context "d1" [("ping.total", JInt 3)];
                                                 child_context "d2" [("ping.total", JInt 3)]] = Ok m /\
    dget "ping.total" (metadata m) = Some (JInt 6).
Proof.
  eexists. split; [reflexivity|].
  refine (proj2 (proj2 (fan_in_totals "ping" [child_context "d1" [("ping.total", JInt 3)];
    child_context "d2" [("ping.total", JInt 3)]] _ (not_eq_sym (@nil_cons _ _ _)) _ eq_refl)) "ping.total" (fun _ => 3%Z) eq_refl eq_refl _).
  - apply Forall_cons. split; [|apply Forall_singleton]; apply child_context_wf.
  - intros c [->| ->%list_elem_of_singleton]%elem_of_cons; reflexivity.
Defined.

(** The value of a counter of another node, after one more child: children that
    report the value reached so far are not counted. *)
Definition foreign_add (acc n : Z) : Z := if (acc =? n)%Z then acc else (acc + n)%Z.

Lemma fan_in_foreign_counter own k zs z :
  is_own own k = false -> has_summed_suffix k = true ->
  foldl (fan_in_option own k) (Some (JInt z)) ((fun z => Some (JInt z)) <$> zs) = Some (JInt (foldl foreign_add z zs)).
Proof.
  intros Ho Hs. revert z. induction zs as [|y zs IH]; intros z; [done|].
  cbn [fmap list_fmap foldl fan_in_option]. unfold fan_in_value. rewrite Ho, Hs. cbn [is_count is_count_dict andb orb count_of].
  rewrite !andb_false_r. unfold foreign_add at 2. 
  assert (py_eq (JInt z) (JInt y) = (z =? y)%Z) as -> by (apply Bool.eq_iff_eq_true; by rewrite py_eq_int, Z.eqb_eq).
  destruct (z =? y)%Z; cbn [negb]; apply IH.
Qed.

Lemma fan_in_foreign_fold own k base others m count :
  is_own own k = false -> has_summed_suffix k = true ->
  Forall context_wf (base :: others) -> merge_fan_out_contexts own (base :: others) = Ok m ->
  (forall c, c ∈ base :: others -> dget k (metadata c) = Some (JInt (count c))) ->
  dget k (metadata m) = Some (JInt (foldl foreign_add (count base) (count <$> others))).
Proof.
  intros Ho Hs Hwf Hm Hall. destruct (merge_fan_out_fold _ _ _ _ Hm Hwf) as (_ & Hmeta & _).
  rewrite Hmeta, (Hall base) by (by left).
  rewrite (list_fmap_ext _ ((fun z => Some (JInt z)) ∘ count)); [by rewrite list_fmap_compose, fan_in_foreign_counter|].
  intros j c Hc. apply Hall. right. by apply list_elem_of_lookup_2 in Hc.
Qed.

(** C37. A counter of a node other than the one being merged is not the sum over
    the children: each child adds its value unless that equals the value reached
    so far, in which case it adds nothing.  So the merged value depends on the
    order of the children: with two that report one value and a third that reports
    another, none of them zero, it is not the same when the third comes last as
    when it comes second. *)
Theorem fan_in_foreign_counter_order own (k : string) :
  is_own own k = false -> has_summed_suffix k = true ->
  (forall base others m count, Forall context_wf (base :: others) -> merge_fan_out_contexts own (base :: others) = Ok m ->
     (forall c, c ∈ base :: others -> dget k (metadata c) = Some (JInt (count c))) ->
     dget k (metadata m) = Some (JInt (foldl foreign_add (count base) (count <$> others)))) /\
  (forall x y z m m' a b, Forall context_wf [x; y; z] ->
     merge_fan_out_contexts own [x; y; z] = Ok m -> merge_fan_out_contexts own [x; z; y] = Ok m' ->
     dget k (metadata x) = Some (JInt a) -> dget k (metadata y) = Some (JInt a) -> dget k (metadata z) = Some (JInt b) ->
     a ≠ b -> a ≠ 0%Z -> b ≠ 0%Z -> dget k (metadata m) ≠ dget k (metadata m')).
Proof.
  intros Ho Hs. split; [by intros; apply (fan_in_foreign_fold own)|].
  intros x y z m m' a b Hwf Hm Hm' Hx Hy Hz Hab Ha Hb.
  destruct (merge_fan_out_fold _ _ _ _ Hm Hwf) as (_ & Hk & _).
  destruct (merge_fan_out_fold own x [z; y] m' Hm') as (_ & Hk' & _).
  { by rewrite !Forall_cons in *; tauto. }
  rewrite Hk, Hk'. cbn [fmap list_fmap]. rewrite Hx, Hy, Hz.
  pose proof (fan_in_foreign_counter own k [a; b] a Ho Hs) as H1. pose proof (fan_in_foreign_counter own k [b; a] a Ho Hs) as H2.
  cbn [fmap list_fmap] in H1, H2. rewrite H1, H2. cbn [foldl]. unfold foreign_add.
  rewrite Z.eqb_refl. destruct (Z.eqb_spec a b); [done|]. destruct (Z.eqb_spec (a + b) a); [lia|]. intros [= He]. lia.
Qed.

Lemma fan_in_foreign_counter_order_witness :
  let c n := child_context "d" [("ping.total", JInt n)] in
  exists m m', merge_fan_out_contexts (Some "join") [c 1%Z; c 1%Z; c 2%Z] = Ok m /\
    merge_fan_out_contexts (Some "join") [c 1%Z; c 2%Z; c 1%Z] = Ok m' /\
    dget "ping.total" (metadata m) = Some (JInt 3) /\ dget "ping.total" (metadata m) ≠ dget "ping.total" (metadata m').
Proof.
  intros c. eexists. eexists. split; [reflexivity|]. split; [reflexivity|]. split; [reflexivity|].
  refine (proj2 (fan_in_foreign_counter_order (Some "join") "ping.total" eq_refl eq_refl)
    (c 1%Z) (c 1%Z) (c 2%Z) _ _ 1%Z 2%Z _ eq_refl eq_refl eq_refl eq_refl eq_refl _ _ _); try discriminate.
  repeat (apply Forall_cons; split; [apply child_context_wf|]). apply Forall_nil. exact I.
Defined.
