(* ===== verification/Guards.v ===== *)
(** * Capability guards ([backend/services/workflow_context/guards.py])

    The contract a step declares in the plugin registry, checked on the
    context it receives and on the outcome it returns. *)
From S2P Require Import Prelude Dict Json Registry Context.

Record StepCapabilitySpec := Spec {
  step_id : string;
  spec_requires : gset Capability;
  spec_produces : gset Capability;
  spec_consumes : gset Capability;
  spec_requires_parsed : gset string
}.

(** [frozenset(Capability(value) for value in values)] *)
Definition capability_set (values : list string) : res (gset Capability) :=
  foldM (fun (s : gset Capability) v => c ← Capability_of v; Ok ({[c]} ∪ s)) ∅ values.

(** [services/workflow_context/registry.py] *)
Definition capability_spec_from_plugin (plugin : PluginDefinition) : res StepCapabilitySpec :=
  req ← capability_set (requires plugin);
  prod ← capability_set (produces plugin);
  cons ← capability_set (consumes plugin);
  Ok (Spec (plugin_id plugin) req prod cons (list_to_set (requires_parsed plugin))).

Definition is_failed (d : DeviceContext) : bool := bool_decide (status d = FAILED).

(** [(before := input_context.devices.get(device_id)) is not None and before.status != FAILED] *)
Definition arrived_healthy (input : WorkflowContext) (i : string) : bool :=
  match dget i (devices input) with Some before => negb (is_failed before) | None => false end.

Definition newly_failed (input success : WorkflowContext) : list string :=
  (filter (fun kv => is_failed kv.2 && arrived_healthy input kv.1 = true) (devices success)).*1.

Definition assert_no_newly_failed_on_success (sid : string) (input : WorkflowContext) (outcomes : list StepOutcome)
    : res unit :=
  match find_outcome "success" outcomes with
  | None => Ok tt
  | Some success =>
      match newly_failed input (so_context success) with
      | [] => Ok tt
      | first :: _ =>
          Raise (RuntimeError "Step {step_id} returned newly failed device(s) on 'success'" [sid; first])
      end
  end.

Definition pre_step_guard (spec : StepCapabilitySpec) (context : WorkflowContext) : res unit :=
  match devices context with
  | [] => Ok tt
  | _ =>
      let missing_capabilities := spec_requires spec ∖ provided_capabilities context in
      if decide (missing_capabilities ≠ ∅)
      then Raise (ValueError "Step {spec.step_id}: missing required capabilities {missing_capabilities}"
             (step_id spec :: (capability_value <$> elements missing_capabilities)))
      else
        let missing_parsed_keys := spec_requires_parsed spec ∖ provided_parsed_keys context in
        if decide (missing_parsed_keys ≠ ∅)
        then Raise (ValueError "Step {spec.step_id}: missing required parsed keys {missing_parsed_keys}"
               (step_id spec :: elements missing_parsed_keys))
        else Ok tt
  end.

Definition LEGACY_ATTRIBUTE_KEYS : list string :=
  ["mode"; "destination_path"; "fixed_value"; "source_path"; "pattern"; "destination_template"; "regex_flags"].

(** [str(entry.get("mode", "fixed")).strip().lower() == "fixed"]: no value that
    is not a string prints as ["fixed"]. *)
Definition is_fixed_entry (entry : json) : bool :=
  match entry with
  | JDict d =>
      match dget "mode" d with
      | None => true
      | Some (JStr s) => bool_decide (lower (strip s) = "fixed")
      | Some _ => false
      end
  | _ => false
  end.

Definition update_attribute_has_guaranteed_write (config : dict json) : bool :=
  let entries :=
    match dget "attributes" config with
    | Some (JList l) => l
    | _ => if existsb (fun k => dmem k config) LEGACY_ATTRIBUTE_KEYS then [JDict config] else []
    end in
  existsb is_fixed_entry entries.

(** [str(config.get("config_format") or "both").strip().lower()]; a value that
    is not a string prints as neither of the two formats tested. *)
Definition config_format (config : dict json) : string :=
  match dget "config_format" config with
  | Some (JStr s) => if decide (s = "") then "both" else lower (strip s)
  | _ => "both"
  end.

Definition PER_DEVICE_ATTRIBUTE_STEPS : list string := ["get-ise-tacacs-key"; "add-to-ise"].

Definition effective_produces (spec : StepCapabilitySpec) (step_type : string) (config : dict json)
    : gset Capability :=
  if decide (step_type = "get-device-configs") then
    if decide (config_format config = "running") then {[RUNNING_CONFIG]}
    else if decide (config_format config = "startup") then {[STARTUP_CONFIG]}
    else {[RUNNING_CONFIG; STARTUP_CONFIG]}
  else if decide (step_type = "render-jinja-template") then {[PARSED]}
  else if decide (step_type = "update-attribute") then
    if update_attribute_has_guaranteed_write config then {[ATTRIBUTES]} else ∅
  else if decide (step_type ∈ ["encrypt-attribute"; "decrypt-attribute"]) then ∅
  else if decide (step_type ∈ PER_DEVICE_ATTRIBUTE_STEPS) then ∅
  else if decide (step_type ∈ ["run-command"; "run-catalyst-center-command"]) then ∅
  else spec_produces spec.

(** The body of [post_step_guard]'s loop. *)
Definition check_touched (spec : StepCapabilitySpec) (produces : gset Capability) (i : string) (d : DeviceContext)
    : res unit :=
  if decide (produces ∖ capabilities d ≠ ∅)
  then Raise (RuntimeError "Step {spec.step_id} expected produces={set(produces)} but device {device_id} is missing"
         [step_id spec; i])
  else if decide (spec_consumes spec ∩ capabilities d ≠ ∅)
  then Raise (RuntimeError "Step {spec.step_id} declared consumes={set(spec.consumes)} but device {device_id} still has"
         [step_id spec; i])
  else Ok tt.

(** [set(success.devices) & set(input.devices)], in the success outcome's order *)
Definition touched (input success : WorkflowContext) : dict DeviceContext :=
  filter (fun kv => dmem kv.1 (devices input) = true) (devices success).

Definition post_step_guard (spec : StepCapabilitySpec) (input : WorkflowContext) (outcomes : list StepOutcome)
    (expected_produces : option (gset Capability)) : res unit :=
  assert_no_newly_failed_on_success (step_id spec) input outcomes ≫= fun _ =>
  let produces := default (spec_produces spec) expected_produces in
  match find_outcome "success" outcomes with
  | None => Ok tt
  | Some success =>
      foldM (fun _ kv => check_touched spec produces kv.1 kv.2) tt (touched input (so_context success))
  end.

(** * Facts *)

Lemma difference_empty_sub {A} `{Countable A} (X Y : gset A) : X ∖ Y = ∅ <-> X ⊆ Y.
Proof.
  split; intros Hs; [|set_solver]. intros x Hx. destruct (decide (x ∈ Y)); [done|]. set_solver.
Qed.

Lemma pre_step_guard_ok spec c :
  pre_step_guard spec c = Ok tt <->
  forall i d, (i, d) ∈ devices c ->
    spec_requires spec ⊆ capabilities d /\ (forall k, k ∈ spec_requires_parsed spec -> k ∈ dkeys (parsed d)).
Proof.
  unfold pre_step_guard. pose proof (fun cap => elem_of_provided_capabilities c cap) as Hc.
  pose proof (fun k Hne => elem_of_provided_parsed_keys c k Hne) as Hk.
  destruct (devices c) as [|kv ds] eqn:Hd; [split; [intros _ i d ?%not_elem_of_nil; done|done]|].
  rewrite <- Hd in *.
  assert (Hne : devices c ≠ []) by (by rewrite Hd). specialize (fun k => Hk k Hne).
  assert (Hreq : spec_requires spec ∖ provided_capabilities c = ∅ <->
    forall i d, (i, d) ∈ devices c -> spec_requires spec ⊆ capabilities d).
  { rewrite difference_empty_sub. split.
    - intros Hs i d Hin cap Hcap. apply (proj1 (Hc cap) (Hs _ Hcap) i d Hin).
    - intros Hs cap Hcap. apply Hc. intros i d Hin. by apply (Hs i d Hin). }
  assert (Hpar : spec_requires_parsed spec ∖ provided_parsed_keys c = ∅ <->
    forall i d, (i, d) ∈ devices c -> forall k, k ∈ spec_requires_parsed spec -> k ∈ dkeys (parsed d)).
  { rewrite difference_empty_sub. split.
    - intros Hs i d Hin k Hkk. apply (proj1 (Hk k) (Hs _ Hkk) i d Hin).
    - intros Hs k Hkk. apply Hk. intros i d Hin. by apply (Hs i d Hin). }
  case_decide as H1; [|case_decide as H2].
  - split; [done|]. intros Hall. exfalso. apply H1, Hreq. intros i d Hin. by apply (Hall i d).
  - split; [done|]. intros Hall. exfalso. apply H2, Hpar. intros i d Hin. by apply (Hall i d).
  - split; [|done]. intros _ i d Hin. split; [by eapply Hreq|by eapply Hpar].
Qed.

Lemma pre_step_guard_error spec c e : pre_step_guard spec c = Raise e -> is_value_error e = true.
Proof.
  unfold pre_step_guard. destruct (devices c); [done|]. repeat case_decide; intros; by simplify_eq.
Qed.

Lemma newly_failed_nil input success :
  newly_failed input success = [] <->
  forall i d before, (i, d) ∈ devices success -> dget i (devices input) = Some before ->
    status d = FAILED -> status before = FAILED.
Proof.
  assert (Hcond : forall i d, is_failed d && arrived_healthy input i = true <->
    exists before, dget i (devices input) = Some before /\ status d = FAILED /\ status before ≠ FAILED).
  { intros i d. unfold is_failed, arrived_healthy, is_failed. rewrite andb_true_iff, bool_decide_eq_true.
    destruct (dget i (devices input)); rewrite ?negb_true_iff, ?bool_decide_eq_false; naive_solver. }
  unfold newly_failed. split.
  - intros Hnil i d before Hin Hb Hf. destruct (decide (status before = FAILED)) as [|Hn]; [done|]. exfalso.
    apply fmap_nil_inv in Hnil. apply (not_elem_of_nil (i, d)). rewrite <- Hnil.
    apply list_elem_of_filter. split; [|done]. apply Hcond. by exists before.
  - intros Hall. destruct (filter _ _) as [|[i d] rest] eqn:Hfil; [done|]. exfalso.
    assert (Hin : (i, d) ∈ (i, d) :: rest) by (by left). rewrite <- Hfil in Hin.
    apply list_elem_of_filter in Hin as [(before & Hb & Hf & Hn)%Hcond Hin]. by eapply Hn, Hall.
Qed.

Lemma check_touched_ok spec produces i d :
  check_touched spec produces i d = Ok tt <->
  produces ⊆ capabilities d /\ spec_consumes spec ## capabilities d.
Proof.
  unfold check_touched. case_decide as H1; [|case_decide as H2].
  - split; [done|]. intros [Hs _]. exfalso. by apply H1, difference_empty_sub.
  - split; [done|]. intros [_ Hdis]. exfalso. apply H2. set_solver.
  - split; [|done]. intros _. split; [by apply difference_empty_sub|set_solver].
Qed.

Lemma post_step_guard_ok spec input outcomes exp :
  post_step_guard spec input outcomes exp = Ok tt <->
  forall success, find_outcome "success" outcomes = Some success ->
    (forall i d before, (i, d) ∈ devices (so_context success) -> dget i (devices input) = Some before ->
       (status d = FAILED -> status before = FAILED) /\
       default (spec_produces spec) exp ⊆ capabilities d /\ spec_consumes spec ## capabilities d).
Proof.
  unfold post_step_guard, assert_no_newly_failed_on_success.
  destruct (find_outcome "success" outcomes) as [s|]; [|by split].
  set (prod := default (spec_produces spec) exp).
  pose proof (newly_failed_nil input (so_context s)) as Hnf.
  assert (Htouched : forall i d, (i, d) ∈ touched input (so_context s) <->
    (i, d) ∈ devices (so_context s) /\ is_Some (dget i (devices input))).
  { intros i d. unfold touched. rewrite list_elem_of_filter. cbn [fst]. rewrite dmem_spec. tauto. }
  assert (Hloop : foldM (fun _ kv => check_touched spec prod kv.1 kv.2) tt (touched input (so_context s)) = Ok tt <->
    forall i d, (i, d) ∈ touched input (so_context s) -> prod ⊆ capabilities d /\ spec_consumes spec ## capabilities d).
  { clear. induction (touched input (so_context s)) as [|[i d] l IH]; cbn [foldM fst snd].
    - split; [|done]. by intros _ i d ?%not_elem_of_nil.
    - destruct (check_touched spec prod i d) as [[]|e] eqn:Hct.
      + apply check_touched_ok in Hct. rewrite IH. setoid_rewrite elem_of_cons. naive_solver.
      + split; [done|]. intros Hall. assert (Hct' : check_touched spec prod i d = Ok tt); [|congruence].
        apply check_touched_ok, (Hall i). by left. }
  destruct (newly_failed input (so_context s)) as [|f fs]; cbn [mbind res_bind].
  - rewrite Hloop. split.
    + intros Hl ? [= <-] i d before Hin Hb. split; [intros; by eapply (proj1 Hnf)|].
      apply (Hl i). apply Htouched. eauto.
    + intros Hl i d [Hin [before Hb]]%Htouched. by apply (Hl s eq_refl i d before).
  - split; [done|]. intros Hl. exfalso. assert (f :: fs = []); [|done]. apply Hnf.
    intros i d before Hin Hb Hf. by apply (Hl s eq_refl i d before).
Qed.

Lemma check_touched_error spec produces i d e :
  check_touched spec produces i d = Raise e -> is_runtime_error e = true.
Proof. unfold check_touched. repeat case_decide; intros; by simplify_eq. Qed.

Lemma post_step_guard_error spec input outcomes exp e :
  post_step_guard spec input outcomes exp = Raise e -> is_runtime_error e = true.
Proof.
  unfold post_step_guard, assert_no_newly_failed_on_success.
  destruct (find_outcome "success" outcomes) as [s|]; [|done].
  destruct (newly_failed input (so_context s)); cbn [mbind res_bind]; [|intros; by simplify_eq].
  induction (touched input (so_context s)) as [|[i d] l IH]; cbn [foldM fst snd]; [done|].
  destruct (check_touched _ _ i d) as [[]|e'] eqn:Hct; [done|].
  intros [= <-]. by eapply check_touched_error.
Qed.

(** C17. The guards check exactly the declared contract.  [pre_step_guard]
    passes a context if and only if every device in it has every required
    capability and every required parser key, and otherwise raises a
    [ValueError].  [post_step_guard] passes a step's outcomes if and only if on
    the success outcome every device that came in is not newly failed, has
    everything the step must produce and nothing it consumes; otherwise it
    raises a [RuntimeError]. *)
Theorem guards_exact spec context outcomes expected :
  (pre_step_guard spec context = Ok tt <->
     forall i d, (i, d) ∈ devices context ->
       spec_requires spec ⊆ capabilities d /\
       (forall k, k ∈ spec_requires_parsed spec -> k ∈ dkeys (parsed d))) /\
  (forall e, pre_step_guard spec context = Raise e -> is_value_error e = true) /\
  (post_step_guard spec context outcomes expected = Ok tt <->
     forall success, find_outcome "success" outcomes = Some success ->
     forall i d before, (i, d) ∈ devices (so_context success) -> dget i (devices context) = Some before ->
       (status d = FAILED -> status before = FAILED) /\
       default (spec_produces spec) expected ⊆ capabilities d /\ spec_consumes spec ## capabilities d) /\
  (forall e, post_step_guard spec context outcomes expected = Raise e -> is_runtime_error e = true).
Proof.
  split_and!; [apply pre_step_guard_ok|apply pre_step_guard_error|apply post_step_guard_ok|apply post_step_guard_error].
Qed.

(** Contracts compose.  When a step passed its post-guard and returned on
    its success outcome only devices it was given, the next step's pre-guard
    can fail only on capabilities the first one was not bound to produce (or
    on parser keys): if what the next step requires is among what the first
    must produce, and it needs no parser key, its guard passes. *)
Theorem guards_compose spec next input outcomes expected success :
  post_step_guard spec input outcomes expected = Ok tt ->
  find_outcome "success" outcomes = Some success ->
  (forall i d, (i, d) ∈ devices (so_context success) -> is_Some (dget i (devices input))) ->
  spec_requires next ⊆ default (spec_produces spec) expected ->
  spec_requires_parsed next = ∅ ->
  pre_step_guard next (so_context success) = Ok tt.
Proof.
  intros Hpost Hs Hin Hsub Hnone. apply pre_step_guard_ok. intros i d Hd.
  destruct (Hin i d Hd) as [before Hb].
  destruct (proj1 (post_step_guard_ok spec input outcomes expected) Hpost success Hs i d before Hd Hb) as (_ & Hp & _).
  split; [set_solver|]. rewrite Hnone. set_solver.
Qed.

Definition plain_device (caps : gset Capability) (st : DeviceStatus) : DeviceContext :=
  Device "d1" "sw1" "sw1" None None None "nautobot" "u1" [] None None [] [] [] [] caps st [].
Definition plain_context (caps : gset Capability) : WorkflowContext :=
  Workflow "run1" "wf1" 2 [("d1", plain_device caps OK)] [] [].

Lemma guards_compose_witness :
  let spec := Spec "get-device-configs" {[IDENTITY]} ∅ ∅ ∅ in
  let outcomes := [Outcome "success" (plain_context {[IDENTITY; RUNNING_CONFIG]}) None None] in
  post_step_guard spec (plain_context {[IDENTITY]}) outcomes
    (Some (effective_produces spec "get-device-configs" [("config_format", JStr " Running ")])) = Ok tt /\
  pre_step_guard (Spec "store" {[RUNNING_CONFIG]} ∅ ∅ ∅) (plain_context {[IDENTITY; RUNNING_CONFIG]}) = Ok tt.
Proof.
  intros spec outcomes.
  assert (Hpost : post_step_guard spec (plain_context {[IDENTITY]}) outcomes
    (Some (effective_produces spec "get-device-configs" [("config_format", JStr " Running ")])) = Ok tt)
    by (vm_compute; reflexivity).
  split; [exact Hpost|].
  refine (guards_compose spec (Spec "store" {[RUNNING_CONFIG]} ∅ ∅ ∅) (plain_context {[IDENTITY]}) outcomes _
    (Outcome "success" (plain_context {[IDENTITY; RUNNING_CONFIG]}) None None) Hpost _ _ _ _).
  - reflexivity.
  - intros i d Hin. cbn in Hin. apply list_elem_of_singleton in Hin. injection Hin as -> _.
    exists (plain_device {[IDENTITY]} OK). reflexivity.
  - vm_compute. set_solver.
  - reflexivity.
Defined.
