(* ===== verification/RunStore.v ===== *)
(** * The run tables ([backend/repositories/run_repository.py])

    The persisted state of the execution engine: workflow runs, step results
    and device groups ([core/models/runs.py]), and every operation of the
    repository that writes them.  Each operation is one committed transaction,
    so an interleaving of workers, operators and the reaper is a sequence of
    these operations.  [now] is the clock reading an operation takes; row ids
    are natural numbers handed out in order. *)
From S2P Require Import Prelude Dict Json Context.

Inductive run_status := R_pending | R_running | R_paused | R_success | R_failed | R_cancelled.

#[export] Instance run_status_eq_dec : EqDecision run_status.
Proof. solve_decision. Defined.

(** [TERMINAL_RUN_STATUSES], [_ACTIVE_RUN_STATUSES], [_TERMINAL_STEP_STATUSES] *)
Definition TERMINAL_RUN_STATUSES : list run_status := [R_success; R_failed; R_cancelled].
Definition ACTIVE_RUN_STATUSES : list run_status := [R_pending; R_running; R_paused].
Definition TERMINAL_STEP_STATUSES : list step_status := [S_success; S_failed; S_skipped].

Definition terminal (s : run_status) : bool := bool_decide (s ∈ TERMINAL_RUN_STATUSES).
Definition active (s : run_status) : bool := bool_decide (s ∈ ACTIVE_RUN_STATUSES).

Record WorkflowRun := Run {
  uuid : string;
  run_workflow_id : nat;
  triggered_by_id : option nat;
  rstatus : run_status;
  trigger_type : string;
  current_node_id : option string;
  debug_message : option string;
  approval_state : option json;
  device_ids : list string;
  run_inputs : dict json;
  hatchet_run_id : option string;
  change_request_id : option nat;
  parent_run_id : option nat;
  ancestor_workflow_ids : option (list nat);
  ai_result_node_id : option string;
  error_message : option string;
  error_category : option string;
  error_id : option string;
  started_at : option Z;
  finished_at : option Z;
  run_created_at : Z
}.

Record WorkflowStepResult := StepRow {
  step_type : string;
  step_name : string;
  sstatus : step_status;
  s_started_at : option Z;
  s_finished_at : option Z;
  s_output : option json;
  s_error_message : option string;
  s_error_category : option string;
  s_error_id : option string;
  s_failure : option json
}.

Inductive group_status := G_pending | G_running | G_success | G_partial | G_failed.

#[export] Instance group_status_eq_dec : EqDecision group_status.
Proof. solve_decision. Defined.

Record WorkflowRunDeviceGroup := Group {
  device_names : list string;
  gstatus : group_status;
  node_states : dict string;
  g_error_message : option string;
  g_started_at : option Z;
  g_finished_at : option Z
}.

(** The tables.  Step rows are keyed by (run, node): the unique index
    [uq_step_results_run_node]; device groups by (run, child index). *)
Record tables := Tables {
  runs : gmap nat WorkflowRun;
  steps : gmap (nat * string) WorkflowStepResult;
  groups : gmap (nat * nat) WorkflowRunDeviceGroup;
  next_id : nat
}.

Definition set_runs (db : tables) (r : gmap nat WorkflowRun) : tables := Tables r (steps db) (groups db) (next_id db).
Definition set_steps (db : tables) (s : gmap (nat * string) WorkflowStepResult) : tables :=
  Tables (runs db) s (groups db) (next_id db).
Definition set_groups (db : tables) (g : gmap (nat * nat) WorkflowRunDeviceGroup) : tables :=
  Tables (runs db) (steps db) g (next_id db).

(** ** Runs *)

Definition create_run (now : Z) (new_uuid : string) (workflow : nat) (user : option nat) (trigger : string)
    (devs : list string) (inputs : dict json) (parent : option nat) (ancestors : option (list nat))
    (db : tables) : nat * tables :=
  let r := Run new_uuid workflow user R_pending trigger None None None devs inputs None None parent ancestors
             None None None None None None now in
  (next_id db, Tables (<[next_id db := r]> (runs db)) (steps db) (groups db) (S (next_id db))).

Definition list_children (parent : nat) (db : tables) : list nat :=
  (filter (fun p => parent_run_id p.2 = Some parent) (map_to_list (runs db))).*1.

(** The [fields] mapping of an update: the columns it sets ([Some None] sets
    the approval state to null). *)
Record run_fields := Fields {
  f_hatchet_run_id : option string;
  f_error_message : option string;
  f_error_category : option string;
  f_error_id : option string;
  f_started_at : option Z;
  f_finished_at : option Z;
  f_current_node_id : option string;
  f_debug_message : option string;
  f_approval_state : option (option json)
}.
Definition no_fields : run_fields := Fields None None None None None None None None None.

Definition or_keep {A} (new old : option A) : option A := match new with Some _ => new | None => old end.

(** [values = {**fields, "status": to_status}], and the two columns a terminal
    status clears. *)
Definition apply_run_values (to_status : run_status) (f : run_fields) (r : WorkflowRun) : WorkflowRun :=
  Run (uuid r) (run_workflow_id r) (triggered_by_id r) to_status (trigger_type r)
    (if terminal to_status then None else or_keep (f_current_node_id f) (current_node_id r))
    (or_keep (f_debug_message f) (debug_message r))
    (if terminal to_status then None else default (approval_state r) (f_approval_state f))
    (device_ids r) (run_inputs r)
    (or_keep (f_hatchet_run_id f) (hatchet_run_id r))
    (change_request_id r) (parent_run_id r) (ancestor_workflow_ids r) (ai_result_node_id r)
    (or_keep (f_error_message f) (error_message r))
    (or_keep (f_error_category f) (error_category r))
    (or_keep (f_error_id f) (error_id r))
    (or_keep (f_started_at f) (started_at r))
    (or_keep (f_finished_at f) (finished_at r))
    (run_created_at r).

(** [guard]: the given source statuses, or "not terminal". *)
Definition transition_guard (from_statuses : option (list run_status)) (s : run_status) : bool :=
  match from_statuses with Some l => bool_decide (s ∈ l) | None => negb (terminal s) end.

Definition transition_run (run : nat) (to_status : run_status) (from_statuses : option (list run_status))
    (f : run_fields) (db : tables) : bool * tables :=
  match runs db !! run with
  | Some r =>
      if transition_guard from_statuses (rstatus r)
      then (true, set_runs db (<[run := apply_run_values to_status f r]> (runs db)))
      else (false, db)
  | None => (false, db)
  end.

Definition record_hatchet_run_id (run : nat) (hatchet : string) (db : tables) : tables :=
  match runs db !! run with
  | Some r => set_runs db (<[run := Run (uuid r) (run_workflow_id r) (triggered_by_id r) (rstatus r) (trigger_type r)
      (current_node_id r) (debug_message r) (approval_state r) (device_ids r) (run_inputs r) (Some hatchet)
      (change_request_id r) (parent_run_id r) (ancestor_workflow_ids r) (ai_result_node_id r) (error_message r)
      (error_category r) (error_id r) (started_at r) (finished_at r) (run_created_at r)]> (runs db))
  | None => db
  end.

(** [update_run_status], with its [changed]: [clear_approval_state] only
    matters when no approval state is given. *)
Definition update_run_status (run : nat) (status : run_status) (f : run_fields) (clear_approval_state : bool)
    (db : tables) : bool * tables :=
  let fields := match f_approval_state f with
                | None => if clear_approval_state
                          then Fields (f_hatchet_run_id f) (f_error_message f) (f_error_category f) (f_error_id f)
                                 (f_started_at f) (f_finished_at f) (f_current_node_id f) (f_debug_message f) (Some None)
                          else f
                | Some _ => f
                end in
  transition_run run status None fields db.

(** Deleting a run: its step rows and device groups go with it
    ([ON DELETE CASCADE]), its children lose the link ([SET NULL]). *)
Definition clear_parent (deleted : nat) (r : WorkflowRun) : WorkflowRun :=
  if decide (parent_run_id r = Some deleted)
  then Run (uuid r) (run_workflow_id r) (triggered_by_id r) (rstatus r) (trigger_type r)
      (current_node_id r) (debug_message r) (approval_state r) (device_ids r) (run_inputs r) (hatchet_run_id r)
      (change_request_id r) None (ancestor_workflow_ids r) (ai_result_node_id r) (error_message r)
      (error_category r) (error_id r) (started_at r) (finished_at r) (run_created_at r)
  else r.

Definition delete_run (run : nat) (db : tables) : tables :=
  Tables (clear_parent run <$> delete run (runs db))
    (filter (fun p => p.1.1 ≠ run) (steps db))
    (filter (fun p => p.1.1 ≠ run) (groups db)) (next_id db).

Definition has_active_runs (workflow : nat) (db : tables) : bool :=
  existsb (fun p => bool_decide (run_workflow_id p.2 = workflow) && active (rstatus p.2)) (map_to_list (runs db)).

Definition list_active_runs_older_than (cutoff : Z) (db : tables) : list nat :=
  (filter (fun p => active (rstatus p.2) = true /\ (run_created_at p.2 < cutoff)%Z) (map_to_list (runs db))).*1.

(** [_finished_runs_older_than_filter] *)
Definition purgeable (cutoff : Z) (row : WorkflowRun) : Prop :=
  terminal (rstatus row) = true /\ (run_created_at row < cutoff)%Z.
#[export] Instance purgeable_dec cutoff row : Decision (purgeable cutoff row).
Proof. unfold purgeable. apply _. Defined.

(** One batch of [purge_finished_runs_older_than], and the loop.  Each batch
    deletes at least one run, so the number of runs is enough fuel. *)
Definition finished_older_than (cutoff : Z) (db : tables) : list nat :=
  merge_sort (≤)
    (filter (fun p => purgeable cutoff p.2) (map_to_list (runs db))).*1.

Fixpoint purge_loop (fuel : nat) (cutoff : Z) (batch_size : nat) (db : tables) (total : nat) : option (nat * tables) :=
  match take batch_size (finished_older_than cutoff db), fuel with
  | [], _ => Some (total, db)
  | _, 0 => None
  | batch, S fuel' => purge_loop fuel' cutoff batch_size (foldr delete_run db batch) (total + length batch)
  end.

Definition purge_finished_runs_older_than (cutoff : Z) (batch_size : nat) (db : tables) : option (nat * tables) :=
  purge_loop (size (runs db)) cutoff batch_size db 0.

(** ** Step results *)

Definition STEP_ROW_MESSAGE_MAX : nat := 4000.
Definition truncate (n : nat) (s : string) : string := String.substring 0 n s.

Definition new_step_row (type name : string) : WorkflowStepResult :=
  StepRow type name S_pending None None None None None None None.

(** [StepResultExistsError] is a [RuntimeError]. *)
Definition create_step_result (run : nat) (node type name : string) (db : tables) : res tables :=
  match steps db !! (run, node) with
  | Some _ => Raise (OtherError "StepResultExistsError")
  | None => Ok (set_steps db (<[(run, node) := new_step_row type name]> (steps db)))
  end.

Record step_fields := StepFields {
  sf_output : option json;
  sf_error_message : option string;
  sf_error_category : option string;
  sf_error_id : option string;
  sf_failure : option json;
  sf_started_at : option Z;
  sf_finished_at : option Z
}.
Definition no_step_fields : step_fields := StepFields None None None None None None None.

Definition apply_step_values (status : step_status) (f : step_fields) (s : WorkflowStepResult) : WorkflowStepResult :=
  StepRow (step_type s) (step_name s) status
    (or_keep (sf_started_at f) (s_started_at s)) (or_keep (sf_finished_at f) (s_finished_at s))
    (or_keep (sf_output f) (s_output s)) (or_keep (sf_error_message f) (s_error_message s))
    (or_keep (sf_error_category f) (s_error_category s)) (or_keep (sf_error_id f) (s_error_id s))
    (or_keep (sf_failure f) (s_failure s)).

Definition run_cancelled (run : nat) (db : tables) : bool :=
  match runs db !! run with Some r => bool_decide (rstatus r = R_cancelled) | None => false end.

(** The row is left as it is when it is closed and its run is cancelled. *)
Definition update_step_result (run : nat) (node : string) (status : step_status) (f : step_fields) (db : tables) : tables :=
  match steps db !! (run, node) with
  | Some s =>
      if bool_decide (sstatus s ∈ TERMINAL_STEP_STATUSES) && run_cancelled run db then db
      else set_steps db (<[(run, node) := apply_step_values status f s]> (steps db))
  | None => db
  end.

Definition finalise_step (now : Z) (message : string) (s : WorkflowStepResult) : WorkflowStepResult :=
  match sstatus s with
  | S_running => StepRow (step_type s) (step_name s) S_failed (s_started_at s) (Some now) (s_output s)
      (Some (truncate STEP_ROW_MESSAGE_MAX message)) (Some "internal") (s_error_id s) (s_failure s)
  | S_pending => StepRow (step_type s) (step_name s) S_skipped (s_started_at s) (Some now) (s_output s)
      (s_error_message s) (s_error_category s) (s_error_id s) (s_failure s)
  | _ => s
  end.

Definition finalise_open_step_results (now : Z) (run : nat) (message : string) (db : tables) : tables :=
  set_steps db (map_imap (fun k s => Some (if decide (k.1 = run) then finalise_step now message s else s)) (steps db)).

Definition get_step_results_for_run (run : nat) (db : tables) : gmap (nat * string) WorkflowStepResult :=
  filter (fun p => p.1.1 = run) (steps db).

(** ** Device groups *)

Definition create_device_groups (run : nat) (gs : list (nat * list string)) (db : tables) : tables :=
  foldl (fun d g => match groups db !! (run, g.1) with
                    | Some _ => d
                    | None => set_groups d (<[(run, g.1) := Group g.2 G_pending [] None None None]> (groups d))
                    end) db gs.

Definition update_group (run child : nat) (f : WorkflowRunDeviceGroup -> WorkflowRunDeviceGroup) (db : tables) : tables :=
  match groups db !! (run, child) with
  | Some g => set_groups db (<[(run, child) := f g]> (groups db))
  | None => db
  end.

Definition mark_device_group_started (now : Z) (run child : nat) : tables -> tables :=
  update_group run child (fun g => Group (device_names g) G_running (node_states g) (g_error_message g) (Some now) (g_finished_at g)).

Definition set_device_group_node_state (run child : nat) (node state : string) : tables -> tables :=
  update_group run child (fun g =>
    Group (device_names g) (gstatus g) (dset node state (node_states g)) (g_error_message g) (g_started_at g) (g_finished_at g)).

Definition finish_device_group (now : Z) (run child : nat) (status : group_status) (message : option string) : tables -> tables :=
  update_group run child (fun g =>
    Group (device_names g) status (node_states g) (or_keep message (g_error_message g)) (g_started_at g) (Some now)).

(** * Interleavings

    The writes of concurrent workers, operators and background jobs, in the
    order the database commits them. *)
Inductive db_op :=
  | Op_create_run (now : Z) (new_uuid : string) (workflow : nat) (user : option nat) (trigger : string)
      (devs : list string) (inputs : dict json) (parent : option nat) (ancestors : option (list nat))
  | Op_transition (run : nat) (to_status : run_status) (from_statuses : option (list run_status)) (f : run_fields)
  | Op_update_status (run : nat) (status : run_status) (f : run_fields) (clear : bool)
  | Op_record_hatchet (run : nat) (hatchet : string)
  | Op_finalise (now : Z) (run : nat) (message : string)
  | Op_create_step (run : nat) (node type name : string)
  | Op_update_step (run : nat) (node : string) (status : step_status) (f : step_fields)
  | Op_group (f : tables -> tables).

(** Whether a status change was applied ([false] for the other operations) and
    the new tables. *)
Definition exec_op (op : db_op) (db : tables) : bool * tables :=
  match op with
  | Op_create_run now u w us t ds i p a => (false, (create_run now u w us t ds i p a db).2)
  | Op_transition r s from f => transition_run r s from f db
  | Op_update_status r s f c => update_run_status r s f c db
  | Op_record_hatchet r h => (false, record_hatchet_run_id r h db)
  | Op_finalise now r m => (false, finalise_open_step_results now r m db)
  | Op_create_step r n t nm => (false, match create_step_result r n t nm db with Ok d => d | Raise _ => db end)
  | Op_update_step r n s f => (false, update_step_result r n s f db)
  | Op_group f => (false, set_groups db (groups (f db)))
  end.

Definition exec_ops (ops : list db_op) (db : tables) : tables := foldl (fun d op => (exec_op op d).2) db ops.

(** The transitions the program performs: explicit source statuses are active
    ones, except for the note written on a run that stays cancelled. *)
Definition lawful (op : db_op) : Prop :=
  match op with
  | Op_transition _ to_status (Some l) _ =>
      (forall s, s ∈ l -> active s = true) \/ (to_status = R_cancelled /\ l = [R_cancelled])
  | _ => True
  end.

(** ** Facts *)

Lemma active_terminal s : active s = negb (terminal s).
Proof. by destruct s. Qed.

Definition run_state (run : nat) (db : tables) : option run_status := rstatus <$> runs db !! run.

(** Ids are handed out in order. *)
Definition ids_fresh (db : tables) : Prop := forall r, is_Some (runs db !! r) -> r < next_id db.

Lemma transition_run_spec run to_status from f db b db' :
  transition_run run to_status from f db = (b, db') ->
  next_id db' = next_id db /\ steps db' = steps db /\ groups db' = groups db /\
  (forall r, r ≠ run -> runs db' !! r = runs db !! r) /\
  if b then exists row, runs db !! run = Some row /\ transition_guard from (rstatus row) = true /\
                        runs db' !! run = Some (apply_run_values to_status f row)
  else runs db' = runs db /\ forall row, runs db !! run = Some row -> transition_guard from (rstatus row) = false.
Proof.
  unfold transition_run. destruct (runs db !! run) as [row|] eqn:Hr; [|by intros [= <- <-]].
  destruct (transition_guard from (rstatus row)) eqn:Hg; intros [= <- <-]; simpl.
  - split_and!; [done..|intros r Hne; by rewrite lookup_insert_ne|]. exists row. by rewrite lookup_insert_eq.
  - split_and!; [done..|]. naive_solver.
Qed.

Lemma update_run_status_transition run s f c db :
  exists f', update_run_status run s f c db = transition_run run s None f' db.
Proof. unfold update_run_status. eauto. Qed.

(** What one operation can do to one run. *)
Lemma exec_op_run run op db row :
  ids_fresh db -> lawful op -> runs db !! run = Some row ->
  ids_fresh (exec_op op db).2 /\
  exists row', runs (exec_op op db).2 !! run = Some row' /\ (terminal (rstatus row) = true -> rstatus row' = rstatus row).
Proof.
  intros Hf Hl Hr.
  assert (Htrans : forall r s from f, lawful (Op_transition r s from f) ->
    ids_fresh (transition_run r s from f db).2 /\
    exists row', runs (transition_run r s from f db).2 !! run = Some row' /\
      (terminal (rstatus row) = true -> rstatus row' = rstatus row)).
  { intros r s from f Hlaw. destruct (transition_run r s from f db) as [b db'] eqn:E. simpl.
    apply transition_run_spec in E as (Hn & _ & _ & Hother & Hb). split.
    - intros r' Hr'. rewrite Hn. apply Hf. destruct (decide (r' = r)) as [->|Hne]; [|by rewrite Hother in Hr'].
      destruct b; [destruct Hb as (? & ? & _); eauto|]. by destruct Hb as [<- _].
    - destruct (decide (run = r)) as [->|Hne]; [|exists row; by rewrite Hother].
      destruct b; [|exists row; by destruct Hb as [-> _]].
      destruct Hb as (row0 & Hr0 & Hg & ->). simplify_eq. eexists. split; [done|]. intros Hterm. simpl.
      destruct from as [l|]; simpl in Hg, Hlaw; [|by rewrite Hterm in Hg].
      apply bool_decide_eq_true in Hg. destruct Hlaw as [Hact|[-> ->]].
      + apply Hact in Hg. rewrite active_terminal, Hterm in Hg. done.
      + by apply list_elem_of_singleton in Hg as ->. }
  destruct op as [now u w us t ds i p a|r s from f|r s f c|r h|now r m|r n t nm|r n s f|f]; cbn [exec_op snd].
  - unfold create_run, ids_fresh. simpl. split.
    + intros r Hr'. destruct (decide (r = next_id db)) as [->|Hne]; [lia|].
      rewrite lookup_insert_ne in Hr' by done. apply Hf in Hr'. lia.
    + exists row. rewrite lookup_insert_ne; [done|]. intros <-. assert (next_id db < next_id db) by eauto. lia.
  - by apply Htrans.
  - destruct (update_run_status_transition r s f c db) as [f' ->]. by apply Htrans.
  - unfold record_hatchet_run_id. destruct (runs db !! r) as [row0|] eqn:Hr0; [|eauto]. split.
    + intros r'. simpl. intros Hr'. destruct (decide (r' = r)) as [->|Hne]; [eauto|].
      rewrite lookup_insert_ne in Hr' by done. eauto.
    + simpl. destruct (decide (run = r)) as [->|Hne]; [rewrite lookup_insert_eq|rewrite lookup_insert_ne by done; eauto].
      simplify_eq. eauto.
  - eauto.
  - unfold create_step_result. destruct (steps db !! (r, n)); eauto.
  - unfold update_step_result. destruct (steps db !! (r, n)); [|eauto]. destruct (_ && _); eauto.
  - eauto.
Qed.

Lemma exec_ops_run run ops db row :
  ids_fresh db -> Forall lawful ops -> runs db !! run = Some row ->
  ids_fresh (exec_ops ops db) /\
  exists row', runs (exec_ops ops db) !! run = Some row' /\ (terminal (rstatus row) = true -> rstatus row' = rstatus row).
Proof.
  revert db row. induction ops as [|op ops IH]; intros db row Hf Hl Hr; [eauto|].
  apply Forall_cons in Hl as [Hop Hl].
  destruct (exec_op_run run op db row Hf Hop Hr) as (Hf1 & row1 & Hr1 & Hs1).
  destruct (IH _ _ Hf1 Hl Hr1) as (Hf2 & row2 & Hr2 & Hs2). split; [done|].
  exists row2. split; [done|]. intros Ht. rewrite Hs2, Hs1; [done..|]. by rewrite Hs1.
Qed.

(** The operations that finish run [r]. *)
Definition finishes (r : nat) (op : db_op) : bool :=
  match op with
  | Op_transition run to_status from _ =>
      bool_decide (run = r) && terminal to_status && negb (bool_decide (from = Some [R_cancelled]))
  | Op_update_status run to_status _ _ => bool_decide (run = r) && terminal to_status
  | _ => false
  end.

(** How many of the finishing operations reported success. *)
Fixpoint winners (r : nat) (ops : list db_op) (db : tables) : nat :=
  match ops with
  | [] => 0
  | op :: ops' =>
      (if finishes r op && (exec_op op db).1 then 1 else 0) + winners r ops' (exec_op op db).2
  end.

Lemma no_winner_after_end r ops db row :
  ids_fresh db -> Forall lawful ops -> runs db !! r = Some row -> terminal (rstatus row) = true -> winners r ops db = 0.
Proof.
  revert db row. induction ops as [|op ops IH]; intros db row Hf Hl Hr Ht; [done|].
  apply Forall_cons in Hl as [Hop Hl]. cbn [winners].
  destruct (exec_op_run r op db row Hf Hop Hr) as (Hf1 & row1 & Hr1 & Hs1).
  rewrite (IH _ row1) by (auto; by rewrite Hs1).
  destruct op as [|run to_status from f|run to_status f c| | | | |]; try done; cbn [finishes exec_op];
    (destruct (decide (run = r)) as [->|Hne]; [|by rewrite bool_decide_eq_false_2]).
  2:{ destruct (update_run_status_transition r to_status f c db) as [f' ->].
      destruct (transition_run r to_status None f' db) as [b db'] eqn:E. cbn [fst].
      apply transition_run_spec in E as (_ & _ & _ & _ & Hb). destruct b; [|by rewrite andb_false_r].
      destruct Hb as (row0 & Hr0 & Hg & _). simplify_eq. simpl in Hg. by rewrite Ht in Hg. }
  destruct (transition_run r to_status from f db) as [b db'] eqn:E. cbn [fst].
  apply transition_run_spec in E as (_ & _ & _ & _ & Hb). destruct b; [|by rewrite andb_false_r].
  destruct Hb as (row0 & Hr0 & Hg & _). simplify_eq. rewrite (bool_decide_eq_true_2 (r = r)) by done.
  destruct from as [l|]; simpl in Hg, Hop; [|by rewrite Ht in Hg].
  apply bool_decide_eq_true in Hg. destruct Hop as [Hact|[-> ->]].
  - apply Hact in Hg. rewrite active_terminal, Ht in Hg. done.
  - rewrite (bool_decide_eq_true_2 (Some _ = Some _)) by done. by rewrite andb_false_r.
Qed.

Lemma exec_op_fresh op db : ids_fresh db -> ids_fresh (exec_op op db).2.
Proof.
  intros Hf. assert (Htrans : forall r s from f, ids_fresh (transition_run r s from f db).2).
  { intros r s from f. destruct (transition_run r s from f db) as [b db'] eqn:E. simpl.
    apply transition_run_spec in E as (Hn & _ & _ & Hother & Hb).
    intros r' Hr'. rewrite Hn. apply Hf. destruct (decide (r' = r)) as [->|Hne]; [|by rewrite Hother in Hr'].
    destruct b; [destruct Hb as (? & ? & _); eauto|]. by destruct Hb as [<- _]. }
  destruct op as [now u w us t ds i p a|r s from f|r s f c|r h|now r m|r n t nm|r n s f|f]; cbn [exec_op snd].
  - intros r. simpl. intros Hr. destruct (decide (r = next_id db)) as [->|Hne]; [lia|].
    rewrite lookup_insert_ne in Hr by done. apply Hf in Hr. lia.
  - apply Htrans.
  - destruct (update_run_status_transition r s f c db) as [f' ->]. apply Htrans.
  - unfold record_hatchet_run_id. destruct (runs db !! r) eqn:Hr; [|done]. intros r'. simpl. intros Hr'.
    destruct (decide (r' = r)) as [->|]; [eauto|]. rewrite lookup_insert_ne in Hr' by done. eauto.
  - done.
  - unfold create_step_result. by destruct (steps db !! (r, n)).
  - unfold update_step_result. destruct (steps db !! (r, n)); [|done]. by destruct (_ && _).
  - done.
Qed.

Lemma finishes_ends r op db :
  finishes r op = true -> (exec_op op db).1 = true ->
  exists row, runs (exec_op op db).2 !! r = Some row /\ terminal (rstatus row) = true.
Proof.
  assert (Htrans : forall to_status from f, terminal to_status = true ->
    (transition_run r to_status from f db).1 = true ->
    exists row, runs (transition_run r to_status from f db).2 !! r = Some row /\ terminal (rstatus row) = true).
  { intros to_status from f Ht. destruct (transition_run r to_status from f db) as [b db'] eqn:E. cbn [fst snd]. intros ->.
    apply transition_run_spec in E as (_ & _ & _ & _ & row & _ & _ & Hr'). eauto. }
  destruct op as [|run to_status from f|run to_status f c| | | | |]; try done; cbn [finishes exec_op].
  - intros [[->%bool_decide_eq_true Hterm]%andb_true_iff _]%andb_true_iff. by apply Htrans.
  - intros [->%bool_decide_eq_true Hterm]%andb_true_iff.
    destruct (update_run_status_transition r to_status f c db) as [f' ->]. by apply Htrans.
Qed.

(** The attempt that meets an active run wins. *)
Definition unconditional_finish (r : nat) (op : db_op) : Prop :=
  match op with
  | Op_transition run to_status None _ | Op_update_status run to_status _ _ => run = r /\ terminal to_status = true
  | _ => False
  end.

Lemma unconditional_finish_wins r op db s :
  unconditional_finish r op -> run_state r db = Some s -> active s = true ->
  finishes r op = true /\ (exec_op op db).1 = true.
Proof.
  unfold run_state. intros Hop Hs Hact. apply fmap_Some in Hs as (row & Hr & ->).
  assert (Htrans : forall to_status f, (transition_run r to_status None f db).1 = true).
  { intros to_status f. unfold transition_run. rewrite Hr. simpl. rewrite active_terminal in Hact. by rewrite Hact. }
  destruct op as [|run to_status [l|] f|run to_status f c| | | | |]; try done; destruct Hop as [-> Ht]; cbn [finishes exec_op].
  - rewrite Ht, bool_decide_eq_true_2 by done. split; [done|apply Htrans].
  - rewrite Ht, bool_decide_eq_true_2 by done. split; [done|].
    destruct (update_run_status_transition r to_status f c db) as [f' ->]. apply Htrans.
Qed.

(** C19. One winner: of all the attempts to finish a run (a worker reporting its
    result, an operator cancelling it, the reaper failing it), in any
    interleaving, at most one is told that it did, and exactly one when an
    attempt without source statuses meets the run while it is active. *)
Theorem one_finisher_wins r ops db :
  ids_fresh db -> Forall lawful ops ->
  winners r ops db <= 1 /\
  (forall op rest s, ops = op :: rest -> unconditional_finish r op ->
     run_state r db = Some s -> active s = true -> winners r ops db = 1).
Proof.
  intros Hf Hl. split.
  - revert db Hf. induction ops as [|op ops IH]; intros db Hf; [simpl; lia|].
    apply Forall_cons in Hl as [Hop Hl]. cbn [winners].
    destruct (finishes r op && (exec_op op db).1) eqn:Hw; [|by apply IH, exec_op_fresh].
    apply andb_true_iff in Hw as [Hfin Hb].
    assert (Hend : exists row, runs (exec_op op db).2 !! r = Some row /\ terminal (rstatus row) = true).
    { by apply finishes_ends. }
    destruct Hend as (row & Hr & Ht).
    by rewrite (no_winner_after_end r ops _ row (exec_op_fresh op db Hf) Hl Hr Ht).
  - intros op rest s -> Hop Hs Hact. apply Forall_cons in Hl as [_ Hl]. cbn [winners].
    destruct (unconditional_finish_wins r op db s Hop Hs Hact) as [Hfin Hb]. rewrite Hfin, Hb. cbn [andb].
    destruct (finishes_ends r op db Hfin Hb) as (row & Hr & Ht).
    by rewrite (no_winner_after_end r rest _ row (exec_op_fresh op db Hf) Hl Hr Ht).
Qed.

(** ** Step rows of a cancelled run *)

Definition step_state (run : nat) (node : string) (db : tables) : option step_status := sstatus <$> steps db !! (run, node).

Definition closed (s : step_status) : bool := bool_decide (s ∈ TERMINAL_STEP_STATUSES).
Definition open_status (s : step_status) : bool := bool_decide (s ∈ [S_pending; S_running]).

Lemma finalise_lookup now run message db k :
  steps (finalise_open_step_results now run message db) !! k =
  (fun s => if decide (k.1 = run) then finalise_step now message s else s) <$> steps db !! k.
Proof. unfold finalise_open_step_results. simpl. rewrite map_lookup_imap. by destruct (steps db !! k). Qed.

Lemma finalise_step_open now message s : open_status (sstatus (finalise_step now message s)) = false.
Proof. unfold finalise_step. by destruct (sstatus s) eqn:E; simpl; rewrite ?E. Qed.

Lemma finalise_step_closed now message s : open_status (sstatus s) = false -> finalise_step now message s = s.
Proof. unfold finalise_step. by destruct (sstatus s). Qed.

(** One operation on a closed row of a cancelled run. *)
Lemma exec_op_closed_row run node op db row :
  run_state run db = Some R_cancelled -> steps db !! (run, node) = Some row -> closed (sstatus row) = true ->
  steps (exec_op op db).2 !! (run, node) = Some row.
Proof.
  intros Hrun Hrow Hcl.
  assert (Htrans : forall r s from f, steps (transition_run r s from f db).2 = steps db).
  { intros r s from f. destruct (transition_run r s from f db) as [b db'] eqn:E.
    by apply transition_run_spec in E as (_ & ? & _). }
  destruct op as [now u w us t ds i p a|r s from f|r s f c|r h|now r m|r n t nm|r n s f|f]; cbn [exec_op snd].
  - done.
  - by rewrite Htrans.
  - destruct (update_run_status_transition r s f c db) as [f' ->]. by rewrite Htrans.
  - unfold record_hatchet_run_id. by destruct (runs db !! r).
  - rewrite finalise_lookup, Hrow. simpl. case_decide; [|done]. rewrite finalise_step_closed; [done|].
    by destruct (sstatus row).
  - unfold create_step_result. destruct (steps db !! (r, n)) eqn:E; [done|]. simpl.
    rewrite lookup_insert_ne; [done|]. congruence.
  - unfold update_step_result. destruct (steps db !! (r, n)) as [row0|] eqn:E; [|done].
    destruct (decide ((r, n) = (run, node))) as [[= -> ->]|Hne].
    + simplify_eq. unfold closed in Hcl. rewrite Hcl. unfold run_cancelled. unfold run_state in Hrun.
      apply fmap_Some in Hrun as (x & -> & Hx). by rewrite <- Hx.
    + destruct (_ && _); [done|]. simpl. by rewrite lookup_insert_ne.
  - done.
Qed.

Lemma exec_ops_closed_row run node ops db row :
  ids_fresh db -> Forall lawful ops ->
  run_state run db = Some R_cancelled -> steps db !! (run, node) = Some row -> closed (sstatus row) = true ->
  steps (exec_ops ops db) !! (run, node) = Some row.
Proof.
  revert db. induction ops as [|op ops IH]; intros db Hf Hl Hrun Hrow Hcl; [done|].
  apply Forall_cons in Hl as [Hop Hl]. apply (IH (exec_op op db).2); [by apply exec_op_fresh|done| | |done].
  - unfold run_state in *. apply fmap_Some in Hrun as (r & Hr & Hs).
    destruct (exec_op_run run op db r Hf Hop Hr) as (_ & r' & -> & Hst). simpl. by rewrite Hst, <- Hs by (by rewrite <- Hs).
  - by apply exec_op_closed_row.
Qed.

(** C20. A cancel closes the history of the run.  Cancelling wins the run and
    closing its open step rows leaves no row pending or running; and whatever
    a step that was already executing, a redelivered task or the reaper writes
    afterwards, every row that is then successful, failed or skipped stays
    exactly as it is. *)
Theorem cancel_freezes_history now run message fields ops db :
  ids_fresh db -> Forall lawful ops ->
  (transition_run run R_cancelled None fields db).1 = true ->
  let db1 := finalise_open_step_results now run message (transition_run run R_cancelled None fields db).2 in
  run_state run db1 = Some R_cancelled /\
  (forall node row, steps db1 !! (run, node) = Some row -> open_status (sstatus row) = false) /\
  (forall node row, steps db1 !! (run, node) = Some row -> closed (sstatus row) = true ->
     steps (exec_ops ops db1) !! (run, node) = Some row).
Proof.
  intros Hf Hl Hwon db1.
  pose proof (exec_op_fresh (Op_transition run R_cancelled None fields) db Hf) as Hf1. cbn [exec_op] in Hf1.
  unfold db1 in *. clear db1. destruct (transition_run run R_cancelled None fields db) as [b dbc] eqn:E.
  cbn [fst snd] in *. subst b. apply transition_run_spec in E as (_ & _ & _ & _ & row0 & _ & _ & Hr).
  assert (Hrun : run_state run (finalise_open_step_results now run message dbc) = Some R_cancelled).
  { unfold run_state, finalise_open_step_results. simpl. by rewrite Hr. }
  split_and!; [done| |].
  - intros node row. rewrite finalise_lookup. intros (s & _ & ->)%fmap_Some. simpl.
    rewrite decide_True by done. apply finalise_step_open.
  - intros node row Hrow Hcl. by apply exec_ops_closed_row.
Qed.

(** C38. A row whose devices failed in part is not protected: a late write
    reopens a [partial] row of a cancelled run. *)
Theorem cancelled_partial_row_reopens run node db row :
  run_state run db = Some R_cancelled -> steps db !! (run, node) = Some row -> sstatus row = S_partial ->
  step_state run node (update_step_result run node S_running no_step_fields db) = Some S_running.
Proof.
  intros _ Hrow Hst. unfold step_state, update_step_result. rewrite Hrow, Hst. simpl. by rewrite lookup_insert_eq.
Qed.

(** A store with one active run, one finished run, and step rows. *)
Definition sample_run (s : run_status) : WorkflowRun :=
  Run "u" 1 (Some 7) s "manual" None None None [] [] None None None None None None None None None None 0.
Definition sample_row (s : step_status) : WorkflowStepResult := StepRow "t" "n" s None None None None None None None.
Definition sample_db : tables :=
  Tables {[1 := sample_run R_running; 2 := sample_run R_cancelled]}
    {[(1, "a") := sample_row S_success; (1, "b") := sample_row S_running; (1, "c") := sample_row S_pending;
      (2, "p") := sample_row S_partial]} ∅ 3.

Lemma sample_db_fresh : ids_fresh sample_db.
Proof.
  intros r [x Hx]. unfold sample_db in *. simpl in *.
  apply lookup_insert_Some in Hx as [[<- _]|[_ Hx]]; [lia|].
  apply lookup_singleton_Some in Hx as [<- _]. lia.
Qed.

(** The operator cancels run 1 while its worker is about to report success. *)
Definition cancel_race : list db_op :=
  [Op_transition 1 R_cancelled None no_fields; Op_update_status 1 R_success no_fields false;
   Op_transition 1 R_failed None no_fields].

Lemma cancel_race_lawful : Forall lawful cancel_race.
Proof. repeat constructor. Qed.

Lemma one_finisher_wins_witness :
  winners 1 cancel_race sample_db = 1 /\ run_state 1 (exec_ops cancel_race sample_db) = Some R_cancelled.
Proof.
  split; [|reflexivity].
  exact (proj2 (one_finisher_wins 1 cancel_race sample_db sample_db_fresh cancel_race_lawful)
    _ _ R_running eq_refl (conj eq_refl eq_refl) eq_refl eq_refl).
Defined.

Lemma cancel_freezes_history_witness :
  let db1 := finalise_open_step_results 9 1 "Cancelled by the operator" (transition_run 1 R_cancelled None no_fields sample_db).2 in
  step_state 1 "b" db1 = Some S_failed /\ step_state 1 "c" db1 = Some S_skipped /\
  step_state 1 "b" (exec_ops [Op_update_step 1 "b" S_success no_step_fields] db1) = Some S_failed.
Proof.
  intros db1. split; [reflexivity|]. split; [reflexivity|].
  destruct (cancel_freezes_history 9 1 "Cancelled by the operator" no_fields
    [Op_update_step 1 "b" S_success no_step_fields] sample_db sample_db_fresh) as (_ & _ & Hfrozen);
    [repeat constructor|reflexivity|].
  unfold step_state, db1.
  rewrite (Hfrozen "b" (StepRow "t" "n" S_failed None (Some 9%Z) None (Some "Cancelled by the operator") (Some "internal") None None));
    reflexivity.
Defined.

Lemma cancelled_partial_row_reopens_witness :
  step_state 2 "p" (update_step_result 2 "p" S_running no_step_fields sample_db) = Some S_running.
Proof. exact (cancelled_partial_row_reopens 2 "p" sample_db (sample_row S_partial) eq_refl eq_refl eq_refl). Defined.

(** ** Purging *)

Lemma elem_of_runs_where (P : WorkflowRun -> Prop) `{forall x, Decision (P x)} (m : gmap nat WorkflowRun) r :
  r ∈ (filter (fun p => P p.2) (map_to_list m)).*1 <-> exists row, m !! r = Some row /\ P row.
Proof.
  rewrite list_elem_of_fmap. split.
  - intros ([r' row] & -> & [Hp Hin]%list_elem_of_filter). apply elem_of_map_to_list in Hin. eauto.
  - intros (row & Hr & Hp). exists (r, row). split; [done|]. apply list_elem_of_filter.
    split; [done|]. by apply elem_of_map_to_list.
Qed.

Lemma elem_of_finished cutoff db r :
  r ∈ finished_older_than cutoff db <-> exists row, runs db !! r = Some row /\ purgeable cutoff row.
Proof.
  unfold finished_older_than. rewrite merge_sort_Permutation.
  apply (elem_of_runs_where (purgeable cutoff)).
Qed.

Lemma NoDup_finished cutoff db : NoDup (finished_older_than cutoff db).
Proof.
  unfold finished_older_than. rewrite merge_sort_Permutation.
  apply NoDup_fmap_fst; [|apply NoDup_filter, NoDup_map_to_list].
  intros r x y [_ Hx%elem_of_map_to_list]%list_elem_of_filter [_ Hy%elem_of_map_to_list]%list_elem_of_filter. congruence.
Qed.

(** A run, up to a cleared link to its parent. *)
Definition kept_as (row row' : WorkflowRun) : Prop := row' = row \/ exists p, row' = clear_parent p row.

Lemma clear_parent_fields p row : rstatus (clear_parent p row) = rstatus row /\ run_created_at (clear_parent p row) = run_created_at row.
Proof. unfold clear_parent. by case_decide. Qed.

Lemma clear_parent_twice p q row : kept_as row (clear_parent p (clear_parent q row)).
Proof.
  unfold kept_as. destruct (decide (parent_run_id row = Some q)) as [Hq|Hq].
  - right. exists q. unfold clear_parent at 2 3. rewrite decide_True by done. unfold clear_parent. by rewrite decide_False.
  - assert (clear_parent q row = row) as -> by (unfold clear_parent; by rewrite decide_False). eauto.
Qed.

Lemma kept_as_fields row row' : kept_as row row' -> rstatus row' = rstatus row /\ run_created_at row' = run_created_at row.
Proof. intros [->|[p ->]]; [done|apply clear_parent_fields]. Qed.

Lemma kept_as_purgeable cutoff row row' : kept_as row row' -> purgeable cutoff row' <-> purgeable cutoff row.
Proof. intros Hk. apply kept_as_fields in Hk as [Hs Hc]. unfold purgeable. by rewrite Hs, Hc. Qed.

Lemma kept_as_clear row row' p : kept_as row row' -> kept_as row (clear_parent p row').
Proof. intros [->|[q ->]]; [right; eauto|apply clear_parent_twice]. Qed.

Lemma delete_runs_lookup batch db r :
  match runs (foldr delete_run db batch) !! r with
  | None => r ∈ batch \/ runs db !! r = None
  | Some row' => r ∉ batch /\ exists row, runs db !! r = Some row /\ kept_as row row'
  end /\
  forall k, k.1 ∉ batch -> steps (foldr delete_run db batch) !! k = steps db !! k.
Proof.
  induction batch as [|d batch [IHr IHs]]; cbn [foldr].
  - split; [|done]. destruct (runs db !! r) as [row|] eqn:E; [|by right]. split; [apply not_elem_of_nil|].
    exists row. split; [done|by left].
  - set (db0 := foldr delete_run db batch) in *. unfold delete_run. cbn [runs steps]. split.
    + rewrite lookup_fmap. destruct (decide (r = d)) as [->|Hne].
      * rewrite lookup_delete_eq. left. by left.
      * rewrite lookup_delete_ne by done. destruct (runs db0 !! r) as [row'|]; simpl.
        -- destruct IHr as (Hn & row & Hr & Hk). split; [by apply not_elem_of_cons|].
           exists row. split; [done|]. by apply kept_as_clear.
        -- destruct IHr; [left; by right|by right].
    + intros k [Hne Hk]%not_elem_of_cons. rewrite <- IHs by done.
      destruct (steps db0 !! k) as [s|] eqn:E.
      * apply map_lookup_filter_Some. split; [done|]. done.
      * apply map_lookup_filter_None. by left.
Qed.

Lemma delete_runs_finished cutoff batch db r :
  r ∈ finished_older_than cutoff (foldr delete_run db batch) <-> r ∈ finished_older_than cutoff db /\ r ∉ batch.
Proof.
  rewrite !elem_of_finished. destruct (delete_runs_lookup batch db r) as [Hl _].
  destruct (runs (foldr delete_run db batch) !! r) as [row'|].
  - destruct Hl as (Hn & row & Hr & Hk). pose proof (kept_as_purgeable cutoff _ _ Hk). naive_solver.
  - split; [naive_solver|]. intros [(row & Hr & _) Hn]. destruct Hl; congruence.
Qed.

Lemma purge_batch_length cutoff n db :
  let batch := take n (finished_older_than cutoff db) in
  length (finished_older_than cutoff db) = length batch + length (finished_older_than cutoff (foldr delete_run db batch)).
Proof.
  intros batch. rewrite <- length_app. apply Permutation_length.
  assert (Hsub : forall r, r ∈ batch -> r ∈ finished_older_than cutoff db).
  { intros r Hr. unfold batch in Hr. by apply elem_of_take in Hr as (i & Hi%list_elem_of_lookup_2 & _). }
  apply NoDup_Permutation; [apply NoDup_finished| |].
  - apply NoDup_app. split_and!.
    + eapply sublist_NoDup; [apply (NoDup_finished cutoff db)|]. apply sublist_take.
    + intros r Hb [_ Hn]%delete_runs_finished. done.
    + apply NoDup_finished.
  - intros r. rewrite elem_of_app, delete_runs_finished. destruct (decide (r ∈ batch)); naive_solver.
Qed.

Lemma purge_loop_spec cutoff n fuel db total :
  0 < n -> length (finished_older_than cutoff db) <= fuel ->
  exists db', purge_loop fuel cutoff n db total = Some (total + length (finished_older_than cutoff db), db') /\
    forall r, match runs db !! r with
      | None => runs db' !! r = None
      | Some row => (purgeable cutoff row -> runs db' !! r = None) /\
          (~ purgeable cutoff row -> exists row', runs db' !! r = Some row' /\ rstatus row' = rstatus row /\
             forall node, steps db' !! (r, node) = steps db !! (r, node))
      end.
Proof.
  intros Hn. revert db total. induction fuel as [|fuel IH]; intros db total Hfuel.
  all: pose proof (fun r => elem_of_finished cutoff db r) as Hel; pose proof (purge_batch_length cutoff n db) as Hlen;
    cbn [purge_loop]; cbv zeta in Hlen.
  - destruct (finished_older_than cutoff db) as [|x l] eqn:E; [|simpl in Hfuel; lia]. rewrite take_nil.
    exists db. rewrite Nat.add_0_r. split; [done|]. intros r. destruct (runs db !! r) as [row|] eqn:Hr; [|done].
    split; [|eauto]. intros Hp. exfalso. apply (not_elem_of_nil r). apply Hel. eauto.
  - destruct (take n (finished_older_than cutoff db)) as [|x batch] eqn:Hb.
    + assert (E : finished_older_than cutoff db = []).
      { destruct (finished_older_than cutoff db); [done|]. destruct n; [lia|done]. }
      rewrite E in *. exists db. rewrite Nat.add_0_r. split; [done|]. intros r.
      destruct (runs db !! r) as [row|] eqn:Hr; [|done].
      split; [|eauto]. intros Hp. exfalso. apply (not_elem_of_nil r). apply Hel. eauto.
    + set (B := x :: batch) in *. specialize (IH (foldr delete_run db B) (total + length B)).
      destruct IH as (db' & Heq & Hspec); [unfold B in *; cbn [length] in *; lia|].
      exists db'. split; [rewrite Heq; do 2 f_equal; lia|]. intros r. specialize (Hspec r).
      destruct (delete_runs_lookup B db r) as [Hl Hst].
      assert (HB : forall y, y ∈ B -> y ∈ finished_older_than cutoff db).
      { intros y Hy. rewrite <- Hb in Hy. by apply elem_of_take in Hy as (i & Hi%list_elem_of_lookup_2 & _). }
      destruct (runs db !! r) as [row|] eqn:Hr; destruct (runs (foldr delete_run db B) !! r) as [row'|] eqn:Hr'.
      * destruct Hl as (HnB & row0 & [= <-] & Hk). pose proof (kept_as_purgeable cutoff _ _ Hk) as Hp.
        destruct Hspec as [H1 H2]. split; [tauto|]. intros Hnp. destruct H2 as (row2 & ? & Hs2 & Hs3); [tauto|].
        exists row2. split_and!; [done| |].
        -- rewrite Hs2. by apply kept_as_fields in Hk as [? _].
        -- intros node. rewrite Hs3. by apply Hst.
      * destruct Hl as [HrB|]; [|done]. split; [done|]. intros Hnp. exfalso.
        apply HB, Hel in HrB as (row0 & Hr0 & ?). simplify_eq. done.
      * destruct Hl as (_ & row0 & ? & _). done.
      * done.
Qed.

Lemma finished_length_le cutoff db : length (finished_older_than cutoff db) <= size (runs db).
Proof.
  unfold finished_older_than. rewrite merge_sort_Permutation, length_fmap.
  etrans; [apply filter_length_le|]. by rewrite length_map_to_list.
Qed.

(** C28. Purging terminates, whatever the batch size, and deletes exactly the
    finished runs created before the cutoff: no pending, running or paused
    run and no younger run is touched (its step rows included), and the count
    it returns is the number of runs deleted. *)
Theorem purge_exact cutoff batch_size db :
  0 < batch_size ->
  exists db', purge_finished_runs_older_than cutoff batch_size db = Some (length (finished_older_than cutoff db), db') /\
    forall r, match runs db !! r with
      | None => runs db' !! r = None
      | Some row => (terminal (rstatus row) = true /\ (run_created_at row < cutoff)%Z -> runs db' !! r = None) /\
          (~ (terminal (rstatus row) = true /\ (run_created_at row < cutoff)%Z) ->
             exists row', runs db' !! r = Some row' /\ rstatus row' = rstatus row /\
               forall node, steps db' !! (r, node) = steps db !! (r, node))
      end.
Proof. intros Hn. apply (purge_loop_spec cutoff batch_size _ db 0 Hn), finished_length_le. Qed.

Lemma purge_exact_witness :
  exists db', purge_finished_runs_older_than 5 1 sample_db = Some (1, db') /\ run_state 2 db' = None /\
    run_state 1 db' = Some R_running.
Proof.
  destruct (purge_exact 5 1 sample_db ltac:(lia)) as (db' & Heq & Hspec). exists db'. split; [exact Heq|].
  unfold run_state. pose proof (Hspec 1) as H1. pose proof (Hspec 2) as H2.
  change (runs sample_db !! 1) with (Some (sample_run R_running)) in H1.
  change (runs sample_db !! 2) with (Some (sample_run R_cancelled)) in H2. cbv iota in H1, H2. split.
  - rewrite (proj1 H2); [reflexivity|]. split; [reflexivity|simpl; lia].
  - destruct (proj2 H1) as (row & -> & Hs & _); [intros [Hf _]; discriminate Hf|]. simpl. by rewrite Hs.
Defined.

(** ** Every write of the repository

    The operations of [db_op] and the two that delete: one run, and one batch of
    the purge, which commits batch by batch and so lets others write in between. *)
Inductive store_op :=
  | St_write (op : db_op)
  | St_delete (run : nat)
  | St_purge_batch (cutoff : Z) (batch_size : nat).

Definition exec_store_op (op : store_op) (db : tables) : tables :=
  match op with
  | St_write op => (exec_op op db).2
  | St_delete run => delete_run run db
  | St_purge_batch cutoff batch_size => foldr delete_run db (take batch_size (finished_older_than cutoff db))
  end.
Definition exec_store_ops (ops : list store_op) (db : tables) : tables := foldl (fun d op => exec_store_op op d) db ops.

Definition lawful_store (op : store_op) : Prop := match op with St_write op => lawful op | _ => True end.

(** The operations that can remove run [r]: its deletion, and a purge whose cutoff
    it is older than. *)
Definition removes (r : nat) (created : Z) (op : store_op) : Prop :=
  match op with St_write _ => False | St_delete run => run = r | St_purge_batch cutoff _ => (created < cutoff)%Z end.

Lemma delete_runs_next batch db : next_id (foldr delete_run db batch) = next_id db.
Proof. induction batch as [|r batch IH]; [done|]. exact IH. Qed.

Lemma delete_runs_fresh batch db : ids_fresh db -> ids_fresh (foldr delete_run db batch).
Proof.
  intros Hf r [row' Hr]. rewrite delete_runs_next. apply Hf. destruct (delete_runs_lookup batch db r) as [Hl _].
  rewrite Hr in Hl. destruct Hl as (_ & row & -> & _). by eexists.
Qed.

(** An id that was given away and has no run gets none. *)
Lemma exec_op_gone run op db :
  runs db !! run = None -> run < next_id db -> runs (exec_op op db).2 !! run = None /\ run < next_id (exec_op op db).2.
Proof.
  intros Hr Hlt.
  assert (Htrans : forall r s from f, runs (transition_run r s from f db).2 !! run = None /\ run < next_id (transition_run r s from f db).2).
  { intros r s from f. destruct (transition_run r s from f db) as [b db'] eqn:E. apply transition_run_spec in E as (Hn & _ & _ & Hother & Hb).
    cbn [snd]. rewrite Hn. split; [|done]. destruct (decide (run = r)) as [->|Hne]; [|by rewrite Hother].
    destruct b; [destruct Hb as (? & ? & _); congruence|]. by destruct Hb as [-> _]. }
  destruct op as [now u w us t ds i p a|r s from f|r s f c|r h|now r m|r n t nm|r n s f|f]; cbn [exec_op snd].
  - unfold create_run. cbn. rewrite lookup_insert_ne; [split; [done|lia]|lia].
  - apply Htrans.
  - destruct (update_run_status_transition r s f c db) as [f' ->]. apply Htrans.
  - unfold record_hatchet_run_id. destruct (runs db !! r) as [row|] eqn:Hrow; [|done]. cbn. rewrite lookup_insert_ne; [done|congruence].
  - done.
  - unfold create_step_result. by destruct (steps db !! (r, n)).
  - unfold update_step_result. destruct (steps db !! (r, n)); [|done]. by destruct (_ && _).
  - done.
Qed.

(** The creation time of a run is never written. *)
Lemma exec_op_created run op db row row' :
  ids_fresh db -> runs db !! run = Some row -> runs (exec_op op db).2 !! run = Some row' -> run_created_at row' = run_created_at row.
Proof.
  intros Hf Hr.
  assert (Htrans : forall r s from f, runs (transition_run r s from f db).2 !! run = Some row' -> run_created_at row' = run_created_at row).
  { intros r s from f. destruct (transition_run r s from f db) as [b db'] eqn:E. apply transition_run_spec in E as (_ & _ & _ & Hother & Hb).
    cbn [snd]. destruct (decide (run = r)) as [->|Hne]; [|rewrite Hother by done; congruence].
    destruct b; [destruct Hb as (row0 & Hr0 & _ & ->)|destruct Hb as [-> _]; congruence]. rewrite Hr in Hr0. by intros; simplify_eq. }
  destruct op as [now u w us t ds i p a|r s from f|r s f c|r h|now r m|r n t nm|r n s f|f]; cbn [exec_op snd].
  - unfold create_run. cbn. rewrite lookup_insert_ne; [congruence|]. intros <-. assert (next_id db < next_id db) by eauto. lia.
  - apply Htrans.
  - destruct (update_run_status_transition r s f c db) as [f' ->]. apply Htrans.
  - unfold record_hatchet_run_id. destruct (runs db !! r) as [row0|] eqn:Hrow; [|congruence]. cbn.
    intros [[<- <-]|[_ ?]]%lookup_insert_Some; [|congruence]. rewrite Hrow in Hr. by simplify_eq.
  - cbn. congruence.
  - unfold create_step_result. destruct (steps db !! (r, n)); cbn; congruence.
  - unfold update_step_result. destruct (steps db !! (r, n)); [|congruence]. destruct (_ && _); cbn; congruence.
  - cbn. congruence.
Qed.

(** Where a finished run is after one more operation. *)
Definition finished_or_gone (run : nat) (s : run_status) (created : Z) (gone : Prop) (db : tables) : Prop :=
  ids_fresh db /\ run < next_id db /\
  ((exists row, runs db !! run = Some row /\ rstatus row = s /\ run_created_at row = created) \/ (runs db !! run = None /\ gone)).

Lemma exec_store_op_finished run s created gone op db :
  lawful_store op -> terminal s = true -> finished_or_gone run s created gone db ->
  finished_or_gone run s created (gone \/ removes run created op) (exec_store_op op db).
Proof.
  intros Hlaw Hs (Hf & Hlt & Hrun).
  assert (Hbatch : forall batch, (run ∈ batch -> runs db !! run = None \/ removes run created op) ->
    finished_or_gone run s created (gone \/ removes run created op) (foldr delete_run db batch)).
  { intros batch Hin. split; [by apply delete_runs_fresh|]. rewrite delete_runs_next. split; [done|].
    destruct (delete_runs_lookup batch db run) as [Hl _]. destruct (runs (foldr delete_run db batch) !! run) as [row'|] eqn:Hr'.
    - left. destruct Hl as (_ & row & Hr & Hk). destruct Hrun as [(row0 & Hr0 & Hst & Hc)|[Hn _]]; [|congruence].
      rewrite Hr in Hr0. injection Hr0 as <-. apply kept_as_fields in Hk as [Hk1 Hk2]. exists row'. split_and!; congruence.
    - right. split; [done|]. destruct Hrun as [(row0 & Hr0 & _)|[_ Hg]]; [|by left].
      destruct Hl as [Hb|Hn]; [|congruence]. destruct (Hin Hb) as [?|?]; [congruence|by right]. }
  destruct op as [op|r|cutoff n]; cbn [exec_store_op].
  - split; [by apply exec_op_fresh|]. destruct Hrun as [(row & Hr & Hst & Hc)|[Hn Hg]].
    + destruct (exec_op_run run op db row Hf Hlaw Hr) as (Hf' & row' & Hr' & Hst'). split; [by apply Hf'; eexists|].
      left. exists row'. split; [done|]. split; [rewrite Hst'; [done|by rewrite Hst]|].
      rewrite <- Hc. exact (exec_op_created run op db row row' Hf Hr Hr').
    + destruct (exec_op_gone run op db Hn Hlt) as [Hn' Hlt']. split; [done|]. right. split; [done|by left].
  - apply (Hbatch [r]). intros ->%list_elem_of_singleton. by right.
  - apply Hbatch. intros Hin. apply elem_of_take in Hin as (i & Hi%list_elem_of_lookup_2 & _).
    apply elem_of_finished in Hi as (row & Hr & _ & Hold). right. cbn.
    destruct Hrun as [(row0 & Hr0 & _ & <-)|[Hn _]]; [|congruence]. rewrite Hr in Hr0. by injection Hr0 as <-.
Qed.

Lemma finished_or_gone_weaken run s created (P Q : Prop) db : (P -> Q) -> finished_or_gone run s created P db -> finished_or_gone run s created Q db.
Proof. intros HPQ (Hf & Hlt & [Hrun|[Hn HP]]); (split; [done|]; split; [done|]); [by left|right; auto]. Qed.

Lemma exec_store_ops_finished run s created gone ops db :
  Forall lawful_store ops -> terminal s = true -> finished_or_gone run s created gone db ->
  finished_or_gone run s created (gone \/ exists op, op ∈ ops /\ removes run created op) (exec_store_ops ops db).
Proof.
  intros Hlaw Hs. revert gone db. induction Hlaw as [|op ops Hop _ IH]; intros gone db Hdb; cbn [exec_store_ops foldl].
  - eapply finished_or_gone_weaken; [|done]. by left.
  - eapply finished_or_gone_weaken; [|apply IH, exec_store_op_finished; done].
    intros [[Hg|Hr]|(o & Ho & Hr)]; [by left|right; exists op; split; [by left|done]|right; exists o; split; [by right|done]].
Qed.

(** The purge is a sequence of its batches. *)
Lemma purge_is_batches cutoff n db count db' :
  purge_finished_runs_older_than cutoff n db = Some (count, db') ->
  exists k, db' = exec_store_ops (replicate k (St_purge_batch cutoff n)) db.
Proof.
  unfold purge_finished_runs_older_than. generalize 0 (size (runs db)). intros total fuel. revert total db.
  induction fuel as [|fuel IH]; intros total db; cbn [purge_loop].
  - destruct (take n (finished_older_than cutoff db)); [|done]. intros [= _ <-]. by exists 0.
  - destruct (take n (finished_older_than cutoff db)) as [|x batch] eqn:Hb; [intros [= _ <-]; by exists 0|].
    intros [k ->]%IH. exists (S k). cbn [replicate exec_store_ops foldl exec_store_op]. by rewrite Hb.
Qed.

(** C18. A finished run stays finished.  Whatever the workers, operators and
    background jobs write afterwards, in any order, deletions and the batches of
    the purge included, a run that is successful, failed or cancelled keeps that
    status as long as it is there; it is gone only if it was deleted or a purge
    came by whose cutoff it is older than, and its id is not given to another run. *)
Theorem terminal_status_sticky run ops db row :
  ids_fresh db -> Forall lawful_store ops ->
  runs db !! run = Some row -> terminal (rstatus row) = true ->
  run_state run (exec_store_ops ops db) = Some (rstatus row) \/
  (run_state run (exec_store_ops ops db) = None /\ exists op, op ∈ ops /\ removes run (run_created_at row) op).
Proof.
  intros Hf Hlaw Hr Hs.
  destruct (exec_store_ops_finished run (rstatus row) (run_created_at row) False ops db Hlaw Hs) as (_ & _ & Hrun).
  { split; [done|]. split; [by apply Hf; eexists|]. left. by exists row. }
  unfold run_state. destruct Hrun as [(row' & -> & <- & _)|[-> [[]|Hop]]]; [by left|by right].
Qed.

(** Run 2 is cancelled; a purge with a cutoff before its creation leaves it. *)
Definition sticky_history : list store_op := (St_write <$> cancel_race) ++ [St_delete 1; St_purge_batch 0 500].
Lemma sticky_history_lawful : Forall lawful_store sticky_history.
Proof. repeat constructor. Qed.
Lemma terminal_status_sticky_witness : run_state 2 (exec_store_ops sticky_history sample_db) = Some R_cancelled.
Proof.
  destruct (terminal_status_sticky 2 sticky_history sample_db (sample_run R_cancelled) sample_db_fresh sticky_history_lawful eq_refl eq_refl) as [H|[_ (op & Hin & Hr)]].
  - exact H.
  - exfalso. unfold sticky_history in Hin. repeat (apply elem_of_cons in Hin as [->|Hin]; [vm_compute in Hr; first [exact Hr | discriminate Hr]|]).
    by apply not_elem_of_nil in Hin.
Defined.
