(* ===== verification/Secrets.v ===== *)
(** * Sealing, unwrapping and redacting secrets
      ([backend/services/workflow_context/secret_fields.py])

    What may leave a run as text: sealed envelopes, known secret places and
    secret-named keys are replaced by a placeholder, and cleartext secrets seen
    during the run are cut out of every string.

    The Fernet cipher ([core/crypto.py], a third-party primitive) is the pair
    [encrypt]/[decrypt]; the per-run registry of cleartext secrets is an
    explicit list. *)
From S2P Require Import Prelude Dict Json Context.

Definition SEALED_MARKER : string := "__am_sealed__".
Definition REDACTED_PLACEHOLDER : string := "***REDACTED***".
Definition MIN_TRACKED_SECRET_LENGTH : nat := 8.

Definition SECRET_BAG_PATHS : list (list string) :=
  [["tacacs"; "shared_secret"]; ["ise"; "tacacsSettings"; "sharedSecret"]; ["pyats_testbed"; "password"]].
Definition SECRET_BAG_SUBTREES : list (list string) :=
  [["nautobot"; "config_context"]; ["nautobot"; "local_config_context_data"]].
Definition SECRET_KEY_NAMES : list string :=
  ["password"; "secret"; "token"; "community"; "shared_secret"; "sharedsecret"; "passphrase"; "api_key"; "apikey";
   "enable_secret"; "snmp_community"; "secret_key"; "private_key"; "auth_key"; "shared_key"; "tacacs_key"; "db_pw"].
Definition SECRET_KEY_SUFFIXES : list string :=
  ["_password"; "_secret"; "_token"; "_passphrase"; "_key"; "_pw"; "_pass"; "_passwd"; "_psk"; "_community"].

(** [key.replace("-", "_").lower()] *)
Fixpoint dash_to_underscore (s : string) : string :=
  match s with
  | EmptyString => EmptyString
  | String c s' => String (if decide (c = "-"%char) then "_"%char else c) (dash_to_underscore s')
  end.

Definition key_is_secret_name (key : string) : bool :=
  let lowered := lower (dash_to_underscore key) in
  bool_decide (lowered ∈ SECRET_KEY_NAMES) || existsb (fun suffix => ends_with suffix lowered) SECRET_KEY_SUFFIXES.

Definition is_sealed_secret (value : json) : bool :=
  match value with
  | JDict d => bool_decide (dget SEALED_MARKER d = Some (JBool true)) && dmem "ct" d
  | _ => false
  end.

Definition secret_is_present (value : json) : bool :=
  is_sealed_secret value || match value with JStr s => negb (String.eqb (strip s) "") | _ => false end.

Section Cipher.
Context (encrypt : string -> string) (decrypt : string -> option string).

Definition seal_secret (plaintext : string) : json :=
  JDict [(SEALED_MARKER, JBool true); ("v", JInt 2); ("ct", JStr (encrypt plaintext))].

(** [register_secret_value] inside a run scope *)
Definition register_secret_value (value : string) (registry : list string) : list string :=
  if (MIN_TRACKED_SECRET_LENGTH <=? String.length value) && negb (bool_decide (value ∈ registry))
  then value :: registry else registry.

(** [str(value["ct"])]: the ciphertext of an envelope is a string; the text of
    any other value is not a token, so it does not decrypt. *)
Definition unwrap_secret (value : json) (registry : list string) : res (option string * list string) :=
  match value with
  | JNull => Ok (None, registry)
  | _ =>
    if is_sealed_secret value then
      if negb (match jget "v" value with Some v => py_eq v (JInt 2) | None => false end)
      then Raise (ValueError "Sealed secret was made by an older version and must be entered again" [])
      else match jget "ct" value with
           | Some (JStr ct) =>
               match decrypt ct with
               | Some clear => Ok (Some clear, register_secret_value clear registry)
               | None => Raise (ValueError "Failed to decrypt" [])
               end
           | _ => Raise (ValueError "Failed to decrypt" [])
           end
    else match value with
         | JStr s =>
             let stripped := strip s in
             Ok (if String.eqb stripped "" then None else Some stripped, register_secret_value stripped registry)
         | _ => Ok (None, registry)
         end
  end.
End Cipher.

(** True when an envelope occurs anywhere inside. *)
Fixpoint contains_sealed_secret (data : json) : bool :=
  is_sealed_secret data ||
  match data with
  | JDict d => existsb (fun kv => contains_sealed_secret kv.2) d
  | JList l => existsb contains_sealed_secret l
  | _ => false
  end.

(** ** Redaction *)

Fixpoint redact_leaves (node : json) : json :=
  match node with
  | JDict d => JDict (map (fun kv => (kv.1, redact_leaves kv.2)) d)
  | JList l => JList (map redact_leaves l)
  | JNull => JNull
  | _ => JStr REDACTED_PLACEHOLDER
  end.

(** Walk down a path of dict keys and rewrite the value at its end. *)
Fixpoint update_path (path : list string) (f : json -> json) (node : json) : json :=
  match path, node with
  | [], _ => f node
  | k :: rest, JDict d =>
      match dget k d with
      | Some v => JDict (dset k (update_path rest f v) d)
      | None => node
      end
  | _, _ => node
  end.

Definition redact_present (leaf : json) : json :=
  if secret_is_present leaf then JStr REDACTED_PLACEHOLDER else leaf.

(** [_redact_bag_subtrees] then the paths *)
Definition redact_bag_paths (bags : json) : json :=
  let bags := foldl (fun b path => update_path path redact_leaves b) bags SECRET_BAG_SUBTREES in
  foldl (fun b path => update_path path redact_present b) bags SECRET_BAG_PATHS.

Fixpoint height (j : json) : nat :=
  match j with
  | JDict d => S (list_max (map (fun kv => height kv.2) d))
  | JList l => S (list_max (map height l))
  | _ => 0
  end.

(** The value an entry of a dict is replaced by, given the recursive call. *)
Definition redact_entry (rec : json -> json) (key : string) (value : json) : json :=
  if is_sealed_secret value then JStr REDACTED_PLACEHOLDER
  else match value with
       | JStr _ => if key_is_secret_name key then JStr REDACTED_PLACEHOLDER else value
       | _ => rec value
       end.

(** [_redact_inplace], on a copy.  The fuel is the height of the value, which
    redacting the bags does not increase. *)
Fixpoint redact_fuel (fuel : nat) (node : json) : json :=
  match fuel with
  | 0 => node
  | S fuel' =>
      match node with
      | JDict d =>
          let d := match dget "attribute_bags" d with
                   | Some (JDict bags) => dset "attribute_bags" (redact_bag_paths (JDict bags)) d
                   | _ => d
                   end in
          JDict (map (fun kv => (kv.1, redact_entry (redact_fuel fuel') kv.1 kv.2)) d)
      | JList l => JList (map (redact_fuel fuel') l)
      | _ => node
      end
  end.
Definition redact_inplace (node : json) : json := redact_fuel (height node) node.

(** ** Scrubbing known cleartext secrets out of strings *)

Definition occurs_at (text secret : string) (i : nat) : bool :=
  String.eqb (String.substring i (String.length secret) text) secret && (i + String.length secret <=? String.length text).

(** All [text.find] hits, overlapping ones included. *)
Definition spans_of (text secret : string) : list (nat * nat) :=
  (fun i => (i, i + String.length secret)) <$> filter (fun i => occurs_at text secret i = true) (seq 0 (S (String.length text))).

(** Tuples compare by the first component, then the second. *)
Definition span_le (a b : nat * nat) : Prop := a.1 < b.1 \/ (a.1 = b.1 /\ a.2 <= b.2).
#[export] Instance span_le_dec a b : Decision (span_le a b).
Proof. unfold span_le. apply _. Defined.

Fixpoint merge_spans (last : nat * nat) (rest : list (nat * nat)) : list (nat * nat) :=
  match rest with
  | [] => [last]
  | (b, e) :: rest' =>
      if b <=? last.2 then merge_spans (last.1, Nat.max last.2 e) rest'
      else last :: merge_spans (b, e) rest'
  end.

Fixpoint cut_spans (text : string) (cursor : nat) (merged : list (nat * nat)) : string :=
  match merged with
  | [] => String.substring cursor (String.length text - cursor) text
  | (b, e) :: rest =>
      String.substring cursor (b - cursor) text +:+ REDACTED_PLACEHOLDER +:+ cut_spans text e rest
  end.

Definition scrub_string (text : string) (secrets : list string) : string :=
  match merge_sort span_le (concat (spans_of text <$> secrets)) with
  | [] => text
  | s :: rest => cut_spans text 0 (merge_spans s rest)
  end.

Fixpoint scrub_known_values (secrets : list string) (node : json) : json :=
  match node with
  | JStr s => JStr (scrub_string s secrets)
  | JDict d => JDict (map (fun kv => (kv.1, scrub_known_values secrets kv.2)) d)
  | JList l => JList (map (scrub_known_values secrets) l)
  | _ => node
  end.

(** [sorted(known, key=len, reverse=True)] *)
Definition longer (a b : string) : Prop := String.length b <= String.length a.
#[export] Instance longer_dec a b : Decision (longer a b).
Proof. unfold longer. apply _. Defined.
Definition longest_first (known : list string) : list string := merge_sort longer known.

Definition redact_secrets_in_data (known : list string) (data : json) : json :=
  let cloned := redact_inplace data in
  match known with [] => cloned | _ => scrub_known_values (longest_first known) cloned end.

Definition scrub_known_secrets (known : list string) (data : json) : json :=
  match known with [] => data | _ => scrub_known_values (longest_first known) data end.

(** * Facts *)

(** ** Redaction *)

(** No dict entry, at any depth, holds an envelope, nor a string under a secret
    name other than the placeholder. *)
Fixpoint clean (j : json) : bool :=
  match j with
  | JDict d => forallb (fun kv =>
      negb (is_sealed_secret kv.2)
      && match kv.2 with JStr s => negb (key_is_secret_name kv.1) || String.eqb s REDACTED_PLACEHOLDER | _ => true end
      && clean kv.2) d
  | JList l => forallb clean l
  | _ => true
  end.

Lemma list_max_le_forall (l : list nat) n : list_max l <= n <-> Forall (fun k => k <= n) l.
Proof. apply list_max_le. Qed.

Lemma height_entries d n :
  height (JDict d) <= S n <-> forall k v, (k, v) ∈ d -> height v <= n.
Proof.
  simpl. rewrite <- Nat.succ_le_mono, list_max_le_forall, Forall_forall.
  split.
  - intros H k v Hin. apply H. apply (list_elem_of_fmap_2 (fun kv : string * json => height kv.2) d (k, v)). done.
  - intros H x Hx. apply (list_elem_of_fmap (fun kv : string * json => height kv.2)) in Hx as ([k v] & -> & Hin). eauto.
Qed.

Lemma height_items l n : height (JList l) <= S n <-> forall v, v ∈ l -> height v <= n.
Proof.
  simpl. rewrite <- Nat.succ_le_mono, list_max_le_forall, Forall_forall.
  split; [intros H v Hin; apply H; by apply (list_elem_of_fmap_2 height)|].
  intros H x (v & -> & Hin)%(list_elem_of_fmap height). eauto.
Qed.

Lemma elem_of_dset k v k' v' (d : dict json) : (k, v) ∈ dset k' v' d -> (k, v) ∈ d \/ (k = k' /\ v = v').
Proof.
  induction d as [|[k0 v0] d IH]; simpl.
  - intros [= -> ->]%list_elem_of_singleton. by right.
  - case_decide as Hk.
    + intros [[= -> ->]|Hin]%elem_of_cons; [by right; subst|]. left. by right.
    + intros [->|Hin]%elem_of_cons; [left; by left|]. destruct (IH Hin); [left; by right|by right].
Qed.

Lemma redact_leaves_height j n : height j <= n -> height (redact_leaves j) <= n.
Proof.
  revert n. induction j as [| | | | |l IH|d IH] using json_ind'; intros n; simpl; try lia.
  - intros Hn. destruct n as [|n]; [lia|]. pose proof (proj1 (height_items l n) Hn) as Hl.
    apply (height_items (map redact_leaves l) n). intros v (w & -> & Hw)%(list_elem_of_fmap redact_leaves).
    rewrite Forall_forall in IH. apply IH; [done|by apply Hl].
  - intros Hn. destruct n as [|n]; [lia|]. pose proof (proj1 (height_entries d n) Hn) as Hl.
    apply (height_entries (map (fun kv => (kv.1, redact_leaves kv.2)) d) n).
    intros k v ([k' w] & [= -> ->] & Hw)%(list_elem_of_fmap (fun kv : string * json => (kv.1, redact_leaves kv.2))).
    rewrite Forall_forall in IH. apply (IH (k', w)); [done|by apply (Hl k')].
Qed.

Lemma update_path_height path f j n :
  (forall j n, height j <= n -> height (f j) <= n) -> height j <= n -> height (update_path path f j) <= n.
Proof.
  intros Hf. revert j n. induction path as [|k path IH]; intros j n Hj; simpl; [by apply Hf|].
  destruct j as [| | | | | |d]; try done. destruct (dget k d) as [v|] eqn:Hv; [|done].
  destruct n as [|n]; [simpl in Hj; lia|]. apply height_entries. intros k' v' Hin.
  pose proof (proj1 (height_entries d n) Hj) as Hd.
  apply elem_of_dset in Hin as [Hin|[-> ->]]; [by apply (Hd k')|]. apply IH. apply (Hd k). by apply dget_Some_elem.
Qed.

Lemma redact_present_height j n : height j <= n -> height (redact_present j) <= n.
Proof. unfold redact_present. intros Hj. destruct (secret_is_present j); simpl; lia. Qed.

Lemma redact_bag_paths_height j n : height j <= n -> height (redact_bag_paths j) <= n.
Proof.
  intros Hj. unfold redact_bag_paths. cbn [foldl SECRET_BAG_SUBTREES SECRET_BAG_PATHS].
  repeat (apply update_path_height; [first [exact redact_present_height | exact redact_leaves_height]|]). done.
Qed.

(** The dict after its bags have been redacted. *)
Definition redact_bags (d : dict json) : dict json :=
  match dget "attribute_bags" d with
  | Some (JDict bags) => dset "attribute_bags" (redact_bag_paths (JDict bags)) d
  | _ => d
  end.

Lemma redact_fuel_dict n d :
  redact_fuel (S n) (JDict d) = JDict (map (fun kv => (kv.1, redact_entry (redact_fuel n) kv.1 kv.2)) (redact_bags d)).
Proof. done. Qed.

Lemma redact_bags_height d n : height (JDict d) <= S n -> height (JDict (redact_bags d)) <= S n.
Proof.
  intros Hd. unfold redact_bags. destruct (dget "attribute_bags" d) as [[| | | | | |bags]|] eqn:Hb; try done.
  pose proof (proj1 (height_entries d n) Hd) as He. apply height_entries. intros k v Hin.
  apply elem_of_dset in Hin as [Hin|[-> ->]]; [by apply (He k)|].
  apply redact_bag_paths_height. apply (He "attribute_bags"). by apply dget_Some_elem.
Qed.

Lemma redact_bags_lookup d k :
  k ≠ "attribute_bags" -> dget k (redact_bags d) = dget k d.
Proof.
  intros Hk. unfold redact_bags. destruct (dget "attribute_bags" d) as [[| | | | | |bags]|]; try done. by apply dget_dset_ne.
Qed.

Lemma dget_map (f : string -> json -> json) k (d : dict json) :
  dget k (map (fun kv => (kv.1, f kv.1 kv.2)) d) = f k <$> dget k d.
Proof. induction d as [|[k' v] d IH]; simpl; [done|]. case_decide; [by subst|done]. Qed.

(** Redacting the inside of a value does not make it an envelope. *)
Lemma redact_fuel_sealed n j : is_sealed_secret j = false -> is_sealed_secret (redact_fuel n j) = false.
Proof.
  destruct n as [|n]; [done|]. destruct j as [| | | | | |d]; try done.
  rewrite redact_fuel_dict. unfold is_sealed_secret. intros Hs.
  apply andb_false_iff in Hs as [Hs|Hs]; apply andb_false_iff.
  - left. apply bool_decide_eq_false in Hs. apply bool_decide_eq_false. intros Hm. apply Hs.
    rewrite (dget_map (redact_entry (redact_fuel n))), redact_bags_lookup in Hm by done.
    apply fmap_Some in Hm as (v & Hv & He). rewrite Hv. f_equal. unfold redact_entry in He.
    destruct (is_sealed_secret v); [done|]. destruct v; simpl in He; try done; destruct n; done || (simpl in He; congruence).
  - right. unfold dmem in *. apply bool_decide_eq_false in Hs. apply bool_decide_eq_false. intros Hm. apply Hs.
    apply elem_of_dkeys in Hm as [v Hm]. rewrite (dget_map (redact_entry (redact_fuel n))), redact_bags_lookup in Hm by done.
    apply fmap_Some in Hm as (w & Hw & _). apply elem_of_dkeys. eauto.
Qed.

Lemma redact_fuel_clean n j : height j <= n -> clean (redact_fuel n j) = true.
Proof.
  revert j. induction n as [|n IH]; intros j Hj.
  { destruct j; simpl in *; done || lia. }
  destruct j as [| | | | |l|d]; try done.
  - cbn [redact_fuel clean]. apply forallb_forall. intros v Hv%list_elem_of_In.
    apply (list_elem_of_fmap (redact_fuel n)) in Hv as (w & -> & Hw). apply IH. by apply (proj1 (height_items l n) Hj).
  - rewrite redact_fuel_dict. cbn [clean]. apply forallb_forall. intros kv Hkv%list_elem_of_In.
    apply (list_elem_of_fmap (fun kv : string * json => (kv.1, redact_entry (redact_fuel n) kv.1 kv.2))) in Hkv as ([k v] & -> & Hin).
    cbn [fst snd]. assert (Hh : height v <= n) by (by apply (proj1 (height_entries _ n) (redact_bags_height d n Hj) k)).
    unfold redact_entry. destruct (is_sealed_secret v) eqn:Hs; [by rewrite String.eqb_refl, orb_true_r|].
    assert (Hrec : (forall s, v ≠ JStr s) -> negb (is_sealed_secret (redact_fuel n v)) &&
      match redact_fuel n v with JStr s => negb (key_is_secret_name k) || String.eqb s REDACTED_PLACEHOLDER | _ => true end &&
      clean (redact_fuel n v) = true).
    { intros Hstr. rewrite (redact_fuel_sealed n v Hs), (IH v Hh), andb_true_r. simpl.
      destruct n, v; try done; by destruct (Hstr s). }
    destruct v as [| | | |s| |]; try (apply Hrec; done).
    destruct (key_is_secret_name k) eqn:Hk; rewrite ?Hk; [by rewrite String.eqb_refl|done].
Qed.

(** ** The known secret places of an attribute bag *)

Fixpoint lookup_path (path : list string) (j : json) : option json :=
  match path with
  | [] => Some j
  | k :: rest => match j with JDict d => v ← dget k d; lookup_path rest v | _ => None end
  end.

Lemma lookup_update_same path f j : lookup_path path (update_path path f j) = f <$> lookup_path path j.
Proof.
  revert j. induction path as [|k path IH]; intros j; [done|]. destruct j as [| | | | | |d]; try done.
  cbn [update_path lookup_path]. destruct (dget k d) as [v|] eqn:Hv; [|cbn [lookup_path]; by rewrite Hv].
  cbn [lookup_path]. rewrite dget_dset_eq. simpl. apply IH.
Qed.

(** Paths that part at their first key do not interfere. *)
Lemma lookup_update_other k k' path path' f j :
  k ≠ k' -> lookup_path (k :: path) (update_path (k' :: path') f j) = lookup_path (k :: path) j.
Proof.
  intros Hk. destruct j as [| | | | | |d]; try done. cbn [update_path]. destruct (dget k' d) as [v|] eqn:Hv; [|done].
  cbn [lookup_path]. by rewrite dget_dset_ne.
Qed.

Lemma redact_bag_paths_secret bags path leaf :
  path ∈ SECRET_BAG_PATHS -> lookup_path path (redact_bag_paths bags) = Some leaf ->
  secret_is_present leaf = true -> leaf = JStr REDACTED_PLACEHOLDER.
Proof.
  intros Hp Hl Hs.
  assert (Hex : exists j, lookup_path path (redact_bag_paths bags) = redact_present <$> lookup_path path j).
  { unfold redact_bag_paths. cbn [foldl SECRET_BAG_SUBTREES SECRET_BAG_PATHS].
    repeat (apply elem_of_cons in Hp as [->|Hp]); [| | |by apply not_elem_of_nil in Hp].
    - rewrite lookup_update_other by done. rewrite lookup_update_other by done. rewrite lookup_update_same. eauto.
    - rewrite lookup_update_other by done. rewrite lookup_update_same. eauto.
    - rewrite lookup_update_same. eauto. }
  destruct Hex as [j Hj]. rewrite Hl in Hj. destruct (lookup_path path j) as [l0|]; simplify_eq/=.
  unfold redact_present in *. destruct (secret_is_present l0) eqn:H0; [done|congruence].
Qed.

(** The subtrees: every scalar below them is the placeholder. *)
Fixpoint all_redacted (j : json) : bool :=
  match j with
  | JDict d => forallb (fun kv => all_redacted kv.2) d
  | JList l => forallb all_redacted l
  | JNull => true
  | JStr s => String.eqb s REDACTED_PLACEHOLDER
  | _ => false
  end.

Lemma redact_leaves_all j : all_redacted (redact_leaves j) = true.
Proof.
  induction j as [| | | | |l IH|d IH] using json_ind'; try done; simpl; apply forallb_forall.
  - intros v (w & -> & Hw)%list_elem_of_In%(list_elem_of_fmap redact_leaves). rewrite Forall_forall in IH. by apply IH.
  - intros kv ([k w] & -> & Hw)%list_elem_of_In%(list_elem_of_fmap (fun kv : string * json => (kv.1, redact_leaves kv.2))).
    rewrite Forall_forall in IH. by apply (IH (k, w)).
Qed.

Lemma redact_bag_paths_subtree bags path j :
  path ∈ SECRET_BAG_SUBTREES -> lookup_path path (redact_bag_paths bags) = Some j -> all_redacted j = true.
Proof.
  intros Hp Hl.
  assert (Hex : exists b, lookup_path path (redact_bag_paths bags) = lookup_path path b /\
    exists i, lookup_path path b = redact_leaves <$> i).
  { unfold redact_bag_paths. cbn [foldl SECRET_BAG_SUBTREES SECRET_BAG_PATHS].
    repeat (apply elem_of_cons in Hp as [->|Hp]); [| |by apply not_elem_of_nil in Hp].
    - eexists. split; [do 3 (rewrite lookup_update_other by done); reflexivity|].
      set (b := update_path ["nautobot"; "config_context"] redact_leaves bags).
      assert (H1 : lookup_path ["nautobot"; "config_context"]
        (update_path ["nautobot"; "local_config_context_data"] redact_leaves b) = lookup_path ["nautobot"; "config_context"] b).
      { destruct b as [| | | | | |d]; try done. cbn [update_path lookup_path].
        destruct (dget "nautobot" d) as [v|] eqn:Hv; [|cbn [lookup_path]; by rewrite Hv].
        cbn [lookup_path]. rewrite dget_dset_eq. simpl.
        apply (lookup_update_other "config_context" "local_config_context_data" [] []). done. }
      rewrite H1. unfold b. rewrite lookup_update_same. eauto.
    - eexists. split; [do 3 (rewrite lookup_update_other by done); reflexivity|]. rewrite lookup_update_same. eauto. }
  destruct Hex as (b & Heq & i & Hi). rewrite Heq, Hi in Hl. destruct i; simplify_eq/=. apply redact_leaves_all.
Qed.

(** ** Bags anywhere in the data *)

(** A value inside another one, at any depth. *)
Inductive inside : json -> json -> Prop :=
  | inside_self j : inside j j
  | inside_key d k v j : dget k d = Some v -> inside v j -> inside (JDict d) j
  | inside_item l v j : v ∈ l -> inside v j -> inside (JList l) j.

(** What is promised of the bags of a device. *)
Definition bags_redacted (bags : json) : Prop :=
  (forall path leaf, path ∈ SECRET_BAG_PATHS -> lookup_path path bags = Some leaf ->
     secret_is_present leaf = true -> leaf = JStr REDACTED_PLACEHOLDER) /\
  (forall path j, path ∈ SECRET_BAG_SUBTREES -> lookup_path path bags = Some j -> all_redacted j = true).

Lemma redact_bag_paths_redacted bags : bags_redacted (redact_bag_paths bags).
Proof. split; [apply redact_bag_paths_secret|apply redact_bag_paths_subtree]. Qed.

(** An all-placeholder document stays one under the rest of the redaction. *)
Lemma all_redacted_dict d : all_redacted (JDict d) = true <-> forall k v, (k, v) ∈ d -> all_redacted v = true.
Proof.
  cbn [all_redacted]. rewrite forallb_forall. split.
  - intros H k v Hin. apply (H (k, v)). by apply list_elem_of_In.
  - intros H [k v] Hin. apply (H k). by apply list_elem_of_In.
Qed.

Lemma all_redacted_dset k v d : all_redacted (JDict d) = true -> all_redacted v = true -> all_redacted (JDict (dset k v d)) = true.
Proof. rewrite !all_redacted_dict. intros Hd Hv k' v' [Hin|[-> ->]]%elem_of_dset; [by eapply Hd|done]. Qed.

Lemma all_redacted_update path f j :
  (forall i, all_redacted i = true -> all_redacted (f i) = true) -> all_redacted j = true -> all_redacted (update_path path f j) = true.
Proof.
  intros Hf. revert j. induction path as [|k path IH]; intros j Hj; [by apply Hf|]. destruct j as [| | | | | |d]; try done.
  cbn [update_path]. destruct (dget k d) as [v|] eqn:Hv; [|done]. apply all_redacted_dset; [done|]. apply IH.
  apply (proj1 (all_redacted_dict d) Hj k). by apply dget_Some_elem.
Qed.

Lemma all_redacted_bag_paths j : all_redacted j = true -> all_redacted (redact_bag_paths j) = true.
Proof.
  intros Hj. unfold redact_bag_paths. cbn [foldl SECRET_BAG_SUBTREES SECRET_BAG_PATHS].
  repeat (apply all_redacted_update; [intros i Hi; first [apply redact_leaves_all | by unfold redact_present; destruct (secret_is_present i)]|]). done.
Qed.

Lemma all_redacted_bags d : all_redacted (JDict d) = true -> all_redacted (JDict (redact_bags d)) = true.
Proof.
  intros Hd. unfold redact_bags. destruct (dget "attribute_bags" d) as [[| | | | | |bags]|] eqn:Hb; try done.
  apply all_redacted_dset; [done|]. apply all_redacted_bag_paths. apply (proj1 (all_redacted_dict d) Hd "attribute_bags"). by apply dget_Some_elem.
Qed.

Lemma redact_entry_all rec k v : (all_redacted v = true -> all_redacted (rec v) = true) -> all_redacted v = true -> all_redacted (redact_entry rec k v) = true.
Proof.
  intros Hrec Hv. unfold redact_entry. destruct (is_sealed_secret v); [done|]. destruct v; auto. by destruct (key_is_secret_name k).
Qed.

Lemma redact_fuel_all n j : all_redacted j = true -> all_redacted (redact_fuel n j) = true.
Proof.
  revert j. induction n as [|n IH]; intros j Hj; [done|]. destruct j as [| | | | |l|d]; try done.
  - cbn [redact_fuel all_redacted] in *. rewrite forallb_forall in *. intros v Hv%list_elem_of_In.
    apply (list_elem_of_fmap (redact_fuel n)) in Hv as (w & -> & Hw). apply IH, Hj. by apply list_elem_of_In.
  - rewrite redact_fuel_dict. apply all_redacted_dict. intros k v Hin.
    apply (list_elem_of_fmap (fun kv : string * json => (kv.1, redact_entry (redact_fuel n) kv.1 kv.2))) in Hin as ([k' w] & [= -> ->] & Hin).
    apply redact_entry_all; [apply IH|]. by apply (proj1 (all_redacted_dict _) (all_redacted_bags d Hj) k').
Qed.

(** What the rest of the redaction makes of a leaf *)
Inductive rest_of_leaf (leaf : json) : json -> Prop :=
  | leaf_placeholder : rest_of_leaf leaf (JStr REDACTED_PLACEHOLDER)
  | leaf_rest n : rest_of_leaf leaf (redact_fuel n leaf).

Lemma redact_entry_leaf n k v : rest_of_leaf v (redact_entry (redact_fuel n) k v).
Proof.
  unfold redact_entry. destruct (is_sealed_secret v); [constructor|]. destruct v as [| | | |s| |]; try by constructor.
  destruct (key_is_secret_name k); [constructor|]. exact (leaf_rest (JStr s) 0).
Qed.

Lemma lookup_redacted n path j leaf :
  "attribute_bags" ∉ path -> lookup_path path (redact_fuel n j) = Some leaf -> exists leaf0, lookup_path path j = Some leaf0 /\ rest_of_leaf leaf0 leaf.
Proof.
  revert n j. induction path as [|k path IH]; intros n j Hpath; cbn [lookup_path]; [intros [= <-]; exists j; split; [done|constructor]|].
  apply not_elem_of_cons in Hpath as [Hk Hpath]. destruct n as [|n]; [intros H; exists leaf; split; [exact H|exact (leaf_rest leaf 0)]|].
  destruct j as [| | | | | |d]; try done. rewrite redact_fuel_dict, (dget_map (redact_entry (redact_fuel n))), redact_bags_lookup by done.
  destruct (dget k d) as [v|]; [|done]. cbn [fmap option_fmap option_map mbind option_bind]. intros Hl.
  destruct (redact_entry_leaf n k v) as [|m]; [|by eapply IH]. destruct path as [|k' path]; [|done].
  cbn [lookup_path] in *. injection Hl as <-. exists v. split; [done|constructor].
Qed.

Lemma rest_of_leaf_present leaf0 leaf :
  (secret_is_present leaf0 = true -> leaf0 = JStr REDACTED_PLACEHOLDER) -> rest_of_leaf leaf0 leaf ->
  secret_is_present leaf = true -> leaf = JStr REDACTED_PLACEHOLDER.
Proof.
  intros H0 [|n]; [done|]. intros Hp. destruct (secret_is_present leaf0) eqn:Hs; [rewrite H0 by done; by destruct n|].
  unfold secret_is_present in *. destruct (is_sealed_secret leaf0) eqn:Hsealed; [done|].
  rewrite (redact_fuel_sealed n leaf0 Hsealed) in Hp. destruct n, leaf0; cbn [redact_fuel orb] in Hp, Hs; first [done | congruence].
Qed.

Lemma rest_of_leaf_all leaf0 leaf : all_redacted leaf0 = true -> rest_of_leaf leaf0 leaf -> all_redacted leaf = true.
Proof. intros H0 [|n]; [done|]. by apply redact_fuel_all. Qed.

Lemma known_places_apart path : path ∈ SECRET_BAG_PATHS \/ path ∈ SECRET_BAG_SUBTREES -> "attribute_bags" ∉ path.
Proof.
  assert (H : forallb (fun path => negb (bool_decide ("attribute_bags" ∈ path))) (SECRET_BAG_PATHS ++ SECRET_BAG_SUBTREES) = true) by (vm_compute; reflexivity).
  intros Hp. apply elem_of_app in Hp. rewrite forallb_forall in H. apply list_elem_of_In in Hp. apply H, negb_true_iff, bool_decide_eq_false in Hp. done.
Qed.

Lemma bags_redacted_rest n bags : bags_redacted bags -> bags_redacted (redact_fuel n bags).
Proof.
  intros [Hsec Hsub]. split.
  - intros path leaf Hp (leaf0 & Hl & Hleaf)%lookup_redacted; [|by apply known_places_apart; left].
    eapply rest_of_leaf_present; [|done]. by apply (Hsec path).
  - intros path j Hp (leaf0 & Hl & Hleaf)%lookup_redacted; [|by apply known_places_apart; right].
    eapply rest_of_leaf_all; [|done]. by apply (Hsub path).
Qed.

Lemma inside_not_dict v d : (forall d, v ≠ JDict d) -> (forall l, v ≠ JList l) -> ~ inside v (JDict d).
Proof. intros Hd Hl H. inversion H; subst; [by eapply Hd|by eapply Hd|by eapply Hl]. Qed.

Lemma inside_list l d : inside (JList l) (JDict d) -> exists v, v ∈ l /\ inside v (JDict d).
Proof. intros H. inversion H; subst. eauto. Qed.
Lemma inside_dict d0 d : inside (JDict d0) (JDict d) -> d = d0 \/ exists k v, dget k d0 = Some v /\ inside v (JDict d).
Proof. intros H. inversion H; subst; [by left|right; eauto]. Qed.

Lemma redact_fuel_bags n j : height j <= n ->
  forall d bags, inside (redact_fuel n j) (JDict d) -> dget "attribute_bags" d = Some (JDict bags) -> bags_redacted (JDict bags).
Proof.
  revert j. induction n as [|n IH]; intros j Hj d bags Hin Hbags.
  { destruct j as [| | | | |l|d0]; [by apply inside_not_dict in Hin..| |]; cbn in Hj; lia. }
  destruct j as [| | | | |l|d0]; [by apply inside_not_dict in Hin..| |].
  - cbn [redact_fuel] in Hin. apply inside_list in Hin as (v & Hv & Hin').
    apply (list_elem_of_fmap (redact_fuel n)) in Hv as (w & -> & Hw). eapply IH; [|done|done]. by apply (proj1 (height_items l n) Hj).
  - rewrite redact_fuel_dict in Hin. apply inside_dict in Hin as [->|(k & v & Hv & Hin')].
    + rewrite (dget_map (redact_entry (redact_fuel n))) in Hbags. unfold redact_bags in Hbags.
      assert (Hrec : forall v, redact_entry (redact_fuel n) "attribute_bags" v = JDict bags -> JDict bags = redact_fuel n v /\ exists d', v = JDict d').
      { intros v Hv. unfold redact_entry in Hv. destruct (is_sealed_secret v); [done|].
        destruct v as [| | | |s|l|b]; cbn in Hv; try (by destruct n); try done. split; [done|by eexists]. }
      destruct (dget "attribute_bags" d0) as [v|] eqn:Hv; [|by rewrite Hv in Hbags].
      destruct v as [| | | | | |b]; rewrite ?Hv, ?dget_dset_eq in Hbags; cbn [fmap option_fmap option_map] in Hbags; injection Hbags as Hbags;
        apply Hrec in Hbags as [Heq [d' Hd']]; try done.
      rewrite Heq. apply bags_redacted_rest, redact_bag_paths_redacted.
    + rewrite (dget_map (redact_entry (redact_fuel n))) in Hv. destruct (dget k (redact_bags d0)) as [w|] eqn:Hw; [|done].
      cbn [fmap option_fmap option_map] in Hv. injection Hv as <-.
      assert (Hh : height w <= n) by (apply (proj1 (height_entries _ n) (redact_bags_height d0 n Hj) k); by apply dget_Some_elem).
      unfold redact_entry in Hin'. destruct (is_sealed_secret w); [by apply inside_not_dict in Hin'|].
      destruct w; try (eapply IH; [exact Hh|exact Hin'|exact Hbags]). destruct (key_is_secret_name k); by apply inside_not_dict in Hin'.
Qed.

(** C29. What is persisted of a step's output holds no sealed envelope as a dict
    value and no string under a secret name, at any depth; and wherever in it a
    dict has attribute bags, the known secret places of the bags hold the
    placeholder instead of a secret, and the free-form documents among them have
    no scalar but the placeholder. *)
Theorem redaction_complete (data : json) :
  clean (redact_inplace data) = true /\
  forall d bags, inside (redact_inplace data) (JDict d) -> dget "attribute_bags" d = Some (JDict bags) ->
    (forall path leaf, path ∈ SECRET_BAG_PATHS -> lookup_path path (JDict bags) = Some leaf ->
       secret_is_present leaf = true -> leaf = JStr REDACTED_PLACEHOLDER) /\
    (forall path j, path ∈ SECRET_BAG_SUBTREES -> lookup_path path (JDict bags) = Some j -> all_redacted j = true).
Proof.
  split; [by apply redact_fuel_clean|]. intros d bags Hin Hbags. by apply (redact_fuel_bags (height data) data (Nat.le_refl _) d bags).
Qed.

(** A device with a TACACS secret and a free-form document, in a list of devices *)
Definition leaky_device : json :=
  JDict [("name", JStr "r1");
         ("attribute_bags", JDict [("tacacs", JDict [("shared_secret", JStr "s3cret")]);
                                   ("nautobot", JDict [("config_context", JDict [("v3_auth", JStr "hunter2"); ("mtu", JInt 9000)])])])].
Definition redacted_bags : dict json :=
  [("tacacs", JDict [("shared_secret", JStr REDACTED_PLACEHOLDER)]);
   ("nautobot", JDict [("config_context", JDict [("v3_auth", JStr REDACTED_PLACEHOLDER); ("mtu", JStr REDACTED_PLACEHOLDER)])])].
Lemma redaction_complete_witness :
  redact_inplace (JList [leaky_device]) = JList [JDict [("name", JStr "r1"); ("attribute_bags", JDict redacted_bags)]] /\
  all_redacted (JDict [("v3_auth", JStr REDACTED_PLACEHOLDER); ("mtu", JStr REDACTED_PLACEHOLDER)]) = true.
Proof.
  assert (Heq : redact_inplace (JList [leaky_device]) = JList [JDict [("name", JStr "r1"); ("attribute_bags", JDict redacted_bags)]]) by (vm_compute; reflexivity).
  split; [exact Heq|].
  assert (Hin : inside (redact_inplace (JList [leaky_device])) (JDict [("name", JStr "r1"); ("attribute_bags", JDict redacted_bags)])).
  { rewrite Heq. eapply inside_item; [by left|constructor]. }
  apply (proj2 (proj2 (redaction_complete (JList [leaky_device])) _ redacted_bags Hin eq_refl) ["nautobot"; "config_context"]); [by left|reflexivity].
Defined.

(** An envelope that is an item of some list, however deep: below dict keys
    other than the bags' and in lists of lists *)
Inductive listed (e : json) : json -> Prop :=
  | listed_here l : e ∈ l -> listed e (JList l)
  | listed_item l j : j ∈ l -> listed e j -> listed e (JList l)
  | listed_key d k v : dget k d = Some v -> k ≠ "attribute_bags" -> is_sealed_secret v = false -> listed e v -> listed e (JDict d).

Lemma redact_envelope n encrypt plaintext : redact_fuel n (seal_secret encrypt plaintext) = seal_secret encrypt plaintext.
Proof. destruct n as [|[|n]]; vm_compute; reflexivity. Qed.

Lemma listed_redacted e n j : (forall m, redact_fuel m e = e) -> listed e j -> listed e (redact_fuel n j).
Proof.
  intros He Hl. revert n. induction Hl as [l Hin|l j Hin Hl IH|d k v Hv Hk Hs Hl IH]; intros [|n]; try by econstructor.
  - apply listed_here. apply (list_elem_of_fmap (redact_fuel n)). exists e. by rewrite He.
  - eapply listed_item; [|apply (IH n)]. apply (list_elem_of_fmap (redact_fuel n)). by exists j.
  - rewrite redact_fuel_dict. eapply (listed_key e _ k (redact_fuel n v)); [|done|by apply redact_fuel_sealed|apply IH].
    rewrite (dget_map (redact_entry (redact_fuel n))), redact_bags_lookup, Hv by done.
    cbn [fmap option_fmap option_map]. f_equal. unfold redact_entry. rewrite Hs.
    by inversion Hl; subst.
Qed.

(** C39. An envelope that is an item of a list is not redacted, wherever in the
    data the list is outside the attribute bags and the dict values that are
    redacted as a whole: the exported copy has the envelope, ciphertext and all, as
    an item of a list still. *)
Theorem sealed_list_item_survives encrypt plaintext data :
  listed (seal_secret encrypt plaintext) data -> listed (seal_secret encrypt plaintext) (redact_inplace data).
Proof. apply listed_redacted. intros m. apply redact_envelope. Qed.

Definition sealed_sample : json := seal_secret (fun s => s) "s3cret".
Lemma sealed_list_item_survives_witness :
  listed sealed_sample (JDict [("keys", JList [JNull; sealed_sample])]) /\
  listed sealed_sample (redact_inplace (JDict [("keys", JList [JNull; sealed_sample])])).
Proof.
  assert (Hl : listed sealed_sample (JDict [("keys", JList [JNull; sealed_sample])])).
  { eapply (listed_key _ _ "keys"); [reflexivity|discriminate|reflexivity|]. apply listed_here. right. by left. }
  split; [exact Hl|]. exact (sealed_list_item_survives (fun s => s) "s3cret" _ Hl).
Defined.

(** ** Scrubbing: the interval merge against a character-wise reference *)

Fixpoint stake (n : nat) (s : string) : string :=
  match n, s with S n', String c s' => String c (stake n' s') | _, _ => EmptyString end.
Fixpoint sdrop (n : nat) (s : string) : string :=
  match n, s with S n', String _ s' => sdrop n' s' | O, _ => s | S _, EmptyString => EmptyString end.

Lemma substring_take i n s : String.substring i n s = stake n (sdrop i s).
Proof.
  revert i n. induction s as [|c s IH]; intros i n.
  - by destruct i, n.
  - destruct i as [|i]; simpl; [|apply IH]. destruct n as [|n]; [done|]. simpl. f_equal. exact (IH 0 n).
Qed.

Lemma length_sdrop n s : String.length (sdrop n s) = String.length s - n.
Proof. revert s. induction n as [|n IH]; intros [|c s]; simpl; try lia. apply IH. Qed.
Lemma sdrop_sdrop n m s : sdrop n (sdrop m s) = sdrop (m + n) s.
Proof. revert s. induction m as [|m IH]; intros [|c s]; simpl; [by destruct n..|apply IH]. Qed.
Lemma stake_all s n : String.length s <= n -> stake n s = s.
Proof. revert n. induction s as [|c s IH]; intros [|n]; simpl; intros; try done; [lia|]. f_equal. apply IH. lia. Qed.
Lemma sdrop_all s n : String.length s <= n -> sdrop n s = EmptyString.
Proof. revert n. induction s as [|c s IH]; intros [|n]; simpl; intros; try done; [lia|]. apply IH. lia. Qed.

(** The reference: go through the text character by character, keep those that
    no occurrence covers, and put one placeholder for each covered run. *)
Fixpoint scrub_reference (covered : nat -> bool) (i : nat) (inside : bool) (text : string) : string :=
  match text with
  | EmptyString => EmptyString
  | String c rest =>
      if covered i then (if inside then "" else REDACTED_PLACEHOLDER) +:+ scrub_reference covered (S i) true rest
      else String c (scrub_reference covered (S i) false rest)
  end.

(** Position [i] lies in an occurrence of a secret. *)
Definition covered_by (text : string) (secrets : list string) (i : nat) : bool :=
  existsb (fun s => existsb (fun j => (j <=? i) && (i <? j + String.length s) && occurs_at text s j)
                      (seq 0 (S (String.length text)))) secrets.

Definition in_spans (l : list (nat * nat)) (i : nat) : Prop := exists sp, sp ∈ l /\ sp.1 <= i < sp.2.

Section Reference.
Context (cov : nat -> bool).

Lemma reference_skip k i inside t :
  (forall j, i <= j < i + k -> cov j = false) -> k <= String.length t ->
  scrub_reference cov i inside t = stake k t +:+ scrub_reference cov (i + k) (if decide (k = 0) then inside else false) (sdrop k t).
Proof.
  revert i inside t. induction k as [|k IH]; intros i inside t Hc Hk.
  { rewrite Nat.add_0_r. by destruct t. }
  destruct t as [|c t]; simpl in Hk; [lia|]. cbn [scrub_reference stake sdrop].
  rewrite Hc by lia. rewrite (IH (S i)) by (intros; try apply Hc; lia). rewrite (decide_False (P := S k = 0)) by lia.
  replace (i + S k) with (S i + k) by lia. cbn [String.append]. f_equal. by destruct (decide (k = 0)).
Qed.

Lemma reference_covered k i t :
  (forall j, i <= j < i + k -> cov j = true) -> k <= String.length t ->
  scrub_reference cov i true t = scrub_reference cov (i + k) true (sdrop k t).
Proof.
  revert i t. induction k as [|k IH]; intros i t Hc Hk.
  { rewrite Nat.add_0_r. by destruct t. }
  destruct t as [|c t]; simpl in Hk; [lia|]. cbn [scrub_reference sdrop].
  rewrite Hc by lia. rewrite (IH (S i)) by (intros; try apply Hc; lia). by replace (i + S k) with (S i + k) by lia.
Qed.

Lemma reference_leave i t :
  cov i = false \/ t = EmptyString -> scrub_reference cov i true t = scrub_reference cov i false t.
Proof. intros [H| ->]; [|done]. destruct t; simpl; [done|]. by rewrite H. Qed.

(** Disjoint spans in order, with a gap between neighbours. *)
Fixpoint separated (from : nat) (l : list (nat * nat)) (len : nat) : Prop :=
  match l with
  | [] => from <= len
  | (b, e) :: rest => from <= b < e /\ e <= len /\
      match rest with [] => True | (b', _) :: _ => e < b' end /\ separated e rest len
  end.

Lemma separated_bound from l len i : separated from l len -> in_spans l i -> from <= i.
Proof.
  revert from. induction l as [|[b e] l IH]; intros from Hs (sp & Hin & Hi); [by apply not_elem_of_nil in Hin|].
  simpl in Hs. destruct Hs as (Hb & He & _ & Hs). apply elem_of_cons in Hin as [->|Hin]; [simpl in Hi; lia|].
  assert (e <= i) by (apply IH; [done|by exists sp]). lia.
Qed.

Lemma separated_next b e rest len i : separated b ((b, e) :: rest) len -> in_spans rest i -> e < i \/ rest = [].
Proof.
  simpl. intros (_ & _ & Hgap & Hs) Hi. destruct rest as [|[b' e'] rest]; [by right|left].
  simpl in Hs. destruct Hs as (Hb & He & Hg & Hs).
  assert (b' <= i); [|lia]. eapply (separated_bound b' ((b', e') :: rest) len); [|done]. simpl. split_and!; [lia|lia|lia|done|done].
Qed.

Lemma cut_spans_reference text cursor l :
  separated cursor l (String.length text) ->
  (forall i, cursor <= i -> cov i = true <-> in_spans l i) ->
  cut_spans text cursor l = scrub_reference cov cursor false (sdrop cursor text).
Proof.
  revert cursor. induction l as [|[b e] l IH]; intros cursor Hs Hc.
  - cbn [cut_spans]. rewrite substring_take. simpl in Hs.
    assert (Hout : forall j, cursor <= j -> cov j = false).
    { intros j Hj. apply not_true_iff_false. intros Ht. apply Hc in Ht as (sp & Hin & _); [by apply not_elem_of_nil in Hin|done]. }
    rewrite (reference_skip (String.length text - cursor)) by (rewrite ?length_sdrop; try lia; intros; apply Hout; lia).
    rewrite sdrop_sdrop, (sdrop_all text (cursor + _)) by lia. cbn [scrub_reference].
    rewrite (stake_all (sdrop cursor text)) by (rewrite length_sdrop; lia).
    by induction (sdrop cursor text) as [|c s IHs]; simpl; [|rewrite IHs at 1].
  - simpl in Hs. destruct Hs as (Hb & He & Hgap & Hs). cbn [cut_spans]. rewrite substring_take.
    assert (Hout : forall j, cursor <= j < b -> cov j = false).
    { intros j Hj. apply not_true_iff_false. intros Ht. apply Hc in Ht as (sp & Hin & Hsp); [|lia].
      apply elem_of_cons in Hin as [->|Hin]; [simpl in Hsp; lia|].
      assert (e <= j) by (eapply separated_bound; [done|by exists sp]). lia. }
    assert (Hin : forall j, b <= j < e -> cov j = true).
    { intros j Hj. apply Hc; [lia|]. exists (b, e). split; [by left|done]. }
    assert (Hnext : cov e = false \/ sdrop e text = EmptyString).
    { destruct (cov e) eqn:Hce; [|by left]. right. apply Hc in Hce as (sp & Hsp & Hi); [|lia].
      apply elem_of_cons in Hsp as [->|Hsp]; [simpl in Hi; lia|]. exfalso.
      assert (Hi' : in_spans l e) by (by exists sp).
      destruct (separated_next b e l (String.length text) e) as [| ->]; [simpl; split_and!; [lia|lia|lia|done|done]|done|lia|].
      destruct Hi' as (sp' & ?%not_elem_of_nil & _). done. }
    rewrite (reference_skip (b - cursor)) by (rewrite ?length_sdrop; try lia; intros j Hj; apply Hout; lia).
    f_equal. rewrite sdrop_sdrop. replace (cursor + (b - cursor)) with b by lia.
    destruct (sdrop b text) as [|c t] eqn:Ht.
    { exfalso. pose proof (length_sdrop b text) as Hlen. rewrite Ht in Hlen. simpl in Hlen. lia. }
    cbn [scrub_reference]. rewrite Hin by lia.
    assert (Hpre : (if decide (b - cursor = 0) then false else false) = false) by (by case_decide). rewrite Hpre.
    f_equal. assert (Ht' : t = sdrop (S b) text).
    { replace (S b) with (b + 1) by lia. rewrite <- sdrop_sdrop, Ht. by destruct t. }
    subst t. rewrite (reference_covered (e - S b)) by (rewrite ?length_sdrop; try lia; intros j Hj; apply Hin; lia).
    rewrite sdrop_sdrop. replace (S b + (e - S b)) with e by lia. rewrite reference_leave by done.
    apply IH; [done|]. intros i Hi. rewrite Hc by lia. split.
    + intros (sp & Hsp & Hr). apply elem_of_cons in Hsp as [->|Hsp]; [simpl in Hr; lia|by exists sp].
    + intros (sp & Hsp & Hr). exists sp. split; [by right|done].
Qed.
End Reference.

(** ** The interval merge *)

Lemma merge_spans_head last rest :
  exists e tl, merge_spans last rest = (last.1, e) :: tl /\ last.2 <= e.
Proof.
  revert last. induction rest as [|[b e] rest IH]; intros last; simpl.
  { exists last.2, []. by destruct last. }
  destruct (Nat.leb_spec b last.2); [|exists last.2, (merge_spans (b, e) rest); by destruct last].
  destruct (IH (last.1, last.2 `max` e)) as (e' & tl & -> & He). simpl in *. exists e', tl. split; [done|lia].
Qed.

Definition sound_span (len : nat) (sp : nat * nat) : Prop := sp.1 < sp.2 /\ sp.2 <= len.

Lemma merge_spans_separated len from last rest :
  from <= last.1 -> sound_span len last -> Forall (sound_span len) rest ->
  StronglySorted span_le (last :: rest) -> separated from (merge_spans last rest) len.
Proof.
  revert from last. induction rest as [|[b e] rest IH]; intros from [lb le] Hf [Hl1 Hl2] Hr Hs; simpl in *.
  { split_and!; try done; lia. }
  apply Forall_cons in Hr as [[He1 He2] Hr]. apply StronglySorted_inv in Hs as [Hs Hall].
  apply Forall_cons in Hall as [Hle Hall]. apply StronglySorted_inv in Hs as [Hs Hall'].
  unfold span_le in Hle. simpl in *. destruct (Nat.leb_spec b le).
  - apply IH; simpl; [done|split; simpl; lia|done|]. constructor; [done|].
    apply Forall_forall. intros [b' e'] Hin. rewrite Forall_forall in Hall, Hall'.
    specialize (Hall _ Hin). specialize (Hall' _ Hin). unfold span_le in *. simpl in *. lia.
  - cbn [separated]. split_and!; [lia|lia|lia| |].
    + destruct (merge_spans_head (b, e) rest) as (e' & tl & -> & _). simpl. lia.
    + apply IH; [simpl; lia|by split|done|by constructor].
Qed.

Lemma in_spans_cons sp l i : in_spans (sp :: l) i <-> sp.1 <= i < sp.2 \/ in_spans l i.
Proof.
  unfold in_spans. split.
  - intros (sp' & Hin & Hi). apply elem_of_cons in Hin as [->|Hin]; [by left|right; eauto].
  - intros [Hi|(sp' & Hin & Hi)]; [exists sp; split; [by left|done]|exists sp'; split; [by right|done]].
Qed.

Lemma merge_spans_coverage len last rest i :
  sound_span len last -> Forall (sound_span len) rest -> StronglySorted span_le (last :: rest) ->
  in_spans (merge_spans last rest) i <-> in_spans (last :: rest) i.
Proof.
  revert last. induction rest as [|[b e] rest IH]; intros [lb le] [Hl1 Hl2] Hr Hs; [done|]. simpl in Hl1, Hl2.
  apply Forall_cons in Hr as [Hbe Hr]. pose proof Hbe as [Hbe1 Hbe2]. simpl in Hbe1, Hbe2.
  apply StronglySorted_inv in Hs as [Hs Hall]. apply Forall_cons in Hall as [Hle Hall].
  pose proof (StronglySorted_inv Hs) as [Hs' Hall']. unfold span_le in Hle. simpl in *.
  destruct (Nat.leb_spec b le).
  - rewrite IH; [|split; simpl; lia|done|].
    + rewrite !in_spans_cons. simpl. assert (lb <= i < le `max` e <-> lb <= i < le \/ b <= i < e) by lia. tauto.
    + constructor; [done|]. apply Forall_forall. intros [b' e'] Hin. rewrite Forall_forall in Hall, Hall'.
      specialize (Hall _ Hin). specialize (Hall' _ Hin). unfold span_le in *. simpl in *. lia.
  - rewrite (in_spans_cons _ (merge_spans _ _)), (in_spans_cons _ (_ :: _)). by rewrite IH.
Qed.

#[export] Instance span_le_total : Total span_le.
Proof. intros [] []. unfold span_le. simpl. lia. Qed.
#[export] Instance span_le_trans : Transitive span_le.
Proof. intros [] [] []. unfold span_le. simpl. lia. Qed.

Lemma elem_of_spans text secrets sp :
  sp ∈ concat (spans_of text <$> secrets) <->
  exists s, s ∈ secrets /\ occurs_at text s sp.1 = true /\ sp.2 = sp.1 + String.length s.
Proof.
  rewrite list_elem_of_In, in_concat. setoid_rewrite <- list_elem_of_In. split.
  - intros (l & (s & -> & Hs)%list_elem_of_fmap & Hsp). exists s. split; [done|].
    unfold spans_of in Hsp. apply list_elem_of_fmap in Hsp as (j & -> & Hj). apply list_elem_of_filter in Hj as [Hj _]. done.
  - intros (s & Hs & Ho & He). exists (spans_of text s). split; [by apply list_elem_of_fmap_2|].
    unfold spans_of. apply list_elem_of_fmap. exists sp.1. destruct sp as [b e]. cbn [fst snd] in *. split; [by subst|].
    apply list_elem_of_filter. split; [done|]. apply elem_of_seq. unfold occurs_at in Ho.
    apply andb_true_iff in Ho as [_ Ho%Nat.leb_le]. lia.
Qed.

Lemma covered_by_spec text secrets i :
  covered_by text secrets i = true <-> in_spans (concat (spans_of text <$> secrets)) i.
Proof.
  unfold covered_by, in_spans. rewrite existsb_exists. split.
  - intros (s & Hs%list_elem_of_In & (j & _ & Hj)%existsb_exists).
    apply andb_true_iff in Hj as [[H1%Nat.leb_le H2%Nat.ltb_lt]%andb_true_iff Ho].
    exists (j, j + String.length s). split; [|done]. apply elem_of_spans. by exists s.
  - intros ([b e] & (s & Hs & Ho & He)%elem_of_spans & Hi). cbn [fst snd] in *. exists s. split; [by apply list_elem_of_In|].
    apply existsb_exists. exists b. split.
    + rewrite <- list_elem_of_In, elem_of_seq. apply andb_true_iff in Ho as [_ Ho%Nat.leb_le]. lia.
    + rewrite Ho. subst e. rewrite !andb_true_iff, Nat.leb_le, Nat.ltb_lt. lia.
Qed.

(** C30. Scrubbing sorts and merges the intervals at which the secrets occur and
    cuts them out; the result is the text with every maximal run of characters
    that some occurrence of a secret covers replaced by one placeholder, and the
    other characters kept: no tail of an overlapping pair is left behind, and
    nothing else is lost. *)
Theorem scrub_string_correct (text : string) (secrets : list string) :
  Forall (fun s => s ≠ EmptyString) secrets ->
  scrub_string text secrets = scrub_reference (covered_by text secrets) 0 false text.
Proof.
  intros Hne. unfold scrub_string. set (l := merge_sort _ _).
  assert (Hperm : l ≡ₚ concat (spans_of text <$> secrets)) by apply merge_sort_Permutation.
  assert (Hsorted : StronglySorted span_le l) by (apply StronglySorted_merge_sort; apply _).
  assert (Hsound : Forall (sound_span (String.length text)) l).
  { apply Forall_forall. intros sp Hin. rewrite Hperm in Hin. apply elem_of_spans in Hin as (s & Hs & Ho & He).
    rewrite Forall_forall in Hne. specialize (Hne s Hs). apply andb_true_iff in Ho as [_ Ho%Nat.leb_le].
    unfold sound_span. destruct s; [done|]. simpl in *. lia. }
  assert (Hcov : forall i, covered_by text secrets i = true <-> in_spans l i).
  { intros i. rewrite covered_by_spec. unfold in_spans. by setoid_rewrite Hperm. }
  clearbody l. destruct l as [|sp rest].
  - rewrite (reference_skip _ (String.length text)); [|intros j _|done].
    + rewrite sdrop_all, stake_all by lia. simpl. clear. by induction text as [|c t IH]; simpl; [|rewrite IH at 1].
    + apply not_true_iff_false. intros (? & ?%not_elem_of_nil & _)%Hcov. done.
  - apply Forall_cons in Hsound as [H1 H2]. rewrite (cut_spans_reference (covered_by text secrets)); [done| |].
    + apply merge_spans_separated; [lia|done..].
    + intros i _. rewrite Hcov. symmetry. by apply (merge_spans_coverage (String.length text)).
Qed.

Lemma scrub_string_correct_witness :
  Forall (fun s => s ≠ EmptyString) ["defghijk"; "abcdefgh"] /\
  scrub_string "x abcdefghijk y" ["defghijk"; "abcdefgh"] = "x " +:+ REDACTED_PLACEHOLDER +:+ " y".
Proof.
  assert (H : Forall (fun s => s ≠ EmptyString) ["defghijk"; "abcdefgh"]) by (repeat constructor; discriminate).
  split; [exact H|]. rewrite (scrub_string_correct _ _ H). vm_compute. reflexivity.
Defined.
