(* ===== verification/RunInputs.v ===== *)
(** * Resolving the inputs of a run
      ([backend/services/execution/run_input_validation.py],
       [StaticAttributeDef] of [backend/models/workflows.py])

    What an operator or a schedule supplies is checked against the attributes a
    workflow declares: [resolve_run_inputs] merges the values with the declared
    defaults, coerces them and seals secrets.  Errors are collected in the
    mutable list the source passes around, here an argument and a result.

    [int(text)] and [float(text)] are written out for ASCII text: sign, digits
    with single underscores, the 4300-digit limit, and rounding to the nearest
    double.  An overflowing literal is Python's [inf], written here as
    [JFloat 1 1024] (a value no finite double has); the sign of zero is not
    kept. *)
From S2P Require Import Prelude Dict Json Context Secrets.

(** ** Text to number *)

Definition is_digit (c : ascii) : bool := let n := nat_of_ascii c in (48 <=? n) && (n <=? 57).
Definition digit_value (c : ascii) : Z := Z.of_nat (nat_of_ascii c) - 48.
Definition starts_with_digit (s : string) : bool := match s with String c _ => is_digit c | EmptyString => false end.

(** Digits, a single underscore allowed between two of them. *)
Fixpoint take_digits (after_digit : bool) (s : string) : list Z * string :=
  match s with
  | String c s' =>
      if is_digit c then let (ds, rest) := take_digits true s' in (digit_value c :: ds, rest)
      else if after_digit && Ascii.eqb c "_"%char && starts_with_digit s' then take_digits true s'
      else ([], s)
  | EmptyString => ([], EmptyString)
  end.

Definition digits_value (ds : list Z) : Z := foldl (fun a d => 10 * a + d)%Z 0%Z ds.

Definition take_sign (s : string) : Z * string :=
  match s with
  | String "+"%char s' => (1%Z, s')
  | String "-"%char s' => ((-1)%Z, s')
  | _ => (1%Z, s)
  end.

Definition MAX_STR_DIGITS : nat := 4300.

(** [int(text)]; [None] is [ValueError] *)
Definition py_int (text : string) : option Z :=
  let (sign, t) := take_sign (strip text) in
  match take_digits false t with
  | ([], _) => None
  | (ds, EmptyString) => if length ds <=? MAX_STR_DIGITS then Some (sign * digits_value ds)%Z else None
  | _ => None
  end.

(** [n / d] scaled by [2^-k] *)
Definition scale (n d k : Z) : Z * Z := if (0 <=? k)%Z then (n, d * 2 ^ k)%Z else (n * 2 ^ (- k), d)%Z.

(** The quotient rounded to the nearest integer, ties to even. *)
Definition round_half_even (n d : Z) : Z :=
  let q := (n / d)%Z in let r := (n mod d)%Z in
  if (2 * r <? d)%Z then q else if (d <? 2 * r)%Z then (q + 1)%Z else if Z.even q then q else (q + 1)%Z.

(** The double nearest to [n / d], both positive: [q * 2^k]. *)
Definition round_double (n d : Z) : Z * Z :=
  let l := (Z.log2 n - Z.log2 d)%Z in
  let (n', d') := scale n d l in
  let b := if (n' <? d')%Z then (l - 1)%Z else l in
  let k := Z.max (-1074) (b - 52) in
  let (n', d') := scale n d k in
  let q := round_half_even n' d' in
  if (1024 <=? Z.log2 q + k)%Z then (1, 1024)%Z else (q, k).

Definition decimal_to_double (sign mantissa exponent : Z) : json :=
  if (mantissa =? 0)%Z then JFloat 0 0 else
  let (q, k) := if (0 <=? exponent)%Z then round_double (mantissa * 10 ^ exponent) 1
                else round_double mantissa (10 ^ (- exponent)) in
  if (q =? 0)%Z then JFloat 0 0 else JFloat (sign * q) k.

Definition take_exponent (s : string) : option Z :=
  match s with
  | EmptyString => Some 0%Z
  | String c s' =>
      if Ascii.eqb c "e"%char || Ascii.eqb c "E"%char then
        let (sign, t) := take_sign s' in
        match take_digits false t with
        | ([], _) => None
        | (ds, EmptyString) => Some (sign * digits_value ds)%Z
        | _ => None
        end
      else None
  end.

(** [float(text)] of a numeral; the words [inf] and [nan] have neither a point
    nor an [e], so they never get here. *)
Definition py_float (text : string) : option json :=
  let (sign, t) := take_sign (strip text) in
  let (whole, rest) := take_digits false t in
  let (fraction, rest) := match rest with String "."%char rest' => take_digits false rest' | _ => ([], rest) end in
  match whole, fraction with
  | [], [] => None
  | _, _ =>
      exponent ← take_exponent rest;
      Some (decimal_to_double sign (digits_value (whole ++ fraction)) (exponent - Z.of_nat (length fraction)))
  end.

Fixpoint has_char (p : ascii -> bool) (s : string) : bool :=
  match s with EmptyString => false | String c s' => p c || has_char p s' end.

(** [float(value) if any(c in value for c in ".eE") else int(value)] *)
Definition parse_number (value : string) : option json :=
  if has_char (fun c => bool_decide (c ∈ ["."%char; "e"%char; "E"%char])) value then py_float value
  else JInt <$> py_int value.

Example parse_number_examples :
  parse_number " -1_000 " = Some (JInt (-1000)) /\ parse_number "1__0" = None /\ parse_number "nan" = None /\
  option_map (fun j => py_eq j (JFloat 1 (-1))) (parse_number "5e-1") = Some true /\
  option_map canon (parse_number "0.1") = Some (JFloat 3602879701896397 (-55)) /\
  parse_number "1e400" = Some (JFloat 1 1024) /\ option_map canon (parse_number ".5E1") = Some (canon (JInt 5)).
Proof. vm_compute. tauto. Qed.

(** ** Declared attributes *)

Inductive StaticAttributeType := AT_string | AT_number | AT_boolean | AT_reference | AT_secret.
Inductive ReferenceKind := RK_inventory | RK_credential.
#[export] Instance attribute_type_dec : EqDecision StaticAttributeType.
Proof. solve_decision. Defined.

Record StaticAttributeDef := Attr {
  at_name : string; at_type : StaticAttributeType; ref_kind : option ReferenceKind;
  at_default : option json;      (* [None] is Python's None, the absent default *)
  at_required : bool
}.

(** The model's validators. *)
Definition check_ref_kind (a : StaticAttributeDef) : bool :=
  ((1 <=? String.length (at_name a)) && (String.length (at_name a) <=? 100)) &&
  match at_type a, ref_kind a with
  | AT_reference, None => false
  | AT_reference, Some _ => true
  | _, Some _ => false
  | AT_secret, None => match at_default a with Some _ => false | None => true end
  | _, None => true
  end.

(** ** Coercion *)

Section Sealer.
Context (encrypt : string -> string).

(** Returns the value, or [None] with a message appended to [errors]. *)
Definition coerce_reference (a : StaticAttributeDef) (value : json) (errors : list string) : json * list string :=
  let fail m := (JNull, errors ++ [at_name a +:+ m]) in
  match ref_kind a with
  | Some RK_inventory =>
      match (match value with JInt z => Some z | JStr s => py_int s | _ => None end) with
      | None => fail ": expected an inventory id"
      | Some candidate => if (candidate <=? 0)%Z then fail ": expected a positive inventory id" else (JInt candidate, errors)
      end
  | Some RK_credential =>
      match value with
      | JStr s => if String.eqb (strip s) "" then fail ": expected a credential name" else (JStr (strip s), errors)
      | _ => fail ": expected a credential name"
      end
  | None => fail ": unsupported ref_kind None"
  end.

Definition coerce (a : StaticAttributeDef) (value : json) (errors : list string) : json * list string :=
  let fail m := (JNull, errors ++ [at_name a +:+ m]) in
  match at_type a with
  | AT_string => match value with JStr _ => (value, errors) | _ => fail ": expected a string" end
  | AT_number =>
      match value with
      | JInt _ | JFloat _ _ => (value, errors)
      | JStr s => match parse_number s with Some n => (n, errors) | None => fail ": expected a number" end
      | _ => fail ": expected a number"
      end
  | AT_boolean => match value with JBool _ => (value, errors) | _ => fail ": expected a boolean" end
  | AT_reference => coerce_reference a value errors
  | AT_secret =>
      if is_sealed_secret value then (value, errors)
      else match value with
           | JStr (String _ _ as s) => (seal_secret encrypt s, errors)
           | _ => fail ": expected a non-empty secret"
           end
  end.

(** One turn of the loop over the definitions. *)
Definition resolve_attr (supplied : dict json) (acc : dict json * list string) (a : StaticAttributeDef)
  : dict json * list string :=
  let (resolved, errors) := acc in
  match dget (at_name a) supplied with
  | Some value => let (v, errors') := coerce a value errors in (dset (at_name a) v resolved, errors')
  | None =>
      match at_default a with
      | Some d => (dset (at_name a) d resolved, errors)
      | None =>
          if at_required a then (resolved, errors ++ [at_name a +:+ ": required, no value supplied and no default"])
          else (resolved, errors)
      end
  end.

(** [sorted(set(supplied) - declared_names)] *)
Definition unknown_inputs (defs : list StaticAttributeDef) (supplied : dict json) : list string :=
  dkeys (ssort ((fun k => (k, tt)) <$> filter (fun k => k ∉ (at_name <$> defs)) (dkeys supplied))).

Definition resolve_run_inputs (defs : list StaticAttributeDef) (supplied : dict json) : res (dict json) :=
  if negb (forallb check_ref_kind defs) then Raise (ValueError "StaticAttributeDef" []) else
  match unknown_inputs defs supplied with
  | (_ :: _) as unknown => Raise (ValueError "Unknown run input(s) not declared on this workflow" unknown)
  | [] =>
      match foldl (resolve_attr supplied) ([], []) defs with
      | (resolved, []) => Ok resolved
      | (_, errors) => Raise (ValueError "; " errors)
      end
  end.
End Sealer.

(** * What is resolved *)

(** The values a declared attribute stands for: what downstream reads. *)
Definition well_typed (a : StaticAttributeDef) (w : json) : Prop :=
  match at_type a with
  | AT_string => exists s, w = JStr s
  | AT_number => (exists z, w = JInt z) \/ (exists m e, w = JFloat m e)
  | AT_boolean => exists b, w = JBool b
  | AT_secret => is_sealed_secret w = true
  | AT_reference =>
      match ref_kind a with
      | Some RK_inventory => exists z, w = JInt z /\ (0 < z)%Z
      | Some RK_credential => exists s, w = JStr s /\ strip s = s /\ s ≠ ""
      | None => False
      end
  end.

(** The reading of a supplied value, if it has one. *)
Definition reading encrypt (a : StaticAttributeDef) (value : json) : option json :=
  match coerce encrypt a value [] with (w, []) => Some w | _ => None end.

(** An attribute that cannot be resolved. *)
Definition offends encrypt (supplied : dict json) (a : StaticAttributeDef) : bool :=
  match dget (at_name a) supplied with
  | Some v => bool_decide (reading encrypt a v = None)
  | None => at_required a && bool_decide (at_default a = None)
  end.

Definition names (defs : list StaticAttributeDef) : list string := at_name <$> defs.

Section Facts.
Context (encrypt : string -> string).

Lemma rstrip_nonspace_last s : rstrip (rstrip s) = rstrip s.
Proof.
  induction s as [|c s IH]; [done|]. simpl. destruct (rstrip s) as [|c' t] eqn:Hs.
  - destruct (is_space c) eqn:Hc; [done|]. simpl. by rewrite Hc.
  - cbn [rstrip] in *. by rewrite IH.
Qed.

Lemma lstrip_rstrip s : lstrip s = s -> lstrip (rstrip s) = rstrip s.
Proof.
  destruct s as [|c s]; [done|]. simpl. destruct (is_space c) eqn:Hc.
  { intros H. exfalso. assert (Hl : forall t, String.length (lstrip t) <= String.length t).
    { induction t as [|d t IH]; simpl; [done|]. destruct (is_space d); simpl; lia. }
    pose proof (Hl s) as Hle. rewrite H in Hle. simpl in Hle. lia. }
  intros _. destruct (rstrip s); simpl; by rewrite Hc.
Qed.

Lemma lstrip_idemp s : lstrip (lstrip s) = lstrip s.
Proof. induction s as [|c s IH]; [done|]. simpl. destruct (is_space c) eqn:Hc; [done|]. simpl. by rewrite Hc. Qed.

Lemma strip_idemp s : strip (strip s) = strip s.
Proof. unfold strip. rewrite lstrip_rstrip by apply lstrip_idemp. apply rstrip_nonspace_last. Qed.

(** [coerce] either reads the value and leaves the errors, or adds one error. *)
Lemma coerce_errors a v errors :
  coerce encrypt a v errors = (default JNull (reading encrypt a v),
    errors ++ match reading encrypt a v with Some _ => [] | None => (coerce encrypt a v []).2 end).
Proof.
  unfold reading, coerce, coerce_reference.
  repeat (case_match; simplify_eq/=; try by rewrite ?app_nil_r); congruence.
Qed.

Lemma reading_None_error a v : reading encrypt a v = None -> exists m, (coerce encrypt a v []).2 = [at_name a +:+ m].
Proof.
  unfold reading, coerce, coerce_reference. repeat (case_match; simplify_eq/=; try discriminate); intros _; eauto.
Qed.

Lemma py_float_number s j : py_float s = Some j -> exists m e, j = JFloat m e.
Proof.
  unfold py_float. repeat case_match; try done; intros (x & _ & Hj)%bind_Some; simplify_eq;
    unfold decimal_to_double; repeat case_match; eauto.
Qed.

Lemma reading_well_typed a v w : reading encrypt a v = Some w -> well_typed a w.
Proof.
  unfold reading, coerce, coerce_reference, well_typed, parse_number.
  destruct (at_type a) eqn:Ht.
  - destruct v; simpl; intros; simplify_eq; eauto.
  - destruct v as [| |z|m e|s| |]; simpl; intros H; simplify_eq; [by left; eauto|by right; eauto|].
    destruct (has_char _ s).
    + destruct (py_float s) eqn:Hf; simplify_eq. right. by apply py_float_number in Hf.
    + destruct (py_int s); simplify_eq/=. left. eauto.
  - destruct v; simpl; intros; simplify_eq; eauto.
  - destruct (ref_kind a) as [[]|]; [| |by intros].
    + destruct (match v with JInt z => Some z | JStr s => py_int s | _ => None end) as [z|]; [|done].
      destruct (Z.leb_spec z 0); [done|]. intros. simplify_eq. eauto.
    + destruct v as [| | | |s| |]; try done. destruct (String.eqb_spec (strip s) ""); [done|].
      intros. simplify_eq. exists (strip s). by rewrite strip_idemp.
  - destruct (is_sealed_secret v) eqn:Hs; [by intros; simplify_eq|].
    destruct v as [| | | |[|c s]| |]; try done. intros. by simplify_eq.
Qed.

(** A value of the declared type is read as itself: sealed secrets are not
    sealed again. *)
Lemma well_typed_reading a w : well_typed a w -> reading encrypt a w = Some w.
Proof.
  unfold reading, coerce, coerce_reference, well_typed. destruct (at_type a).
  - by intros [s ->].
  - by intros [[z ->]|(m & e & ->)].
  - by intros [b ->].
  - destruct (ref_kind a) as [[]|]; [| |done].
    + intros (z & -> & Hz). by destruct (Z.leb_spec z 0); [lia|].
    + intros (s & -> & Hs & Hne). rewrite Hs. by destruct (String.eqb_spec s "").
  - by intros ->.
Qed.
End Facts.

Section Resolve.
Context (encrypt : string -> string) (supplied : dict json).

(** What one definition adds to the errors, and to the result. *)
Definition complaints (a : StaticAttributeDef) : list string :=
  match dget (at_name a) supplied with
  | Some v => match reading encrypt a v with Some _ => [] | None => (coerce encrypt a v []).2 end
  | None => if at_required a && bool_decide (at_default a = None)
            then [at_name a +:+ ": required, no value supplied and no default"] else []
  end.
Definition contribution (a : StaticAttributeDef) : option json :=
  match dget (at_name a) supplied with
  | Some v => Some (default JNull (reading encrypt a v))
  | None => at_default a
  end.

Lemma resolve_attr_spec resolved errors a :
  resolve_attr encrypt supplied (resolved, errors) a =
  (match contribution a with Some v => dset (at_name a) v resolved | None => resolved end, errors ++ complaints a).
Proof.
  unfold resolve_attr, contribution, complaints. destruct (dget (at_name a) supplied) as [v|].
  - by rewrite coerce_errors.
  - destruct (at_default a) as [d|]; [by rewrite andb_false_r, app_nil_r|].
    destruct (at_required a); simpl; by rewrite ?app_nil_r.
Qed.

Lemma resolve_loop defs resolved errors :
  NoDup (names defs) ->
  exists out, foldl (resolve_attr encrypt supplied) (resolved, errors) defs = (out, errors ++ concat (complaints <$> defs)) /\
  (forall k, k ∉ names defs -> dget k out = dget k resolved) /\
  (forall a, a ∈ defs -> dget (at_name a) out =
     match contribution a with Some v => Some v | None => dget (at_name a) resolved end).
Proof.
  revert resolved errors. induction defs as [|a defs IH]; intros resolved errors Hnd.
  { exists resolved. simpl. rewrite app_nil_r. split_and!; [done|done|]. intros a Ha. by apply not_elem_of_nil in Ha. }
  apply NoDup_cons in Hnd as [Hna Hnd]. cbn [foldl]. rewrite resolve_attr_spec.
  destruct (IH (match contribution a with Some v => dset (at_name a) v resolved | None => resolved end) (errors ++ complaints a) Hnd) as (out & -> & Hout & Hin).
  exists out. split_and!.
  - by rewrite <- app_assoc.
  - intros k [Hka Hk]%not_elem_of_cons. rewrite Hout by done. destruct (contribution a); [by rewrite dget_dset_ne|done].
  - intros a' [->|Ha']%elem_of_cons.
    + rewrite Hout by done. destruct (contribution a); [by rewrite dget_dset_eq|done].
    + rewrite Hin by done. destruct (contribution a'); [done|]. destruct (contribution a); [|done].
      apply dget_dset_ne. intros Heq. apply Hna. rewrite <- Heq. by apply list_elem_of_fmap_2.
Qed.

Lemma complaints_offends a : complaints a = [] <-> offends encrypt supplied a = false.
Proof.
  unfold complaints, offends. destruct (dget (at_name a) supplied) as [v|].
  - destruct (reading encrypt a v) as [w|] eqn:Hr; [done|]. destruct (reading_None_error encrypt a v Hr) as [m ->]. done.
  - by destruct (at_required a && _).
Qed.

Lemma unknown_inputs_elem defs k : k ∈ unknown_inputs defs supplied <-> k ∈ dkeys supplied /\ k ∉ names defs.
Proof.
  unfold unknown_inputs. rewrite elem_of_dkeys, dget_ssort, <- elem_of_dkeys.
  assert (Hl : forall l : list string, dkeys ((fun k => (k, tt)) <$> l) = l)
    by (intros l; induction l as [|x l IH]; [done|]; cbn [fmap list_fmap]; by rewrite dkeys_cons, IH).
  rewrite Hl, list_elem_of_filter. tauto.
Qed.

Lemma resolve_Ok defs resolved :
  NoDup (names defs) ->
  resolve_run_inputs encrypt defs supplied = Ok resolved ->
  Forall (fun a => check_ref_kind a = true) defs /\ (forall k, k ∈ dkeys supplied -> k ∈ names defs) /\
  Forall (fun a => offends encrypt supplied a = false) defs /\
  (forall k, k ∉ names defs -> dget k resolved = None) /\
  (forall a, a ∈ defs -> dget (at_name a) resolved = contribution a).
Proof.
  intros Hnd. unfold resolve_run_inputs. destruct (forallb check_ref_kind defs) eqn:Hv; [|done]. cbn [negb].
  destruct (unknown_inputs defs supplied) as [|u us] eqn:Hu; [|done].
  destruct (resolve_loop defs [] [] Hnd) as (out & -> & Hout & Hin). simpl.
  destruct (concat (complaints <$> defs)) as [|] eqn:Hc; [|done]. intros [= <-]. split_and!.
  - apply Forall_forall. intros a Ha. rewrite forallb_forall in Hv. by apply Hv, list_elem_of_In.
  - intros k Hk. destruct (decide (k ∈ names defs)) as [|Hn]; [done|]. exfalso.
    assert (Hk' : k ∈ unknown_inputs defs supplied) by (by apply unknown_inputs_elem). rewrite Hu in Hk'. by apply not_elem_of_nil in Hk'.
  - apply Forall_forall. intros a Ha. apply complaints_offends.
    destruct (complaints a) as [|m l] eqn:He; [done|]. exfalso.
    assert (m ∈ concat (complaints <$> defs)) as Hm; [|rewrite Hc in Hm; by apply not_elem_of_nil in Hm].
    apply list_elem_of_In, in_concat. exists (complaints a). rewrite He. split; [|by left].
    apply list_elem_of_In. rewrite <- He. by apply list_elem_of_fmap_2.
  - intros k Hk. by rewrite Hout.
  - intros a Ha. rewrite Hin by done. by destruct (contribution a).
Qed.

Lemma resolve_Raise defs e :
  NoDup (names defs) -> resolve_run_inputs encrypt defs supplied = Raise e ->
  Exists (fun a => check_ref_kind a = false) defs \/ (exists k, k ∈ dkeys supplied /\ k ∉ names defs) \/
  (Exists (fun a => offends encrypt supplied a = true) defs /\ e = ValueError "; " (concat (complaints <$> defs))).
Proof.
  intros Hnd. unfold resolve_run_inputs. destruct (forallb check_ref_kind defs) eqn:Hv; cbn [negb].
  2:{ intros _. left. destruct (decide (Exists (fun a => check_ref_kind a = false) defs)) as [|Hn]; [done|].
      exfalso. apply not_true_iff_false in Hv. apply Hv, forallb_forall. intros a Ha%list_elem_of_In.
      destruct (check_ref_kind a) eqn:Hc; [done|]. exfalso. apply Hn, Exists_exists. by exists a. }
  destruct (unknown_inputs defs supplied) as [|u us] eqn:Hu.
  2:{ intros _. right. left. exists u. apply unknown_inputs_elem. rewrite Hu. by left. }
  destruct (resolve_loop defs [] [] Hnd) as (out & -> & Hout & Hin). simpl.
  destruct (concat (complaints <$> defs)) as [|m l] eqn:Hc; [done|]. intros [= <-]. right. right. split; [|done].
  assert (Hm : In m (concat (complaints <$> defs))) by (rewrite Hc; by left).
  apply in_concat in Hm as (x & Hx%list_elem_of_In & Hmx). apply list_elem_of_fmap in Hx as (a & -> & Ha).
  apply Exists_exists. exists a. split; [done|]. destruct (offends encrypt supplied a) eqn:Ho; [done|].
  apply complaints_offends in Ho. by rewrite Ho in Hmx.
Qed.
End Resolve.

(** C32. Resolving the inputs of a run succeeds exactly when every supplied name
    is declared, every supplied value has a reading at its declared type and
    every required attribute without a default is supplied. The result binds
    only declared names: a supplied attribute to a value of its type (a secret to
    a sealed envelope, whatever was supplied), the others to their default. A
    failure is one error that carries a message for each offending attribute. *)
Theorem resolve_run_inputs_exact encrypt (defs : list StaticAttributeDef) (supplied : dict json)
  (valid : Forall (fun a => check_ref_kind a = true) defs) (distinct : NoDup (names defs)) :
  match resolve_run_inputs encrypt defs supplied with
  | Ok resolved =>
      (forall k, k ∈ dkeys supplied -> k ∈ names defs) /\
      (forall k, k ∈ dkeys resolved -> k ∈ names defs) /\
      (forall a, a ∈ defs -> match dget (at_name a) supplied with
         | Some v => exists w, dget (at_name a) resolved = Some w /\ reading encrypt a v = Some w /\ well_typed a w
         | None => dget (at_name a) resolved = at_default a /\ (at_required a = true -> is_Some (at_default a))
         end)
  | Raise e =>
      is_value_error e = true /\
      ((exists k, k ∈ dkeys supplied /\ k ∉ names defs) \/
       (exists a, a ∈ defs /\ offends encrypt supplied a = true) /\
       forall a, a ∈ defs -> offends encrypt supplied a = true ->
         exists m, (at_name a +:+ m) ∈ match e with ValueError _ messages => messages | _ => [] end)
  end.
Proof.
  destruct (resolve_run_inputs encrypt defs supplied) as [resolved|e] eqn:Hr.
  - destruct (resolve_Ok encrypt supplied defs resolved distinct Hr) as (_ & Hknown & Hfine & Hout & Hin).
    rewrite Forall_forall in Hfine. split_and!; [done| |].
    + intros k [v Hk]%elem_of_dkeys. destruct (decide (k ∈ names defs)) as [|Hn]; [done|]. by rewrite Hout in Hk.
    + intros a Ha. specialize (Hfine a Ha). rewrite Hin by done. unfold contribution, offends in *.
      destruct (dget (at_name a) supplied) as [v|].
      * apply bool_decide_eq_false, not_eq_None_Some in Hfine as [w Hw]. rewrite Hw. exists w.
        split_and!; [done|done|by eapply reading_well_typed].
      * split; [done|]. intros Hreq. rewrite Hreq in Hfine. by apply bool_decide_eq_false, not_eq_None_Some in Hfine.
  - destruct (resolve_Raise encrypt supplied defs e distinct Hr) as [Hv|[Hu|[Ho ->]]].
    + exfalso. apply Exists_exists in Hv as (a & Ha & Hf). rewrite Forall_forall in valid. specialize (valid a Ha). congruence.
    + split; [|by left]. unfold resolve_run_inputs in Hr. repeat (case_match; simplify_eq/=; try done).
    + split; [done|]. right. apply Exists_exists in Ho. split; [done|]. intros a Ha Hoff.
      assert (Hc : complaints encrypt supplied a ≠ []).
      { intros Hc. apply complaints_offends in Hc. congruence. }
      assert (exists m, complaints encrypt supplied a = [at_name a +:+ m]) as [m Hm].
      { unfold complaints in *. destruct (dget (at_name a) supplied) as [v|].
        - destruct (reading encrypt a v) eqn:Hrd; [done|]. by apply reading_None_error.
        - destruct (at_required a && _); [eauto|done]. }
      exists m. apply list_elem_of_In, in_concat. exists (complaints encrypt supplied a). rewrite Hm. split; [|by left].
      rewrite <- Hm. by apply list_elem_of_In, list_elem_of_fmap_2.
Qed.

(** C33. What a run stored can be replayed: resolving the resolved inputs again,
    as a schedule or a change request does, gives them back, without touching
    the cipher, provided the declared defaults have their declared type. *)
Theorem resolve_run_inputs_replay encrypt encrypt' (defs : list StaticAttributeDef) (supplied resolved : dict json) :
  NoDup (names defs) ->
  (forall a d, a ∈ defs -> at_default a = Some d -> well_typed a d) ->
  resolve_run_inputs encrypt defs supplied = Ok resolved ->
  exists again, resolve_run_inputs encrypt' defs resolved = Ok again /\ dict_equiv again resolved.
Proof.
  intros Hnd Hdef Hr. destruct (resolve_Ok encrypt supplied defs resolved Hnd Hr) as (Hv & _ & Hfine & Hout & Hin).
  rewrite Forall_forall in Hfine.
  assert (Htyped : forall a w, a ∈ defs -> dget (at_name a) resolved = Some w -> well_typed a w).
  { intros a w Ha. rewrite Hin by done. specialize (Hfine a Ha). unfold contribution, offends in *.
    destruct (dget (at_name a) supplied) as [v|]; [|by apply Hdef].
    apply bool_decide_eq_false, not_eq_None_Some in Hfine as [w' Hw]. rewrite Hw. intros [= <-]. by eapply reading_well_typed. }
  destruct (resolve_run_inputs encrypt' defs resolved) as [again|e] eqn:Hr'.
  - exists again. split; [done|]. destruct (resolve_Ok encrypt' resolved defs again Hnd Hr') as (_ & _ & _ & Hout' & Hin').
    intros k. destruct (decide (k ∈ names defs)) as [Hk|Hk]; [|by rewrite Hout, Hout'].
    apply list_elem_of_fmap in Hk as (a & -> & Ha). rewrite Hin' by done. unfold contribution.
    destruct (dget (at_name a) resolved) as [w|] eqn:Hw; [by rewrite (well_typed_reading encrypt' a w (Htyped a w Ha Hw))|].
    rewrite Hin in Hw by done. unfold contribution in Hw. by destruct (dget (at_name a) supplied).
  - exfalso. destruct (resolve_Raise encrypt' resolved defs e Hnd Hr') as [Hb|[(k & Hk & Hn)|[Ho _]]].
    + rewrite Forall_forall in Hv. apply Exists_exists in Hb as (a & Ha & Hf). specialize (Hv a Ha). simpl in Hv. congruence.
    + apply elem_of_dkeys in Hk as [w Hk]. by rewrite Hout in Hk.
    + apply Exists_exists in Ho as (a & Ha & Hoff). specialize (Hfine a Ha). unfold offends in Hoff, Hfine.
      destruct (dget (at_name a) resolved) as [w|] eqn:Hw.
      * rewrite (well_typed_reading encrypt' a w (Htyped a w Ha Hw)) in Hoff. done.
      * rewrite Hin in Hw by done. unfold contribution in Hw. destruct (dget (at_name a) supplied); [done|].
        rewrite Hw in Hfine, Hoff. congruence.
Qed.

(** C40. A declared default is stored as it is: nothing coerces it, even when
    the same value, supplied, would be refused. *)
Theorem default_not_coerced encrypt (a : StaticAttributeDef) (d : json) :
  check_ref_kind a = true -> at_default a = Some d -> reading encrypt a d = None ->
  resolve_run_inputs encrypt [a] [] = Ok [(at_name a, d)] /\
  is_ok (resolve_run_inputs encrypt [a] [(at_name a, d)]) = false.
Proof.
  intros Hv Hd Hr. split.
  - unfold resolve_run_inputs. cbn [forallb]. rewrite Hv. simpl. by rewrite Hd.
  - destruct (resolve_run_inputs encrypt [a] _) as [r|] eqn:Hres; [exfalso|done].
    apply resolve_Ok in Hres as (_ & _ & Hf & _); [|apply NoDup_singleton].
    apply Forall_cons in Hf as [Hf _]. unfold offends in Hf. simpl in Hf. destruct (decide (at_name a = at_name a)); [|done].
    by rewrite Hr in Hf.
Qed.

(** A canvas with one attribute of each kind. *)
Definition sample_defs : list StaticAttributeDef :=
  [Attr "site" AT_string None (Some (JStr "fra")) false; Attr "limit" AT_number None None true;
   Attr "inv" AT_reference (Some RK_inventory) None false; Attr "key" AT_secret None None false].
Definition sample_cipher (s : string) : string := "gAAA" +:+ s.
Definition sample_supplied : dict json := [("limit", JStr "1_0"); ("inv", JStr " 7 "); ("key", JStr "hunter22")].
Definition sample_resolved : dict json :=
  [("site", JStr "fra"); ("limit", JInt 10); ("inv", JInt 7); ("key", seal_secret sample_cipher "hunter22")].

Lemma sample_defs_ok : Forall (fun a => check_ref_kind a = true) sample_defs /\ NoDup (names sample_defs).
Proof. split; [repeat (constructor; [reflexivity|]); constructor|apply (bool_decide_unpack _); vm_compute; exact I]. Qed.

Lemma resolve_run_inputs_exact_witness :
  resolve_run_inputs sample_cipher sample_defs sample_supplied = Ok sample_resolved /\
  (forall k, k ∈ dkeys sample_resolved -> k ∈ names sample_defs).
Proof.
  assert (E : resolve_run_inputs sample_cipher sample_defs sample_supplied = Ok sample_resolved) by (vm_compute; reflexivity).
  split; [exact E|].
  pose proof (resolve_run_inputs_exact sample_cipher sample_defs sample_supplied (proj1 sample_defs_ok) (proj2 sample_defs_ok)) as H.
  rewrite E in H. exact (proj1 (proj2 H)).
Defined.

Lemma resolve_run_inputs_replay_witness :
  exists again, resolve_run_inputs (fun s => s) sample_defs sample_resolved = Ok again /\ dict_equiv again sample_resolved.
Proof.
  apply (resolve_run_inputs_replay sample_cipher (fun s => s) sample_defs sample_supplied).
  - exact (proj2 sample_defs_ok).
  - intros a d Ha Hd. unfold sample_defs in Ha. rewrite !elem_of_cons in Ha.
    destruct Ha as [->|[->|[->|[->|Ha]]]]; simpl in Hd; try discriminate; [|by apply not_elem_of_nil in Ha].
    injection Hd as <-. exists "fra". reflexivity.
  - vm_compute. reflexivity.
Defined.

Lemma default_not_coerced_witness :
  resolve_run_inputs sample_cipher [Attr "n" AT_number None (Some (JStr "ten")) false] [] = Ok [("n", JStr "ten")] /\
  is_ok (resolve_run_inputs sample_cipher [Attr "n" AT_number None (Some (JStr "ten")) false] [("n", JStr "ten")]) = false.
Proof.
  apply (default_not_coerced sample_cipher (Attr "n" AT_number None (Some (JStr "ten")) false) (JStr "ten")); vm_compute; reflexivity.
Defined.
