(* ===== verification/OutputCap.v ===== *)
(** * The size cap on persisted step output
      ([backend/services/execution/output_cap.py])

    The database copy of a step's output is bounded: oversized values become
    [{"__truncated__": true, "bytes": N}], and when the whole payload is still
    too large the largest values go first.  The source rewrites the dumped dicts
    in place through (container, key) pairs; here a pair is the path of the
    value, and a rewrite is [update_path].

    [json_size] is the length of [json.dumps(value, separators=(",", ":"))];
    only the length of a printed float, which needs the shortest-representation
    algorithm, is left as the parameter [float_len]. *)
From S2P Require Import Prelude Dict Json Context Secrets.

Definition TRUNCATED_KEY : string := "__truncated__".

Section Size.
Context (float_len : Z -> Z -> nat).

(** One character of a JSON string ([ensure_ascii]). *)
Definition char_size (c : ascii) : nat :=
  let n := nat_of_ascii c in
  if bool_decide (n ∈ [34; 92; 8; 9; 10; 12; 13]) then 2
  else if (32 <=? n) && (n <=? 126) then 1 else 6.

Fixpoint chars_size (s : string) : nat :=
  match s with EmptyString => 0 | String c s' => char_size c + chars_size s' end.

(** The decimal digits of a natural number. *)
Fixpoint digits_len (fuel : nat) (z : Z) : nat :=
  match fuel with
  | 0 => 1
  | S fuel' => if (z <? 10)%Z then 1 else S (digits_len fuel' (z / 10))
  end.
Definition int_size (z : Z) : nat :=
  (if (z <? 0)%Z then 1 else 0) + digits_len (S (Z.to_nat (Z.log2 (Z.abs z)))) (Z.abs z).

(** [_size] *)
Fixpoint json_size (j : json) : nat :=
  match j with
  | JNull => 4
  | JBool b => if b then 4 else 5
  | JInt z => int_size z
  | JFloat m e => float_len m e
  | JStr s => 2 + chars_size s
  | JList l => 2 + list_sum (map json_size l) + (length l - 1)
  | JDict d => 2 + list_sum (map (fun kv => 2 + chars_size kv.1 + 1 + json_size kv.2) d) + (length d - 1)
  end.

Definition marker (size : nat) : json := JDict [(TRUNCATED_KEY, JBool true); ("bytes", JInt (Z.of_nat size))].

Definition is_marker (value : json) : bool :=
  match jget TRUNCATED_KEY value with Some v => truthy v | None => false end.

(** [_shrink]: what the value of a slot is replaced by. *)
Definition shrink (size value_max : nat) (value : json) : json :=
  match value with
  | JDict d =>
      let d' := map (fun kv => (kv.1, if value_max <? json_size kv.2 then marker (json_size kv.2) else kv.2)) d in
      if json_size (JDict d') <=? value_max then JDict d' else marker size
  | _ => marker size
  end.

(** [add_mapping] *)
Definition mapping_slots (prefix : list string) (mapping : option json) : list (list string) :=
  match mapping with Some (JDict d) => (fun k => prefix ++ [k]) <$> dkeys d | _ => [] end.

Definition entries (j : option json) : list (string * json) := match j with Some (JDict d) => d | _ => [] end.

(** [_slots] of the context dumped under [outcome] *)
Definition device_slots (prefix : list string) (device : json) : list (list string) :=
  mapping_slots (prefix ++ ["parsed"]) (jget "parsed" device) ++
  concat ((fun bag => mapping_slots (prefix ++ ["attribute_bags"; bag.1]) (Some bag.2)) <$> entries (jget "attribute_bags" device)).

Definition slots (outcome : string) (context : json) : list (list string) :=
  mapping_slots [outcome; "metadata"] (jget "metadata" context) ++
  concat ((fun dev => device_slots [outcome; "devices"; dev.1] dev.2) <$> entries (jget "devices" context)).

Definition all_slots (persisted : dict json) : list (list string) :=
  concat ((fun kv => if is_dict kv.2 then slots kv.1 kv.2 else []) <$> persisted).

(** The slots with the size of their value, those already truncated left out. *)
Definition sized_slots (persisted : dict json) : list (nat * list string) :=
  omap (fun path => v ← lookup_path path (JDict persisted);
                    if is_marker v then None else Some (json_size v, path)) (all_slots persisted).

Definition shrink_slot (value_max : nat) (j : json) (slot : nat * list string) : json :=
  if value_max <? slot.1 then update_path slot.2 (shrink slot.1 value_max) j else j.

Definition smaller (a b : nat * list string) : Prop := a.1 <= b.1.
#[export] Instance smaller_dec a b : Decision (smaller a b).
Proof. unfold smaller. apply _. Defined.

(** [remaining], in the order it is popped: largest first. *)
Definition remaining_slots (sized : list (nat * list string)) (j : json) : list (nat * list string) :=
  reverse (stable_sort smaller
    (omap (fun slot => v ← lookup_path slot.2 j; if is_marker v then None else Some (json_size v, slot.2)) sized)).

Fixpoint drop_largest (total_max : nat) (remaining : list (nat * list string)) (j : json) : json :=
  match remaining with
  | [] => j
  | (size, path) :: rest =>
      if total_max <? json_size j then drop_largest total_max rest (update_path path (fun _ => marker size) j) else j
  end.

Definition cap_persisted_output (persisted : dict json) (value_max total_max : nat) : json :=
  let sized := sized_slots persisted in
  let shrunk := foldl (shrink_slot value_max) (JDict persisted) sized in
  drop_largest total_max (remaining_slots sized shrunk) shrunk.
End Size.

(** * What the cap promises *)

(** Two paths that part at some key. *)
Fixpoint diverge (p q : list string) : Prop :=
  match p, q with
  | a :: p', b :: q' => a ≠ b \/ diverge p' q'
  | _, _ => False
  end.

Lemma lookup_update_diverge p q f j : diverge p q -> lookup_path p (update_path q f j) = lookup_path p j.
Proof.
  revert q j. induction p as [|a p IH]; intros [|b q] j Hd; try done. cbn [diverge] in Hd.
  destruct (decide (a = b)) as [->|Hne]; [|by apply lookup_update_other].
  destruct Hd as [|Hd]; [done|]. destruct j as [| | | | | |d]; try done. cbn [update_path].
  destruct (dget b d) as [v|] eqn:Hv; [|done]. cbn [lookup_path]. rewrite dget_dset_eq, Hv. simpl. by apply IH.
Qed.

Lemma diverge_irrefl p : ~ diverge p p.
Proof. induction p as [|a p IH]; [intros []|]. by intros [Hne|Hd]. Qed.

(** The three places a slot can be. *)
Definition slot_shape (p : list string) : Prop :=
  (exists o k, p = [o; "metadata"; k]) \/ (exists o d k, p = [o; "devices"; d; "parsed"; k]) \/
  (exists o d b k, p = [o; "devices"; d; "attribute_bags"; b; k]).

Lemma slots_apart p q : slot_shape p -> slot_shape q -> p = q \/ diverge p q.
Proof.
  intros [(o & k & ->)|[(o & d & k & ->)|(o & d & b & k & ->)]]
    [(o' & k' & ->)|[(o' & d' & k' & ->)|(o' & d' & b' & k' & ->)]];
  cbn [diverge]; try (right; right; left; discriminate); try (right; right; right; right; left; discriminate);
  destruct (decide (o = o')) as [->|]; try (by right; left); destruct (decide (k = k')) as [->|]; try (right; naive_solver).
  - by left.
  - destruct (decide (d = d')) as [->|]; [by left|right; naive_solver].
  - destruct (decide (d = d')) as [->|]; [|right; naive_solver]. destruct (decide (b = b')) as [->|]; [by left|right; naive_solver].
Qed.

Lemma mapping_slots_elem prefix m p : p ∈ mapping_slots prefix m -> exists k, p = prefix ++ [k].
Proof. unfold mapping_slots. destruct m as [[]|]; try (by intros ?%not_elem_of_nil). intros (k & -> & _)%list_elem_of_fmap. eauto. Qed.

Lemma elem_of_concat {A} (x : A) (l : list (list A)) : x ∈ concat l <-> exists m, m ∈ l /\ x ∈ m.
Proof. rewrite list_elem_of_In, in_concat. by setoid_rewrite <- list_elem_of_In. Qed.

Lemma all_slots_shape persisted p : p ∈ all_slots persisted -> slot_shape p.
Proof.
  unfold all_slots. intros (l & Hl & Hp)%elem_of_concat. apply list_elem_of_fmap in Hl as ([o c] & -> & _).
  cbn [fst snd] in Hp. destruct (is_dict c); [|by apply not_elem_of_nil in Hp]. unfold slots in Hp.
  apply elem_of_app in Hp as [(k & ->)%mapping_slots_elem|(l & Hl & Hp)%elem_of_concat]; [left; eauto|].
  apply list_elem_of_fmap in Hl as ([d dev] & -> & _). unfold device_slots in Hp. cbn [fst snd] in Hp.
  apply elem_of_app in Hp as [(k & ->)%mapping_slots_elem|(l & Hl & Hp)%elem_of_concat].
  - right. left. exists o, d, k. done.
  - apply list_elem_of_fmap in Hl as ([b bag] & -> & _). apply mapping_slots_elem in Hp as (k & ->).
    right. right. exists o, d, b, k. done.
Qed.

Section Capped.
Context (float_len : Z -> Z -> nat) (value_max total_max : nat).

Lemma marker_is_marker n : is_marker (marker n) = true.
Proof. done. Qed.

Lemma shrink_small n v : is_marker (shrink float_len n value_max v) = true \/ json_size float_len (shrink float_len n value_max v) <= value_max.
Proof.
  unfold OutputCap.shrink. destruct v as [| | | | | |d]; try (by left). case_match eqn:Hle; [|by left].
  right. by apply Nat.leb_le.
Qed.

(** The value at a slot is a marker, or of bounded size. *)
Definition bounded (v : json) : Prop := is_marker v = true \/ json_size float_len v <= value_max.

Lemma sized_slots_elem persisted n p :
  (n, p) ∈ sized_slots float_len persisted <-> p ∈ all_slots persisted /\
    exists v, lookup_path p (JDict persisted) = Some v /\ is_marker v = false /\ n = json_size float_len v.
Proof.
  unfold sized_slots. rewrite list_elem_of_omap. split.
  - intros (q & Hq & (v & Hv & Hm)%bind_Some). destruct (is_marker v) eqn:Hmk; simplify_eq. eauto 10.
  - intros (Hp & v & Hv & Hm & ->). exists p. split; [done|]. rewrite Hv. simpl. by rewrite Hm.
Qed.

(** Shrinking the slots one after the other leaves each of them bounded. *)
Lemma shrink_all_slots sized j (p : list string) v :
  (forall n q, (n, q) ∈ sized -> slot_shape q) -> slot_shape p ->
  (forall w, lookup_path p j = Some w -> bounded w \/ exists n, (n, p) ∈ sized /\ value_max < n) ->
  lookup_path p (foldl (shrink_slot float_len value_max) j sized) = Some v -> bounded v.
Proof.
  revert j. induction sized as [|[n q] sized IH]; intros j Hshape Hp Hb; simpl.
  { intros Hv. destruct (Hb v Hv) as [|(n & Hn%not_elem_of_nil & _)]; done. }
  apply IH; [intros; eapply Hshape; by right|done|]. intros w. unfold shrink_slot. simpl.
  destruct (Nat.ltb_spec value_max n) as [Hlt|Hle].
  - destruct (slots_apart p q Hp) as [->|Hd]; [eapply Hshape; by left| |].
    + rewrite lookup_update_same. intros (u & Hu & ->)%fmap_Some. left. apply shrink_small.
    + rewrite lookup_update_diverge by done. intros Hw. destruct (Hb w Hw) as [|(n' & [Hn'|Hn']%elem_of_cons & Hlt')];
        [by left| |right; eauto]. simplify_eq. by apply diverge_irrefl in Hd.
  - intros Hw. destruct (Hb w Hw) as [|(n' & [Hn'|Hn']%elem_of_cons & Hlt')]; [by left|simplify_eq; lia|right; eauto].
Qed.

(** Dropping marks a prefix of the queue, and stops as soon as the whole fits. *)
Lemma drop_largest_spec remaining j :
  (forall n q, (n, q) ∈ remaining -> slot_shape q) ->
  let r := drop_largest float_len total_max remaining j in
  (json_size float_len r <= total_max \/ forall n q, (n, q) ∈ remaining -> forall v, lookup_path q r = Some v -> is_marker v = true) /\
  (forall p, slot_shape p -> forall v, lookup_path p r = Some v -> is_marker v = true \/ lookup_path p j = Some v).
Proof.
  intros Hshape. revert j. induction remaining as [|[n q] rest IH]; intros j; cbn [drop_largest].
  { split; [right; intros n q Hn; by apply not_elem_of_nil in Hn|by right]. }
  destruct (Nat.ltb_spec total_max (json_size float_len j)) as [Hlt|Hle]; [|split; [by left|by right]].
  assert (Hrest : forall n' q', (n', q') ∈ rest -> slot_shape q') by (intros; eapply Hshape; by right).
  assert (Hq : slot_shape q) by (eapply Hshape; by left).
  destruct (IH Hrest (update_path q (fun _ => marker n) j)) as [Hfit Hkeep]. split.
  - destruct Hfit as [|Hmark]; [by left|right]. intros n' q' [Heq|Hin]%elem_of_cons v Hv; [|by apply (Hmark n' q')].
    simplify_eq. destruct (Hkeep q Hq v Hv) as [|Hl]; [done|]. rewrite lookup_update_same in Hl.
    apply fmap_Some in Hl as (w & _ & ->). done.
  - intros p Hp v Hv. destruct (Hkeep p Hp v Hv) as [|Hl]; [by left|].
    destruct (slots_apart p q Hp Hq) as [->|Hd]; [|rewrite lookup_update_diverge in Hl by done; by right].
    left. rewrite lookup_update_same in Hl. apply fmap_Some in Hl as (w & _ & ->). done.
Qed.

Lemma shrink_marker_stays sized j p v :
  (forall n q, (n, q) ∈ sized -> slot_shape q) -> slot_shape p -> (forall n, (n, p) ∉ sized) ->
  lookup_path p (foldl (shrink_slot float_len value_max) j sized) = Some v -> lookup_path p j = Some v.
Proof.
  revert j. induction sized as [|[n q] sized IH]; intros j Hshape Hp Hnot; [done|]. simpl. intros Hv.
  apply IH in Hv; [|intros; eapply Hshape; by right|done|intros n' Hn'; apply (Hnot n'); by right].
  unfold shrink_slot in Hv. simpl in Hv. destruct (value_max <? n); [|done].
  destruct (slots_apart p q Hp) as [->|Hd]; [eapply Hshape; by left| |by rewrite lookup_update_diverge in Hv].
  exfalso. apply (Hnot n). by left.
Qed.

Lemma foldl_frame sized j p :
  (forall n q, (n, q) ∈ sized -> diverge p q) ->
  lookup_path p (foldl (shrink_slot float_len value_max) j sized) = lookup_path p j.
Proof.
  revert j. induction sized as [|[n q] sized IH]; intros j Hd; [done|]. simpl. rewrite IH by (intros; eapply Hd; by right).
  unfold shrink_slot. simpl. destruct (value_max <? n); [|done]. apply lookup_update_diverge. eapply Hd. by left.
Qed.
Lemma drop_frame remaining j p :
  (forall n q, (n, q) ∈ remaining -> diverge p q) ->
  lookup_path p (drop_largest float_len total_max remaining j) = lookup_path p j.
Proof.
  revert j. induction remaining as [|[n q] rest IH]; intros j Hd; [done|]. cbn [drop_largest].
  destruct (_ <? _); [|done]. rewrite IH by (intros; eapply Hd; by right). apply lookup_update_diverge. eapply Hd. by left.
Qed.

Lemma remaining_slots_elem sized j n p :
  (n, p) ∈ remaining_slots float_len sized j <->
  (exists m, (m, p) ∈ sized) /\ exists v, lookup_path p j = Some v /\ is_marker v = false /\ n = json_size float_len v.
Proof.
  unfold remaining_slots. rewrite elem_of_reverse, stable_sort_perm, list_elem_of_omap. split.
  - intros ([m q] & Hq & (v & Hv & Hm)%bind_Some). simpl in *. destruct (is_marker v) eqn:Hmk; simplify_eq. eauto 10.
  - intros ((m & Hm) & v & Hv & Hmk & ->). exists (m, p). split; [done|]. simpl. rewrite Hv. simpl. by rewrite Hmk.
Qed.
End Capped.

(** C31. Capping the persisted output: afterwards the payload fits the total, or
    nothing is left that could be replaced; every replaceable value is a marker
    or within the limit of a single value; nothing outside the replaceable
    places changes; and a payload within both limits is stored as it is. *)
Theorem cap_persisted_output_correct float_len (persisted : dict json) (value_max total_max : nat) :
  let capped := cap_persisted_output float_len persisted value_max total_max in
  (json_size float_len capped <= total_max \/
   forall p v, p ∈ all_slots persisted -> lookup_path p capped = Some v -> is_marker v = true) /\
  (forall p v, p ∈ all_slots persisted -> lookup_path p capped = Some v ->
     is_marker v = true \/ json_size float_len v <= value_max) /\
  (forall p, (forall q, q ∈ all_slots persisted -> diverge p q) -> lookup_path p capped = lookup_path p (JDict persisted)) /\
  (json_size float_len (JDict persisted) <= total_max ->
   (forall p v, p ∈ all_slots persisted -> lookup_path p (JDict persisted) = Some v -> json_size float_len v <= value_max) ->
   capped = JDict persisted).
Proof.
  set (sized := sized_slots float_len persisted).
  set (shrunk := foldl (shrink_slot float_len value_max) (JDict persisted) sized).
  assert (Hshape : forall n q, (n, q) ∈ sized -> slot_shape q).
  { intros n q [Hq _]%sized_slots_elem. by eapply all_slots_shape. }
  assert (Hrshape : forall n q, (n, q) ∈ remaining_slots float_len sized shrunk -> slot_shape q).
  { intros n q [[m Hm] _]%remaining_slots_elem. by eapply Hshape. }
  assert (Hbounded : forall p v, p ∈ all_slots persisted -> lookup_path p shrunk = Some v -> bounded float_len value_max v).
  { intros p v Hp Hv. apply (shrink_all_slots float_len value_max sized (JDict persisted) p v Hshape); [by eapply all_slots_shape| |done].
    intros w Hw. destruct (is_marker w) eqn:Hm; [by left; left|].
    destruct (Nat.le_gt_cases (json_size float_len w) value_max) as [|Hgt]; [by left; right|].
    right. exists (json_size float_len w). split; [|done]. apply sized_slots_elem. eauto 10. }
  destruct (drop_largest_spec float_len total_max (remaining_slots float_len sized shrunk) shrunk Hrshape) as [Hfit Hkeep].
  unfold cap_persisted_output. fold sized. fold shrunk. cbv zeta. split_and!.
  - destruct Hfit as [|Hmark]; [by left|right]. intros p v Hp Hv.
    assert (Hsp : slot_shape p) by (by eapply all_slots_shape).
    destruct (Hkeep p Hsp v Hv) as [|Hl]; [done|]. destruct (is_marker v) eqn:Hm; [done|exfalso].
    assert (Hin : exists m, (m, p) ∈ sized).
    { destruct (lookup_path p (JDict persisted)) as [w|] eqn:Hw; [|].
      - destruct (is_marker w) eqn:Hmw.
        + exfalso. assert (Hnot : forall n, (n, p) ∉ sized).
          { intros n (_ & w' & Hw' & Hm' & _)%sized_slots_elem. congruence. }
          pose proof (shrink_marker_stays float_len value_max sized (JDict persisted) p v Hshape Hsp Hnot Hl). congruence.
        + exists (json_size float_len w). apply sized_slots_elem. eauto 10.
      - exfalso. assert (Hnot : forall n, (n, p) ∉ sized).
        { intros n (_ & w' & Hw' & Hm' & _)%sized_slots_elem. congruence. }
        pose proof (shrink_marker_stays float_len value_max sized (JDict persisted) p v Hshape Hsp Hnot Hl). congruence. }
    assert (Hrem : (json_size float_len v, p) ∈ remaining_slots float_len sized shrunk) by (apply remaining_slots_elem; eauto 10).
    rewrite (Hmark _ _ Hrem v Hv) in Hm. done.
  - intros p v Hp Hv. destruct (Hkeep p (all_slots_shape _ _ Hp) v Hv) as [|Hl]; [by left|by eapply Hbounded].
  - intros p Hd. rewrite drop_frame; [apply foldl_frame|].
    + intros n q [Hq _]%sized_slots_elem. by apply Hd.
    + intros n q [[m [Hq _]%sized_slots_elem] _]%remaining_slots_elem. by apply Hd.
  - intros Htot Hval. assert (Hs : shrunk = JDict persisted).
    { unfold shrunk. assert (Hle : forall n q, (n, q) ∈ sized -> n <= value_max).
      { intros n q (Hq & w & Hw & _ & ->)%sized_slots_elem. by eapply Hval. }
      clear -Hle. induction sized as [|[n q] l IH]; [done|]. cbn [foldl]. unfold shrink_slot at 2. cbn [fst snd].
      destruct (Nat.ltb_spec value_max n) as [Hlt|_]; [specialize (Hle n q); assert (n <= value_max) by (apply Hle; by left); lia|].
      apply IH. intros; eapply Hle; by right. }
    rewrite Hs. destruct (remaining_slots float_len sized (JDict persisted)) as [|[n q] rest]; [done|]. cbn [drop_largest].
    by destruct (Nat.ltb_spec total_max (json_size float_len (JDict persisted))); [lia|].
Qed.

Definition sample_output : dict json :=
  [("success", JDict [("devices", JDict [("d1", JDict [("parsed", JDict [("show", JStr "0123456789")])])]);
                      ("metadata", JDict [("n1.total", JInt 3); ("log", JStr "abcdefghijklmnop")])])].

Lemma cap_persisted_output_correct_witness :
  cap_persisted_output (fun _ _ => 3) sample_output 14 1000 =
  JDict [("success", JDict [("devices", JDict [("d1", JDict [("parsed", JDict [("show", JStr "0123456789")])])]);
                      ("metadata", JDict [("n1.total", JInt 3); ("log", marker 18)])])] /\
  cap_persisted_output (fun _ _ => 3) sample_output 1000 1000 = JDict sample_output.
Proof.
  split; [vm_compute; reflexivity|].
  apply (cap_persisted_output_correct (fun _ _ => 3) sample_output 1000 1000); [vm_compute; lia|].
  intros p v Hp Hv. assert (Hall : forallb (fun q => match lookup_path q (JDict sample_output) with Some w => json_size (fun _ _ => 3) w <=? 1000 | None => true end)
    (all_slots sample_output) = true) by (vm_compute; reflexivity).
  rewrite forallb_forall in Hall. specialize (Hall p (proj1 (list_elem_of_In _ _) Hp)). rewrite Hv in Hall. by apply Nat.leb_le.
Defined.
