(* ===== verification/StepRunner.v ===== *)
(** * The step runner ([backend/services/execution/step_runner/])

    Walks the canvas of a run: pre-creates a row per step, runs the dependency
    layers ("waves") in order and the steps of one wave concurrently, blocks
    what an upstream device failure cut off, stops hard when a step raises, and
    hands over to the orchestrator when an inventory step asks for fan-out.
    [runner.py]: [execute_all], [_run_wave], [run_node_in_sequence],
    [_execute_and_persist_node], [resume_after_join] and the helpers they call.

    Concurrency: [asyncio.gather] runs the coroutines of a wave on one thread,
    so what interleaves are the stretches between two awaits.  A step is two
    such stretches, [Start] (up to the executor's first await) and [Finish]
    (from its answer on); a wave runs as any [interleaving] of them, chosen by
    the argument [schedule].  Other processes commit in between: [env 0] is what
    they wrote between the look at the existing rows and the creation of the
    run's own, [env k] what they wrote before the [k]-th wave.

    The step implementations ([STEP_REGISTRY]), the texts of exceptions and
    the clock are fields of [engine]: the theorems hold for all of them.  A
    node's kind is a string and its [pluginConfig] an object, as the editor
    writes them. *)
From stdpp Require Import gmultiset pretty.
From S2P Require Import Prelude Dict Json Registry Graph GraphResolution Context Merge Guards RunStore Secrets OutputCap.

Record engine := Engine {
  registry : list PluginDefinition;
  STEP_REGISTRY : string -> option (dict json -> WorkflowContext -> string -> res (list StepOutcome));
  exn_text : exn -> string;                    (* [str(exc)] *)
  carried_failure : exn -> option FailureInfo; (* [failure_from_exception] *)
  exn_class : exn -> string;                   (* [type(exc).__name__] *)
  new_error_id : string -> string;             (* [uuid4()], per node *)
  known_secrets : string -> list string;       (* the cleartext secrets registered when a node ends *)
  float_len : Z -> Z -> nat;
  step_output_value_max_bytes : nat;
  step_output_max_bytes : nat;
  clock : Z;
  now_iso : string                             (* the clock, as text *)
}.

(** ** A canvas node, as the runner reads it *)
Definition node_type (n : node) : string :=
  match dget "kind" (node_data n) with Some (JStr s) => s | _ => "unknown" end.
Definition node_title (n : node) : string :=
  match dget "title" (node_data n) with Some (JStr s) => s | _ => node_type n end.
Definition node_config (n : node) : dict json :=
  match dget "pluginConfig" (node_data n) with Some (JDict d) => d | _ => [] end.

(** node id -> outcome name -> context *)
Abbreviation outcome_map := (gmap string (dict WorkflowContext)).

(** [signals.py] *)
Definition classify_step_exception (text : exn -> string) (e : exn) : string * string :=
  if is_value_error e then ("configuration", if String.eqb (text e) "" then "This step's configuration is invalid." else text e)
  else if is_runtime_error e then ("execution", if String.eqb (text e) "" then "This step failed to complete." else text e)
  else ("internal", "An unexpected internal error occurred while running this step.").

Record FanOutSignal := Signal {
  inventory_node_id : string;
  fan_out_config : dict json;
  inventory_outcome : WorkflowContext;
  signal_outcomes : outcome_map;
  join_node_id : option string
}.

(** [_outcome_failure] *)
Definition outcome_failure (outcomes : list StepOutcome) : option json :=
  head (omap (fun o => failure_to_json <$> so_failure o) outcomes).

(** [_blocked_by_upstream_failure]: the loop keeps two flags. *)
Definition has_devices (c : option WorkflowContext) : bool :=
  match c with Some c => negb (bool_decide (devices c = [])) | None => false end.

Definition parent_edges (node_id : string) (edges : list edge) : list edge :=
  filter (fun e => target e = Some node_id) edges.

Definition edge_evidence (step_outcomes : outcome_map) (blocked : gset string) (flags : bool * bool) (e : edge) : bool * bool :=
  let (saw_devices, saw_failure_evidence) := flags in
  let source_id := edge_source e in
  if decide (source_id ∈ blocked) then (saw_devices, true)
  else
    let parent_outcomes := default [] (step_outcomes !! source_id) in
    (saw_devices || has_devices (dget (handle_or_success e) parent_outcomes),
     saw_failure_evidence || has_devices (dget "failure" parent_outcomes)).

Definition blocked_by_upstream_failure (node_id : string) (edges : list edge) (step_outcomes : outcome_map)
    (blocked : gset string) : bool :=
  let (saw_devices, saw_failure_evidence) :=
    foldl (edge_evidence step_outcomes blocked) (false, false) (parent_edges node_id edges) in
  saw_failure_evidence && negb saw_devices.

(** [_store_step_outcomes]: a dict comprehension. *)
Definition outcomes_by_name (outcomes : list StepOutcome) : dict WorkflowContext :=
  foldl (fun d o => dset (so_name o) (so_context o) d) [] outcomes.
Definition store_step_outcomes (step_outcomes : outcome_map) (node_id : string) (outcomes : list StepOutcome) : outcome_map :=
  <[node_id := outcomes_by_name outcomes]> step_outcomes.

(** [_seed_run_inputs] *)
Definition seed_run_inputs (inputs : dict json) (outcomes : list StepOutcome) : list StepOutcome :=
  match inputs with
  | [] => outcomes
  | _ => (fun o => Outcome (so_name o) (seed_run_input_bag (so_context o) inputs) (so_summary o) (so_failure o)) <$> outcomes
  end.

Section Runner.
Context (E : engine) (rid : nat) (row : WorkflowRun).

(** [_step_requires_devices] *)
Definition step_requires_devices (step_type : string) : res bool :=
  match get_plugin (registry E) step_type false with
  | None => Ok false
  | Some plugin =>
      spec ← capability_spec_from_plugin plugin;
      Ok (bool_decide (IDENTITY ∈ spec_requires spec))
  end.

(** [_assemble_input_context] *)
Definition parent_contexts (node_id : string) (edges : list edge) (step_outcomes : outcome_map) : list WorkflowContext :=
  omap (fun e => named ← step_outcomes !! edge_source e; dget (handle_or_success e) named) (parent_edges node_id edges).

Definition assemble_input_context (node_id : string) (edges : list edge) (step_outcomes : outcome_map) : res WorkflowContext :=
  match parent_contexts node_id edges step_outcomes with
  | [] => Ok (Workflow (uuid row) (pretty (run_workflow_id row)) 2 [] [] [])
  | contexts => merge_workflow_contexts (now_iso E) contexts
  end.

(** [_execute_step]; contexts are values, so the strict-mode comparison before
    and after the executor has nothing to find. *)
Definition execute_step (step_type : string) (config : dict json) (context : WorkflowContext) (node_id : string)
    : res (list StepOutcome) :=
  match STEP_REGISTRY E step_type with
  | None => Raise (ValueError "Unknown step type: " [step_type])
  | Some executor =>
      match get_plugin (registry E) step_type false with
      | None => Raise (ValueError "Unknown plugin in registry: " [step_type])
      | Some plugin =>
          spec ← capability_spec_from_plugin plugin;
          _ ← pre_step_guard spec context;
          outcomes ← executor config context node_id;
          match outcomes with
          | [] => Raise (RuntimeError "Step returned no outcomes" [step_type])
          | _ =>
              _ ← post_step_guard spec context outcomes (Some (effective_produces spec step_type config));
              Ok outcomes
          end
      end
  end.

(** [_serialize_outcomes] *)
Definition serialize_outcomes (node_id : string) (outcomes : list StepOutcome) : json :=
  let persisted := foldl (fun d o => dset (so_name o) (redact_secrets_in_data (known_secrets E node_id) (dump (so_context o))) d)
                     [] outcomes in
  JDict [("outcomes", cap_persisted_output (float_len E) persisted (step_output_value_max_bytes E) (step_output_max_bytes E))].

(** What a step computes, from the outcomes of its parents. *)
Definition run_executor (n : node) (node_id : string) (edges : list edge) (step_outcomes : outcome_map)
    : res (list StepOutcome) :=
  input_context ← assemble_input_context node_id edges step_outcomes;
  outcomes ← execute_step (node_type n) (node_config n) input_context node_id;
  Ok (seed_run_inputs (run_inputs row) outcomes).

(** The columns written when it ran, and when it raised. *)
Definition finished_fields (node_id : string) (outcomes : list StepOutcome) : step_fields :=
  StepFields (Some (serialize_outcomes node_id outcomes)) None None None (outcome_failure outcomes) None (Some (clock E)).

Definition failure_for_step_exception (e : exn) (category : string) : option FailureInfo :=
  match carried_failure E e with
  | Some failure => Some failure
  | None => if String.eqb category "internal"
            then Some (Failure "internal" "internal_error" false None None None None None (Some (exn_class E e)) None)
            else None
  end.

Definition failed_fields (node_id : string) (e : exn) : step_fields :=
  let (category, message) := classify_step_exception (exn_text E) e in
  StepFields None (Some (truncate 4000 (match known_secrets E node_id with [] => message | known => scrub_string message (longest_first known) end)))
    (Some category) (Some (new_error_id E node_id)) (failure_to_json <$> failure_for_step_exception e category) None (Some (clock E)).

(** ** The state of a walk *)

(** Where a step's coroutine is: not started, awaiting its executor, or done
    with [(raised, indicates failure)] or an exception. *)
Inductive phase := Waiting | Executing | Done (r : res (bool * bool)).

Record walk := Walk {
  w_db : tables;
  w_outcomes : outcome_map;
  w_blocked : gset string;
  w_phase : gmap string phase;
  w_attempts : gmultiset string      (* the steps handed to an executor *)
}.

Definition update_row (node_id : string) (status : step_status) (f : step_fields) (w : walk) : walk :=
  Walk (update_step_result rid node_id status f (w_db w)) (w_outcomes w) (w_blocked w) (w_phase w) (w_attempts w).
Definition set_phase (node_id : string) (p : phase) (w : walk) : walk :=
  Walk (w_db w) (w_outcomes w) (w_blocked w) (<[node_id := p]> (w_phase w)) (w_attempts w).
Definition block (node_id : string) (w : walk) : walk :=
  Walk (w_db w) (w_outcomes w) ({[node_id]} ∪ w_blocked w) (w_phase w) (w_attempts w).
Definition attempt (node_id : string) (w : walk) : walk :=
  Walk (w_db w) (w_outcomes w) (w_blocked w) (w_phase w) ({[+ node_id +]} ⊎ w_attempts w).
Definition set_outcomes (node_id : string) (outcomes : list StepOutcome) (w : walk) : walk :=
  Walk (w_db w) (store_step_outcomes (w_outcomes w) node_id outcomes) (w_blocked w) (w_phase w) (w_attempts w).

(** [step_result.status], read back after the write. *)
Definition row_failed (node_id : string) (w : walk) : bool :=
  match steps (w_db w) !! (rid, node_id) with Some s => bool_decide (sstatus s = S_failed) | None => false end.

(** [run_node_in_sequence] and [_execute_and_persist_node], cut at the
    executor's await. *)
Definition start_node (edges : list edge) (n : node) (w : walk) : walk :=
  let nid := node_id_or_empty n in
  match step_requires_devices (node_type n) with
  | Raise e => set_phase nid (Done (Raise e)) w
  | Ok requires_devices =>
      if requires_devices && blocked_by_upstream_failure nid edges (w_outcomes w) (w_blocked w)
      then set_phase nid (Done (Ok (false, true))) (block nid (update_row nid S_skipped no_step_fields w))
      else set_phase nid Executing
             (update_row nid S_running (StepFields None None None None None (Some (clock E)) None) w)
  end.

Definition finish_node (edges : list edge) (n : node) (w : walk) : walk :=
  let nid := node_id_or_empty n in
  match w_phase w !! nid with
  | Some Executing =>
      let w := attempt nid w in
      match run_executor n nid edges (w_outcomes w) with
      | Ok outcomes =>
          let w := update_row nid (derive_step_result_status outcomes) (finished_fields nid outcomes) (set_outcomes nid outcomes w) in
          set_phase nid (Done (Ok (false, row_failed nid w))) w
      | Raise e => set_phase nid (Done (Ok (true, true))) (update_row nid S_failed (failed_fields nid e) w)
      end
  | _ => w
  end.

(** ** Waves *)

Inductive action := Start (n : node) | Finish (n : node).
Definition action_node (a : action) : node := match a with Start n | Finish n => n end.

Definition act (edges : list edge) (w : walk) (a : action) : walk :=
  match a with Start n => start_node edges n w | Finish n => finish_node edges n w end.

(** The schedules of [asyncio.gather]: every coroutine runs to its end. *)
Definition interleaving (wave : list node) (l : list action) : Prop :=
  l ≡ₚ concat ((fun n => [Start n; Finish n]) <$> wave) /\ forall n, n ∈ wave -> before l (Start n) (Finish n).

(** The aggregation at the end of [_run_wave]. *)
Definition wave_flags (wave : list node) (w : walk) : res (bool * bool) :=
  foldM (fun flags n =>
    match w_phase w !! node_id_or_empty n with
    | Some (Done (Ok (raised, indicates_failure))) =>
        Ok (if raised then (true, flags.2) else (flags.1, flags.2 || indicates_failure))
    | Some (Done (Raise e)) => Raise e
    | _ => Ok flags
    end) (false, false) wave.

Definition skip_wave (wave : list node) (w : walk) : walk :=
  foldl (fun w n => update_row (node_id_or_empty n) S_skipped no_step_fields w) w wave.

(** The fan-out test on the finished wave, in wave order. *)
Definition fan_out_of (c : WorkflowContext) : res (option (dict json)) :=
  match dget "_fan_out" (metadata c) with
  | None => Ok None
  | Some (JDict d) => Ok (if match dget "enabled" d with Some v => truthy v | None => false end then Some d else None)
  | Some _ => Raise (OtherError "AttributeError")
  end.

Fixpoint find_fan_out (nodes : list node) (edges : list edge) (wave : list node) (outcomes : outcome_map)
    : res (option FanOutSignal) :=
  match wave with
  | [] => Ok None
  | n :: rest =>
      let nid := node_id_or_empty n in
      match named ← outcomes !! nid; dget "success" named with
      | None => find_fan_out nodes edges rest outcomes
      | Some success_ctx =>
          found ← fan_out_of success_ctx;
          match found with
          | Some config => Ok (Some (Signal nid config success_ctx outcomes (find_join_node_id nid nodes edges)))
          | None => find_fan_out nodes edges rest outcomes
          end
      end
  end.

Inductive walk_result := WR_done (success : bool) | WR_fan_out (signal : FanOutSignal).

Section Walk.
Context (schedule : list node -> list action) (env : nat -> list db_op).

Definition interfere (k : nat) (w : walk) : walk :=
  Walk (exec_ops (env k) (w_db w)) (w_outcomes w) (w_blocked w) (w_phase w) (w_attempts w).

(** The loop of [execute_all], and of [resume_after_join] when
    [fan_out_graph] is [None]. *)
Fixpoint walk_waves (fan_out_graph : option (list node * list edge)) (edges : list edge) (k : nat)
    (generations : list (list node)) (failed any_reported_failure : bool) (w : walk) : res walk_result * walk :=
  match generations with
  | [] => (Ok (WR_done (negb (failed || any_reported_failure))), w)
  | wave :: rest =>
      let w := interfere k w in
      if failed || run_cancelled rid (w_db w)
      then walk_waves fan_out_graph edges (S k) rest true any_reported_failure (skip_wave wave w)
      else
        let w := foldl (act edges) w (schedule wave) in
        match wave_flags wave w with
        | Raise e => (Raise e, w)
        | Ok (true, _) => walk_waves fan_out_graph edges (S k) rest true any_reported_failure w
        | Ok (false, reported) =>
            match (match fan_out_graph with Some g => find_fan_out g.1 g.2 wave (w_outcomes w) | None => Ok None end) with
            | Raise e => (Raise e, w)
            | Ok (Some signal) => (Ok (WR_fan_out signal), w)
            | Ok None => walk_waves fan_out_graph edges (S k) rest false (any_reported_failure || reported) w
            end
        end
  end.

(** [create_pending_step_results]: each row is committed on its own; [false]
    when a row existed ([StepResultExistsError]). *)
Fixpoint create_pending_step_results (ordered_nodes : list node) (db : tables) : bool * tables :=
  match ordered_nodes with
  | [] => (true, db)
  | n :: rest =>
      match create_step_result rid (node_id_or_empty n) (node_type n) (node_title n) db with
      | Ok db' => create_pending_step_results rest db'
      | Raise _ => (false, db)
      end
  end.

Definition fresh_walk (outcomes : outcome_map) (db : tables) : walk := Walk db outcomes ∅ ∅ ∅.

Definition execute_all (canvas_nodes : list node) (canvas_edges : list edge) (db : tables) : res walk_result * walk :=
  let w0 := fresh_walk ∅ db in
  match load_execution_graph canvas_nodes canvas_edges with
  | Raise e => (Raise e, w0)
  | Ok (nodes, edges) =>
      if decide (get_step_results_for_run rid db ≠ ∅) then (Raise (RunAlreadyStarted "already has step results"), w0)
      else match topological_sort (registry E) nodes edges with
           | Raise e => (Raise e, w0)
           | Ok ordered_nodes =>
               match create_pending_step_results ordered_nodes (exec_ops (env 0) db) with
               | (false, db') => (Raise (RunAlreadyStarted "is already being executed"), fresh_walk ∅ db')
               | (true, db') =>
                   match topological_generations ordered_nodes edges with
                   | Raise e => (Raise e, fresh_walk ∅ db')
                   | Ok generations =>
                       walk_waves (Some (nodes, edges)) edges 1 generations false false (fresh_walk ∅ db')
                   end
               end
           end
  end.

(** The rows of the nodes behind the join that do not exist yet. *)
Fixpoint create_missing_step_results (nodes : list node) (existing : gmap (nat * string) WorkflowStepResult) (db : tables)
    : bool * tables :=
  match nodes with
  | [] => (true, db)
  | n :: rest =>
      match existing !! (rid, node_id_or_empty n) with
      | Some _ => create_missing_step_results rest existing db
      | None =>
          match create_step_result rid (node_id_or_empty n) (node_type n) (node_title n) db with
          | Ok db' => create_missing_step_results rest existing db'
          | Raise _ => (false, db)
          end
      end
  end.

Definition resume_after_join (canvas_nodes : list node) (canvas_edges : list edge) (merged_outcomes : outcome_map)
    (join : string) (db : tables) : res walk_result * walk :=
  let w0 := fresh_walk merged_outcomes db in
  match load_execution_graph canvas_nodes canvas_edges with
  | Raise e => (Raise e, w0)
  | Ok (nodes, edges) =>
      match topological_sort (registry E) nodes edges with
      | Raise e => (Raise e, w0)
      | Ok ordered_nodes =>
          let post_join_ids := {[join]} ∪ downstream_node_ids join nodes edges in
          let post_join_nodes := filter (fun n => node_id_or_empty n ∈ post_join_ids) ordered_nodes in
          match create_missing_step_results post_join_nodes (get_step_results_for_run rid db) (exec_ops (env 0) db) with
          | (false, db') => (Raise (RunAlreadyStarted "is already being resumed"), fresh_walk merged_outcomes db')
          | (true, db') =>
              match topological_generations post_join_nodes edges with
              | Raise e => (Raise e, fresh_walk merged_outcomes db')
              | Ok generations => walk_waves None edges 1 generations false false (fresh_walk merged_outcomes db')
              end
          end
      end
  end.
End Walk.
End Runner.

(** * Facts *)

Create HintDb walk.

Section Facts.
Context (E : engine) (rid : nat) (row : WorkflowRun) (edges : list edge).
Implicit Types (w : walk) (n m : node) (a : action).

Abbreviation act := (act E rid row edges).

(** ** What one action reads and writes *)

(** The nodes whose outcomes a step reads. *)
Definition relevant (i p : string) : Prop := p = i \/ exists e, e ∈ edges /\ target e = Some i /\ edge_source e = p.

(** Two states that look the same to step [i]. *)
Record agree (i : string) (w1 w2 : walk) : Prop := {
  ag_runs : runs (w_db w1) = runs (w_db w2);
  ag_outcomes p : relevant i p -> w_outcomes w1 !! p = w_outcomes w2 !! p;
  ag_blocked p : relevant i p -> p ∈ w_blocked w1 <-> p ∈ w_blocked w2;
  ag_row : steps (w_db w1) !! (rid, i) = steps (w_db w2) !! (rid, i);
  ag_phase : w_phase w1 !! i = w_phase w2 !! i;
  ag_attempts : multiplicity i (w_attempts w1) = multiplicity i (w_attempts w2)
}.

Lemma agree_refl i w : agree i w w.
Proof. by split. Qed.
Lemma agree_trans i w1 w2 w3 : agree i w1 w2 -> agree i w2 w3 -> agree i w1 w3.
Proof.
  intros [H1 H2 H3 H4 H5 H6] [H1' H2' H3' H4' H5' H6'].
  split; [congruence| | |congruence|congruence|congruence]; intros p Hp.
  - rewrite H2 by done. by apply H2'.
  - rewrite H3 by done. by apply H3'.
Qed.

Lemma parent_edge_relevant i e : e ∈ parent_edges i edges -> relevant i (edge_source e).
Proof. unfold parent_edges. intros [Ht Hin]%list_elem_of_filter. right. by exists e. Qed.

(** The parents of a step look the same. *)
Definition same_parents (i : string) (w1 w2 : walk) : Prop :=
  forall e, e ∈ parent_edges i edges ->
    w_outcomes w1 !! edge_source e = w_outcomes w2 !! edge_source e /\
    (edge_source e ∈ w_blocked w1 <-> edge_source e ∈ w_blocked w2).

Lemma agree_parents i w1 w2 : agree i w1 w2 -> same_parents i w1 w2.
Proof. intros Ha e He%parent_edge_relevant. split; [by apply (ag_outcomes _ _ _ Ha)|by apply (ag_blocked _ _ _ Ha)]. Qed.

Lemma blocked_cong i w1 w2 : same_parents i w1 w2 ->
  blocked_by_upstream_failure i edges (w_outcomes w1) (w_blocked w1) =
  blocked_by_upstream_failure i edges (w_outcomes w2) (w_blocked w2).
Proof.
  intros Ha. unfold blocked_by_upstream_failure.
  assert (Hf : forall es flags, (forall e, e ∈ es -> e ∈ parent_edges i edges) ->
    foldl (edge_evidence (w_outcomes w1) (w_blocked w1)) flags es = foldl (edge_evidence (w_outcomes w2) (w_blocked w2)) flags es).
  { induction es as [|e es IH]; intros [d f] Hr; [done|]. cbn [foldl].
    destruct (Ha e) as [Ho Hb]; [apply Hr; by left|].
    replace (edge_evidence (w_outcomes w1) (w_blocked w1) (d, f) e) with (edge_evidence (w_outcomes w2) (w_blocked w2) (d, f) e).
    - apply IH. intros e' He'. apply Hr. by right.
    - unfold edge_evidence. rewrite Ho. destruct (decide (edge_source e ∈ w_blocked w1)) as [Hbl|Hbl].
      + by rewrite decide_True by (by apply Hb).
      + by rewrite decide_False by (by rewrite <- Hb). }
  by rewrite Hf.
Qed.

Lemma run_executor_cong n w1 w2 : same_parents (node_id_or_empty n) w1 w2 ->
  run_executor E row n (node_id_or_empty n) edges (w_outcomes w1) = run_executor E row n (node_id_or_empty n) edges (w_outcomes w2).
Proof.
  intros Ha. unfold run_executor, assemble_input_context.
  replace (parent_contexts (node_id_or_empty n) edges (w_outcomes w2)) with (parent_contexts (node_id_or_empty n) edges (w_outcomes w1)); [done|].
  unfold parent_contexts. apply omap_ext_in. intros e He. by destruct (Ha e He) as [-> _].
Qed.

(** An update of a row reads the run's status and the row. *)
Lemma update_row_runs i st f w : runs (w_db (update_row rid i st f w)) = runs (w_db w).
Proof. unfold update_row, update_step_result. simpl. repeat case_match; done. Qed.
Lemma update_row_cong i st f w1 w2 :
  runs (w_db w1) = runs (w_db w2) -> steps (w_db w1) !! (rid, i) = steps (w_db w2) !! (rid, i) ->
  steps (w_db (update_row rid i st f w1)) !! (rid, i) = steps (w_db (update_row rid i st f w2)) !! (rid, i).
Proof.
  intros Hr Hs. unfold update_row, update_step_result, run_cancelled. simpl. rewrite Hr, Hs.
  destruct (steps (w_db w2) !! (rid, i)) as [s|] eqn:Hrow; [|by rewrite Hs, Hrow].
  destruct (_ && _); [by rewrite Hs, Hrow|]. simpl. by rewrite !lookup_insert_eq.
Qed.
Lemma update_row_other i st f w k : k ≠ (rid, i) -> steps (w_db (update_row rid i st f w)) !! k = steps (w_db w) !! k.
Proof. intros Hk. unfold update_row, update_step_result. simpl. repeat case_match; try done. simpl. by rewrite lookup_insert_ne. Qed.
Lemma update_row_rest i st f w :
  groups (w_db (update_row rid i st f w)) = groups (w_db w) /\ next_id (w_db (update_row rid i st f w)) = next_id (w_db w).
Proof. unfold update_row, update_step_result. simpl. repeat case_match; done. Qed.

(** The writes of a step, seen from itself and from a step it is not relevant to. *)
Lemma update_row_agree i st f w1 w2 : agree i w1 w2 -> agree i (update_row rid i st f w1) (update_row rid i st f w2).
Proof. intros [H1 H2 H3 H4 H5 H6]. split; [by rewrite !update_row_runs|done|done|by apply update_row_cong|done|done]. Qed.
Lemma set_phase_agree i p w1 w2 : agree i w1 w2 -> agree i (set_phase i p w1) (set_phase i p w2).
Proof. intros [H1 H2 H3 H4 H5 H6]. split; try done. cbn [set_phase block attempt set_outcomes w_phase w_blocked w_attempts w_outcomes]. by rewrite !lookup_insert_eq. Qed.
Lemma block_agree i w1 w2 : agree i w1 w2 -> agree i (block i w1) (block i w2).
Proof. intros [H1 H2 H3 H4 H5 H6]. split; try done. intros p Hp. cbn [block set_outcomes w_blocked w_outcomes]. by rewrite !elem_of_union, H3. Qed.
Lemma attempt_agree i w1 w2 : agree i w1 w2 -> agree i (attempt i w1) (attempt i w2).
Proof. intros [H1 H2 H3 H4 H5 H6]. split; try done. cbn [set_phase block attempt set_outcomes w_phase w_blocked w_attempts w_outcomes]. by rewrite !multiplicity_disj_union, H6. Qed.
Lemma set_outcomes_agree i os w1 w2 : agree i w1 w2 -> agree i (set_outcomes i os w1) (set_outcomes i os w2).
Proof.
  intros [H1 H2 H3 H4 H5 H6]. split; try done. intros p Hp. cbn [block set_outcomes w_blocked w_outcomes]. unfold store_step_outcomes.
  destruct (decide (p = i)) as [->|Hne]; [by rewrite !lookup_insert_eq|]. rewrite !lookup_insert_ne by done. by apply H2.
Qed.

Lemma apart_ne i j : ~ relevant i j -> j ≠ i.
Proof. intros Hr ->. apply Hr. by left. Qed.
Lemma update_row_apart i j st f w : ~ relevant i j -> agree i w (update_row rid j st f w).
Proof.
  intros Hne%apart_ne. split; try done; [by rewrite update_row_runs|]. rewrite update_row_other; [done|]. by intros [=].
Qed.
Lemma set_phase_apart i j p w : ~ relevant i j -> agree i w (set_phase j p w).
Proof. intros Hne%apart_ne. split; try done. cbn [set_phase w_phase]. by rewrite lookup_insert_ne. Qed.
Lemma block_apart i j w : ~ relevant i j -> agree i w (block j w).
Proof.
  intros Hr. split; try done. intros p Hp. cbn [block w_blocked]. rewrite elem_of_union, elem_of_singleton.
  split; [by right|]. by intros [->|].
Qed.
Lemma attempt_apart i j w : ~ relevant i j -> agree i w (attempt j w).
Proof.
  intros Hne%apart_ne. split; try done. cbn [attempt w_attempts]. rewrite multiplicity_disj_union, multiplicity_singleton_ne by done. lia.
Qed.
Lemma set_outcomes_apart i j os w : ~ relevant i j -> agree i w (set_outcomes j os w).
Proof.
  intros Hr. split; try done. intros p Hp. cbn [set_outcomes w_outcomes]. unfold store_step_outcomes.
  rewrite lookup_insert_ne; [done|]. by intros ->.
Qed.

Hint Resolve update_row_agree set_phase_agree block_agree attempt_agree set_outcomes_agree agree_refl : walk.

(** A step's action depends on what is relevant to it ... *)
Lemma act_agree i w1 w2 a :
  node_id_or_empty (action_node a) = i -> agree i w1 w2 -> agree i (act w1 a) (act w2 a).
Proof.
  intros Hi Ha. destruct a as [n|n]; cbn [action_node] in Hi; subst i; simpl.
  - unfold start_node. rewrite (blocked_cong _ _ _ (agree_parents _ _ _ Ha)).
    destruct (step_requires_devices E (node_type n)) as [req|e]; [|auto with walk].
    destruct (req && _); auto with walk.
  - unfold finish_node. rewrite (ag_phase _ _ _ Ha). destruct (w_phase w2 !! node_id_or_empty n) as [[]|] eqn:Hp; try done.
    rewrite (run_executor_cong n _ (attempt (node_id_or_empty n) w2)) by (apply agree_parents; auto with walk).
    destruct (run_executor _ _ _ _ _ _) as [os|e]; [|auto with walk].
    assert (Hw : agree (node_id_or_empty n)
      (update_row rid (node_id_or_empty n) (derive_step_result_status os) (finished_fields E (node_id_or_empty n) os)
         (set_outcomes (node_id_or_empty n) os (attempt (node_id_or_empty n) w1)))
      (update_row rid (node_id_or_empty n) (derive_step_result_status os) (finished_fields E (node_id_or_empty n) os)
         (set_outcomes (node_id_or_empty n) os (attempt (node_id_or_empty n) w2)))) by auto 10 with walk.
    unfold row_failed. rewrite (ag_row _ _ _ Hw). by apply set_phase_agree.
Qed.

(** ... and a step it is not relevant to does not see it. *)
Lemma act_apart i w a : ~ relevant i (node_id_or_empty (action_node a)) -> agree i w (act w a).
Proof.
  intros Hr. destruct a as [n|n]; cbn [action_node] in Hr; simpl.
  - unfold start_node. destruct (step_requires_devices E (node_type n)) as [req|e]; [|by apply set_phase_apart].
    destruct (req && _).
    + eapply agree_trans; [by apply update_row_apart|]. eapply agree_trans; [by apply block_apart|by apply set_phase_apart].
    + eapply agree_trans; [by apply update_row_apart|by apply set_phase_apart].
  - unfold finish_node. destruct (w_phase w !! node_id_or_empty n) as [[]|]; try apply agree_refl.
    eapply agree_trans; [by apply attempt_apart|]. destruct (run_executor _ _ _ _ _ _) as [os|e].
    + eapply agree_trans; [by apply (set_outcomes_apart i (node_id_or_empty n) os)|]. eapply agree_trans; [by apply update_row_apart|by apply set_phase_apart].
    + eapply agree_trans; [by apply update_row_apart|by apply set_phase_apart].
Qed.

(** Nothing else changes. *)
Record frame (ids : list string) (w1 w2 : walk) : Prop := {
  fr_runs : runs (w_db w1) = runs (w_db w2);
  fr_groups : groups (w_db w1) = groups (w_db w2);
  fr_next : next_id (w_db w1) = next_id (w_db w2);
  fr_steps k : (forall i, i ∈ ids -> k ≠ (rid, i)) -> steps (w_db w1) !! k = steps (w_db w2) !! k;
  fr_outcomes i : i ∉ ids -> w_outcomes w1 !! i = w_outcomes w2 !! i;
  fr_blocked i : i ∉ ids -> i ∈ w_blocked w1 <-> i ∈ w_blocked w2;
  fr_phase i : i ∉ ids -> w_phase w1 !! i = w_phase w2 !! i;
  fr_attempts i : i ∉ ids -> multiplicity i (w_attempts w1) = multiplicity i (w_attempts w2)
}.

#[export] Instance frame_preorder ids : PreOrder (frame ids).
Proof.
  split; [by intros w; split|]. intros w1 w2 w3 [A1 A2 A3 A4 A5 A6 A7 A8] [B1 B2 B3 B4 B5 B6 B7 B8].
  split; try congruence; intros.
  - by rewrite A4, B4.
  - by rewrite A5, B5.
  - by rewrite A6, B6.
  - by rewrite A7, B7.
  - by rewrite A8, B8.
Qed.

Lemma update_row_frame ids i st f w : i ∈ ids -> frame ids w (update_row rid i st f w).
Proof.
  intros Hi. destruct (update_row_rest i st f w) as [Hg Hn]. split; try done; [by rewrite update_row_runs|].
  intros k Hk. symmetry. by apply update_row_other, Hk.
Qed.
Lemma set_phase_frame ids i p w : i ∈ ids -> frame ids w (set_phase i p w).
Proof. intros Hi. split; try done. intros i' Hi'. cbn [set_phase block attempt set_outcomes w_phase w_blocked w_attempts w_outcomes]. rewrite lookup_insert_ne; [done|]. by intros ->. Qed.
Lemma block_frame ids i w : i ∈ ids -> frame ids w (block i w).
Proof. intros Hi. split; try done. intros i' Hi'. cbn [set_phase block attempt set_outcomes w_phase w_blocked w_attempts w_outcomes]. set_solver. Qed.
Lemma attempt_frame ids i w : i ∈ ids -> frame ids w (attempt i w).
Proof.
  intros Hi. split; try done. intros i' Hi'. cbn [set_phase block attempt set_outcomes w_phase w_blocked w_attempts w_outcomes]. rewrite multiplicity_disj_union, multiplicity_singleton_ne; [lia|]. by intros ->.
Qed.
Lemma set_outcomes_frame ids i os w : i ∈ ids -> frame ids w (set_outcomes i os w).
Proof. intros Hi. split; try done. intros i' Hi'. cbn [set_phase block attempt set_outcomes w_phase w_blocked w_attempts w_outcomes]. unfold store_step_outcomes. rewrite lookup_insert_ne; [done|]. by intros ->. Qed.

Lemma act_frame ids w a : node_id_or_empty (action_node a) ∈ ids -> frame ids w (act w a).
Proof.
  intros Hi. destruct a as [n|n]; cbn [action_node] in Hi; simpl.
  - unfold start_node. destruct (step_requires_devices E (node_type n)) as [req|e]; [|by apply set_phase_frame].
    destruct (req && _).
    + etrans; [by apply update_row_frame|]. etrans; [by apply block_frame|by apply set_phase_frame].
    + etrans; [by apply update_row_frame|by apply set_phase_frame].
  - unfold finish_node. destruct (w_phase w !! node_id_or_empty n) as [[]|]; try reflexivity.
    etrans; [by apply attempt_frame|]. destruct (run_executor _ _ _ _ _ _) as [os|e].
    + etrans; [by apply (set_outcomes_frame ids (node_id_or_empty n) os)|]. etrans; [by apply update_row_frame|by apply set_phase_frame].
    + etrans; [by apply update_row_frame|by apply set_phase_frame].
Qed.

Lemma acts_frame ids w l : (forall a, a ∈ l -> node_id_or_empty (action_node a) ∈ ids) -> frame ids w (foldl act w l).
Proof.
  revert w. induction l as [|a l IH]; intros w Hl; [reflexivity|]. cbn [foldl]. etrans; [apply act_frame, Hl; by left|].
  apply IH. intros a' Ha'. apply Hl. by right.
Qed.

(** Two states that frame the same state and look alike to every step of [ids]
    are the same. *)
Lemma walk_ext ids w w1 w2 :
  frame ids w w1 -> frame ids w w2 -> (forall i, i ∈ ids -> agree i w1 w2) -> w1 = w2.
Proof.
  intros [A1 A2 A3 A4 A5 A6 A7 A8] [B1 B2 B3 B4 B5 B6 B7 B8] Ha.
  assert (Hself : forall i, relevant i i) by (by left).
  destruct w1 as [[r1 s1 g1 x1] o1 b1 p1 t1], w2 as [[r2 s2 g2 x2] o2 b2 p2 t2]. simpl in *.
  assert (s1 = s2).
  { apply map_eq. intros k. destruct (decide (Exists (fun i => k = (rid, i)) ids)) as [(i & Hi & ->)%Exists_exists|Hn].
    - apply (ag_row _ _ _ (Ha i Hi)).
    - assert (Hk : forall i, i ∈ ids -> k ≠ (rid, i)) by (intros i Hi ->; apply Hn, Exists_exists; eauto).
      by rewrite <- A4, B4. }
  assert (o1 = o2).
  { apply map_eq. intros i. destruct (decide (i ∈ ids)) as [Hi|Hi]; [by apply (ag_outcomes _ _ _ (Ha i Hi))|by rewrite <- A5, B5]. }
  assert (b1 = b2).
  { apply set_eq. intros i. destruct (decide (i ∈ ids)) as [Hi|Hi]; [by apply (ag_blocked _ _ _ (Ha i Hi))|by rewrite <- A6, B6]. }
  assert (p1 = p2).
  { apply map_eq. intros i. destruct (decide (i ∈ ids)) as [Hi|Hi]; [by apply (ag_phase _ _ _ (Ha i Hi))|by rewrite <- A7, B7]. }
  assert (t1 = t2).
  { apply gmultiset_eq. intros i. destruct (decide (i ∈ ids)) as [Hi|Hi]; [by apply (ag_attempts _ _ _ (Ha i Hi))|by rewrite <- A8, B8]. }
  congruence.
Qed.

(** ** Schedules *)

(** No step of a wave feeds another one. *)
Definition independent (wave : list node) : Prop :=
  NoDup (node_id_or_empty <$> wave) /\
  forall n m e, n ∈ wave -> m ∈ wave -> e ∈ edges -> target e = Some (node_id_or_empty n) -> edge_source e ≠ node_id_or_empty m.

Lemma project i w1 w2 l :
  agree i w1 w2 ->
  (forall a, a ∈ l -> node_id_or_empty (action_node a) = i \/ ~ relevant i (node_id_or_empty (action_node a))) ->
  agree i (foldl act w1 l) (foldl act w2 (filter (fun a => node_id_or_empty (action_node a) = i) l)).
Proof.
  revert w1 w2. induction l as [|a l IH]; intros w1 w2 Ha Hl; [done|]. cbn [foldl]. rewrite filter_cons.
  destruct (decide _) as [Hi|Hi].
  - cbn [foldl]. apply IH; [by apply act_agree|]. intros b Hb. apply Hl. by right.
  - apply IH; [|intros b Hb; apply Hl; by right]. eapply agree_trans; [|done].
    destruct (Hl a) as [|Hr]; [by left|done|].
    destruct (act_apart i w1 a Hr) as [H1 H2 H3 H4 H5 H6]. split; intros; symmetry; auto.
Qed.

Lemma before_filter {A} (P : A -> Prop) `{forall x, Decision (P x)} (l : list A) x y :
  P y -> P x -> before l x y -> before (filter P l) x y.
Proof.
  intros Hy Hx (l1 & l2 & -> & Hin). exists (filter P l1), (filter P l2). split; [|by apply list_elem_of_filter].
  by rewrite filter_app, filter_cons_True.
Qed.

Lemma schedule_of_step wave l n :
  NoDup (node_id_or_empty <$> wave) -> interleaving wave l -> n ∈ wave ->
  filter (fun a => node_id_or_empty (action_node a) = node_id_or_empty n) l = [Start n; Finish n].
Proof.
  intros Hnd [Hperm Hbefore] Hn.
  assert (Hf : filter (fun a => node_id_or_empty (action_node a) = node_id_or_empty n) l ≡ₚ [Start n; Finish n]).
  { rewrite Hperm. clear Hperm Hbefore l. induction wave as [|m wave IH]; [by apply not_elem_of_nil in Hn|].
    rewrite fmap_cons in Hnd. apply NoDup_cons in Hnd as [Hm Hnd]. cbn [fmap list_fmap concat]. rewrite filter_app.
    apply elem_of_cons in Hn as [->|Hn].
    - rewrite filter_cons_True by done. rewrite filter_cons_True by done.
      rewrite filter_nil, filter_none; [done|]. intros a Ha Heq.
      apply Hm. apply list_elem_of_In, in_concat in Ha as (x & Hx & Ha). apply list_elem_of_In in Hx, Ha.
      apply list_elem_of_fmap in Hx as (k & -> & Hk). rewrite !elem_of_cons, elem_of_nil in Ha.
      destruct Ha as [->|[->|[]]]; cbn [action_node] in Heq; rewrite <- Heq; by apply list_elem_of_fmap_2.
    - rewrite !filter_cons_False; [by apply IH|..]; cbn [action_node]; intros Heq; apply Hm; rewrite Heq; by apply list_elem_of_fmap_2. }
  pose proof (before_filter (fun a => node_id_or_empty (action_node a) = node_id_or_empty n) l (Start n) (Finish n) eq_refl eq_refl (Hbefore n Hn)) as Hb.
  symmetry in Hf. apply Permutation_length_2_inv in Hf as [->|Heq]; [done|]. exfalso. rewrite Heq in Hb.
  destruct Hb as ([|? [|? k1]] & k2 & Hk & Hin); simplify_eq/=; [by apply not_elem_of_nil in Hin|by destruct k1].
Qed.

Lemma interleaving_nodes wave l a : interleaving wave l -> a ∈ l -> action_node a ∈ wave.
Proof.
  intros [Hperm _] Ha. rewrite Hperm in Ha. apply list_elem_of_In, in_concat in Ha as (x & Hx & Ha). apply list_elem_of_In in Hx, Ha.
  apply list_elem_of_fmap in Hx as (k & -> & Hk). rewrite !elem_of_cons, elem_of_nil in Ha. by destruct Ha as [->|[->|[]]].
Qed.

Lemma interleaving_ids wave l a :
  interleaving wave l -> a ∈ l -> node_id_or_empty (action_node a) ∈ (node_id_or_empty <$> wave).
Proof. intros Hl Ha. apply list_elem_of_fmap_2. by eapply interleaving_nodes. Qed.

(** To one of its steps a wave looks as if that step had run alone. *)
Lemma wave_local wave l n w :
  independent wave -> interleaving wave l -> n ∈ wave ->
  agree (node_id_or_empty n) (foldl act w l) (foldl act w [Start n; Finish n]).
Proof.
  intros [Hnd Hind] Hl Hn. rewrite <- (schedule_of_step wave l n Hnd Hl Hn). apply project; [apply agree_refl|].
  intros a Ha. destruct (decide (node_id_or_empty (action_node a) = node_id_or_empty n)) as [|Hne]; [by left|right].
  intros [|(e & He & Ht & Hs)]; [done|]. apply (Hind n (action_node a) e Hn); [by eapply interleaving_nodes|done..].
Qed.

(** The outcome of a wave does not depend on how its steps interleave. *)
Lemma wave_confluence wave l1 l2 w :
  independent wave -> interleaving wave l1 -> interleaving wave l2 -> foldl act w l1 = foldl act w l2.
Proof.
  intros Hind H1 H2. apply (walk_ext (node_id_or_empty <$> wave) w).
  1,2: apply acts_frame; eauto using interleaving_ids.
  intros i Hi. apply list_elem_of_fmap in Hi as (n & -> & Hn).
  destruct (wave_local wave l1 n w Hind H1 Hn) as [A1 A2 A3 A4 A5 A6], (wave_local wave l2 n w Hind H2 Hn) as [B1 B2 B3 B4 B5 B6].
  split; try congruence; intros p Hp; [by rewrite A2, B2|by rewrite A3, B3].
Qed.

(** One step after the other. *)
Definition run_node w n : walk := finish_node E rid row edges n (start_node E rid edges n w).
Definition in_order (wave : list node) : list action := concat ((fun n => [Start n; Finish n]) <$> wave).

Lemma in_order_interleaving wave : interleaving wave (in_order wave).
Proof.
  split; [done|]. intros n Hn. apply list_elem_of_split in Hn as (l1 & l2 & ->). unfold in_order.
  exists (concat ((fun n => [Start n; Finish n]) <$> l1) ++ [Start n]), (concat ((fun n => [Start n; Finish n]) <$> l2)).
  split; [|apply elem_of_app; right; by left]. rewrite fmap_app, concat_app, <- app_assoc. done.
Qed.

Lemma foldl_in_order wave w : foldl act w (in_order wave) = foldl run_node w wave.
Proof. revert w. induction wave as [|n wave IH]; intros w; [done|]. cbn. apply IH. Qed.
End Facts.

(** ** The waves of a plan *)

Lemma node_ids_total (l : list node) : (forall n, n ∈ l -> is_Some (node_id n)) -> node_id_or_empty <$> l = node_ids l.
Proof.
  induction l as [|n l IH]; intros Hl; [done|]. cbn. unfold node_id_or_empty at 1.
  destruct (Hl n) as [i Hi]; [by left|]. rewrite Hi. cbn. f_equal. apply IH. intros m Hm. apply Hl. by right.
Qed.

Lemma waves_independent plan edges gens wave :
  valid_order plan edges -> topological_generations plan edges = Ok gens -> wave ∈ gens ->
  independent edges wave /\ (forall n, n ∈ wave -> n ∈ plan /\ is_Some (node_id n)).
Proof.
  intros Hv Hg Hw. destruct (topological_generations_spec plan edges Hv) as (gens' & Hg' & Hperm & _ & _ & Huniq & Hlt & _).
  rewrite Hg in Hg'. injection Hg' as <-.
  assert (Hin : forall n, n ∈ wave -> n ∈ plan).
  { intros n Hn. rewrite <- Hperm. apply list_elem_of_In, in_concat. exists wave. split; by apply list_elem_of_In. }
  assert (Hsome : forall n, n ∈ wave -> is_Some (node_id n)) by (intros n Hn; apply (vo_ids _ _ Hv), Hin, Hn).
  split; [|by auto]. split.
  - rewrite node_ids_total by done. apply list_elem_of_split in Hw as (g1 & g2 & ->).
    pose proof (vo_nodup _ _ Hv) as Hnd. rewrite concat_app in Hperm. cbn [concat] in Hperm.
    assert (Hnd' : NoDup (node_ids (concat g1 ++ wave ++ concat g2))).
    { unfold node_ids in *. by rewrite Hperm. }
    unfold node_ids in Hnd'. rewrite !omap_app in Hnd'. apply NoDup_app in Hnd' as (_ & _ & Hnd').
    by apply NoDup_app in Hnd' as (Hnd' & _).
  - intros n m e Hn Hm He Ht Hs. destruct (Hsome n Hn) as [i Hi], (Hsome m Hm) as [j Hj].
    unfold node_id_or_empty in Ht, Hs. rewrite Hi in Ht. rewrite Hj in Hs. simpl in Ht, Hs.
    apply list_elem_of_lookup in Hw as [d Hd].
    assert (d < d); [|lia]. apply (Hlt j i d d).
    + split_and!; [apply elem_of_node_ids; eauto..|]. exists e. split_and!; [done|done|]. unfold edge_target. by rewrite Ht.
    + exists wave, m. done.
    + exists wave, n. done.
Qed.

Lemma topological_sort_valid registry nodes edges plan :
  topological_sort registry nodes edges = Ok plan -> valid_order plan edges.
Proof.
  intros Hp. pose proof (topological_sort_sound _ _ _ _ Hp) as (Hnd & _ & _ & Hbefore).
  split; [|done|].
  - unfold topological_sort in Hp. apply (topological_order_valid _ _ _ Hp).
  - intros u v (Hu & Hv & e & He & Hs & Ht). apply Hbefore; [done|done|]. by exists e.
Qed.

Lemma node_ids_filter_before (P : node -> Prop) `{forall n, Decision (P n)} (l : list node) u v :
  (exists n, n ∈ l /\ node_id n = Some u /\ P n) -> (exists n, n ∈ l /\ node_id n = Some v /\ P n) ->
  NoDup (node_ids l) -> before (node_ids l) u v -> before (node_ids (filter P l)) u v.
Proof.
  intros (nu & Hnu & Hiu & HPu) (nv & Hnv & Hiv & HPv) Hnd Hb.
  apply list_elem_of_split in Hnv as (l1 & l2 & ->). unfold node_ids in *. rewrite omap_app in Hb, Hnd. cbn [omap list_omap] in Hb, Hnd.
  rewrite Hiv in Hb, Hnd. apply before_split in Hb; [|done]. rewrite filter_app, filter_cons_True, omap_app by done.
  cbn [omap list_omap]. rewrite Hiv. eexists _, _. split; [done|].
  apply list_elem_of_omap. apply list_elem_of_omap in Hb as (mu & Hmu & Hmi). exists nu. split; [|done].
  apply list_elem_of_filter. split; [done|].
  apply elem_of_app in Hnu as [|Hnu]; [done|]. exfalso. apply NoDup_app in Hnd as (_ & Hd & _). apply (Hd u).
  - apply list_elem_of_omap. eauto.
  - apply elem_of_cons in Hnu as [->|Hnu]; [rewrite Hiv in Hiu; injection Hiu as ->; by left|right].
    apply list_elem_of_omap. eauto.
Qed.

Lemma valid_order_filter (P : node -> Prop) `{forall n, Decision (P n)} l edges :
  valid_order l edges -> valid_order (filter P l) edges.
Proof.
  intros [Hi Hnd Hf]. split.
  - intros n [_ Hn]%list_elem_of_filter. by apply Hi.
  - eapply sublist_NoDup; [exact Hnd|]. unfold node_ids. clear. induction l as [|n l IH]; [done|]. rewrite filter_cons.
    cbn [omap list_omap]. destruct (decide (P n)); cbn [omap list_omap]; destruct (node_id n); try done.
    + by constructor.
    + by constructor.
  - intros u v (Hu & Hv & He). apply elem_of_node_ids in Hu as (nu & [HPu Hnu]%list_elem_of_filter & Hiu).
    apply elem_of_node_ids in Hv as (nv & [HPv Hnv]%list_elem_of_filter & Hiv).
    apply node_ids_filter_before; [eauto..|done|]. apply Hf. split_and!; [apply elem_of_node_ids; eauto..|done].
Qed.

Section Schedules.
Context (E : engine) (rid : nat) (row : WorkflowRun) (env : nat -> list db_op).

Lemma walk_waves_schedule s1 s2 g edges k gens failed reported w :
  (forall wave, interleaving wave (s1 wave)) -> (forall wave, interleaving wave (s2 wave)) ->
  (forall wave, wave ∈ gens -> independent edges wave) ->
  walk_waves E rid row s1 env g edges k gens failed reported w = walk_waves E rid row s2 env g edges k gens failed reported w.
Proof.
  intros H1 H2. revert k failed reported w. induction gens as [|wave gens IH]; intros k failed reported w Hind; [done|].
  assert (Hrest : forall wave', wave' ∈ gens -> independent edges wave') by (intros; apply Hind; by right).
  cbn [walk_waves]. destruct (_ || _); [by apply IH|].
  rewrite (wave_confluence E rid row edges wave (s1 wave) (s2 wave)) by (try apply Hind; try done; by left).
  destruct (wave_flags wave _) as [[[] reported']|e]; [by apply IH| |done].
  destruct g as [[ns es]|]; [|by apply IH]. destruct (find_fan_out _ _ _ _) as [[|]|]; try done. by apply IH.
Qed.

End Schedules.

(** ** What a step leaves behind *)

Section Flow.
Context (E : engine) (rid : nat) (row : WorkflowRun) (edges : list edge).

(** A step nothing has touched. *)
Definition idle (i : string) (w : walk) : Prop :=
  w_phase w !! i = None /\ multiplicity i (w_attempts w) = 0 /\ w_outcomes w !! i = None /\ i ∉ w_blocked w.

(** The pre-check: is the step blocked? *)
Definition gate (n : node) (w : walk) : res bool :=
  requires_devices ← step_requires_devices E (node_type n);
  Ok (requires_devices && blocked_by_upstream_failure (node_id_or_empty n) edges (w_outcomes w) (w_blocked w)).

(** What the state says about a finished step, in terms of its parents: it was
    blocked; or it was handed to its executor once, and its outcomes are those
    the executor gave on the merge of its parents' contexts. *)
Definition flowed (n : node) (w : walk) : Prop :=
  let i := node_id_or_empty n in
  exists r, w_phase w !! i = Some (Done r) /\
  match gate n w with
  | Raise e => r = Raise e /\ multiplicity i (w_attempts w) = 0 /\ w_outcomes w !! i = None /\ i ∉ w_blocked w
  | Ok true => r = Ok (false, true) /\ multiplicity i (w_attempts w) = 0 /\ w_outcomes w !! i = None /\ i ∈ w_blocked w
  | Ok false =>
      multiplicity i (w_attempts w) = 1 /\ i ∉ w_blocked w /\
      match run_executor E row n i edges (w_outcomes w) with
      | Ok outcomes => w_outcomes w !! i = Some (outcomes_by_name outcomes) /\ exists b, r = Ok (false, b)
      | Raise _ => w_outcomes w !! i = None /\ r = Ok (true, true)
      end
  end.

Record same_flow (i : string) (w1 w2 : walk) : Prop := {
  sf_parents : same_parents edges i w1 w2;
  sf_outcomes : w_outcomes w1 !! i = w_outcomes w2 !! i;
  sf_blocked : i ∈ w_blocked w1 <-> i ∈ w_blocked w2;
  sf_phase : w_phase w1 !! i = w_phase w2 !! i;
  sf_attempts : multiplicity i (w_attempts w1) = multiplicity i (w_attempts w2)
}.

Lemma agree_flow i w1 w2 : agree rid edges i w1 w2 -> same_flow i w1 w2.
Proof.
  intros Ha. pose proof (agree_parents rid edges i w1 w2 Ha) as Hp. destruct Ha as [H1 H2 H3 H4 H5 H6].
  assert (Hi : relevant edges i i) by (by left). split; [done|by apply H2|by apply H3|done|done].
Qed.

Lemma gate_cong n w1 w2 : same_parents edges (node_id_or_empty n) w1 w2 -> gate n w1 = gate n w2.
Proof. intros Hp. unfold gate. by rewrite (blocked_cong edges _ _ _ Hp). Qed.

Lemma flowed_same n w1 w2 : same_flow (node_id_or_empty n) w1 w2 -> flowed n w1 -> flowed n w2.
Proof.
  intros [Hp Ho Hb Hph Hat] (r & Hr & Hcase). exists r. rewrite <- Hph. split; [done|].
  rewrite (gate_cong n w1 w2 Hp) in Hcase. destruct (gate n w2) as [[]|]; rewrite <- Hat, <- Ho, <- ?Hb; [done| |done].
  by rewrite <- (run_executor_cong E row edges n w1 w2 Hp).
Qed.

Lemma idle_same i w1 w2 : same_flow i w1 w2 -> idle i w1 -> idle i w2.
Proof. intros [Hp Ho Hb Hph Hat] (H1 & H2 & H3 & H4). unfold idle. by rewrite <- Ho, <- Hb, <- Hph, <- Hat. Qed.

(** A step run alone, on a state that does not know it. *)
Lemma run_node_flowed n w :
  idle (node_id_or_empty n) w ->
  (forall e, e ∈ edges -> target e = Some (node_id_or_empty n) -> edge_source e ≠ node_id_or_empty n) ->
  flowed n (foldl (act E rid row edges) w [Start n; Finish n]).
Proof.
  intros (Hph & Hat & Ho & Hb) Hself. cbn [foldl act]. set (i := node_id_or_empty n) in *.
  assert (Hpar : forall w1 w2, (forall k, k ≠ i -> w_outcomes w1 !! k = w_outcomes w2 !! k /\ (k ∈ w_blocked w1 <-> k ∈ w_blocked w2)) ->
    same_parents edges i w1 w2).
  { intros w1 w2 Hk e [Ht He]%list_elem_of_filter. apply Hk. by apply Hself. }
  unfold flowed. fold i. unfold start_node. fold i.
  assert (Hg : gate n w = (requires_devices ← step_requires_devices E (node_type n);
    Ok (requires_devices && blocked_by_upstream_failure i edges (w_outcomes w) (w_blocked w)))) by done.
  destruct (step_requires_devices E (node_type n)) as [req|e]; simpl in Hg.
  2:{ unfold finish_node. fold i. cbn [set_phase w_phase]. rewrite lookup_insert_eq. exists (Raise e). cbn [set_phase w_phase].
      rewrite lookup_insert_eq. split; [done|]. rewrite (gate_cong n _ w); [by rewrite Hg|]. by apply Hpar. }
  destruct (req && blocked_by_upstream_failure i edges (w_outcomes w) (w_blocked w)).
  { unfold finish_node. fold i. cbn [set_phase w_phase]. rewrite lookup_insert_eq. exists (Ok (false, true)). cbn [set_phase w_phase].
    rewrite lookup_insert_eq. split; [done|]. rewrite (gate_cong n _ w).
    - rewrite Hg. cbn. split_and!; [done|done|done|set_solver].
    - apply Hpar. intros k Hk. cbn. set_solver. }
  unfold finish_node. fold i. cbn [set_phase w_phase]. rewrite lookup_insert_eq. cbn [attempt set_phase update_row w_outcomes].
  destruct (run_executor E row n i edges (w_outcomes w)) as [os|e] eqn:Hrun.
  - eexists. cbn [set_phase w_phase]. rewrite lookup_insert_eq. split; [done|]. rewrite (gate_cong n _ w).
    + rewrite Hg. cbn [set_phase update_row set_outcomes attempt w_attempts w_blocked w_outcomes]. unfold store_step_outcomes.
      split_and!; [rewrite multiplicity_disj_union, multiplicity_singleton, decide_True by done; lia|done|].
      change (<[i := outcomes_by_name os]> (w_outcomes w)) with (w_outcomes (set_outcomes i os w)).
      unfold i at 1 3. rewrite (run_executor_cong E row edges n (set_outcomes i os w) w); fold i; [rewrite Hrun|].
      * cbn [set_outcomes w_outcomes]. unfold store_step_outcomes. rewrite lookup_insert_eq. eauto.
      * apply Hpar. intros k Hk. cbn. unfold store_step_outcomes. by rewrite lookup_insert_ne.
    + apply Hpar. intros k Hk. cbn. unfold store_step_outcomes. by rewrite lookup_insert_ne.
  - eexists. cbn [set_phase w_phase]. rewrite lookup_insert_eq. split; [done|]. rewrite (gate_cong n _ w) by (by apply Hpar).
    rewrite Hg. cbn [set_phase update_row attempt w_attempts w_blocked w_outcomes]. rewrite Hrun.
    split_and!; [rewrite multiplicity_disj_union, multiplicity_singleton, decide_True by done; lia|done|done|done].
Qed.
End Flow.

(** The aggregation of a wave: it raises when a step's coroutine did; otherwise
    the flags are the disjunctions over the steps. *)
Lemma wave_flags_spec wave w a0 b0 a b :
  foldM (fun flags n => match w_phase w !! node_id_or_empty n with
    | Some (Done (Ok (raised, indicates_failure))) => Ok (if raised then (true, flags.2) else (flags.1, flags.2 || indicates_failure))
    | Some (Done (Raise e)) => Raise e
    | _ => Ok flags end) (a0, b0) wave = Ok (a, b) ->
  (forall n e, n ∈ wave -> w_phase w !! node_id_or_empty n ≠ Some (Done (Raise e))) /\
  (a = true <-> a0 = true \/ exists n c, n ∈ wave /\ w_phase w !! node_id_or_empty n = Some (Done (Ok (true, c)))) /\
  (b = true <-> b0 = true \/ exists n, n ∈ wave /\ w_phase w !! node_id_or_empty n = Some (Done (Ok (false, true)))).
Proof.
  set (raises n e := w_phase w !! node_id_or_empty n = Some (Done (Raise e))).
  set (raised n := exists c, w_phase w !! node_id_or_empty n = Some (Done (Ok (true, c)))).
  set (reported n := w_phase w !! node_id_or_empty n = Some (Done (Ok (false, true)))).
  assert (Hgen : forall a0 b0, foldM (fun flags n => match w_phase w !! node_id_or_empty n with
    | Some (Done (Ok (raised, indicates_failure))) => Ok (if raised then (true, flags.2) else (flags.1, flags.2 || indicates_failure))
    | Some (Done (Raise e)) => Raise e
    | _ => Ok flags end) (a0, b0) wave = Ok (a, b) ->
    (forall n e, n ∈ wave -> ~ raises n e) /\ (a = true <-> a0 = true \/ Exists raised wave) /\ (b = true <-> b0 = true \/ Exists reported wave)).
  { induction wave as [|n wave IH]; intros a1 b1; cbn [foldM].
    { intros [= <- <-]. rewrite !Exists_nil. split_and!; [by intros n e ?%not_elem_of_nil|tauto|tauto]. }
    rewrite !Exists_cons. intros Hf.
    assert (Hcase : exists a2 b2, (forall e, ~ raises n e) /\ (a2 = true <-> a1 = true \/ raised n) /\ (b2 = true <-> b1 = true \/ reported n) /\
      foldM (fun flags n => match w_phase w !! node_id_or_empty n with
        | Some (Done (Ok (raised, indicates_failure))) => Ok (if raised then (true, flags.2) else (flags.1, flags.2 || indicates_failure))
        | Some (Done (Raise e)) => Raise e
        | _ => Ok flags end) (a2, b2) wave = Ok (a, b)).
    { unfold raises, raised, reported. destruct (w_phase w !! node_id_or_empty n) as [[| |[[[] ind]|e]]|]; cbn [mbind res_bind fst snd] in Hf; try done;
        do 2 eexists; (split; [done|]); (split; [|split; [|exact Hf]]).
      all: try (split; [by left|]; intros [|[c [=]]]; done).
      all: try (split; [by left|]; intros [|[=]]; done).
      - split; [intros _; right; eauto|done].
      - rewrite orb_true_iff. split; intros [H|H]; [by left|right; by subst|by left|right; congruence]. }
    destruct Hcase as (a2 & b2 & Hr & Ha & Hb & Hf'). apply IH in Hf' as (H1 & H2 & H3). split_and!.
    - intros m e [->|Hm]%elem_of_cons; [apply Hr|by apply H1].
    - rewrite H2, Ha. tauto.
    - rewrite H3, Hb. tauto. }
  intros Hf. apply Hgen in Hf as (H1 & H2 & H3). rewrite H2, H3, !Exists_exists. split_and!; [done|unfold raised; naive_solver|unfold reported; naive_solver].
Qed.

Lemma wave_flags_raised wave n w c :
  n ∈ wave -> w_phase w !! node_id_or_empty n = Some (Done (Ok (true, c))) ->
  (exists e, wave_flags wave w = Raise e) \/ exists b, wave_flags wave w = Ok (true, b).
Proof.
  intros Hn Hp. destruct (wave_flags wave w) as [[a b]|e] eqn:Hf; [right|left; eauto].
  apply wave_flags_spec in Hf as (_ & Ha & _). assert (a = true) as -> by (apply Ha; right; eauto). eauto.
Qed.

(** ** A whole walk *)

Section WalkFacts.
Context (E : engine) (rid : nat) (row : WorkflowRun) (edges : list edge).
Context (schedule : list node -> list action) (env : nat -> list db_op).
Context (valid_schedule : forall wave, interleaving wave (schedule wave)).

Abbreviation act := (act E rid row edges).
Abbreviation walk_waves := (walk_waves E rid row schedule env).
Abbreviation flowed := (flowed E row edges).
Abbreviation nid := node_id_or_empty.

(** The waves still to come feed neither each other nor what is behind. *)
Fixpoint stratified (behind : list node) (gens : list (list node)) : Prop :=
  match gens with
  | [] => True
  | wave :: rest =>
      independent edges wave /\ (forall n m, n ∈ behind -> m ∈ wave -> ~ relevant edges (nid n) (nid m)) /\
      stratified (behind ++ wave) rest
  end.

Lemma stratified_apart behind gens n m :
  stratified behind gens -> n ∈ behind -> m ∈ concat gens -> ~ relevant edges (nid n) (nid m).
Proof.
  revert behind. induction gens as [|wave gens IH]; intros behind; [intros _ _ ?%not_elem_of_nil; done|].
  intros (_ & Hb & Hrest) Hn [Hm|Hm]%elem_of_app; [by apply Hb|]. apply (IH (behind ++ wave)); [done| |done]. apply elem_of_app. by left.
Qed.

Lemma stratified_weaken behind behind' gens : behind' ⊆ behind -> stratified behind gens -> stratified behind' gens.
Proof.
  revert behind behind'. induction gens as [|wave gens IH]; intros behind behind' Hsub; [done|].
  intros (Hi & Hb & Hrest). split_and!; [done|intros n m Hn; apply Hb, Hsub, Hn|]. eapply IH; [|exact Hrest]. set_solver.
Qed.

Lemma same_flow_refl i w : same_flow edges i w w.
Proof. by split. Qed.
Lemma same_flow_trans i w1 w2 w3 : same_flow edges i w1 w2 -> same_flow edges i w2 w3 -> same_flow edges i w1 w3.
Proof.
  intros [A1 A2 A3 A4 A5] [B1 B2 B3 B4 B5]. split; [|congruence|by rewrite A3|congruence|congruence].
  intros e He. destruct (A1 e He) as [Ho Hb], (B1 e He) as [Ho' Hb']. split; [congruence|by rewrite Hb].
Qed.

(** Writes to the database leave the flow alone. *)
Definition same_but_db (w1 w2 : walk) : Prop :=
  w_outcomes w1 = w_outcomes w2 /\ w_blocked w1 = w_blocked w2 /\ w_phase w1 = w_phase w2 /\ w_attempts w1 = w_attempts w2.
Lemma same_but_db_flow i w1 w2 : same_but_db w1 w2 -> same_flow edges i w1 w2.
Proof. intros (H1 & H2 & H3 & H4). split; [intros e _|..]; by rewrite ?H1, ?H2, ?H3, ?H4. Qed.
Lemma interfere_flow k w : same_but_db w (interfere env k w).
Proof. done. Qed.
Lemma skip_wave_flow wave w : same_but_db w (skip_wave rid wave w).
Proof.
  unfold skip_wave. revert w. induction wave as [|n wave IH]; intros w; [done|]. cbn [foldl].
  destruct (IH (update_row rid (nid n) S_skipped no_step_fields w)) as (H1 & H2 & H3 & H4). done.
Qed.

Lemma wave_behind wave n w :
  (forall m, m ∈ wave -> ~ relevant edges (nid n) (nid m)) -> same_flow edges (nid n) w (foldl act w (schedule wave)).
Proof.
  intros Hap. assert (Ha : agree rid edges (nid n) (foldl act w (schedule wave)) w).
  { replace w with (foldl act w (filter (fun a => nid (action_node a) = nid n) (schedule wave))) at 2.
    - apply project; [apply agree_refl|]. intros a Ha. right. apply Hap. by eapply interleaving_nodes.
    - rewrite filter_none; [done|]. intros a Ha Heq. apply (Hap (action_node a)); [by eapply interleaving_nodes|]. by left. }
  apply agree_flow in Ha as [A1 A2 A3 A4 A5]. split; try done.
  intros e He. destruct (A1 e He). split; [done|tauto].
Qed.

Lemma wave_ahead wave m w :
  (forall n, n ∈ wave -> nid n ≠ nid m) -> idle (nid m) w -> idle (nid m) (foldl act w (schedule wave)).
Proof.
  intros Hne (H1 & H2 & H3 & H4).
  assert (Hm : nid m ∉ (nid <$> wave)) by (intros (n & Heq & Hn)%list_elem_of_fmap; by apply (Hne n)).
  assert (Hf : frame rid (nid <$> wave) w (foldl act w (schedule wave))).
  { apply acts_frame. intros a Ha. by eapply interleaving_ids. }
  destruct Hf as [_ _ _ _ Ho Hb Hp Ha]. unfold idle. rewrite <- Ho, <- Hp, <- Ha, <- Hb by done. done.
Qed.

Lemma wave_here wave n w :
  independent edges wave -> n ∈ wave -> idle (nid n) w -> flowed n (foldl act w (schedule wave)).
Proof.
  intros Hind Hn Hidle. pose proof (wave_local E rid row edges wave (schedule wave) n w Hind (valid_schedule wave) Hn) as Ha.
  apply agree_flow in Ha as [A1 A2 A3 A4 A5]. eapply flowed_same; [|apply run_node_flowed; [exact Hidle|]].
  - split; try done. intros e He. destruct (A1 e He). split; [done|tauto].
  - intros e He Ht. by apply (proj2 Hind n n e).
Qed.

(** Every step of the walk, behind or ahead, is finished or untouched at the end. *)
Lemma walk_waves_flow g k behind gens failed reported w :
  stratified behind gens ->
  (forall n, n ∈ behind -> flowed n w \/ idle (nid n) w) -> (forall m, m ∈ concat gens -> idle (nid m) w) ->
  let w' := (walk_waves g edges k gens failed reported w).2 in
  (forall n, n ∈ behind -> same_flow edges (nid n) w w') /\
  (forall n, n ∈ behind ++ concat gens -> flowed n w' \/ idle (nid n) w').
Proof.
  revert k behind failed reported w. induction gens as [|wave gens IH]; intros k behind failed reported w.
  { intros _ Hb _. cbn. rewrite app_nil_r. split; [intros; apply same_flow_refl|done]. }
  intros (Hind & Hap & Hstrat) Hbehind Hahead. cbn [concat] in *. cbn [StepRunner.walk_waves].
  assert (Hint : forall i, same_flow edges i w (interfere env k w)) by (intros; apply same_but_db_flow, interfere_flow).
  set (wi := interfere env k w) in *.
  assert (Hbi : forall n, n ∈ behind -> flowed n wi \/ idle (nid n) wi).
  { intros n Hn. destruct (Hbehind n Hn) as [Hf|Hi]; [left; by eapply flowed_same|right; by eapply idle_same]. }
  assert (Hai : forall m, m ∈ wave ++ concat gens -> idle (nid m) wi) by (intros m Hm; eapply idle_same; [apply Hint|by apply Hahead]).
  (* the state handed to the rest of the walk *)
  assert (Hrest : forall failed' reported' w1,
    (forall n, n ∈ behind -> same_flow edges (nid n) w w1) ->
    (forall n, n ∈ behind ++ wave -> flowed n w1 \/ idle (nid n) w1) -> (forall m, m ∈ concat gens -> idle (nid m) w1) ->
    let w' := (walk_waves g edges (S k) gens failed' reported' w1).2 in
    (forall n, n ∈ behind -> same_flow edges (nid n) w w') /\
    (forall n, n ∈ behind ++ wave ++ concat gens -> flowed n w' \/ idle (nid n) w')).
  { intros failed' reported' w1 H1 H2 H3. destruct (IH (S k) (behind ++ wave) failed' reported' w1 Hstrat H2 H3) as [HA HB].
    split.
    - intros n Hn. eapply same_flow_trans; [by apply H1|]. apply HA, elem_of_app. by left.
    - intros n Hn. apply HB. by rewrite <- app_assoc. }
  destruct (failed || run_cancelled rid (w_db wi)).
  { assert (Hsk : forall i, same_flow edges i wi (skip_wave rid wave wi)) by (intros; apply same_but_db_flow, skip_wave_flow).
    apply Hrest.
    - intros n Hn. by eapply same_flow_trans.
    - intros n [Hn|Hn]%elem_of_app.
      + destruct (Hbi n Hn) as [Hf|Hi]; [left; by eapply flowed_same|right; by eapply idle_same].
      + right. eapply idle_same; [apply Hsk|]. apply Hai, elem_of_app. by left.
    - intros m Hm. eapply idle_same; [apply Hsk|]. apply Hai, elem_of_app. by right. }
  assert (Hnear : forall n, n ∈ behind -> same_flow edges (nid n) w (foldl act wi (schedule wave))).
  { intros n Hn. eapply same_flow_trans; [apply Hint|]. apply wave_behind. intros m Hm. by apply Hap. }
  assert (Hdone : forall n, n ∈ behind ++ wave -> flowed n (foldl act wi (schedule wave)) \/ idle (nid n) (foldl act wi (schedule wave))).
  { intros n [Hn|Hn]%elem_of_app.
    - destruct (Hbehind n Hn) as [Hf|Hi]; [left; eapply flowed_same; [by apply Hnear|done]|right; eapply idle_same; [by apply Hnear|done]].
    - left. apply wave_here; [done|done|]. apply Hai, elem_of_app. by left. }
  assert (Hleft : forall m, m ∈ concat gens -> idle (nid m) (foldl act wi (schedule wave))).
  { intros m Hm. apply wave_ahead; [|apply Hai, elem_of_app; by right]. intros n Hn Heq.
    apply (stratified_apart (behind ++ wave) gens n m Hstrat); [apply elem_of_app; by right|done|by left]. }
  assert (Hstop : (forall n, n ∈ behind -> same_flow edges (nid n) w (foldl act wi (schedule wave))) /\
    (forall n, n ∈ behind ++ wave ++ concat gens -> flowed n (foldl act wi (schedule wave)) \/ idle (nid n) (foldl act wi (schedule wave)))).
  { split; [done|]. intros n. rewrite app_assoc, elem_of_app. intros [Hn|Hn]; [by apply Hdone|right; by apply Hleft]. }
  destruct (wave_flags wave _) as [[[] reported']|e]; [by apply Hrest| |done].
  destruct (match g with Some _ => _ | None => _ end) as [[|]|]; [done|by apply Hrest|done].
Qed.

(** After a failure nothing is started any more. *)
Lemma walk_waves_failed g k behind gens reported w m :
  stratified behind gens -> m ∈ concat gens -> idle (nid m) w ->
  idle (nid m) (walk_waves g edges k gens true reported w).2.
Proof.
  revert k behind reported w. induction gens as [|wave gens IH]; intros k behind reported w; [intros _ ?%not_elem_of_nil; done|].
  intros Hstrat Hm Hi. cbn [StepRunner.walk_waves orb]. set (w1 := skip_wave rid wave (interfere env k w)).
  assert (Hw1 : forall i, same_flow edges i w w1).
  { intros i. eapply same_flow_trans; [by apply same_but_db_flow, interfere_flow|]. apply same_but_db_flow, skip_wave_flow. }
  assert (Hall : forall gens' k' reported' w', same_but_db w' (walk_waves g edges k' gens' true reported' w').2).
  { clear. induction gens' as [|wave gens' IH]; intros k' reported' w'; [done|]. cbn [StepRunner.walk_waves orb].
    destruct (IH (S k') reported' (skip_wave rid wave (interfere env k' w'))) as (H1 & H2 & H3 & H4).
    destruct (skip_wave_flow wave (interfere env k' w')) as (G1 & G2 & G3 & G4).
    unfold same_but_db in *. rewrite <- H1, <- H2, <- H3, <- H4, <- G1, <- G2, <- G3, <- G4. done. }
  eapply idle_same; [|done]. eapply same_flow_trans; [apply Hw1|]. apply same_but_db_flow, Hall.
Qed.

(** The hard stop: behind a wave in which a step raised, no step is started. *)
Lemma walk_waves_hard_stop g k behind gens failed reported w d1 d2 wave1 wave2 n m c :
  stratified behind gens -> (forall m, m ∈ concat gens -> idle (nid m) w) ->
  d1 < d2 -> gens !! d1 = Some wave1 -> gens !! d2 = Some wave2 -> n ∈ wave1 -> m ∈ wave2 ->
  let w' := (walk_waves g edges k gens failed reported w).2 in
  w_phase w' !! nid n = Some (Done (Ok (true, c))) -> idle (nid m) w'.
Proof.
  revert k behind failed reported w d1 d2. induction gens as [|wave gens IH]; intros k behind failed reported w d1 d2 Hstrat Hahead Hd; [done|].
  intros Hw1 Hw2 Hn Hm. pose proof Hstrat as (Hind & Hap & Hstrat'). destruct d2 as [|d2]; [lia|]. cbn [lookup list_lookup] in Hw2.
  assert (Hm' : m ∈ concat gens).
  { apply elem_of_concat. exists wave2. split; [by eapply list_elem_of_lookup_2|done]. }
  cbn [StepRunner.walk_waves]. set (wi := interfere env k w).
  assert (Hint : forall i, same_flow edges i w wi) by (intros; apply same_but_db_flow, interfere_flow).
  assert (Hai : forall m, m ∈ wave ++ concat gens -> idle (nid m) wi) by (intros m0 Hm0; eapply idle_same; [apply Hint|by apply Hahead]).
  destruct d1 as [|d1]; cbn [lookup list_lookup] in Hw1.
  - injection Hw1 as ->.
    destruct (failed || run_cancelled rid (w_db wi)).
    { intros _. apply walk_waves_failed with (behind ++ wave1); [done|done|].
      eapply idle_same; [apply same_but_db_flow, skip_wave_flow|]. apply Hai, elem_of_app. by right. }
    assert (Hleft : forall m, m ∈ concat gens -> idle (nid m) (foldl act wi (schedule wave1))).
    { intros m0 Hm0. apply wave_ahead; [|apply Hai, elem_of_app; by right]. intros n0 Hn0 Heq.
      apply (stratified_apart (behind ++ wave1) gens n0 m0 Hstrat'); [apply elem_of_app; by right|done|by left]. }
    destruct (wave_flags wave1 _) as [[[] reported']|e] eqn:Hf; [intros _; by apply walk_waves_failed with (behind ++ wave1); auto| |by auto].
    assert (Hno : w_phase (foldl act wi (schedule wave1)) !! nid n ≠ Some (Done (Ok (true, c)))).
    { intros Hp. destruct (wave_flags_raised wave1 n _ c Hn Hp) as [[e He]|[b He]]; congruence. }
    destruct (match g with Some _ => _ | None => _ end) as [[|]|]; [done| |done].
    intros Hp. exfalso. apply Hno. rewrite <- Hp. symmetry.
    destruct (walk_waves_flow g (S k) wave1 gens false (reported || reported') (foldl act wi (schedule wave1))) as [Hsame _].
    + eapply stratified_weaken; [|exact Hstrat']. set_solver.
    + intros n0 Hn0. left. apply wave_here; [done..|]. apply Hai, elem_of_app. by left.
    + done.
    + symmetry. by apply (sf_phase _ _ _ _ (Hsame n Hn)).
  - assert (Hd' : d1 < d2) by lia.
    destruct (failed || run_cancelled rid (w_db wi)).
    { apply (IH (S k) (behind ++ wave) true reported (skip_wave rid wave wi) d1 d2); try done.
      intros m0 Hm0. eapply idle_same; [apply same_but_db_flow, skip_wave_flow|]. apply Hai, elem_of_app. by right. }
    assert (Hleft : forall m, m ∈ concat gens -> idle (nid m) (foldl act wi (schedule wave))).
    { intros m0 Hm0. apply wave_ahead; [|apply Hai, elem_of_app; by right]. intros n0 Hn0 Heq.
      apply (stratified_apart (behind ++ wave) gens n0 m0 Hstrat'); [apply elem_of_app; by right|done|by left]. }
    destruct (wave_flags wave _) as [[[] reported']|e].
    + by apply (IH (S k) (behind ++ wave) true reported (foldl act wi (schedule wave)) d1 d2).
    + destruct (match g with Some _ => _ | None => _ end) as [[|]|]; [intros _; by apply Hleft| |intros _; by apply Hleft].
      by apply (IH (S k) (behind ++ wave) false (reported || reported') (foldl act wi (schedule wave)) d1 d2).
    + intros _. by apply Hleft.
Qed.
End WalkFacts.

(** ** The rows of a walk, and its verdict *)

Section RowFacts.
Context (E : engine) (rid : nat) (row : WorkflowRun) (edges : list edge).
Context (schedule : list node -> list action) (env : nat -> list db_op).
Context (valid_schedule : forall wave, interleaving wave (schedule wave)).

Abbreviation act := (act E rid row edges).
Abbreviation walk_waves := (walk_waves E rid row schedule env).
Abbreviation nid := node_id_or_empty.

(** What other processes may do meanwhile: anything but writing step results
    of this run as if they executed it. *)
Definition quiet (op : db_op) : Prop :=
  match op with Op_create_step r _ _ _ | Op_update_step r _ _ _ => r ≠ rid | _ => True end.

Context (env_quiet : forall k, Forall quiet (env k)) (env_lawful : forall k, Forall lawful (env k)).

Definition bad (s : step_status) : bool := bool_decide (s ∈ [S_failed; S_skipped]).
Definition row_of (n : node) (w : walk) : option WorkflowStepResult := steps (w_db w) !! (rid, nid n).

Lemma update_row_row i st f w s :
  steps (w_db w) !! (rid, i) = Some s ->
  exists s', steps (w_db (update_row rid i st f w)) !! (rid, i) = Some s' /\
    (sstatus s' = st \/ (closed (sstatus s) = true /\ run_cancelled rid (w_db w) = true /\ s' = s)).
Proof.
  intros Hs. unfold update_row, update_step_result. cbn [w_db]. rewrite Hs.
  destruct (bool_decide (sstatus s ∈ TERMINAL_STEP_STATUSES) && run_cancelled rid (w_db w)) eqn:Hc.
  - apply andb_true_iff in Hc as [H1 H2]. exists s. eauto.
  - cbn [set_steps steps]. rewrite lookup_insert_eq. eexists. split; [done|]. by left.
Qed.

Lemma update_row_final i st f w s :
  steps (w_db w) !! (rid, i) = Some s -> open_status st = false ->
  exists s', steps (w_db (update_row rid i st f w)) !! (rid, i) = Some s' /\ open_status (sstatus s') = false /\
    (run_cancelled rid (w_db w) = false -> sstatus s' = st).
Proof.
  intros Hs Hst. destruct (update_row_row i st f w s Hs) as (s' & Hs' & [Heq|(Hcl & Hc & Heq)]); exists s'.
  - split_and!; [done|by rewrite Heq|done].
  - subst s'. split_and!; [done|by destruct (sstatus s)|congruence].
Qed.

Lemma update_row_cancelled i st f w : run_cancelled rid (w_db (update_row rid i st f w)) = run_cancelled rid (w_db w).
Proof. unfold run_cancelled. by rewrite update_row_runs. Qed.

Lemma derive_final os : open_status (derive_step_result_status os) = false /\
  bad (derive_step_result_status os) = bool_decide (derive_step_result_status os = S_failed).
Proof. unfold derive_step_result_status. repeat case_match; done. Qed.

(** What one step leaves in its row. *)
Definition row_done (n : node) (w : walk) : Prop :=
  exists s r, row_of n w = Some s /\ w_phase w !! nid n = Some (Done r) /\
    (forall res, r = Ok res -> open_status (sstatus s) = false) /\
    (run_cancelled rid (w_db w) = false -> forall a b, r = Ok (a, b) -> a || b = bad (sstatus s)).

Lemma run_node_row n w s :
  row_of n w = Some s -> row_done n (foldl act w [Start n; Finish n]).
Proof.
  unfold row_of. intros Hs. cbn [foldl StepRunner.act]. set (i := nid n) in *. unfold start_node. fold i.
  destruct (step_requires_devices E (node_type n)) as [req|e].
  2:{ unfold finish_node. fold i. cbn [set_phase w_phase]. rewrite lookup_insert_eq. exists s, (Raise e).
      unfold row_of. fold i. cbn [set_phase w_phase w_db]. rewrite lookup_insert_eq. done. }
  destruct (req && _).
  { unfold finish_node. fold i. cbn [set_phase w_phase]. rewrite lookup_insert_eq.
    destruct (update_row_final i S_skipped no_step_fields w s Hs eq_refl) as (s' & Hs' & Ho & Hst).
    exists s', (Ok (false, true)). unfold row_of. fold i. cbn [set_phase block w_phase w_db]. rewrite lookup_insert_eq.
    split_and!; [done|done|done|]. intros Hc a b [= <- <-]. rewrite update_row_cancelled in Hc. by rewrite (Hst Hc). }
  unfold finish_node. fold i. cbn [set_phase w_phase]. rewrite lookup_insert_eq.
  destruct (update_row_row i S_running (StepFields None None None None None (Some (clock E)) None) w s Hs) as (s1 & Hs1 & _).
  set (w1 := attempt i (set_phase i Executing (update_row rid i S_running (StepFields None None None None None (Some (clock E)) None) w))).
  change (steps (w_db w1) !! (rid, i) = Some s1) in Hs1.
  assert (Hc1 : run_cancelled rid (w_db w1) = run_cancelled rid (w_db w)) by apply update_row_cancelled.
  change (w_outcomes (attempt i _)) with (w_outcomes w1).
  destruct (run_executor E row n i edges (w_outcomes w1)) as [os|e].
  - destruct (derive_final os) as [Hfin Hbad].
    destruct (update_row_final i _ (finished_fields E i os) (set_outcomes i os w1) s1 Hs1 Hfin) as (s' & Hs' & Ho & Hst).
    exists s', (Ok (false, row_failed rid i (update_row rid i (derive_step_result_status os) (finished_fields E i os) (set_outcomes i os w1)))).
    unfold row_of. fold i. cbn [set_phase w_phase w_db]. rewrite lookup_insert_eq. split_and!; [done|done|done|].
    intros Hc a b [= <- <-]. cbn [set_phase w_db] in Hc. rewrite update_row_cancelled in Hc.
    unfold row_failed. rewrite Hs'. rewrite (Hst Hc). by rewrite Hbad.
  - destruct (update_row_final i S_failed (failed_fields E i e) w1 s1 Hs1 eq_refl) as (s' & Hs' & Ho & Hst).
    exists s', (Ok (true, true)). unfold row_of. fold i. cbn [set_phase w_phase w_db]. rewrite lookup_insert_eq.
    split_and!; [done|done|done|]. intros Hc a b [= <- <-]. cbn [set_phase w_db] in Hc. rewrite update_row_cancelled in Hc. by rewrite (Hst Hc).
Qed.

Lemma row_done_agree n w1 w2 : agree rid edges (nid n) w1 w2 -> row_done n w1 -> row_done n w2.
Proof.
  intros [H1 _ _ H4 H5 _] (s & r & Hs & Hr & Ho & Hv). exists s, r. unfold row_of in *. rewrite <- H4, <- H5.
  unfold run_cancelled in *. rewrite <- H1. done.
Qed.

Lemma agree_sym i w1 w2 : agree rid edges i w1 w2 -> agree rid edges i w2 w1.
Proof. intros [H1 H2 H3 H4 H5 H6]. split; try done; intros p Hp; symmetry; auto. Qed.

Lemma wave_rows wave n w s :
  independent edges wave -> n ∈ wave -> row_of n w = Some s -> row_done n (foldl act w (schedule wave)).
Proof.
  intros Hind Hn Hs. eapply row_done_agree; [|by eapply run_node_row].
  apply agree_sym. by apply (wave_local E rid row edges wave).
Qed.

(** Other processes, meanwhile. *)
Lemma quiet_op_row op db i s :
  quiet op -> steps db !! (rid, i) = Some s ->
  exists s', steps (exec_op op db).2 !! (rid, i) = Some s' /\ (open_status (sstatus s) = false -> s' = s).
Proof.
  intros Hq Hs.
  assert (Htrans : forall r st from f, steps (transition_run r st from f db).2 = steps db).
  { intros r st from f. destruct (transition_run r st from f db) as [b db'] eqn:Ht. by apply transition_run_spec in Ht as (_ & ? & _). }
  destruct op as [now u wf us t ds ri p a|r st from f|r st f c|r h|now r m|r n t nm|r n st f|f]; cbn [exec_op snd].
  - exists s. done.
  - exists s. by rewrite Htrans.
  - destruct (update_run_status_transition r st f c db) as [f' ->]. exists s. by rewrite Htrans.
  - exists s. unfold record_hatchet_run_id. by destruct (runs db !! r).
  - rewrite finalise_lookup, Hs. cbn [fmap option_fmap option_map]. destruct (decide _); [|exists s; done].
    eexists. split; [done|]. intros Ho. by apply finalise_step_closed.
  - exists s. unfold create_step_result. destruct (steps db !! (r, n)) eqn:Hr; [done|]. cbn [set_steps steps].
    rewrite lookup_insert_ne; [done|]. intros [=]. by apply Hq.
  - exists s. unfold update_step_result. destruct (steps db !! (r, n)); [|done]. destruct (_ && _); [done|]. cbn [set_steps steps].
    rewrite lookup_insert_ne; [done|]. intros [=]. by apply Hq.
  - exists s. done.
Qed.

Lemma quiet_ops_row ops db i s :
  Forall quiet ops -> steps db !! (rid, i) = Some s ->
  exists s', steps (exec_ops ops db) !! (rid, i) = Some s' /\ (open_status (sstatus s) = false -> s' = s).
Proof.
  revert db s. induction ops as [|op ops IH]; intros db s Hq Hs; [exists s; done|].
  apply Forall_cons in Hq as [Hq1 Hq]. destruct (quiet_op_row op db i s Hq1 Hs) as (s1 & Hs1 & Ho1).
  destruct (IH _ s1 Hq Hs1) as (s2 & Hs2 & Ho2). exists s2. split; [done|]. intros Ho. specialize (Ho1 Ho). subst s1. by apply Ho2.
Qed.

(** The run's row is there and ids are handed out in order: then a cancel sticks. *)
Definition sane (db : tables) : Prop := ids_fresh db /\ is_Some (runs db !! rid).

Lemma sane_env ops db : Forall lawful ops -> sane db ->
  sane (exec_ops ops db) /\ (run_cancelled rid (exec_ops ops db) = false -> run_cancelled rid db = false).
Proof.
  intros Hl [Hf [r Hr]]. destruct (exec_ops_run rid ops db r Hf Hl Hr) as (Hf' & r' & Hr' & Hst).
  split; [split; [done|by eexists]|]. unfold run_cancelled. rewrite Hr, Hr'. destruct (rstatus r) eqn:Hs; try done.
  rewrite Hst by done. done.
Qed.

Lemma frame_sane ids w1 w2 : frame rid ids w1 w2 -> sane (w_db w1) ->
  sane (w_db w2) /\ run_cancelled rid (w_db w2) = run_cancelled rid (w_db w1).
Proof.
  intros [Hr _ Hn _ _ _ _ _] [Hf Hs]. unfold sane, ids_fresh, run_cancelled. rewrite <- Hr, <- Hn. done.
Qed.

Lemma skip_wave_frame wave w : frame rid (nid <$> wave) w (skip_wave rid wave w).
Proof.
  unfold skip_wave. assert (Hg : forall l w, l ⊆ wave -> frame rid (nid <$> wave) w (foldl (fun w n => update_row rid (nid n) S_skipped no_step_fields w) w l)).
  { induction l as [|n l IH]; intros w0 Hl; [reflexivity|]. cbn [foldl]. etrans; [apply (update_row_frame rid (nid <$> wave) (nid n))|apply IH; set_solver].
    apply list_elem_of_fmap_2, Hl. by left. }
  by apply Hg.
Qed.

Lemma skip_wave_row wave n w s :
  NoDup (nid <$> wave) -> n ∈ wave -> row_of n w = Some s ->
  exists s', row_of n (skip_wave rid wave w) = Some s' /\ open_status (sstatus s') = false.
Proof.
  unfold skip_wave, row_of. revert w s. induction wave as [|m wave IH]; intros w s Hnd Hn Hs; [by apply not_elem_of_nil in Hn|].
  rewrite fmap_cons in Hnd. apply NoDup_cons in Hnd as [Hm Hnd]. cbn [foldl]. apply elem_of_cons in Hn as [->|Hn].
  - destruct (update_row_final (nid m) S_skipped no_step_fields w s Hs eq_refl) as (s' & Hs' & Ho & _). exists s'. split; [|done].
    change (steps (w_db (skip_wave rid wave (update_row rid (nid m) S_skipped no_step_fields w))) !! (rid, nid m) = Some s').
    rewrite <- (fr_steps _ _ _ _ (skip_wave_frame wave _)); [done|]. intros i Hi Heq. assert (nid m = i) by congruence. by subst i.
  - apply (IH _ s); [done|done|]. rewrite update_row_other; [done|]. intros Heq. apply Hm, list_elem_of_fmap. exists n. by injection Heq.
Qed.

Lemma frame_row ids w1 w2 n : frame rid ids w1 w2 -> nid n ∉ ids -> row_of n w1 = row_of n w2.
Proof. intros Hf Hn. unfold row_of. apply (fr_steps _ _ _ _ Hf). intros i Hi Heq. apply Hn. by assert (nid n = i) as -> by congruence. Qed.

(** Rows of steps behind are closed, rows of steps ahead exist; and while the
    run is not cancelled the flags tell whether a row behind is failed or
    skipped. *)
Definition closed_rows (l : list node) (w : walk) : Prop :=
  forall n, n ∈ l -> exists s, row_of n w = Some s /\ open_status (sstatus s) = false.
Definition has_bad (l : list node) (w : walk) : Prop :=
  exists n s, n ∈ l /\ row_of n w = Some s /\ bad (sstatus s) = true.
Definition awaited (l : list node) (w : walk) : Prop := forall n, n ∈ l -> is_Some (row_of n w).

Lemma walk_waves_rows g k behind gens failed reported w success w' :
  stratified edges behind gens -> sane (w_db w) ->
  closed_rows behind w -> awaited (concat gens) w ->
  (run_cancelled rid (w_db w) = false -> failed || reported = true <-> has_bad behind w) ->
  walk_waves g edges k gens failed reported w = (Ok (WR_done success), w') ->
  closed_rows (behind ++ concat gens) w' /\
  (run_cancelled rid (w_db w') = false -> success = false <-> has_bad (behind ++ concat gens) w').
Proof.
  revert k behind failed reported w. induction gens as [|wave gens IH]; intros k behind failed reported w.
  { intros _ _ Hcl _ Hv. cbn. intros [= <- <-]. rewrite app_nil_r. split; [done|]. intros Hc. rewrite <- (Hv Hc).
    by destruct (failed || reported). }
  intros (Hind & Hap & Hstrat) Hsane Hcl Haw Hv. cbn [concat] in *. cbn [StepRunner.walk_waves].
  set (wi := interfere env k w).
  (* what other processes did *)
  destruct (sane_env (env k) (w_db w) (env_lawful k) Hsane) as [Hsi Hci].
  change (exec_ops (env k) (w_db w)) with (w_db wi) in Hsi, Hci.
  assert (Hrow : forall n s, row_of n w = Some s -> exists s', row_of n wi = Some s' /\ (open_status (sstatus s) = false -> s' = s)).
  { intros n s Hs. apply (quiet_ops_row (env k) (w_db w)); [apply env_quiet|done]. }
  assert (Hcli : closed_rows behind wi).
  { intros n Hn. destruct (Hcl n Hn) as (s & Hs & Ho). destruct (Hrow n s Hs) as (s' & Hs' & Heq). specialize (Heq Ho). subst s'. eauto. }
  assert (Hawi : awaited (wave ++ concat gens) wi).
  { intros n Hn. destruct (Haw n Hn) as [s Hs]. destruct (Hrow n s Hs) as (s' & Hs' & _). by eexists. }
  assert (Hvi : run_cancelled rid (w_db wi) = false -> failed || reported = true <-> has_bad behind wi).
  { intros Hc. rewrite (Hv (Hci Hc)). split; intros (n & s & Hn & Hs & Hb).
    - destruct (Hrow n s Hs) as (s' & Hs' & Heq). assert (s' = s) by (apply Heq; by destruct (sstatus s)). subst s'. by exists n, s.
    - destruct (Hcl n Hn) as (s0 & Hs0 & Ho). destruct (Hrow n s0 Hs0) as (s' & Hs' & Heq). specialize (Heq Ho). subst s'.
      exists n, s0. split_and!; [done|done|]. congruence. }
  clearbody wi. clear Hv Hcl Haw Hrow Hci Hsane w.
  assert (Hdist : forall n m, n ∈ behind ++ wave -> m ∈ concat gens -> nid n ≠ nid m).
  { intros n m Hn Hm Heq. apply (stratified_apart edges (behind ++ wave) gens n m Hstrat Hn Hm). by left. }
  assert (Hdist' : forall n, n ∈ behind -> nid n ∉ (nid <$> wave)).
  { intros n Hn (m & Heq & Hm)%list_elem_of_fmap. apply (Hap n m Hn Hm). by left. }
  assert (Hahead : forall n, n ∈ concat gens -> nid n ∉ (nid <$> wave)).
  { intros n Hn (m & Heq & Hm)%list_elem_of_fmap. apply (Hdist m n); [apply elem_of_app; by right|done..]. }
  (* any state reached by writing the rows of this wave *)
  assert (Hgo : forall failed' reported' w1, frame rid (nid <$> wave) wi w1 ->
    (forall n s, n ∈ wave -> row_of n wi = Some s -> exists s', row_of n w1 = Some s' /\ open_status (sstatus s') = false) ->
    (run_cancelled rid (w_db wi) = false -> failed' || reported' = true <-> (failed || reported = true \/ has_bad wave w1)) ->
    walk_waves g edges (S k) gens failed' reported' w1 = (Ok (WR_done success), w') ->
    closed_rows (behind ++ wave ++ concat gens) w' /\
    (run_cancelled rid (w_db w') = false -> success = false <-> has_bad (behind ++ wave ++ concat gens) w')).
  { intros failed' reported' w1 Hf Hwave Hflags Hrun.
    destruct (frame_sane _ _ _ Hf Hsi) as [Hs1 Hc1].
    rewrite app_assoc. apply (IH (S k) (behind ++ wave) failed' reported' w1); [done|done|..|done].
    - intros n [Hn|Hn]%elem_of_app.
      + rewrite <- (frame_row _ _ _ n Hf) by (by apply Hdist'). by apply Hcli.
      + destruct (Hawi n) as [s Hs]; [apply elem_of_app; by left|]. by apply (Hwave n s).
    - intros n Hn. rewrite <- (frame_row _ _ _ n Hf) by (by apply Hahead). apply Hawi, elem_of_app. by right.
    - intros Hc. rewrite Hc1 in Hc. rewrite (Hflags Hc), (Hvi Hc). unfold has_bad. setoid_rewrite elem_of_app. split.
      + intros [(n & s & Hn & Hs & Hb)|(n & s & Hn & Hs & Hb)]; exists n, s; [|tauto].
        rewrite <- (frame_row _ _ _ n Hf) by (by apply Hdist'). tauto.
      + intros (n & s & [Hn|Hn] & Hs & Hb); [left|right]; exists n, s; [|tauto].
        rewrite (frame_row _ _ _ n Hf) by (by apply Hdist'). tauto. }
  destruct (failed || run_cancelled rid (w_db wi)) eqn:Hstop.
  { apply Hgo; [apply skip_wave_frame| |].
    - intros n s Hn Hs. apply (skip_wave_row wave n wi s); [apply Hind|done|done].
    - intros Hc. rewrite Hc, orb_false_r in Hstop. subst failed. cbn. tauto. }
  apply orb_false_iff in Hstop as [-> Hc]. set (w1 := foldl act wi (schedule wave)) in *.
  assert (Hf : frame rid (nid <$> wave) wi w1) by (apply acts_frame; intros a Ha; by eapply interleaving_ids).
  assert (Hdone : forall n, n ∈ wave -> row_done n w1).
  { intros n Hn. destruct (Hawi n) as [s Hs]; [apply elem_of_app; by left|]. by apply (wave_rows wave n wi s). }
  destruct (wave_flags wave w1) as [[f rep]|e] eqn:Hflags; [|done].
  apply wave_flags_spec in Hflags as (Hnoexn & Hfl & Hrep).
  assert (Hrows : forall n s, n ∈ wave -> row_of n wi = Some s -> exists s', row_of n w1 = Some s' /\ open_status (sstatus s') = false).
  { intros n s Hn _. destruct (Hdone n Hn) as (s' & r & Hs' & Hr & Ho & _). exists s'. split; [done|].
    destruct r as [res|e]; [by apply (Ho res)|]. by destruct (Hnoexn n e Hn). }
  destruct (frame_sane _ _ _ Hf Hsi) as [_ Hc1]. rewrite Hc in Hc1.
  assert (Hbad : f || rep = true <-> has_bad wave w1).
  { rewrite orb_true_iff, Hfl, Hrep. split.
    - intros [[|(n & c & Hn & Hp)]|[|(n & Hn & Hp)]]; try done;
        destruct (Hdone n Hn) as (s & r & Hs & Hr & _ & Hv); rewrite Hr in Hp; injection Hp as ->; exists n, s;
        (split_and!; [done|done|]); by rewrite <- (Hv Hc1 _ _ eq_refl).
    - intros (n & s & Hn & Hs & Hb). destruct (Hdone n Hn) as (s' & r & Hs' & Hr & _ & Hv). rewrite Hs in Hs'. injection Hs' as <-.
      destruct r as [[a b]|e]; [|by destruct (Hnoexn n e Hn)]. specialize (Hv Hc1 a b eq_refl). rewrite Hb in Hv.
      destruct a; [left; right; eauto|]. destruct b; [|done]. right; right; eauto. }
  destruct f.
  - apply Hgo; [done|done|]. intros _. cbn. cbn in Hbad. tauto.
  - destruct (match g with Some _ => _ | None => _ end) as [[|]|]; [done| |done].
    apply Hgo; [done|done|]. intros _. cbn. cbn in Hbad. rewrite orb_true_iff, Hbad. tauto.
Qed.
End RowFacts.

(** ** The walk of a run *)

Lemma wave_of_concat (gens : list (list node)) n i :
  n ∈ concat gens -> node_id n = Some i -> exists d, wave_of gens i d.
Proof.
  intros (wave & Hw & Hn)%elem_of_concat Hi. apply list_elem_of_lookup in Hw as [d Hd]. exists d, wave, n. done.
Qed.

Lemma generations_stratified plan edges gens :
  valid_order plan edges -> topological_generations plan edges = Ok gens -> stratified edges [] gens /\ concat gens ≡ₚ plan.
Proof.
  intros Hv Hg. destruct (topological_generations_spec plan edges Hv) as (gens' & Hg' & Hperm & _ & _ & Huniq & Hlt & _).
  rewrite Hg in Hg'. injection Hg' as <-. split; [|done].
  assert (Hid : forall n, n ∈ concat gens -> exists i, node_id n = Some i /\ node_id_or_empty n = i).
  { intros n Hn. rewrite Hperm in Hn. destruct (vo_ids _ _ Hv n Hn) as [i Hi]. exists i. unfold node_id_or_empty. by rewrite Hi. }
  assert (Hgen : forall suf pre, gens = pre ++ suf -> stratified edges (concat pre) suf).
  { induction suf as [|wave suf IH]; intros pre Heq; [done|]. cbn [stratified]. split_and!.
    - apply (waves_independent plan edges gens wave Hv Hg). rewrite Heq. apply elem_of_app. right. by left.
    - intros n m Hn Hm Hrel.
      assert (Hnc : n ∈ concat gens) by (rewrite Heq, concat_app; apply elem_of_app; by left).
      assert (Hmc : m ∈ concat gens) by (rewrite Heq, concat_app; apply elem_of_app; right; apply elem_of_app; by left).
      destruct (Hid n Hnc) as (i & Hi & Hi'), (Hid m Hmc) as (j & Hj & Hj'). rewrite Hi', Hj' in Hrel.
      assert (Hwm : wave_of gens j (length pre)).
      { exists wave, m. split_and!; [|done|done]. rewrite Heq. by rewrite lookup_app_r, Nat.sub_diag by lia. }
      destruct (wave_of_concat pre n i Hn Hi) as (d & w & n' & Hw & Hn' & Hin').
      assert (Hd : d < length pre) by (by eapply lookup_lt_Some).
      assert (Hwn : wave_of gens i d).
      { exists w, n'. split_and!; [|done|done]. rewrite Heq. by rewrite lookup_app_l. }
      destruct Hrel as [->|(e & He & Ht & Hs)]; [pose proof (Huniq i _ _ Hwn Hwm); lia|].
      assert (length pre < d); [|lia]. apply (Hlt j i); [|done|done].
      rewrite Hperm in Hnc, Hmc. split_and!; [apply elem_of_node_ids; eauto..|]. exists e. split_and!; [done|done|].
      unfold edge_target. by rewrite Ht.
    - specialize (IH (pre ++ [wave])). rewrite concat_app in IH. cbn [concat] in IH. rewrite app_nil_r in IH.
      apply IH. by rewrite <- app_assoc. }
  by apply (Hgen gens []).
Qed.

Section Runs.
Context (E : engine) (rid : nat) (row : WorkflowRun).

Lemma create_pending_rows plan db b db' :
  create_pending_step_results rid plan db = (b, db') ->
  runs db' = runs db /\ next_id db' = next_id db /\
  (forall k, is_Some (steps db !! k) -> steps db' !! k = steps db !! k) /\
  (b = true -> forall n, n ∈ plan -> steps db !! (rid, node_id_or_empty n) = None /\
     steps db' !! (rid, node_id_or_empty n) = Some (new_step_row (node_type n) (node_title n))) /\
  (b = false -> plan ≠ []).
Proof.
  revert db. induction plan as [|n plan IH]; intros db; cbn [create_pending_step_results].
  { intros [= <- <-]. split_and!; try done. by intros _ n ?%not_elem_of_nil. }
  unfold create_step_result. destruct (steps db !! (rid, node_id_or_empty n)) as [s|] eqn:Hs; [by intros [= <- <-]|].
  intros Hc. destruct (IH _ Hc) as (H1 & H2 & H3 & H4 & _). cbn [set_steps runs next_id steps] in *.
  split_and!; [done|done| | |done].
  - intros k Hk. destruct (decide (k = (rid, node_id_or_empty n))) as [->|Hne]; [rewrite Hs in Hk; by destruct Hk|].
    rewrite H3; rewrite lookup_insert_ne by done; done.
  - intros Hb m [->|Hm]%elem_of_cons.
    + split; [done|]. rewrite H3; rewrite lookup_insert_eq; [done|by eexists].
    + destruct (H4 Hb m Hm) as [Hnone Hrow]. split; [|done].
      destruct (decide (node_id_or_empty n = node_id_or_empty m)) as [Heq|Hne]; [by rewrite <- Heq|].
      rewrite lookup_insert_ne in Hnone; [done|]. congruence.
Qed.

(** Either the run is refused before anything is executed, or its plan is walked. *)
Lemma execute_all_cases schedule env cn ce db :
  let out := execute_all E rid row schedule env cn ce db in
  (exists e db', out = (Raise e, fresh_walk ∅ db')) \/
  (exists ns es plan gens db', load_execution_graph cn ce = Ok (ns, es) /\ get_step_results_for_run rid db = ∅ /\
     topological_sort (registry E) ns es = Ok plan /\
     create_pending_step_results rid plan (exec_ops (env 0) db) = (true, db') /\
     topological_generations plan es = Ok gens /\
     out = walk_waves E rid row schedule env (Some (ns, es)) es 1 gens false false (fresh_walk ∅ db')).
Proof.
  unfold execute_all. destruct (load_execution_graph cn ce) as [[ns es]|e]; [|left; eauto].
  destruct (decide _) as [|Hrows]; [left; eauto|].
  destruct (topological_sort (registry E) ns es) as [plan|e] eqn:Hp; [|left; eauto].
  destruct (create_pending_step_results _ _ _) as [[] db'] eqn:Hc; [|left; eauto].
  destruct (topological_generations plan es) as [gens|e] eqn:Hg; [|left; eauto]. right.
  exists ns, es, plan, gens, db'. split_and!; try done. by destruct (decide (get_step_results_for_run rid db = ∅)).
Qed.

Lemma fresh_idle i db : idle i (fresh_walk ∅ db).
Proof. unfold idle, fresh_walk. cbn. split_and!; [done|by rewrite multiplicity_empty|done|set_solver]. Qed.

(** C7. The verdict of a run that was walked to its end: every step's row is
    closed, and, unless the run was cancelled meanwhile, the run succeeds
    exactly when every step ended in [success] or [partial]: no step raised,
    none failed for all its devices, none was cut off by an upstream failure
    or skipped behind one. Whatever other processes did to the run's row. *)
Theorem walk_verdict schedule env cn ce db success w :
  (forall wave, interleaving wave (schedule wave)) ->
  (forall k, Forall (quiet rid) (env k)) -> (forall k, Forall lawful (env k)) -> sane rid db ->
  execute_all E rid row schedule env cn ce db = (Ok (WR_done success), w) ->
  exists ns es plan, load_execution_graph cn ce = Ok (ns, es) /\ topological_sort (registry E) ns es = Ok plan /\
    (forall n, n ∈ plan -> exists s, steps (w_db w) !! (rid, node_id_or_empty n) = Some s /\ sstatus s ∉ [S_pending; S_running]) /\
    (run_cancelled rid (w_db w) = false ->
     success = true <->
     forall n s, n ∈ plan -> steps (w_db w) !! (rid, node_id_or_empty n) = Some s -> sstatus s ∈ [S_success; S_partial]).
Proof.
  intros Hsch Hq Hl Hsane Hrun. destruct (execute_all_cases schedule env cn ce db) as [(e & db' & Hout)|Hout]; [congruence|].
  destruct Hout as (ns & es & plan & gens & db' & Hload & _ & Hsort & Hcreate & Hgen & Hout). exists ns, es, plan.
  split; [done|]. split; [done|]. rewrite Hrun in Hout. symmetry in Hout.
  apply topological_sort_valid in Hsort. destruct (generations_stratified plan es gens Hsort Hgen) as [Hstrat Hperm].
  destruct (create_pending_rows _ _ _ _ Hcreate) as (Hruns & Hnext & _ & Hrows & _).
  destruct (sane_env rid (env 0) db (Hl 0) Hsane) as [[Hf Hr] _].
  destruct (walk_waves_rows E rid row es schedule env Hsch Hq Hl (Some (ns, es)) 1 [] gens false false (fresh_walk ∅ db') success w) as [Hcl Hv].
  - done.
  - split; cbn [w_db fresh_walk]; [|by rewrite Hruns]. unfold ids_fresh. rewrite Hruns, Hnext. exact Hf.
  - by intros n ?%not_elem_of_nil.
  - intros n Hn. rewrite Hperm in Hn. destruct (Hrows eq_refl n Hn) as [_ Hs]. unfold row_of. cbn. by rewrite Hs.
  - intros _. split; [done|]. by intros (n & s & ?%not_elem_of_nil & _).
  - done.
  - cbn [app] in *. split.
    + intros n Hn. rewrite <- Hperm in Hn. destruct (Hcl n Hn) as (s & Hs & Ho). exists s. split; [done|].
      by apply bool_decide_eq_false in Ho.
    + intros Hc. specialize (Hv Hc). split.
      * intros -> n s Hn Hs. rewrite <- Hperm in Hn. destruct (Hcl n Hn) as (s' & Hs' & Ho). unfold row_of in Hs'.
        assert (s' = s) as -> by congruence. destruct (bad (sstatus s)) eqn:Hb.
        -- assert (true = false) by (apply Hv; exists n, s; done). done.
        -- destruct (sstatus s); try done; [by left|right; by left].
      * intros Hall. destruct success; [done|]. destruct (proj1 Hv eq_refl) as (n & s & Hn & Hs & Hb).
        rewrite Hperm in Hn. specialize (Hall n s Hn Hs). destruct (sstatus s); try done;
          rewrite !elem_of_cons, elem_of_nil in Hall; naive_solver.
Qed.

(** C8. The walk computes the data flow of the canvas. At its end, however it
    ended, every step of the plan is either untouched, or finished as its
    parents say ([flowed], about the final contexts): blocked because an
    upstream failure lost all its devices, or handed to its executor exactly
    once, on the merge of its parents' contexts, its outcomes those the executor
    gave. And the stop is hard: behind a wave in which a step raised, nothing
    was started. *)
Theorem walk_dataflow schedule env cn ce db ns es plan gens :
  (forall wave, interleaving wave (schedule wave)) ->
  load_execution_graph cn ce = Ok (ns, es) -> topological_sort (registry E) ns es = Ok plan ->
  topological_generations plan es = Ok gens ->
  let w := (execute_all E rid row schedule env cn ce db).2 in
  (forall n, n ∈ plan -> flowed E row es n w \/ idle (node_id_or_empty n) w) /\
  (forall d1 d2 wave1 wave2 n m, d1 < d2 -> gens !! d1 = Some wave1 -> gens !! d2 = Some wave2 -> n ∈ wave1 -> m ∈ wave2 ->
     gate E es n w = Ok false -> multiplicity (node_id_or_empty n) (w_attempts w) = 1 ->
     is_ok (run_executor E row n (node_id_or_empty n) es (w_outcomes w)) = false -> idle (node_id_or_empty m) w).
Proof.
  intros Hsch Hload Hsort Hgen. cbv zeta.
  destruct (execute_all_cases schedule env cn ce db) as [(e & db' & ->)|Hout].
  { split; [right; apply fresh_idle|intros; apply fresh_idle]. }
  destruct Hout as (ns' & es' & plan' & gens' & db' & Hload' & _ & Hsort' & _ & Hgen' & ->).
  rewrite Hload in Hload'. injection Hload' as <- <-. rewrite Hsort in Hsort'. injection Hsort' as <-.
  rewrite Hgen in Hgen'. injection Hgen' as <-.
  apply topological_sort_valid in Hsort. destruct (generations_stratified plan es gens Hsort Hgen) as [Hstrat Hperm].
  assert (Hidle : forall m, m ∈ concat gens -> idle (node_id_or_empty m) (fresh_walk ∅ db')) by (intros; apply fresh_idle).
  destruct (walk_waves_flow E rid row es schedule env Hsch (Some (ns, es)) 1 [] gens false false (fresh_walk ∅ db') Hstrat) as [_ Hflow];
    [by intros n ?%not_elem_of_nil|done|]. cbn [app] in Hflow.
  split; [intros n Hn; apply Hflow; by rewrite Hperm|].
  intros d1 d2 wave1 wave2 n m Hd Hw1 Hw2 Hn Hm Hgate Hat Hex.
  assert (Hnc : n ∈ concat gens) by (apply elem_of_concat; exists wave1; split; [by eapply list_elem_of_lookup_2|done]).
  destruct (Hflow n Hnc) as [(r & Hr & Hcase)|(_ & Hz & _)]; [|lia].
  rewrite Hgate in Hcase. destruct Hcase as (_ & _ & Hcase). destruct (run_executor _ _ _ _ _ _) as [os|e]; [done|]. destruct Hcase as [_ ->].
  by apply (walk_waves_hard_stop E rid row es schedule env Hsch (Some (ns, es)) 1 [] gens false false (fresh_walk ∅ db') d1 d2 wave1 wave2 n m true).
Qed.

(** Rows are never removed, and only planned steps are attempted. *)
Lemma exec_ops_keeps_rows ops db k : is_Some (steps db !! k) -> is_Some (steps (exec_ops ops db) !! k).
Proof.
  revert db. induction ops as [|op ops IH]; intros db Hk; [done|]. apply IH. cbn [exec_op].
  assert (Htrans : forall r st from f, steps (transition_run r st from f db).2 = steps db).
  { intros r st from f. destruct (transition_run r st from f db) as [b db'] eqn:Ht. by apply transition_run_spec in Ht as (_ & ? & _). }
  destruct op as [now u wf us t ds ri p a|r st from f|r st f c|r h|now r m|r n t nm|r n st f|f]; cbn [exec_op snd].
  - done.
  - by rewrite Htrans.
  - destruct (update_run_status_transition r st f c db) as [f' ->]. by rewrite Htrans.
  - unfold record_hatchet_run_id. by destruct (runs db !! r).
  - rewrite finalise_lookup. by apply fmap_is_Some.
  - unfold create_step_result. destruct (steps db !! (r, n)); [done|]. cbn [set_steps steps].
    destruct (decide ((r, n) = k)) as [->|Hne]; [rewrite lookup_insert_eq; by eexists|by rewrite lookup_insert_ne].
  - unfold update_step_result. destruct (steps db !! (r, n)); [|done]. destruct (_ && _); [done|]. cbn [set_steps steps].
    destruct (decide ((r, n) = k)) as [->|Hne]; [rewrite lookup_insert_eq; by eexists|by rewrite lookup_insert_ne].
  - done.
Qed.

Lemma update_row_keeps i st f w k : is_Some (steps (w_db w) !! k) -> is_Some (steps (w_db (update_row rid i st f w)) !! k).
Proof.
  intros Hk. destruct (decide (k = (rid, i))) as [->|Hne]; [|by rewrite update_row_other].
  destruct Hk as [s Hs]. destruct (update_row_row rid i st f w s Hs) as (s' & Hs' & _). by eexists.
Qed.

Lemma act_keeps edges w a k : is_Some (steps (w_db w) !! k) -> is_Some (steps (w_db (act E rid row edges w a)) !! k).
Proof.
  intros Hk. destruct a as [n|n]; cbn [act].
  - unfold start_node. destruct (step_requires_devices E (node_type n)); [|done].
    destruct (_ && _); cbn [set_phase block w_db]; by apply update_row_keeps.
  - unfold finish_node. destruct (w_phase w !! node_id_or_empty n) as [[]|]; try done.
    destruct (run_executor _ _ _ _ _ _); cbn [set_phase w_db]; by apply update_row_keeps.
Qed.

Lemma acts_keep edges l w k : is_Some (steps (w_db w) !! k) -> is_Some (steps (w_db (foldl (act E rid row edges) w l)) !! k).
Proof. revert w. induction l as [|a l IH]; intros w Hk; [done|]. by apply IH, act_keeps. Qed.
Lemma skip_wave_keeps wave w k : is_Some (steps (w_db w) !! k) -> is_Some (steps (w_db (skip_wave rid wave w)) !! k).
Proof. unfold skip_wave. revert w. induction wave as [|n wave IH]; intros w Hk; [done|]. by apply IH, update_row_keeps. Qed.

Lemma walk_waves_keeps schedule env g edges k gens failed reported w :
  (forall wave, interleaving wave (schedule wave)) ->
  let w' := (walk_waves E rid row schedule env g edges k gens failed reported w).2 in
  (forall key, is_Some (steps (w_db w) !! key) -> is_Some (steps (w_db w') !! key)) /\
  (forall i, i ∉ (node_id_or_empty <$> concat gens) -> multiplicity i (w_attempts w') = multiplicity i (w_attempts w)).
Proof.
  intros Hsch. revert k failed reported w. induction gens as [|wave gens IH]; intros k failed reported w; [done|].
  cbn [walk_waves]. set (wi := interfere env k w).
  assert (Hwi : forall key, is_Some (steps (w_db w) !! key) -> is_Some (steps (w_db wi) !! key)).
  { intros key. apply exec_ops_keeps_rows. }
  assert (Hgo : forall failed' reported' w1,
    (forall key, is_Some (steps (w_db wi) !! key) -> is_Some (steps (w_db w1) !! key)) ->
    (forall i, i ∉ (node_id_or_empty <$> wave) -> multiplicity i (w_attempts w1) = multiplicity i (w_attempts w)) ->
    let w' := (walk_waves E rid row schedule env g edges (S k) gens failed' reported' w1).2 in
    (forall key, is_Some (steps (w_db w) !! key) -> is_Some (steps (w_db w') !! key)) /\
    (forall i, i ∉ (node_id_or_empty <$> concat (wave :: gens)) -> multiplicity i (w_attempts w') = multiplicity i (w_attempts w))).
  { intros failed' reported' w1 H1 H2. destruct (IH (S k) failed' reported' w1) as [G1 G2]. split; [by auto|].
    cbn [concat]. intros i. rewrite fmap_app, elem_of_app. intros Hi. rewrite G2, H2 by tauto. done. }
  destruct (failed || run_cancelled rid (w_db wi)).
  { apply Hgo.
    - intros key. apply skip_wave_keeps.
    - intros i _. destruct (skip_wave_flow rid wave wi) as (_ & _ & _ & <-). done. }
  set (w1 := foldl (act E rid row edges) wi (schedule wave)).
  assert (Hk1 : forall key, is_Some (steps (w_db wi) !! key) -> is_Some (steps (w_db w1) !! key)).
  { intros key. apply acts_keep. }
  assert (Hm1 : forall i, i ∉ (node_id_or_empty <$> wave) -> multiplicity i (w_attempts w1) = multiplicity i (w_attempts w)).
  { intros i Hi. symmetry. change (w_attempts w) with (w_attempts wi).
    apply (fr_attempts rid (node_id_or_empty <$> wave)); [|done]. apply acts_frame. intros a Ha. by eapply interleaving_ids. }
  assert (Hstop : (forall key, is_Some (steps (w_db w) !! key) -> is_Some (steps (w_db w1) !! key)) /\
    (forall i, i ∉ (node_id_or_empty <$> concat (wave :: gens)) -> multiplicity i (w_attempts w1) = multiplicity i (w_attempts w))).
  { split; [by auto|]. cbn [concat]. intros i. rewrite fmap_app, elem_of_app. intros Hi. apply Hm1. tauto. }
  destruct (wave_flags wave w1) as [[[] rep]|e]; [by apply Hgo| |done].
  destruct (match g with Some _ => _ | None => _ end) as [[|]|]; [done|by apply Hgo|done].
Qed.

(** One delivery attempts each step at most once, and what it attempts has a row. *)
Lemma execute_all_attempts schedule env cn ce db :
  (forall wave, interleaving wave (schedule wave)) ->
  let w := (execute_all E rid row schedule env cn ce db).2 in
  forall i, multiplicity i (w_attempts w) <= 1 /\
    (0 < multiplicity i (w_attempts w) -> is_Some (steps (w_db w) !! (rid, i)) /\ get_step_results_for_run rid db = ∅).
Proof.
  intros Hsch. cbv zeta. intros i. destruct (execute_all_cases schedule env cn ce db) as [(e & db' & ->)|Hout].
  { cbn. rewrite multiplicity_empty. split; lia. }
  destruct Hout as (ns & es & plan & gens & db' & _ & Hempty & Hsort & Hcreate & Hgen & ->).
  apply topological_sort_valid in Hsort. destruct (generations_stratified plan es gens Hsort Hgen) as [Hstrat Hperm].
  destruct (create_pending_rows _ _ _ _ Hcreate) as (_ & _ & _ & Hrows & _).
  destruct (walk_waves_keeps schedule env (Some (ns, es)) es 1 gens false false (fresh_walk ∅ db') Hsch) as [Hkeep Hother].
  destruct (decide (i ∈ (node_id_or_empty <$> concat gens))) as [(n & -> & Hn)%list_elem_of_fmap|Hn].
  - destruct (walk_waves_flow E rid row es schedule env Hsch (Some (ns, es)) 1 [] gens false false (fresh_walk ∅ db') Hstrat) as [_ Hflow];
      [by intros m ?%not_elem_of_nil|intros; apply fresh_idle|].
    specialize (Hflow n Hn). rewrite Hperm in Hn. destruct (Hrows eq_refl n Hn) as [_ Hs].
    split; [|intros _; split; [apply Hkeep; cbn; by rewrite Hs|done]].
    destruct Hflow as [(r & _ & Hcase)|(_ & Hz & _)]; [|lia]. destruct (gate E es n _) as [[]|]; lia.
  - rewrite (Hother i Hn). cbn. rewrite multiplicity_empty. split; lia.
Qed.

(** C10. Steps change devices and carry no idempotency token, so no step is
    ever handed to its executor twice: not within one delivery of the run; not
    by a later delivery, whatever other processes wrote in between; and an
    overlapping delivery that finds a planned row taken executes nothing. *)
Theorem steps_run_at_most_once s1 s2 env1 env2 ops cn ce cn' ce' db :
  (forall wave, interleaving wave (s1 wave)) -> (forall wave, interleaving wave (s2 wave)) ->
  let w1 := (execute_all E rid row s1 env1 cn ce db).2 in
  let second := execute_all E rid row s2 env2 cn' ce' (exec_ops ops (w_db w1)) in
  (forall i j, 0 < multiplicity i (w_attempts w1) -> multiplicity j (w_attempts second.2) = 0) /\
  (forall i, multiplicity i (w_attempts w1) <= 1) /\
  (forall ns es plan n, load_execution_graph cn ce = Ok (ns, es) -> topological_sort (registry E) ns es = Ok plan ->
     n ∈ plan -> is_Some (steps (exec_ops (env1 0) db) !! (rid, node_id_or_empty n)) ->
     w_attempts w1 = ∅ /\ exists why, (execute_all E rid row s1 env1 cn ce db).1 = Raise (RunAlreadyStarted why)).
Proof.
  intros H1 H2. cbv zeta. set (w1 := (execute_all E rid row s1 env1 cn ce db).2). split_and!.
  - intros i j Hi. destruct (execute_all_attempts s1 env1 cn ce db H1 i) as [_ Hrow]. destruct (Hrow Hi) as [Hrow1 _].
    apply (exec_ops_keeps_rows ops) in Hrow1 as [s Hs].
    destruct (execute_all_attempts s2 env2 cn' ce' (exec_ops ops (w_db w1)) H2 j) as [_ Hj].
    destruct (multiplicity j _) as [|m]; [done|]. destruct Hj as [_ Hempty]; [lia|]. exfalso.
    assert (Hin : get_step_results_for_run rid (exec_ops ops (w_db w1)) !! (rid, i) = Some s).
    { unfold get_step_results_for_run. by apply map_lookup_filter_Some. }
    by rewrite Hempty, lookup_empty in Hin.
  - intros i. by apply execute_all_attempts.
  - intros ns es plan n Hload Hsort Hn [s Hs]. unfold w1, execute_all. rewrite Hload.
    destruct (decide _) as [Hd|Hd]; [split; [done|eauto]|]. rewrite Hsort.
    destruct (create_pending_step_results rid plan (exec_ops (env1 0) db)) as [[] db'] eqn:Hc; [|split; [done|eauto]].
    destruct (create_pending_rows _ _ _ _ Hc) as (_ & _ & _ & Hrows & _). destruct (Hrows eq_refl n Hn). congruence.
Qed.
End Runs.

(** ** A run on which the theorems are exercised

    [inv -> a -> z] and [inv -> b]: [a] loses its device, [b] keeps it, so [z]
    (on the success edge of [a]) is cut off. *)
Definition sample_run_device (st : DeviceStatus) : DeviceContext :=
  Device "d1" "sw1" "sw1" None None None "nautobot" "u1" [] None None [] [] [] [] {[IDENTITY]} st [].
Definition sample_run_context (st : DeviceStatus) : WorkflowContext :=
  Workflow "r" "7" 2 [("d1", sample_run_device st)] [] [].
Definition sample_step (config : dict json) (c : WorkflowContext) (node_id : string) : res (list StepOutcome) :=
  if String.eqb node_id "inv" then Ok [Outcome "success" (sample_run_context OK) None None]
  else if String.eqb node_id "a" then Ok [Outcome "success" (Workflow "r" "7" 2 [] [] []) None None;
                                          Outcome "failure" (sample_run_context FAILED) None None]
  else if String.eqb node_id "boom" then Raise (RuntimeError "boom" [])
  else Ok [Outcome "success" c None None].
Definition sample_engine : engine := {|
  registry := [Plugin "get-devices" true true [] ["identity"] [] []; Plugin "act" true true ["identity"] [] [] []];
  STEP_REGISTRY := fun t => if String.eqb t "get-devices" || String.eqb t "act" then Some sample_step else None;
  exn_text := fun _ => "boom"; carried_failure := fun _ => None; exn_class := fun _ => "RuntimeError";
  new_error_id := fun i => i; known_secrets := fun _ => []; float_len := fun _ _ => 3;
  step_output_value_max_bytes := 1000; step_output_max_bytes := 4000; clock := 5%Z; now_iso := "now" |}.
Definition sample_row : WorkflowRun :=
  Run "r" 7 None R_running "manual" None None None [] [] None None None None None None None None None None 0%Z.
Definition sample_tables : tables := Tables {[1 := sample_row]} ∅ ∅ 2.
Definition walk_nodes : list node :=
  [mk_node "inv" "get-devices"; mk_node "a" "act"; mk_node "b" "act"; mk_node "z" "act"].
Definition walk_edges : list edge := [mk_edge "inv" "a"; mk_edge "inv" "b"; mk_edge "a" "z"].
Definition boom_nodes : list node := [mk_node "inv" "get-devices"; mk_node "boom" "act"; mk_node "z" "act"].
Definition boom_edges : list edge := [mk_edge "inv" "boom"; mk_edge "boom" "z"].
Definition silent : nat -> list db_op := fun _ => [].
(** All starts first. *)
Definition starts_first (wave : list node) : list action := (Start <$> wave) ++ (Finish <$> wave).

Lemma starts_first_interleaving wave : interleaving wave (starts_first wave).
Proof.
  split.
  - unfold starts_first. induction wave as [|n wave IH]; [done|]. cbn. f_equiv. rewrite <- Permutation_middle. by f_equiv.
  - intros n Hn. apply list_elem_of_split in Hn as (l1 & l2 & ->). unfold starts_first.
    exists ((Start <$> l1 ++ n :: l2) ++ (Finish <$> l1)), (Finish <$> l2). split; [by rewrite !fmap_app, <- !app_assoc|].
    rewrite elem_of_app, fmap_app, elem_of_app. left. right. by left.
Qed.


Lemma sample_tables_sane : sane 1 sample_tables.
Proof.
  split; [|by eexists]. intros r [x Hx]. cbn in *. apply lookup_singleton_Some in Hx as [<- _]. lia.
Qed.

Definition sample_run : res walk_result * walk :=
  execute_all sample_engine 1 sample_row starts_first silent walk_nodes walk_edges sample_tables.

Lemma walk_verdict_witness :
  sample_run.1 = Ok (WR_done false) /\
  (sstatus <$> steps (w_db sample_run.2) !! (1, "z")) = Some S_skipped /\
  exists ns es plan, load_execution_graph walk_nodes walk_edges = Ok (ns, es) /\ topological_sort (registry sample_engine) ns es = Ok plan /\
    forall n, n ∈ plan -> exists s, steps (w_db sample_run.2) !! (1, node_id_or_empty n) = Some s /\ sstatus s ∉ [S_pending; S_running].
Proof.
  assert (Hout : sample_run.1 = Ok (WR_done false)) by (vm_compute; reflexivity).
  split; [done|]. split; [vm_compute; reflexivity|].
  assert (Hrun : sample_run = (Ok (WR_done false), sample_run.2)) by (rewrite <- Hout; apply surjective_pairing).
  destruct (walk_verdict sample_engine 1 sample_row starts_first silent walk_nodes walk_edges sample_tables false sample_run.2
    starts_first_interleaving (fun _ => List.Forall_nil _) (fun _ => List.Forall_nil _) sample_tables_sane Hrun)
    as (ns & es & plan & H1 & H2 & H3 & _).
  exists ns, es, plan. auto.
Defined.

(** [boom] raises: its success [z] stays untouched. *)
Lemma walk_dataflow_witness :
  exists ns es plan gens w, load_execution_graph boom_nodes boom_edges = Ok (ns, es) /\
    topological_sort (registry sample_engine) ns es = Ok plan /\ topological_generations plan es = Ok gens /\
    w = (execute_all sample_engine 1 sample_row in_order silent boom_nodes boom_edges sample_tables).2 /\
    multiplicity "boom" (w_attempts w) = 1 /\ idle "z" w.
Proof.
  exists boom_nodes, boom_edges, boom_nodes, [[mk_node "inv" "get-devices"]; [mk_node "boom" "act"]; [mk_node "z" "act"]].
  set (w := (execute_all sample_engine 1 sample_row in_order silent boom_nodes boom_edges sample_tables).2). exists w.
  assert (Hload : load_execution_graph boom_nodes boom_edges = Ok (boom_nodes, boom_edges)) by (vm_compute; reflexivity).
  assert (Hsort : topological_sort (registry sample_engine) boom_nodes boom_edges = Ok boom_nodes) by (vm_compute; reflexivity).
  assert (Hgen : topological_generations boom_nodes boom_edges =
    Ok [[mk_node "inv" "get-devices"]; [mk_node "boom" "act"]; [mk_node "z" "act"]]) by (vm_compute; reflexivity).
  assert (Hone : multiplicity "boom" (w_attempts w) = 1) by (vm_compute; reflexivity).
  split_and!; [done..|].
  refine (proj2 (walk_dataflow sample_engine 1 sample_row in_order silent boom_nodes boom_edges sample_tables _ _ _ _
    in_order_interleaving Hload Hsort Hgen) 1 2 [mk_node "boom" "act"] [mk_node "z" "act"] (mk_node "boom" "act") (mk_node "z" "act")
    _ eq_refl eq_refl _ _ _ Hone _); [lia|by left|by left|vm_compute; reflexivity|vm_compute; reflexivity].
Defined.

Lemma steps_run_at_most_once_witness :
  let w1 := (execute_all sample_engine 1 sample_row in_order silent walk_nodes walk_edges sample_tables).2 in
  multiplicity "a" (w_attempts w1) = 1 /\
  multiplicity "a" (w_attempts (execute_all sample_engine 1 sample_row in_order silent walk_nodes walk_edges (w_db w1)).2) = 0.
Proof.
  intros w1. assert (Ha : multiplicity "a" (w_attempts w1) = 1) by (vm_compute; reflexivity). split; [done|].
  apply (proj1 (steps_run_at_most_once sample_engine 1 sample_row in_order in_order silent silent [] walk_nodes walk_edges walk_nodes walk_edges
    sample_tables in_order_interleaving in_order_interleaving) "a" "a").
  fold w1. rewrite Ha. lia.
Defined.
