(* ===== verification/CapabilityFlow.v ===== *)
(** * The capability flow of a canvas ([backend/services/workflow/workflow_validation_service.py], Tier 3)

    The static check the editor runs before a workflow is saved or started: a
    walk along the dependency order that carries, on every outcome of every
    step, the capabilities and parsed keys guaranteed there, and reports the
    steps whose declared requirements are not guaranteed.  Module [Soundness]
    relates it to the guards the engine enforces at run time. *)
From stdpp Require Import gmultiset.
From S2P Require Import Prelude Dict Json Graph Registry GraphResolution Context Merge Guards RunStore StepRunner.

(** [models/workflow_validation.py] *)
Inductive finding_severity := SEV_error | SEV_warning.

Record ValidationFinding := Finding {
  vf_node_id : option string;
  tier : nat;
  severity : finding_severity;
  code : string;
  vf_message : string;
  vf_args : list string
}.

Record CapabilityState := CapState { cs_capabilities : gset Capability; cs_parsed_keys : gset string }.

Definition EMPTY_CAPABILITY_STATE : CapabilityState := CapState ∅ ∅.

Definition FAILURE_CLASS_OUTCOMES : list string := ["failure"; "fail"; "error"].

Definition is_failure_class_outcome (name : string) : bool :=
  bool_decide (lower (strip name) ∈ FAILURE_CLASS_OUTCOMES).

Definition meet (a b : CapabilityState) : CapabilityState :=
  CapState (cs_capabilities a ∩ cs_capabilities b) (cs_parsed_keys a ∩ cs_parsed_keys b).

Definition intersect_capability_states (states : list CapabilityState) : CapabilityState :=
  match states with
  | [] => EMPTY_CAPABILITY_STATE
  | s :: rest => foldl meet s rest
  end.

(** (node id, outcome) -> what is guaranteed on that edge *)
Abbreviation outcome_states := (gmap (string * string) CapabilityState).

(** [self._plugins_by_id] *)
Definition plugins_by_id (plugins : list PluginEntry) : dict PluginEntry :=
  foldl (fun m p => dset (plugin_id (plugin p)) p m) [] plugins.

Section Flow.
Context (plugins : list PluginEntry).

(** [self._plugins_by_id.get(kind) if isinstance(kind, str) else None] *)
Definition entry_of (n : node) : option PluginEntry :=
  match node_kind n with Some (JStr kind) => dget kind (plugins_by_id plugins) | _ => None end.

(** [_is_executable_node] *)
Definition validator_executable (n : node) : bool :=
  match node_kind n with
  | Some (JStr kind) =>
      if decide (kind = "") then true
      else match dget kind (plugins_by_id plugins) with None => true | Some p => executable (plugin p) end
  | _ => true
  end.

Definition executable_edges (executable_ids : list string) (edges : list edge) : list edge :=
  filter (fun e => option_in (source e) executable_ids && option_in (target e) executable_ids = true) edges.

Definition incoming (edges : list edge) (nid : string) : list edge := filter (fun e => edge_target e = nid) edges.

Definition input_state (edges : list edge) (outcome_state : outcome_states) (nid : string) : CapabilityState :=
  intersect_capability_states
    ((fun e => default EMPTY_CAPABILITY_STATE (outcome_state !! (edge_source e, handle_or_success e))) <$> incoming edges nid).

Definition missing_capability (nid : string) (p : PluginEntry) (missing : gset Capability) : list ValidationFinding :=
  if decide (missing = ∅) then []
  else [Finding (Some nid) 3 SEV_error "missing_capability"
          "Step '{plugin.name}' requires {...}, but no upstream step on every path reaching it guarantees that."
          (plugin_name p :: sorted_strings (capability_value <$> elements missing))].

Definition missing_parsed_key (nid : string) (p : PluginEntry) (missing : gset string) : list ValidationFinding :=
  if decide (missing = ∅) then []
  else [Finding (Some nid) 3 SEV_error "missing_parsed_key"
          "Step '{plugin.name}' requires parsed key(s) {...}, but no upstream step on every path reaching it guarantees producing them."
          (plugin_name p :: sorted_strings (elements missing))].

(** [success_state]: what holds on an outcome that is not of the failure class. *)
Definition success_state (p : PluginEntry) (spec : StepCapabilitySpec) (config : dict json) (input : CapabilityState)
    : CapabilityState :=
  CapState ((cs_capabilities input ∖ spec_consumes spec) ∪ effective_produces spec (plugin_id (plugin p)) config)
    (cs_parsed_keys input ∪ list_to_set (produces_parsed p)).

Definition handle_names (edges : list edge) (nid : string) (p : PluginEntry) : list string :=
  match outcome_names p ++ (handle_or_success <$> filter (fun e => source e = Some nid) edges) with
  | [] => ["success"]
  | names => names
  end.

(** The body of the loop over [order]. *)
Definition visit (edges : list edge) (st : outcome_states * list ValidationFinding) (n : node)
    : res (outcome_states * list ValidationFinding) :=
  let nid := node_id_or_empty n in
  match entry_of n with
  | None => Ok st
  | Some p =>
      let input := input_state edges st.1 nid in
      spec ← capability_spec_from_plugin (plugin p);
      let findings :=
        missing_capability nid p (spec_requires spec ∖ cs_capabilities input) ++
        missing_parsed_key nid p (spec_requires_parsed spec ∖ cs_parsed_keys input) in
      let success := success_state p spec (node_config n) input in
      Ok (foldl (fun m handle => <[(nid, handle) := if is_failure_class_outcome handle then input else success]> m)
            st.1 (handle_names edges nid p),
          st.2 ++ findings)
  end.

Definition capability_walk (order : list node) (edges : list edge) : res (outcome_states * list ValidationFinding) :=
  foldM (visit edges) (∅, []) order.

(** The [str(exc)] of the finding is the exception itself. *)
Definition structural_finding (code : string) (e : exn) : ValidationFinding :=
  match e with
  | ValueError msg args => Finding None 3 SEV_error code msg args
  | _ => Finding None 3 SEV_error code "Workflow graph contains a cycle" []
  end.

Definition executable_graph (nodes : list node) (edges : list edge) : list node * list edge :=
  let executable_nodes := filter (fun n => validator_executable n = true) nodes in
  (executable_nodes, executable_edges (node_ids executable_nodes) edges).

(** [_tier3_capability_flow]; both [except] clauses catch [ValueError]s only. *)
Definition tier3_capability_flow (canvas_nodes : list node) (canvas_edges : list edge) : res (list ValidationFinding) :=
  match load_execution_graph canvas_nodes canvas_edges with
  | Raise e => if is_value_error e then Ok [structural_finding "graph_resolution_failed" e] else Raise e
  | Ok (nodes, edges) =>
      let g := executable_graph nodes edges in
      match topological_order g.1 g.2 with
      | Raise e => match e with
                   | GraphCycleError _ => Ok [structural_finding "graph_cycle" e]
                   | _ => Raise e
                   end
      | Ok order => st ← capability_walk order g.2; Ok st.2
      end
  end.
End Flow.

(** * Facts *)

(** ** The static walk *)

Lemma foldl_insert_lookup {A} (f : string -> A) (nid : string) (handles : list string) (m : gmap (string * string) A) (i h : string) :
  foldl (fun m handle => <[(nid, handle) := f handle]> m) m handles !! (i, h) =
  if decide (i = nid /\ h ∈ handles) then Some (f h) else m !! (i, h).
Proof.
  revert m. induction handles as [|x handles IH]; intros m; cbn [foldl].
  - rewrite decide_False; [done|]. by intros [_ ?%not_elem_of_nil].
  - rewrite IH. destruct (decide (i = nid /\ h ∈ handles)) as [[-> Hh]|Hn].
    + rewrite decide_True; [done|]. split; [done|by right].
    + destruct (decide (i = nid /\ h ∈ x :: handles)) as [[-> Hh]|Hn'].
      * apply elem_of_cons in Hh as [->|Hh]; [|tauto]. apply lookup_insert_eq.
      * rewrite lookup_insert_ne; [done|]. intros [= <- <-]. apply Hn'. split; [done|by left].
Qed.

Section StaticWalk.
Context (plugins : list PluginEntry) (edges : list edge).

(** What the walk says about a step it has visited. *)
Definition visited (st : outcome_states) (fs : list ValidationFinding) (n : node) : Prop :=
  let nid := node_id_or_empty n in
  let input := input_state edges st nid in
  forall p, entry_of plugins n = Some p ->
  exists spec, capability_spec_from_plugin (plugin p) = Ok spec /\
    (forall h, h ∈ handle_names edges nid p ->
       st !! (nid, h) = Some (if is_failure_class_outcome h then input else success_state p spec (node_config n) input)) /\
    (spec_requires spec ⊆ cs_capabilities input /\ spec_requires_parsed spec ⊆ cs_parsed_keys input \/
     exists f, f ∈ fs /\ vf_node_id f = Some nid /\ tier f = 3 /\ severity f = SEV_error).

Lemma input_state_ext st st' nid :
  (forall e h, e ∈ edges -> edge_target e = nid -> st !! (edge_source e, h) = st' !! (edge_source e, h)) ->
  input_state edges st nid = input_state edges st' nid.
Proof.
  intros Hst. unfold input_state. f_equal. apply list_fmap_ext. intros j e He.
  apply list_elem_of_lookup_2 in He. apply list_elem_of_filter in He as [Ht He]. by rewrite (Hst e _ He Ht).
Qed.

(** A visit writes the states of its own step only and reads its parents'. *)
Lemma visit_other st fs n st' fs' i h :
  visit plugins edges (st, fs) n = Ok (st', fs') -> i ≠ node_id_or_empty n -> st' !! (i, h) = st !! (i, h).
Proof.
  unfold visit. destruct (entry_of plugins n) as [p|]; [|by intros [= <- <-]].
  intros Hv Hne. res_inv. rewrite foldl_insert_lookup, decide_False; [done|tauto].
Qed.

Lemma visit_findings st fs n st' fs' f : visit plugins edges (st, fs) n = Ok (st', fs') -> f ∈ fs -> f ∈ fs'.
Proof.
  unfold visit. destruct (entry_of plugins n) as [p|]; [|by intros [= <- <-]].
  intros Hv Hf. res_inv. apply elem_of_app. by left.
Qed.

Lemma visit_visited st fs n st' fs' :
  (forall e, e ∈ edges -> edge_target e = node_id_or_empty n -> edge_source e ≠ node_id_or_empty n) ->
  visit plugins edges (st, fs) n = Ok (st', fs') -> visited st' fs' n.
Proof.
  intros Hself Hv p Hp. assert (Hin : input_state edges st' (node_id_or_empty n) = input_state edges st (node_id_or_empty n)).
  { apply input_state_ext. intros e h He Ht. eapply visit_other; [exact Hv|by apply Hself]. }
  unfold visit in Hv. rewrite Hp in Hv. cbn [fst snd] in Hv. res_inv. rename x into spec.
  rewrite Hin.
  set (input := input_state edges st (node_id_or_empty n)) in *.
  exists spec. split; [done|]. split.
  - intros h Hh. rewrite foldl_insert_lookup. by rewrite decide_True.
  - unfold missing_capability, missing_parsed_key.
    destruct (decide (spec_requires spec ∖ cs_capabilities input = ∅)) as [Hc|Hc].
    + destruct (decide (spec_requires_parsed spec ∖ cs_parsed_keys input = ∅)) as [Hk|Hk].
      * left. split; by apply difference_empty_sub.
      * right. eexists. split; [apply elem_of_app; right; by left|done].
    + right. eexists. split; [apply elem_of_app; right; by left|done].
Qed.

Lemma visited_later st fs m st' fs' n :
  visit plugins edges (st, fs) m = Ok (st', fs') -> node_id_or_empty n ≠ node_id_or_empty m ->
  (forall e, e ∈ edges -> edge_target e = node_id_or_empty n -> edge_source e ≠ node_id_or_empty m) ->
  visited st fs n -> visited st' fs' n.
Proof.
  intros Hv Hne Hpar Hn p Hp. destruct (Hn p Hp) as (spec & Hspec & Hst & Hf). exists spec. split; [done|].
  rewrite (input_state_ext st' st) by (intros e h He Ht; eapply visit_other; [done|by apply Hpar]).
  split.
  - intros h Hh. rewrite (visit_other _ _ _ _ _ _ _ Hv Hne). by apply Hst.
  - destruct Hf as [Hf|(f & Hf & Hf')]; [by left|]. right. exists f. split; [by eapply visit_findings|done].
Qed.

(** Every step of a dependency order is visited, on the final states. *)
Lemma capability_walk_visited order st fs :
  valid_order order edges ->
  (forall e, e ∈ edges -> edge_source e ∈ node_ids order /\ edge_target e ∈ node_ids order) ->
  capability_walk plugins order edges = Ok (st, fs) -> forall n, n ∈ order -> visited st fs n.
Proof.
  intros [Hids Hnd Hfw] Hends.
  assert (Hdep : forall e, e ∈ edges -> before (node_ids order) (edge_source e) (edge_target e)).
  { intros e He. apply Hfw. destruct (Hends e He). split_and!; [done|done|]. by exists e. }
  assert (Hpre : forall l r, order = l ++ r -> forall st fs, foldM (visit plugins edges) (∅, []) l = Ok (st, fs) ->
    forall n, n ∈ l -> visited st fs n).
  { induction l as [|m l IH] using rev_ind; intros r Heq st' fs' Hl n Hn; [by apply not_elem_of_nil in Hn|].
    rewrite <- app_assoc in Heq. cbn [app] in Heq.
    rewrite foldM_app in Hl. apply res_bind_Ok in Hl as ([st1 fs1] & Hl & Hm). cbn [foldM] in Hm.
    destruct (visit plugins edges (st1, fs1) m) as [[st2 fs2]|] eqn:Hv; [|done]. injection Hm as <- <-.
    destruct (Hids m) as [i Hi]; [rewrite Heq; apply elem_of_app; right; by left|].
    assert (Hmi : node_id_or_empty m = i) by (unfold node_id_or_empty; by rewrite Hi).
    assert (Hsplit : node_ids order = node_ids l ++ i :: node_ids r).
    { rewrite Heq. unfold node_ids. rewrite omap_app. simpl. by rewrite Hi. }
    rewrite Hsplit in Hnd, Hdep.
    apply elem_of_app in Hn as [Hn| ->%list_elem_of_singleton].
    - destruct (Hids n) as [j Hj]; [rewrite Heq; apply elem_of_app; by left|].
      assert (Hnj : node_id_or_empty n = j) by (unfold node_id_or_empty; by rewrite Hj).
      assert (Hjl : j ∈ node_ids l) by (apply elem_of_node_ids; eauto).
      pose proof Hnd as Hnd0. apply NoDup_app in Hnd as (Hndl & Hdis & _).
      eapply visited_later; [exact Hv| | |by eapply IH].
      + rewrite Hnj, Hmi. intros ->. apply (Hdis i Hjl). by left.
      + intros e He Ht Hs. rewrite Hmi in Hs. rewrite Hnj in Ht. specialize (Hdep e He). rewrite Hs, Ht in Hdep.
        apply list_elem_of_split in Hjl as (l1 & l2 & Hl12). rewrite Hl12, <- app_assoc in Hdep, Hnd0.
        apply before_split in Hdep; [|done]. apply (Hdis i); [|by left]. rewrite Hl12. apply elem_of_app. by left.
    - eapply visit_visited; [|exact Hv]. intros e He Ht Hs. specialize (Hdep e He). rewrite Hs, Ht, Hmi in Hdep.
      by apply before_irrefl in Hdep. }
  intros Hw. apply (Hpre order []); [by rewrite app_nil_r|done].
Qed.
End StaticWalk.

(** ** The registry and the graph the engine sees *)

Lemma plugins_by_id_keys (plugins : list PluginEntry) k p :
  dget k (plugins_by_id plugins) = Some p -> p ∈ plugins /\ plugin_id (plugin p) = k.
Proof.
  unfold plugins_by_id. induction plugins as [|q plugins IH] using rev_ind; [done|].
  rewrite foldl_app. cbn [foldl]. rewrite dget_dset. case_decide as Hk; intros Hp.
  - injection Hp as <-. split; [apply elem_of_app; right; by left|done].
  - destruct (IH Hp). split; [apply elem_of_app; by left|done].
Qed.

Lemma plugins_by_id_total (plugins : list PluginEntry) p :
  p ∈ plugins -> is_Some (dget (plugin_id (plugin p)) (plugins_by_id plugins)).
Proof.
  unfold plugins_by_id. induction plugins as [|q plugins IH] using rev_ind; [by intros ?%not_elem_of_nil|].
  rewrite foldl_app. cbn [foldl]. rewrite dget_dset. intros [Hp| ->%list_elem_of_singleton]%elem_of_app.
  - case_decide; [by eexists|]. by apply IH.
  - rewrite decide_True by done. by eexists.
Qed.

(** A step as the editor stores it: an id, and a kind that is a string. *)
Definition canvas_step (n : node) : Prop :=
  exists i k, node_id n = Some i /\ i ≠ "" /\ node_kind n = Some (JStr k) /\ k ≠ "".

Section Agreement.
Context (registry : list PluginDefinition) (plugins : list PluginEntry).
Hypothesis same_registry : plugin <$> plugins = registry.
Hypothesis unique_ids : validate_unique_plugins registry = Ok tt.

Lemma entry_get_plugin k p :
  dget k (plugins_by_id plugins) = Some p -> enabled (plugin p) = true -> get_plugin registry k false = Some (plugin p).
Proof.
  intros [Hp Hk]%plugins_by_id_keys He. apply get_plugin_unique; [done| |done|by right].
  rewrite <- same_registry. apply list_elem_of_fmap. by exists p.
Qed.

Lemma get_plugin_entry k q :
  get_plugin registry k false = Some q -> exists p, dget k (plugins_by_id plugins) = Some p /\ plugin p = q.
Proof.
  intros Hq. pose proof (get_plugin_spec _ _ _ _ Hq) as (Hin & Hid & [?|Hen]); [done|].
  rewrite <- same_registry in Hin. apply list_elem_of_fmap in Hin as (p & -> & Hp).
  destruct (plugins_by_id_total plugins p Hp) as [p' Hp']. rewrite Hid in Hp'. exists p'. split; [done|].
  pose proof (plugins_by_id_keys _ _ _ Hp') as [Hin' Hid'].
  assert (Hg : get_plugin registry k true = Some (plugin p')).
  { apply get_plugin_unique; [done| |done|by left]. rewrite <- same_registry. apply list_elem_of_fmap. by exists p'. }
  assert (Hg' : get_plugin registry k true = Some (plugin p)).
  { apply get_plugin_unique; [done| |done|by left]. rewrite <- same_registry. apply list_elem_of_fmap. by exists p. }
  congruence.
Qed.

(** The steps on the canvas are of kinds the engine still offers. *)
Definition kinds_enabled (ns : list node) : Prop :=
  forall n p, n ∈ ns -> p ∈ registry -> node_kind n = Some (JStr (plugin_id p)) -> enabled p = true.

Lemma validator_executable_agrees ns n :
  kinds_enabled ns -> n ∈ ns -> canvas_step n -> is_author_disabled n = false ->
  validator_executable plugins n = is_executable_node registry n.
Proof.
  intros Hen Hn (i & k & _ & _ & Hk & Hne) Hd. unfold validator_executable, is_executable_node. rewrite Hk, Hd.
  rewrite decide_False by done. cbn [truthy get_plugin_of_kind].
  replace (String.eqb k "") with false by (by destruct (String.eqb_spec k "")). cbn [negb].
  destruct (dget k (plugins_by_id plugins)) as [p|] eqn:Hp.
  - rewrite (entry_get_plugin k p Hp); [done|]. destruct (plugins_by_id_keys _ _ _ Hp) as [Hin Hid].
    apply (Hen n); [done| |by rewrite Hid]. rewrite <- same_registry. apply list_elem_of_fmap. by exists p.
  - destruct (get_plugin registry k false) as [q|] eqn:Hq; [|done].
    apply get_plugin_entry in Hq as (p & Hp' & _). congruence.
Qed.

Lemma executable_edges_within ids edges : "" ∉ ids -> executable_edges ids edges = edges_within ids edges.
Proof.
  intros Hne. unfold executable_edges, edges_within. apply list_filter_iff. intros e.
  rewrite andb_true_iff, !option_in_spec. unfold edge_source, edge_target.
  destruct (source e), (target e); naive_solver.
Qed.

(** The validator walks the graph the engine executes. *)
Lemma executable_graph_agrees ns es :
  Forall canvas_step ns -> kinds_enabled ns -> (forall n, n ∈ ns -> is_author_disabled n = false) ->
  executable_graph plugins ns es = filter_executable_graph registry ns es.
Proof.
  intros Hcs Hen Hd. rewrite Forall_forall in Hcs. unfold executable_graph, filter_executable_graph.
  assert (Hf : filter (fun n => validator_executable plugins n = true) ns = filter (fun n => is_executable_node registry n = true) ns).
  { apply filter_ext_in. intros n Hn. by rewrite (validator_executable_agrees ns) by auto. }
  rewrite Hf. f_equal. apply executable_edges_within. intros (n & Hn & Hi)%elem_of_node_ids.
  apply list_elem_of_filter in Hn as [_ Hn]. destruct (Hcs n Hn) as (i & k & Hi' & Hne & _). congruence.
Qed.
End Agreement.

(** ** Contexts that live up to a state *)

Definition conforms (S : CapabilityState) (d : DeviceContext) : Prop :=
  cs_capabilities S ⊆ capabilities d /\ forall k, k ∈ cs_parsed_keys S -> k ∈ dkeys (parsed d).
Definition context_conforms (S : CapabilityState) (c : WorkflowContext) : Prop :=
  forall i d, dget i (devices c) = Some d -> conforms S d.

Definition below (a b : CapabilityState) : Prop :=
  cs_capabilities a ⊆ cs_capabilities b /\ cs_parsed_keys a ⊆ cs_parsed_keys b.

#[export] Instance below_preorder : PreOrder below.
Proof. split; unfold below; repeat intro; set_solver. Qed.

Lemma conforms_below S S' d : below S S' -> conforms S' d -> conforms S d.
Proof. intros [Hc Hk] [Hd1 Hd2]. split; set_solver. Qed.

(** The meet is below every state it meets. *)
Lemma intersect_below states s : s ∈ states -> below (intersect_capability_states states) s.
Proof.
  destruct states as [|s0 rest]; [by intros ?%not_elem_of_nil|]. cbn [intersect_capability_states].
  revert s0 s. induction rest as [|t rest IH]; intros s0 s; cbn [foldl].
  - by intros ->%list_elem_of_singleton.
  - assert (Hm : below (foldl meet (meet s0 t) rest) (meet s0 t)) by (apply IH; by left).
    intros [->|[->|Hs]%elem_of_cons]%elem_of_cons; [| |apply IH; by right];
      (etrans; [exact Hm|]); split; cbn; set_solver.
Qed.

(** A merge of contexts, each of which lives up to its own state, lives up to
    whatever all of the states guarantee. *)
Lemma merge_conforms now (cs : list WorkflowContext) (S : CapabilityState) m :
  Forall context_wf cs -> Forall (context_conforms S) cs -> cs ≠ [] ->
  merge_workflow_contexts now cs = Ok m -> context_wf m /\ context_conforms S m.
Proof.
  intros Hwf Hcf Hne Hm. pose proof (merge_workflow_contexts_spec now cs Hne Hwf) as Hs. rewrite Hm in Hs.
  destruct Hs as (Hwm & [Hview Hcap _ _] & _). split; [done|]. rewrite Forall_forall in Hcf. intros i d Hd.
  assert (Hsrc : exists c dc, c ∈ cs /\ dget i (devices c) = Some dc).
  { destruct (proj1 (Hview (P_device i) JNull)) as (c & Hc & Hv); [simpl; by rewrite Hd|].
    simpl in Hv. destruct (dget i (devices c)) as [dc|] eqn:Hdc; [|done]. eauto. }
  destruct Hsrc as (c & dc & Hc & Hdc). destruct (Hcf c Hc i dc Hdc) as [Hcaps Hkeys]. split.
  - intros cap Hin. assert (Hat : capability_at m i cap).
    { apply Hcap. exists c. split; [done|]. exists dc. auto. }
    destruct Hat as (d' & Hd' & Hin'). congruence.
  - intros k Hk. apply Hkeys, elem_of_dkeys in Hk as [v Hv].
    assert (Hv' : view m (P_parsed i k) = Some (normal v)).
    { apply Hview. exists c. split; [done|]. simpl. rewrite Hdc. simpl. by rewrite Hv. }
    simpl in Hv'. rewrite Hd in Hv'. simpl in Hv'. apply elem_of_dkeys. destruct (dget k (parsed d)); [by eexists|done].
Qed.

(** ** What a step hands on *)

Lemma outcomes_by_name_elem outs h c :
  dget h (outcomes_by_name outs) = Some c -> exists o, o ∈ outs /\ so_name o = h /\ so_context o = c.
Proof.
  unfold outcomes_by_name. induction outs as [|o outs IH] using rev_ind; [done|].
  rewrite foldl_app. cbn [foldl]. rewrite dget_dset. case_decide as Hh; intros Hc.
  - injection Hc as <-. exists o. split_and!; [apply elem_of_app; right; by left|done..].
  - destruct (IH Hc) as (o' & Ho' & ?). exists o'. split; [apply elem_of_app; by left|done].
Qed.

Lemma find_outcome_unique o outs : NoDup (so_name <$> outs) -> o ∈ outs -> find_outcome (so_name o) outs = Some o.
Proof.
  unfold find_outcome. induction outs as [|o' outs IH]; [by intros _ ?%not_elem_of_nil|]. rewrite fmap_cons, filter_cons.
  intros [Hn Hnd]%NoDup_cons [->|Ho]%elem_of_cons; [by rewrite decide_True|].
  rewrite decide_False; [by apply IH|]. intros Heq. apply Hn. rewrite Heq. by apply list_elem_of_fmap_2.
Qed.

(** Seeding the run inputs touches neither capabilities nor parsed keys. *)
Lemma seed_conforms inputs outs o S :
  dict_wf inputs -> o ∈ seed_run_inputs inputs outs ->
  exists o0, o0 ∈ outs /\ so_name o0 = so_name o /\
    (context_wf (so_context o0) -> context_wf (so_context o)) /\
    (context_conforms S (so_context o0) -> context_conforms S (so_context o)).
Proof.
  intros Hwf. unfold seed_run_inputs. destruct inputs as [|kv inputs]; [intros Ho; by exists o|].
  set (ri := kv :: inputs) in *. intros (o0 & -> & Ho)%list_elem_of_fmap. exists o0. split_and!; [done|done| |];
    cbn [so_context]; rewrite seed_run_input_bag_map by done.
  - assert (Hseed : forall d, device_wf d -> device_wf (seed_device ri d)).
    { intros d [Hb Hbag Hp Hc Hr]. unfold seed_device. destruct (has_run_input_bag d); [done|]. split; try done; cbn.
      - by apply dset_wf.
      - intros bag b. rewrite dget_dset. case_decide; [by intros [= <-]|apply Hbag]. }
    intros [Hd Hdev Hpend Hpn Hm]. split; cbn [set_devices devices pending_commands metadata]; try done.
    + unfold dict_wf, dkeys in *. by rewrite <- list_fmap_compose.
    + intros i d. rewrite dget_fmap. intros (d0 & Hd0 & ->)%fmap_Some. by apply Hseed, (Hdev i).
  - intros Hcf i d. cbn [set_devices devices]. rewrite dget_fmap. intros (d0 & Hd0 & ->)%fmap_Some.
    specialize (Hcf i d0 Hd0). unfold seed_device. by destruct (has_run_input_bag d0).
Qed.

(** The contract of a step's executor, beyond what [post_step_guard] checks on
    its success outcome: what it returns on input [c]. *)
Record honours (p : PluginEntry) (spec : StepCapabilitySpec) (config : dict json) (c : WorkflowContext)
    (outs : list StepOutcome) : Prop := {
  ho_wf o : o ∈ outs -> context_wf (so_context o);
  ho_names : NoDup (so_name <$> outs);
  (* a device that came in keeps what it had; consumed capabilities may go where the step did its work *)
  ho_keeps o i d before : o ∈ outs -> dget i (devices (so_context o)) = Some d -> dget i (devices c) = Some before ->
    (if is_failure_class_outcome (so_name o) then capabilities before else capabilities before ∖ spec_consumes spec)
      ⊆ capabilities d /\ dkeys (parsed before) ⊆ dkeys (parsed d);
  (* the declared [produces], where the guard does not look *)
  ho_produces o i d : o ∈ outs -> is_failure_class_outcome (so_name o) = false ->
    dget i (devices (so_context o)) = Some d -> (so_name o = "success" -> dget i (devices c) = None) ->
    effective_produces spec (plugin_id (plugin p)) config ⊆ capabilities d;
  ho_parsed o i d : o ∈ outs -> is_failure_class_outcome (so_name o) = false ->
    dget i (devices (so_context o)) = Some d -> produces_parsed p ⊆ dkeys (parsed d)
}.

(** A step with an input adds no devices of its own. *)
Definition introduces_none (c : WorkflowContext) (outs : list StepOutcome) : Prop :=
  forall o i, o ∈ outs -> is_Some (dget i (devices (so_context o))) -> is_Some (dget i (devices c)).

Definition outcome_guarantee (p : PluginEntry) (spec : StepCapabilitySpec) (config : dict json) (input : CapabilityState)
    (handle : string) : CapabilityState :=
  if is_failure_class_outcome handle then input else success_state p spec config input.

Lemma honours_conforms p spec config c outs input o :
  honours p spec config c outs -> o ∈ outs -> context_conforms input c ->
  post_step_guard spec c outs (Some (effective_produces spec (plugin_id (plugin p)) config)) = Ok tt ->
  input = EMPTY_CAPABILITY_STATE \/ introduces_none c outs ->
  context_conforms (outcome_guarantee p spec config input (so_name o)) (so_context o).
Proof.
  intros [Hwf Hnames Hkeeps Hprod Hparsed] Ho Hc Hpost Hnew i d Hd. unfold outcome_guarantee.
  assert (Hin : (exists before, dget i (devices c) = Some before /\ conforms input before) \/
                dget i (devices c) = None /\ input = EMPTY_CAPABILITY_STATE).
  { destruct (dget i (devices c)) as [b|] eqn:Hb; [left; exists b; split; [done|by apply (Hc i)]|]. right. split; [done|].
    destruct Hnew as [|Hnew]; [done|]. destruct (Hnew o i Ho) as [b ?]; [by eexists|congruence]. }
  assert (Hkept : (if is_failure_class_outcome (so_name o) then cs_capabilities input else cs_capabilities input ∖ spec_consumes spec)
            ⊆ capabilities d /\ forall k, k ∈ cs_parsed_keys input -> k ∈ dkeys (parsed d)).
  { destruct Hin as [(b & Hb & Hbc & Hbk)|[_ ->]].
    - destruct (Hkeeps o i d b Ho Hd Hb) as [Hk1 Hk2]. split; [destruct (is_failure_class_outcome (so_name o)); set_solver|].
      intros k Hk. by apply Hk2, Hbk.
    - cbn. split; [destruct (is_failure_class_outcome (so_name o)); set_solver|]. intros k ?. set_solver. }
  destruct (is_failure_class_outcome (so_name o)) eqn:Hf; [exact Hkept|]. destruct Hkept as [Hk1 Hk2].
  assert (Hpr : effective_produces spec (plugin_id (plugin p)) config ⊆ capabilities d).
  { destruct (decide (so_name o = "success")) as [Hs|Hs]; [|by eapply Hprod].
    destruct (dget i (devices c)) as [b|] eqn:Hb; [|by eapply Hprod].
    destruct (proj1 (post_step_guard_ok _ _ _ _) Hpost o) with i d b as (_ & Hp & _); [|by apply dget_Some_elem|done|done].
    rewrite <- Hs. by apply find_outcome_unique. }
  split; cbn [success_state cs_capabilities cs_parsed_keys].
  - apply union_subseteq. done.
  - intros k [Hk|Hk]%elem_of_union; [by apply Hk2|]. apply elem_of_list_to_set in Hk. by eapply Hparsed.
Qed.

(** ** Soundness: what the static walk guarantees, the run delivers *)

Section Planned.
Context (E : engine) (rid : nat) (row : WorkflowRun).

(** Only planned steps leave outcomes. *)
Lemma walk_waves_outcomes schedule env g edges k gens failed reported w i :
  (forall wave, interleaving wave (schedule wave)) -> i ∉ (node_id_or_empty <$> concat gens) ->
  w_outcomes (walk_waves E rid row schedule env g edges k gens failed reported w).2 !! i = w_outcomes w !! i.
Proof.
  intros Hsch. revert k failed reported w. induction gens as [|wave gens IH]; intros k failed reported w; [done|].
  cbn [concat]. rewrite fmap_app, elem_of_app. intros Hi. cbn [walk_waves].
  assert (Hskip : forall w0, w_outcomes (skip_wave rid wave w0) !! i = w_outcomes w0 !! i).
  { intros w0. by destruct (skip_wave_flow rid wave w0) as (<- & _). }
  assert (Hact : w_outcomes (foldl (act E rid row edges) (interfere env k w) (schedule wave)) !! i = w_outcomes w !! i).
  { change (w_outcomes w) with (w_outcomes (interfere env k w)). symmetry.
    apply (fr_outcomes rid (node_id_or_empty <$> wave)); [|tauto].
    apply acts_frame. intros a Ha. by eapply interleaving_ids. }
  destruct (failed || run_cancelled rid (w_db (interfere env k w))); [rewrite IH by tauto; etrans; [apply Hskip|done]|].
  destruct (wave_flags wave _) as [[[] rep]|e]; [rewrite IH by tauto; exact Hact| |exact Hact].
  destruct (match g with Some _ => _ | None => _ end) as [[|]|]; [exact Hact|rewrite IH by tauto; exact Hact|exact Hact].
Qed.

Lemma execute_all_outcomes schedule env cn ce db ns es plan i :
  (forall wave, interleaving wave (schedule wave)) ->
  load_execution_graph cn ce = Ok (ns, es) -> topological_sort (registry E) ns es = Ok plan ->
  i ∉ node_ids plan -> w_outcomes (execute_all E rid row schedule env cn ce db).2 !! i = None.
Proof.
  intros Hsch Hload Hsort Hi. destruct (execute_all_cases E rid row schedule env cn ce db) as [(e & db' & ->)|Hout]; [done|].
  destruct Hout as (ns' & es' & plan' & gens & db' & Hload' & _ & Hsort' & _ & Hgen & ->).
  rewrite Hload in Hload'. injection Hload' as <- <-. rewrite Hsort in Hsort'. injection Hsort' as <-.
  apply topological_sort_valid in Hsort. destruct (generations_stratified plan es gens Hsort Hgen) as [_ Hperm].
  rewrite walk_waves_outcomes; [done|done|]. rewrite Hperm, node_ids_total; [done|]. apply (vo_ids _ _ Hsort).
Qed.
End Planned.

Lemma node_of_id (l : list node) n m i :
  NoDup (node_ids l) -> n ∈ l -> m ∈ l -> node_id n = Some i -> node_id m = Some i -> n = m.
Proof.
  induction l as [|x l IH]; [by intros _ ?%not_elem_of_nil|]. unfold node_ids. cbn [omap list_omap].
  intros Hnd Hn Hm Hi Hj.
  assert (Hin : forall y, y ∈ l -> node_id y = Some i -> i ∈ node_ids l) by (intros y ? ?; apply elem_of_node_ids; eauto).
  apply elem_of_cons in Hn as [->|Hn], Hm as [->|Hm]; [done| | |].
  - rewrite Hi in Hnd. apply NoDup_cons in Hnd as [Hx _]. exfalso. by apply Hx, (Hin m).
  - rewrite Hj in Hnd. apply NoDup_cons in Hnd as [Hx _]. exfalso. by apply Hx, (Hin n).
  - apply IH; [|done..]. destruct (node_id x); [by apply NoDup_cons in Hnd as [_ ?]|done].
Qed.

Section Soundness.
Context (E : engine) (row : WorkflowRun) (plugins : list PluginEntry).
Context (es xes : list edge) (plan : list node) (st : outcome_states) (fs : list ValidationFinding) (w : walk).
Abbreviation nid := node_id_or_empty.

(** The executor of a step of the canvas, on an input the guard lets through,
    honours the contract of its plugin. *)
Definition step_honours (edges : list edge) (n : node) : Prop :=
  forall executor p spec c outs,
    STEP_REGISTRY E (node_type n) = Some executor -> entry_of plugins n = Some p ->
    capability_spec_from_plugin (plugin p) = Ok spec -> context_wf c -> pre_step_guard spec c = Ok tt ->
    executor (node_config n) c (nid n) = Ok outs ->
    honours p spec (node_config n) c outs /\ (parent_edges (nid n) edges ≠ [] -> introduces_none c outs).

(** What a step has handed on lives up to the states of its outcomes. *)
Definition delivered (n : node) : Prop :=
  forall named, w_outcomes w !! nid n = Some named ->
  exists p, entry_of plugins n = Some p /\ forall h c, dget h named = Some c ->
    context_wf c /\ (h ∈ handle_names xes (nid n) p -> exists S, st !! (nid n, h) = Some S /\ context_conforms S c).

Hypothesis registry_agrees : plugin <$> plugins = registry E.
Hypothesis registry_unique : validate_unique_plugins (registry E) = Ok tt.
Hypothesis inputs_wf : dict_wf (run_inputs row).
Hypothesis plan_steps : forall n, n ∈ plan -> canvas_step n.
Hypothesis plan_honours : forall n, n ∈ plan -> step_honours es n.
Hypothesis plan_visited : forall n, n ∈ plan -> visited plugins xes st fs n.
Hypothesis plan_flowed : forall n, n ∈ plan -> flowed E row es n w \/ idle (nid n) w.
Hypothesis plan_outcomes : forall i, i ∉ node_ids plan -> w_outcomes w !! i = None.
Hypothesis xes_within : xes = edges_within (node_ids plan) es.

Lemma plan_node_id n : n ∈ plan -> node_id n = Some (nid n) /\ nid n ≠ "" /\ nid n ∈ node_ids plan.
Proof.
  intros Hn. destruct (plan_steps n Hn) as (i & k & Hi & Hne & _). unfold node_id_or_empty. rewrite Hi. cbn.
  split_and!; [done|done|]. apply elem_of_node_ids. eauto.
Qed.

(** The input a step is handed lives up to its static input state. *)
Lemma input_conforms n c :
  n ∈ plan -> (forall m, m ∈ plan -> (exists e, e ∈ xes /\ edge_source e = nid m /\ edge_target e = nid n) -> delivered m) ->
  assemble_input_context E row (nid n) es (w_outcomes w) = Ok c ->
  context_wf c /\ context_conforms (input_state xes st (nid n)) c.
Proof.
  intros Hn Hpar. destruct (plan_node_id n Hn) as (_ & _ & Hnid). unfold assemble_input_context.
  assert (Hall : forall cx, cx ∈ parent_contexts (nid n) es (w_outcomes w) ->
    context_wf cx /\ context_conforms (input_state xes st (nid n)) cx).
  { intros cx (e & [Ht He]%list_elem_of_filter & Hcx)%list_elem_of_omap.
    destruct (w_outcomes w !! edge_source e) as [named|] eqn:Hnamed; [|done]. cbn in Hcx.
    assert (Hsrc : edge_source e ∈ node_ids plan).
    { destruct (decide (edge_source e ∈ node_ids plan)); [done|]. rewrite plan_outcomes in Hnamed; done. }
    assert (Htgt : edge_target e = nid n) by (unfold edge_target; by rewrite Ht).
    assert (Hx : e ∈ xes).
    { rewrite xes_within. apply list_elem_of_filter. split; [|done]. by rewrite Htgt. }
    apply elem_of_node_ids in Hsrc as (m & Hm & Hmi). destruct (plan_node_id m Hm) as (Hmid & Hmne & _).
    assert (Hms : edge_source e = nid m) by congruence.
    rewrite Hms in Hnamed. destruct (Hpar m Hm) with named as (p & Hp & Hdel); [by exists e|done|].
    destruct (Hdel _ _ Hcx) as [Hwf Hst]. split; [done|].
    assert (Hh : handle_or_success e ∈ handle_names xes (nid m) p).
    { unfold handle_names. assert (Hin : handle_or_success e ∈ handle_or_success <$> filter (fun e => source e = Some (nid m)) xes).
      { apply list_elem_of_fmap_2, list_elem_of_filter. split; [|done]. unfold edge_source in Hms. destruct (source e); naive_solver. }
      destruct (outcome_names p ++ _) as [|h0 hs] eqn:Hl; [|rewrite <- Hl; apply elem_of_app; by right].
      apply app_eq_nil in Hl as [_ Hl]. rewrite Hl in Hin. by apply not_elem_of_nil in Hin. }
    destruct (Hst Hh) as (S & HS & Hconf). intros i d Hd. apply (conforms_below _ S); [|by apply (Hconf i)].
    apply intersect_below. apply list_elem_of_fmap. exists e. split; [by rewrite Hms, HS|].
    apply list_elem_of_filter. done. }
  destruct (parent_contexts (nid n) es (w_outcomes w)) as [|c0 cs] eqn:Hcs.
  - intros [= <-]. split; [split; cbn; by (apply dict_wf_nil || done)|]. intros i d. by cbn.
  - intros Hm. eapply merge_conforms; [| | |exact Hm]; [| |done]; apply Forall_forall; intros cx Hcx; by apply Hall.
Qed.

Lemma execute_step_inv step_type config c i outs :
  execute_step E step_type config c i = Ok outs ->
  exists executor q spec, STEP_REGISTRY E step_type = Some executor /\ get_plugin (registry E) step_type false = Some q /\
    capability_spec_from_plugin q = Ok spec /\ pre_step_guard spec c = Ok tt /\ executor config c i = Ok outs /\
    post_step_guard spec c outs (Some (effective_produces spec step_type config)) = Ok tt.
Proof.
  unfold execute_step. destruct (STEP_REGISTRY E step_type) as [executor|]; [|done].
  destruct (get_plugin (registry E) step_type false) as [q|]; [|done]. intros He. res_inv.
  destruct x1 as [|o outs']; [done|]. res_inv. repeat match goal with u : unit |- _ => destruct u end. exists executor, q, x. done.
Qed.

Lemma node_type_kind n : n ∈ plan -> node_kind n = Some (JStr (node_type n)) /\
  entry_of plugins n = dget (node_type n) (plugins_by_id plugins).
Proof.
  intros Hn. destruct (plan_steps n Hn) as (i & k & _ & _ & Hk & _). unfold entry_of, node_type. unfold node_kind in *.
  by rewrite Hk.
Qed.

Lemma step_delivered n :
  n ∈ plan -> (forall m, m ∈ plan -> (exists e, e ∈ xes /\ edge_source e = nid m /\ edge_target e = nid n) -> delivered m) ->
  delivered n.
Proof.
  intros Hn Hpar named Hnamed. destruct (plan_flowed n Hn) as [(r & _ & Hcase)|(_ & _ & Hnone & _)]; [|congruence].
  destruct (gate E es n w) as [[]|]; [naive_solver congruence| |naive_solver congruence].
  destruct Hcase as (_ & _ & Hcase). destruct (run_executor E row n (nid n) es (w_outcomes w)) as [outs'|] eqn:Hrun; [|naive_solver congruence].
  destruct Hcase as [Hout _]. rewrite Hnamed in Hout. injection Hout as ->.
  unfold run_executor in Hrun. apply res_bind_Ok in Hrun as (c & Hc & Hrun). apply res_bind_Ok in Hrun as (outs & Hex & Hseed).
  injection Hseed as <-. destruct (input_conforms n c Hn Hpar Hc) as [Hcwf Hccf].
  destruct (execute_step_inv _ _ _ _ _ Hex) as (executor & q & spec & Hreg & Hq & Hspec & Hpre & Hrun & Hpost).
  destruct (get_plugin_entry (registry E) plugins registry_agrees registry_unique _ _ Hq) as (p & Hp & <-).
  destruct (node_type_kind n Hn) as [_ Hentry]. rewrite <- Hentry in Hp. exists p. split; [done|]. intros h cx Hcx.
  assert (Hid : plugin_id (plugin p) = node_type n) by (rewrite Hentry in Hp; by apply plugins_by_id_keys in Hp as [_ ?]).
  destruct (plan_honours n Hn executor p spec c outs Hreg Hp Hspec Hcwf Hpre Hrun) as [Hhon Hnew].
  apply outcomes_by_name_elem in Hcx as (o & Ho & <- & <-).
  destruct (plan_visited n Hn p Hp) as (spec' & Hspec' & Hst & _). rewrite Hspec in Hspec'. injection Hspec' as <-.
  set (input := input_state xes st (nid n)) in *.
  destruct (seed_conforms (run_inputs row) outs o (outcome_guarantee p spec (node_config n) input (so_name o)) inputs_wf Ho)
    as (o0 & Ho0 & Hname & Hwf & Hcf).
  split; [by apply Hwf, (ho_wf _ _ _ _ _ Hhon)|]. intros Hh. eexists. split; [by apply Hst|]. apply Hcf.
  rewrite <- Hname. apply (honours_conforms p spec (node_config n) c outs); [done|done|done|by rewrite Hid|].
  destruct (decide (parent_edges (nid n) es = [])) as [Hnil|Hne]; [left|right; by apply Hnew].
  unfold input, input_state. replace (incoming xes (nid n)) with (@nil edge); [done|]. symmetry. apply filter_none.
  intros e He Ht. apply (not_elem_of_nil e). rewrite <- Hnil. apply list_elem_of_filter. destruct (plan_node_id n Hn) as (_ & Hne & _).
  rewrite xes_within in He. apply list_elem_of_filter in He as [_ He]. split; [|done].
  unfold edge_target in Ht. destruct (target e); cbn in Ht; congruence.
Qed.

Lemma all_delivered : valid_order plan es -> forall n, n ∈ plan -> delivered n.
Proof.
  intros Hv.
  assert (Hpre : forall l r, plan = l ++ r -> forall n, n ∈ l -> delivered n).
  { induction l as [|m l IH] using rev_ind; intros r Heq n Hn; [by apply not_elem_of_nil in Hn|].
    rewrite <- app_assoc in Heq. cbn [app] in Heq.
    apply elem_of_app in Hn as [Hn| ->%list_elem_of_singleton]; [by eapply IH|].
    assert (Hm : m ∈ plan) by (rewrite Heq; apply elem_of_app; right; by left).
    apply step_delivered; [done|]. intros u Hu (e & He & Hs & Ht). apply (IH _ Heq).
    destruct (plan_node_id u Hu) as (Hui & _ & Huin), (plan_node_id m Hm) as (Hmi & _ & Hmin).
    assert (Hb : before (node_ids plan) (nid u) (nid m)).
    { apply (vo_forward _ _ Hv). split_and!; [done|done|]. exists e. rewrite xes_within in He. apply list_elem_of_filter in He as [_ He]. done. }
    assert (Hsplit : node_ids plan = node_ids l ++ nid m :: node_ids r) by (rewrite Heq; unfold node_ids; rewrite omap_app; simpl; by rewrite Hmi).
    pose proof (vo_nodup _ _ Hv) as Hnd. rewrite Hsplit in Hb, Hnd. apply before_split in Hb; [|done].
    apply elem_of_node_ids in Hb as (u' & Hu' & Hu'i).
    replace u with u'; [done|]. apply (node_of_id plan u' u (nid u)); [apply Hv| |done|done|done].
    rewrite Heq. apply elem_of_app. by left. }
  intros n. apply (Hpre plan []). by rewrite app_nil_r.
Qed.
End Soundness.

Lemma load_drops_disabled cn ce ns es n :
  load_execution_graph cn ce = Ok (ns, es) -> n ∈ ns -> is_Some (node_id n) -> is_author_disabled n = false.
Proof.
  intros ([n1 e1] & _ & Hstop)%load_execution_graph_inv Hn [i Hi]. cbn [fst snd] in Hstop.
  assert (Hn' : n ∈ (resolve_disabled_steps n1 e1).1).
  { apply stop_here_sublist with (resolve_disabled_steps n1 e1).2. by rewrite Hstop. }
  rewrite resolve_disabled_nodes in Hn'. apply list_elem_of_filter in Hn' as [Hdrop Hn'].
  destruct (is_author_disabled n) eqn:Hd; [|done]. exfalso. rewrite Hi in Hdrop. cbn in Hdrop. apply bool_decide_eq_false in Hdrop.
  apply Hdrop, elem_of_ids_where. by exists n.
Qed.

(** The walk's findings, read against a run. *)
Lemma static_check_sound E rid row plugins schedule env cn ce db ns es plan fs :
  (forall wave, interleaving wave (schedule wave)) ->
  plugin <$> plugins = registry E -> validate_unique_plugins (registry E) = Ok tt -> dict_wf (run_inputs row) ->
  load_execution_graph cn ce = Ok (ns, es) -> topological_sort (registry E) ns es = Ok plan ->
  Forall canvas_step ns -> kinds_enabled (registry E) ns ->
  (forall n, n ∈ plan -> step_honours E plugins es n) ->
  tier3_capability_flow plugins cn ce = Ok fs ->
  let w := (execute_all E rid row schedule env cn ce db).2 in
  (exists st, capability_walk plugins plan (edges_within (node_ids plan) es) = Ok (st, fs) /\
     forall n, n ∈ plan -> delivered plugins (edges_within (node_ids plan) es) st w n) /\
  (forall n c p spec e, n ∈ plan -> assemble_input_context E row (node_id_or_empty n) es (w_outcomes w) = Ok c ->
     get_plugin (registry E) (node_type n) false = Some p -> capability_spec_from_plugin p = Ok spec ->
     pre_step_guard spec c = Raise e ->
     exists f, f ∈ fs /\ vf_node_id f = Some (node_id_or_empty n) /\ tier f = 3 /\ severity f = SEV_error).
Proof.
  intros Hsch Hreg Huniq Hinp Hload Hsort Hcs Hen Hhon Hflow w.
  assert (Hcs' : forall n, n ∈ ns -> canvas_step n) by (by rewrite Forall_forall in Hcs).
  pose proof (topological_sort_sound _ _ _ _ Hsort) as (_ & Hplan & Hids & _).
  pose proof (topological_sort_valid _ _ _ _ Hsort) as Hvalid.
  unfold tier3_capability_flow in Hflow. rewrite Hload in Hflow.
  rewrite (executable_graph_agrees (registry E) plugins Hreg Huniq ns es Hcs Hen) in Hflow.
  2:{ intros n Hn. apply (load_drops_disabled cn ce ns es); [done|done|]. destruct (Hcs' n Hn) as (i & _ & -> & _). by eexists. }
  unfold topological_sort in Hsort. rewrite Hsort in Hflow. apply res_bind_Ok in Hflow as ([st fs'] & Hwalk & [= <-]).
  cbn [fst snd] in *.
  assert (Hx : (filter_executable_graph (registry E) ns es).2 = edges_within (node_ids plan) es).
  { unfold filter_executable_graph, edges_within. cbn [snd]. apply list_filter_iff. intros e. rewrite !Hids. done. }
  rewrite Hx in Hwalk. set (xes := edges_within (node_ids plan) es) in *.
  assert (Hvisited : forall n, n ∈ plan -> visited plugins xes st fs' n).
  { apply (capability_walk_visited plugins xes plan); [|by intros e [? _]%list_elem_of_filter|done].
    destruct Hvalid as [V1 V2 V3]. split; [done|done|]. intros u v Huv. apply V3.
    destruct Huv as (Hu & Hv & e & [_ He]%list_elem_of_filter & ?). split_and!; [done|done|by exists e]. }
  assert (Hflowed : forall n, n ∈ plan -> flowed E row es n w \/ idle (node_id_or_empty n) w).
  { pose proof (topological_generations_spec plan es Hvalid) as (gens & Hgens & _).
    apply (walk_dataflow E rid row schedule env cn ce db ns es plan gens Hsch Hload Hsort Hgens). }
  assert (Hsteps : forall n, n ∈ plan -> canvas_step n) by (intros n [Hn _]%Hplan; by apply Hcs').
  assert (Hout : forall i, i ∉ node_ids plan -> w_outcomes w !! i = None).
  { intros i Hi. by apply (execute_all_outcomes E rid row schedule env cn ce db ns es plan). }
  pose proof (all_delivered E row plugins es xes plan st fs' w Hreg Huniq Hinp Hsteps Hhon Hvisited Hflowed Hout eq_refl Hvalid) as Hdel.
  split; [by exists st|]. intros n c q spec e Hn Hc Hq Hspec Hpre.
  destruct (get_plugin_entry (registry E) plugins Hreg Huniq _ _ Hq) as (p & Hp & <-).
  destruct (node_type_kind plugins plan Hsteps n Hn) as [_ Hentry]. rewrite <- Hentry in Hp.
  destruct (Hvisited n Hn p Hp) as (spec' & Hspec' & _ & [[Hreq Hkeys]|Hf]); [|done].
  rewrite Hspec in Hspec'. injection Hspec' as <-. exfalso.
  destruct (input_conforms E row plugins es xes plan st w Hsteps Hout eq_refl n c Hn (fun m Hm _ => Hdel m Hm) Hc) as [Hcwf Hccf].
  assert (Hok : pre_step_guard spec c = Ok tt); [|congruence]. apply pre_step_guard_ok. intros i d Hd.
  apply elem_dget_Some in Hd; [|by apply cw_devices]. destruct (Hccf i d Hd) as [H1 H2]. set_solver.
Qed.


(** ** A canvas the check rejects, and the run that starves

    [inv -> cmp]: [cmp] compares running configurations nobody fetched. *)
Definition demo_plugins : list PluginEntry :=
  [Entry (Plugin "get-devices" true true [] ["identity"] [] []) "Get devices" ["success"] [] [];
   Entry (Plugin "compare" true true ["identity"; "running_config"] [] [] []) "Compare" ["success"; "failure"] [] []].
Definition demo_inventory (config : dict json) (c : WorkflowContext) (node_id : string) : res (list StepOutcome) :=
  match devices c with [] => Ok [Outcome "success" (sample_run_context OK) None None] | _ => Raise (ValueError "has an input" []) end.
Definition demo_compare (config : dict json) (c : WorkflowContext) (node_id : string) : res (list StepOutcome) :=
  Ok [Outcome "success" c None None].
Definition demo_flow_engine : engine := {|
  registry := plugin <$> demo_plugins;
  STEP_REGISTRY := fun t => if String.eqb t "get-devices" then Some demo_inventory
                            else if String.eqb t "compare" then Some demo_compare else None;
  exn_text := fun _ => "starved"; carried_failure := fun _ => None; exn_class := fun _ => "ValueError";
  new_error_id := fun i => i; known_secrets := fun _ => []; float_len := fun _ _ => 3;
  step_output_value_max_bytes := 1000; step_output_max_bytes := 4000; clock := 5%Z; now_iso := "now" |}.
Definition demo_flow_nodes : list node := [mk_node "inv" "get-devices"; mk_node "cmp" "compare"].
Definition demo_flow_edges : list edge := [mk_edge "inv" "cmp"].

Lemma sample_run_context_wf st : context_wf (sample_run_context st).
Proof.
  split; cbn; try apply dict_wf_nil; try done; [apply NoDup_singleton|]. intros i d.
  case_decide; [|done]. intros [= <-]. split; cbn; try apply dict_wf_nil. done.
Qed.

(** The specs of the two plugins. *)
Definition demo_inventory_spec : StepCapabilitySpec := Spec "get-devices" ∅ ({[IDENTITY]} ∪ ∅) ∅ ∅.
Definition demo_compare_spec : StepCapabilitySpec := Spec "compare" ({[RUNNING_CONFIG]} ∪ ({[IDENTITY]} ∪ ∅)) ∅ ∅ ∅.

Lemma demo_specs : (fun p => capability_spec_from_plugin (plugin p)) <$> demo_plugins = [Ok demo_inventory_spec; Ok demo_compare_spec].
Proof. reflexivity. Qed.

(** The inventory step honours its contract wherever it is a first step. *)
Lemma demo_inventory_honours E plugins edges n p :
  STEP_REGISTRY E (node_type n) = Some demo_inventory -> entry_of plugins n = Some p ->
  capability_spec_from_plugin (plugin p) = Ok demo_inventory_spec -> produces_parsed p = [] -> plugin_id (plugin p) = "get-devices" ->
  parent_edges (node_id_or_empty n) edges = [] -> step_honours E plugins edges n.
Proof.
  intros Hex Hp Hspec Hparsed Hid Hpar executor p' spec c outs Hex' Hp' Hspec' Hc _ Hrun.
  rewrite Hex in Hex'. injection Hex' as <-. rewrite Hp in Hp'. injection Hp' as <-. rewrite Hspec in Hspec'. injection Hspec' as <-.
  unfold demo_inventory in Hrun. destruct (devices c) eqn:Hd; [|done]. injection Hrun as <-. split; [|done]. split.
  - intros o ->%list_elem_of_singleton. apply sample_run_context_wf.
  - apply NoDup_singleton.
  - intros o i d before _ _. by rewrite Hd.
  - intros o i d ->%list_elem_of_singleton _. cbn [so_context sample_run_context devices dget].
    case_decide; [|done]. intros [= <-] _. change (capabilities (sample_run_device OK)) with ({[IDENTITY]} : gset Capability).
    rewrite Hid. change ({[IDENTITY]} ∪ ∅ ⊆@{gset Capability} {[IDENTITY]}). set_solver.
  - intros o i d _ _ _. rewrite Hparsed. apply list_subseteq_nil.
Qed.

Lemma demo_honours n : n ∈ demo_flow_nodes -> step_honours demo_flow_engine demo_plugins demo_flow_edges n.
Proof.
  intros [->|[->|?%not_elem_of_nil]%elem_of_cons]%elem_of_cons; [|intros executor p spec c outs Hex Hp Hspec Hc _ Hrun|done].
  - by apply (demo_inventory_honours _ _ _ _ (Entry (Plugin "get-devices" true true [] ["identity"] [] []) "Get devices" ["success"] [] [])).
  - vm_compute in Hp; injection Hp as <-. cbn in Hex; injection Hex as <-. injection Hrun as <-. split; [split|].
    + by intros o ->%list_elem_of_singleton.
    + apply NoDup_singleton.
    + intros o i d before ->%list_elem_of_singleton Hd Hb. cbn [so_context] in Hd. rewrite Hd in Hb. injection Hb as ->.
      split; [|done]. change (capabilities before ∖ spec_consumes spec ⊆ capabilities before). set_solver.
    + intros o i d _ _ _ _. change (Ok demo_compare_spec = Ok spec) in Hspec. injection Hspec as <-.
      change (∅ ⊆ capabilities d). set_solver.
    + intros o i d _ _ _. apply list_subseteq_nil.
    + intros _ o i ->%list_elem_of_singleton. done.
Qed.

Definition demo_flow_run : res walk_result * walk :=
  execute_all demo_flow_engine 1 sample_row in_order silent demo_flow_nodes demo_flow_edges sample_tables.

