(* ===== verification/Subgraph.v ===== *)
(** * Fan-out children ([step_runner/subgraph.py], [step_runner/progress.py],
    [hatchet/workflows/device_group_execution.py])

    A child runs the branch below the inventory step for its own group of
    devices.  It writes no step rows: it reports what its nodes do on its device
    group's row and returns the outcomes to the parent.  The walk reuses the
    runner's primitives ([run_executor], [step_requires_devices],
    [blocked_by_upstream_failure]); its concurrency is modelled as there: a wave
    runs as any interleaving of [Start] and [Finish] stretches, and [env k] is
    what other processes wrote before the [k]-th wave.

    The secrets registered when the child ends, and the id of a failing group,
    are those [engine] gives for the start node.  [validate] is pydantic's
    [WorkflowContext.model_validate].  A child is always given the sink
    [DeviceGroupProgressSink]. *)
From stdpp Require Import gmultiset pretty.
From S2P Require Import Prelude Dict Json Registry Graph GraphResolution Context Merge Guards RunStore Secrets RunInputs StepRunner.

(** [core/models/workflows.py], the columns the engine reads *)
Record workflow := WorkflowRow {
  visibility : string;
  creator_id : option nat;
  static_attributes : list StaticAttributeDef;
  canvas_nodes : list node;
  canvas_edges : list edge
}.

(** An entry of [step_errors] *)
Record step_error := StepError {
  err_message : string; err_category : string; err_error_id : string; err_failure : option json
}.

Definition step_status_value (s : step_status) : string :=
  match s with
  | S_pending => "pending" | S_running => "running" | S_success => "success"
  | S_partial => "partial" | S_failed => "failed" | S_skipped => "skipped"
  end.

Inductive child_phase := C_executing | C_ended | C_crashed (e : exn).

Record child := Child {
  c_db : tables;
  c_outcomes : outcome_map;
  c_errors : gmap string step_error;
  c_blocked : gset string;
  c_states : gmap string string;         (* the sink's [_states] *)
  c_phase : gmap string child_phase;
  c_attempts : gmultiset string          (* the steps handed to an executor *)
}.

(** [DeviceGroupProgressSink.overall_status] *)
Definition overall_status (states : gmap string string) : group_status :=
  let values := (map_to_list states).*2 in
  if decide ("failed" ∈ values) then G_failed
  else if decide ("partial" ∈ values) then G_partial
  else G_success.

Section Child.
Context (E : engine) (rid child_index : nat) (row : WorkflowRun).

(** [report_node_started], [report_node_finished] through the sink's [_set] *)
Definition report (node_id state : string) (c : child) : child :=
  Child (set_device_group_node_state rid child_index node_id state (c_db c)) (c_outcomes c) (c_errors c) (c_blocked c)
    (<[node_id := state]> (c_states c)) (c_phase c) (c_attempts c).

Definition child_set_phase (node_id : string) (p : child_phase) (c : child) : child :=
  Child (c_db c) (c_outcomes c) (c_errors c) (c_blocked c) (c_states c) (<[node_id := p]> (c_phase c)) (c_attempts c).
Definition child_block (node_id : string) (c : child) : child :=
  Child (c_db c) (c_outcomes c) (c_errors c) ({[node_id]} ∪ c_blocked c) (c_states c) (c_phase c) (c_attempts c).
Definition child_attempt (node_id : string) (c : child) : child :=
  Child (c_db c) (c_outcomes c) (c_errors c) (c_blocked c) (c_states c) (c_phase c) ({[+ node_id +]} ⊎ c_attempts c).
Definition child_set_outcomes (node_id : string) (outcomes : list StepOutcome) (c : child) : child :=
  Child (c_db c) (store_step_outcomes (c_outcomes c) node_id outcomes) (c_errors c) (c_blocked c) (c_states c) (c_phase c) (c_attempts c).
Definition child_set_error (node_id : string) (e : step_error) (c : child) : child :=
  Child (c_db c) (c_outcomes c) (<[node_id := e]> (c_errors c)) (c_blocked c) (c_states c) (c_phase c) (c_attempts c).

Definition scrub_message (node_id message : string) : string :=
  match known_secrets E node_id with [] => message | known => scrub_string message (longest_first known) end.

(** [_record_subgraph_node_error] *)
Definition subgraph_error (node_id : string) (e : exn) : step_error :=
  let (category, message) := classify_step_exception (exn_text E) e in
  StepError (truncate 4000 (scrub_message node_id message)) category (new_error_id E node_id)
    (failure_to_json <$> failure_for_step_exception E e category).

Definition record_subgraph_node_error (initial_context : WorkflowContext) (node_id : string) (e : exn) (c : child) : child :=
  child_set_outcomes node_id [Outcome "failure" initial_context None None] (child_set_error node_id (subgraph_error node_id e) c).

(** [_run_one_subgraph_node] with [_subgraph_node_blocked] and
    [_execute_one_subgraph_node], cut at the executor's await. *)
Definition child_start (edges : list edge) (n : node) (c : child) : child :=
  let nid := node_id_or_empty n in
  match step_requires_devices E (node_type n) with
  | Raise e => child_set_phase nid (C_crashed e) c
  | Ok requires_devices =>
      if requires_devices && blocked_by_upstream_failure nid edges (c_outcomes c) (c_blocked c)
      then child_set_phase nid C_ended (report nid "skipped" (child_block nid c))
      else child_set_phase nid C_executing (report nid "running" c)
  end.

Definition child_finish (initial_context : WorkflowContext) (edges : list edge) (n : node) (c : child) : child :=
  let nid := node_id_or_empty n in
  match c_phase c !! nid with
  | Some C_executing =>
      let c := child_attempt nid c in
      child_set_phase nid C_ended
        match run_executor E row n nid edges (c_outcomes c) with
        | Ok outcomes => report nid (step_status_value (derive_step_result_status outcomes)) (child_set_outcomes nid outcomes c)
        | Raise e => record_subgraph_node_error initial_context nid e (report nid "failed" c)
        end
  | _ => c
  end.

Definition child_act (initial_context : WorkflowContext) (edges : list edge) (c : child) (a : action) : child :=
  match a with Start n => child_start edges n c | Finish n => child_finish initial_context edges n c end.

(** [asyncio.gather] without [return_exceptions]: what a coroutine raised. *)
Definition crashed (wave : list node) (c : child) : option exn :=
  head (omap (fun n => match c_phase c !! node_id_or_empty n with Some (C_crashed e) => Some e | _ => None end) wave).

Definition child_skip_wave (wave : list node) (c : child) : child :=
  foldl (fun c n => report (node_id_or_empty n) "skipped" c) c wave.

Section Walk.
Context (schedule : list node -> list action) (env : nat -> list db_op).

Definition child_interfere (k : nat) (c : child) : child :=
  Child (exec_ops (env k) (c_db c)) (c_outcomes c) (c_errors c) (c_blocked c) (c_states c) (c_phase c) (c_attempts c).

(** The loop of [run_subgraph] *)
Fixpoint child_waves (initial_context : WorkflowContext) (edges : list edge) (k : nat) (generations : list (list node))
    (cancelled : bool) (c : child) : res unit * child :=
  match generations with
  | [] => (Ok tt, c)
  | wave :: rest =>
      let c := child_interfere k c in
      let step_errors := negb (bool_decide (c_errors c = ∅)) in
      let cancelled := if cancelled || step_errors then cancelled else run_cancelled rid (c_db c) in
      if step_errors || cancelled
      then child_waves initial_context edges (S k) rest cancelled (child_skip_wave wave c)
      else
        let c := foldl (child_act initial_context edges) c (schedule wave) in
        match crashed wave c with
        | Some e => (Raise e, c)
        | None => child_waves initial_context edges (S k) rest cancelled c
        end
  end.

Definition fresh_child (inventory_node_id : string) (initial_context : WorkflowContext) (db : tables) : child :=
  Child db {[inventory_node_id := [("success", initial_context)]]} ∅ ∅ ∅ ∅ ∅.

Definition run_subgraph (nodes : list node) (edges : list edge) (initial_context : WorkflowContext)
    (inventory_node_id : string) (allowed_node_ids : gset string) (db : tables) : res unit * child :=
  let c0 := fresh_child inventory_node_id initial_context db in
  match load_execution_graph nodes edges with
  | Raise e => (Raise e, c0)
  | Ok (nodes, edges) =>
      match topological_sort (registry E) nodes edges with
      | Raise e => (Raise e, c0)
      | Ok ordered_nodes =>
          let subgraph_nodes := filter (fun n => node_id_or_empty n ∈ allowed_node_ids) ordered_nodes in
          match topological_generations subgraph_nodes edges with
          | Raise e => (Raise e, c0)
          | Ok generations => child_waves initial_context edges 1 generations false c0
          end
      end
  end.
End Walk.
End Child.

(** ** [run_device_group] *)

Record DeviceGroupInput := GroupInput {
  parent_run : nat;
  context_json : json;
  start_node_id : string;
  child_index : nat;
  g_join_node_id : option string
}.

(** What a child returns: the errors under ["__step_errors__"], and the dumped
    outcomes of its nodes. *)
Record child_output := ChildOutput { co_errors : gmap string step_error; co_outcomes : gmap string (dict json) }.

Section Group.
Context (E : engine) (validate : json -> res WorkflowContext) (workflows : nat -> option workflow).
Context (schedule : list node -> list action) (env : nat -> list db_op).

(** The end of [_run_device_group] *)
Definition group_result (start : string) (c : child) : child_output :=
  let known := known_secrets E start in
  ChildOutput
    ((fun e => StepError (scrub_message E start (err_message e)) (err_category e) (err_error_id e) (err_failure e)) <$> c_errors c)
    (delete start ((fun outcomes : dict WorkflowContext => (fun kv => (kv.1, scrub_known_secrets known (dump kv.2))) <$> outcomes)
       <$> c_outcomes c)).

Definition group_status_of (c : child) : group_status :=
  if decide (c_errors c = ∅) then overall_status (c_states c) else G_failed.

Definition run_device_group_body (input : DeviceGroupInput) (db : tables) : res child_output * tables :=
  match runs db !! parent_run input with
  | None => (Raise (ValueError "DeviceGroupExecution: WorkflowRun {input.parent_run_id} not found" []), db)
  | Some row =>
      match workflows (run_workflow_id row) with
      | None => (Raise (ValueError "DeviceGroupExecution: Workflow {run.workflow_id} not found" []), db)
      | Some wf =>
          match validate (context_json input), load_execution_graph (canvas_nodes wf) (canvas_edges wf) with
          | Raise e, _ | _, Raise e => (Raise e, db)
          | Ok initial_context, Ok (nodes, edges) =>
              let allowed_ids := child_node_ids (start_node_id input) (g_join_node_id input) nodes edges in
              match run_subgraph E (parent_run input) (child_index input) row schedule env (canvas_nodes wf) (canvas_edges wf)
                      initial_context (start_node_id input) allowed_ids db with
              | (Raise e, c) => (Raise e, c_db c)
              | (Ok _, c) =>
                  (Ok (group_result (start_node_id input) c),
                   finish_device_group (clock E) (parent_run input) (child_index input) (group_status_of c) None (c_db c))
              end
          end
      end
  end.

Definition run_device_group (input : DeviceGroupInput) (db : tables) : res child_output * tables :=
  let db := mark_device_group_started (clock E) (parent_run input) (child_index input) db in
  match run_device_group_body input db with
  | (Ok result, db) => (Ok result, db)
  | (Raise e, db) =>
      (Raise e, finish_device_group (clock E) (parent_run input) (child_index input) G_failed
                  (Some ("The device group failed (" +:+ exn_class E e +:+ "); see the worker log, error id " +:+
                         new_error_id E (start_node_id input))) db)
  end.
End Group.

(** * Facts *)

Create HintDb subgraph.

(** ** The child's walk refines the runner's *)

Section Refinement.
Context (E : engine) (rid ix : nat) (row : WorkflowRun) (initial_context : WorkflowContext) (edges : list edge).
Implicit Types (c : child) (w : walk).

Abbreviation nid := node_id_or_empty.
Abbreviation act := (act E rid row edges).
Abbreviation child_act := (child_act E rid ix row initial_context edges).

(** Where a node is, in the child, in the walk, and whether it raised. *)
Definition phase_refines (p : option child_phase) (q : option phase) (e : option step_error) : Prop :=
  match p, q with
  | None, None => e = None
  | Some C_executing, Some Executing => e = None
  | Some (C_crashed x), Some (Done (Raise y)) => x = y /\ e = None
  | Some C_ended, Some (Done (Ok (raised, _))) => raised = bool_decide (is_Some e)
  | _, _ => False
  end.

(** The child looks like a walk of the runner: but where a step raised it
    holds the failure outcome that stands for it. *)
Record refines c w : Prop := {
  rf_runs : runs (c_db c) = runs (w_db w);
  rf_next : next_id (c_db c) = next_id (w_db w);
  rf_outcomes p : c_outcomes c !! p = if decide (c_errors c !! p = None) then w_outcomes w !! p else Some [("failure", initial_context)];
  rf_raised p : is_Some (c_errors c !! p) -> w_outcomes w !! p = None;
  rf_blocked : c_blocked c = w_blocked w;
  rf_phase i : phase_refines (c_phase c !! i) (w_phase w !! i) (c_errors c !! i);
  rf_attempts : c_attempts c = w_attempts w
}.

(** The child as a state of the runner, to read its outcomes and blocked steps. *)
Definition as_walk c : walk := Walk (c_db c) (c_outcomes c) (c_blocked c) ∅ (c_attempts c).

Lemma refines_parents c w i : refines c w ->
  (forall e, e ∈ parent_edges i edges -> c_errors c !! edge_source e = None) -> same_parents edges i (as_walk c) w.
Proof.
  intros Hr Hp e He. cbn. rewrite (rf_outcomes _ _ Hr), decide_True by (by apply Hp). by rewrite (rf_blocked _ _ Hr).
Qed.

Lemma report_refines i s c w : refines c w -> refines (report rid ix i s c) w.
Proof.
  intros [H1 H2 H3 H4 H5 H6 H7]. split; try done; cbn; unfold set_device_group_node_state, update_group;
    destruct (groups (c_db c) !! (rid, ix)); done.
Qed.
Lemma update_row_refines i s f c w : refines c w -> refines c (update_row rid i s f w).
Proof.
  intros [H1 H2 H3 H4 H5 H6 H7]. destruct (update_row_rest rid i s f w) as [_ Hn].
  split; try done; [by rewrite (update_row_runs rid)|by rewrite Hn].
Qed.
Lemma block_refines i c w : refines c w -> refines (child_block i c) (block i w).
Proof. intros [H1 H2 H3 H4 H5 H6 H7]. split; try done. cbn. by rewrite H5. Qed.
Lemma attempt_refines i c w : refines c w -> refines (child_attempt i c) (attempt i w).
Proof. intros [H1 H2 H3 H4 H5 H6 H7]. split; try done. cbn. by rewrite H7. Qed.
Lemma set_phase_refines i p q c w :
  refines c w -> phase_refines (Some p) (Some q) (c_errors c !! i) -> refines (child_set_phase i p c) (set_phase i q w).
Proof.
  intros [H1 H2 H3 H4 H5 H6 H7] Hp. split; try done. intros j. cbn.
  destruct (decide (j = i)) as [->|Hj]; [by rewrite !lookup_insert_eq|by rewrite !lookup_insert_ne].
Qed.
Lemma set_outcomes_refines i os c w :
  refines c w -> c_errors c !! i = None -> refines (child_set_outcomes i os c) (set_outcomes i os w).
Proof.
  intros [H1 H2 H3 H4 H5 H6 H7] He. split; try done; intros p; cbn; unfold store_step_outcomes.
  - destruct (decide (p = i)) as [->|Hp]; [by rewrite !lookup_insert_eq, decide_True|rewrite !lookup_insert_ne by done; apply H3].
  - intros Hs. destruct (decide (p = i)) as [->|Hp]; [rewrite He in Hs; by destruct Hs|rewrite lookup_insert_ne by done; by apply H4].
Qed.

Hint Resolve report_refines update_row_refines block_refines attempt_refines set_phase_refines set_outcomes_refines : subgraph.

(** A step raises: recorded on the child's side, closed on the walk's. *)
Lemma raise_refines i e c w :
  refines c w -> c_phase c !! i = Some C_executing -> w_outcomes w !! i = None ->
  refines (child_set_phase i C_ended (record_subgraph_node_error E initial_context i e c)) (set_phase i (Done (Ok (true, true))) w).
Proof.
  intros [H1 H2 H3 H4 H5 H6 H7] Hp Ho. split; try done; cbn; unfold store_step_outcomes.
  - intros p. destruct (decide (p = i)) as [->|Hne]; [by rewrite !lookup_insert_eq|rewrite !lookup_insert_ne by done; apply H3].
  - intros p. destruct (decide (p = i)) as [->|Hne]; [done|rewrite lookup_insert_ne by done; apply H4].
  - intros j. destruct (decide (j = i)) as [->|Hj]; [by rewrite !lookup_insert_eq|rewrite !lookup_insert_ne by done; apply H6].
Qed.

(** One stretch of one step, when its parents did not raise and it has no
    outcome yet. *)
Lemma act_refines a c w :
  refines c w ->
  (forall e, e ∈ parent_edges (nid (action_node a)) edges -> c_errors c !! edge_source e = None) ->
  c_errors c !! nid (action_node a) = None -> w_outcomes w !! nid (action_node a) = None ->
  refines (child_act c a) (act w a).
Proof.
  intros Hr Hpar Herr Hfresh. pose proof (refines_parents _ _ _ Hr Hpar) as Hsame.
  destruct a as [n|n]; cbn [action_node Subgraph.child_act StepRunner.act] in *.
  - unfold child_start, start_node.
    destruct (step_requires_devices E (node_type n)) as [req|e]; [|by apply set_phase_refines].
    change (c_outcomes c) with (w_outcomes (as_walk c)). change (c_blocked c) with (w_blocked (as_walk c)).
    rewrite (blocked_cong edges _ _ _ Hsame). destruct (req && _).
    + apply set_phase_refines; [|cbn; by rewrite Herr]. apply report_refines.
      apply (update_row_refines (nid n) S_skipped no_step_fields) in Hr. by apply (block_refines (nid n)) in Hr.
    + apply set_phase_refines; [auto with subgraph|done].
  - unfold child_finish, finish_node. pose proof (rf_phase _ _ Hr (nid n)) as Hph.
    destruct (c_phase c !! nid n) as [[| |x]|] eqn:Hc.
    2-4: destruct (w_phase w !! nid n) as [[| |[[]|]]|]; try done; by (destruct Hph || idtac).
    destruct (w_phase w !! nid n) as [[| |]|] eqn:Hw; try done. cbn in Hph.
    change (c_outcomes (child_attempt (nid n) c)) with (w_outcomes (as_walk c)).
    rewrite (run_executor_cong E row edges n (as_walk c) (attempt (nid n) w)) by exact Hsame.
    destruct (run_executor E row n (nid n) edges _) as [os|e].
    + apply set_phase_refines; [|cbn; by rewrite Hph]. auto with subgraph.
    + apply raise_refines; [auto with subgraph|done|done].
Qed.

(** What a stretch writes: only a [Finish] gives outcomes or errors. *)
Lemma act_outcomes a w i : w_outcomes w !! i = None -> is_Some (w_outcomes (act w a) !! i) -> exists n, a = Finish n /\ nid n = i.
Proof.
  intros Hn [o Ho]. destruct a as [n|n]; cbn [StepRunner.act] in Ho.
  - exfalso. unfold start_node in Ho. destruct (step_requires_devices E (node_type n)); [|cbn in Ho; congruence].
    destruct (_ && _) in Ho; cbn in Ho; congruence.
  - exists n. split; [done|]. unfold finish_node in Ho. destruct (w_phase w !! nid n) as [[]|]; try congruence.
    destruct (run_executor _ _ _ _ _ _); cbn in Ho; [|congruence]. unfold store_step_outcomes in Ho.
    destruct (decide (i = nid n)) as [->|Hi]; [done|]. rewrite lookup_insert_ne in Ho by done. congruence.
Qed.
Lemma act_errors a c i : c_errors c !! i = None -> is_Some (c_errors (child_act c a) !! i) -> exists n, a = Finish n /\ nid n = i.
Proof.
  intros Hn [o Ho]. destruct a as [n|n]; cbn [Subgraph.child_act] in Ho.
  - exfalso. unfold child_start in Ho. destruct (step_requires_devices E (node_type n)); [|cbn in Ho; congruence].
    destruct (_ && _) in Ho; cbn in Ho; congruence.
  - exists n. split; [done|]. unfold child_finish in Ho. destruct (c_phase c !! nid n) as [[]|]; try congruence.
    destruct (run_executor _ _ _ _ _ _); cbn in Ho; [congruence|].
    destruct (decide (i = nid n)) as [->|Hi]; [done|]. rewrite lookup_insert_ne in Ho by done. congruence.
Qed.

(** A wave, in lock step. *)
Lemma wave_refines wave l c w :
  independent edges wave -> interleaving wave l -> refines c w -> c_errors c = ∅ ->
  (forall n, n ∈ wave -> w_outcomes w !! nid n = None) ->
  refines (foldl child_act c l) (foldl act w l) /\
  (forall i, is_Some (c_errors (foldl child_act c l) !! i) -> i ∈ (nid <$> wave)) /\
  (forall i, i ∉ (nid <$> wave) -> w_outcomes w !! i = None -> w_outcomes (foldl act w l) !! i = None).
Proof.
  intros [Hnd Hind] Hl Hr He Ho.
  assert (Hgen : forall l1 l2, l = l1 ++ l2 ->
    refines (foldl child_act c l1) (foldl act w l1) /\
    (forall i, is_Some (c_errors (foldl child_act c l1) !! i) -> exists n, Finish n ∈ l1 /\ nid n = i) /\
    (forall i, w_outcomes w !! i = None -> is_Some (w_outcomes (foldl act w l1) !! i) -> exists n, Finish n ∈ l1 /\ nid n = i)).
  { induction l1 as [|a l1 IH] using rev_ind; intros l2 Heq.
    { split_and!; [done| |intros i Hi Hs; cbn in Hs; rewrite Hi in Hs; by destruct Hs].
      cbn. rewrite He. intros i Hs. rewrite lookup_empty in Hs. by destruct Hs. }
    destruct (IH (a :: l2)) as (IHr & IHe & IHo); [by rewrite Heq, <- app_assoc|].
    assert (Ha : a ∈ l) by (rewrite Heq, !elem_of_app, list_elem_of_singleton; tauto).
    pose proof (interleaving_nodes wave l a Hl Ha) as Han.
    assert (Hlater : forall m, Finish m ∈ l1 -> nid m ≠ nid (action_node a)).
    { intros m Hm Hid. pose proof (schedule_of_step wave l (action_node a) Hnd Hl Han) as Hs.
      rewrite Heq, !filter_app, filter_cons_True in Hs by done. rewrite filter_nil in Hs.
      assert (Hin : Finish m ∈ filter (fun b => nid (action_node b) = nid (action_node a)) l1) by (by apply list_elem_of_filter).
      apply list_elem_of_split in Hin as (k1 & k2 & Hk). rewrite Hk in Hs.
      destruct k1 as [|b1 [|b2 k1]]; [simplify_eq|by destruct k2; simplify_eq|by destruct k1; simplify_eq]. }
    assert (Hnoe : c_errors (foldl child_act c l1) !! nid (action_node a) = None).
    { apply eq_None_not_Some. intros Hs. destruct (IHe _ Hs) as (m & Hm & Hid). by apply (Hlater m). }
    assert (Hnoo : w_outcomes (foldl act w l1) !! nid (action_node a) = None).
    { apply eq_None_not_Some. intros Hs. destruct (IHo (nid (action_node a))) as (m & Hm & Hid); [by apply Ho|done|]. by apply (Hlater m). }
    rewrite !foldl_app. cbn [foldl]. split_and!.
    - apply act_refines; [done| |done|done]. intros e Hpe. apply eq_None_not_Some. intros Hs.
      destruct (IHe _ Hs) as (m & Hm & Hid). apply list_elem_of_filter in Hpe as [Ht Hine].
      assert (Hmw : m ∈ wave).
      { apply (interleaving_nodes wave l (Finish m)); [done|]. rewrite Heq, !elem_of_app. tauto. }
      by apply (Hind (action_node a) m e).
    - intros i Hs. destruct (c_errors (foldl child_act c l1) !! i) as [x|] eqn:Hx.
      + destruct (IHe i) as (m & Hm & Hid); [by eexists|]. exists m. rewrite elem_of_app. tauto.
      + apply act_errors in Hs as (m & -> & Hid); [|done]. exists m. rewrite elem_of_app, list_elem_of_singleton. tauto.
    - intros i Hi Hs. destruct (w_outcomes (foldl act w l1) !! i) as [x|] eqn:Hx.
      + destruct (IHo i Hi) as (m & Hm & Hid); [by eexists|]. exists m. rewrite elem_of_app. tauto.
      + apply act_outcomes in Hs as (m & -> & Hid); [|done]. exists m. rewrite elem_of_app, list_elem_of_singleton. tauto. }
  destruct (Hgen l []) as (G1 & G2 & G3); [by rewrite app_nil_r|].
  assert (Hfin : forall m, Finish m ∈ l -> nid m ∈ (nid <$> wave)) by (intros m Hm; by apply (interleaving_ids wave l (Finish m))).
  split_and!; [done| |].
  - intros i Hs. destruct (G2 i Hs) as (m & Hm & <-). by apply Hfin.
  - intros i Hi Hn. apply eq_None_not_Some. intros Hs. destruct (G3 i Hn Hs) as (m & Hm & <-). by apply Hi, Hfin.
Qed.

Definition raised_exn w n : option exn :=
  match w_phase w !! nid n with Some (Done (Raise e)) => Some e | _ => None end.

Lemma wave_flags_raise wave w :
  match wave_flags wave w with
  | Raise e => head (omap (raised_exn w) wave) = Some e
  | Ok _ => head (omap (raised_exn w) wave) = None
  end.
Proof.
  unfold wave_flags. generalize (false, false). induction wave as [|n wave IH]; intros flags; [done|]. cbn [foldM omap list_omap].
  change (raised_exn w n) with (match w_phase w !! nid n with Some (Done (Raise e)) => Some e | _ => None end).
  destruct (w_phase w !! nid n) as [[| |[[]|e]]|]; try done; apply IH.
Qed.

Lemma crashed_raised wave c w : refines c w -> crashed wave c = head (omap (raised_exn w) wave).
Proof.
  intros Hr. unfold crashed. f_equal. apply omap_ext_in. intros n _. unfold raised_exn. pose proof (rf_phase _ _ Hr (nid n)) as Hp.
  destruct (c_phase c !! nid n) as [[| |x]|], (w_phase w !! nid n) as [[| |[[]|y]]|]; try done. cbn in Hp. by destruct Hp as [-> _].
Qed.

Lemma wave_flags_failed wave c w a b :
  refines c w -> (forall i, is_Some (c_errors c !! i) -> i ∈ (nid <$> wave)) -> wave_flags wave w = Ok (a, b) ->
  a = negb (bool_decide (c_errors c = ∅)).
Proof.
  intros Hr Hin Hf. apply wave_flags_spec in Hf as (_ & Ha & _). apply eq_true_iff_eq. rewrite Ha, negb_true_iff, bool_decide_eq_false. split.
  - intros [|(n & d & Hn & Hd)]; [done|]. pose proof (rf_phase _ _ Hr (nid n)) as Hp. rewrite Hd in Hp.
    destruct (c_phase c !! nid n) as [[| |x]|]; try done. cbn in Hp. symmetry in Hp. apply bool_decide_eq_true in Hp as [x Hx].
    intros He. by rewrite He, lookup_empty in Hx.
  - intros Hne. apply map_choose in Hne as (i & x & Hx). right. assert (Hi : i ∈ (nid <$> wave)) by (apply Hin; by eexists). apply list_elem_of_fmap in Hi as (n & -> & Hn).
    exists n. pose proof (rf_phase _ _ Hr (nid n)) as Hp. rewrite Hx in Hp.
    destruct (c_phase c !! nid n) as [[| |]|], (w_phase w !! nid n) as [[| |[[r d]|]]|]; try done; cbn in Hp; try (by destruct Hp); try done.
    exists d. by rewrite Hp.
Qed.

(** Other processes write the same on both sides, as far as runs go. *)
Lemma exec_ops_refines ops db1 db2 :
  runs db1 = runs db2 -> next_id db1 = next_id db2 ->
  runs (exec_ops ops db1) = runs (exec_ops ops db2) /\ next_id (exec_ops ops db1) = next_id (exec_ops ops db2).
Proof.
  revert db1 db2. induction ops as [|op ops IH]; intros db1 db2 Hr Hn; [done|]. cbn [exec_ops foldl]. apply IH.
  - destruct op; cbn [exec_op snd].
    + cbn. by rewrite Hr, Hn.
    + unfold transition_run. rewrite Hr. repeat case_match; simplify_eq/=; by rewrite ?Hr.
    + unfold update_run_status, transition_run. rewrite Hr. repeat case_match; simplify_eq/=; by rewrite ?Hr.
    + unfold record_hatchet_run_id. rewrite Hr. case_match; simplify_eq/=; by rewrite ?Hr.
    + done.
    + unfold create_step_result. repeat case_match; simplify_eq/=; done.
    + unfold update_step_result. repeat case_match; simplify_eq/=; done.
    + done.
  - destruct op; cbn [exec_op snd].
    + cbn. by rewrite Hn.
    + unfold transition_run. rewrite Hr. repeat case_match; simplify_eq/=; done.
    + unfold update_run_status, transition_run. rewrite Hr. repeat case_match; simplify_eq/=; done.
    + unfold record_hatchet_run_id. rewrite Hr. case_match; simplify_eq/=; done.
    + done.
    + unfold create_step_result. repeat case_match; simplify_eq/=; done.
    + unfold update_step_result. repeat case_match; simplify_eq/=; done.
    + done.
Qed.

Lemma interfere_refines env k c w : refines c w -> refines (child_interfere env k c) (interfere env k w).
Proof. intros [H1 H2 H3 H4 H5 H6 H7]. destruct (exec_ops_refines (env k) _ _ H1 H2). by split. Qed.

Lemma skip_refines wave c w : refines c w -> refines (child_skip_wave rid ix wave c) (skip_wave rid wave w) /\
  c_errors (child_skip_wave rid ix wave c) = c_errors c.
Proof.
  unfold child_skip_wave, skip_wave. revert c w. induction wave as [|n wave IH]; intros c w Hr; [done|]. cbn [foldl].
  destruct (IH (report rid ix (nid n) "skipped" c) (update_row rid (nid n) S_skipped no_step_fields w)) as [H1 H2].
  { by apply update_row_refines, report_refines. }
  done.
Qed.

(** The whole walk, in lock step: it raises together, and ends in related states. *)
Lemma waves_refine schedule env behind gens k cancelled failed reported c w :
  (forall wave, interleaving wave (schedule wave)) -> stratified edges behind gens -> refines c w ->
  failed = negb (bool_decide (c_errors c = ∅)) || cancelled ->
  (failed = false -> forall n, n ∈ concat gens -> w_outcomes w !! nid n = None) ->
  let c' := child_waves E rid ix row schedule env initial_context edges k gens cancelled c in
  let w' := walk_waves E rid row schedule env None edges k gens failed reported w in
  refines c'.2 w'.2 /\ (forall e, c'.1 = Raise e <-> w'.1 = Raise e).
Proof.
  intros Hsch. revert behind k cancelled failed reported c w. induction gens as [|wave gens IH]; intros behind k cancelled failed reported c w.
  { intros _ Hr _ _. cbn. split; [done|]. intros e. split; done. }
  intros (Hind & Hap & Hstrat) Hr Hfail Hfresh. cbn [child_waves walk_waves].
  assert (Hi : refines (child_interfere env k c) (interfere env k w)) by (by apply interfere_refines).
  set (ci := child_interfere env k c) in *. set (wi := interfere env k w) in *.
  change (c_errors c) with (c_errors ci) in Hfail. set (errs := negb (bool_decide (c_errors ci = ∅))) in *.
  assert (Hcan : run_cancelled rid (c_db ci) = run_cancelled rid (w_db wi)) by (unfold run_cancelled; by rewrite (rf_runs _ _ Hi)).
  rewrite Hcan. destruct (failed || run_cancelled rid (w_db wi)) eqn:Hstop.
  - assert (Hc : (errs || (if cancelled || errs then cancelled else run_cancelled rid (w_db wi))) = true).
    { subst failed. by destruct errs, cancelled, (run_cancelled rid (w_db wi)). }
    rewrite Hc. destruct (skip_refines wave ci wi Hi) as [Hs He]. apply (IH (behind ++ wave)); [done|done| |done].
    rewrite He. fold errs. done.
  - apply orb_false_iff in Hstop as [Hf0 Hcf]. assert (Herrs : errs = false /\ cancelled = false) by (subst failed; by destruct errs, cancelled).
    destruct Herrs as [He0 ->]. rewrite He0, Hcf. cbn [orb].
    apply negb_false_iff, bool_decide_eq_true in He0.
    destruct (wave_refines wave (schedule wave) ci wi Hind (Hsch wave) Hi He0) as (H1 & H2 & H3).
    { intros n Hn. apply (Hfresh Hf0). cbn [concat]. apply elem_of_app. by left. }
    set (c1 := foldl child_act ci (schedule wave)) in *. set (w1 := foldl act wi (schedule wave)) in *.
    pose proof (wave_flags_raise wave w1) as Hraise. rewrite (crashed_raised wave c1 w1 H1).
    destruct (wave_flags wave w1) as [[a b]|e] eqn:Hflags; rewrite Hraise.
    2: { split; [exact H1|]. intros e'. cbn. split; congruence. }
    pose proof (wave_flags_failed wave c1 w1 a b H1 H2 Hflags) as Ha.
    assert (Hnext : forall n, n ∈ concat gens -> w_outcomes w1 !! nid n = None).
    { intros n Hn. apply H3; [|apply (Hfresh Hf0); cbn [concat]; apply elem_of_app; by right].
      intros (m & Heq & Hm)%list_elem_of_fmap. apply (stratified_apart edges (behind ++ wave) gens m n Hstrat); [apply elem_of_app; by right|done|].
      left. congruence. }
    destruct a; apply (IH (behind ++ wave)); try done; by rewrite <- Ha.
Qed.
End Refinement.

(** C12. A fan-out child refines the runner's own walk: run on its branch, from
    the inventory's outcome restricted to its devices, it blocks, attempts and
    skips what the runner would, gives every step that did not raise the very
    outcomes the runner would, holds the failure outcome of all its devices
    where a step raised, and raises itself when the runner would; whatever the
    interleaving of its steps, which cannot be observed either. *)
Theorem child_refines_walk E rid ix row s1 s2 env raw_nodes raw_edges nodes edges plan gens allowed inv initial db :
  (forall wave, interleaving wave (s1 wave)) -> (forall wave, interleaving wave (s2 wave)) -> inv ∉ allowed ->
  load_execution_graph raw_nodes raw_edges = Ok (nodes, edges) -> topological_sort (registry E) nodes edges = Ok plan ->
  topological_generations (filter (fun n => node_id_or_empty n ∈ allowed) plan) edges = Ok gens ->
  let c := run_subgraph E rid ix row s1 env raw_nodes raw_edges initial inv allowed db in
  let w := walk_waves E rid row s2 env None edges 1 gens false false (fresh_walk {[inv := [("success", initial)]]} db) in
  refines initial c.2 w.2 /\ (forall e, c.1 = Raise e <-> w.1 = Raise e).
Proof.
  intros H1 H2 Hinv Hload Hsort Hgen. cbv zeta. unfold run_subgraph. rewrite Hload, Hsort, Hgen.
  apply topological_sort_valid in Hsort.
  assert (Hvalid : valid_order (filter (fun n => node_id_or_empty n ∈ allowed) plan) edges) by (by apply valid_order_filter).
  destruct (generations_stratified _ _ _ Hvalid Hgen) as [Hstrat Hperm].
  rewrite (walk_waves_schedule E rid row env s2 s1) by (try done; intros wave Hw; by apply (waves_independent _ _ _ wave Hvalid Hgen)).
  apply (waves_refine E rid ix row initial edges s1 env []); [done|done| |done|].
  - split; cbn; try done. by intros ? [? ?].
  - intros _ n Hn. cbn. rewrite Hperm in Hn. apply list_elem_of_filter in Hn as [Ha _].
    apply lookup_singleton_ne. by intros ->.
Qed.

(** [boom] raises in the child: its success [z] is skipped. *)
Lemma child_refines_walk_witness :
  let c := run_subgraph sample_engine 1 0 sample_row in_order silent boom_nodes boom_edges (sample_run_context OK) "inv" {["boom"; "z"]} sample_tables in
  let w := walk_waves sample_engine 1 sample_row starts_first silent None boom_edges 1 [[mk_node "boom" "act"]; [mk_node "z" "act"]] false false
             (fresh_walk {["inv" := [("success", sample_run_context OK)]]} sample_tables) in
  c_states c.2 !! "z" = Some "skipped" /\ overall_status (c_states c.2) = G_failed /\ refines (sample_run_context OK) c.2 w.2.
Proof.
  intros c w. split; [vm_compute; reflexivity|]. split; [vm_compute; reflexivity|].
  eapply (child_refines_walk sample_engine 1 0 sample_row in_order starts_first silent boom_nodes boom_edges boom_nodes boom_edges boom_nodes);
    [exact in_order_interleaving|exact starts_first_interleaving| |vm_compute; reflexivity|vm_compute; reflexivity|vm_compute; reflexivity].
  apply (bool_decide_unpack _). by vm_compute.
Defined.
