(* ===== verification/ChangeStore.v ===== *)
(** * Change requests: the table and its reconciliation
    ([repositories/change_request_repository.py],
    [services/change_requests/change_request_service.py])

    The review gate of the CI/CD pipeline.  A change request is a row whose
    status only moves by the guarded update [transition]; each operation below
    is one committed transaction.  The columns shown to reviewers only (title,
    branches, diff, device snapshot) are left out.  [reconcile] reads a request
    and its run and finalises the request; it is here because the workers call
    it ([maybe_reconcile_deploy_run]) when a run ends. *)
From S2P Require Import Prelude Dict Json Context RunStore.

Inductive change_status := CR_staged | CR_approved | CR_deploying | CR_deployed | CR_failed | CR_rejected | CR_expired.

#[export] Instance change_status_eq_dec : EqDecision change_status.
Proof. solve_decision. Defined.

Record ChangeRequest := Change {
  source_workflow_id : option nat;
  source_run_id : option nat;
  deploy_workflow_id : option nat;
  deploy_run_id : option nat;
  git_repository_id : option nat;
  commit_sha : option string;
  cr_device_ids : list string;
  cr_run_inputs : dict json;
  cr_status : change_status;
  approved_by_id : option nat;
  approved_via : option string;
  approved_at : option Z;
  rejected_by_id : option nat;
  rejected_at : option Z;
  reject_reason : option string;
  deploy_error : option string;
  expires_at : option Z;
  updated_at : Z
}.

Definition ACTIVE_CHANGE_STATUSES : list change_status := [CR_staged; CR_approved; CR_deploying].

(** The database: the run tables and the change requests. *)
Record world := World { db : tables; changes : gmap nat ChangeRequest; next_change : nat }.
Definition set_db (d : tables) (w : world) : world := World d (changes w) (next_change w).
Definition set_changes (c : gmap nat ChangeRequest) (w : world) : world := World (db w) c (next_change w).

(** ** The repository *)

(** The values a transition writes besides the status; [updated_at] has
    [onupdate=now()]. *)
Record change_fields := ChangeFields {
  cf_approved : option (option nat * option string * option Z);  (* by, via, at *)
  cf_rejected : option (option nat * option Z * option string);  (* by, at, reason *)
  cf_deploy_error : option string
}.
Definition no_change_fields : change_fields := ChangeFields None None None.

Definition apply_change (now : Z) (new_status : change_status) (f : change_fields) (c : ChangeRequest) : ChangeRequest :=
  let '(by_, via, at_) := default (approved_by_id c, approved_via c, approved_at c) (cf_approved f) in
  let '(rby, rat, reason) := default (rejected_by_id c, rejected_at c, reject_reason c) (cf_rejected f) in
  Change (source_workflow_id c) (source_run_id c) (deploy_workflow_id c) (deploy_run_id c) (git_repository_id c) (commit_sha c)
    (cr_device_ids c) (cr_run_inputs c) new_status by_ via at_ rby rat reason (or_keep (cf_deploy_error f) (deploy_error c))
    (expires_at c) now.

Definition transition (now : Z) (cid : nat) (expected_statuses : list change_status) (new_status : change_status)
    (f : change_fields) (w : world) : bool * world :=
  match changes w !! cid with
  | Some c =>
      if decide (cr_status c ∈ expected_statuses)
      then (true, set_changes (<[cid := apply_change now new_status f c]> (changes w)) w)
      else (false, w)
  | None => (false, w)
  end.

(** The partial unique index: at most one request in flight per repository and commit. *)
Definition same_commit (repo : option nat) (sha : option string) (c : ChangeRequest) : bool :=
  match repo, sha with
  | Some _, Some _ => bool_decide (git_repository_id c = repo) && bool_decide (commit_sha c = sha)
                      && bool_decide (cr_status c ∈ ACTIVE_CHANGE_STATUSES)
  | _, _ => false
  end.

(** [create_from_step] *)
Definition create_from_step (now : Z) (source_workflow source_run deploy_workflow repo : option nat) (sha : option string)
    (devs : list string) (inputs : dict json) (expires_after_hours : Z) (w : world) : res (nat * world) :=
  if existsb (fun p => same_commit repo sha p.2) (map_to_list (changes w))
  then Raise (OtherError "ConflictError")
  else
    let expires := if (0 <? expires_after_hours)%Z then Some (now + expires_after_hours * 3600)%Z else None in
    let c := Change source_workflow source_run deploy_workflow None repo sha devs inputs CR_staged None None None None None None None
               expires now in
    Ok (next_change w, World (db w) (<[next_change w := c]> (changes w)) (S (next_change w))).

(** [find_active_for_commit]: the newest. *)
Definition find_active_for_commit (repo : nat) (sha : string) (w : world) : option nat :=
  match (filter (fun p => same_commit (Some repo) (Some sha) p.2 = true) (map_to_list (changes w))).*1 with
  | [] => None
  | i :: rest => Some (foldl Nat.max i rest)
  end.

Definition list_in_flight (w : world) : list nat :=
  (filter (fun p => cr_status p.2 ∈ [CR_approved; CR_deploying]) (map_to_list (changes w))).*1.

Definition list_expired_candidates (now : Z) (w : world) : list nat :=
  (filter (fun p => cr_status p.2 = CR_staged /\ match expires_at p.2 with Some e => (e <? now)%Z | None => false end = true)
     (map_to_list (changes w))).*1.

(** Deleting a run ([ON DELETE SET NULL] on both references to it). *)
Definition forget_run (deleted : nat) (c : ChangeRequest) : ChangeRequest :=
  let unlink r := if decide (r = Some deleted) then None else r in
  Change (source_workflow_id c) (unlink (source_run_id c)) (deploy_workflow_id c) (unlink (deploy_run_id c)) (git_repository_id c)
    (commit_sha c) (cr_device_ids c) (cr_run_inputs c) (cr_status c) (approved_by_id c) (approved_via c) (approved_at c)
    (rejected_by_id c) (rejected_at c) (reject_reason c) (deploy_error c) (expires_at c) (updated_at c).
Definition delete_run_row (run : nat) (w : world) : world :=
  World (RunStore.delete_run run (db w)) (forget_run run <$> changes w) (next_change w).

(** ** Reconciliation *)

(** Seconds *)
Definition DEPLOY_START_GRACE : Z := 15 * 60.

Definition fail_change (now : Z) (cid : nat) (why : string) (w : world) : world :=
  (transition now cid [CR_deploying] CR_failed (ChangeFields None None (Some why)) w).2.

Definition run_status_value (s : run_status) : string :=
  match s with
  | R_pending => "pending" | R_running => "running" | R_paused => "paused"
  | R_success => "success" | R_failed => "failed" | R_cancelled => "cancelled"
  end.

Definition reconcile (now : Z) (cid : nat) (w : world) : world :=
  match changes w !! cid with
  | None => w
  | Some c =>
      if decide (cr_status c = CR_deploying) then
        match deploy_run_id c with
        | None => if (DEPLOY_START_GRACE <? now - updated_at c)%Z then fail_change now cid "The deploy run was never created" w else w
        | Some r =>
            match runs (db w) !! r with
            | None => fail_change now cid "The deploy run no longer exists" w
            | Some row =>
                match rstatus row with
                | R_success => (transition now cid [CR_deploying] CR_deployed no_change_fields w).2
                | R_failed | R_cancelled =>
                    fail_change now cid match error_message row with
                                        | Some m => if String.eqb m "" then "Deploy run " +:+ run_status_value (rstatus row) else m
                                        | None => "Deploy run " +:+ run_status_value (rstatus row)
                                        end w
                | _ => w
                end
            end
        end
      else w
  end.

Definition maybe_reconcile_deploy_run (now : Z) (run : nat) (w : world) : world :=
  match runs (db w) !! run with
  | Some row => match change_request_id row with
                | Some (S k) => reconcile now (S k) w       (* ids start at 1 *)
                | _ => w
                end
  | None => w
  end.

(** The request's status, before and after. *)
Definition change_state (cid : nat) (w : world) : option change_status := cr_status <$> changes w !! cid.

Definition reconcile_all_in_flight (now : Z) (w : world) : nat * world :=
  foldl (fun acc cid => let w' := reconcile now cid acc.2 in
           (acc.1 + (if decide (change_state cid w' = change_state cid acc.2) then 0 else 1), w')) (0, w) (list_in_flight w).

Definition expire_sweep (now : Z) (w : world) : nat * world :=
  foldl (fun acc cid => match transition now cid [CR_staged] CR_expired no_change_fields acc.2 with
                        | (true, w') => (S acc.1, w')
                        | (false, w') => (acc.1, w')
                        end) (0, w) (list_expired_candidates now w).
