(* ===== verification/FanOut.v ===== *)
(** * The fan-out parent ([hatchet/workflows/workflow_run/])

    [fan_out_dispatch.py]: from a fan-out signal to device groups and child
    runs; [aggregation.py]: the children's outcomes merged onto the parent's
    step rows, and the walk resumed behind the fan-in.  The gates between
    batches are in BatchApproval.v.

    What a child returns is [child_run input]: children are other tasks, and
    what they write to their device-group rows is part of [env].  [validate] is
    pydantic's [model_validate]; [max_concurrency] bounds how many children are
    awaited at once and changes no result.  A canvas walk inside
    [finalize_fan_out_parent] is StepRunner.v's [resume_after_join]. *)
From stdpp Require Import pretty.
From S2P Require Import Prelude Dict Json Registry Graph GraphResolution Context Merge Guards RunStore Secrets RunInputs StepRunner Subgraph ChangeStore.

(** ** [_parse_fan_out_dispatch] *)

(** [int(value)] of a JSON value *)
Definition int_of (j : json) : res Z :=
  match j with
  | JInt z => Ok z
  | JBool b => Ok (if b then 1 else 0)%Z
  | JFloat m e => Ok (if (0 <=? e)%Z then m * 2 ^ e else Z.quot m (2 ^ (- e)))%Z
  | JStr s => match py_int s with Some z => Ok z | None => Raise (ValueError "invalid literal for int() with base 10: " [s]) end
  | _ => Raise (OtherError "TypeError")
  end.

(** [cfg.get(key, default)] and [int] of it *)
Definition int_setting (key : string) (dflt : Z) (cfg : dict json) : res Z :=
  match dget key cfg with None => Ok dflt | Some v => int_of v end.

(** [range(start, stop, step)], [step > 0] *)
Definition range_step (start stop step : nat) : list nat :=
  (fun j => start + j * step) <$> seq 0 ((stop - start + (step - 1)) / step).

(** [[l[i : i + n] for i in range(0, len(l), n)]] *)
Definition slices {A} (n : nat) (l : list A) : list (list A) :=
  (fun i => take n (drop i l)) <$> range_step 0 (length l) n.

Record FanOutDispatchPlan := DispatchPlan {
  plan_groups : list (list string);
  max_concurrency : nat;
  approval_enabled : bool;
  approval_cfg : dict json;
  plan_device_ids : list string;
  all_devices : dict DeviceContext
}.

Definition parse_fan_out_dispatch (signal : FanOutSignal) : res FanOutDispatchPlan :=
  let cfg := fan_out_config signal in
  chunk ← int_setting "chunk_size" 1 cfg;
  conc ← int_setting "max_concurrency" 0 cfg;
  approval ← match dget "approval" cfg with
             | Some (JDict d) => Ok d
             | Some v => if truthy v then Raise (OtherError "AttributeError") else Ok []
             | None => Ok []
             end;
  let devs := devices (inventory_outcome signal) in
  let ids := dkeys devs in
  let chunk_size := Z.to_nat (Z.max 1 chunk) in
  Ok (DispatchPlan
        (if decide (dget "mode" cfg = Some (JStr "chunked")) then slices chunk_size ids else (fun did => [did]) <$> ids)
        (Z.to_nat (Z.max 0 conc))
        match dget "enabled" approval with Some v => truthy v | None => false end
        approval ids devs).

(** ** Dispatch *)

(** [_group_device_names], [_precreate_device_groups] *)
Definition device_name (devs : dict DeviceContext) (did : string) : string :=
  match dget did devs with
  | Some d => if String.eqb (dc_name d) "" then did else dc_name d
  | None => did
  end.
Definition group_device_names (plan : FanOutDispatchPlan) (group_ids : list string) : list string :=
  device_name (all_devices plan) <$> group_ids.
Definition precreate_device_groups (parent_run_id : nat) (plan : FanOutDispatchPlan) : tables -> tables :=
  create_device_groups parent_run_id (imap (fun index group_ids => (index, group_device_names plan group_ids)) (plan_groups plan)).

(** [_build_child_inputs]; every listed device is one of the inventory's. *)
Definition group_context (signal : FanOutSignal) (devs : dict DeviceContext) (group_ids : list string) : WorkflowContext :=
  let c := inventory_outcome signal in
  Workflow (run_id c) (workflow_id c) (schema_version c)
    (foldl (fun d did => match dget did devs with Some x => dset did x d | None => d end) [] group_ids)
    (pending_commands c) (metadata c).

Definition build_child_inputs (signal : FanOutSignal) (parent_run_id : nat) (devs : dict DeviceContext)
    (group_list : list (list string)) (index_offset : nat) : list DeviceGroupInput :=
  imap (fun offset group_ids =>
    GroupInput parent_run_id (dump (group_context signal devs group_ids)) (inventory_node_id signal) (index_offset + offset)
      (join_node_id signal)) group_list.

(** [_run_groups]: [asyncio.gather] keeps the order of the inputs. *)
Definition run_groups (child_run : DeviceGroupInput -> res child_output) (signal : FanOutSignal) (parent_run_id : nat)
    (devs : dict DeviceContext) (group_list : list (list string)) (index_offset : nat) : list (res child_output) :=
  child_run <$> build_child_inputs signal parent_run_id devs group_list index_offset.

(** [_tally_batch_failures] *)
Definition tally_batch_failures (batch_groups : list (list string)) (batch_results : list (res child_output)) : nat * nat :=
  (sum_list (length <$> batch_groups),
   sum_list (zip_with (fun group result => if is_ok result then 0 else length group) batch_groups batch_results)).

(** ** [aggregation.py] *)

(** outcome name -> the contexts the children gave, in their order *)
Abbreviation node_outcomes := (dict (list WorkflowContext)).

Definition devices_in (ctxs : list WorkflowContext) : nat := sum_list ((fun c => length (devices c)) <$> ctxs).

Definition derive_child_node_status (outcomes : node_outcomes) (has_any_failure : bool) : step_status :=
  let failure_devices := devices_in (dget_or [] "failure" outcomes) in
  let ok_devices := sum_list ((fun kv => if decide (kv.1 = "failure") then 0 else devices_in kv.2) <$> outcomes) in
  if has_any_failure || (0 <? failure_devices) then (if 0 <? ok_devices then S_partial else S_failed) else S_success.

(** What the loop over the children gathers. *)
Record gathered := Gathered {
  per_node : gmap string node_outcomes;
  node_errors : gmap string step_error;
  has_any_failure : bool
}.

Section Aggregate.
Context (E : engine) (validate : json -> res WorkflowContext).

Definition gather_outcome (outcomes : node_outcomes) (kv : string * json) : res node_outcomes :=
  ctx ← validate kv.2;
  Ok (dset kv.1 (dget_or [] kv.1 outcomes ++ [ctx]) outcomes).

Definition gather_node (child_ids : gset string) (acc : gmap string node_outcomes) (node : string * dict json)
    : res (gmap string node_outcomes) :=
  if decide (node.1 ∈ child_ids)
  then outcomes ← foldM gather_outcome (default [] (acc !! node.1)) node.2; Ok (<[node.1 := outcomes]> acc)
  else Ok acc.

Definition gather_child (child_ids : gset string) (g : gathered) (child_result : res child_output) : res gathered :=
  match child_result with
  | Raise _ => Ok (Gathered (per_node g) (node_errors g) true)
  | Ok output =>
      nodes ← foldM (gather_node child_ids) (per_node g) (map_to_list (co_outcomes output));
      Ok (Gathered nodes (node_errors g ∪ co_errors output) (has_any_failure g))
  end.

Definition gather_children (child_ids : gset string) (child_results : list (res child_output)) : res gathered :=
  foldM (gather_child child_ids) (Gathered (set_to_map (fun i => (i, [])) child_ids) ∅ false) child_results.

(** The merged outcomes of one node. *)
Definition merge_node (nid : string) (outcomes : node_outcomes) : res (dict WorkflowContext) :=
  foldM (fun acc kv =>
    merged ← match kv.2 with [one] => Ok one | ctxs => merge_fan_out_contexts (Some nid) ctxs end;
    Ok (dset kv.1 merged acc)) [] outcomes.

Definition aggregated_fields (nid : string) (merged : dict WorkflowContext) (err : option step_error) : step_fields :=
  StepFields
    (Some (JDict [("outcomes", JDict ((fun kv => (kv.1, redact_secrets_in_data [] (dump kv.2))) <$> merged))]))
    (err_message <$> err) (err_category <$> err) (err_error_id <$> err) (err ≫= err_failure)
    (Some (clock E)) (Some (clock E)).

(** The loop over the child branch: the rows, the merged outcomes, and whether
    a node failed. *)
Fixpoint aggregate_nodes (rid : nat) (final : bool) (existing : gmap (nat * string) WorkflowStepResult) (g : gathered)
    (ids : list string) (merged_outcomes : outcome_map) (any_node_failed : bool) (d : tables)
    : res (outcome_map * bool) * tables :=
  match ids with
  | [] => (Ok (merged_outcomes, any_node_failed), d)
  | nid :: rest =>
      let row := existing !! (rid, nid) in
      match default [] (per_node g !! nid) with
      | [] =>
          aggregate_nodes rid final existing g rest merged_outcomes any_node_failed
            match row with
            | Some _ => if final then update_step_result rid nid S_skipped (StepFields None None None None None None (Some (clock E))) d else d
            | None => d
            end
      | outcomes =>
          match merge_node nid outcomes with
          | Raise e => (Raise e, d)
          | Ok merged =>
              let status := derive_child_node_status outcomes (has_any_failure g) in
              match row with
              | Some _ =>
                  aggregate_nodes rid final existing g rest (<[nid := merged]> merged_outcomes)
                    (any_node_failed || bool_decide (status = S_failed))
                    (update_step_result rid nid status (aggregated_fields nid merged (node_errors g !! nid)) d)
              | None => aggregate_nodes rid final existing g rest (<[nid := merged]> merged_outcomes) any_node_failed d
              end
          end
      end
  end.

(** [child_ids] is a Python set: its order is [elements]'s here. *)
Definition aggregate_and_persist (rid : nat) (signal : FanOutSignal) (nodes : list node) (edges : list edge)
    (child_results : list (res child_output)) (final : bool) (d : tables) : res (bool * outcome_map) * tables :=
  let child_ids := child_node_ids (inventory_node_id signal) (join_node_id signal) nodes edges in
  match gather_children child_ids child_results with
  | Raise e => (Raise e, d)
  | Ok g =>
      match aggregate_nodes rid final (get_step_results_for_run rid d) g (elements child_ids) ∅ false d with
      | (Raise e, d) => (Raise e, d)
      | (Ok (merged_outcomes, any_node_failed), d) => (Ok (negb (has_any_failure g || any_node_failed), merged_outcomes), d)
      end
  end.

(** [_finalize_fan_out_parent] *)
Definition finalize_fan_out_parent (schedule : list node -> list action) (env : nat -> list db_op) (workflows : nat -> option workflow)
    (rid : nat) (signal : FanOutSignal) (nodes : list node) (edges : list edge) (child_results : list (res child_output))
    (w : world) : res run_status * world :=
  match runs (db w) !! rid with
  | None => (Raise (ValueError "WorkflowRun {run_id} not found (phase 3)" []), w)
  | Some row =>
      match aggregate_and_persist rid signal nodes edges child_results true (db w) with
      | (Raise e, d) => (Raise e, set_db d w)
      | (Ok (success, child_merged), d) =>
          let joined :=
            match join_node_id signal with
            | None => (Ok success, d)
            | Some join =>
                match workflows (run_workflow_id row) with
                | None => (Raise (ValueError "Workflow {run.workflow_id} not found (phase 4 resume)" []), d)
                | Some wf =>
                    let merged_outcomes := child_merged ∪ {[inventory_node_id signal := [("success", inventory_outcome signal)]]} in
                    match resume_after_join E rid row schedule env (canvas_nodes wf) (canvas_edges wf) merged_outcomes join d with
                    | (Raise e, walk) => (Raise e, w_db walk)
                    | (Ok (WR_done join_success), walk) => (Ok (success && join_success), w_db walk)
                    | (Ok (WR_fan_out _), walk) => (Raise (OtherError "unreachable"), w_db walk)
                    end
                end
            end in
          match joined with
          | (Raise e, d) => (Raise e, set_db d w)
          | (Ok success, d) =>
              let final_status := if success : bool then R_success else R_failed in
              let fields := Fields None None None None None (Some (clock E)) None None None in
              (Ok final_status,
               maybe_reconcile_deploy_run (clock E) rid (set_db (update_run_status rid final_status fields false d).2 w))
          end
      end
  end.
End Aggregate.

(** * Facts *)

(** ** Slicing *)

Lemma range_step_cons stop step i :
  0 < step -> i < stop -> range_step i stop step = i :: range_step (i + step) stop step.
Proof.
  intros Hs Hi. unfold range_step.
  replace ((stop - i + (step - 1)) / step) with (S ((stop - (i + step) + (step - 1)) / step)).
  - cbn [seq fmap list_fmap]. f_equal; [lia|]. rewrite <- seq_shift, <- list_fmap_compose. apply list_fmap_ext. intros j x _. cbn. lia.
  - destruct (decide (stop <= i + step)).
    + rewrite (Nat.div_small (stop - (i + step) + (step - 1))) by lia.
      apply (Nat.div_unique _ _ 1 (stop - i - 1)); lia.
    + replace (stop - i + (step - 1)) with (stop - (i + step) + (step - 1) + 1 * step) by lia.
      rewrite Nat.div_add by lia. lia.
Qed.

Lemma range_step_nil start stop step : 0 < step -> stop <= start -> range_step start stop step = [].
Proof. intros Hs Hi. unfold range_step. rewrite Nat.div_small by lia. done. Qed.

(** The recursive reading of [slices]. *)
Lemma slices_nil {A} n : 0 < n -> slices n (@nil A) = [].
Proof. intros Hn. unfold slices. by rewrite range_step_nil by (cbn; lia). Qed.

Lemma range_step_shift start stop step : range_step (start + step) (stop + step) step = (fun i => i + step) <$> range_step start stop step.
Proof.
  unfold range_step. replace (stop + step - (start + step)) with (stop - start) by lia. rewrite <- list_fmap_compose.
  apply list_fmap_ext. intros i x _. cbn. lia.
Qed.

Lemma slices_cons {A} n (l : list A) : 0 < n -> l ≠ [] -> slices n l = take n l :: slices n (drop n l).
Proof.
  intros Hn Hl. unfold slices. rewrite range_step_cons; [|done|destruct l; [done|cbn; lia]]. cbn [fmap list_fmap]. f_equal.
  rewrite length_drop. destruct (decide (length l <= n)).
  - rewrite !range_step_nil by lia. done.
  - pose proof (range_step_shift 0 (length l - n) n) as Hr. replace (length l - n + n) with (length l) in Hr by lia.
    rewrite Hr, <- list_fmap_compose. apply list_fmap_ext. intros i x _. cbn. by rewrite drop_drop, Nat.add_comm.
Qed.

Lemma slices_spec {A} n (l : list A) : 0 < n -> concat (slices n l) = l /\ Forall (fun g => g ≠ [] /\ length g <= n) (slices n l).
Proof.
  intros Hn. induction l as [l IH] using (well_founded_ind (Wf_nat.well_founded_ltof _ length)).
  destruct (decide (l = [])) as [->|Hl]; [by rewrite slices_nil|]. rewrite slices_cons by done.
  destruct (IH (drop n l)) as [IH1 IH2].
  { unfold Wf_nat.ltof. rewrite length_drop. destruct l; [done|cbn; lia]. }
  cbn [concat]. rewrite IH1, take_drop. split; [done|]. constructor; [|done]. split.
  - destruct l; [done|]. destruct n; [lia|done].
  - rewrite length_take. lia.
Qed.

(** ** Dispatch *)

Lemma build_child_inputs_app signal rid devs l1 l2 off :
  build_child_inputs signal rid devs (l1 ++ l2) off =
  build_child_inputs signal rid devs l1 off ++ build_child_inputs signal rid devs l2 (off + length l1).
Proof.
  unfold build_child_inputs. rewrite imap_app. f_equal. apply imap_ext. intros i x _. cbn. f_equal. lia.
Qed.

Lemma group_devices (devs : dict DeviceContext) ids did :
  dget did (foldl (fun d i => match dget i devs with Some x => dset i x d | None => d end) [] ids) =
  if decide (did ∈ ids) then dget did devs else None.
Proof.
  assert (Hgen : forall d0, dget did (foldl (fun d i => match dget i devs with Some x => dset i x d | None => d end) d0 ids) =
    if decide (did ∈ ids) then (match dget did devs with Some x => Some x | None => dget did d0 end : option DeviceContext) else dget did d0).
  { induction ids as [|i ids IH]; intros d0; [by rewrite decide_False by apply not_elem_of_nil|]. cbn [foldl]. rewrite IH.
    destruct (decide (did ∈ ids)) as [Hin|Hin].
    - rewrite decide_True by (by right). destruct (dget i devs) as [x|] eqn:Hx; [|done].
      destruct (dget did devs) eqn:Hd; [done|]. rewrite dget_dset_ne; [done|]. intros ->. congruence.
    - destruct (decide (did = i)) as [->|Hne].
      + rewrite decide_True by (by left). destruct (dget i devs); [by rewrite dget_dset_eq|done].
      + rewrite decide_False by (by rewrite elem_of_cons; tauto). destruct (dget i devs); [by rewrite dget_dset_ne|done]. }
  rewrite Hgen. cbn. by destruct (decide _), (dget did devs).
Qed.

Lemma create_device_groups_lookup rid gs (d : tables) i :
  (forall j, groups d !! (rid, j) = None) -> NoDup gs.*1 ->
  groups (create_device_groups rid gs d) !! (rid, i) =
  (fun g => Group g.2 G_pending [] None None None) <$> head (filter (fun g => g.1 = i) gs).
Proof.
  intros Hd Hnd. unfold create_device_groups.
  set (f := fun (acc : tables) (g : nat * list string) => match groups d !! (rid, g.1) with
    | Some _ => acc | None => set_groups acc (<[(rid, g.1) := Group g.2 G_pending [] None None None]> (groups acc)) end).
  assert (Hgen : forall acc, groups (foldl f acc gs) !! (rid, i) =
    match head (filter (fun g => g.1 = i) gs) with Some g => Some (Group g.2 G_pending [] None None None) | None => groups acc !! (rid, i) end).
  { induction gs as [|[j names] gs IH]; intros acc; [done|]. apply NoDup_cons in Hnd as [Hj Hnd]. cbn [foldl]. rewrite IH by done.
    unfold f. cbn [fst snd]. rewrite Hd. cbn [set_groups groups]. destruct (decide (j = i)) as [->|Hne].
    - rewrite filter_cons_True by done. rewrite (filter_none _ gs).
      + cbn. by rewrite lookup_insert_eq.
      + intros g Hg Heq. apply Hj. cbn. rewrite <- Heq. by apply list_elem_of_fmap_2.
    - rewrite filter_cons_False by done. destruct (head _); [done|]. rewrite lookup_insert_ne; [done|congruence]. }
  rewrite Hgen, Hd. by destruct (head _).
Qed.

Lemma filter_imap_index {A B} (f : nat -> A -> B) (l : list A) i :
  filter (fun g : nat * B => g.1 = i) (imap (fun j x => (j, f j x)) l) = match l !! i with Some x => [(i, f i x)] | None => [] end.
Proof.
  assert (Hgen : forall off, filter (fun g : nat * B => g.1 = off + i) (imap (fun j x => (off + j, f (off + j) x)) l) =
    match l !! i with Some x => [(off + i, f (off + i) x)] | None => [] end).
  { revert i. induction l as [|x l IH]; intros i off; [done|]. cbn [imap]. rewrite Nat.add_0_r. destruct i as [|i].
    - rewrite Nat.add_0_r, filter_cons_True by done. cbn [lookup list_lookup]. f_equal. apply filter_none.
      intros g Hg. apply elem_of_lookup_imap in Hg as (j & y & -> & _). cbn. lia.
    - rewrite filter_cons_False by (cbn; lia). cbn [lookup list_lookup]. replace (off + S i) with (S off + i) by lia.
      rewrite <- IH. f_equal. apply imap_ext. intros j y _. cbn. by replace (off + S j) with (S (off + j)) by lia. }
  apply (Hgen 0).
Qed.

(** Fan-out splits the inventory's devices, and loses or doubles none: the
    groups, in order, are the devices in their order, each group within the
    configured size and none empty; the child of the [i]-th group has index [i],
    is given exactly that group's devices and reports on a row of its own, created
    with the group's names. *)
Theorem fan_out_dispatch_exact signal rid plan (d : tables) :
  parse_fan_out_dispatch signal = Ok plan -> dict_wf (devices (inventory_outcome signal)) ->
  (forall i, groups d !! (rid, i) = None) ->
  let inv := devices (inventory_outcome signal) in
  concat (plan_groups plan) = dkeys inv /\
  (exists chunk, int_setting "chunk_size" 1 (fan_out_config signal) = Ok chunk /\
     forall g, g ∈ plan_groups plan ->
       g ≠ [] /\ length g <= (if decide (dget "mode" (fan_out_config signal) = Some (JStr "chunked")) then Z.to_nat (Z.max 1 chunk) else 1)) /\
  (forall i, match plan_groups plan !! i, build_child_inputs signal rid (all_devices plan) (plan_groups plan) 0 !! i with
             | Some g, Some input =>
                 child_index input = i /\
                 (exists c, context_json input = dump c /\ metadata c = metadata (inventory_outcome signal) /\
                    forall did, dget did (devices c) = if decide (did ∈ g) then dget did inv else None) /\
                 groups (precreate_device_groups rid plan d) !! (rid, i) = Some (Group (device_name inv <$> g) G_pending [] None None None)
             | None, None => groups (precreate_device_groups rid plan d) !! (rid, i) = None
             | _, _ => False
             end).
Proof.
  intros Hp Hwf Hd. cbv zeta. unfold parse_fan_out_dispatch in Hp.
  apply res_bind_Ok in Hp as (chunk & Hchunk & Hp). apply res_bind_Ok in Hp as (conc & _ & Hp).
  apply res_bind_Ok in Hp as (approval & _ & [= <-]). cbn [plan_groups all_devices].
  set (inv := devices (inventory_outcome signal)). set (chunked := decide _).
  assert (Hgroups : concat (if chunked then slices (Z.to_nat (Z.max 1 chunk)) (dkeys inv) else (fun did => [did]) <$> dkeys inv) = dkeys inv /\
    Forall (fun g => g ≠ [] /\ length g <= (if chunked then Z.to_nat (Z.max 1 chunk) else 1))
      (if chunked then slices (Z.to_nat (Z.max 1 chunk)) (dkeys inv) else (fun did => [did]) <$> dkeys inv)).
  { destruct chunked; [apply slices_spec; lia|]. split.
    - induction (dkeys inv) as [|x l IH]; [done|]. cbn. by f_equal.
    - apply Forall_fmap, Forall_true. intros x. by split. }
  destruct Hgroups as [Hcat Hsize]. split; [done|]. split.
  { exists chunk. split; [done|]. intros g Hg. rewrite Forall_forall in Hsize. by apply Hsize. }
  set (gs := if chunked then _ else _) in *. intros i. unfold build_child_inputs. rewrite list_lookup_imap.
  unfold precreate_device_groups. rewrite create_device_groups_lookup; [|done|].
  2: { rewrite fmap_imap. cbn [plan_groups]. rewrite (imap_ext _ (fun j _ => id j)) by done. rewrite imap_seq_0, list_fmap_id. apply NoDup_seq. }
  cbn [plan_groups].
  rewrite (filter_imap_index (fun _ g => group_device_names _ g)). destruct (gs !! i) as [g|] eqn:Hg; [|done]. cbn.
  split; [done|]. split; [|done]. eexists. split; [done|]. split; [done|]. intros did. apply group_devices.
Qed.

(** ** Gathering the children's outcomes *)

Section AggregateFacts.
Context (E : engine) (validate : json -> res WorkflowContext).

(** What the children gave for an outcome of a node, in their order. *)
Definition child_context (nid name : string) (r : res child_output) : option WorkflowContext :=
  match r with
  | Ok o => outcomes ← co_outcomes o !! nid; j ← dget name outcomes;
            match validate j with Ok c => Some c | Raise _ => None end
  | Raise _ => None
  end.
Definition child_contexts (nid name : string) (results : list (res child_output)) : list WorkflowContext :=
  omap (child_context nid name) results.

(** Python dicts: no key twice. *)
Definition result_wf (r : res child_output) : Prop :=
  forall o nid outcomes, r = Ok o -> co_outcomes o !! nid = Some outcomes -> dict_wf outcomes.

Definition lists_at (o : node_outcomes) (at_ : string -> list WorkflowContext) : Prop :=
  dict_wf o /\ forall name, dget name o = match at_ name with [] => None | l => Some l end.

Lemma gather_outcomes_spec outcomes o o' at_ :
  dict_wf outcomes -> lists_at o at_ -> foldM (gather_outcome validate) o outcomes = Ok o' ->
  lists_at o' (fun name => at_ name ++ match (j ← dget name outcomes; match validate j with Ok c => Some c | Raise _ => None end) with
                                       | Some c => [c] | None => [] end).
Proof.
  revert o at_. induction outcomes as [|[k j] outcomes IH]; intros o at_ Hwf [Ho Hat] Hf; cbn [foldM] in Hf.
  { injection Hf as <-. split; [done|]. intros name. by rewrite app_nil_r. }
  apply res_bind_Ok in Hf as (o1 & Ho1 & Hf). unfold gather_outcome in Ho1. apply res_bind_Ok in Ho1 as (c & Hc & [= <-]). cbn [fst snd] in *.
  apply NoDup_cons in Hwf as [Hk Hwf]. fold (dkeys outcomes) in Hwf, Hk.
  apply (IH _ (fun name => at_ name ++ if decide (name = k) then [c] else [])) in Hf as [Ho' Hat']; [|done|].
  - split; [done|]. intros name. rewrite Hat'. cbn [dget]. rewrite <- app_assoc.
    destruct (decide (name = k)) as [->|Hne].
    + cbn [fst] in Hk. apply dget_None in Hk. rewrite Hk. cbn. by rewrite Hc.
    + done.
  - split; [by apply dset_wf|]. intros name. rewrite dget_dset. unfold dget_or. rewrite !Hat.
    destruct (decide (name = k)) as [->|Hne].
    + by destruct (at_ k).
    + by rewrite app_nil_r.
Qed.

(** The gathered state describes the children read so far. *)
Record describes (child_ids : gset string) (results : list (res child_output)) (g : gathered) : Prop := {
  ds_failure : has_any_failure g = existsb (fun r => negb (is_ok r)) results;
  ds_errors nid : node_errors g !! nid =
    head (omap (fun r : res child_output => match r with Ok o => co_errors o !! nid | Raise _ => None end) results);
  ds_nodes nid : nid ∈ child_ids -> exists o, per_node g !! nid = Some o /\ lists_at o (fun name => child_contexts nid name results)
}.

Lemma gather_nodes_spec child_ids (l : list (string * dict json)) acc acc' :
  NoDup l.*1 -> foldM (gather_node validate child_ids) acc l = Ok acc' ->
  forall nid, (acc' !! nid = acc !! nid /\ (nid ∉ child_ids \/ nid ∉ l.*1)) \/
    exists outcomes o', nid ∈ child_ids /\ (nid, outcomes) ∈ l /\ acc' !! nid = Some o' /\
      foldM (gather_outcome validate) (default [] (acc !! nid)) outcomes = Ok o'.
Proof.
  revert acc. induction l as [|[k outcomes] l IH]; intros acc Hnd Hf nid; cbn [foldM] in Hf.
  { left. injection Hf as <-. split; [done|]. right. apply not_elem_of_nil. }
  apply res_bind_Ok in Hf as (acc1 & Hacc1 & Hf). rewrite fmap_cons in Hnd. apply NoDup_cons in Hnd as [Hk Hnd].
  unfold gather_node in Hacc1. cbn [fst snd] in *. destruct (IH _ Hnd Hf nid) as [[Heq Hout]|(outs & o' & Hin & Hl & Ho' & Hfold)].
  - destruct (decide (k ∈ child_ids)) as [Hc|Hc].
    + apply res_bind_Ok in Hacc1 as (o & Ho & [= <-]). destruct (decide (nid = k)) as [->|Hne].
      * right. exists outcomes, o. rewrite Heq, lookup_insert_eq. split_and!; [done|by left|done|done].
      * left. split; [by rewrite Heq, lookup_insert_ne|]. rewrite fmap_cons, not_elem_of_cons. tauto.
    + injection Hacc1 as <-. left. split; [done|]. rewrite fmap_cons, not_elem_of_cons. cbn [fst].
      destruct (decide (nid = k)) as [->|]; tauto.
  - right. exists outs, o'. split; [done|]. split; [by right|]. split; [done|].
    assert (Hne : nid ≠ k). { intros ->. apply Hk. by apply (list_elem_of_fmap_2 fst) in Hl. }
    destruct (decide (k ∈ child_ids)).
    + apply res_bind_Ok in Hacc1 as (o & Ho & [= <-]). by rewrite lookup_insert_ne in Hfold.
    + by injection Hacc1 as <-.
Qed.

Lemma gather_child_describes child_ids results g r g' :
  result_wf r -> describes child_ids results g -> gather_child validate child_ids g r = Ok g' -> describes child_ids (results ++ [r]) g'.
Proof.
  intros Hwf [H1 H2 H3] Hg. destruct r as [o|e]; cbn [gather_child] in Hg.
  - apply res_bind_Ok in Hg as (nodes & Hnodes & [= <-]). split; cbn [has_any_failure node_errors per_node].
    + rewrite existsb_app. cbn. by rewrite H1, orb_false_r.
    + intros nid. rewrite omap_app, lookup_union. cbn [omap list_omap].
      assert (Hh : forall (l : list step_error) x, head (l ++ match x with Some y => [y] | None => [] end) = head l ∪ x).
      { intros [|? ?] [|]; done. }
      specialize (Hh (omap (fun r : res child_output => match r with Ok o => co_errors o !! nid | Raise _ => None end) results) (co_errors o !! nid)).
      rewrite <- H2 in Hh. rewrite <- Hh. by destruct (co_errors o !! nid).
    + intros nid Hin. destruct (H3 nid Hin) as (o0 & Ho0 & Hl0).
      assert (Hctx : forall name, child_contexts nid name (results ++ [Ok o]) =
        child_contexts nid name results ++ match child_context nid name (Ok o) with Some c => [c] | None => [] end).
      { intros name. unfold child_contexts. rewrite omap_app. cbn [omap list_omap]. by destruct (child_context nid name (Ok o)). }
      destruct (gather_nodes_spec child_ids _ _ _ (NoDup_fst_map_to_list _) Hnodes nid) as [[Heq Hout]|(outs & o' & _ & Hl & Ho' & Hfold)].
      * exists o0. rewrite Heq. split; [done|]. destruct Hl0 as [Hw Hl0]. split; [done|]. intros name. rewrite Hl0, Hctx.
        cbn [child_context]. destruct (co_outcomes o !! nid) as [outs|] eqn:Hnid; [|cbn; by rewrite app_nil_r].
        exfalso. destruct Hout as [|Hout]; [done|]. apply Hout. apply elem_of_map_to_list in Hnid. by apply (list_elem_of_fmap_2 fst) in Hnid.
      * exists o'. split; [done|]. rewrite Ho0 in Hfold. cbn [default] in Hfold. apply elem_of_map_to_list in Hl.
        apply (gather_outcomes_spec _ _ _ (fun name => child_contexts nid name results)) in Hfold as [Hw Hl']; [|by eapply Hwf|done].
        split; [done|]. intros name. rewrite Hl', Hctx. cbn [child_context]. by rewrite Hl.
  - injection Hg as <-. split; cbn [has_any_failure node_errors per_node].
    + rewrite existsb_app. cbn. by rewrite orb_true_r.
    + intros nid. rewrite omap_app. cbn. by rewrite app_nil_r, H2.
    + intros nid Hin. destruct (H3 nid Hin) as (o0 & Ho0 & [Hw Hl0]). exists o0. split; [done|]. split; [done|]. intros name.
      rewrite Hl0. unfold child_contexts. rewrite omap_app. cbn. by rewrite app_nil_r.
Qed.

Lemma gather_children_describes child_ids results g :
  Forall result_wf results -> gather_children validate child_ids results = Ok g -> describes child_ids results g.
Proof.
  assert (Hgen : forall seen g0, Forall result_wf results -> describes child_ids seen g0 ->
    foldM (gather_child validate child_ids) g0 results = Ok g -> describes child_ids (seen ++ results) g).
  { induction results as [|r results IH]; intros seen g0 Hwf Hd Hf; cbn [foldM] in Hf; [by rewrite app_nil_r; injection Hf as <-|].
    apply Forall_cons in Hwf as [Hr Hwf]. apply res_bind_Ok in Hf as (g1 & Hg1 & Hf).
    change (r :: results) with ([r] ++ results). rewrite app_assoc. eapply IH; [done| |done]. by eapply gather_child_describes. }
  intros Hwf Hf. eapply (Hgen []); [done| |done]. split; cbn; [done|intros; by rewrite lookup_empty|].
  intros nid Hin. exists []. split; [|split; [apply dict_wf_nil|done]]. apply lookup_set_to_map; [done|]. by exists nid.
Qed.

(** One outcome's context: the children's merged, or the only one. *)
Definition merged_context (nid : string) (ctxs : list WorkflowContext) : res WorkflowContext :=
  match ctxs with [one] => Ok one | ctxs => merge_fan_out_contexts (Some nid) ctxs end.

Lemma merge_node_spec nid o m :
  dict_wf o -> merge_node nid o = Ok m ->
  forall name, match dget name o with
               | Some l => exists c, merged_context nid l = Ok c /\ dget name m = Some c
               | None => dget name m = None
               end.
Proof.
  unfold merge_node.
  assert (Hgen : forall acc, dict_wf o ->
    foldM (fun acc kv => merged ← match kv.2 with [one] => Ok one | ctxs => merge_fan_out_contexts (Some nid) ctxs end;
                         Ok (dset kv.1 merged acc)) acc o = Ok m ->
    forall name, match dget name o with
                 | Some l => exists c, merged_context nid l = Ok c /\ dget name m = Some c
                 | None => dget name m = dget name acc end).
  { induction o as [|[k l] o IH]; intros acc Hwf Hf name; cbn [foldM] in Hf; [by injection Hf as <-|].
    apply NoDup_cons in Hwf as [Hk Hwf]. apply res_bind_Ok in Hf as (acc1 & Ha & Hf). apply res_bind_Ok in Ha as (c & Hc & [= <-]).
    cbn [fst snd] in *. cbn [dget]. specialize (IH _ Hwf Hf name). destruct (decide (name = k)) as [->|Hne].
    - apply dget_None in Hk. rewrite Hk in IH. exists c. split; [by destruct l as [|? [|? ?]]|]. by rewrite IH, dget_dset_eq.
    - destruct (dget name o); [done|]. by rewrite IH, dget_dset_ne. }
  intros Hwf Hf name. specialize (Hgen [] Hwf Hf name). by destruct (dget name o).
Qed.

(** ** What the aggregation writes *)

(** The row of a node of the child branch, after. *)
Definition aggregated_row (final : bool) (g : gathered) (nid : string) (merged : option (dict WorkflowContext))
    (s : WorkflowStepResult) : WorkflowStepResult :=
  match default [] (per_node g !! nid) with
  | [] => if final then apply_step_values S_skipped (StepFields None None None None None None (Some (clock E))) s else s
  | outcomes => apply_step_values (derive_child_node_status outcomes (has_any_failure g))
                  (aggregated_fields E nid (default [] merged) (node_errors g !! nid)) s
  end.

Lemma update_open_run rid nid st f (d : tables) s :
  run_cancelled rid d = false -> steps d !! (rid, nid) = Some s ->
  update_step_result rid nid st f d = set_steps d (<[(rid, nid) := apply_step_values st f s]> (steps d)).
Proof. intros Hc Hs. unfold update_step_result. rewrite Hs, Hc, andb_false_r. done. Qed.

Lemma aggregate_nodes_spec rid final existing g ids m0 b0 (d : tables) m b d' :
  NoDup ids -> run_cancelled rid d = false -> (forall nid, nid ∈ ids -> existing !! (rid, nid) = steps d !! (rid, nid)) ->
  aggregate_nodes E rid final existing g ids m0 b0 d = (Ok (m, b), d') ->
  runs d' = runs d /\ groups d' = groups d /\ next_id d' = next_id d /\
  (forall k, steps d' !! k = if decide (k.1 = rid /\ k.2 ∈ ids) then aggregated_row final g k.2 (m !! k.2) <$> steps d !! k else steps d !! k) /\
  (forall nid, if decide (nid ∈ ids /\ default [] (per_node g !! nid) ≠ [])
               then exists c, merge_node nid (default [] (per_node g !! nid)) = Ok c /\ m !! nid = Some c
               else m !! nid = m0 !! nid) /\
  (b = true <-> b0 = true \/ exists nid, nid ∈ ids /\ default [] (per_node g !! nid) ≠ [] /\ is_Some (steps d !! (rid, nid)) /\
                  derive_child_node_status (default [] (per_node g !! nid)) (has_any_failure g) = S_failed).
Proof.
  revert m0 b0 d. induction ids as [|nid ids IH]; intros m0 b0 d Hnd Hc Hex Hrun.
  { injection Hrun as <- <- <-. split_and!; try done.
    - intros k. rewrite decide_False; [done|]. by intros [_ ?%not_elem_of_nil].
    - split; [by left|]. by intros [|(nid & ?%not_elem_of_nil & _)]. }
  apply NoDup_cons in Hnd as [Hnid Hnd].
  assert (Hstep : exists m1 b1 d1, aggregate_nodes E rid final existing g ids m1 b1 d1 = (Ok (m, b), d') /\
    runs d1 = runs d /\ groups d1 = groups d /\ next_id d1 = next_id d /\
    (forall k, steps d1 !! k = if decide (k = (rid, nid)) then aggregated_row final g nid (m1 !! nid) <$> steps d !! k else steps d !! k) /\
    (forall i, i ≠ nid -> m1 !! i = m0 !! i) /\
    (if decide (default [] (per_node g !! nid) = []) then m1 !! nid = m0 !! nid
     else exists c, merge_node nid (default [] (per_node g !! nid)) = Ok c /\ m1 !! nid = Some c) /\
    (b1 = true <-> b0 = true \/ (default [] (per_node g !! nid) ≠ [] /\ is_Some (steps d !! (rid, nid)) /\
       derive_child_node_status (default [] (per_node g !! nid)) (has_any_failure g) = S_failed))).
  { cbn [aggregate_nodes] in Hrun. rewrite Hex in Hrun by (by left). unfold aggregated_row.
    destruct (default [] (per_node g !! nid)) as [|kv o] eqn:Hpn.
    - do 3 eexists. split; [exact Hrun|].
      assert (Hrow : forall k, (if decide (k = (rid, nid)) then
          (if final then apply_step_values S_skipped (StepFields None None None None None None (Some (clock E))) else id) <$> steps d !! k
          else steps d !! k) = steps (match steps d !! (rid, nid) with Some _ => if final then update_step_result rid nid S_skipped
            (StepFields None None None None None None (Some (clock E))) d else d | None => d end) !! k).
      { intros k. destruct (steps d !! (rid, nid)) as [s|] eqn:Hs.
        - destruct final; [rewrite (update_open_run rid nid S_skipped _ d s) by done; cbn [set_steps steps]|].
          + destruct (decide (k = (rid, nid))) as [->|Hne]; [by rewrite lookup_insert_eq, Hs|by rewrite lookup_insert_ne].
          + destruct (decide (k = (rid, nid))) as [->|]; [by rewrite Hs|done].
        - destruct (decide (k = (rid, nid))) as [->|]; [by rewrite Hs|done]. }
      assert (Hkeep : forall (P : tables -> Prop), P d -> (forall x, P (set_steps d x)) ->
        P (match steps d !! (rid, nid) with Some _ => if final then update_step_result rid nid S_skipped
            (StepFields None None None None None None (Some (clock E))) d else d | None => d end)).
      { intros P H1 H2. destruct (steps d !! (rid, nid)) as [s|] eqn:Hs, final; try done. by rewrite (update_open_run rid nid S_skipped _ d s). }
      split; [by apply (Hkeep (fun x => runs x = runs d))|]. split; [by apply (Hkeep (fun x => groups x = groups d))|].
      split; [by apply (Hkeep (fun x => next_id x = next_id d))|]. split; [|split; [done|split; [by rewrite decide_True|]]].
      + intros k. rewrite <- Hrow. destruct (decide (k = (rid, nid))); [|done]. destruct (steps d !! k), final; done.
      + split; [by left|]. by intros [|[? _]].
    - destruct (merge_node nid (kv :: o)) as [c|e] eqn:Hm; [|done].
      destruct (steps d !! (rid, nid)) as [s|] eqn:Hs.
      + do 3 eexists. split; [exact Hrun|]. rewrite (update_open_run rid nid _ _ d s) by done. split_and!; try done.
        * intros k. cbn [set_steps steps]. destruct (decide (k = (rid, nid))) as [->|Hne]; [|by rewrite lookup_insert_ne].
          rewrite !lookup_insert_eq, Hs. done.
        * intros i Hi. by rewrite lookup_insert_ne.
        * exists c. by rewrite lookup_insert_eq.
        * rewrite orb_true_iff, bool_decide_eq_true. split; intros [|H]; try (by left); right; [done|tauto].
      + do 3 eexists. split; [exact Hrun|]. split_and!; try done.
        * intros k. destruct (decide (k = (rid, nid))) as [->|]; [by rewrite Hs|done].
        * intros i Hi. by rewrite lookup_insert_ne.
        * rewrite decide_False by done. exists c. by rewrite lookup_insert_eq.
        * split; [by left|]. intros [|(_ & [? ?] & _)]; done. }
  destruct Hstep as (m1 & b1 & d1 & Hrest & Hr & Hg & Hn & Hsteps & Hm & Hmn & Hb).
  destruct (IH m1 b1 d1 Hnd) as (IR & IG & IN & IS & IM & IB); [| |exact Hrest|].
  { unfold run_cancelled. by rewrite Hr. }
  { intros i Hi. rewrite Hsteps, decide_False, Hex; [done|by right|]. intros [= ->]. done. }
  assert (Hmnid : m !! nid = m1 !! nid).
  { specialize (IM nid). rewrite decide_False in IM; [done|]. by intros [? _]. }
  split_and!; [congruence|congruence|congruence| | |].
  - intros k. rewrite IS, Hsteps. destruct (decide (k = (rid, nid))) as [->|Hne]; cbn [fst snd].
    + rewrite decide_False by (by intros [_ ?]). rewrite decide_True by (split; [done|by left]). by rewrite Hmnid.
    + destruct (decide (k.1 = rid /\ k.2 ∈ ids)) as [[H1 H2]|Hno].
      * rewrite decide_True by (split; [done|by right]). done.
      * rewrite decide_False; [done|]. intros [H1 [H2|H2]%elem_of_cons]; [|by apply Hno]. apply Hne. destruct k; by simplify_eq/=.
  - intros i. specialize (IM i). destruct (decide (i = nid)) as [->|Hi].
    + rewrite Hmnid. destruct (decide (default [] (per_node g !! nid) = [])) as [He|He].
      * rewrite decide_False by (by intros [_ ?]). done.
      * rewrite decide_True by (split; [by left|done]). done.
    + destruct (decide (i ∈ ids /\ _)) as [[H1 H2]|Hno].
      * rewrite decide_True by (split; [by right|done]). done.
      * rewrite decide_False, IM; [by apply Hm|]. intros [[|]%elem_of_cons ?]; [done|by apply Hno].
  - rewrite IB, Hb. split.
    + intros [[|(H1 & H2 & H3)]|(i & Hi & H1 & H2 & H3)]; [by left|right; exists nid; split; [by left|done]|].
      right. exists i. split; [by right|]. rewrite Hsteps, decide_False in H2; [done|congruence].
    + intros [|(i & [->|Hi]%elem_of_cons & H1 & H2 & H3)]; [by left; left|left; by right|].
      right. exists i. split_and!; [done|done| |done]. rewrite Hsteps, decide_False; [done|congruence].
Qed.

Lemma sum_list_pos (l : list nat) : 0 < sum_list l <-> exists n, n ∈ l /\ 0 < n.
Proof.
  induction l as [|n l IH]; cbn; [split; [lia|by intros (? & ?%not_elem_of_nil & _)]|]. split.
  - intros H. destruct (decide (0 < n)) as [Hn|Hn]; [exists n; split; [by left|done]|].
    destruct IH as [[m [Hm Hp]] _]; [lia|]. exists m. split; [by right|done].
  - intros (m & [->|Hm]%elem_of_cons & Hp); [lia|]. assert (0 < sum_list l) by (apply IH; eauto). lia.
Qed.

Lemma devices_in_pos ctxs : 0 < devices_in ctxs <-> exists c, c ∈ ctxs /\ devices c ≠ [].
Proof.
  unfold devices_in. rewrite sum_list_pos. split.
  - intros (n & (c & -> & Hc)%list_elem_of_fmap & Hn). exists c. split; [done|]. intros He. rewrite He in Hn. cbn in Hn. lia.
  - intros (c & Hc & Hd). exists (length (devices c)). split; [by apply (list_elem_of_fmap_2 (fun c => length (devices c)))|].
    destruct (devices c); [done|cbn; lia].
Qed.

Lemma derive_child_node_status_spec o at_ crash :
  lists_at o at_ ->
  let lost := crash = true \/ exists c, c ∈ at_ "failure" /\ devices c ≠ [] in
  let kept := exists name c, name ≠ "failure" /\ c ∈ at_ name /\ devices c ≠ [] in
  (derive_child_node_status o crash = S_success /\ ~ lost) \/ (derive_child_node_status o crash = S_partial /\ lost /\ kept) \/
  (derive_child_node_status o crash = S_failed /\ lost /\ ~ kept).
Proof.
  intros [Hwf Hat]. cbv zeta. unfold derive_child_node_status.
  assert (Hf : 0 < devices_in (dget_or [] "failure" o) <-> exists c, c ∈ at_ "failure" /\ devices c ≠ []).
  { rewrite devices_in_pos. unfold dget_or. rewrite Hat. by destruct (at_ "failure"). }
  assert (Hk : 0 < sum_list ((fun kv => if decide (kv.1 = "failure") then 0 else devices_in kv.2) <$> o) <->
    exists name c, name ≠ "failure" /\ c ∈ at_ name /\ devices c ≠ []).
  { rewrite sum_list_pos. split.
    - intros (n & ([name l] & -> & Hin)%list_elem_of_fmap & Hn). cbn in Hn. case_decide as Hname; [lia|].
      apply devices_in_pos in Hn as (c & Hc & Hd). exists name, c. split; [done|]. split; [|done].
      apply elem_dget_Some in Hin; [|done]. rewrite Hat in Hin. destruct (at_ name); simplify_eq. done.
    - intros (name & c & Hname & Hc & Hd). exists (devices_in (at_ name)). split; [|apply devices_in_pos; eauto].
      assert (Hl : dget name o = Some (at_ name)). { rewrite Hat. destruct (at_ name); [by apply not_elem_of_nil in Hc|done]. }
      apply dget_Some_elem in Hl. apply (list_elem_of_fmap_2 (fun kv => if decide (kv.1 = "failure") then 0 else devices_in kv.2)) in Hl.
      cbn in Hl. by rewrite decide_False in Hl. }
  destruct crash; cbn [orb].
  - destruct (Nat.ltb_spec 0 (sum_list ((fun kv => if decide (kv.1 = "failure") then 0 else devices_in kv.2) <$> o))) as [Hp|Hp].
    + right; left. rewrite Hk in Hp. tauto.
    + right; right. split_and!; [done|by left|]. rewrite <- Hk. lia.
  - destruct (Nat.ltb_spec 0 (devices_in (dget_or [] "failure" o))) as [Hl|Hl].
    + rewrite Hf in Hl. destruct (Nat.ltb_spec 0 (sum_list ((fun kv => if decide (kv.1 = "failure") then 0 else devices_in kv.2) <$> o))) as [Hp|Hp].
      * right; left. rewrite Hk in Hp. tauto.
      * right; right. split_and!; [done|by right|]. rewrite <- Hk. lia.
    + left. split; [done|]. intros [|Hx]; [done|]. apply Hf in Hx. lia.
Qed.

Lemma lists_at_nonempty o at_ : lists_at o at_ -> o ≠ [] <-> exists name, at_ name ≠ [].
Proof.
  intros [Hwf Hat]. split.
  - destruct o as [|[k l] o]; [done|]. intros _. exists k. specialize (Hat k). cbn [dget] in Hat. rewrite decide_True in Hat by done.
    by destruct (at_ k).
  - intros [name Hn] ->. specialize (Hat name). cbn in Hat. by destruct (at_ name).
Qed.

(** C13. What the parent makes of its children. Of each outcome of each step
    of the branch it keeps the merge of what the children gave, in their
    order. A step no child ran is skipped (or left alone while batches are
    outstanding); one that ran is a success when no child crashed and no device
    failed there, else partial when some device came through, else failed. The
    parent proceeds as successful exactly when no child crashed and no step
    failed; and only rows of the branch are written. *)
Theorem aggregate_exact rid signal nodes edges results final (d : tables) success merged d' :
  Forall result_wf results -> run_cancelled rid d = false ->
  aggregate_and_persist E validate rid signal nodes edges results final d = (Ok (success, merged), d') ->
  let ids := child_node_ids (inventory_node_id signal) (join_node_id signal) nodes edges in
  let ran nid := exists name, child_contexts nid name results ≠ [] in
  let lost nid := Exists (fun r => is_ok r = false) results \/ exists c, c ∈ child_contexts nid "failure" results /\ devices c ≠ [] in
  let kept nid := exists name c, name ≠ "failure" /\ c ∈ child_contexts nid name results /\ devices c ≠ [] in
  (forall nid name c, nid ∈ ids ->
     (m ← merged !! nid; dget name m) = Some c <->
     child_contexts nid name results ≠ [] /\ merged_context nid (child_contexts nid name results) = Ok c) /\
  (forall nid s, nid ∈ ids -> steps d !! (rid, nid) = Some s ->
     exists s', steps d' !! (rid, nid) = Some s' /\
       (~ ran nid -> sstatus s' = if final then S_skipped else sstatus s) /\
       (ran nid -> (sstatus s' = S_success /\ ~ lost nid) \/ (sstatus s' = S_partial /\ lost nid /\ kept nid) \/
                   (sstatus s' = S_failed /\ lost nid /\ ~ kept nid))) /\
  (success = true <-> Forall (fun r => is_ok r = true) results /\
     forall nid, nid ∈ ids -> is_Some (steps d !! (rid, nid)) -> ran nid -> lost nid -> kept nid) /\
  runs d' = runs d /\ groups d' = groups d /\ (forall k, k.1 ≠ rid \/ k.2 ∉ ids -> steps d' !! k = steps d !! k).
Proof.
  intros Hwf Hc Hrun. cbv zeta. set (ids := child_node_ids _ _ _ _). unfold aggregate_and_persist in Hrun. fold ids in Hrun.
  destruct (gather_children validate ids results) as [g|e] eqn:Hg; [|done].
  apply gather_children_describes in Hg as [Dfail Derr Dnode]; [|done].
  destruct (aggregate_nodes _ _ _ _ _ _ _ _) as [[[m b]|e] d1] eqn:Hagg; simplify_eq.
  apply aggregate_nodes_spec in Hagg as (HR & HG & _ & HS & HM & HB); [|apply NoDup_elements|done|].
  2: { intros nid _. unfold get_step_results_for_run. rewrite map_lookup_filter. destruct (steps d !! (rid, nid)); [|done].
       cbn. by rewrite option_guard_True. }
  assert (Hcrash : has_any_failure g = true <-> Exists (fun r => is_ok r = false) results).
  { rewrite Dfail, existsb_exists, Exists_exists. setoid_rewrite list_elem_of_In. setoid_rewrite negb_true_iff. done. }
  assert (Hout : forall nid, nid ∈ ids -> exists o, per_node g !! nid = Some o /\ lists_at o (fun name => child_contexts nid name results) /\
    (default [] (per_node g !! nid) ≠ [] <-> exists name, child_contexts nid name results ≠ [])).
  { intros nid Hin. destruct (Dnode nid Hin) as (o & Ho & Hl). exists o. rewrite Ho. split_and!; [done|done|]. cbn. by apply lists_at_nonempty. }
  split_and!; [| | |done|done|].
  - intros nid name c Hin. destruct (Hout nid Hin) as (o & Ho & Hl & Hne). specialize (HM nid). rewrite Ho in HM, Hne. cbn [default] in *.
    case_decide as Hno.
    + destruct HM as (dm & Hdm & ->). cbn. pose proof (merge_node_spec nid o dm (proj1 Hl) Hdm name) as Hmn.
      rewrite (proj2 Hl name) in Hmn. destruct (child_contexts nid name results) as [|x l] eqn:Hx.
      * rewrite Hmn. split; [done|by intros [? _]].
      * destruct Hmn as (c' & Hc' & ->). rewrite Hc'. split; [by intros [= ->]|by intros [_ [= ->]]].
    + rewrite HM, lookup_empty. split; [done|]. intros [Hx _]. exfalso. apply Hno. split; [by apply elem_of_elements|]. apply Hne. eauto.
  - intros nid s Hin Hs. destruct (Hout nid Hin) as (o & Ho & Hl & Hne). specialize (HS (rid, nid)). cbn [fst snd] in HS.
    rewrite decide_True in HS by (split; [done|by apply elem_of_elements]). rewrite Hs in HS. cbn in HS. eexists. split; [exact HS|].
    unfold aggregated_row. rewrite Ho in Hne |- *. cbn [default] in *. pose proof (derive_child_node_status_spec o _ (has_any_failure g) Hl) as Hd.
    cbv zeta in Hd. rewrite Hcrash in Hd. destruct o as [|kv o].
    + split; [by destruct final|]. intros Hran. exfalso. by apply Hne in Hran.
    + split; [intros Hn; exfalso; by apply Hn, Hne|]. intros _. exact Hd.
  - rewrite negb_true_iff, orb_false_iff. split.
    + intros [H1 H2]. split.
      * apply Forall_forall. intros r Hr. destruct (is_ok r) eqn:Hok; [done|]. assert (has_any_failure g = true); [|congruence].
        apply Hcrash, Exists_exists. eauto.
      * intros nid Hin Hrow Hran Hlost. destruct (Hout nid Hin) as (o & Ho & Hl & Hne). rewrite Ho in Hne. cbn [default] in Hne.
        pose proof (derive_child_node_status_spec o _ (has_any_failure g) Hl) as Hd. cbv zeta in Hd. rewrite Hcrash in Hd.
        destruct Hd as [[_ ?]|[(_ & _ & ?)|(Hd & _ & _)]]; [done|done|]. exfalso. assert (b = true); [|congruence].
        apply HB. right. exists nid. rewrite Ho. cbn [default]. split_and!; [by apply elem_of_elements|by apply Hne|done|done].
    + intros [H1 H2]. assert (Hnc : has_any_failure g = false).
      { apply not_true_iff_false. rewrite Hcrash, Exists_exists. intros (r & Hr & Hno). rewrite Forall_forall in H1. specialize (H1 r Hr). congruence. }
      split; [done|]. apply not_true_iff_false. rewrite HB. intros [|(nid & Hin%elem_of_elements & Hon & Hrow & Hst)]; [done|].
      destruct (Hout nid Hin) as (o & Ho & Hl & Hne). rewrite Ho in Hst, Hon, Hne.
      change (default [] (Some o)) with o in *.
      pose proof (derive_child_node_status_spec o _ (has_any_failure g) Hl) as Hd. cbv zeta in Hd. rewrite Hcrash in Hd.
      destruct Hd as [[? _]|[(? & _ & _)|(_ & Hlost & Hk)]]; [congruence|congruence|]. apply Hk, (H2 nid Hin Hrow); [by apply Hne|done].
  - intros k Hk. rewrite HS, decide_False; [done|]. rewrite elem_of_elements. tauto.
Qed.
End AggregateFacts.

(** ** Saving batches early leaves no trace *)

Section Absorption.
Context (E : engine) (validate : json -> res WorkflowContext).

(** What [aggregate_nodes] returns depends on which rows exist only. *)
Lemma aggregate_nodes_result rid final ex1 ex2 g ids m b (d1 d2 : tables) :
  (forall nid, nid ∈ ids -> is_Some (ex1 !! (rid, nid)) <-> is_Some (ex2 !! (rid, nid))) ->
  (aggregate_nodes E rid final ex1 g ids m b d1).1 = (aggregate_nodes E rid final ex2 g ids m b d2).1.
Proof.
  revert m b d1 d2. induction ids as [|nid ids IH]; intros m b d1 d2 Hex; [done|]. cbn [aggregate_nodes].
  assert (Hrest : forall i, i ∈ ids -> is_Some (ex1 !! (rid, i)) <-> is_Some (ex2 !! (rid, i))) by (intros i Hi; apply Hex; by right).
  assert (Hhere : is_Some (ex1 !! (rid, nid)) <-> is_Some (ex2 !! (rid, nid))) by (apply Hex; by left).
  destruct (default [] (per_node g !! nid)); [by apply IH|]. destruct (merge_node nid _); [|done].
  destruct (ex1 !! (rid, nid)), (ex2 !! (rid, nid)); try (by apply IH).
  - destruct (proj1 Hhere) as [? [=]]. by eexists.
  - destruct (proj2 Hhere) as [? [=]]. by eexists.
Qed.

(** Writing twice: each column the first write set is set again, to the same or
    whatever. *)
Definition overwrites {A} (f1 f2 : option A) : Prop := (f1 = None \/ f1 = f2) \/ is_Some f2.
Lemma or_keep_overwrites {A} (f1 f2 v : option A) : overwrites f1 f2 -> or_keep f2 (or_keep f1 v) = or_keep f2 v.
Proof. intros [[->| ->]|[x ->]]; [done| |done]. by destruct f2. Qed.

Lemma apply_step_values_absorbs st1 st2 f1 f2 s :
  overwrites (sf_output f1) (sf_output f2) -> overwrites (sf_error_message f1) (sf_error_message f2) ->
  overwrites (sf_error_category f1) (sf_error_category f2) -> overwrites (sf_error_id f1) (sf_error_id f2) ->
  overwrites (sf_failure f1) (sf_failure f2) -> overwrites (sf_started_at f1) (sf_started_at f2) ->
  overwrites (sf_finished_at f1) (sf_finished_at f2) ->
  apply_step_values st2 f2 (apply_step_values st1 f1 s) = apply_step_values st2 f2 s.
Proof.
  intros H1 H2 H3 H4 H5 H6 H7. unfold apply_step_values.
  cbn [step_type step_name s_started_at s_finished_at s_output s_error_message s_error_category s_error_id s_failure].
  by rewrite !or_keep_overwrites.
Qed.

(** A later save of a row absorbs an earlier one made from fewer children. *)
Lemma aggregated_row_absorbs final ids seen more g1 g2 nid m1 m2 s :
  describes validate ids seen g1 -> describes validate ids (seen ++ more) g2 -> nid ∈ ids ->
  aggregated_row E final g2 nid m2 (aggregated_row E false g1 nid m1 s) = aggregated_row E final g2 nid m2 s.
Proof.
  intros [F1 E1 N1] [F2 E2 N2] Hin. destruct (N1 nid Hin) as (o1 & Ho1 & Hl1), (N2 nid Hin) as (o2 & Ho2 & Hl2).
  unfold aggregated_row. rewrite Ho1, Ho2. change (default [] (Some o1)) with o1. change (default [] (Some o2)) with o2.
  pose proof (lists_at_nonempty _ _ Hl1) as Hne1. pose proof (lists_at_nonempty _ _ Hl2) as Hne2.
  destruct o1 as [|kv1 o1]; [done|]. destruct o2 as [|kv2 o2].
  - exfalso. destruct (proj1 Hne1) as [name Hname]; [done|]. apply Hne2; [|done]. exists name.
    unfold child_contexts in *. rewrite omap_app. intros [Hx _]%app_eq_nil. by apply Hname.
  - assert (Herr : forall e, node_errors g1 !! nid = Some e -> node_errors g2 !! nid = Some e).
    { intros e. rewrite E1, E2, omap_app. destruct (omap _ seen); [done|]. cbn. done. }
    apply apply_step_values_absorbs; unfold aggregated_fields; cbn [sf_output sf_error_message sf_error_category sf_error_id sf_failure sf_started_at sf_finished_at].
    1, 6, 7: by right.
    1, 2, 3: destruct (node_errors g1 !! nid) as [e|] eqn:H1; [rewrite (Herr e eq_refl); left; by right|left; by left].
    destruct (node_errors g1 !! nid) as [e|] eqn:H1; [rewrite (Herr e eq_refl); left; by right|left; by left].
Qed.

Lemma tables_eq (d1 d2 : tables) :
  runs d1 = runs d2 -> groups d1 = groups d2 -> next_id d1 = next_id d2 -> (forall k, steps d1 !! k = steps d2 !! k) -> d1 = d2.
Proof. destruct d1, d2. cbn. intros -> -> -> H. f_equal. by apply map_eq. Qed.

(** The save of a finished prefix, then the save of everything, is the save of everything. *)
Lemma aggregate_absorbs rid signal nodes edges seen more final (d : tables) x d1 y d2 :
  Forall result_wf (seen ++ more) -> run_cancelled rid d = false ->
  aggregate_and_persist E validate rid signal nodes edges seen false d = (Ok x, d1) ->
  aggregate_and_persist E validate rid signal nodes edges (seen ++ more) final d = (Ok y, d2) ->
  aggregate_and_persist E validate rid signal nodes edges (seen ++ more) final d1 = (Ok y, d2).
Proof.
  intros Hwf Hc H1 H2. unfold aggregate_and_persist in *. set (ids := child_node_ids _ _ _ _) in *.
  destruct (gather_children validate ids seen) as [g1|] eqn:Hg1; [|done].
  destruct (gather_children validate ids (seen ++ more)) as [g2|] eqn:Hg2; [|done].
  apply gather_children_describes in Hg1; [|by apply Forall_app in Hwf as [? _]]. apply gather_children_describes in Hg2; [|done].
  destruct (aggregate_nodes _ rid false _ _ _ _ _ d) as [[[m1 b1]|] e1] eqn:HA1; simplify_eq.
  destruct (aggregate_nodes _ rid final _ _ _ _ _ d) as [[[m2 b2]|] e2] eqn:HA2; simplify_eq.
  assert (Hrows : forall (d0 : tables) nid, nid ∈ elements ids -> get_step_results_for_run rid d0 !! (rid, nid) = steps d0 !! (rid, nid)).
  { intros d0 nid _. unfold get_step_results_for_run. rewrite map_lookup_filter. destruct (steps d0 !! (rid, nid)); [|done].
    cbn. by rewrite option_guard_True. }
  pose proof (aggregate_nodes_spec _ _ _ _ _ _ _ _ _ _ _ _ (NoDup_elements ids) Hc (Hrows d) HA1) as (R1 & G1 & I1 & S1 & _ & _).
  pose proof (aggregate_nodes_spec _ _ _ _ _ _ _ _ _ _ _ _ (NoDup_elements ids) Hc (Hrows d) HA2) as (R2 & G2 & I2 & S2 & _ & _).
  assert (Hsome : forall nid, nid ∈ elements ids -> is_Some (get_step_results_for_run rid d1 !! (rid, nid)) <-> is_Some (get_step_results_for_run rid d !! (rid, nid))).
  { intros nid Hin. rewrite !Hrows by done. rewrite S1, decide_True by done. cbn. by rewrite fmap_is_Some. }
  pose proof (aggregate_nodes_result rid final _ _ g2 (elements ids) ∅ false d1 d Hsome) as Hres. rewrite HA2 in Hres. cbn [fst] in Hres.
  destruct (aggregate_nodes _ rid final (get_step_results_for_run rid d1) _ _ _ _ d1) as [r3 e3] eqn:HA3. cbn [fst] in Hres. subst r3.
  assert (Hc1 : run_cancelled rid d1 = false) by (unfold run_cancelled in *; by rewrite R1).
  pose proof (aggregate_nodes_spec _ _ _ _ _ _ _ _ _ _ _ _ (NoDup_elements ids) Hc1 (Hrows d1) HA3) as (R3 & G3 & I3 & S3 & _ & _).
  f_equal. apply tables_eq; [congruence|congruence|congruence|]. intros k. rewrite S3, S2, S1.
  destruct (decide _) as [[_ Hin]|]; [|done]. rewrite <- option_fmap_compose.
  destruct (steps d !! k) as [s|]; [|done]. cbn. f_equal. eapply aggregated_row_absorbs; [done|done|]. by apply elem_of_elements.
Qed.
End Absorption.

(** ** The two status derivations

    [_derive_child_node_status] is meant to mirror [derive_step_result_status];
    they differ on a step that ends devices under other names than [success],
    and on a failed git operation without devices. *)
Lemma child_status_diverges :
  let matched := Outcome "match" (sample_run_context OK) None None in
  let lost := Outcome "failure" (sample_run_context FAILED) None None in
  let git := Outcome "failure" (Workflow "r" "7" 2 [] [] [("n.git_operation", JDict [("success", JBool false)])]) None None in
  derive_step_result_status [matched; lost] = S_failed /\
  derive_child_node_status [("match", [so_context matched]); ("failure", [so_context lost])] false = S_partial /\
  derive_step_result_status [git] = S_failed /\
  derive_child_node_status [("failure", [so_context git])] false = S_success.
Proof. vm_compute. done. Qed.

(** ** A fan-out on which the theorems are exercised *)

Definition sample_devices (ids : list string) (st : DeviceStatus) : WorkflowContext :=
  Workflow "r" "7" 2 ((fun i => (i, Device i i i None None None "nautobot" i [] None None [] [] [] [] {[IDENTITY]} st [])) <$> ids) [] [].
Definition sample_signal : FanOutSignal :=
  Signal "inv" [("enabled", JBool true); ("mode", JStr "chunked"); ("chunk_size", JStr "2")] (sample_devices ["d1"; "d2"; "d3"] OK) ∅ None.
Definition sample_plan : FanOutDispatchPlan :=
  DispatchPlan [["d1"; "d2"]; ["d3"]] 0 false [] ["d1"; "d2"; "d3"] (devices (inventory_outcome sample_signal)).

Lemma fan_out_dispatch_exact_witness :
  parse_fan_out_dispatch sample_signal = Ok sample_plan /\
  groups (precreate_device_groups 1 sample_plan sample_tables) !! (1, 1) = Some (Group ["d3"] G_pending [] None None None).
Proof.
  assert (Hp : parse_fan_out_dispatch sample_signal = Ok sample_plan) by reflexivity. split; [done|].
  destruct (fan_out_dispatch_exact sample_signal 1 sample_plan sample_tables Hp) as (_ & _ & H).
  - apply (bool_decide_unpack _). by vm_compute.
  - intros i. apply lookup_empty.
  - specialize (H 1). exact (proj2 (proj2 H)).
Defined.

(** The branch [inv -> a -> z]: the second child lost its device at [a]. *)
Definition sample_children : list (res child_output) :=
  [Ok (ChildOutput ∅ {["a" := [("success", dump (sample_devices ["d1"; "d2"] OK)); ("failure", dump (sample_devices [] OK))]]});
   Ok (ChildOutput ∅ {["a" := [("failure", dump (sample_devices ["d3"] FAILED))]]})].
Definition sample_validate (j : json) : res WorkflowContext :=
  match filter (fun c => dump c = j) [sample_devices ["d1"; "d2"] OK; sample_devices [] OK; sample_devices ["d3"] FAILED] with
  | c :: _ => Ok c
  | [] => Raise (ValueError "not a context" [])
  end.
Definition branch_nodes : list node := [mk_node "inv" "get-devices"; mk_node "a" "act"; mk_node "z" "act"].
Definition branch_edges : list edge := [mk_edge "inv" "a"; mk_edge "a" "z"].
Definition branch_tables : tables :=
  Tables {[1 := sample_row]} {[(1, "a") := new_step_row "act" "a"; (1, "z") := new_step_row "act" "z"]} ∅ 2.

Lemma result_wf_singleton errs nid outs : NoDup (dkeys outs) -> result_wf (Ok (ChildOutput errs {[nid := outs]})).
Proof. intros Hnd o nid' outs' [= <-] Hout. cbn in Hout. apply lookup_singleton_Some in Hout as [_ <-]. exact Hnd. Qed.

Lemma sample_children_wf : Forall result_wf sample_children.
Proof.
  apply Forall_cons. split; [|apply Forall_singleton]; apply result_wf_singleton.
  - change (NoDup ["success"; "failure"]). apply (bool_decide_unpack _). by vm_compute.
  - change (NoDup ["failure"]). apply NoDup_singleton.
Qed.

Lemma aggregate_exact_witness :
  let out := aggregate_and_persist sample_engine sample_validate 1 sample_signal branch_nodes branch_edges sample_children true branch_tables in
  exists success merged s, out.1 = Ok (success, merged) /\ success = true /\
    steps out.2 !! (1, "a") = Some s /\ sstatus s = S_partial /\
    (sstatus <$> steps out.2 !! (1, "z")) = Some S_skipped.
Proof.
  intros out. assert (Hok : is_ok out.1 = true) by (vm_compute; reflexivity).
  destruct out as [[[success merged]|e] d'] eqn:Hout; [|done]. subst out.
  destruct (aggregate_exact sample_engine sample_validate 1 sample_signal branch_nodes branch_edges sample_children true branch_tables
    success merged d' sample_children_wf eq_refl Hout) as (_ & Hrows & _).
  destruct (Hrows "a" (new_step_row "act" "a")) as (s & Hs & _ & _).
  - apply (bool_decide_unpack _). by vm_compute.
  - vm_compute. reflexivity.
  - assert (Hd : d' = (aggregate_and_persist sample_engine sample_validate 1 sample_signal branch_nodes branch_edges sample_children true branch_tables).2)
      by (by rewrite Hout).
    assert (Hsu : (match (aggregate_and_persist sample_engine sample_validate 1 sample_signal branch_nodes branch_edges sample_children true branch_tables).1
      with Ok (b, _) => b | Raise _ => false end) = true) by (vm_compute; reflexivity).
    rewrite Hout in Hsu. cbn in Hsu.
    exists success, merged, s. split; [done|]. split; [done|]. split; [done|].
    split; [|cbn; rewrite Hd; vm_compute; reflexivity].
    assert (Hst : (sstatus <$> steps d' !! (1, "a")) = Some S_partial) by (rewrite Hd; vm_compute; reflexivity).
    cbn in Hs. rewrite Hs in Hst. by injection Hst.
Defined.
