(* ===== verification/RunAccess.v ===== *)
(** * Who may do what with a run ([services/execution/run_service.py])

    The checks [RunService] makes before it touches a run: the workflow's
    visibility, the run's owner, the approval gate, the lineage of a child run.
    Roles and permissions are what the RBAC service answers: the interface
    [Rbac].  [workflows] is the workflows table. *)
From S2P Require Import Prelude Dict Json Graph Context RunStore RunInputs Subgraph.

(** [services/auth/rbac_service.py], as its clients see it *)
Class Rbac := {
  has_role : nat -> string -> bool;
  has_permission : nat -> string -> string -> bool
}.

(** [core/domain_exceptions.py] *)
Definition NotFoundError : exn := OtherError "NotFoundError".
Definition AccessDeniedError : exn := OtherError "AccessDeniedError".
Definition ValidationFailedError : exn := OtherError "ValidationFailedError".
Definition ConflictError : exn := OtherError "ConflictError".

Definition MAX_CHILD_RUN_DEPTH : nat := 3.

Section Access.
Context `{Rbac} (workflows : nat -> option workflow).

Definition assert_workflow_access (workflow_id user_id : nat) : res workflow :=
  match workflows workflow_id with
  | None => Raise NotFoundError
  | Some wf => if String.eqb (visibility wf) "private" && negb (bool_decide (creator_id wf = Some user_id))
               then Raise AccessDeniedError else Ok wf
  end.

Definition run_owner_id (row : WorkflowRun) : option nat :=
  match triggered_by_id row with
  | Some u => Some u
  | None => wf ← workflows (run_workflow_id row); creator_id wf
  end.

Definition assert_run_control (row : WorkflowRun) (user_id : nat) (allow_admin : bool) : res unit :=
  if bool_decide (run_owner_id row = Some user_id) then Ok tt
  else if allow_admin && has_role user_id "admin" then Ok tt
  else Raise AccessDeniedError.

(** [_require_awaiting_batch]: the approval state the run is paused with. *)
Definition require_awaiting_batch (run user_id : nat) (d : tables) : res (WorkflowRun * dict json) :=
  match runs d !! run with
  | None => Raise NotFoundError
  | Some row =>
      _ ← assert_workflow_access (run_workflow_id row) user_id;
      _ ← assert_run_control row user_id false;
      let state := match approval_state row with Some (JDict s) => s | _ => [] end in
      if negb (bool_decide (rstatus row = R_paused)) || negb match dget "awaiting" state with Some v => truthy v | None => false end
      then Raise ConflictError else Ok (row, state)
  end.

(** [require_child_target] *)
Definition require_child_target (parent_run : WorkflowRun) (workflow_id : nat) : res workflow :=
  match triggered_by_id parent_run with
  | None => Raise ValidationFailedError
  | Some user_id =>
      wf ← assert_workflow_access workflow_id user_id;
      if has_permission user_id "workflows" "execute" then Ok wf else Raise AccessDeniedError
  end.

(** [_child_run_ancestors] *)
Definition child_run_ancestors (parent_run : WorkflowRun) (workflow_id : nat) : res (list nat) :=
  let chain := default [] (ancestor_workflow_ids parent_run) ++ [run_workflow_id parent_run] in
  if bool_decide (workflow_id ∈ chain) then Raise ValidationFailedError
  else if MAX_CHILD_RUN_DEPTH <? length chain then Raise ValidationFailedError
  else Ok chain.
End Access.

(** * Facts *)

Section AccessFacts.
Context `{Rbac} (workflows : nat -> option workflow).

Lemma assert_run_control_owner row u : assert_run_control workflows row u false = Ok tt <-> run_owner_id workflows row = Some u.
Proof.
  unfold assert_run_control. case_bool_decide as Ho; [done|]. split; [done|]. intros Ho'. by destruct Ho.
Qed.

Lemma require_awaiting_batch_spec run u d row state :
  require_awaiting_batch workflows run u d = Ok (row, state) ->
  runs d !! run = Some row /\ run_owner_id workflows row = Some u /\ rstatus row = R_paused /\
  approval_state row = Some (JDict state).
Proof.
  unfold require_awaiting_batch. destruct (runs d !! run) as [r|]; [|done]. intros Hok.
  apply res_bind_Ok in Hok as (wf & _ & Hok). apply res_bind_Ok in Hok as ([] & Hc%assert_run_control_owner & Hok).
  destruct (_ || _) eqn:Hg; [done|]. injection Hok as <- <-. apply orb_false_iff in Hg as [Hp Ha].
  apply negb_false_iff, bool_decide_eq_true in Hp. apply negb_false_iff in Ha. split_and!; [done|done|done|].
  destruct (approval_state r) as [[]|]; try done.
Qed.
End AccessFacts.
