(* ===== verification/RunService.v ===== *)
(** * Starting and cancelling runs

    [services/execution/run_service.py] (the operations that change state),
    [services/execution/dispatch_breaker.py], [services/execution/schedule_fire.py],
    [hatchet/workflows/dispatch.py] and [run_metadata.py].

    Each method is a process (Process.v) over [system]: the database, the
    dispatch breaker of the web process and what the engine was asked to do.
    Its stretches are the committed transactions, its reads of fresh rows and
    its calls to the engine; between two of them anything may happen.

    [Services] is what the service gets from elsewhere: the workflows table, the
    validator, the release stamp, and the answers of the Hatchet engine. *)
From stdpp Require Import pretty.
From S2P Require Import Prelude Dict Json Graph Context RunStore RunInputs Subgraph ChangeStore RunAccess Process.

(** What is asked of the engine and of the file store *)
Inductive engine_call :=
  | Call_run (workflow_name : string) (run : nat) (metadata : dict string)
  | Call_cancel (hatchet_id : string)
  | Call_delete_artifacts (run_uuid : string)
  | Call_delete_run_dir (workflow : nat) (run_uuid : string).

Record system := System {
  wall : Z;                       (* [datetime.now(UTC)], seconds *)
  mono : Z;                       (* [time.monotonic()], seconds *)
  store : world;
  open_until : Z;                 (* [DispatchBreaker._open_until] *)
  calls : list engine_call        (* newest first *)
}.

Definition set_store (w : world) (s : system) : system := System (wall s) (mono s) w (open_until s) (calls s).
Definition set_tables (d : tables) (s : system) : system := set_store (set_db d (store s)) s.
Definition tables_of (s : system) : tables := db (store s).
Definition set_open_until (t : Z) (s : system) : system := System (wall s) (mono s) (store s) t (calls s).
Definition log_call (c : engine_call) (s : system) : system :=
  System (wall s) (mono s) (store s) (open_until s) (c :: calls s).

Class Services := {
  rbac :: Rbac;
  workflows : nat -> option workflow;
  workflow_name : nat -> option string;
  ai_release_stamp : nat -> option string;
  ai_result_node : nat -> option string;
  release_is_current : nat -> bool;
  background_tier : nat -> option string;              (* [BackgroundTierRepository.get_by_workflow_id] *)
  blocking_errors : workflow -> option nat -> list string;  (* the findings of severity error, [code: message] *)
  validate_reference_inputs : workflow -> dict json -> option nat -> res unit;
  exn_text : exn -> string;                            (* [str(exc)] *)
  encrypt : string -> string;
  uuid4 : system -> string;
  run_no_wait : string -> nat -> system -> option string;  (* the engine's run id, [None] when the call raises *)
  engine_cancel : string -> system -> bool                 (* [false] when the call raises *)
}.

Definition HTTPException : exn := OtherError "HTTPException".
Definition EngineUnavailableError : exn := RuntimeError "a recent dispatch to Hatchet failed" [].
Definition AiReleaseNotCurrentError : exn := OtherError "AiReleaseNotCurrentError".
Definition RecursionError : exn := OtherError "RecursionError".
Definition ReferenceValidationError : exn := OtherError "ReferenceValidationError".

(** What [resolve_run_inputs] raises is a [RunInputValidationError], a malformed
    declaration (a [pydantic] error) apart. *)
Definition is_run_input_error (e : exn) : bool :=
  match e with ValueError msg _ => negb (String.eqb msg "StaticAttributeDef") | _ => false end.

(** ** [DispatchBreaker] *)

Definition DEFAULT_OPEN_SECONDS : Z := 15.
Definition breaker_is_open (s : system) : bool := (mono s <? open_until s)%Z.
Definition record_failure (s : system) : system := set_open_until (mono s + DEFAULT_OPEN_SECONDS)%Z s.
Definition record_success (s : system) : system := set_open_until 0 s.

(** ** Database access *)

Definition on_tables {X} (f : system -> tables -> X * tables) : proc system X :=
  tx (fun s => let (x, d) := f s (tables_of s) in (x, set_tables d s)).

(** [db.refresh(run)]: the row as it is now. *)
Definition refresh (run : nat) : proc system WorkflowRun :=
  row ← read (fun s => runs (tables_of s) !! run);
  match row with Some r => mret r | None => raise (OtherError "InvalidRequestError") end.

Definition get_run_or_404 (run : nat) : proc system WorkflowRun :=
  row ← read (fun s => runs (tables_of s) !! run);
  match row with Some r => mret r | None => raise NotFoundError end.

Definition guard_or (e : exn) (b : bool) : proc system unit := if b then mret tt else raise e.

Definition at_ (t : Z) : run_fields := Fields None None None None None (Some t) None None None.

(** [run.change_request_id = ...; run.ai_result_node_id = ...] *)
Definition link_row (cr : option nat) (ai : option string) (r : WorkflowRun) : WorkflowRun :=
  Run (uuid r) (run_workflow_id r) (triggered_by_id r) (rstatus r) (trigger_type r) (current_node_id r)
    (debug_message r) (approval_state r) (device_ids r) (run_inputs r) (hatchet_run_id r) cr
    (parent_run_id r) (ancestor_workflow_ids r) ai (error_message r) (error_category r) (error_id r)
    (started_at r) (finished_at r) (run_created_at r).

(** [run.run_inputs = run_inputs] *)
Definition input_row (inputs : dict json) (r : WorkflowRun) : WorkflowRun :=
  Run (uuid r) (run_workflow_id r) (triggered_by_id r) (rstatus r) (trigger_type r) (current_node_id r)
    (debug_message r) (approval_state r) (device_ids r) inputs (hatchet_run_id r) (change_request_id r)
    (parent_run_id r) (ancestor_workflow_ids r) (ai_result_node_id r) (error_message r) (error_category r) (error_id r)
    (started_at r) (finished_at r) (run_created_at r).

Definition patch_run (run : nat) (f : WorkflowRun -> WorkflowRun) : proc system unit :=
  on_tables (fun _ d => (tt, match runs d !! run with Some r => set_runs d (<[run := f r]> (runs d)) | None => d end)).

Section Service.
Context `{Services}.

(** ** Dispatch *)

Definition run_trigger_options (run_id : nat) (name : option string) (trigger_type : string) (parent : option nat)
    : dict string :=
  let metadata := [("run_id", pretty run_id); ("trigger_type", trigger_type)] in
  let metadata := match name with
                  | Some n => if String.eqb n "" then metadata else dset "workflow_name" n metadata
                  | None => metadata
                  end in
  match parent with Some p => dset "parent_run_id" (pretty p) metadata | None => metadata end.

(** [resolve_dispatch_workflow] *)
Definition resolve_dispatch_workflow (workflow_id : nat) : string := default "WorkflowExecution" (background_tier workflow_id).

(** The call itself: its arguments are logged, the engine's answer returned. *)
Definition call_engine (workflow_id run_id : nat) (trigger_type : string) (parent : option nat) : proc system string :=
  let name := resolve_dispatch_workflow workflow_id in
  answer ← tx (fun s => (run_no_wait name run_id s,
      log_call (Call_run name run_id (run_trigger_options run_id (workflow_name workflow_id) trigger_type parent)) s));
  match answer with Some h => mret h | None => raise (OtherError "Exception") end.

Definition engine_unavailable (error_id : string) : run_fields :=
  Fields None (Some "Workflow execution engine unavailable") (Some "internal") (Some error_id) None None None None None.

(** The [try] of [_create_and_dispatch_run] *)
Definition hand_to_engine (workflow_id run_id : nat) (trigger_type : string) (parent : option nat) : proc system nat :=
  catch (fun exc =>
      _ ← (if decide (exc = EngineUnavailableError) then mret tt else write record_failure);
      _ ← on_tables (fun s => update_run_status run_id R_failed (engine_unavailable (uuid4 s)) false);
      raise HTTPException)
   (is_open ← read breaker_is_open;
    _ ← guard_or EngineUnavailableError (negb is_open);
    hatchet_run_id ← call_engine workflow_id run_id trigger_type parent;
    _ ← write record_success;
    _ ← on_tables (fun _ d => (tt, record_hatchet_run_id run_id hatchet_run_id d));
    mret run_id).

(** [_create_and_dispatch_run] *)
Definition create_and_dispatch_run (workflow_id : nat) (wf : workflow) (triggered_by : option nat) (trigger_type : string)
    (devs : list string) (inputs : dict json) (change_request : option nat) (parent : option nat)
    (ancestors : option (list nat)) (ai_result : option string) : proc system nat :=
  _ ← guard_or ValidationFailedError (bool_decide (blocking_errors wf triggered_by = []));
  run_id ← on_tables (fun s => create_run (wall s) (uuid4 s) workflow_id triggered_by trigger_type devs inputs parent ancestors);
  _ ← match change_request, ai_result with
      | None, None => mret tt
      | _, _ => patch_run run_id (link_row change_request ai_result)
      end;
  hand_to_engine workflow_id run_id trigger_type parent.

(** A caught error turned into a 400 *)
Definition or_400 {A} (caught : exn -> bool) (r : res A) : res A :=
  match r with
  | Ok a => Ok a
  | Raise e => Raise (if caught e then ValidationFailedError else e)
  end.
Definition is_reference_error (e : exn) : bool := bool_decide (e = ReferenceValidationError).
Definition resolve_or_400 (wf : workflow) (supplied : dict json) : res (dict json) :=
  or_400 is_run_input_error (resolve_run_inputs encrypt (static_attributes wf) supplied).

Definition trigger_run (workflow_id : nat) (devs : list string) (trigger_type : string) (supplied : dict json) (user_id : nat)
    : proc system nat :=
  wf ← lift (assert_workflow_access workflows workflow_id user_id);
  inputs ← lift (resolve_or_400 wf supplied);
  create_and_dispatch_run workflow_id wf (Some user_id) trigger_type devs inputs None None None None.

Definition trigger_ai_run (workflow_id user_id : nat) (supplied : dict json) (expected_stamp : string) : proc system nat :=
  wf ← lift (assert_workflow_access workflows workflow_id user_id);
  _ ← guard_or AiReleaseNotCurrentError (release_is_current workflow_id);
  _ ← guard_or AiReleaseNotCurrentError (String.eqb expected_stamp (default "" (ai_release_stamp workflow_id)));
  inputs ← lift (resolve_or_400 wf supplied);
  _ ← lift (or_400 is_reference_error (validate_reference_inputs wf inputs (Some user_id)));
  create_and_dispatch_run workflow_id wf (Some user_id) "ai_assistant" [] inputs None None None (ai_result_node workflow_id).

(** ** Cancelling *)

Definition UNREACHABLE_NOTE : string :=
  "The engine could not be reached; the run is cancelled here and the worker stops at the next step boundary.".

(** [_cancel_active_run] *)
Definition cancel_active_run (run : nat) : proc system bool :=
  won ← on_tables (fun s => transition_run run R_cancelled None (at_ (wall s)));
  _ ← refresh run;
  if negb won then mret false else
  _ ← on_tables (fun s d => (tt, finalise_open_step_results (wall s) run "Cancelled by the operator" d));
  row ← refresh run;
  match hatchet_run_id row with
  | None | Some "" => mret true
  | Some h =>
      reached ← tx (fun s => (engine_cancel h s, log_call (Call_cancel h) s));
      if reached : bool then mret true else
      _ ← on_tables (fun _ => transition_run run R_cancelled (Some [R_cancelled])
             (Fields None None None None None None None (Some UNREACHABLE_NOTE) None));
      _ ← refresh run;
      mret true
  end.

(** [cancel_child_runs]: the recursion is cut by [fuel] as Python's is by the
    recursion limit; [seen] is the set the calls share.  A child's status is
    read again before it is acted on. *)
Definition cancel_children_of (cancel_child_runs : nat -> gset nat -> proc system (gset nat)) :=
  fix go (children : list nat) (seen : gset nat) : proc system (gset nat) :=
    match children with
    | [] => mret seen
    | child :: rest =>
        if decide (child ∈ seen) then go rest seen else
        let seen := {[child]} ∪ seen in
        row ← read (fun s => runs (tables_of s) !! child);
        _ ← match row with
            | None => raise (OtherError "ObjectDeletedError")
            | Some r => if active (rstatus r) then cancel_active_run child else mret false
            end;
        seen ← cancel_child_runs child seen;
        go rest seen
    end.

Fixpoint cancel_child_runs (fuel : nat) (parent : nat) (seen : gset nat) : proc system (gset nat) :=
  match fuel with
  | 0 => raise RecursionError
  | S fuel' =>
      children ← read (fun s => list_children parent (tables_of s));
      cancel_children_of (cancel_child_runs fuel') children seen
  end.

(** [maybe_reconcile_deploy_run(self.db, run)] *)
Definition reconcile_deploy (run : nat) : proc system unit :=
  write (fun s => set_store (maybe_reconcile_deploy_run (wall s) run (store s)) s).

Definition cancel_run (recursion_limit run_id user_id : nat) : proc system WorkflowRun :=
  row ← get_run_or_404 run_id;
  _ ← lift (assert_workflow_access workflows (run_workflow_id row) user_id);
  _ ← lift (assert_run_control workflows row user_id true);
  _ ← guard_or ValidationFailedError (active (rstatus row));
  won ← cancel_active_run run_id;
  _ ← guard_or ConflictError won;
  _ ← cancel_child_runs recursion_limit run_id {[run_id]};
  _ ← reconcile_deploy run_id;
  refresh run_id.

(** [delete_run] *)
Definition delete_run (run_id user_id : nat) : proc system unit :=
  row ← get_run_or_404 run_id;
  _ ← lift (assert_workflow_access workflows (run_workflow_id row) user_id);
  _ ← lift (assert_run_control workflows row user_id true);
  _ ← guard_or ValidationFailedError (terminal (rstatus row));
  _ ← write (fun s => set_store (delete_run_row run_id (store s)) s);
  _ ← write (log_call (Call_delete_artifacts (uuid row)));
  write (log_call (Call_delete_run_dir (run_workflow_id row) (uuid row))).

(** ** Child runs *)

(** [_parent_is_active] *)
Definition parent_is_active (parent : nat) : proc system bool :=
  row ← refresh parent; mret (active (rstatus row)).

Definition start_child_run (parent workflow_id : nat) (supplied : dict json) : proc system nat :=
  row ← refresh parent;                                    (* [_assert_parent_active] *)
  _ ← guard_or ValidationFailedError (active (rstatus row));
  wf ← lift (require_child_target workflows row workflow_id);
  ancestors ← lift (child_run_ancestors row workflow_id);
  inputs ← lift (resolve_or_400 wf supplied);
  child ← create_and_dispatch_run workflow_id wf (triggered_by_id row) "workflow" [] inputs None (Some parent) (Some ancestors) None;
  still_active ← parent_is_active parent;
  if still_active : bool then mret child else
  _ ← cancel_active_run child;
  raise ValidationFailedError.

(** ** [start_scheduled_run] ([schedule_fire.py]); returns the run *)
Definition start_scheduled_run (workflow_id : nat) (wf : workflow) (schedule_inputs : dict json) (acting_user : option nat)
    (use_dispatch_breaker : bool) : proc system nat :=
  run_id ← on_tables (fun s => create_run (wall s) (uuid4 s) workflow_id acting_user "scheduled" [] [] None None);
  let configuration_error message :=
    on_tables (fun _ => update_run_status run_id R_failed
      (Fields None (Some message) (Some "configuration") None None None None None None) false) in
  if decide (blocking_errors wf acting_user ≠ [])
  then _ ← configuration_error ("Blocked by pre-run validation: " +:+ String.concat "; " (blocking_errors wf acting_user));
       mret run_id
  else
    match (inputs ← resolve_run_inputs encrypt (static_attributes wf) schedule_inputs;
           _ ← validate_reference_inputs wf inputs acting_user;
           Ok inputs) with
    | Raise e => if is_run_input_error e || is_reference_error e
                 then _ ← configuration_error (exn_text e); mret run_id
                 else raise e
    | Ok inputs =>
        _ ← patch_run run_id (input_row inputs);
        dispatched ← catch (fun _ =>
            _ ← (if use_dispatch_breaker then write record_failure else mret tt);
            _ ← on_tables (fun s => update_run_status run_id R_failed
                   (Fields None (Some "Workflow execution engine unavailable") (Some "internal") (Some (uuid4 s)) None
                      (Some (wall s)) None None None) false);
            mret None)
         (is_open ← (if use_dispatch_breaker then read breaker_is_open else mret false);
          _ ← guard_or EngineUnavailableError (negb is_open);
          hatchet_run_id ← call_engine workflow_id run_id "scheduled" None;
          _ ← (if use_dispatch_breaker then write record_success else mret tt);
          mret (Some hatchet_run_id));
        match dispatched with
        | None => mret run_id
        | Some hatchet_run_id =>
            _ ← on_tables (fun _ d => (tt, record_hatchet_run_id run_id hatchet_run_id d));
            mret run_id
        end
    end.
End Service.

(** * Facts *)

(** ** How runs evolve

    Deleting a run apart, no operation changes where a run came from or what a
    finished run finished with. *)
Definition row_evolves (r r' : WorkflowRun) : Prop :=
  run_workflow_id r' = run_workflow_id r /\ triggered_by_id r' = triggered_by_id r /\
  parent_run_id r' = parent_run_id r /\ ancestor_workflow_ids r' = ancestor_workflow_ids r /\
  (terminal (rstatus r) = true -> rstatus r' = rstatus r).

Definition tables_evolve (d d' : tables) : Prop :=
  ids_fresh d -> ids_fresh d' /\
  forall id r, runs d !! id = Some r -> exists r', runs d' !! id = Some r' /\ row_evolves r r'.

Definition evolves (s s' : system) : Prop := tables_evolve (tables_of s) (tables_of s').

Lemma row_evolves_refl r : row_evolves r r.
Proof. by split_and!. Qed.
Lemma row_evolves_trans r1 r2 r3 : row_evolves r1 r2 -> row_evolves r2 r3 -> row_evolves r1 r3.
Proof.
  intros (E1 & E2 & E3 & E4 & E5) (E1' & E2' & E3' & E4' & E5'). split_and!; [congruence..|].
  intros Ht. rewrite E5'; [by apply E5|]. by rewrite E5.
Qed.
#[export] Hint Resolve row_evolves_refl : core.

#[export] Instance tables_evolve_preorder : PreOrder tables_evolve.
Proof.
  split.
  - intros d Hf. split; [done|]. intros id r Hr. by exists r.
  - intros d1 d2 d3 H1 H2 Hf. destruct (H1 Hf) as [F2 E1], (H2 (proj1 (H1 Hf))) as [F3 E2]. split; [done|]. intros id r Hr.
    destruct (E1 id r Hr) as (r2 & Hr2 & He). destruct (E2 id r2 Hr2) as (r3 & Hr3 & He'). exists r3.
    split; [done|]. by eapply row_evolves_trans.
Qed.
#[export] Instance evolves_preorder : PreOrder evolves.
Proof.
  split.
  - intros s. unfold evolves. reflexivity.
  - intros s1 s2 s3. unfold evolves. apply transitivity.
Qed.

(** *** Operation by operation *)
Lemma set_row_evolves d id r r' :
  runs d !! id = Some r -> row_evolves r r' -> tables_evolve d (set_runs d (<[id := r']> (runs d))).
Proof.
  intros Hr Hev Hf. split.
  - intros id0. simpl. intros Hs. apply Hf. destruct (decide (id0 = id)) as [->|Hne]; [by exists r|].
    by rewrite lookup_insert_ne in Hs.
  - intros id0 r0 Hr0. simpl. destruct (decide (id0 = id)) as [->|Hne].
    + exists r'. rewrite lookup_insert_eq. by simplify_eq.
    + exists r0. by rewrite lookup_insert_ne.
Qed.

Lemma create_run_evolves now u w user t devs inputs parent anc d :
  tables_evolve d (create_run now u w user t devs inputs parent anc d).2.
Proof.
  intros Hf. assert (Hnew : runs d !! next_id d = None).
  { destruct (runs d !! next_id d) as [r|] eqn:E; [|done]. exfalso. assert (next_id d < next_id d) by (apply Hf; by exists r). lia. }
  split.
  - intros id. simpl. destruct (decide (id = next_id d)) as [->|Hne]; [lia|]. rewrite lookup_insert_ne by done.
    intros Hs%Hf. lia.
  - intros id r Hr. exists r. simpl. rewrite lookup_insert_ne; [done|congruence].
Qed.

Lemma transition_run_evolves run to_status from f d :
  lawful (Op_transition run to_status from f) -> tables_evolve d (transition_run run to_status from f d).2.
Proof.
  intros Hlaw. unfold transition_run. destruct (runs d !! run) as [r|] eqn:Hr; [|simpl; reflexivity].
  destruct (transition_guard from (rstatus r)) eqn:Hg; [|simpl; reflexivity]. apply (set_row_evolves d run r); [done|].
  split_and!; [done..|]. intros Ht. destruct from as [l|]; simpl in Hg, Hlaw; [|by rewrite Ht in Hg].
  apply bool_decide_eq_true in Hg. destruct Hlaw as [Hact|[-> ->]].
  - apply Hact in Hg. by rewrite active_terminal, Ht in Hg.
  - by apply list_elem_of_singleton in Hg as ->.
Qed.

Lemma update_run_status_evolves run st f c d : tables_evolve d (update_run_status run st f c d).2.
Proof. destruct (update_run_status_transition run st f c d) as [f' ->]. by apply transition_run_evolves. Qed.

Lemma record_hatchet_evolves run h d : tables_evolve d (record_hatchet_run_id run h d).
Proof.
  unfold record_hatchet_run_id. destruct (runs d !! run) as [r|] eqn:Hr; [|reflexivity].
  by apply (set_row_evolves d run r).
Qed.

Lemma same_runs_evolves d d' : runs d' = runs d -> next_id d' = next_id d -> tables_evolve d d'.
Proof. intros Hr Hn Hf. split; [intros id; rewrite Hr, Hn; apply Hf|]. intros id r. rewrite Hr. eauto. Qed.

Lemma maybe_reconcile_db now run w : db (maybe_reconcile_deploy_run now run w) = db w.
Proof.
  assert (Ht : forall cid exp new f, db (transition now cid exp new f w).2 = db w).
  { intros. unfold transition. repeat case_match; done. }
  unfold maybe_reconcile_deploy_run, reconcile, fail_change. by repeat case_match; rewrite ?Ht.
Qed.

Create HintDb evolves.
#[export] Hint Resolve create_run_evolves update_run_status_evolves record_hatchet_evolves same_runs_evolves transition_run_evolves row_evolves_refl : evolves.
#[export] Hint Extern 1 (lawful _) => first [exact I | by right] : evolves.

Lemma keeps_on_tables {X} (f : system -> tables -> X * tables) :
  (forall s d, tables_evolve d (f s d).2) -> keeps evolves (on_tables f).
Proof.
  intros Hf. apply keeps_tx. intros s. specialize (Hf s (tables_of s)). unfold evolves.
  by destruct (f s (tables_of s)) as [x d].
Qed.

Lemma keeps_refresh run : keeps evolves (refresh run).
Proof. apply keeps_bind; [apply keeps_read; apply _|]. by intros [r|]. Qed.
Lemma keeps_get_run run : keeps evolves (get_run_or_404 run).
Proof. apply keeps_bind; [apply keeps_read; apply _|]. by intros [r|]. Qed.
Lemma keeps_guard e b : keeps evolves (guard_or e b).
Proof. by destruct b. Qed.
Lemma keeps_reconcile run : keeps evolves (reconcile_deploy run).
Proof.
  apply keeps_write. intros s. unfold evolves, tables_of. apply same_runs_evolves; by simpl; rewrite maybe_reconcile_db.
Qed.
Lemma keeps_patch_run run f : (forall r, row_evolves r (f r)) -> keeps evolves (patch_run run f).
Proof.
  intros Hf. apply keeps_on_tables. intros _ d. destruct (runs d !! run) as [r|] eqn:Hr; [|simpl; reflexivity].
  by apply (set_row_evolves d run r).
Qed.
#[export] Hint Resolve keeps_refresh keeps_get_run keeps_guard keeps_reconcile : keeps.

(** Walks through a process: its stretches are those of the lemmas in [keeps],
    or write the runs by operations of [evolves]. *)
Ltac keeps_step :=
  first
    [ exact I
    | solve [auto with keeps]
    | apply keeps_bind; [|intros ?]
    | apply keeps_catch; [|intros ?]
    | apply keeps_read; apply _
    | apply keeps_on_tables; intros; cbn [snd]; solve [auto with evolves]
    | apply keeps_patch_run; by intros
    | first [apply keeps_write | apply keeps_tx]; intros; apply same_runs_evolves; done
    | case_match ].
Ltac keeps := repeat keeps_step.

(** ** A history of the system *)

(** Any number of processes, whose every step evolves the runs. *)
Definition undeleted_history (W : nat -> system) : Prop := lived evolves W /\ ids_fresh (tables_of (W 0)).

Definition run_row (s : system) (run : nat) : option WorkflowRun := runs (tables_of s) !! run.
Definition ended (s : system) (run : nat) : Prop := exists r, run_row s run = Some r /\ terminal (rstatus r) = true.
Definition started_by (s : system) (parent child : nat) : Prop :=
  exists r, run_row s child = Some r /\ parent_run_id r = Some parent.

Section History.
Context (W : nat -> system) (HW : undeleted_history W).

Lemma history_fresh i : ids_fresh (tables_of (W i)).
Proof. destruct HW as [Hl Hf]. by apply (lived_le evolves W 0 i Hl (Nat.le_0_l i)) in Hf as [? _]. Qed.

Lemma row_later i j run r : i <= j -> run_row (W i) run = Some r -> exists r', run_row (W j) run = Some r' /\ row_evolves r r'.
Proof.
  intros Hij Hr. destruct HW as [Hl _]. destruct (lived_le evolves W i j Hl Hij (history_fresh i)) as [_ He]. by apply He.
Qed.

Lemma ended_later i j run : i <= j -> ended (W i) run -> ended (W j) run.
Proof.
  intros Hij (r & Hr & Ht). destruct (row_later i j run r Hij Hr) as (r' & Hr' & _ & _ & _ & _ & He).
  exists r'. split; [done|]. by rewrite He.
Qed.

Lemma started_by_later i j parent child : i <= j -> started_by (W i) parent child -> started_by (W j) parent child.
Proof.
  intros Hij (r & Hr & Hp). destruct (row_later i j child r Hij Hr) as (r' & Hr' & _ & _ & He & _).
  exists r'. split; [done|]. by rewrite He.
Qed.

Lemma exec_on_tables {X} (f : system -> tables -> X * tables) t r t' :
  exec W (on_tables f) t r t' ->
  exists i, t <= i /\ t' = i + 1 /\ r = Ok (f (W i) (tables_of (W i))).1 /\ tables_of (W t') = (f (W i) (tables_of (W i))).2.
Proof.
  unfold on_tables. intros (i & Hi & -> & x & Hf & ->)%exec_tx. exists i. split_and!; [done..| |];
    destruct (f (W i) (tables_of (W i))) as [y d]; injection Hf as Hx Hs; rewrite <- ?Hs, ?Hx; done.
Qed.

Lemma exec_refresh run t r t' :
  exec W (refresh run) t (Ok r) t' -> exists i, t <= i /\ i <= t' /\ run_row (W i) run = Some r.
Proof.
  unfold refresh. intros [(row & u & (i & Hi & -> & _ & [= ->])%exec_read & Hk)|(e & _ & [=])]%exec_bind.
  fold (run_row (W i) run) in Hk. destruct (run_row (W i) run) as [r0|] eqn:Hr; [|by destruct Hk].
  destruct Hk as [[= ->] ->]. exists i. split_and!; [done|lia|done].
Qed.

Lemma transition_run_ends run to_status f d r :
  terminal to_status = true -> runs d !! run = Some r ->
  exists r', runs (transition_run run to_status None f d).2 !! run = Some r' /\ terminal (rstatus r') = true.
Proof.
  intros Ht Hr. unfold transition_run. rewrite Hr. simpl. destruct (terminal (rstatus r)) eqn:E; simpl.
  - by exists r.
  - rewrite lookup_insert_eq. eexists. split; [done|]. done.
Qed.
End History.

Section ServiceFacts.
Context `{Services}.

Lemma keeps_cancel_active run : keeps evolves (cancel_active_run run).
Proof. unfold cancel_active_run. keeps. Qed.
#[local] Hint Resolve keeps_cancel_active : keeps.

Lemma keeps_cancel_children fuel parent seen : keeps evolves (cancel_child_runs fuel parent seen).
Proof.
  revert parent seen. induction fuel as [|fuel IH]; intros parent seen; cbn [cancel_child_runs]; [done|].
  apply keeps_bind; [apply keeps_read; apply _|intros children].
  revert seen. induction children as [|child rest IHc]; intros seen; cbn [cancel_children_of]; keeps.
Qed.
#[local] Hint Resolve keeps_cancel_children : keeps.

Lemma keeps_cancel_run limit run_id user : keeps evolves (cancel_run limit run_id user).
Proof. unfold cancel_run. keeps. Qed.

Lemma keeps_create w wf by_ t devs inputs cr p anc ai :
  keeps evolves (create_and_dispatch_run w wf by_ t devs inputs cr p anc ai).
Proof. unfold create_and_dispatch_run, hand_to_engine, call_engine. keeps. Qed.
#[local] Hint Resolve keeps_create : keeps.

Lemma keeps_start_child parent w supplied : keeps evolves (start_child_run parent w supplied).
Proof. unfold start_child_run, parent_is_active. keeps. Qed.

(** ** Cancelling *)

Section Cancel.
Context (W : nat -> system) (HW : undeleted_history W).

Lemma cancel_active_ends run t b t' :
  is_Some (run_row (W t) run) -> exec W (cancel_active_run run) t (Ok b) t' -> ended (W t') run.
Proof.
  intros [r Hr] Hex. pose proof (exec_le _ _ _ _ _ Hex) as _. unfold cancel_active_run in Hex.
  apply exec_bind in Hex as [(won & u & Hw & Hk)|(e & _ & [=])].
  pose proof (exec_le _ _ _ _ _ Hk) as Hu. apply (ended_later W HW u t'); [done|].
  apply exec_on_tables in Hw as (i & Hi & -> & _ & Ht). destruct (row_later W HW t i run r Hi Hr) as (r' & Hr' & _).
  destruct (transition_run_ends run R_cancelled (at_ (wall (W i))) _ r' eq_refl Hr') as (r2 & Hr2 & Hterm).
  exists r2. split; [|done]. unfold run_row. by rewrite Ht.
Qed.

(** What a walk through the children leaves behind: those it has [seen] have
    ended, and their children (of the time it began) are seen too. *)
Definition swept (t t' : nat) (seen seen' : gset nat) : Prop :=
  seen ⊆ seen' /\ forall c, c ∈ seen' -> c ∉ seen -> ended (W t') c /\ forall d, started_by (W t) c d -> d ∈ seen'.

Lemma swept_refl t t' seen : swept t t' seen seen.
Proof. split; [done|]. intros c Hc Hn. done. Qed.

Lemma swept_trans t u v t' seen1 seen2 seen3 :
  t <= u -> v <= t' -> swept t v seen1 seen2 -> swept u t' seen2 seen3 -> swept t t' seen1 seen3.
Proof.
  intros Htu Hvt [S1 H1] [S2 H2]. split; [set_solver|]. intros c Hc Hn. destruct (decide (c ∈ seen2)) as [Hc2|Hc2].
  - destruct (H1 c Hc2 Hn) as [He Hd]. split; [by apply (ended_later W HW v)|]. intros d Hs. apply S2. by apply Hd.
  - destruct (H2 c Hc Hc2) as [He Hd]. split; [done|]. intros d Hs. apply Hd. by apply (started_by_later W HW t u).
Qed.

(** The step specification of the recursive call. *)
Definition sweeps (cancel : nat -> gset nat -> proc system (gset nat)) : Prop :=
  forall parent seen t seen' t', exec W (cancel parent seen) t (Ok seen') t' ->
  swept t t' seen seen' /\ forall d, started_by (W t) parent d -> d ∈ seen'.

Lemma cancel_children_of_swept cancel children seen t seen' t' :
  sweeps cancel -> (forall c, c ∈ children -> is_Some (run_row (W t) c)) ->
  exec W (cancel_children_of cancel children seen) t (Ok seen') t' ->
  swept t t' seen seen' /\ forall d, d ∈ children -> d ∈ seen'.
Proof.
  intros Hcancel. revert seen t. induction children as [|child rest IH]; intros seen t Hrows; cbn [cancel_children_of].
  { intros [[= <-] ->]. split; [apply swept_refl|]. by intros d ?%not_elem_of_nil. }
  assert (Hrest : forall u, t <= u -> forall c, c ∈ rest -> is_Some (run_row (W u) c)).
  { intros u Hu c Hc. destruct (Hrows c) as [r Hr]; [by right|]. destruct (row_later W HW t u c r Hu Hr) as (r' & -> & _). eauto. }
  case_decide as Hseen.
  { intros Hex. destruct (IH seen t (Hrest t ltac:(lia)) Hex) as [Hs Hin]. split; [done|].
    intros d [->|Hd]%elem_of_cons; [by apply Hs|by apply Hin]. }
  intros [(row & u & (i & Hi & -> & HWi & [= ->])%exec_read & Hk)|(e & _ & [=])]%exec_bind.
  apply exec_bind in Hk as [(b & u & Hcan & Hk)|(e & _ & [=])].
  apply exec_bind in Hk as [(seen1 & v & Hrec & Hk)|(e & _ & [=])].
  pose proof (exec_le _ _ _ _ _ Hcan) as Hu. pose proof (exec_le _ _ _ _ _ Hrec) as Hv. pose proof (exec_le _ _ _ _ _ Hk) as Ht'.
  assert (Hended : ended (W u) child).
  { fold (run_row (W i) child) in Hcan. destruct (run_row (W i) child) as [r|] eqn:Hr; [|by destruct Hcan].
    destruct (active (rstatus r)) eqn:Hact.
    - apply (cancel_active_ends child (i + 1) b u); [|done]. by rewrite HWi, Hr.
    - apply (ended_later W HW i u); [lia|]. exists r. split; [done|]. rewrite active_terminal in Hact. by apply negb_false_iff. }
  destruct (Hcancel child ({[child]} ∪ seen) u seen1 v Hrec) as [Hs1 Hd1].
  destruct (IH seen1 v (Hrest v ltac:(lia)) Hk) as [Hs2 Hd2]. split.
  - apply (swept_trans t v v t' seen seen1 seen'); [lia|done| |done]. destruct Hs1 as [Hsub Hs1]. split; [set_solver|].
    intros c Hc Hn. destruct (decide (c = child)) as [->|Hne].
    + split; [by apply (ended_later W HW u)|]. intros d Hst. apply Hd1. apply (started_by_later W HW t u); [lia|done].
    + destruct (Hs1 c Hc ltac:(set_solver)) as [He Hst]. split; [done|]. intros d Hd. apply Hst.
      apply (started_by_later W HW t u); [lia|done].
  - intros d [->|Hd]%elem_of_cons; [|by apply Hd2]. apply Hs2, Hs1. set_solver.
Qed.

Lemma list_children_spec parent s d : d ∈ list_children parent (tables_of s) <-> started_by s parent d.
Proof.
  unfold list_children, started_by, run_row. rewrite list_elem_of_fmap. split.
  - intros ([id r] & -> & [Hp Hin]%list_elem_of_filter). apply elem_of_map_to_list in Hin. by exists r.
  - intros (r & Hr & Hp). exists (d, r). split; [done|]. apply list_elem_of_filter. split; [done|]. by apply elem_of_map_to_list.
Qed.

Lemma cancel_child_runs_sweeps fuel : sweeps (cancel_child_runs fuel).
Proof.
  induction fuel as [|fuel IH]; intros parent seen t seen' t'; cbn [cancel_child_runs]; [by intros [[=] _]|].
  intros [(children & u & (i & Hi & -> & HWi & [= ->])%exec_read & Hk)|(e & _ & [=])]%exec_bind.
  assert (Hrows : forall c, c ∈ list_children parent (tables_of (W i)) -> is_Some (run_row (W (i + 1)) c)).
  { intros c (r & Hr & _)%list_children_spec. rewrite HWi. eauto. }
  destruct (cancel_children_of_swept _ _ _ _ _ _ IH Hrows Hk) as [[Hsub Hs] Hin].
  assert (Hlater : forall p d, started_by (W t) p d -> started_by (W i) p d) by (intros p d; by apply started_by_later).
  split; [split; [done|]|].
  - intros c Hc Hn. destruct (Hs c Hc Hn) as [He Hd]. split; [done|]. intros d Hst%Hlater. apply Hd. by rewrite HWi.
  - intros d Hst%Hlater. apply Hin. by apply list_children_spec.
Qed.
End Cancel.

(** *** Running alone: termination and frame *)

(** From [s] to [s'], nothing but the runs of [X] changed, and those that did
    were active and have a status of [to]. *)
Definition ends (to : run_status -> Prop) (X : nat -> Prop) (s s' : system) : Prop :=
  dom (runs (tables_of s')) = dom (runs (tables_of s)) /\
  forall id r, run_row s id = Some r -> exists r', run_row s' id = Some r' /\ parent_run_id r' = parent_run_id r /\
    (r' = r \/ X id /\ active (rstatus r) = true /\ to (rstatus r')).

Definition cancelled_ (st : run_status) : Prop := st = R_cancelled.
Definition terminal_ (st : run_status) : Prop := terminal st = true.
Abbreviation cancels := (ends cancelled_).

Lemma ends_refl to X s : ends to X s s.
Proof. split; [done|]. intros id r Hr. exists r. auto. Qed.

Lemma cancels_ends X s s' : cancels X s s' -> ends terminal_ X s s'.
Proof.
  intros [Hd Hr]. split; [done|]. intros id r Hrow. destruct (Hr id r Hrow) as (r' & Hr' & Hp & Hc). exists r'.
  split; [done|]. split; [done|]. destruct Hc as [?|(? & ? & Hc)]; [by left|right]. split_and!; [done|done|]. by rewrite Hc.
Qed.

Lemma ends_trans to (X Y Z : nat -> Prop) s1 s2 s3 :
  (forall st, to st -> terminal st = true) -> (forall c, X c -> Z c) -> (forall c, Y c -> Z c) ->
  ends to X s1 s2 -> ends to Y s2 s3 -> ends to Z s1 s3.
Proof.
  intros Hto HX HY [D1 H1] [D2 H2]. split; [congruence|]. intros id r Hr.
  destruct (H1 id r Hr) as (r2 & Hr2 & P2 & C2). destruct (H2 id r2 Hr2) as (r3 & Hr3 & P3 & C3).
  exists r3. split; [done|]. split; [congruence|]. destruct C2 as [->|(Hx & Ha & Hc)].
  - destruct C3 as [->|(Hy & Ha & Hc)]; auto.
  - right. destruct C3 as [->|(_ & Ha3 & _)]; [auto|]. by rewrite active_terminal, Hto in Ha3.
Qed.

Lemma ends_started to X s s' p c : ends to X s s' -> started_by s' p c <-> started_by s p c.
Proof.
  intros [Hd Hr]. split; intros (r & Hrow & Hp).
  - assert (Hin : c ∈ dom (runs (tables_of s))) by (rewrite <- Hd; apply elem_of_dom; by exists r).
    apply elem_of_dom in Hin as [r0 Hr0]. destruct (Hr c r0 Hr0) as (r' & Hr' & Hp' & _). exists r0. split; [done|].
    rewrite <- Hp'. unfold run_row in *. by simplify_eq.
  - destruct (Hr c r Hrow) as (r' & Hr' & Hp' & _). exists r'. split; [done|]. by rewrite Hp'.
Qed.

Lemma run_on_tables {X} (f : system -> tables -> X * tables) s :
  run (on_tables f) s = (Ok (f s (tables_of s)).1, set_tables (f s (tables_of s)).2 s).
Proof. unfold on_tables. cbn. by destruct (f s (tables_of s)). Qed.
Lemma run_refresh r id s : run_row s id = Some r -> run (refresh id) s = (Ok r, s).
Proof. intros Hr. unfold refresh. rewrite run_bind. cbn. fold (run_row s id). by rewrite Hr. Qed.

Lemma ends_set (to : run_status -> Prop) s s' id r r' :
  run_row s id = Some r -> active (rstatus r) = true -> to (rstatus r') -> parent_run_id r' = parent_run_id r ->
  runs (tables_of s') = <[id := r']> (runs (tables_of s)) -> ends to (eq id) s s'.
Proof.
  intros Hr Ha Hc Hp Hs. split; [|intros id0 r0]; unfold run_row in *; rewrite Hs.
  - rewrite dom_insert_L. apply subseteq_union_1_L, singleton_subseteq_l, elem_of_dom. by exists r.
  - intros Hr0. destruct (decide (id0 = id)) as [->|Hne].
    + exists r'. rewrite lookup_insert_eq. simplify_eq. auto 6.
    + exists r0. rewrite lookup_insert_ne by done. auto.
Qed.

Lemma transition_run_set id to_status from f d r :
  runs d !! id = Some r -> transition_guard from (rstatus r) = true ->
  transition_run id to_status from f d = (true, set_runs d (<[id := apply_run_values to_status f r]> (runs d))).
Proof. intros Hr Hg. unfold transition_run. by rewrite Hr, Hg. Qed.

Lemma run_cancel_active id s r :
  run_row s id = Some r -> active (rstatus r) = true ->
  exists s', run (cancel_active_run id) s = (Ok true, s') /\ cancels (eq id) s s'.
Proof.
  intros Hr Ha. unfold cancel_active_run. rewrite run_bind, run_on_tables.
  set (r1 := apply_run_values R_cancelled (at_ (wall s)) r).
  rewrite (transition_run_set id R_cancelled None _ _ r Hr) by (simpl; by rewrite <- active_terminal). fold r1. cbn [fst snd].
  set (s1 := set_tables _ s).
  assert (Hr1 : run_row s1 id = Some r1) by apply lookup_insert_eq.
  rewrite run_bind, (run_refresh r1) by done. cbn [negb]. rewrite run_bind, run_on_tables. cbn [fst snd].
  set (s2 := set_tables _ s1). assert (Hr2 : run_row s2 id = Some r1) by done.
  rewrite run_bind, (run_refresh r1) by done.
  assert (Hdone : forall s', runs (tables_of s') = runs (tables_of s2) -> cancels (eq id) s s').
  { intros s' Hs'. by apply (ends_set cancelled_ s s' id r r1). }
  destruct (hatchet_run_id r1) as [[|c h]|]; [by exists s2; auto| |by exists s2; auto].
  rewrite run_bind. cbn [run tx]. set (s3 := log_call _ s2).
  destruct (engine_cancel (String c h) s2); [by exists s3; auto|].
  rewrite run_bind, run_on_tables. rewrite (transition_run_set id R_cancelled _ _ _ r1 Hr2) by done. cbn [fst snd].
  set (r2 := apply_run_values _ _ r1). set (s4 := set_tables _ s3). rewrite run_bind, (run_refresh r2) by apply lookup_insert_eq.
  exists s4. split; [done|]. apply (ends_set cancelled_ s s4 id r r2); [done..|].
  change (runs (tables_of s4)) with (<[id := r2]> (<[id := r1]> (runs (tables_of s)))). apply insert_insert_eq.
Qed.

(** The runs a run caused, at any depth. *)
Definition caused s : nat -> nat -> Prop := tc (started_by s).

Lemma tc_mono {A} (R R' : A -> A -> Prop) x y : (forall a b, R a b -> R' a b) -> tc R x y -> tc R' x y.
Proof. intros HR. induction 1 as [x y Hxy|x y z Hxy _ IH]; [by apply tc_once, HR|]. eapply tc_l; [by apply HR|done]. Qed.

Lemma ends_caused to X s s' p c : ends to X s s' -> caused s' p c -> caused s p c.
Proof. intros HX. apply tc_mono. intros a b. apply (ends_started to X s s' a b HX). Qed.
Lemma ends_caused_rev to X s s' p c : ends to X s s' -> caused s p c -> caused s' p c.
Proof. intros HX. apply tc_mono. intros a b. apply (ends_started to X s s' a b HX). Qed.
Lemma cancelled_terminal st : cancelled_ st -> terminal st = true.
Proof. by intros ->. Qed.

Lemma cancel_children_of_total cancel fuel parent :
  (forall child seen s, size (dom (runs (tables_of s)) ∖ seen) < fuel -> exists seen' s',
     run (cancel child seen) s = (Ok seen', s') /\ seen ⊆ seen' /\ cancels (caused s child) s s') ->
  forall children seen s, (forall c, c ∈ children -> started_by s parent c) ->
  size (dom (runs (tables_of s)) ∖ seen) <= fuel -> exists seen' s',
    run (cancel_children_of cancel children seen) s = (Ok seen', s') /\ seen ⊆ seen' /\ cancels (caused s parent) s s'.
Proof.
  intros Hcancel. induction children as [|child rest IH]; intros seen s Hch Hsize; cbn [cancel_children_of].
  { exists seen, s. split_and!; [done..|apply ends_refl]. }
  assert (Hrest : forall X s', cancels X s s' -> forall c, c ∈ rest -> started_by s' parent c).
  { intros X s' HX c Hc. apply (ends_started cancelled_ X s s' parent c HX), Hch. by right. }
  case_decide as Hseen; [by apply (IH seen s (Hrest _ s (ends_refl cancelled_ (eq child) s)))|].
  assert (Hst : started_by s parent child) by (apply Hch; by left). destruct (Hst) as (r & Hr & Hp).
  set (seen1 := {[child]} ∪ seen). rewrite run_bind. cbn [run read tx]. fold (run_row s child). rewrite Hr, run_bind.
  assert (H1 : exists b s1, run (if active (rstatus r) then cancel_active_run child else mret false) s = (Ok b, s1) /\
                            cancels (eq child) s s1).
  { destruct (active (rstatus r)) eqn:Ha; [destruct (run_cancel_active child s r Hr Ha) as (s1 & ? & ?); eauto|].
    exists false, s. split; [done|apply ends_refl]. }
  destruct H1 as (b & s1 & -> & H1). rewrite run_bind.
  assert (Hlt : size (dom (runs (tables_of s1)) ∖ seen1) < fuel).
  { destruct H1 as [-> _]. eapply Nat.lt_le_trans; [|exact Hsize]. apply subset_size.
    assert (child ∈ dom (runs (tables_of s))) by (apply elem_of_dom; by exists r). set_solver. }
  destruct (Hcancel child seen1 s1 Hlt) as (seen2 & s2 & -> & Hsub & H2).
  assert (H12 : cancels (caused s parent) s s2).
  { apply (ends_trans cancelled_ (eq child) (caused s1 child) _ s s1 s2); [apply cancelled_terminal| |intros c Hc|done..].
    - intros c <-. by apply tc_once.
    - eapply tc_l; [exact Hst|]. by eapply ends_caused. }
  destruct (IH seen2 s2 (Hrest _ _ H12)) as (seen3 & s3 & Hrun & Hsub3 & H3).
  { destruct H12 as [-> _]. destruct H1 as [Hd1 _]. rewrite Hd1 in Hlt. etrans; [|apply Nat.lt_le_incl, Hlt].
    apply subseteq_size. set_solver. }
  exists seen3, s3. split; [done|]. split; [set_solver|].
  eapply (ends_trans _ _ (caused s2 parent)); [apply cancelled_terminal|done| |exact H12|exact H3]. intros c. by eapply ends_caused.
Qed.

Lemma cancel_child_runs_returns fuel parent seen s :
  size (dom (runs (tables_of s)) ∖ seen) < fuel -> exists seen' s',
    run (cancel_child_runs fuel parent seen) s = (Ok seen', s') /\ seen ⊆ seen' /\ cancels (caused s parent) s s'.
Proof.
  revert parent seen s. induction fuel as [|fuel IH]; intros parent seen s Hsize; [lia|]. cbn [cancel_child_runs].
  rewrite run_bind. cbn [run read tx]. apply cancel_children_of_total with fuel; [done| |lia].
  intros c. by apply list_children_spec.
Qed.

(** C24. Cancelling the runs a run caused: for any forest of runs (finished runs
    with running children included) the walk ends within as many nested calls
    as there are runs; then every run caused by the parent, at any depth, has
    ended: cancelled if it was active, with the status it had otherwise.  No
    other run is touched. *)
Theorem cancel_child_runs_total s parent :
  ids_fresh (tables_of s) ->
  exists seen s', run (cancel_child_runs (S (size (runs (tables_of s)))) parent {[parent]}) s = (Ok seen, s') /\
    forall id r, run_row s id = Some r -> exists r', run_row s' id = Some r' /\
      (caused s parent id -> id <> parent -> rstatus r' = if active (rstatus r) then R_cancelled else rstatus r) /\
      (~ caused s parent id -> r' = r).
Proof.
  intros Hf. set (fuel := S _). set (p := cancel_child_runs fuel parent {[parent]}).
  destruct (cancel_child_runs_returns fuel parent {[parent]} s) as (seen & s' & Hrun & Hsub & [_ Hc]).
  { unfold fuel. rewrite <- size_dom. apply Nat.lt_succ_r, subseteq_size. set_solver. }
  exists seen, s'. split; [done|]. fold p in Hrun.
  destruct (run_exec_alone p s) as [Hex Hlast]. rewrite Hrun in Hex, Hlast. cbn [fst snd] in *.
  assert (HW : undeleted_history (history s (trace p s))).
  { split; [apply trace_lived; [apply _|apply keeps_cancel_children]|by rewrite history_0]. }
  destruct (cancel_child_runs_sweeps _ HW _ _ _ _ _ _ Hex) as [[_ Hs] Hin]. rewrite Hlast in Hs. rewrite history_0 in *.
  assert (Hall : forall id, caused s parent id -> id ∈ seen).
  { apply tc_ind_r; [by apply Hin|]. intros y z _ Hz Hy. destruct (decide (y = parent)) as [->|Hne]; [by apply Hin|].
    apply (Hs y); [done|set_solver|done]. }
  intros id r Hr. destruct (Hc id r Hr) as (r' & Hr' & _ & Hcase). exists r'. split; [done|]. split.
  - intros Hcaused Hne. destruct Hcase as [->|(_ & -> & ->)]; [|done].
    destruct (Hs id (Hall id Hcaused) ltac:(set_solver)) as [(r0 & Hr0 & Ht) _].
    rewrite active_terminal. unfold run_row in *. simplify_eq. by rewrite Ht.
  - intros Hn. by destruct Hcase as [->|(? & _)].
Qed.

(** ** Starting a child while the parent is cancelled *)

Section Race.
Context (W : nat -> system) (HW : undeleted_history W).

Lemma exec_guard e b t r t' : exec W (guard_or e b) t (Ok r) t' -> b = true /\ t' = t.
Proof. destruct b; cbn; [by intros [_ ->]|by intros [[=] _]]. Qed.

(** A created run is new, and keeps its parent. *)
Lemma exec_create w wf by_ tr devs inputs cr p anc ai t id t' :
  exec W (create_and_dispatch_run w wf by_ tr devs inputs cr p anc ai) t (Ok id) t' ->
  exists i r, t <= i /\ i + 1 <= t' /\ id = next_id (tables_of (W i)) /\ run_row (W (i + 1)) id = Some r /\
    parent_run_id r = p /\ ancestor_workflow_ids r = anc /\ run_workflow_id r = w /\ triggered_by_id r = by_ /\ run_inputs r = inputs.
Proof.
  unfold create_and_dispatch_run.
  intros [([] & u & [_ ->]%exec_guard & Hk)|(e & _ & [=])]%exec_bind.
  apply exec_bind in Hk as [(run_id & u & (i & Hi & -> & [= ->] & Ht)%exec_on_tables & Hk)|(e & _ & [=])].
  pose proof (exec_le _ _ _ _ _ Hk) as Hle. apply exec_bind in Hk as [([] & u & _ & Hk)|(e & _ & [=])].
  assert (Hid : id = next_id (tables_of (W i))).
  { apply exec_catch in Hk as [(a & Hk & [= ->])|(e & v & _ & Hk)].
    - repeat first [apply exec_bind in Hk as [(? & ? & _ & Hk)|(? & _ & [=])] | by destruct Hk as [[= ->] _]].
    - exfalso. do 2 apply exec_bind in Hk as [(? & ? & _ & Hk)|(? & _ & [=])]. by destruct Hk. }
  exists i. eexists. do 3 (split; [done|]). split; [unfold run_row; rewrite Ht, Hid; apply lookup_insert_eq|done].
Qed.

Lemma exec_cancel_run limit run_id user t row t' :
  exec W (cancel_run limit run_id user) t (Ok row) t' ->
  exists m seen u v, t <= m /\ ended (W m) run_id /\ m <= u /\ v <= t' /\
    exec W (cancel_child_runs limit run_id {[run_id]}) u (Ok seen) v.
Proof.
  unfold cancel_run.
  intros [(r & u1 & Hget & Hk)|(e & _ & [=])]%exec_bind. pose proof (exec_le _ _ _ _ _ Hget) as H1.
  assert (Hrow : is_Some (run_row (W u1) run_id)).
  { unfold get_run_or_404 in Hget. apply exec_bind in Hget as [(o & u & (i & Hi & -> & _ & [= ->])%exec_read & Hr)|(e & _ & [=])].
    fold (run_row (W i) run_id) in Hr. destruct (run_row (W i) run_id) as [r0|] eqn:Hr0; [|by destruct Hr]. destruct Hr as [_ ->].
    destruct (row_later W HW i (i + 1) run_id r0 ltac:(lia) Hr0) as (r' & -> & _). eauto. }
  do 2 apply exec_bind in Hk as [(? & ? & [_ ->] & Hk)|(? & _ & [=])].
  apply exec_bind in Hk as [([] & ? & [_ ->]%exec_guard & Hk)|(? & _ & [=])].
  apply exec_bind in Hk as [(won & m & Hcan & Hk)|(? & _ & [=])]. pose proof (exec_le _ _ _ _ _ Hcan) as H2.
  apply exec_bind in Hk as [([] & u & [_ ->]%exec_guard & Hk)|(? & _ & [=])].
  apply exec_bind in Hk as [(seen & v & Hsweep & Hk)|(? & _ & [=])]. pose proof (exec_le _ _ _ _ _ Hk) as H3.
  exists m, seen, m, v. split_and!; [lia|by eapply cancel_active_ends|done|done|done].
Qed.

Lemma exec_parent_active parent t t' :
  exec W (parent_is_active parent) t (Ok true) t' -> exists k, t <= k /\ k <= t' /\ ~ ended (W k) parent.
Proof.
  unfold parent_is_active. intros [(row & u & (k & Hk & Hku & Hrow)%exec_refresh & [[= Ha] ->])|(e & _ & [=])]%exec_bind.
  exists k. split_and!; [done|done|]. intros (r & Hr & Ht). simplify_eq. by rewrite active_terminal, Ht in Ha.
Qed.

Lemma exec_start_child parent w supplied t child t' :
  exec W (start_child_run parent w supplied) t (Ok child) t' ->
  exists i k r, t <= i /\ i + 1 <= k /\ k <= t' /\ child <> parent /\ run_row (W (i + 1)) child = Some r /\
    parent_run_id r = Some parent /\ ~ ended (W k) parent.
Proof.
  unfold start_child_run. intros [(row & u & (i0 & Hi0 & Hu & Hrow)%exec_refresh & Hk)|(e & _ & [=])]%exec_bind.
  apply exec_bind in Hk as [([] & ? & [_ ->]%exec_guard & Hk)|(? & _ & [=])].
  do 3 apply exec_bind in Hk as [(? & ? & [_ ->] & Hk)|(? & _ & [=])].
  apply exec_bind in Hk as [(c & v & (i & r & Hi & Hv & Hc & Hr & Hp & _)%exec_create & Hk)|(? & _ & [=])].
  apply exec_bind in Hk as [(still & v2 & Hact & Hk)|(? & _ & [=])]. destruct still.
  - destruct Hk as [[= ->] ->]. destruct (exec_parent_active parent v v2 Hact) as (k & Hk1 & Hk2 & Hne).
    exists i, k, r. split_and!; [lia|lia|done| |done..]. intros ->.
    destruct (row_later W HW i0 i parent row ltac:(lia) Hrow) as (row' & Hrow' & _).
    assert (parent < next_id (tables_of (W i))) by (apply (history_fresh W HW); by exists row'). lia.
  - by apply exec_bind in Hk as [(? & ? & _ & [[=] _])|(? & _ & [=])].
Qed.

End Race.

(** ** What a start leaves behind *)

(** The columns a run is created with and keeps. *)
Definition origin (r : WorkflowRun) :=
  (run_workflow_id r, triggered_by_id r, trigger_type r, device_ids r, run_inputs r, parent_run_id r, ancestor_workflow_ids r,
   change_request_id r, ai_result_node_id r).

(** [s'] is [s] with row [row] at [id]; clocks as in [s]. *)
Record wrote (id : nat) (row : WorkflowRun) (s s' : system) : Prop := {
  wr_row : run_row s' id = Some row;
  wr_other id' : id' <> id -> run_row s' id' = run_row s id';
  wr_mono : mono s' = mono s
}.

Lemma wrote_trans id row1 row2 s1 s2 s3 : wrote id row1 s1 s2 -> wrote id row2 s2 s3 -> wrote id row2 s1 s3.
Proof. intros [? H1 ?] [? H2 ?]. split; [done| |congruence]. intros id' Hne. by rewrite H2, H1. Qed.

Lemma wrote_same id row s s' s'' :
  wrote id row s s' -> tables_of s'' = tables_of s' -> mono s'' = mono s' -> wrote id row s s''.
Proof. intros [H1 H2 H3] Ht Hm. split; unfold run_row in *; rewrite ?Ht, ?Hm; auto. Qed.

Lemma wrote_set id row (s : system) d : runs d = <[id := row]> (runs (tables_of s)) -> wrote id row s (set_tables d s).
Proof.
  intros Hd. split; [|intros id' Hne|done]; unfold run_row; change (tables_of (set_tables d s)) with d; rewrite Hd.
  - apply lookup_insert_eq.
  - by apply lookup_insert_ne.
Qed.

Lemma run_patch_run id f row s : run_row s id = Some row ->
  exists s', run (patch_run id f) s = (Ok tt, s') /\ wrote id (f row) s s' /\ calls s' = calls s /\ open_until s' = open_until s.
Proof.
  intros Hr. unfold patch_run. rewrite run_on_tables. fold (run_row s id). rewrite Hr. cbn [fst snd].
  eexists. split; [done|]. split; [by apply wrote_set|done].
Qed.

Lemma run_fail_run id f row s : run_row s id = Some row -> active (rstatus row) = true ->
  exists s', run (on_tables (fun s => update_run_status id R_failed (f s) false)) s = (Ok true, s') /\
    wrote id (apply_run_values R_failed (f s) row) s s' /\ calls s' = calls s /\ open_until s' = open_until s.
Proof.
  intros Hr Ha. rewrite run_on_tables. unfold update_run_status.
  rewrite (transition_run_set id R_failed None _ _ row Hr) by (simpl; by rewrite <- active_terminal). cbn [fst snd].
  eexists. split; [done|]. split; [|done]. apply wrote_set. simpl. by destruct (f_approval_state (f s)).
Qed.

Lemma run_record_hatchet id h row s : run_row s id = Some row ->
  exists s' row', run (on_tables (fun _ d => (tt, record_hatchet_run_id id h d))) s = (Ok tt, s') /\ wrote id row' s s' /\
    origin row' = origin row /\ hatchet_run_id row' = Some h /\ rstatus row' = rstatus row /\ calls s' = calls s /\ open_until s' = open_until s.
Proof.
  intros Hr. rewrite run_on_tables. unfold record_hatchet_run_id. fold (run_row s id). rewrite Hr. cbn [fst snd].
  eexists _, _. split; [done|]. split; [by apply wrote_set|done].
Qed.

(** The engine's answer at the call, what the caller gets, and the breaker. *)
Definition dispatch_answer (answer : option string) (id : nat) (row : WorkflowRun) (r : res nat) (s s' : system) : Prop :=
  match answer with
  | Some h => r = Ok id /\ rstatus row = R_pending /\ hatchet_run_id row = Some h /\ open_until s' = 0%Z
  | None => r = Raise HTTPException /\ rstatus row = R_failed /\ error_category row = Some "internal" /\
            open_until s' = (mono s + DEFAULT_OPEN_SECONDS)%Z
  end.

Lemma run_hand_to_engine id row w tr p s :
  run_row s id = Some row -> rstatus row = R_pending ->
  exists r s' row', run (hand_to_engine w id tr p) s = (r, s') /\ wrote id row' s s' /\ origin row' = origin row /\
    let name := resolve_dispatch_workflow w in
    if breaker_is_open s
    then r = Raise HTTPException /\ rstatus row' = R_failed /\ calls s' = calls s /\ open_until s' = open_until s
    else calls s' = Call_run name id (run_trigger_options id (workflow_name w) tr p) :: calls s /\
         dispatch_answer (run_no_wait name id s) id row' r s s'.
Proof.
  intros Hr Hp. assert (Ha : active (rstatus row) = true) by (by rewrite Hp). unfold hand_to_engine.
  rewrite run_catch, run_bind. cbn [run read tx]. destruct (breaker_is_open s); cbn [negb guard_or]; rewrite run_bind; cbn [run raise].
  - rewrite decide_True by done. rewrite !run_bind. cbn [run mret proc_mret].
    destruct (run_fail_run id (fun s => engine_unavailable (uuid4 s)) row s Hr Ha) as (s' & Hrun & Hw & Hc & Ho).
    rewrite run_bind, Hrun. by exists (Raise HTTPException), s', (apply_run_values R_failed (engine_unavailable (uuid4 s)) row).
  - set (name := resolve_dispatch_workflow w). set (call := Call_run _ _ _). set (s1 := log_call call s).
    cbn [run mret proc_mret]. rewrite run_bind. unfold call_engine. rewrite run_bind. cbn [run tx]. fold name call s1.
    destruct (run_no_wait name id s) as [h|]; cbn [run mret proc_mret raise].
    + rewrite run_bind. cbn [run write tx]. set (s2 := record_success s1). assert (Hr2 : run_row s2 id = Some row) by done.
      rewrite run_bind. destruct (run_record_hatchet id h row s2 Hr2) as (s' & row' & -> & Hw & Hor & Hh & Hst & Hc & Ho).
      cbn [run mret proc_mret]. exists (Ok id), s', row'. split; [done|]. split; [destruct Hw; by split|]. split; [done|].
      split; [by rewrite Hc|]. split; [done|]. split; [by rewrite Hst|]. split; [done|]. by rewrite Ho.
    + rewrite decide_False by done. rewrite run_bind. cbn [run write tx]. set (s2 := record_failure s1).
      assert (Hr2 : run_row s2 id = Some row) by done. rewrite run_bind.
      destruct (run_fail_run id (fun s => engine_unavailable (uuid4 s)) row s2 Hr2 Ha) as (s' & -> & Hw & Hc & Ho).
      cbn [run raise]. eexists _, s', _. split; [done|]. split; [destruct Hw; by split|]. split; [done|].
      split; [by rewrite Hc|]. split; [done|]. split; [done|]. split; [done|]. by rewrite Ho.
Qed.

(** C25. Starting a run, on every path.  A workflow with validation errors is
    refused before anything is written.  Otherwise one run is created, with the
    arguments given, and nothing else changes: while the breaker is open the
    engine is not called and the run fails; else the engine is called once, and
    either the run is pending with the engine's id and the breaker closed, or
    it failed, the caller gets a 503 and the breaker opens for 15 s.  No path
    leaves a pending run the engine does not know. *)
Theorem create_and_dispatch_outcome w wf by_ tr devs inputs cr p anc ai s :
  exists r s', run (create_and_dispatch_run w wf by_ tr devs inputs cr p anc ai) s = (r, s') /\
  let id := next_id (tables_of s) in
  let name := resolve_dispatch_workflow w in
  if decide (blocking_errors wf by_ = []) then
    exists row s0, run_row s' id = Some row /\ (forall id', id' <> id -> run_row s' id' = run_row s id') /\
      origin row = (w, by_, tr, devs, inputs, p, anc, cr, ai) /\
      if breaker_is_open s
      then r = Raise HTTPException /\ rstatus row = R_failed /\ calls s' = calls s /\ open_until s' = open_until s
      else calls s' = Call_run name id (run_trigger_options id (workflow_name w) tr p) :: calls s /\
           dispatch_answer (run_no_wait name id s0) id row r s s'
  else r = Raise ValidationFailedError /\ s' = s.
Proof.
  unfold create_and_dispatch_run. rewrite run_bind. case_decide as Hb.
  2:{ rewrite bool_decide_false by done. by exists (Raise ValidationFailedError), s. }
  rewrite bool_decide_true by done. cbn [guard_or run mret proc_mret]. rewrite run_bind, run_on_tables. cbn [fst snd].
  set (id := next_id (tables_of s)). set (s1 := set_tables _ s). 
  set (row1 := Run (uuid4 s) w by_ R_pending tr None None None devs inputs None None p anc None None None None None None (wall s)).
  assert (H1 : wrote id row1 s s1) by by apply wrote_set.
  assert (Hlink : exists row2 s2, run (match cr, ai with None, None => mret tt | _, _ => patch_run id (link_row cr ai) end) s1 = (Ok tt, s2) /\
    wrote id row2 s s2 /\ origin row2 = (w, by_, tr, devs, inputs, p, anc, cr, ai) /\ rstatus row2 = R_pending /\
    calls s2 = calls s /\ open_until s2 = open_until s).
  { destruct (run_patch_run id (link_row cr ai) row1 s1 (wr_row _ _ _ _ H1)) as (s2 & Hrun & Hw & Hc & Ho).
    destruct cr, ai; [exists (link_row (Some n) (Some s0) row1), s2|exists (link_row (Some n) None row1), s2
                     |exists (link_row None (Some s0) row1), s2|exists row1, s1]; (split; [done|]);
      (split; [first [done|by eapply wrote_trans]|done]). }
  destruct Hlink as (row2 & s2 & Hrun & H2 & Hor & Hst & Hc2 & Ho2). rewrite run_bind. 
  replace (run _ s1) with (Ok tt, s2). 
  destruct (run_hand_to_engine id row2 w tr p s2 (wr_row _ _ _ _ H2) Hst) as (r & s3 & row3 & Hrun3 & H3 & Hor3 & Hcase).
  exists r, s3. split; [done|]. exists row3, s2. destruct (wrote_trans _ _ _ _ _ _ H2 H3) as [Hrow Hother Hmono].
  split; [done|]. split; [done|]. split; [congruence|]. unfold breaker_is_open in *. destruct H2 as [_ _ Hm2]. 
  rewrite Ho2, Hm2, Hc2 in Hcase. unfold dispatch_answer in *. by rewrite Hm2 in Hcase.
Qed.

(** A refused "Run now" (the breaker is open, the engine is not called) is
    recorded as a failed dispatch: it opens the breaker for another 15 s, where
    a refused trigger leaves it as it is ([create_and_dispatch_outcome]). *)
Theorem run_now_extends_breaker w wf supplied inputs user s :
  breaker_is_open s = true -> blocking_errors wf user = [] ->
  resolve_run_inputs encrypt (static_attributes wf) supplied = Ok inputs -> validate_reference_inputs wf inputs user = Ok tt ->
  exists s', run (start_scheduled_run w wf supplied user true) s = (Ok (next_id (tables_of s)), s') /\
    calls s' = calls s /\ open_until s' = (mono s + DEFAULT_OPEN_SECONDS)%Z /\ breaker_is_open s' = true.
Proof.
  intros Hopen Hb Hin Href. unfold start_scheduled_run. rewrite run_bind, run_on_tables. cbn [fst snd].
  change (create_run _ _ _ _ _ _ _ _ _ _).1 with (next_id (tables_of s)).
  set (id := next_id (tables_of s)). set (s1 := set_tables _ s).
  set (row1 := Run (uuid4 s) w user R_pending "scheduled" None None None [] [] None None None None None None None None None None (wall s)).
  assert (H1 : wrote id row1 s s1) by by apply wrote_set.
  rewrite decide_False by (intros Hn; by apply Hn). rewrite Hin. cbn [mbind res_bind]. rewrite Href. cbn [mbind res_bind].
  rewrite run_bind. destruct (run_patch_run id (input_row inputs) row1 s1 (wr_row _ _ _ _ H1)) as (s2 & -> & H2 & Hc2 & Ho2).
  rewrite run_bind, run_catch, run_bind. cbn [run read tx].
  assert (Hopen2 : breaker_is_open s2 = true).
  { unfold breaker_is_open. rewrite Ho2, (wr_mono _ _ _ _ H2). exact Hopen. }
  rewrite Hopen2. cbn [negb guard_or]. rewrite run_bind. cbn [run raise]. rewrite run_bind. cbn [run write tx].
  set (s3 := record_failure s2). rewrite run_bind.
  destruct (run_fail_run id (fun s => Fields None (Some "Workflow execution engine unavailable") (Some "internal") (Some (uuid4 s))
    None (Some (wall s)) None None None) (input_row inputs row1) s3 (wr_row _ _ _ _ H2) eq_refl) as (s4 & -> & H4 & Hc4 & Ho4).
  cbn [run mret proc_mret]. exists s4. split; [done|]. rewrite Hc4, Ho4. split; [done|].
  assert (Hmono : mono s4 = mono s) by (by rewrite (wr_mono _ _ _ _ H4); simpl; rewrite (wr_mono _ _ _ _ H2), (wr_mono _ _ _ _ H1)).
  assert (Ho3 : open_until s3 = (mono s + DEFAULT_OPEN_SECONDS)%Z) by (simpl; by rewrite (wr_mono _ _ _ _ H2), (wr_mono _ _ _ _ H1)).
  rewrite Ho3. split; [done|]. unfold breaker_is_open. rewrite Hmono, Ho4, Ho3. apply Z.ltb_lt. unfold DEFAULT_OPEN_SECONDS. lia.
Qed.
End ServiceFacts.

#[export] Hint Resolve keeps_cancel_active keeps_cancel_children keeps_cancel_run keeps_create keeps_start_child : keeps.

(** ** A small installation *)

Definition demo_services : Services := {|
  rbac := {| has_role _ _ := false; has_permission _ _ _ := true |};
  workflows w := if decide (w = 1 \/ w = 2) then Some (WorkflowRow "public" (Some 7) [] [] []) else None;
  workflow_name _ := Some "backup";
  ai_release_stamp _ := None; ai_result_node _ := None; release_is_current _ := false; background_tier _ := None;
  blocking_errors _ _ := [];
  validate_reference_inputs _ _ _ := Ok tt; exn_text _ := "";
  encrypt s := s; uuid4 _ := "u";
  run_no_wait _ _ _ := Some "h"; engine_cancel _ _ := true
|}.

Definition demo_run (w : nat) (st : run_status) (parent : option nat) (h : option string) : WorkflowRun :=
  Run "u" w (Some 7) st "manual" None None None [] [] h None parent None None None None None None None 0.

(** Run 0 started run 1, which has finished; run 2, started by 1, still runs. *)
Definition demo_tables : tables :=
  Tables (list_to_map [(0, demo_run 1 R_running None (Some "h0")); (1, demo_run 2 R_success (Some 0) None);
                       (2, demo_run 2 R_running (Some 1) (Some "h2")); (3, demo_run 1 R_pending None None)]) ∅ ∅ 4.
Definition demo_system : system := System 100 50 (World demo_tables ∅ 1) 0 [].

Lemma demo_fresh : ids_fresh (tables_of demo_system).
Proof.
  intros r Hr%elem_of_dom. assert (Hall : set_Forall (fun r => r < 4) (dom (runs demo_tables))) by (apply (bool_decide_unpack _); by vm_compute).
  by apply Hall.
Qed.

Lemma demo_started parent child : started_by demo_system parent child <->
  match runs demo_tables !! child with Some r => parent_run_id r | None => None end = Some parent.
Proof.
  unfold started_by, run_row. change (runs (tables_of demo_system)) with (runs demo_tables).
  destruct (runs demo_tables !! child) as [r|]; [|split; [by intros (r & [=] & _)|done]].
  split; [by intros (r' & [= ->] & Hp)|]. intros Hp. by exists r.
Qed.

Lemma cancel_child_runs_total_witness :
  exists seen s', run (cancel_child_runs (H := demo_services) 5 0 {[0]}) demo_system = (Ok seen, s') /\
    rstatus <$> run_row s' 2 = Some R_cancelled /\ run_row s' 3 = run_row demo_system 3.
Proof.
  destruct (@cancel_child_runs_total demo_services demo_system 0 demo_fresh) as (seen & s' & Hrun & Hrows).
  exists seen, s'. split; [exact Hrun|]. split.
  - destruct (Hrows 2 (demo_run 2 R_running (Some 1) (Some "h2")) eq_refl) as (r' & -> & Hc & _). simpl. f_equal. rewrite Hc; [done| |done].
    apply (tc_l _ 0 1 2); [|apply tc_once]; by apply demo_started.
  - destruct (Hrows 3 (demo_run 1 R_pending None None) eq_refl) as (r' & -> & _ & Hn). rewrite Hn; [done|]. revert Hn. clear. intros _ Hc.
    assert (Hno : forall c, caused demo_system 0 c -> c <> 3); [|by apply (Hno 3)].
    apply tc_ind_r; [intros y Hy%demo_started| intros y z _ Hz%demo_started _]; by intros ->.
Defined.

Definition demo_turns : list bool := replicate 1 false ++ replicate 7 true ++ replicate 30 false.
Definition demo_race :=
  race demo_turns (start_child_run (H := demo_services) 0 2 []) (cancel_run (H := demo_services) 5 0 7) demo_system.

(** The operator's request is accepted, a child is started and checked, then the
    cancellation goes on. *)
Definition demo_history : nat -> system := history demo_system demo_race.1.

Lemma demo_history_undeleted : undeleted_history demo_history.
Proof.
  split; [|unfold demo_history; rewrite history_0; apply demo_fresh].
  apply race_lived; [apply _|apply keeps_start_child|apply keeps_cancel_run].
Qed.


(** A "Run now" two seconds before the breaker closes. *)
Lemma run_now_extends_breaker_witness :
  let s := System 100 50 (World demo_tables ∅ 1) 52 [] in
  exists s', run (start_scheduled_run (H := demo_services) 1 (WorkflowRow "public" (Some 7) [] [] []) [] (Some 7) true) s = (Ok 4, s') /\
    calls s' = [] /\ open_until s' = 65%Z /\ breaker_is_open s' = true.
Proof.
  intros s. exact (@run_now_extends_breaker demo_services 1 (WorkflowRow "public" (Some 7) [] [] []) [] [] (Some 7) s eq_refl eq_refl eq_refl eq_refl).
Defined.
