(* ===== verification/SessionPool.v ===== *)
(** * The pool of device sessions ([services/network/netmiko/session_pool.py])

    One pool serves the steps of one segment of a run: a live session per device,
    lent to one operation at a time under the session's lock, the operation itself
    on a thread.  Tasks can be cancelled at every await while their thread goes on.
    A step of the model is what happens between two awaits of a task, or the start or
    the end of a thread's work; which one comes next is free, so every interleaving of
    the event loop and of the threads is a list of events.

    The sessions themselves are Netmiko's: whether one is alive and whether a
    connect succeeds comes with the event that ends the work.  The disposable
    sessions of [probe_login] and of a pool that is switched off are never stored and
    are left out, as are the clock and the log. *)
From stdpp Require Import gmap.
From S2P Require Import Prelude.

(** Host, device type, name of the credential *)
Abbreviation SessionKey := (string * string * string)%type.

(** What a thread of the executor was given *)
Inductive work := W_op | W_disconnect.
Inductive job_state := J_queued | J_on_thread | J_done.
#[export] Instance job_state_eq : EqDecision job_state.
Proof. solve_decision. Defined.
Record job := Job { j_key : SessionKey; j_work : work; j_state : job_state }.

Record PooledSession := Session { lock : option nat; inflight : option nat; ever_connected : bool }.

(** Where a task stands: a call of [run_on_device] at its lock, at its future, or
    gone with the callback of its future left behind; a call of [suspend] (of
    [close], when the flag is set) at one session, with those still to come. *)
Inductive call_phase :=
  | C_waiting (k : SessionKey)
  | C_awaiting (k : SessionKey) (j : nat)
  | C_detached (k : SessionKey) (j : nat)
  | S_grace (closing : bool) (k : SessionKey) (rest : list SessionKey)
  | S_waiting (closing : bool) (k : SessionKey) (rest : list SessionKey)
  | S_disconnecting (closing : bool) (k : SessionKey) (rest : list SessionKey) (j : nat)
  | Over.

Record pool := Pool {
  sessions : gmap SessionKey PooledSession; tasks : gmap nat call_phase; jobs : gmap nat job; next_id : nat;
  closed : bool; executor_down : bool; max_workers : nat; created_total : nat; reconnects : nat }.
Definition empty_pool (workers : nat) : pool := Pool ∅ ∅ ∅ 0 false false workers 0 0.

(** ** Changes of one part *)
Definition set_tasks (f : gmap nat call_phase -> gmap nat call_phase) (p : pool) : pool :=
  Pool (sessions p) (f (tasks p)) (jobs p) (next_id p) (closed p) (executor_down p) (max_workers p) (created_total p) (reconnects p).
Definition set_call (t : nat) (ph : call_phase) : pool -> pool := set_tasks (insert t ph).
Definition set_sessions (f : gmap SessionKey PooledSession -> gmap SessionKey PooledSession) (p : pool) : pool :=
  Pool (f (sessions p)) (tasks p) (jobs p) (next_id p) (closed p) (executor_down p) (max_workers p) (created_total p) (reconnects p).
Definition set_jobs (f : gmap nat job -> gmap nat job) (p : pool) : pool :=
  Pool (sessions p) (tasks p) (f (jobs p)) (next_id p) (closed p) (executor_down p) (max_workers p) (created_total p) (reconnects p).
Definition lock_of (p : pool) (k : SessionKey) : option nat := sessions p !! k ≫= lock.
(** Letting the lock go; the operation also clears what it had in flight. *)
Definition unlock (k : SessionKey) : pool -> pool := set_sessions (alter (fun e => Session None (inflight e) (ever_connected e)) k).
Definition release_lock (k : SessionKey) : pool -> pool := set_sessions (alter (fun e => Session None None (ever_connected e)) k).
Definition job_done (p : pool) (j : nat) : bool := match jobs p !! j with Some b => bool_decide (j_state b = J_done) | None => true end.
Definition finish_job (j : nat) : pool -> pool := set_jobs (alter (fun b => Job (j_key b) (j_work b) J_done) j).

(** A task takes the lock and gives its work to the executor, in one stretch. *)
Definition submit (t : nat) (k : SessionKey) (w : work) (ph : nat -> call_phase) (p : pool) : pool :=
  let j := next_id p in
  Pool (alter (fun e => Session (Some t) (match w with W_op => Some j | W_disconnect => inflight e end) (ever_connected e)) k (sessions p))
    (<[t := ph j]> (tasks p)) (<[j := Job k w J_queued]> (jobs p)) (S j) (closed p) (executor_down p) (max_workers p) (created_total p) (reconnects p).

(** [executor.shutdown(wait=False, cancel_futures=True)] *)
Definition shutdown (p : pool) : pool :=
  Pool (sessions p) (tasks p) ((fun b => match j_state b with J_queued => Job (j_key b) (j_work b) J_done | _ => b end) <$> jobs p)
    (next_id p) (closed p) true (max_workers p) (created_total p) (reconnects p).

(** [suspend] goes to its next session, or ends; [close] then shuts down. *)
Definition next_session (t : nat) (closing : bool) (rest : list SessionKey) (p : pool) : pool :=
  match rest with
  | k :: rest => set_call t (S_grace closing k rest) p
  | [] => let p := set_call t Over p in if closing then shutdown p else p
  end.

(** [_get_or_create_entry], under the pool's lock *)
Definition get_or_create_entry (k : SessionKey) (p : pool) : pool :=
  match sessions p !! k with
  | Some _ => p
  | None => Pool (<[k := Session None None false]> (sessions p)) (tasks p) (jobs p) (next_id p) (closed p) (executor_down p) (max_workers p)
              (S (created_total p)) (reconnects p)
  end.

(** What the operation's work ([_run]) leaves: a session found dead is dropped,
    if it had been connected, and connected anew. *)
Definition run_work (k : SessionKey) (was_alive connected : bool) (p : pool) : pool :=
  match sessions p !! k with
  | None => p
  | Some e =>
      if was_alive then p
      else Pool (<[k := Session (lock e) (inflight e) (ever_connected e || connected)]> (sessions p)) (tasks p) (jobs p) (next_id p) (closed p)
             (executor_down p) (max_workers p) (created_total p) (if ever_connected e then S (reconnects p) else reconnects p)
  end.

Definition running (p : pool) : nat := length (filter (fun kv => j_state kv.2 = J_on_thread) (map_to_list (jobs p))).

(** ** Events *)
Inductive event :=
  | E_run (k : SessionKey)                       (* [run_on_device] is called *)
  | E_suspend | E_close
  | E_grace_over (t : nat)                        (* the work in flight has ended, or the grace period has *)
  | E_acquire (t : nat)
  | E_start (j : nat)                             (* a thread takes the work *)
  | E_end (j : nat) (was_alive connected : bool)  (* and has done with it *)
  | E_resume (t : nat)                            (* the task sees its future done *)
  | E_callback (t : nat)                          (* [_release_after_inflight] *)
  | E_cancel (t : nat).

Definition new_task (ph : call_phase) (p : pool) : pool :=
  Pool (sessions p) (<[next_id p := ph]> (tasks p)) (jobs p) (S (next_id p)) (closed p) (executor_down p) (max_workers p) (created_total p) (reconnects p).
Definition new_suspend (closing : bool) (p : pool) : pool :=
  match (map_to_list (sessions p)).*1 with
  | k :: rest => new_task (S_grace closing k rest) p
  | [] => if closing then shutdown p else p
  end.

Definition pool_step (e : event) (p : pool) : option pool :=
  match e with
  | E_run k => Some (new_task (C_waiting k) (get_or_create_entry k p))
  | E_suspend => Some (new_suspend false p)
  | E_close =>
      if closed p then Some p
      else Some (new_suspend true (Pool (sessions p) (tasks p) (jobs p) (next_id p) true (executor_down p) (max_workers p) (created_total p) (reconnects p)))
  | E_grace_over t => match tasks p !! t with Some (S_grace closing k rest) => Some (set_call t (S_waiting closing k rest) p) | _ => None end
  | E_acquire t =>
      match tasks p !! t with
      | Some (C_waiting k) =>
          if negb (bool_decide (lock_of p k = None)) then None
          else if executor_down p then Some (set_call t Over p)                        (* [run_in_executor] raises *)
          else Some (submit t k W_op (C_awaiting k) p)
      | Some (S_waiting closing k rest) =>
          if negb (bool_decide (lock_of p k = None)) then None
          else if executor_down p then Some (next_session t closing rest p)             (* it raises; logged *)
          else Some (submit t k W_disconnect (S_disconnecting closing k rest) p)
      | _ => None
      end
  | E_start j =>
      match jobs p !! j with
      | Some b => if bool_decide (j_state b = J_queued) && (running p <? max_workers p) then Some (set_jobs (insert j (Job (j_key b) (j_work b) J_on_thread)) p) else None
      | None => None
      end
  | E_end j was_alive connected =>
      match jobs p !! j with
      | Some b =>
          if bool_decide (j_state b = J_on_thread)
          then Some (finish_job j (match j_work b with W_op => run_work (j_key b) was_alive connected p | W_disconnect => p end))
          else None
      | None => None
      end
  | E_resume t =>
      match tasks p !! t with
      | Some (C_awaiting k j) => if job_done p j then Some (set_call t Over (release_lock k p)) else None
      | Some (S_disconnecting closing k rest j) => if job_done p j then Some (next_session t closing rest (unlock k p)) else None
      | _ => None
      end
  | E_callback t =>
      match tasks p !! t with
      | Some (C_detached k j) => if job_done p j then Some (set_call t Over (release_lock k p)) else None
      | _ => None
      end
  | E_cancel t =>
      match tasks p !! t with
      | Some (C_waiting _ | S_waiting _ _ _) => Some (set_call t Over p)
      | Some (C_awaiting k j) => Some (if job_done p j then set_call t Over (release_lock k p) else set_call t (C_detached k j) p)
      | Some (S_grace closing k rest) => Some (set_call t (S_waiting closing k rest) p)  (* the cancellation is suppressed *)
      | Some (S_disconnecting closing k rest j) =>
          (* queued work is withdrawn; a thread goes on without the lock *)
          let p := match jobs p !! j with Some b => if bool_decide (j_state b = J_queued) then finish_job j p else p | None => p end in
          Some (set_call t Over (unlock k p))
      | _ => None
      end
  end.

Fixpoint pool_steps (es : list event) (p : pool) : option pool :=
  match es with [] => Some p | e :: es => pool_step e p ≫= pool_steps es end.

(** * One at a time *)

(** The session and the work a task holds the lock for *)
Definition holds (ph : call_phase) : option (SessionKey * nat) :=
  match ph with C_awaiting k j | C_detached k j | S_disconnecting _ k _ j => Some (k, j) | _ => None end.
Definition keys_of (ph : call_phase) : list SessionKey :=
  match ph with
  | C_waiting k | C_awaiting k _ | C_detached k _ => [k]
  | S_grace _ k rest | S_waiting _ k rest | S_disconnecting _ k rest _ => k :: rest
  | Over => []
  end.
Definition at_work (p : pool) (j : nat) (k : SessionKey) : Prop := exists b, jobs p !! j = Some b /\ j_key b = k /\ j_state b ≠ J_done.
Definition known (p : pool) (ks : list SessionKey) : Prop := forall k, k ∈ ks -> is_Some (sessions p !! k).

Record inv (p : pool) : Prop := {
  i_hold : forall t ph k j, tasks p !! t = Some ph -> holds ph = Some (k, j) -> lock_of p k = Some t /\ exists b, jobs p !! j = Some b /\ j_key b = k;
  i_work : forall j k, at_work p j k -> exists t ph, tasks p !! t = Some ph /\ holds ph = Some (k, j);
  i_lock : forall k t, lock_of p k = Some t -> exists ph j, tasks p !! t = Some ph /\ holds ph = Some (k, j);
  i_fresh : forall i, next_id p <= i -> tasks p !! i = None /\ jobs p !! i = None;
  i_known : forall t ph, tasks p !! t = Some ph -> known p (keys_of ph)
}.

Lemma inv_empty workers : inv (empty_pool workers).
Proof. split; cbn; intros; try by (rewrite lookup_empty in *; done). by destruct H as (b & Hb & _). Qed.

(** Steps of threads, and whatever keeps the locks *)
Definition similar (p p' : pool) : Prop :=
  tasks p' = tasks p /\ next_id p' = next_id p /\ (forall k, lock_of p' k = lock_of p k) /\ (forall k, is_Some (sessions p !! k) -> is_Some (sessions p' !! k)) /\
  forall j, match jobs p !! j, jobs p' !! j with
            | None, None => True
            | Some b, Some b' => j_key b' = j_key b /\ (j_state b' ≠ J_done -> j_state b ≠ J_done)
            | _, _ => False
            end.
Lemma inv_similar p p' : similar p p' -> inv p -> inv p'.
Proof.
  intros (Htasks & Hnext & Hlock & Hknown & Hjobs) [H1 H2 H3 H4 H5]. split.
  - intros t ph k j Ht Hph. rewrite Htasks in Ht. destruct (H1 _ _ _ _ Ht Hph) as (Hl & b & Hb & Hk). rewrite Hlock. split; [done|].
    specialize (Hjobs j). rewrite Hb in Hjobs. destruct (jobs p' !! j) as [b'|]; [|done]. exists b'. split; [done|]. by destruct Hjobs as [-> _].
  - intros j k (b' & Hb' & Hk & Hs). specialize (Hjobs j). rewrite Hb' in Hjobs. destruct (jobs p !! j) as [b|] eqn:Hb; [|done]. destruct Hjobs as [Hkey Hst].
    rewrite Htasks. apply H2. exists b. split_and!; [done|congruence|by apply Hst].
  - intros k t. rewrite Hlock, Htasks. apply H3.
  - intros i. rewrite Hnext, Htasks. intros [Ht Hj]%H4. split; [done|]. specialize (Hjobs i). rewrite Hj in Hjobs. by destruct (jobs p' !! i).
  - intros t ph. rewrite Htasks. intros Ht k Hk. by apply Hknown, (H5 t ph Ht).
Qed.

(** A task that holds nothing begins, or goes on, holding nothing. *)
Lemma inv_new_task ph p : holds ph = None -> known p (keys_of ph) -> inv p -> inv (new_task ph p).
Proof.
  intros Hno Hkn [H1 H2 H3 H4 H5]. destruct (H4 (next_id p)) as [Hnt Hnj]; [done|].
  assert (Hold : forall t ph', tasks p !! t = Some ph' -> <[next_id p := ph]> (tasks p) !! t = Some ph') by (intros t ph' Ht; rewrite lookup_insert_ne; congruence).
  split; cbn.
  - intros t ph' k j [[<- <-]|[_ Ht]]%lookup_insert_Some Hh; [congruence|]. by eapply H1.
  - intros j k (t & ph' & Ht & Hh)%H2. exists t, ph'. eauto.
  - intros k t (ph' & j & Ht & Hh)%H3. exists ph', j. eauto.
  - intros i Hi. destruct (H4 i) as [Ht Hj]; [lia|]. split; [|done]. rewrite lookup_insert_ne; [done|lia].
  - intros t ph' [[_ <-]|[_ Ht]]%lookup_insert_Some; [done|]. by eapply H5.
Qed.

Lemma inv_idle t ph0 ph p : tasks p !! t = Some ph0 -> holds ph0 = holds ph -> known p (keys_of ph) -> inv p -> inv (set_call t ph p).
Proof.
  intros Hph0 Hsame Hkn [H1 H2 H3 H4 H5]. assert (Hmove : forall u x, tasks p !! u = Some x -> exists y, <[t := ph]> (tasks p) !! u = Some y /\ holds y = holds x).
  { intros u x Hu. destruct (decide (u = t)) as [->|]; [exists ph; rewrite lookup_insert_eq; split; [done|congruence]|exists x; by rewrite lookup_insert_ne]. }
  split; cbn.
  - intros u x k j [[<- <-]|[_ Hu]]%lookup_insert_Some Hh; [eapply H1; [done|congruence]|by eapply H1].
  - intros j k (u & x & (y & Hy & Hh)%Hmove & Hx)%H2. exists u, y. split; [done|congruence].
  - intros k u (x & j & (y & Hy & Hh)%Hmove & Hx)%H3. exists y, j. split; [done|congruence].
  - intros i Hi. destruct (H4 i Hi) as [Ht Hj]. split; [|done]. rewrite lookup_insert_ne; [done|congruence].
  - intros u x [[_ <-]|[_ Hu]]%lookup_insert_Some; [done|by eapply H5].
Qed.

Lemma lock_alter p k f k' : is_Some (sessions p !! k) ->
  (alter f k (sessions p) !! k' ≫= lock) = if decide (k' = k) then (sessions p !! k ≫= fun e => lock (f e)) else lock_of p k'.
Proof. intros [e He]. destruct (decide (k' = k)) as [->|]; [rewrite lookup_alter_eq; by rewrite He|by rewrite lookup_alter_ne]. Qed.

(** It takes the lock, its work queued. *)
Lemma inv_submit t ph0 k w ph p : tasks p !! t = Some ph0 -> holds ph0 = None -> lock_of p k = None -> (forall j, holds (ph j) = Some (k, j)) ->
  (forall j, known p (keys_of (ph j))) -> inv p -> inv (submit t k w ph p).
Proof.
  intros Hph0 Hno Hfree Hholds Hkn [H1 H2 H3 H4 H5]. destruct (H4 (next_id p)) as [_ Hnj]; [done|].
  assert (Hk : is_Some (sessions p !! k)). { apply (Hkn 0). specialize (Hholds 0). destruct (ph 0); cbn in *; try done; injection Hholds as -> _; left. }
  assert (Hkeep : forall u x a, tasks p !! u = Some x -> holds x = Some a -> <[t := ph (next_id p)]> (tasks p) !! u = Some x).
  { intros u x a Hu Hx. rewrite lookup_insert_ne; [done|]. intros <-. congruence. }
  split; unfold submit, lock_of; cbn [sessions tasks jobs next_id].
  - intros u x k' j [[<- <-]|[Hne Hu]]%lookup_insert_Some Hh; rewrite lock_alter by done.
    + rewrite Hholds in Hh. injection Hh as <- <-. rewrite decide_True by done. destruct Hk as [e ->]. split; [done|]. rewrite lookup_insert_eq. by eexists.
    + destruct (H1 _ _ _ _ Hu Hh) as (Hl & b & Hb & Hbk). rewrite decide_False by congruence. split; [done|]. exists b. rewrite lookup_insert_ne; [done|congruence].
  - intros j k' (b & Hb & <- & Hs). cbn in Hb. apply lookup_insert_Some in Hb as [[<- <-]|[Hne Hb]].
    + exists t, (ph (next_id p)). rewrite lookup_insert_eq. by rewrite Hholds.
    + destruct (H2 j (j_key b)) as (u & x & Hu & Hx); [by exists b|]. exists u, x. eauto.
  - intros k' u. rewrite lock_alter by done. case_decide as Hkk.
    + subst k'. destruct Hk as [e ->]. cbn. intros [= <-]. exists (ph (next_id p)), (next_id p). by rewrite lookup_insert_eq.
    + intros (x & j & Hu & Hx)%H3. exists x, j. eauto.
  - intros i Hi. destruct (H4 i) as [Ht Hj]; [lia|]. split; (rewrite lookup_insert_ne; [done|]); [congruence|lia].
  - intros u x Hu k' Hk'. cbn [sessions set_call set_tasks set_sessions]. destruct (decide (k' = k)) as [->|]; [rewrite lookup_alter_eq; destruct Hk as [e ->]; by eexists|]. cbn. rewrite lookup_alter_ne by done.
    apply lookup_insert_Some in Hu as [[_ <-]|[_ Hu]]; [by eapply Hkn|by eapply H5].
Qed.

(** It lets the lock go when its work is done. *)
Lemma inv_let_go f t ph0 ph k j p : tasks p !! t = Some ph0 -> holds ph0 = Some (k, j) -> holds ph = None -> (forall e, lock (f e) = None) -> job_done p j = true ->
  known p (keys_of ph) -> inv p -> inv (set_call t ph (set_sessions (alter f k) p)).
Proof.
  intros Hph0 Hh0 Hno Hf Hdone Hkn [H1 H2 H3 H4 H5]. destruct (H1 _ _ _ _ Hph0 Hh0) as (Hl & b0 & Hb0 & Hbk0).
  assert (Hk : is_Some (sessions p !! k)) by (unfold lock_of in Hl; destruct (sessions p !! k); [by eexists|done]).
  assert (Hother : forall u x k' j', tasks p !! u = Some x -> holds x = Some (k', j') -> k' ≠ k -> <[t := ph]> (tasks p) !! u = Some x).
  { intros u x k' j' Hu Hx Hne. rewrite lookup_insert_ne; [done|]. intros <-. congruence. }
  split; unfold lock_of; cbn [sessions tasks jobs next_id set_call set_tasks set_sessions].
  - intros u x k' j' [[<- <-]|[Hne Hu]]%lookup_insert_Some Hx; [congruence|]. destruct (H1 _ _ _ _ Hu Hx) as (Hl' & Hb'). rewrite lock_alter by done.
    rewrite decide_False; [done|]. intros ->. congruence.
  - intros j' k' Hw. destruct (H2 j' k' Hw) as (u & x & Hu & Hx). exists u, x. split; [|done]. eapply Hother; [done|done|]. intros ->.
    destruct (H1 _ _ _ _ Hu Hx) as [Hl' _]. rewrite Hl in Hl'. injection Hl' as <-. rewrite Hph0 in Hu. injection Hu as <-. rewrite Hh0 in Hx. injection Hx as <-.
    destruct Hw as (b & Hb & _ & Hs). change (jobs p !! j = Some b) in Hb. unfold job_done in Hdone. rewrite Hb in Hdone. by apply bool_decide_eq_true in Hdone.
  - intros k' u. rewrite lock_alter by done. case_decide as Hkk; [destruct Hk as [e ->]; cbn; by rewrite Hf|].
    intros (x & j' & Hu & Hx)%H3. exists x, j'. split; [|done]. by eapply Hother.
  - intros i Hi. destruct (H4 i Hi) as [Ht Hj]. split; [|done]. rewrite lookup_insert_ne; [done|congruence].
  - intros u x Hu k' Hk'. cbn [sessions set_call set_tasks set_sessions]. destruct (decide (k' = k)) as [->|]; [rewrite lookup_alter_eq; destruct Hk as [e ->]; by eexists|]. rewrite lookup_alter_ne by done.
    apply lookup_insert_Some in Hu as [[_ <-]|[_ Hu]]; [by apply Hkn|by eapply H5].
Qed.

Lemma same_jobs p : forall j, match jobs p !! j, jobs p !! j with
  | None, None => True | Some b, Some b' => j_key b' = j_key b /\ (j_state b' ≠ J_done -> j_state b ≠ J_done) | _, _ => False end.
Proof. intros j. by destruct (jobs p !! j). Qed.
Lemma similar_shutdown p : similar p (shutdown p).
Proof.
  split_and!; try done. intros j. cbn. rewrite lookup_fmap. destruct (jobs p !! j) as [b|]; cbn; [|done]. by destruct (j_state b) eqn:Hs; cbn; rewrite ?Hs.
Qed.
Lemma similar_job j b b' p : jobs p !! j = Some b -> j_key b' = j_key b -> j_state b ≠ J_done -> similar p (set_jobs (insert j b') p).
Proof.
  intros Hb Hk Hs. split_and!; try done. intros i. cbn. destruct (decide (i = j)) as [->|]; [by rewrite lookup_insert_eq, Hb|]. rewrite lookup_insert_ne by done. apply (same_jobs p).
Qed.
Lemma similar_finish j p : similar p (finish_job j p).
Proof.
  split_and!; try done. intros i. cbn. destruct (decide (i = j)) as [->|]; [|rewrite lookup_alter_ne by done; apply (same_jobs p)].
  rewrite lookup_alter_eq. by destruct (jobs p !! j).
Qed.
Lemma similar_run_work k a c p : similar p (run_work k a c p).
Proof.
  unfold run_work. destruct (sessions p !! k) as [e|] eqn:He; [|split_and!; try done; apply (same_jobs p)]. destruct a; [split_and!; try done; apply (same_jobs p)|].
  split; [done|]; split; [done|]; split; [|split; [|apply (same_jobs p)]]; intros k'; unfold lock_of; cbn [sessions]; (destruct (decide (k' = k)) as [->|]; [rewrite lookup_insert_eq, ?He; eauto|by rewrite lookup_insert_ne]).
Qed.
Lemma similar_create k p : similar p (get_or_create_entry k p).
Proof.
  unfold get_or_create_entry. destruct (sessions p !! k) as [e|] eqn:He; [split_and!; try done; apply (same_jobs p)|].
  split; [done|]; split; [done|]; split; [|split; [|apply (same_jobs p)]]; intros k'; unfold lock_of; cbn [sessions]; (destruct (decide (k' = k)) as [->|]; [rewrite lookup_insert_eq, ?He; eauto|by rewrite lookup_insert_ne]).
Qed.
Lemma create_known k p : is_Some (sessions (get_or_create_entry k p) !! k).
Proof. unfold get_or_create_entry. destruct (sessions p !! k) eqn:He; [by rewrite He|]. cbn. rewrite lookup_insert_eq. by eexists. Qed.

Lemma known_cons p k ks : known p (k :: ks) <-> is_Some (sessions p !! k) /\ known p ks.
Proof. unfold known. setoid_rewrite elem_of_cons. naive_solver. Qed.

Lemma inv_new_suspend closing p : inv p -> inv (new_suspend closing p).
Proof.
  intros Hp. unfold new_suspend. destruct ((map_to_list (sessions p)).*1) as [|k rest] eqn:Hks; [destruct closing; [by apply (inv_similar p), Hp; apply similar_shutdown|done]|].
  apply inv_new_task; [done| |done]. cbn [keys_of]. rewrite <- Hks. intros k' (kv & -> & Hin)%list_elem_of_fmap. destruct kv as [k' e]. apply elem_of_map_to_list in Hin. by exists e.
Qed.

Lemma inv_next t closing rest p : (forall ph, holds ph = None -> known p (keys_of ph) -> inv (set_call t ph p)) -> known p rest -> inv (next_session t closing rest p).
Proof.
  intros Hset Hkn. destruct rest as [|k rest]; cbn [next_session]; [|by apply Hset]. assert (Hover : inv (set_call t Over p)) by (apply Hset; [done|by intros ? ?%not_elem_of_nil]).
  destruct closing; [|done]. eapply inv_similar; [apply similar_shutdown|done].
Qed.

(** A cancellation that leaves a thread behind: of a [suspend] whose disconnect
    is running *)
Definition orphans (e : event) (p : pool) : bool :=
  match e with
  | E_cancel t =>
      match tasks p !! t with
      | Some (S_disconnecting _ _ _ j) => match jobs p !! j with Some b => bool_decide (j_state b = J_on_thread) | None => false end
      | _ => false
      end
  | _ => false
  end.

Lemma known_alter f k p ks : known p ks -> known (set_sessions (alter f k) p) ks.
Proof.
  intros Hkn k' Hk'. destruct (Hkn k' Hk') as [e He]. cbn. destruct (decide (k' = k)) as [->|]; [rewrite lookup_alter_eq, He; by eexists|].
  rewrite lookup_alter_ne by done. by eexists.
Qed.
Lemma known_over p : known p (keys_of Over).
Proof. by intros k ?%not_elem_of_nil. Qed.
#[local] Hint Resolve known_over known_alter : core.

Lemma inv_step e p p' : orphans e p = false -> inv p -> pool_step e p = Some p' -> inv p'.
Proof.
  intros Hgentle Hp. pose proof Hp as [H1 H2 H3 H4 H5]. destruct e as [k| | |t|t|j|j a c|t|t|t]; cbn [pool_step orphans] in *.
  - intros [= <-]. apply inv_new_task; [done|apply known_cons; split; [apply create_known|by intros ? ?%not_elem_of_nil]|]. eapply inv_similar; [apply similar_create|done].
  - intros [= <-]. by apply inv_new_suspend.
  - destruct (closed p); intros [= <-]; [done|]. apply inv_new_suspend. eapply inv_similar; [|done]. split_and!; try done. apply (same_jobs p).
  - destruct (tasks p !! t) as [[| | |closing k rest| | |]|] eqn:Ht; try done. intros [= <-]. eapply inv_idle; [done|done|by apply (H5 _ _ Ht)|done].
  - destruct (tasks p !! t) as [[k| | | |closing k rest| |]|] eqn:Ht; try done; case_bool_decide as Hfree; cbn [negb]; try done; destruct (executor_down p); intros [= <-].
    + by eapply inv_idle.
    + eapply inv_submit; try done. intros j. apply (H5 _ _ Ht).
    + apply inv_next; [intros ph Hno Hkn; by eapply inv_idle|]. pose proof (H5 _ _ Ht) as Hk. by apply known_cons in Hk as [_ ?].
    + eapply inv_submit; try done. intros j. apply (H5 _ _ Ht).
  - destruct (jobs p !! j) as [b|] eqn:Hb; [|done]. destruct (_ && _) eqn:Hq; [|done]. intros [= <-]. apply andb_true_iff in Hq as [Hq%bool_decide_eq_true _].
    eapply inv_similar; [|done]. eapply similar_job; [done|done|]. by rewrite Hq.
  - destruct (jobs p !! j) as [b|] eqn:Hb; [|done]. case_bool_decide; [|done]. intros [= <-]. eapply inv_similar; [apply similar_finish|].
    destruct (j_work b); [|done]. eapply inv_similar; [apply similar_run_work|done].
  - destruct (tasks p !! t) as [[|k j| | | |closing k rest j|]|] eqn:Ht; try done; destruct (job_done p j) eqn:Hd; try done; intros [= <-].
    + by eapply inv_let_go.
    + pose proof (H5 _ _ Ht) as [Hk Hrest]%known_cons. apply inv_next; [|by apply known_alter]. intros ph Hno Hkn. eapply inv_let_go; try done.
      intros k' Hk'. specialize (Hkn k' Hk'). cbn in Hkn. destruct (decide (k' = k)) as [->|]; [done|]. by rewrite lookup_alter_ne in Hkn.
  - destruct (tasks p !! t) as [[| |k j| | | |]|] eqn:Ht; try done. destruct (job_done p j) eqn:Hd; [|done]. intros [= <-]. by eapply inv_let_go.
  - destruct (tasks p !! t) as [[k|k j| |closing k rest|closing k rest|closing k rest j|]|] eqn:Ht; try done; intros [= <-].
    + by eapply inv_idle.
    + destruct (job_done p j) eqn:Hd; [by eapply inv_let_go|]. eapply inv_idle; [done|done|apply (H5 _ _ Ht)|done].
    + eapply inv_idle; [done|done|apply (H5 _ _ Ht)|done].
    + by eapply inv_idle.
    + destruct (jobs p !! j) as [b|] eqn:Hb.
      * apply bool_decide_eq_false in Hgentle. destruct (bool_decide (j_state b = J_queued)) eqn:Hq.
        -- eapply (inv_let_go _ t (S_disconnecting closing k rest j) Over k j); try done; [|eapply inv_similar; [apply similar_finish|done]].
           unfold job_done. cbn. by rewrite lookup_alter_eq, Hb.
        -- apply bool_decide_eq_false in Hq. eapply (inv_let_go _ t (S_disconnecting closing k rest j) Over k j); try done. unfold job_done. rewrite Hb.
           apply bool_decide_eq_true. by destruct (j_state b).
      * eapply (inv_let_go _ t (S_disconnecting closing k rest j) Over k j); try done. unfold job_done. by rewrite Hb.
Qed.

(** The pools that come about when no running disconnect is abandoned *)
Inductive reachable (workers : nat) : pool -> Prop :=
  | reach_empty : reachable workers (empty_pool workers)
  | reach_step e p p' : reachable workers p -> orphans e p = false -> pool_step e p = Some p' -> reachable workers p'.

Lemma reachable_inv workers p : reachable workers p -> inv p.
Proof. induction 1 as [|e p p' _ IH Ho Hs]; [apply inv_empty|by eapply inv_step]. Qed.


(** The grace period of [suspend] is no limit: while an operation is at work its
    session cannot be disconnected, however long that takes. *)
Lemma grace_is_no_limit workers p j k t closing rest : reachable workers p -> at_work p j k -> tasks p !! t = Some (S_waiting closing k rest) ->
  pool_step (E_acquire t) p = None.
Proof.
  intros Hp%reachable_inv Hw Ht. destruct (i_work p Hp j k Hw) as (u & ph & Hu & Hh). destruct (i_hold p Hp u ph k j Hu Hh) as [Hl _].
  cbn. rewrite Ht. by rewrite bool_decide_false by congruence.
Qed.

(** ** One device *)
Definition router : SessionKey := ("10.0.0.1", "cisco_ios", "lab").
(** Two operations and a suspension; the first operation is cancelled while its
    thread works, and ends. *)
Definition busy_events : list event :=
  [E_run router; E_run router; E_acquire 0; E_start 2; E_cancel 0; E_suspend; E_grace_over 3; E_end 2 false true; E_callback 0; E_acquire 1; E_start 4].
Fixpoint gentle (es : list event) (p : pool) : bool :=
  match es with [] => true | e :: es => negb (orphans e p) && match pool_step e p with Some p' => gentle es p' | None => false end end.
Lemma gentle_reachable workers es p : reachable workers p -> gentle es p = true -> exists p', pool_steps es p = Some p' /\ reachable workers p'.
Proof.
  revert p. induction es as [|e es IH]; intros p Hp Hg; [by exists p|]. cbn in *. apply andb_true_iff in Hg as [Ho%negb_true_iff Hs].
  destruct (pool_step e p) as [p1|] eqn:Hstep; [|done]. cbn. apply IH; [|done]. by eapply reach_step.
Qed.


(** A suspension that is cancelled while its disconnect runs lets the lock go: the
    next operation starts on the session beside it. *)
Definition abandoned_events : list event :=
  [E_run router; E_acquire 0; E_start 1; E_end 1 false true; E_resume 0; E_suspend; E_grace_over 2; E_acquire 2; E_start 3; E_cancel 2;
   E_run router; E_acquire 4; E_start 5].
Lemma cancelled_suspend_shares_session :
  exists p, pool_steps abandoned_events (empty_pool 4) = Some p /\
    jobs p !! 3 = Some (Job router W_disconnect J_on_thread) /\ jobs p !! 5 = Some (Job router W_op J_on_thread).
Proof. eexists. split; [vm_compute; reflexivity|]. split; vm_compute; reflexivity. Qed.
