(* ===== verification/RepoLock.v ===== *)
(** * The lease on a git working tree ([services/git/repo_lock.py])

    Every git repository has one working tree on disk, shared by the API and by all
    workers.  Whoever works in it holds a lease: a key in Redis with a random token
    and a time to live, which a thread of the holder renews.  The model is a step
    relation over the key-value store, the clock and the callers; a step is one
    command to Redis with what depends on its answer, a wake-up of a renewing thread,
    or the passing of time, so every interleaving of the processes is a list of events.

    A call draws a random token ([uuid4]); its number stands for it.  An answer of
    Redis can be missing, with or without the command having been carried out.
    [build_cache_service] keeps the service it has built, so a process that holds a
    key can reach the service object, if not Redis, ever after.  Times are in
    milliseconds, of one clock. *)
From stdpp Require Import gmap pretty.
From S2P Require Import Prelude.
Local Open Scope Z_scope.

Definition seconds (n : Z) : Z := n * 1000.
Definition _LOCK_TTL_SECONDS : Z := seconds 120.
Definition _RENEW_EVERY_SECONDS : Z := seconds 40.
Definition _ACQUIRE_TIMEOUT_SECONDS : Z := seconds 90.
Definition _POLL_INTERVAL_SECONDS : Z := seconds 1.

(** ** Redis, as far as [RedisCacheService] uses it for locks *)
Abbreviation token := nat.
(** Key to value and end of life *)
Abbreviation redis := (gmap string (token * Z)).

Definition redis_get (now : Z) (key : string) (r : redis) : option token :=
  match r !! key with Some (v, ends) => if now <? ends then Some v else None | None => None end.
(** [SET key v NX EX ttl], [_COMPARE_AND_DELETE] and [_COMPARE_AND_EXPIRE] *)
Definition redis_set_nx (now : Z) (key : string) (v : token) (ttl : Z) (r : redis) : bool * redis :=
  match redis_get now key r with Some _ => (false, r) | None => (true, <[key := (v, now + ttl)]> r) end.
Definition redis_delete_if (now : Z) (key : string) (v : token) (r : redis) : bool * redis :=
  if bool_decide (redis_get now key r = Some v) then (true, delete key r) else (false, r).
Definition redis_expire_if (now : Z) (key : string) (v : token) (ttl : Z) (r : redis) : bool * redis :=
  if bool_decide (redis_get now key r = Some v) then (true, <[key := (v, now + ttl)]> r) else (false, r).

(** What becomes of a command: answered, not carried out, or carried out with the
    answer lost.  The last two are the client's exception. *)
Inductive reply := Answered | Unreachable | Answer_lost.
Definition command (rep : reply) (done : bool * redis) (r : redis) : option bool * redis :=
  match rep with Answered => (Some done.1, done.2) | Unreachable => (None, r) | Answer_lost => (None, done.2) end.

Definition set_if_absent (now : Z) (key : string) (data : token) (ttl_seconds : Z) (raise_on_error : bool) (rep : reply) (r : redis) : res bool * redis :=
  let (answer, r') := command rep (redis_set_nx now key data ttl_seconds r) r in
  (match answer with Some created => Ok created | None => if raise_on_error then Raise (OtherError "RedisError") else Ok false end, r').
Definition delete_if_equals (now : Z) (key : string) (data : token) (rep : reply) (r : redis) : bool * redis :=
  let (answer, r') := command rep (redis_delete_if now key data r) r in (default false answer, r').
Definition expire_if_equals (now : Z) (key : string) (data : token) (ttl_seconds : Z) (rep : reply) (r : redis) : bool * redis :=
  let (answer, r') := command rep (redis_expire_if now key data ttl_seconds r) r in (default false answer, r').
(** [clear_all] deletes every key under the service's prefix, the statistics
    apart; the keys of the locks are under it. *)
Definition clear_all (rep : reply) (r : redis) : redis := (command rep (true, ∅) r).2.

(** ** Leases *)
Inductive lock_error := Lock_unavailable | Lease_expired | Timed_out (timeout : Z).
Record lock_failure := LockFailure { kind : string; retryable : bool; hint : string; elapsed_ms : option Z }.
Definition failure_of (e : lock_error) : lock_failure :=
  match e with
  | Lock_unavailable => LockFailure "repo_locked" true "retry_later" None
  | Lease_expired => LockFailure "repo_locked" false "wait_for_other_run" None
  | Timed_out timeout => LockFailure "repo_locked" true "wait_for_other_run" (Some timeout)
  end.

Record GitRepoLease := Lease { git_repository_id : Z; value : option token; lost : bool; _stop : bool }.
Definition _lock_key (git_repository_id : Z) : string := "git-repo-lock:" ++ pretty git_repository_id.
Definition ensure_held (l : GitRepoLease) : lock_error + unit := if lost l then inl Lease_expired else inr tt.
(** The check of [GitService.commit] and [push]: of the lease of the enclosing
    [git_repo_lock] block, where the work runs in the block's own context. *)
Definition ensure_current_lease_held (current : option GitRepoLease) : lock_error + unit :=
  match current with Some l => ensure_held l | None => inr tt end.

Definition lease_release (now : Z) (rep : reply) (l : GitRepoLease) (r : redis) : GitRepoLease * redis :=
  let l := Lease (git_repository_id l) (value l) (lost l) true in
  match value l with
  | None => (l, r)
  | Some v => (l, (delete_if_equals now (_lock_key (git_repository_id l)) v rep r).2)
  end.

(** ** Callers *)
(** The renewing thread: waiting since it last renewed, woken, or gone *)
Inductive renewer := R_waiting (since : Z) | R_due (since : Z) | R_gone.
(** [current]: in a [git_repo_lock] block, entered in the context the work runs in;
    not so for [acquire_git_repo_lock] and for a block entered by [async_scope]. *)
Inductive lock_phase :=
  | Polling (repo : Z) (current : bool) (timeout deadline wake : Z)
  | Refused (e : lock_error)
  | Holding (l : GitRepoLease) (current : bool) (thread : renewer)
  | Released (l : GitRepoLease) (thread : renewer).
Record lock_state := Locks { clock : Z; store : redis; callers : gmap nat lock_phase; next_caller : nat }.
Definition no_locks : lock_state := Locks 0 ∅ ∅ 0%nat.
Definition put (t : nat) (ph : lock_phase) (r : redis) (s : lock_state) : lock_state := Locks (clock s) r (<[t := ph]> (callers s)) (next_caller s).

Section repo_lock.
(** [GIT_REPO_LOCK_REQUIRED] *)
Variable _lock_required : bool.

(** [acquire_git_repo_lock] when Redis is of no use *)
Definition without_lock (repo : Z) (current : bool) : lock_phase :=
  if _lock_required then Refused Lock_unavailable else Holding (Lease repo None false false) current R_gone.
(** [acquire_git_repo_lock] up to its loop *)
Definition acquire_start (now : Z) (repo : Z) (current : bool) (timeout_seconds : Z) (cache : bool) : lock_phase :=
  if cache then Polling repo current timeout_seconds (now + timeout_seconds) now else without_lock repo current.
(** One turn of the loop, the last one included *)
Definition acquire_turn (now : Z) (t : token) (repo : Z) (current : bool) (timeout deadline : Z) (rep : reply) (r : redis) : lock_phase * redis :=
  if now <? deadline then
    match set_if_absent now (_lock_key repo) t _LOCK_TTL_SECONDS true rep r with
    | (Ok true, r) => (Holding (Lease repo (Some t) false false) current (R_waiting now), r)
    | (Ok false, r) => (Polling repo current timeout deadline (now + _POLL_INTERVAL_SECONDS), r)
    | (Raise _, r) => (without_lock repo current, r)
    end
  else (Refused (Timed_out timeout), r).
(** One turn of [_renew], after its wait *)
Definition _renew (now : Z) (rep : reply) (l : GitRepoLease) (r : redis) : GitRepoLease * renewer * redis :=
  match value l with
  | None => (l, R_gone, r)
  | Some v =>
      let (renewed, r) := expire_if_equals now (_lock_key (git_repository_id l)) v _LOCK_TTL_SECONDS rep r in
      if renewed then (l, R_waiting now, r) else (Lease (git_repository_id l) (value l) true (_stop l), R_gone, r)
  end.

(** ** Events *)
Inductive event :=
  | E_acquire (repo : Z) (current : bool) (timeout : Z) (cache : bool)
  | E_poll (t : nat) (rep : reply)
  | E_release (t : nat) (rep : reply)
  | E_wake (t : nat)                       (* the renewing thread's wait has timed out *)
  | E_stop (t : nat)                       (* or was ended by [release] *)
  | E_renew (t : nat) (rep : reply)
  | E_clear (rep : reply)                  (* the cache is cleared in the settings *)
  | E_pass (d : Z).

Definition lock_step (e : event) (s : lock_state) : option lock_state :=
  match e with
  | E_acquire repo current timeout cache =>
      Some (Locks (clock s) (store s) (<[next_caller s := acquire_start (clock s) repo current timeout cache]> (callers s)) (S (next_caller s)))
  | E_poll t rep =>
      match callers s !! t with
      | Some (Polling repo current timeout deadline wake) =>
          if wake <=? clock s then let (ph, r) := acquire_turn (clock s) t repo current timeout deadline rep (store s) in Some (put t ph r s) else None
      | _ => None
      end
  | E_release t rep =>
      match callers s !! t with
      | Some (Holding l _ thread) => let (l, r) := lease_release (clock s) rep l (store s) in Some (put t (Released l thread) r s)
      | _ => None
      end
  | E_wake t =>
      match callers s !! t with
      | Some (Holding l current (R_waiting since)) =>
          if since + _RENEW_EVERY_SECONDS <=? clock s then Some (put t (Holding l current (R_due since)) (store s) s) else None
      | _ => None
      end
  | E_stop t =>
      match callers s !! t with
      | Some (Released l (R_waiting _)) => Some (put t (Released l R_gone) (store s) s)
      | _ => None
      end
  | E_renew t rep =>
      match callers s !! t with
      | Some (Holding l current (R_due _)) => let '(l, thread, r) := _renew (clock s) rep l (store s) in Some (put t (Holding l current thread) r s)
      | Some (Released l (R_due _)) => let '(l, thread, r) := _renew (clock s) rep l (store s) in Some (put t (Released l thread) r s)
      | _ => None
      end
  | E_clear rep => Some (Locks (clock s) (clear_all rep (store s)) (callers s) (next_caller s))
  | E_pass d => if 0 <=? d then Some (Locks (clock s + d) (store s) (callers s) (next_caller s)) else None
  end.
Fixpoint lock_steps (es : list event) (s : lock_state) : option lock_state :=
  match es with [] => Some s | e :: es => lock_step e s ≫= lock_steps es end.

(** Whether a commit or push of a holder is let through *)
Definition git_allowed (s : lock_state) (t : nat) : bool :=
  match callers s !! t with
  | Some (Holding l current _) => match ensure_current_lease_held (if current then Some l else None) with inl _ => false | inr _ => true end
  | _ => false
  end.

(** * What the lease is worth *)

(** The lease of a caller is in force: Redis holds its token. *)
Definition in_force (s : lock_state) (t : nat) (l : GitRepoLease) : Prop := redis_get (clock s) (_lock_key (git_repository_id l)) (store s) = Some t.
(** Its thread renewed it less than its time to live ago. *)
Definition punctual (now : Z) (thread : renewer) : bool :=
  match thread with R_waiting since | R_due since => now <? since + _LOCK_TTL_SECONDS | R_gone => true end.
(** No one clears the cache. *)
Definition quiet (e : event) : bool := match e with E_clear _ => false | _ => true end.
Inductive reachable : lock_state -> Prop :=
  | reach_none : reachable no_locks
  | reach_step e s s' : reachable s -> quiet e = true -> lock_step e s = Some s' -> reachable s'.

Definition lease_of (ph : lock_phase) : option GitRepoLease :=
  match ph with Holding l _ _ | Released l _ => Some l | _ => None end.

(** What holds of one caller, by itself *)
Definition caller_ok (now : Z) (r : redis) (t : nat) (ph : lock_phase) : Prop :=
  (forall l v, lease_of ph = Some l -> value l = Some v -> v = t) /\
  match ph with
  | Holding l _ thread =>
      (value l = None -> _lock_required = false /\ thread = R_gone) /\
      (value l ≠ None -> lost l = false -> exists since, (thread = R_waiting since \/ thread = R_due since) /\
         (r !! _lock_key (git_repository_id l) = Some (t, since + _LOCK_TTL_SECONDS) \/ since + _LOCK_TTL_SECONDS <= now))
  | Polling _ _ timeout deadline wake => wake <= deadline + _POLL_INTERVAL_SECONDS \/ timeout < 0
  | _ => True
  end.
Record inv (s : lock_state) : Prop := {
  i_fresh : forall t, (next_caller s <= t)%nat -> callers s !! t = None;
  i_caller : forall t ph, callers s !! t = Some ph -> caller_ok (clock s) (store s) t ph
}.

(** The store changes at a key in the hands of [t] only through [t], by the way of
    commands that spare what is not theirs. *)
Definition spares (now : Z) (t : nat) (r r' : redis) : Prop :=
  forall key v ends, v ≠ t -> r !! key = Some (v, ends) -> now < ends -> r' !! key = Some (v, ends).

Lemma redis_get_Some now key r v : redis_get now key r = Some v <-> exists ends, r !! key = Some (v, ends) /\ now < ends.
Proof.
  unfold redis_get. destruct (r !! key) as [[w ends]|]; [|naive_solver]. destruct (Z.ltb_spec now ends); [naive_solver|].
  split; [done|]. intros (e & [= <- <-] & ?). lia.
Qed.
Lemma spares_refl now t r : spares now t r r.
Proof. by intros key v ends. Qed.
Lemma spares_set_nx now t key ttl r : spares now t r (redis_set_nx now key t ttl r).2.
Proof.
  unfold redis_set_nx. destruct (redis_get now key r) eqn:Hg; [apply spares_refl|]. intros key' v ends Hv Hr Hlive. cbn [snd].
  rewrite lookup_insert_ne; [done|]. intros <-. assert (redis_get now key r = Some v) by (apply redis_get_Some; eauto). congruence.
Qed.
Lemma spares_delete now t key r : spares now t r (redis_delete_if now key t r).2.
Proof.
  unfold redis_delete_if. case_bool_decide as Hg; [|apply spares_refl]. intros key' v ends Hv Hr Hlive. cbn [snd].
  rewrite lookup_delete_ne; [done|]. intros <-. apply redis_get_Some in Hg as (? & ? & ?). congruence.
Qed.
Lemma spares_expire now t key ttl r : spares now t r (redis_expire_if now key t ttl r).2.
Proof.
  unfold redis_expire_if. case_bool_decide as Hg; [|apply spares_refl]. intros key' v ends Hv Hr Hlive. cbn [snd].
  rewrite lookup_insert_ne; [done|]. intros <-. apply redis_get_Some in Hg as (? & ? & ?). congruence.
Qed.
Lemma spares_command now t rep carried r : spares now t r carried.2 -> spares now t r (command rep carried r).2.
Proof. destruct rep; auto using spares_refl. Qed.
Lemma spares_release now t rep l r : (forall v, value l = Some v -> v = t) -> spares now t r (lease_release now rep l r).2.
Proof.
  intros Hown. unfold lease_release. cbn. destruct (value l) as [v|]; [|apply spares_refl]. rewrite (Hown v eq_refl). unfold delete_if_equals.
  pose proof (spares_command now t rep _ r (spares_delete now t (_lock_key (git_repository_id l)) r)) as Hs. by destruct (command _ _ _).
Qed.
Lemma spares_renew now t rep l r : (forall v, value l = Some v -> v = t) -> spares now t r (_renew now rep l r).2.
Proof.
  intros Hown. unfold _renew. destruct (value l) as [v|]; [|apply spares_refl]. rewrite (Hown v eq_refl). unfold expire_if_equals.
  pose proof (spares_command now t rep _ r (spares_expire now t (_lock_key (git_repository_id l)) _LOCK_TTL_SECONDS r)) as Hs. by destruct (command _ _ _) as [[[]|] r'].
Qed.
Lemma spares_turn now t repo cur timeout deadline rep r : spares now t r (acquire_turn now t repo cur timeout deadline rep r).2.
Proof.
  unfold acquire_turn, set_if_absent. destruct (now <? deadline); [|apply spares_refl].
  pose proof (spares_command now t rep _ r (spares_set_nx now t (_lock_key repo) _LOCK_TTL_SECONDS r)) as Hs. by destruct (command _ _ _) as [[[]|] r'].
Qed.

Lemma caller_ok_spared now t u ph r r' : u ≠ t -> spares now t r r' -> caller_ok now r u ph -> caller_ok now r' u ph.
Proof.
  intros Hne Hs [Hown Hph]. split; [done|]. destruct ph as [| |l c th|]; try done. destruct Hph as [Hnone Hsome]. split; [done|].
  intros Hv Hl. destruct (Hsome Hv Hl) as (since & Hth & Hr). exists since. split; [done|]. destruct (Z.lt_ge_cases now (since + _LOCK_TTL_SECONDS)); [|by right].
  destruct Hr as [Hr|]; [|lia]. left. by eapply Hs.
Qed.

Lemma inv_put t ph r s : (t < next_caller s)%nat -> spares (clock s) t (store s) r -> caller_ok (clock s) r t ph -> inv s -> inv (put t ph r s).
Proof.
  intros Ht Hs Hph [Hfresh Hcall]. split; cbn.
  - intros u Hu. rewrite lookup_insert_ne; [by apply Hfresh|lia].
  - intros u x [[<- <-]|[Hne Hx]]%lookup_insert_Some; [done|]. eapply caller_ok_spared; [|done|by apply Hcall]. congruence.
Qed.
Lemma caller_known s t ph : inv s -> callers s !! t = Some ph -> (t < next_caller s)%nat.
Proof. intros [Hf _] Ht. apply Nat.nle_gt. intros Hle%Hf. congruence. Qed.

Lemma without_lock_ok now r t repo cur : caller_ok now r t (without_lock repo cur).
Proof. unfold without_lock. destruct _lock_required eqn:Hreq; [by split; [intros|]|]. split; [by intros l v [= <-]|]. cbn. by split. Qed.

Lemma turn_ok now t repo cur timeout deadline rep r :
  caller_ok now (acquire_turn now t repo cur timeout deadline rep r).2 t (acquire_turn now t repo cur timeout deadline rep r).1.
Proof.
  unfold acquire_turn, set_if_absent. destruct (Z.ltb_spec now deadline); [|by split]. unfold redis_set_nx.
  destruct (redis_get now (_lock_key repo) r) eqn:Hg, rep; cbn; try apply without_lock_ok.
  - split; [done|]. left. lia.
  - split; [intros l v [= <-] [= <-]; done|]. cbn. split; [done|]. intros _ _. exists now. split; [by left|]. left. by rewrite lookup_insert_eq.
Qed.

Lemma renew_cases now t rep l r : value l = Some t ->
  (redis_get now (_lock_key (git_repository_id l)) r = Some t /\
     _renew now rep l r = (l, R_waiting now, <[_lock_key (git_repository_id l) := (t, now + _LOCK_TTL_SECONDS)]> r)) \/
  exists r', _renew now rep l r = (Lease (git_repository_id l) (Some t) true (_stop l), R_gone, r').
Proof.
  intros Hv. unfold _renew, expire_if_equals, redis_expire_if. rewrite Hv. destruct (bool_decide _) eqn:Hg, rep; cbn; try (right; by eexists).
  left. split; [by apply bool_decide_eq_true in Hg|done].
Qed.

(** ** Every step keeps it *)
Lemma holder_owns s t ph l : inv s -> callers s !! t = Some ph -> lease_of ph = Some l -> forall v, value l = Some v -> v = t.
Proof. intros [_ Hc] Ht Hl v Hv. destruct (Hc t ph Ht) as [Hown _]. by eapply Hown. Qed.
Lemma renew_owns now t rep l r : (forall v, value l = Some v -> v = t) -> let '(l', thread, r') := _renew now rep l r in caller_ok now r' t (Released l' thread).
Proof.
  intros Hown. destruct (value l) as [v|] eqn:Hv.
  - assert (v = t) as -> by (by apply Hown). destruct (renew_cases now t rep l r Hv) as [[_ ->]|[r' ->]]; (split; [|done]); intros ? w [= <-]; cbn; rewrite ?Hv; by intros [= <-].
  - unfold _renew. rewrite Hv. split; [|done]. intros ? w [= <-]. by rewrite Hv.
Qed.
Lemma renew_ok now t rep l cur r : (forall v, value l = Some v -> v = t) -> (value l = None -> _lock_required = false) ->
  let '(l', thread, r') := _renew now rep l r in caller_ok now r' t (Holding l' cur thread).
Proof.
  intros Hown Hnone. pose proof (renew_owns now t rep l r Hown) as Hmine. destruct (value l) as [v|] eqn:Hv.
  - assert (v = t) as -> by (by apply Hown). destruct (renew_cases now t rep l r Hv) as [[_ He]|[r' He]]; rewrite He in Hmine |- *; (split; [apply Hmine|]); [|by split].
    split; [by rewrite Hv|]. intros _ _. exists now. split; [by left|]. left. by rewrite lookup_insert_eq.
  - unfold _renew in *. rewrite Hv in *. split; [apply Hmine|]. split; [by intros; split; [apply Hnone|]|by rewrite Hv].
Qed.

Lemma lock_inv_step e s s' : quiet e = true -> inv s -> lock_step e s = Some s' -> inv s'.
Proof.
  intros Hq Hs. destruct e as [repo cur timeout cache|t rep|t rep|t|t|t rep|rep|d]; cbn [lock_step quiet] in *; try done.
  - intros [= <-]. destruct Hs as [Hf Hc]. split; cbn.
    + intros u Hu. rewrite lookup_insert_ne; [apply Hf|]; lia.
    + intros u x [[<- <-]|[_ Hx]]%lookup_insert_Some; [|by apply Hc]. unfold acquire_start. destruct cache; [|apply without_lock_ok].
      split; [done|]. cbn. unfold _POLL_INTERVAL_SECONDS, seconds. lia.
  - destruct (callers s !! t) as [[repo cur timeout deadline wake| | |]|] eqn:Ht; try done. destruct (wake <=? clock s); [|done].
    pose proof (spares_turn (clock s) t repo cur timeout deadline rep (store s)) as Hsp. pose proof (turn_ok (clock s) t repo cur timeout deadline rep (store s)) as Hok.
    destruct (acquire_turn _ _ _ _ _ _ _ _) as [ph r]. intros [= <-]. apply inv_put; eauto using caller_known.
  - destruct (callers s !! t) as [[| |l cur th|]|] eqn:Ht; try done. pose proof (holder_owns s t _ l Hs Ht eq_refl) as Hown.
    pose proof (spares_release (clock s) t rep l (store s) Hown) as Hsp.
    assert (Hl : value (lease_release (clock s) rep l (store s)).1 = value l) by (unfold lease_release; cbn; by destruct (value l)).
    destruct (lease_release _ _ _ _) as [l' r]. intros [= <-]. apply inv_put; eauto using caller_known. split; [|done]. intros ? v [= <-]. cbn in Hl. rewrite Hl. apply Hown.
  - destruct (callers s !! t) as [[| |l cur [since| |]|]|] eqn:Ht; try done. destruct (_ <=? _); [|done]. intros [= <-].
    apply inv_put; eauto using caller_known, spares_refl. destruct Hs as [_ Hc]. destruct (Hc _ _ Ht) as [Hown [Hno Hyes]]. split; [done|]. split.
    + intros Hv. by destruct (Hno Hv).
    + intros Hv Hl. destruct (Hyes Hv Hl) as (u & [[= <-]|?] & Hr); [|done]. exists since. split; [by right|done].
  - destruct (callers s !! t) as [[| | |l [since| |]]|] eqn:Ht; try done. intros [= <-]. apply inv_put; eauto using caller_known, spares_refl.
    destruct Hs as [_ Hc]. by destruct (Hc _ _ Ht) as [Hown _].
  - destruct (callers s !! t) as [[| |l cur th|l th]|] eqn:Ht; try done; destruct th as [|since|]; try done; pose proof (holder_owns s t _ l Hs Ht eq_refl) as Hown;
      pose proof (spares_renew (clock s) t rep l (store s) Hown) as Hsp.
    + assert (Hnone : value l = None -> _lock_required = false). { intros Hv. destruct Hs as [_ Hc]. destruct (Hc _ _ Ht) as [_ [Hno _]]. by destruct (Hno Hv). }
      pose proof (renew_ok (clock s) t rep l cur (store s) Hown Hnone) as Hok. destruct (_renew _ _ _ _) as [[l' th] r]. intros [= <-]. by apply inv_put; eauto using caller_known.
    + pose proof (renew_owns (clock s) t rep l (store s) Hown) as Hok. destruct (_renew _ _ _ _) as [[l' th] r]. intros [= <-]. by apply inv_put; eauto using caller_known.
  - destruct (0 <=? d) eqn:Hd; [|done]. intros [= <-]. destruct Hs as [Hf Hc]. split; [done|]. cbn. intros u x Hx. destruct (Hc u x Hx) as [Hown Hph]. split; [done|].
    destruct x as [| |l cur th|]; try done. destruct Hph as [Hno Hyes]. split; [done|]. intros Hv Hl. destruct (Hyes Hv Hl) as (since & Hth & Hr). exists since. split; [done|].
    destruct Hr as [Hr|]; [by left|right; lia].
Qed.
Lemma locks_reachable_inv s : reachable s -> inv s.
Proof. induction 1 as [|e s s' _ IH Hq Hs]; [split; [done|intros t ph Ht; cbn in Ht; by rewrite lookup_empty in Ht]|by eapply lock_inv_step]. Qed.

Lemma spared_in_force s u t l r' : u ≠ t -> spares (clock s) t (store s) r' -> in_force s u l -> redis_get (clock s) (_lock_key (git_repository_id l)) r' = Some u.
Proof. intros Hne Hsp (ends & Hr & Hlive)%redis_get_Some. apply redis_get_Some. exists ends. split; [by apply Hsp|done]. Qed.
Lemma renew_in_force now t rep l r : (forall v, value l = Some v -> v = t) -> redis_get now (_lock_key (git_repository_id l)) r = Some t ->
  redis_get now (_lock_key (git_repository_id l)) (_renew now rep l r).2 = Some t.
Proof.
  intros Hown Hg. unfold _renew. destruct (value l) as [v|]; [|done]. rewrite (Hown v eq_refl). unfold expire_if_equals, redis_expire_if.
  rewrite bool_decide_true by done.
  assert (Hnew : redis_get now (_lock_key (git_repository_id l)) (<[_lock_key (git_repository_id l) := (t, now + _LOCK_TTL_SECONDS)]> r) = Some t).
  { apply redis_get_Some. exists (now + _LOCK_TTL_SECONDS). rewrite lookup_insert_eq. split; [done|]. unfold _LOCK_TTL_SECONDS, seconds. lia. }
  by destruct rep.
Qed.

(** A held lease outlives every step but its release and the passing of time. *)
Lemma in_force_kept s e s' u l c th : inv s -> quiet e = true -> lock_step e s = Some s' -> callers s !! u = Some (Holding l c th) -> in_force s u l ->
  in_force s' u l \/ (exists rep, e = E_release u rep) \/ exists d, e = E_pass d.
Proof.
  intros Hs Hq Hstep Hu Hf. pose proof (fun t ph l Ht Hl => holder_owns s t ph l Hs Ht Hl) as Hown.
  destruct e as [repo cur timeout cache|t rep|t rep|t|t|t rep|rep|d]; cbn [lock_step quiet] in *; try done.
  - injection Hstep as <-. by left.
  - destruct (decide (u = t)) as [->|Hne]; [by rewrite Hu in Hstep|]. destruct (callers s !! t) as [[repo cur timeout deadline wake| | |]|] eqn:Ht; try done.
    destruct (wake <=? clock s); [|done]. pose proof (spares_turn (clock s) t repo cur timeout deadline rep (store s)) as Hsp.
    destruct (acquire_turn _ _ _ _ _ _ _ _) as [ph r]. injection Hstep as <-. left. by apply (spared_in_force s u t l r).
  - destruct (decide (u = t)) as [->|Hne]; [right; left; by eexists|]. destruct (callers s !! t) as [[| |l' c' th'|]|] eqn:Ht; try done.
    pose proof (spares_release (clock s) t rep l' (store s) (Hown _ _ _ Ht eq_refl)) as Hsp.
    destruct (lease_release _ _ _ _) as [l2 r]. injection Hstep as <-. left. by apply (spared_in_force s u t l r).
  - left. destruct (callers s !! t) as [[| |l' c' [since| |]|]|]; try done. destruct (_ <=? _); [|done]. by injection Hstep as <-.
  - left. destruct (callers s !! t) as [[| | |l' [since| |]]|]; try done. by injection Hstep as <-.
  - left. destruct (callers s !! t) as [[| |l' c' [|since|]|l' [|since|]]|] eqn:Ht; try done; pose proof (Hown _ _ _ Ht eq_refl) as Hmine;
      pose proof (spares_renew (clock s) t rep l' (store s) Hmine) as Hsp; pose proof (renew_in_force (clock s) t rep l' (store s) Hmine) as Hkeep;
      (destruct (decide (u = t)) as [->|Hne]; [rewrite Ht in Hu; try done; injection Hu as -> -> <-|]);
      destruct (_renew _ _ _ _) as [[l2 th2] r]; injection Hstep as <-; first [by apply (spared_in_force s u t l r)|by apply Hkeep].
  - right. right. by eexists.
Qed.

(** C34. Who holds the lease has the working tree to himself.  However acquisitions,
    renewals, releases, failures of Redis and the passing of time interleave, as long
    as nobody clears the cache: two callers of one repository whose leases were taken
    in Redis, were not found lost and were renewed in time are the same caller; such a
    lease is in force; whatever the delay, a lease that is still not found lost once
    its thread has looked was in force then; a lease in force is ended only by its own
    release or by time, never by somebody else; and where the lock is required no
    failure of Redis lets a caller work without one. *)
Theorem repo_lease_exclusive (s : lock_state) : reachable s ->
  (forall t1 t2 l1 l2 c1 c2 th1 th2, callers s !! t1 = Some (Holding l1 c1 th1) -> callers s !! t2 = Some (Holding l2 c2 th2) ->
     git_repository_id l1 = git_repository_id l2 -> value l1 ≠ None -> value l2 ≠ None -> ensure_held l1 = inr tt -> ensure_held l2 = inr tt ->
     punctual (clock s) th1 = true -> punctual (clock s) th2 = true -> t1 = t2) /\
  (forall t l c th, callers s !! t = Some (Holding l c th) -> value l ≠ None -> ensure_held l = inr tt -> punctual (clock s) th = true -> in_force s t l) /\
  (forall t rep s' l c th l' c' th', callers s !! t = Some (Holding l c th) -> value l ≠ None -> lock_step (E_renew t rep) s = Some s' ->
     callers s' !! t = Some (Holding l' c' th') -> ensure_held l' = inr tt -> in_force s t l) /\
  (forall e s' u l c th, quiet e = true -> lock_step e s = Some s' -> callers s !! u = Some (Holding l c th) -> in_force s u l ->
     in_force s' u l \/ (exists rep, e = E_release u rep) \/ exists d, e = E_pass d) /\
  (_lock_required = true -> forall t l c th, callers s !! t = Some (Holding l c th) -> value l ≠ None).
Proof.
  intros Hs%locks_reachable_inv. assert (Hlost : forall l, ensure_held l = inr tt -> lost l = false) by (intros l; unfold ensure_held; by destruct (lost l)).
  assert (Hforce : forall t l c th, callers s !! t = Some (Holding l c th) -> value l ≠ None -> ensure_held l = inr tt -> punctual (clock s) th = true -> in_force s t l).
  { intros t l c th Ht Hv Hl%Hlost Hp. destruct (i_caller s Hs t _ Ht) as [_ [_ Hyes]]. destruct (Hyes Hv Hl) as (since & Hth & Hr).
    assert (clock s < since + _LOCK_TTL_SECONDS) by (destruct Hth as [-> | ->]; by apply Z.ltb_lt in Hp). apply redis_get_Some. eexists. split; [destruct Hr; [done|lia]|done]. }
  split_and!; [|done| |by intros; eapply in_force_kept|].
  - intros t1 t2 l1 l2 c1 c2 th1 th2 H1 H2 Hid Hv1 Hv2 Hl1 Hl2 Hp1 Hp2. pose proof (Hforce _ _ _ _ H1 Hv1 Hl1 Hp1) as Hf1. pose proof (Hforce _ _ _ _ H2 Hv2 Hl2 Hp2) as Hf2.
    unfold in_force in *. rewrite Hid in Hf1. congruence.
  - intros t rep s' l c th l' c' th' Ht Hv Hstep Ht' Hl'%Hlost. cbn in Hstep. rewrite Ht in Hstep. destruct th as [|since|]; try done.
    destruct (value l) as [v|] eqn:Hval; [|done]. assert (v = t) as -> by (by eapply (holder_owns s t)).
    destruct (renew_cases (clock s) t rep l (store s) Hval) as [[Hg _]|[r He]]; [done|]. rewrite He in Hstep. injection Hstep as <-. cbn in Ht'.
    rewrite lookup_insert_eq in Ht'. injection Ht' as <- _ _. done.
  - intros Hreq t l c th Ht Hv. destruct (i_caller s Hs t _ Ht) as [_ [Hno _]]. destruct (Hno Hv). congruence.
Qed.

(** The wait for the lock is bounded: a caller that polls looks again at most one
    interval after its deadline, and a look after the deadline is the last. *)
Lemma acquire_bounded s t repo cur timeout deadline wake : reachable s -> callers s !! t = Some (Polling repo cur timeout deadline wake) -> 0 <= timeout ->
  wake <= deadline + _POLL_INTERVAL_SECONDS /\
  forall rep, deadline <= clock s -> wake <= clock s -> lock_step (E_poll t rep) s = Some (put t (Refused (Timed_out timeout)) (store s) s).
Proof.
  intros Hs%locks_reachable_inv Ht Hpos. destruct (i_caller s Hs t _ Ht) as [_ Hw]. split; [lia|]. intros rep Hd Hwake. cbn. rewrite Ht. rewrite (proj2 (Z.leb_le _ _) Hwake).
  unfold acquire_turn. by rewrite (proj2 (Z.ltb_ge _ _) Hd).
Qed.

Fixpoint all_quiet (es : list event) : bool := match es with [] => true | e :: es => quiet e && all_quiet es end.
Lemma steps_reachable es s s' : reachable s -> all_quiet es = true -> lock_steps es s = Some s' -> reachable s'.
Proof.
  revert s. induction es as [|e es IH]; intros s Hs Hq; cbn; [by intros [= <-]|]. cbn in Hq. apply andb_true_iff in Hq as [Hq Hqs].
  destruct (lock_step e s) as [s1|] eqn:Hstep; [|done]. cbn. apply IH; [by eapply reach_step|done].
Qed.
End repo_lock.

(** ** One repository *)
Definition lease_0 : GitRepoLease := Lease 7 (Some 0%nat) false false.
Definition two_callers : list event :=
  [E_acquire 7 true _ACQUIRE_TIMEOUT_SECONDS true; E_poll 0 Answered; E_acquire 7 true _ACQUIRE_TIMEOUT_SECONDS true; E_poll 1 Answered;
   E_pass (seconds 41); E_wake 0; E_renew 0 Answered; E_pass (seconds 100); E_poll 1 Answered].
Lemma repo_lease_exclusive_witness :
  exists s, lock_steps true two_callers no_locks = Some s /\ callers s !! 0%nat = Some (Holding lease_0 true (R_waiting 41000)) /\ in_force s 0 lease_0 /\
    callers s !! 1%nat = Some (Refused (Timed_out 90000)).
Proof.
  destruct (lock_steps true two_callers no_locks) as [s|] eqn:Hs; [|vm_compute in Hs; discriminate]. exists s. split; [reflexivity|].
  assert (Hr : reachable true s) by (refine (steps_reachable true two_callers no_locks s (reach_none true) _ Hs); reflexivity).
  assert (Hc : (fun s => (callers s !! 0%nat, callers s !! 1%nat, clock s)) <$> Some s =
    Some (Some (Holding lease_0 true (R_waiting 41000)), Some (Refused (Timed_out 90000)), 141000)) by (rewrite <- Hs; vm_compute; reflexivity).
  cbn in Hc. injection Hc as H0 H1 Hclock. destruct (repo_lease_exclusive true s Hr) as (_ & Hforce & _). split; [exact H0|]. split; [|exact H1].
  apply (Hforce 0%nat lease_0 true (R_waiting 41000) H0); [discriminate|reflexivity|]. rewrite Hclock. reflexivity.
Defined.

(** Clearing the cache in the settings deletes the locks with it: the next caller works
    in the tree beside the holder, neither of them late, and both pass every check. *)
Lemma cleared_cache_shares_tree :
  (fun s => (callers s !! 0%nat, callers s !! 1%nat, git_allowed s 0, git_allowed s 1)) <$>
    lock_steps true [E_acquire 7 true _ACQUIRE_TIMEOUT_SECONDS true; E_poll 0 Answered; E_pass (seconds 10); E_clear Answered;
                     E_acquire 7 true _ACQUIRE_TIMEOUT_SECONDS true; E_poll 1 Answered] no_locks =
  Some (Some (Holding lease_0 true (R_waiting 0)), Some (Holding (Lease 7 (Some 1%nat) false false) true (R_waiting 10000)), true, true).
Proof. vm_compute. reflexivity. Qed.

(** A caller of [acquire_git_repo_lock] that does not look at its lease itself
    commits and pushes after its lease was found lost, beside the next holder. *)
Lemma split_lease_unchecked :
  (fun s => (callers s !! 0%nat, git_allowed s 0, git_allowed s 1)) <$>
    lock_steps true [E_acquire 7 false _ACQUIRE_TIMEOUT_SECONDS true; E_poll 0 Answered; E_pass (seconds 130);
                     E_acquire 7 true _ACQUIRE_TIMEOUT_SECONDS true; E_poll 1 Answered; E_wake 0; E_renew 0 Answered] no_locks =
  Some (Some (Holding (Lease 7 (Some 0%nat) true false) false R_gone), true, true).
Proof. vm_compute. reflexivity. Qed.
