(* ===== verification/ChangeRequests.v ===== *)
(** * The review gate ([services/change_requests/change_request_service.py],
    [webhook_service.py])

    Approving, reviewing, deploying and rejecting a change request, and the
    signed webhook that does the first two.  The table, its guarded transition
    and the reconciliation are in ChangeStore.v; a deploy run is started by
    RunService.v's [create_and_dispatch_run].  Each operation is a process: a
    click, a webhook delivery and the periodic sweeps interleave freely. *)
From S2P Require Import Prelude Process Dict Json Graph Context RunStore RunInputs Subgraph ChangeStore RunAccess RunService.

Section ChangeRequests.
Context `{Services}.

Definition get_or_404 (cid : nat) : proc system ChangeRequest :=
  found ← read (fun s => changes (store s) !! cid);
  match found with Some c => mret c | None => raise NotFoundError end.

Definition may_see (wf : workflow) (user_id : nat) : bool :=
  negb (String.eqb (visibility wf) "private" && negb (bool_decide (creator_id wf = Some user_id))).

(** [_assert_visible] *)
Definition assert_visible (c : ChangeRequest) (user_id : nat) : res unit :=
  match source_workflow_id c ≫= workflows with
  | Some wf => if may_see wf user_id then Ok tt else Raise AccessDeniedError
  | None => Ok tt
  end.

(** [_load_workflow]: the signed webhook has no actor. *)
Definition load_workflow (workflow_id : nat) (actor : option nat) : res workflow :=
  match workflows workflow_id with
  | None => Raise NotFoundError
  | Some wf => match actor with
               | Some u => if may_see wf u then Ok wf else Raise AccessDeniedError
               | None => Ok wf
               end
  end.

(** [_staged_deploy_workflow] *)
Definition staged_deploy_workflow (c : ChangeRequest) (actor : option nat) : res (nat * workflow) :=
  _ ← match actor with Some u => assert_visible c u | None => Ok tt end;
  match deploy_workflow_id c with
  | None => Raise ConflictError
  | Some wid => wf ← load_workflow wid actor; Ok (wid, wf)
  end.

(** The repository's [transition] on this request: the refreshed row, or
    [None] when the guard did not match. *)
Definition move (cid : nat) (expected : list change_status) (new_status : change_status) (f : system -> ChangeRequest -> change_fields)
    (s : system) : option ChangeRequest * system :=
  match changes (store s) !! cid with
  | None => (None, s)
  | Some c =>
      let (moved, w) := transition (wall s) cid expected new_status (f s c) (store s) in
      (if moved : bool then changes w !! cid else None, set_store w s)
  end.

Definition REVERT_NOTE : string := "The deploy run could not be started; try again".

(** What [_dispatch_deploy] writes when the run could not be started. *)
Definition revert_fields (revert_to : change_status) (_ : system) (_ : ChangeRequest) : change_fields :=
  ChangeFields (if decide (revert_to = CR_staged) then Some (None, None, None) else None) None (Some REVERT_NOTE).

Definition set_deploy_run (run : nat) (c : ChangeRequest) : ChangeRequest :=
  Change (source_workflow_id c) (source_run_id c) (deploy_workflow_id c) (Some run) (git_repository_id c) (commit_sha c)
    (cr_device_ids c) (cr_run_inputs c) (cr_status c) (approved_by_id c) (approved_via c) (approved_at c)
    (rejected_by_id c) (rejected_at c) (reject_reason c) (deploy_error c) (expires_at c) (updated_at c).

(** [change_request.deploy_run_id = run.id]; [updated_at] has [onupdate=now()]. *)
Definition record_deploy_run (cid run : nat) (s : system) : system :=
  match changes (store s) !! cid with
  | None => s
  | Some c => let f := set_deploy_run run c in
      set_store (set_changes (<[cid := apply_change (wall s) (cr_status c) no_change_fields f]> (changes (store s))) (store s)) s
  end.

(** [_dispatch_deploy]; returns the run. *)
Definition dispatch_deploy (cid : nat) (c : ChangeRequest) (wid : nat) (wf : workflow) (actor : option nat) (via : string)
    (revert_to : change_status) : proc system nat :=
  let trigger_type := if String.eqb via "webhook" then "webhook" else "manual" in
  run_id ← catch (fun e => _ ← tx (move cid [CR_deploying] revert_to (revert_fields revert_to)); raise e)
    (create_and_dispatch_run wid wf actor trigger_type (cr_device_ids c) (cr_run_inputs c) (Some cid) None None None);
  _ ← tx (fun s => (tt, record_deploy_run cid run_id s));
  mret run_id.

(** [approve] *)
Definition approve (cid : nat) (actor : option nat) (via : string) : proc system nat :=
  c ← get_or_404 cid;
  target ← lift (staged_deploy_workflow c actor);
  moved ← tx (move cid [CR_staged] CR_deploying (fun s _ => ChangeFields (Some (actor, Some via, Some (wall s))) None None));
  match moved with
  | None => raise ConflictError
  | Some c => dispatch_deploy cid c target.1 target.2 actor via CR_staged
  end.

(** [deploy] *)
Definition deploy (cid : nat) (actor : option nat) : proc system nat :=
  c ← get_or_404 cid;
  target ← lift (staged_deploy_workflow c actor);
  moved ← tx (move cid [CR_approved] CR_deploying (fun _ _ => no_change_fields));
  match moved with
  | None => raise ConflictError
  | Some c => dispatch_deploy cid c target.1 target.2 actor "ui" CR_approved
  end.

(** [mark_reviewed]: [approved_by_id] is not written. *)
Definition mark_reviewed (cid : nat) (via : string) : proc system unit :=
  _ ← get_or_404 cid;
  moved ← tx (move cid [CR_staged] CR_approved (fun s c => ChangeFields (Some (approved_by_id c, Some via, Some (wall s))) None None));
  match moved with None => raise ConflictError | Some _ => mret tt end.

(** [reject] *)
Definition reject (cid : nat) (actor : option nat) (reason : option string) : proc system unit :=
  c ← get_or_404 cid;
  _ ← lift match actor with Some u => assert_visible c u | None => Ok tt end;
  moved ← tx (move cid [CR_staged; CR_approved] CR_rejected
                (fun s _ => ChangeFields None (Some (actor, Some (wall s), reason)) None));
  match moved with None => raise ConflictError | Some _ => mret tt end.

(** [get] reconciles before it answers; the periodic sweeps *)
Definition get_change (cid user_id : nat) : proc system ChangeRequest :=
  c ← get_or_404 cid;
  _ ← lift (assert_visible c user_id);
  _ ← write (fun s => set_store (reconcile (wall s) cid (store s)) s);
  get_or_404 cid.
Definition sweep : proc system nat :=
  _ ← tx (fun s => let (n, w) := reconcile_all_in_flight (wall s) (store s) in (n, set_store w s));
  tx (fun s => let (n, w) := expire_sweep (wall s) (store s) in (n, set_store w s)).

(** ** The webhook *)

Definition sha_at (key : string) (payload : dict json) : list string :=
  match dget key payload with Some (JStr s) => if String.eqb s "" then [] else [s] | _ => [] end.
Definition id_of (j : json) : list string :=
  match j with JDict d => match dget "id" d with Some (JStr s) => [s] | _ => [] end | _ => [] end.

(** De-dupe, preserve order. *)
Fixpoint dedupe (seen : list string) (l : list string) : list string :=
  match l with
  | [] => []
  | s :: l' => if decide (s ∈ seen) then dedupe seen l' else s :: dedupe (s :: seen) l'
  end.

(** [payload.get("commits", []) or []], iterated: the characters of a string
    and the keys of an object carry no id. *)
Definition commit_ids (payload : dict json) : res (list string) :=
  match dget "commits" payload with
  | Some (JList l) => Ok (concat (id_of <$> l))
  | None | Some (JStr _) | Some (JDict _) => Ok []
  | Some j => if truthy j then Raise (OtherError "TypeError") else Ok []
  end.

(** [_extract_commit_shas] *)
Definition extract_commit_shas (payload : dict json) : res (list string) :=
  let head := match dget "head_commit" payload with Some j => id_of j | None => [] end in
  commits ← commit_ids payload;
  Ok (dedupe [] (sha_at "after" payload ++ sha_at "checkout_sha" payload ++ head ++ commits)).

Fixpoint first_active (repository : nat) (shas : list string) : proc system (option nat) :=
  match shas with
  | [] => mret None
  | sha :: rest =>
      found ← read (fun s => find_active_for_commit repository sha (store s));
      match found with Some cid => mret (Some cid) | None => first_active repository rest end
  end.

Inductive webhook_outcome := Webhook_ignored | Webhook_reviewed (cid : nat) | Webhook_deployed (cid run : nat).

(** [_handle_payload], once the body is decoded *)
Definition handle_payload (repository : nat) (auto_deploy : bool) (payload : dict json) : proc system webhook_outcome :=
  shas ← lift (extract_commit_shas payload);
  found ← first_active repository shas;
  match found with
  | None => mret Webhook_ignored
  | Some cid =>
      catch (fun e => if decide (e = ConflictError) then mret Webhook_ignored else raise e)
        (if auto_deploy then run_id ← approve cid None "webhook"; mret (Webhook_deployed cid run_id)
         else _ ← mark_reviewed cid "webhook"; mret (Webhook_reviewed cid))
  end.
End ChangeRequests.

(** * Facts *)

(** ** One deployment per review

    A request is [settled] when it is neither staged nor approved: then nobody
    can start a deployment of it, unless the one who is starting it puts it
    back. *)
Definition settled (cid : nat) (s : system) : Prop :=
  match changes (store s) !! cid with Some c => cr_status c ∉ [CR_staged; CR_approved] | None => False end.

Definition same_requests (s s' : system) : Prop := changes (store s') = changes (store s).
#[local] Instance same_requests_preorder : PreOrder same_requests.
Proof. split; [done|]. unfold same_requests. intros s1 s2 s3 H1 H2. congruence. Qed.

Lemma same_requests_settled cid s s' : same_requests s s' -> stays (settled cid) s s'.
Proof. unfold same_requests, stays, settled. by intros ->. Qed.

Section Facts.
Context `{Services} (cid : nat).

Lemma create_same_requests w wf by_ t devs inputs cr p anc ai :
  keeps same_requests (create_and_dispatch_run w wf by_ t devs inputs cr p anc ai).
Proof.
  assert (Hon : forall X (f : system -> tables -> X * tables), keeps same_requests (on_tables f)).
  { intros X f. apply keeps_tx. intros s. unfold same_requests. by destruct (f s (tables_of s)). }
  assert (Hpatch : forall id f, keeps same_requests (patch_run id f)) by (intros; apply Hon).
  unfold create_and_dispatch_run, hand_to_engine, call_engine, guard_or.
  repeat first [ exact I | apply Hon | apply Hpatch | apply keeps_bind; [|intros ?] | apply keeps_catch; [|intros ?]
               | apply keeps_read; apply _ | first [apply keeps_write|apply keeps_tx]; done | case_match ].
Qed.

Lemma move_status id expected new f s :
  match move id expected new f s with
  | (Some c, s') => (exists c0, changes (store s) !! id = Some c0 /\ cr_status c0 ∈ expected) /\
                    changes (store s') = <[id := c]> (changes (store s)) /\ cr_status c = new
  | (None, s') => s' = s /\ (forall c0, changes (store s) !! id = Some c0 -> cr_status c0 ∉ expected)
  end.
Proof.
  unfold move, transition. destruct (changes (store s) !! id) as [c0|] eqn:Hc; [|by split].
  case_decide as Hd; cbn.
  - rewrite lookup_insert_eq. split; [by exists c0|]. split; [done|]. unfold apply_change. by repeat case_match.
  - split; [by destruct s as [? ? [] ? ?]|]. intros c1 [= <-]. done.
Qed.

(** A move that does not go back to [staged] or [approved] from elsewhere. *)
Lemma move_stays id expected new f s :
  id <> cid \/ (forall st, st ∈ expected -> st ∈ [CR_staged; CR_approved]) \/ new ∉ [CR_staged; CR_approved] ->
  stays (settled cid) s (move id expected new f s).2.
Proof.
  intros Hcase. pose proof (move_status id expected new f s) as Hm. destruct (move id expected new f s) as [[c|] s']; cbn [snd].
  2:{ destruct Hm as [-> _]. exact (fun Hs => Hs). }
  destruct Hm as ((c0 & Hc0 & Hexp) & Hch & Hst). unfold stays, settled. rewrite Hch. destruct (decide (id = cid)) as [->|Hne].
  - rewrite Hc0, lookup_insert_eq. destruct Hcase as [?|[Hsub|Hnew]]; [done| |by rewrite Hst]. intros Hs. destruct Hs. by apply Hsub.
  - by rewrite lookup_insert_ne.
Qed.

Lemma record_stays id run s : stays (settled cid) s (record_deploy_run id run s).
Proof.
  unfold record_deploy_run, stays, settled. destruct (changes (store s) !! id) as [c|] eqn:Hc; [|done]. cbn.
  destruct (decide (id = cid)) as [->|Hne]; [|by rewrite lookup_insert_ne]. rewrite lookup_insert_eq, Hc. unfold apply_change. by repeat case_match.
Qed.

Lemma keeps_get_or_404 id : keeps (stays (settled cid)) (get_or_404 id).
Proof. unfold get_or_404. apply keeps_bind; [apply keeps_tx; intros s Hs; exact Hs|]. by intros [c|]. Qed.

Lemma exclusive_dispatch c wid wf actor via st :
  exclusive (settled cid) (fun _ => true) true (dispatch_deploy cid c wid wf actor via st).
Proof.
  unfold dispatch_deploy. apply exclusive_catch.
  - eapply keeps_mono; [apply same_requests_settled|apply create_same_requests].
  - intros run_id. apply exclusive_hold; [intros s; apply record_stays|]. done.
  - intros e. apply (exclusive_drop (settled cid) _ (move cid [CR_deploying] st (revert_fields st)) (fun _ => raise e ≫= _)). done.
Qed.

Lemma exclusive_claim expected (f : system -> ChangeRequest -> change_fields) (k : option ChangeRequest -> proc system nat) :
  (forall st, st ∈ expected -> st ∈ [CR_staged; CR_approved]) ->
  (forall c, exclusive (settled cid) (fun _ => true) true (k (Some c))) -> exclusive (settled cid) (fun _ => true) false (k None) ->
  exclusive (settled cid) (fun _ => true) false (tx (move cid expected CR_deploying f) ≫= k).
Proof.
  intros Hexp Hsome Hnone. apply exclusive_take; [| |done|done]; intros s; pose proof (move_status cid expected CR_deploying f s) as Hm;
    destruct (move cid expected CR_deploying f s) as [[c|] s'].
  - destruct Hm as ((c0 & Hc0 & Hin) & _ & _). unfold settled. rewrite Hc0. intros Hs. destruct Hs. by apply Hexp.
  - by destruct Hm as [-> _].
  - intros _. destruct Hm as (_ & Hch & Hst). unfold settled. cbn [snd]. rewrite Hch, lookup_insert_eq, Hst. set_solver.
  - by intros [? [=]].
Qed.

Lemma exclusive_approve actor via : exclusive (settled cid) (fun _ => true) false (approve cid actor via).
Proof.
  unfold approve. apply exclusive_bind; [apply keeps_get_or_404|intros c]. apply exclusive_bind; [done|intros target].
  apply exclusive_claim; [set_solver|intros; apply exclusive_dispatch|done].
Qed.
Lemma exclusive_deploy actor : exclusive (settled cid) (fun _ => true) false (deploy cid actor).
Proof.
  unfold deploy. apply exclusive_bind; [apply keeps_get_or_404|intros c]. apply exclusive_bind; [done|intros target].
  apply exclusive_claim; [set_solver|intros; apply exclusive_dispatch|done].
Qed.

(** *** Everybody else *)

Definition settled_in (w : world) : Prop :=
  match changes w !! cid with Some c => cr_status c ∉ [CR_staged; CR_approved] | None => False end.

Lemma transition_settled now id expected new f w : new ∉ [CR_staged; CR_approved] -> settled_in w -> settled_in (transition now id expected new f w).2.
Proof.
  intros Hnew. unfold transition, settled_in. destruct (changes w !! id) as [c|] eqn:Hc; [|done]. case_decide; [|done]. cbn.
  destruct (decide (id = cid)) as [->|Hne]; [|by rewrite lookup_insert_ne]. rewrite lookup_insert_eq. intros _. unfold apply_change. by repeat case_match.
Qed.

Lemma reconcile_settled now id w : settled_in w -> settled_in (reconcile now id w).
Proof.
  intros Hs. assert (Hfail : forall why, settled_in (fail_change now id why w)) by (intros why; apply transition_settled; [set_solver|done]).
  unfold reconcile. destruct (changes w !! id) as [c|]; [|done]. case_decide; [|done].
  destruct (deploy_run_id c) as [r|]; [|destruct (_ <? _)%Z; [apply Hfail|done]].
  destruct (runs (db w) !! r) as [row|]; [|apply Hfail].
  destruct (rstatus row); try done; [apply transition_settled; [set_solver|done]|apply Hfail..].
Qed.

Lemma maybe_reconcile_settled now run w : settled_in w -> settled_in (maybe_reconcile_deploy_run now run w).
Proof. unfold maybe_reconcile_deploy_run. intros Hs. repeat case_match; try done. by apply reconcile_settled. Qed.

Lemma sweep_settled {X} (f : X * world -> nat -> X * world) l x w :
  (forall acc id, settled_in acc.2 -> settled_in (f acc id).2) -> settled_in w -> settled_in (foldl f (x, w) l).2.
Proof.
  intros Hf. revert x w. induction l as [|id l IH]; intros x w Hw; [done|]. cbn [foldl].
  specialize (Hf (x, w) id Hw). destruct (f (x, w) id) as [x' w']. by apply IH.
Qed.

Lemma reconcile_all_settled now w : settled_in w -> settled_in (reconcile_all_in_flight now w).2.
Proof. intros Hw. apply sweep_settled; [|done]. intros acc id. apply reconcile_settled. Qed.

Lemma expire_sweep_settled now w : settled_in w -> settled_in (expire_sweep now w).2.
Proof.
  intros Hw. apply sweep_settled; [|done]. intros acc id Ha.
  pose proof (transition_settled now id [CR_staged] CR_expired no_change_fields acc.2 ltac:(set_solver) Ha) as Ht.
  by destruct (transition _ _ _ _ _ _) as [[] w'].
Qed.

Lemma keeps_sweep : keeps (stays (settled cid)) sweep.
Proof.
  unfold sweep. apply keeps_bind; [|intros _]; apply keeps_tx; intros s Hs.
  - pose proof (reconcile_all_settled (wall s) (store s) Hs) as Hr. by destruct (reconcile_all_in_flight _ _).
  - pose proof (expire_sweep_settled (wall s) (store s) Hs) as Hr. by destruct (expire_sweep _ _).
Qed.

Lemma keeps_reject id actor reason : keeps (stays (settled cid)) (reject id actor reason).
Proof.
  unfold reject. apply keeps_bind; [apply keeps_get_or_404|intros c]. apply keeps_bind; [done|intros _].
  apply keeps_bind; [|by intros [c'|]]. apply keeps_tx. intros s. apply move_stays. right. right. set_solver.
Qed.

Lemma keeps_mark_reviewed id via : keeps (stays (settled cid)) (mark_reviewed id via).
Proof.
  unfold mark_reviewed. apply keeps_bind; [apply keeps_get_or_404|intros c]. apply keeps_bind; [|by intros [c'|]].
  apply keeps_tx. intros s. apply move_stays. right. left. set_solver.
Qed.

Lemma keeps_get_change id user : keeps (stays (settled cid)) (get_change id user).
Proof.
  unfold get_change. apply keeps_bind; [apply keeps_get_or_404|intros c]. apply keeps_bind; [done|intros _].
  apply keeps_bind; [|intros _; apply keeps_get_or_404]. apply keeps_write. intros s Hs. by apply reconcile_settled.
Qed.

(** Approving another request does not unsettle this one. *)
Lemma keeps_dispatch_other id c wid wf actor via st : id <> cid -> keeps (stays (settled cid)) (dispatch_deploy id c wid wf actor via st).
Proof.
  intros Hne. unfold dispatch_deploy. apply keeps_bind.
  - apply keeps_catch; [eapply keeps_mono; [apply same_requests_settled|apply create_same_requests]|intros e].
    apply keeps_bind; [|done]. apply keeps_tx. intros s. apply move_stays. by left.
  - intros run_id. apply keeps_bind; [|done]. apply keeps_tx. intros s. apply record_stays.
Qed.

Lemma keeps_approve_other id actor via : id <> cid -> keeps (stays (settled cid)) (approve id actor via).
Proof.
  intros Hne. unfold approve. apply keeps_bind; [apply keeps_get_or_404|intros c]. apply keeps_bind; [done|intros target].
  apply keeps_bind; [|intros [c'|]; [by apply keeps_dispatch_other|done]]. apply keeps_tx. intros s. apply move_stays. by left.
Qed.

(** A webhook delivery deploys this request or leaves it alone. *)
Definition deployed_here (o : webhook_outcome) : bool :=
  match o with Webhook_deployed id _ => bool_decide (id = cid) | _ => false end.

Lemma keeps_first_active repository shas : keeps (stays (settled cid)) (first_active repository shas).
Proof.
  induction shas as [|sha shas IH]; cbn [first_active]; [done|]. apply keeps_bind; [apply keeps_tx; intros s Hs; exact Hs|].
  by intros [id|].
Qed.

Lemma exclusive_webhook repository auto payload : exclusive (settled cid) deployed_here false (handle_payload repository auto payload).
Proof.
  unfold handle_payload. apply exclusive_bind; [done|intros shas]. apply exclusive_bind; [apply keeps_first_active|intros [id|]; [|done]].
  apply exclusive_handle; [|intros e; by case_decide]. destruct auto.
  - destruct (decide (id = cid)) as [->|Hne].
    + eapply exclusive_seq; [apply exclusive_approve|]. intros run_id. cbn. by rewrite bool_decide_true.
    + apply exclusive_bind; [by apply keeps_approve_other|]. intros run_id. cbn. by rewrite bool_decide_false.
  - apply exclusive_bind; [apply keeps_mark_reviewed|done].
Qed.

(** Who may be at work at the same time; a client's answer is the deploy run it
    started for this request, if it did. *)
Inductive client : proc system (option nat) -> Prop :=
  | client_approve actor via : client (run_id ← approve cid actor via; mret (Some run_id))
  | client_deploy actor : client (run_id ← deploy cid actor; mret (Some run_id))
  | client_webhook repository auto payload :
      client (o ← handle_payload repository auto payload;
              mret (match o with Webhook_deployed id run_id => if decide (id = cid) then Some run_id else None | _ => None end))
  | client_mark_reviewed via : client (_ ← mark_reviewed cid via; mret None)
  | client_reject actor reason : client (_ ← reject cid actor reason; mret None)
  | client_get user : client (_ ← get_change cid user; mret None)
  | client_sweep : client (_ ← sweep; mret None)
  | client_other {A} (p : proc system A) : keeps same_requests p -> client (_ ← p; mret None).

Lemma client_exclusive p : client p -> exclusive (settled cid) kept false p.
Proof.
  assert (Hother : forall A (q : proc system A), keeps (stays (settled cid)) q -> exclusive (settled cid) (@kept nat) false (_ ← q; mret None)).
  { intros A q Hq. by apply exclusive_bind. }
  destruct 1 as [actor via|actor|repository auto payload|via|actor reason|user| |A p Hp].
  - eapply exclusive_seq; [apply exclusive_approve|done].
  - eapply exclusive_seq; [apply exclusive_deploy|done].
  - eapply exclusive_seq; [apply exclusive_webhook|]. intros [|id|id run_id]; [done..|]. cbn. by case_decide; case_bool_decide.
  - apply Hother, keeps_mark_reviewed.
  - apply Hother, keeps_reject.
  - apply Hother, keeps_get_change.
  - apply Hother, keeps_sweep.
  - apply Hother. eapply keeps_mono; [apply same_requests_settled|done].
Qed.

(** C27. One deployment per review: let any number of reviewers click, webhooks
    arrive, sweeps run and other work go on, their transactions interleaved in
    any order: at most one of them gets a deploy run for the request, and from
    then on the request is never staged or approved again. *)
Theorem one_deployment turns pool s :
  (forall p, p ∈ pool -> client p) ->
  let (pool', s') := play turns pool s in
  (forall i j run1 run2, pool' !! i = Some (Ret (Ok (Some run1))) -> pool' !! j = Some (Ret (Ok (Some run2))) -> i = j) /\
  (forall i run_id, pool' !! i = Some (Ret (Ok (Some run_id))) -> settled cid s').
Proof. intros Hpool. apply one_winner. intros p Hp. by apply client_exclusive, Hpool. Qed.
End Facts.

(** A click races a webhook delivery and a sweep. *)
Definition demo_change : ChangeRequest :=
  Change (Some 1) None (Some 2) None (Some 5) (Some "abc") [] [] CR_staged None None None None None None None None 0%Z.
Definition review_system : system := System 100 50 (World demo_tables {[1 := demo_change]} 2) 0 [].
Definition review_pool : list (proc system (option nat)) :=
  [run_id ← approve (H := demo_services) 1 (Some 7) "ui"; mret (Some run_id);
   o ← handle_payload (H := demo_services) 5 true [("after", JStr "abc")];
   mret (match o with Webhook_deployed id run_id => if decide (id = 1) then Some run_id else None | _ => None end);
   _ ← sweep; mret None].
Definition review_turns : list nat := [0; 1; 1; 2; 0; 1; 0; 1; 2] ++ replicate 12 0 ++ replicate 12 1.

Lemma one_deployment_witness :
  let out := play review_turns review_pool review_system in
  out.1 !! 0 = Some (Ret (Ok (Some 4))) /\ out.1 !! 1 = Some (Ret (Ok None)) /\ settled 1 out.2.
Proof.
  intros out. assert (H0 : out.1 !! 0 = Some (Ret (Ok (Some 4)))) by (vm_compute; reflexivity).
  split; [exact H0|]. split; [vm_compute; reflexivity|].
  assert (Hpool : forall p, p ∈ review_pool -> @client demo_services 1 p).
  { intros p Hp. unfold review_pool in Hp. rewrite !elem_of_cons in Hp. destruct Hp as [->|[->|[->|Hp]]]; [..|by apply not_elem_of_nil in Hp].
    - apply client_approve.
    - apply client_webhook.
    - apply client_sweep. }
  pose proof (@one_deployment demo_services 1 review_turns review_pool review_system Hpool) as Hone. fold out in Hone.
  destruct out as [pool' s']. exact (proj2 Hone 0 4 H0).
Defined.
