(* ===== verification/BatchApproval.v ===== *)
(** * Wait & Run ([workflow_run/batch_approval.py], [fan_out_dispatch.py]'s
    [_dispatch_with_approval], [RunService.approve_batch] and [approve_all])

    A fan-out with approval dispatches its groups in batches and pauses before
    each one for the person who started the run.  Two programs meet on the run's
    row and on the engine's events: the worker ([worker_step], from one commit
    or await to the next) and the operators' requests, each read-check,
    [approve_all]'s write, and push being separate transactions ([request]).
    [step] interleaves them, and whatever else is written to the tables
    ([undisturbed]).  [requests_log] records the read-checks that succeeded: it
    is history for the theorems, the programs do not read it.

    [ctx.aio_wait_for_event] with its lookback window succeeds as soon as an
    event of that key has been pushed, before the wait or during it; that the
    window is 15 minutes long is not modelled. *)
From stdpp Require Import pretty.
From S2P Require Import Prelude Dict Json Registry Graph GraphResolution Context Merge Guards RunStore Secrets RunInputs StepRunner Subgraph ChangeStore FanOut RunAccess.

Definition MAX_APPROVAL_STATE_DEVICE_NAMES : nat := 25.
Definition jnat (n : nat) : json := JInt (Z.of_nat n).

(** [_build_approval_state] *)
Definition build_approval_state (awaiting : bool) (next_batch_index total_batches batches_completed devices_total devices_completed devices_failed : nat)
    (next_batch_device_names : list string) (auto_approve_remaining : bool) : dict json :=
  [("awaiting", JBool awaiting); ("next_batch_index", jnat next_batch_index); ("total_batches", jnat total_batches);
   ("batches_completed", jnat batches_completed); ("devices_total", jnat devices_total); ("devices_completed", jnat devices_completed);
   ("devices_failed", jnat devices_failed);
   ("next_batch_device_names", JList (JStr <$> take MAX_APPROVAL_STATE_DEVICE_NAMES next_batch_device_names));
   ("auto_approve_remaining", JBool auto_approve_remaining)].

(** [", ".join(names)] *)
Definition join_names (names : list string) : string :=
  match names with [] => "" | x :: rest => foldl (fun s y => s +:+ ", " +:+ y) x rest end.

(** [_format_approval_pause_message] *)
Definition format_approval_pause_message (batches_completed total_batches devices_completed devices_failed next_batch_index : nat)
    (next_batch_device_names : list string) : string :=
  let prefix :=
    if batches_completed =? 0
    then "Ready to run batch " +:+ pretty (S next_batch_index) +:+ "/" +:+ pretty total_batches +:+ "."
    else "Batch " +:+ pretty batches_completed +:+ "/" +:+ pretty total_batches +:+ " finished (" +:+
         pretty (Z.of_nat devices_completed - Z.of_nat devices_failed)%Z +:+ " device(s) ok, " +:+ pretty devices_failed +:+ " failed)." in
  let preview_names := take 10 next_batch_device_names in
  let names_preview := join_names preview_names +:+ (if length preview_names <? length next_batch_device_names then ", …" else "") in
  prefix +:+ " Waiting for approval to run batch " +:+ pretty (S next_batch_index) +:+ " (" +:+
  pretty (length next_batch_device_names) +:+ " device(s): " +:+ names_preview +:+ "). Click " +:+
  String (ascii_of_nat 34) ("Run next batch" +:+ String (ascii_of_nat 34) " to continue or Cancel to stop.").

(** [_batch_needs_approval_gate], [_device_names_for_groups] *)
Definition batch_needs_approval_gate (batch_index : nat) (first_batch_auto auto_approve_remaining : bool) : bool :=
  negb auto_approve_remaining && negb ((batch_index =? 0) && first_batch_auto).
Definition device_names_for_groups (plan : FanOutDispatchPlan) (batch_groups : list (list string)) : list string :=
  omap (fun did => dc_name <$> dget did (all_devices plan)) (concat batch_groups).

(** [run_events.batch_approval_event_key] *)
Definition batch_approval_event_key (run_uuid : string) (batch_index : nat) : string :=
  "workflow-run." +:+ run_uuid +:+ ".batch." +:+ pretty batch_index.

(** ** The worker *)

Inductive stage := At_batch | Awaiting_event | Running_batch | Finished | Crashed (e : exn).

Record dispatcher := Dispatcher {
  batch_index : nat;
  auto_approve_remaining : bool;
  devices_completed : nat;
  devices_failed : nat;
  group_index_offset : nat;
  all_results : list (res child_output);
  w_stage : stage
}.

Definition set_stage (s : stage) (p : dispatcher) : dispatcher :=
  Dispatcher (batch_index p) (auto_approve_remaining p) (devices_completed p) (devices_failed p) (group_index_offset p) (all_results p) s.

Section Approval.
Context `{Rbac} (E : engine) (validate : json -> res WorkflowContext) (workflows : nat -> option workflow).
Context (child_run : DeviceGroupInput -> res child_output).
Context (signal : FanOutSignal) (rid : nat) (run_uuid : string) (nodes : list node) (edges : list edge).
Context (plan : FanOutDispatchPlan) (batch_size : nat) (first_batch_auto : bool).

(** What [_dispatch_with_approval] reads from its configuration. *)
Definition approval_settings : res (nat * bool) :=
  size ← int_setting "batch_size" 1 (approval_cfg plan);
  Ok (Z.to_nat (Z.max 1 size), match dget "first_batch_auto" (approval_cfg plan) with Some v => truthy v | None => true end).

Definition batches : list (list (list string)) := slices batch_size (plan_groups plan).
Definition event_key (k : nat) : string := batch_approval_event_key run_uuid k.

Definition initial_dispatcher : dispatcher := Dispatcher 0 false 0 0 0 [] At_batch.

(** [_wait_and_resume_batch_approval], before and after the wait *)
Definition pause_for_approval (p : dispatcher) (batch_groups : list (list string)) (d : tables) : res tables :=
  let names := device_names_for_groups plan batch_groups in
  let k := batch_index p in
  let state := build_approval_state true k (length batches) k (length (plan_device_ids plan)) (devices_completed p) (devices_failed p) names false in
  let message := format_approval_pause_message k (length batches) (devices_completed p) (devices_failed p) k names in
  match runs d !! rid with
  | None => Raise (ValueError "WorkflowRun {parent_run_id} not found (approval gate)" [])
  | Some _ =>
      Ok (update_run_status rid R_paused
            (Fields None None None None None None (Some (inventory_node_id signal)) (Some message) (Some (Some (JDict state)))) false d).2
  end.

Definition approval_of (row : WorkflowRun) : dict json := match approval_state row with Some (JDict s) => s | _ => [] end.
Definition is_auto (state : dict json) : bool := match dget "auto_approve_remaining" state with Some v => truthy v | None => false end.

Definition resume_after_approval (d : tables) : res (bool * tables) :=
  match runs d !! rid with
  | None => Raise (ValueError "WorkflowRun {parent_run_id} not found (approval resume)" [])
  | Some row =>
      Ok (is_auto (approval_of row),
          (update_run_status rid R_running
             (Fields None None None None None None None None (Some (Some (JDict (dset "awaiting" (JBool false) (approval_of row)))))) false d).2)
  end.

(** One batch, from its dispatch to its save. *)
Definition run_batch (batch_groups : list (list string)) (p : dispatcher) (d : tables) : dispatcher * tables :=
  let batch_results := run_groups child_run signal rid (all_devices plan) batch_groups (group_index_offset p) in
  let results := all_results p ++ batch_results in
  let (count, failed) := tally_batch_failures batch_groups batch_results in
  let p' s := Dispatcher (S (batch_index p)) (auto_approve_remaining p) (devices_completed p + count) (devices_failed p + failed)
                (group_index_offset p + length batch_groups) results s in
  match aggregate_and_persist E validate rid signal nodes edges results false d with
  | (Ok _, d) => (p' At_batch, d)
  | (Raise e, d) => (p' (Crashed e), d)
  end.

(** [None]: the worker waits, or is done. *)
Definition worker_step (p : dispatcher) (d : tables) (events : list string) : option (dispatcher * tables) :=
  match w_stage p with
  | At_batch =>
      match batches !! batch_index p with
      | None => Some (set_stage Finished p, d)
      | Some groups =>
          if batch_needs_approval_gate (batch_index p) first_batch_auto (auto_approve_remaining p)
          then match pause_for_approval p groups d with
               | Ok d => Some (set_stage Awaiting_event p, d)
               | Raise e => Some (set_stage (Crashed e) p, d)
               end
          else Some (set_stage Running_batch p, d)
      end
  | Awaiting_event =>
      if bool_decide (event_key (batch_index p) ∈ events)
      then match resume_after_approval d with
           | Ok (auto, d) =>
               Some (Dispatcher (batch_index p) auto (devices_completed p) (devices_failed p) (group_index_offset p) (all_results p) Running_batch, d)
           | Raise e => Some (set_stage (Crashed e) p, d)
           end
      else None
  | Running_batch =>
      match batches !! batch_index p with
      | Some groups => Some (run_batch groups p d)
      | None => None
      end
  | Finished | Crashed _ => None
  end.

(** ** The operators *)

Inductive click := Approve_batch | Approve_all.

#[local] Instance click_eq_dec : EqDecision click.
Proof. solve_decision. Defined.

(** A request between two transactions: about to write its flag
    ([approve_all]), about to push its event. *)
Inductive request :=
  | About_to_write (user : nat) (state : dict json)
  | About_to_push (user : nat) (state : dict json).

(** A read-check that succeeded: who, what, and the batch the run waited for. *)
Record approval := Approval { by_user : nat; what : click; for_batch : Z }.

Definition next_batch_of (state : dict json) : res Z :=
  match dget "next_batch_index" state with None => Raise (KeyError "next_batch_index") | Some v => int_of v end.

Definition ask (user : nat) (c : click) (d : tables) : res request :=
  rs ← require_awaiting_batch workflows rid user d;
  Ok match c with Approve_batch => About_to_push user rs.2 | Approve_all => About_to_write user rs.2 end.

(** [approve_all]'s [update_run_status], from the state it read. *)
Definition write_auto (state : dict json) (d : tables) : tables :=
  (update_run_status rid R_paused
     (Fields None None None None None None None None (Some (Some (JDict (dset "auto_approve_remaining" (JBool true) state))))) false d).2.

(** [_push_batch_event] *)
Definition push_batch_event (state : dict json) (events : list string) : res (list string) :=
  k ← next_batch_of state; Ok (batch_approval_event_key run_uuid (Z.to_nat k) :: events).

(** ** Together *)

Record sys := Sys {
  s_db : tables;
  s_events : list string;
  s_worker : dispatcher;
  s_requests : list request;
  requests_log : list approval
}.

(** What everybody else may do to this run's row: change its status, clear its
    approval state (a terminal status does), delete it; its owner and its uuid
    never change. *)
Definition undisturbed (d d' : tables) : Prop :=
  forall row', runs d' !! rid = Some row' ->
    exists row, runs d !! rid = Some row /\ uuid row' = uuid row /\ triggered_by_id row' = triggered_by_id row /\
      run_workflow_id row' = run_workflow_id row /\ (approval_state row' = approval_state row \/ approval_state row' = None).

Inductive step : sys -> sys -> Prop :=
  | step_worker d ev p rq log p' d' :
      worker_step p d ev = Some (p', d') -> step (Sys d ev p rq log) (Sys d' ev p' rq log)
  | step_ask d ev p rq log user c r k :
      ask user c d = Ok r -> match r with About_to_write _ s | About_to_push _ s => next_batch_of s = Ok k end ->
      step (Sys d ev p rq log) (Sys d ev p (r :: rq) (Approval user c k :: log))
  | step_write d ev p rq1 rq2 log user s :
      step (Sys d ev p (rq1 ++ About_to_write user s :: rq2) log)
           (Sys (write_auto s d) ev p (rq1 ++ About_to_push user s :: rq2) log)
  | step_push d ev ev' p rq1 rq2 log user s :
      push_batch_event s ev = Ok ev' -> step (Sys d ev p (rq1 ++ About_to_push user s :: rq2) log) (Sys d ev' p (rq1 ++ rq2) log)
  | step_drop d ev p rq1 rq2 log r :     (* the engine is unreachable: the request ends with a 503 *)
      step (Sys d ev p (rq1 ++ r :: rq2) log) (Sys d ev p (rq1 ++ rq2) log)
  | step_env d d' ev p rq log : undisturbed d d' -> step (Sys d ev p rq log) (Sys d' ev p rq log).
End Approval.

(** [_dispatch_children]: the children's results, or the settings the gated
    dispatch starts with. *)
Inductive dispatch := Dispatched (results : list (res child_output)) | Gated (batch_size : nat) (first_batch_auto : bool).

Definition dispatch_children (child_run : DeviceGroupInput -> res child_output) (signal : FanOutSignal) (parent_run_id : nat) (d : tables)
    : res (FanOutDispatchPlan * dispatch) * tables :=
  match parse_fan_out_dispatch signal with
  | Raise e => (Raise e, d)
  | Ok plan =>
      match plan_groups plan with
      | [] => (Ok (plan, Dispatched []), d)
      | groups =>
          let d := precreate_device_groups parent_run_id plan d in
          if approval_enabled plan
          then (approval_settings plan ≫= fun s : nat * bool => Ok (plan, Gated s.1 s.2), d)
          else (Ok (plan, Dispatched (run_groups child_run signal parent_run_id (all_devices plan) groups 0)), d)
      end
  end.

(** * Facts *)

Lemma update_step_result_runs rid nid st f (d : tables) : runs (update_step_result rid nid st f d) = runs d.
Proof. unfold update_step_result. by repeat case_match. Qed.

Lemma aggregate_runs E validate rid signal nodes edges results final (d : tables) :
  runs (aggregate_and_persist E validate rid signal nodes edges results final d).2 = runs d.
Proof.
  unfold aggregate_and_persist. destruct (gather_children _ _ _) as [g|]; [|done].
  assert (Hn : forall ex ids m b d0, runs (aggregate_nodes E rid final ex g ids m b d0).2 = runs d0).
  { intros ex. induction ids as [|nid ids IH]; intros m b d0; [done|]. cbn [aggregate_nodes].
    destruct (default [] (per_node g !! nid)).
    - rewrite IH. destruct (ex !! (rid, nid)); [|done]. destruct final; [apply update_step_result_runs|done].
    - destruct (merge_node nid _); [|done]. destruct (ex !! (rid, nid)); rewrite IH; [apply update_step_result_runs|done]. }
  specialize (Hn (get_step_results_for_run rid d) (elements (child_node_ids (inventory_node_id signal) (join_node_id signal) nodes edges)) ∅ false d).
  by destruct (aggregate_nodes _ _ _ _ _ _ _ _ _) as [[[]|] ?].
Qed.

Lemma event_key_inj run_uuid j k : event_key run_uuid j = event_key run_uuid k -> j = k.
Proof. unfold event_key, batch_approval_event_key. intros H. by repeat apply (inj _) in H. Qed.

(** A status write that carries an approval state. *)
Lemma write_state_row rid st cur msg new (d : tables) row' :
  let f := Fields None None None None None None cur msg (Some (Some (JDict new))) in
  runs (update_run_status rid st f false d).2 !! rid = Some row' ->
  exists row, runs d !! rid = Some row /\ uuid row' = uuid row /\ triggered_by_id row' = triggered_by_id row /\
    run_workflow_id row' = run_workflow_id row /\
    (approval_state row' = approval_state row \/ approval_state row' = None \/ approval_state row' = Some (JDict new)).
Proof.
  cbv zeta. unfold update_run_status, transition_run. cbn [f_approval_state]. destruct (runs d !! rid) as [row|] eqn:Hr.
  - destruct (transition_guard None (rstatus row)); cbn [snd].
    + cbn [set_runs runs]. rewrite lookup_insert_eq. intros [= <-]. exists row. cbn. split_and!; try done.
      destruct (terminal st); [by right; left|by right; right].
    + rewrite Hr. intros [= <-]. exists row. split_and!; try done. by left.
  - cbn [snd]. rewrite Hr. done.
Qed.

Section Safety.
Context `{Rbac} (E : engine) (validate : json -> res WorkflowContext) (workflows : nat -> option workflow).
Context (child_run : DeviceGroupInput -> res child_output).
Context (signal : FanOutSignal) (rid : nat) (run_uuid : string) (nodes : list node) (edges : list edge).
Context (plan : FanOutDispatchPlan) (batch_size : nat) (first_batch_auto : bool) (owner : option nat).
Implicit Types (d : tables) (p : dispatcher) (s : sys) (st : dict json).

Abbreviation step := (step E validate workflows child_run signal rid run_uuid nodes edges plan batch_size first_batch_auto).
Abbreviation worker_step := (worker_step E validate child_run signal rid run_uuid nodes edges plan batch_size first_batch_auto).
Abbreviation event_key := (event_key run_uuid).

(** The batches the worker has handed to children, or is handing. *)
Definition dispatched p (k : nat) : Prop := k < batch_index p \/ (k = batch_index p /\ w_stage p = Running_batch).

(** Who may have released batch [k]. *)
Definition authorised (log : list approval) (k : nat) : Prop :=
  (k = 0 /\ first_batch_auto = true) \/
  (exists a, a ∈ log /\ for_batch a = Z.of_nat k) \/
  (exists a, a ∈ log /\ what a = Approve_all /\ (for_batch a <= Z.of_nat k)%Z).

(** "Approve all" was asked for at batch [k] or before. *)
Definition all_by (log : list approval) (k : nat) : Prop := exists a, a ∈ log /\ what a = Approve_all /\ (for_batch a <= Z.of_nat k)%Z.

(** An approval state: the batch it names, if any, has been reached, and its flag was asked for. *)
Definition state_ok (log : list approval) (k : nat) st : Prop :=
  match dget "next_batch_index" st with None => True | Some v => exists j, v = jnat j /\ j <= k end /\
  (is_auto st = true -> all_by log k).

Definition request_ok (log : list approval) (k : nat) (r : request) : Prop :=
  match r with
  | About_to_push u st => state_ok log k st /\ exists a, a ∈ log /\ next_batch_of st = Ok (for_batch a)
  | About_to_write u st => state_ok log k st /\ exists a, a ∈ log /\ what a = Approve_all /\ next_batch_of st = Ok (for_batch a)
  end.

Record inv s : Prop := {
  i_owner row : runs (s_db s) !! rid = Some row -> run_owner_id workflows row = owner;
  i_log a : a ∈ requests_log s -> owner = Some (by_user a) /\ exists j, for_batch a = Z.of_nat j;
  i_state row x : runs (s_db s) !! rid = Some row -> approval_state row = Some x ->
    exists st, x = JDict st /\ state_ok (requests_log s) (batch_index (s_worker s)) st;
  i_requests r : r ∈ s_requests s -> request_ok (requests_log s) (batch_index (s_worker s)) r;
  i_events k : event_key k ∈ s_events s -> exists a, a ∈ requests_log s /\ for_batch a = Z.of_nat k;
  i_auto : auto_approve_remaining (s_worker s) = true -> all_by (requests_log s) (batch_index (s_worker s));
  i_dispatched k : dispatched (s_worker s) k -> authorised (requests_log s) k
}.

Lemma all_by_mono log log' k k' : log ⊆ log' -> k <= k' -> all_by log k -> all_by log' k'.
Proof. intros Hl Hk (a & Ha & Hw & Hf). exists a. split; [by apply Hl|]. split; [done|lia]. Qed.
Lemma authorised_mono log log' k : log ⊆ log' -> authorised log k -> authorised log' k.
Proof. intros Hl [|[(a & Ha & Hf)|(a & Ha & Hf)]]; [by left|right; left; exists a; auto|right; right; exists a; auto]. Qed.
Lemma state_ok_mono log log' k k' st : log ⊆ log' -> k <= k' -> state_ok log k st -> state_ok log' k' st.
Proof.
  intros Hl Hk [Hj Ha]. split; [|intros Hau; by eapply all_by_mono; [| |apply Ha]].
  destruct (dget "next_batch_index" st) as [v|]; [|done]. destruct Hj as (j0 & -> & Hle). exists j0. split; [done|lia].
Qed.
Lemma request_ok_mono log log' k k' r : log ⊆ log' -> k <= k' -> request_ok log k r -> request_ok log' k' r.
Proof.
  intros Hl Hk. destruct r as [u st|u st]; cbn; (intros [Hs (a & Ha & Hw)]; split; [by eapply state_ok_mono|exists a; auto]).
Qed.

Lemma next_batch_ok log k st z : state_ok log k st -> next_batch_of st = Ok z -> exists j, z = Z.of_nat j /\ j <= k.
Proof.
  intros [Hj _]. unfold next_batch_of. destruct (dget "next_batch_index" st) as [v|]; [|done]. destruct Hj as (j & -> & Hle).
  intros [= <-]. by exists j.
Qed.

Lemma state_ok_dset log k st key v : key ≠ "next_batch_index" -> (is_auto (dset key v st) = true -> all_by log k) ->
  state_ok log k st -> state_ok log k (dset key v st).
Proof. intros Hk Ha [Hj _]. split; [by rewrite dget_dset_ne|done]. Qed.

(** Writes of the worker keep the log and the requests, and move forward. *)
Lemma inv_worker d ev p rq log p' d' :
  inv (Sys d ev p rq log) -> batch_index p <= batch_index p' ->
  (forall row', runs d' !! rid = Some row' -> exists row, runs d !! rid = Some row /\ run_owner_id workflows row' = run_owner_id workflows row /\
     (approval_state row' = approval_state row \/ approval_state row' = None \/
      exists st, approval_state row' = Some (JDict st) /\ state_ok log (batch_index p') st)) ->
  (auto_approve_remaining p' = true -> all_by log (batch_index p')) ->
  (forall k, dispatched p' k -> dispatched p k \/ authorised log k) ->
  inv (Sys d' ev p' rq log).
Proof.
  intros [I1 I2 I3 I4 I5 I6 I7] Hle Hrow Hauto Hdis. cbn in *. split; cbn.
  - intros row' Hr. destruct (Hrow row' Hr) as (row & Hrow0 & -> & _). by apply I1.
  - done.
  - intros row' x Hr Hx. destruct (Hrow row' Hr) as (row & Hrow0 & _ & [He|[He|(st & He & Hok)]]).
    + rewrite He in Hx. destruct (I3 row x Hrow0 Hx) as (st & -> & Hok). exists st. split; [done|]. by eapply state_ok_mono.
    + congruence.
    + exists st. split; [congruence|done].
  - intros r Hr. eapply request_ok_mono; [done|done|by apply I4].
  - done.
  - done.
  - intros k Hk. destruct (Hdis k Hk); [by apply I7|done].
Qed.

Lemma same_rows d d' : runs d' = runs d ->
  forall row', runs d' !! rid = Some row' -> exists row, runs d !! rid = Some row /\ run_owner_id workflows row' = run_owner_id workflows row /\
    (approval_state row' = approval_state row \/ approval_state row' = None \/ False).
Proof. intros -> row' Hr. exists row'. split_and!; [done|done|by left]. Qed.

Lemma owner_eq row row' : triggered_by_id row' = triggered_by_id row -> run_workflow_id row' = run_workflow_id row ->
  run_owner_id workflows row' = run_owner_id workflows row.
Proof. intros Ht Hw. unfold run_owner_id. by rewrite Ht, Hw. Qed.

Lemma worker_step_inv d ev p rq log p' d' :
  worker_step p d ev = Some (p', d') -> inv (Sys d ev p rq log) -> inv (Sys d' ev p' rq log).
Proof.
  intros Hstep Hinv. pose proof Hinv as [I1 I2 I3 I4 I5 I6 I7]. cbn in *. unfold BatchApproval.worker_step in Hstep.
  destruct (w_stage p) as [| | | |e] eqn:Hst; try done.
  - destruct (batches plan batch_size !! batch_index p) as [gs|] eqn:Hb.
    2: { injection Hstep as <- <-. eapply inv_worker; [done|done| |done|].
         - intros row' Hr. destruct (same_rows d d eq_refl row' Hr) as (row & ? & ? & ?). exists row. naive_solver.
         - intros k [Hk|[-> Hk]]; [left; by left|done]. }
    destruct (batch_needs_approval_gate _ _ _) eqn:Hgate.
    + unfold pause_for_approval in Hstep. destruct (runs d !! rid) as [row0|] eqn:Hrun.
      * injection Hstep as <- <-. eapply inv_worker; [done|done| |done|].
        -- intros row' Hr. apply write_state_row in Hr as (row & Hrow & _ & Ht & Hw & Hap). exists row. split_and!; [done|by apply owner_eq|].
           destruct Hap as [|[|Hap]]; [by left|by right; left|]. right; right. eexists. split; [exact Hap|].
           split; [|done]. by exists (batch_index p).
        -- intros k [Hk|[-> Hk]]; [left; by left|done].
      * injection Hstep as <- <-. eapply inv_worker; [done|done| |done|].
        -- intros row' Hr. congruence.
        -- intros k [Hk|[-> Hk]]; [left; by left|done].
    + injection Hstep as <- <-. eapply inv_worker; [done|done| |done|].
      * intros row' Hr. exists row'. split_and!; [done|done|by left].
      * intros k [Hk|[-> Hk]]; [left; by left|]. right. cbn. unfold batch_needs_approval_gate in Hgate.
        apply andb_false_iff in Hgate as [Hg|Hg]; apply negb_false_iff in Hg.
        -- right; right. by apply I6.
        -- apply andb_true_iff in Hg as [Hz Hf]. apply Nat.eqb_eq in Hz. left. by rewrite Hz.
  - destruct (bool_decide _) eqn:Hev; [|done]. apply bool_decide_eq_true in Hev.
    unfold resume_after_approval in Hstep. destruct (runs d !! rid) as [row0|] eqn:Hrun.
    + injection Hstep as <- <-.
      assert (Hok : state_ok log (batch_index p) (approval_of row0)).
      { unfold approval_of. destruct (approval_state row0) as [x|] eqn:Hx; [|by split].
        by destruct (I3 row0 x eq_refl Hx) as (st & -> & Hok). }
      eapply inv_worker; [done|done| |exact (proj2 Hok)|].
      * intros row' Hr. apply write_state_row in Hr as (row & Hrow & _ & Ht & Hw & Hap). exists row.
        split_and!; [done|by apply owner_eq|]. destruct Hap as [|[|Hap]]; [by left|by right; left|]. right; right.
        eexists. split; [exact Hap|]. apply state_ok_dset; [done| |done]. unfold is_auto. rewrite dget_dset_ne by done. exact (proj2 Hok).
      * intros k [Hk|[-> Hk]]; [left; by left|]. right. cbn. right; left. destruct (I5 _ Hev) as (a & Ha & Hf). by exists a.
    + injection Hstep as <- <-. eapply inv_worker; [done|done| |done|].
      * intros row' Hr. congruence.
      * intros k [Hk|[-> Hk]]; [left; by left|done].
  - destruct (batches plan batch_size !! batch_index p) as [gs|] eqn:Hb; [|done]. injection Hstep as Hstep. unfold run_batch in Hstep.
    destruct (tally_batch_failures gs _) as [count lost].
    pose proof (aggregate_runs E validate rid signal nodes edges (all_results p ++ run_groups child_run signal rid (all_devices plan) gs (group_index_offset p)) false d) as Hruns.
    assert (Hgo : forall sg, w_stage p' = sg -> sg ≠ Running_batch -> batch_index p' = S (batch_index p) ->
      auto_approve_remaining p' = auto_approve_remaining p -> runs d' = runs d -> inv (Sys d' ev p' rq log)).
    { intros sg Hs Hns Hi Ha Hr. eapply inv_worker; [done|lia| | |].
      - intros row' Hrow'. destruct (same_rows d d' Hr row' Hrow') as (row & ? & ? & ?). exists row. naive_solver.
      - rewrite Ha, Hi. intros Hau. eapply all_by_mono; [done| |by apply I6]. lia.
      - intros k [Hk|[_ Hk]]; [|congruence]. left. rewrite Hi in Hk. destruct (decide (k = batch_index p)); [right; done|left; lia]. }
    destruct (aggregate_and_persist _ _ _ _ _ _ _ _ _) as [[?|e] d1]; cbn [snd] in Hruns; injection Hstep as <- <-; by eapply Hgo.
Qed.

Lemma step_inv s s' : step s s' -> inv s -> inv s'.
Proof.
  destruct 1 as [d ev p rq log p' d' Hw|d ev p rq log user c r k Hask Hk|d ev p rq1 rq2 log user st|d ev ev' p rq1 rq2 log user st Hpush
    |d ev p rq1 rq2 log r|d d' ev p rq log Hund]; intros Hinv.
  - by eapply worker_step_inv.
  - destruct Hinv as [I1 I2 I3 I4 I5 I6 I7]. cbn in *. unfold ask in Hask. apply res_bind_Ok in Hask as ([row st] & Hreq & [= <-]).
    apply require_awaiting_batch_spec in Hreq as (Hrow & Hown & _ & Hst). cbn [snd] in *.
    destruct (I3 row _ Hrow Hst) as (st' & [= <-] & Hok).
    assert (Hnb : next_batch_of st = Ok k) by (by destruct c). destruct (next_batch_ok _ _ _ _ Hok Hnb) as (j & -> & Hj).
    set (a := Approval user c (Z.of_nat j)). assert (Hsub : log ⊆ a :: log) by (intros x Hx; by right).
    split; cbn.
    + done.
    + intros b [->|Hb]%elem_of_cons; [|by apply I2]. split; [cbn; rewrite <- Hown; symmetry; by apply I1|by exists j].
    + intros row' x Hr Hx. destruct (I3 row' x Hr Hx) as (st' & -> & Hok'). exists st'. split; [done|]. by apply (state_ok_mono _ _ _ _ _ Hsub (le_n _)).
    + assert (Ha : a ∈ a :: log) by (by left).
      intros r [->|Hr]%elem_of_cons; [|by apply (request_ok_mono _ _ _ _ _ Hsub (le_n _)), I4].
      assert (Hok' : state_ok (a :: log) (batch_index p) st) by (by apply (state_ok_mono _ _ _ _ _ Hsub (le_n _))).
      destruct c; (split; [exact Hok'|exists a; done]).
    + intros m Hm. destruct (I5 m Hm) as (b & Hb & Hf). exists b. split; [by right|done].
    + intros Ha. by apply (all_by_mono _ _ _ _ Hsub (le_n _)), I6.
    + intros m Hm. by apply (authorised_mono _ _ _ Hsub), I7.
  - destruct Hinv as [I1 I2 I3 I4 I5 I6 I7]. cbn in *.
    assert (Hreq : request_ok log (batch_index p) (About_to_write user st)) by (apply I4, elem_of_app; right; by left).
    destruct Hreq as [Hok (a & Ha & Hall & Hnb)].
    split; cbn; [|done| | |done|done|done].
    + intros row' Hr. apply write_state_row in Hr as (row & Hrow & _ & Ht & Hw & _). rewrite (owner_eq row row') by done. by apply I1.
    + intros row' x Hr Hx. apply write_state_row in Hr as (row & Hrow & _ & _ & _ & [He|[He|He]]).
      * rewrite He in Hx. by apply (I3 row).
      * congruence.
      * rewrite He in Hx. injection Hx as <-. eexists. split; [done|]. apply state_ok_dset; [done| |done]. intros _.
        destruct (next_batch_ok _ _ _ _ Hok Hnb) as (j & Hj & Hle). exists a. split_and!; [done|done|lia].
    + intros r [Hr|[->|Hr]%elem_of_cons]%elem_of_app.
      * apply I4, elem_of_app. by left.
      * cbn. split; [done|by exists a].
      * apply I4, elem_of_app. right. by right.
  - destruct Hinv as [I1 I2 I3 I4 I5 I6 I7]. cbn in *.
    assert (Hreq : request_ok log (batch_index p) (About_to_push user st)) by (apply I4, elem_of_app; right; by left).
    destruct Hreq as [Hok (a & Ha & Hnb)]. unfold push_batch_event in Hpush. rewrite Hnb in Hpush. injection Hpush as <-.
    split; cbn; try done.
    + intros r [Hr|Hr]%elem_of_app; apply I4, elem_of_app; [by left|right; by right].
    + intros m [Hm|Hm]%elem_of_cons; [|by apply I5]. apply (event_key_inj run_uuid) in Hm as ->. exists a. split; [done|].
      destruct (I2 a Ha) as [_ [j Hj]]. rewrite Hj. lia.
  - destruct Hinv as [I1 I2 I3 I4 I5 I6 I7]. split; try done. cbn in *.
    intros r' [Hr|Hr]%elem_of_app; apply I4, elem_of_app; [by left|right; by right].
  - destruct Hinv as [I1 I2 I3 I4 I5 I6 I7]. cbn in *. split; cbn; try done.
    + intros row' Hr. destruct (Hund row' Hr) as (row & Hrow & _ & Ht & Hw & _). rewrite (owner_eq row row') by done. by apply I1.
    + intros row' x Hr Hx. destruct (Hund row' Hr) as (row & Hrow & _ & _ & _ & [He|He]); [|congruence]. rewrite He in Hx. by apply (I3 row).
Qed.

(** C26. Wait & Run never runs ahead. However the worker, the clicks of any
    number of users, each cut at its transactions, and the rest of the system
    interleave: a batch is dispatched only if it is the first and configured to
    start by itself, or the person who started the run (never an administrator)
    asked for exactly this batch, or asked for all batches when the run waited
    for this one or an earlier one. A stale or repeated click releases nothing
    else. *)
Theorem batches_authorised d ev s k :
  (exists row, runs d !! rid = Some row /\ run_owner_id workflows row = owner /\ approval_state row = None) ->
  (forall m, event_key m ∉ ev) ->
  rtc step (Sys d ev initial_dispatcher [] []) s -> dispatched (s_worker s) k ->
  authorised (requests_log s) k /\ forall a, a ∈ requests_log s -> owner = Some (by_user a).
Proof.
  intros (row & Hrow & Hown & Hap) Hev Hreach Hdis.
  assert (Hinv : inv s).
  { clear Hdis. remember (Sys d ev initial_dispatcher [] []) as s0 eqn:Hs0. 
    assert (H0 : inv s0).
    { subst s0. split; cbn.
      - intros row' Hr. congruence.
      - by intros a ?%not_elem_of_nil.
      - intros row' x Hr Hx. congruence.
      - by intros r ?%not_elem_of_nil.
      - intros m Hm. by apply Hev in Hm.
      - done.
      - intros m [Hm|[_ Hm]]; [cbn in Hm; lia|done]. }
    clear Hs0. induction Hreach as [|s1 s2 s3 Hs _ IH]; [done|]. apply IH. by eapply step_inv. }
  split; [by apply (i_dispatched _ Hinv)|]. intros a Ha. by apply (i_log _ Hinv).
Qed.
End Safety.

(** ** The worker gets to the end *)

Section Completion.
Context (E : engine) (validate : json -> res WorkflowContext) (child_run : DeviceGroupInput -> res child_output).
Context (signal : FanOutSignal) (rid : nat) (run_uuid : string) (nodes : list node) (edges : list edge).
Context (plan : FanOutDispatchPlan) (batch_size : nat) (first_batch_auto : bool) (ev : list string).
Implicit Types (d : tables) (p : dispatcher).

Abbreviation worker_step := (worker_step E validate child_run signal rid run_uuid nodes edges plan batch_size first_batch_auto).
Abbreviation aggregate := (aggregate_and_persist E validate rid signal nodes edges).
Abbreviation batches := (batches plan batch_size).

(** The worker alone, for at most [fuel] steps. *)
Fixpoint run_worker (fuel : nat) p d : dispatcher * tables :=
  match fuel with
  | 0 => (p, d)
  | S fuel => match worker_step p d ev with Some (p', d') => run_worker fuel p' d' | None => (p, d) end
  end.

Lemma run_worker_add n m p d : run_worker (n + m) p d = run_worker m (run_worker n p d).1 (run_worker n p d).2.
Proof.
  revert p d. induction n as [|n IH]; intros p d; [done|]. cbn [run_worker Nat.add]. destruct (worker_step p d ev) as [[p' d']|] eqn:Hs; [apply IH|].
  cbn [fst snd]. destruct m; [done|]. cbn [run_worker]. by rewrite Hs.
Qed.

(** The run is active. *)
Definition run_active d : Prop := exists row, runs d !! rid = Some row /\ terminal (rstatus row) = false.

Lemma active_not_cancelled d : run_active d -> run_cancelled rid d = false.
Proof. intros (row & Hr & Ht). unfold run_cancelled. rewrite Hr. destruct (rstatus row); done. Qed.

Lemma update_status_keeps st f d : terminal st = false -> run_active d ->
  run_active (update_run_status rid st f false d).2 /\ steps (update_run_status rid st f false d).2 = steps d.
Proof.
  intros Hst (row & Hr & Ht). unfold update_run_status, transition_run. rewrite Hr. cbn [transition_guard]. rewrite Ht. cbn [negb snd].
  split; [|done]. unfold run_active. cbn [set_runs runs]. rewrite lookup_insert_eq. by eexists.
Qed.

(** What an aggregation returns and does to the step rows depends on the step rows only. *)
Lemma aggregate_cong results final d e y d2 :
  run_cancelled rid d = false -> run_cancelled rid e = false -> steps d = steps e ->
  aggregate results final d = (Ok y, d2) -> exists e2, aggregate results final e = (Ok y, e2) /\ steps e2 = steps d2.
Proof.
  intros Hd He Hs Hagg. unfold aggregate_and_persist in *. destruct (gather_children validate _ results) as [g|]; [|done].
  set (ids := elements _) in *.
  assert (Hex : get_step_results_for_run rid d = get_step_results_for_run rid e) by (unfold get_step_results_for_run; by rewrite Hs).
  destruct (aggregate_nodes _ rid final (get_step_results_for_run rid d) _ _ _ _ d) as [[[m b]|] d1] eqn:HA; simplify_eq.
  pose proof (aggregate_nodes_result E rid final (get_step_results_for_run rid e) (get_step_results_for_run rid d) g ids ∅ false e d) as Hres.
  rewrite Hex in Hres, HA. rewrite HA in Hres. specialize (Hres (fun _ _ => iff_refl _)). cbn [fst] in Hres.
  destruct (aggregate_nodes _ rid final (get_step_results_for_run rid e) _ _ _ _ e) as [r e1] eqn:HB. cbn [fst] in Hres. subst r.
  assert (Hrows : forall d0 : tables, steps d0 = steps e -> forall nid, nid ∈ ids -> get_step_results_for_run rid e !! (rid, nid) = steps d0 !! (rid, nid)).
  { intros d0 Hd0 nid _. rewrite Hd0. unfold get_step_results_for_run. rewrite map_lookup_filter. destruct (steps e !! (rid, nid)); [|done].
    cbn. by rewrite option_guard_True. }
  exists e1. split; [done|]. apply map_eq. intros k.
  pose proof (aggregate_nodes_spec _ _ _ _ _ _ _ _ _ _ _ _ (NoDup_elements _) Hd (Hrows d Hs) HA) as (_ & _ & _ & S1 & _ & _).
  pose proof (aggregate_nodes_spec _ _ _ _ _ _ _ _ _ _ _ _ (NoDup_elements _) He (Hrows e eq_refl) HB) as (_ & _ & _ & S2 & _ & _).
  by rewrite S1, S2, Hs.
Qed.

Section Run.
Context (d0 : tables) (all : list (res child_output)).
Context (Hall : Forall result_wf all) (Hactive : run_active d0).
Context (Hmerge : forall seen more, all = seen ++ more -> exists y d2, aggregate seen false d0 = (Ok y, d2)).
Context (Hresults : all = run_groups child_run signal rid (all_devices plan) (plan_groups plan) 0).
Context (Hsize : 0 < batch_size).
Context (Hev : forall k, k < length batches -> event_key run_uuid k ∈ ev).

(** Nothing of the batches saved so far will be left behind. *)
Definition absorbed (seen : list (res child_output)) d : Prop :=
  forall more final y d2, Forall result_wf (seen ++ more) -> aggregate (seen ++ more) final d0 = (Ok y, d2) ->
    exists d3, aggregate (seen ++ more) final d = (Ok y, d3) /\ steps d3 = steps d2.

(** Before batch [k]. *)
Record before_batch (k : nat) p d : Prop := {
  bb_stage : w_stage p = At_batch;
  bb_index : batch_index p = k;
  bb_offset : group_index_offset p = length (concat (take k batches));
  bb_results : all_results p = run_groups child_run signal rid (all_devices plan) (concat (take k batches)) 0;
  bb_count : (devices_completed p, devices_failed p) = tally_batch_failures (concat (take k batches)) (all_results p);
  bb_active : run_active d;
  bb_absorbed : absorbed (all_results p) d
}.

Lemma run_groups_app l1 l2 off :
  run_groups child_run signal rid (all_devices plan) (l1 ++ l2) off =
  run_groups child_run signal rid (all_devices plan) l1 off ++ run_groups child_run signal rid (all_devices plan) l2 (off + length l1).
Proof. unfold run_groups. by rewrite build_child_inputs_app, fmap_app. Qed.

Lemma tally_app l1 l2 r1 r2 : length l1 = length r1 ->
  tally_batch_failures (l1 ++ l2) (r1 ++ r2) =
  ((tally_batch_failures l1 r1).1 + (tally_batch_failures l2 r2).1, (tally_batch_failures l1 r1).2 + (tally_batch_failures l2 r2).2).
Proof. intros Hl. unfold tally_batch_failures. cbn. by rewrite fmap_app, zip_with_app, !sum_list_with_app. Qed.

Lemma batches_concat : concat batches = plan_groups plan.
Proof. by apply slices_spec. Qed.

Lemma run_groups_length gs off : length (run_groups child_run signal rid (all_devices plan) gs off) = length gs.
Proof. unfold run_groups, build_child_inputs. by rewrite length_fmap, length_imap. Qed.

(** One batch: at most three steps. *)
Lemma batch_round k p d : before_batch k p d -> k < length batches ->
  exists n, n <= 3 /\ before_batch (S k) (run_worker n p d).1 (run_worker n p d).2.
Proof.
  intros [B1 B2 B3 B4 B5 B6 B7] Hk. destruct (lookup_lt_is_Some_2 batches k Hk) as [gs Hgs].
  set (res := run_groups child_run signal rid (all_devices plan) gs (group_index_offset p)).
  assert (Htake : concat (take (S k) batches) = concat (take k batches) ++ gs).
  { rewrite (take_S_r _ _ gs Hgs), concat_app. cbn. by rewrite app_nil_r. }
  assert (Hseen : run_groups child_run signal rid (all_devices plan) (concat (take (S k) batches)) 0 = all_results p ++ res).
  { rewrite Htake, run_groups_app, B4. unfold res. by rewrite B3. }
  assert (Hpre : exists more, all = (all_results p ++ res) ++ more).
  { exists (run_groups child_run signal rid (all_devices plan) (concat (drop (S k) batches)) (length (concat (take (S k) batches)))).
    rewrite <- Hseen, Hresults, <- batches_concat. rewrite <- (take_drop (S k) batches) at 1. by rewrite concat_app, run_groups_app. }
  destruct Hpre as [more Hpre]. destruct (Hmerge _ _ Hpre) as (y & d2 & Hagg0).
  assert (Hwf : Forall result_wf (all_results p ++ res)) by (rewrite Hpre in Hall; by apply Forall_app in Hall as [? _]).
  (* the batch itself, from any state with the same rows *)
  assert (Hbatch : forall q e, w_stage q = Running_batch -> batch_index q = k -> group_index_offset q = group_index_offset p ->
    all_results q = all_results p -> (devices_completed q, devices_failed q) = (devices_completed p, devices_failed p) ->
    run_active e -> steps e = steps d -> exists q' e', worker_step q e ev = Some (q', e') /\ before_batch (S k) q' e').
  { intros q e Hst Hi Ho Hr Hc Hact Hsteps. unfold BatchApproval.worker_step. rewrite Hst, Hi, Hgs. unfold run_batch. rewrite Ho, Hr. fold res.
    destruct (tally_batch_failures gs res) as [count lost] eqn:Htally.
    pose proof (active_not_cancelled _ Hact) as Hec. pose proof (active_not_cancelled _ B6) as Hdc.
    destruct (B7 res false y d2 Hwf Hagg0) as (d3 & Hagg & Hs3).
    destruct (aggregate_cong _ _ d e y d3 Hdc Hec (eq_sym Hsteps) Hagg) as (e2 & Hagge & Hse).
    rewrite Hagge. do 2 eexists. split; [done|]. injection Hc as Hc1 Hc2. split; cbn.
    - done.
    - by rewrite Hi.
    - rewrite Htake, length_app. lia.
    - done.
    - rewrite Htake, tally_app by (by rewrite B4, run_groups_length). rewrite <- B5, Htally. cbn. congruence.
    - destruct Hact as (row & Hrow & Ht). exists row. split; [|done]. pose proof (aggregate_runs E validate rid signal nodes edges (all_results p ++ res) false e) as Hru.
      rewrite Hagge in Hru. cbn in Hru. by rewrite Hru.
    - intros more' final y' d2' Hwf' Hagg'. rewrite <- app_assoc in Hwf', Hagg' |- *.
      destruct (B7 (res ++ more') final y' d2' Hwf' Hagg') as (d3' & Hd3' & Hs3').
      rewrite app_assoc in Hd3', Hwf' |- *.
      destruct (aggregate_cong _ _ d e y' d3' Hdc Hec (eq_sym Hsteps) Hd3') as (e3 & He3 & Hse3).
      exists e3. split; [|congruence].
      exact (aggregate_absorbs E validate rid signal nodes edges (all_results p ++ res) more' final e y e2 y' e3 Hwf' Hec Hagge He3). }
  destruct (batch_needs_approval_gate (batch_index p) first_batch_auto (auto_approve_remaining p)) eqn:Hgate.
  - (* pause, resume, run *)
    destruct B6 as (row & Hrow & Ht). assert (Hact : run_active d) by (by exists row).
    pose proof (Hev k Hk) as Hevk.
    assert (Hs1 : exists e1, worker_step p d ev = Some (set_stage Awaiting_event p, e1) /\ run_active e1 /\ steps e1 = steps d).
    { unfold BatchApproval.worker_step. rewrite B1, B2, Hgs. rewrite B2 in Hgate. rewrite Hgate. unfold pause_for_approval. rewrite Hrow. eexists. split; [done|].
      by apply update_status_keeps. }
    destruct Hs1 as (e1 & Hs1 & (row1 & Hrow1 & Ht1) & Hst1). assert (Hact1 : run_active e1) by (by exists row1).
    assert (Hs2 : exists auto e2, worker_step (set_stage Awaiting_event p) e1 ev =
      Some (Dispatcher (batch_index p) auto (devices_completed p) (devices_failed p) (group_index_offset p) (all_results p) Running_batch, e2) /\
      run_active e2 /\ steps e2 = steps e1).
    { unfold BatchApproval.worker_step. cbn [set_stage w_stage batch_index]. rewrite B2, bool_decide_eq_true_2 by done.
      unfold resume_after_approval. rewrite Hrow1. do 2 eexists. split; [done|]. by apply update_status_keeps. }
    destruct Hs2 as (auto & e2 & Hs2 & Hact2 & Hst2).
    destruct (Hbatch (Dispatcher (batch_index p) auto (devices_completed p) (devices_failed p) (group_index_offset p) (all_results p) Running_batch) e2)
      as (q' & e3 & Hs3 & Hbb); try done; [congruence|].
    exists 3. split; [done|]. cbn [run_worker]. by rewrite Hs1, Hs2, Hs3.
  - assert (Hs1 : worker_step p d ev = Some (set_stage Running_batch p, d)).
    { unfold BatchApproval.worker_step. rewrite B1, B2, Hgs. rewrite B2 in Hgate. by rewrite Hgate. }
    destruct (Hbatch (set_stage Running_batch p) d) as (q' & e3 & Hs2 & Hbb); try done.
    exists 2. split; [lia|]. cbn [run_worker]. by rewrite Hs1, Hs2.
Qed.

Lemma all_rounds k p d : before_batch k p d -> k <= length batches ->
  exists n, n <= 3 * (length batches - k) /\ before_batch (length batches) (run_worker n p d).1 (run_worker n p d).2.
Proof.
  remember (length batches - k) as m eqn:Hm. revert k p d Hm. induction m as [|m IH]; intros k p d Hm Hb Hk.
  - exists 0. split; [lia|]. cbn. by replace (length batches) with k by lia.
  - destruct (batch_round k p d Hb) as (n1 & Hn1 & Hb1); [lia|]. destruct (IH (S k) _ _ ltac:(lia) Hb1 ltac:(lia)) as (n2 & Hn2 & Hb2).
    exists (n1 + n2). split; [lia|]. by rewrite run_worker_add.
Qed.
End Run.

(** Wait & Run gets there, and leaves no trace. When every gate is
    eventually answered and the children's outcomes merge, the worker ends
    within three steps per batch and one more; it has run every group once, in
    the order and with the indices of the dispatch without gates; and the step
    rows, once the parent is finalised, are those the dispatch without gates
    leaves. *)
Theorem wait_and_run_completes d0 :
  let all := run_groups child_run signal rid (all_devices plan) (plan_groups plan) 0 in
  Forall result_wf all -> run_active d0 -> 0 < batch_size ->
  (forall seen more, all = seen ++ more -> exists y d2, aggregate seen false d0 = (Ok y, d2)) ->
  (forall k, k < length batches -> event_key run_uuid k ∈ ev) ->
  forall fuel, 3 * length batches < fuel ->
  let out := run_worker fuel initial_dispatcher d0 in
  w_stage out.1 = Finished /\ all_results out.1 = all /\
  (devices_completed out.1, devices_failed out.1) = tally_batch_failures (plan_groups plan) all /\
  forall y d2, aggregate all true d0 = (Ok y, d2) -> exists d3, aggregate all true out.2 = (Ok y, d3) /\ steps d3 = steps d2.
Proof.
  intros all Hall Hact Hsize Hmerge Hev fuel Hfuel.
  assert (H0 : before_batch d0 0 initial_dispatcher d0).
  { split; try done. intros more final y d2 _ Hagg. by exists d2. }
  destruct (all_rounds d0 all Hall Hmerge eq_refl Hsize Hev 0 initial_dispatcher d0 H0) as (n & Hn & [B1 B2 B3 B4 B5 B6 B7]); [lia|].
  rewrite Nat.sub_0_r in Hn. replace fuel with (n + S (fuel - n - 1)) by lia. rewrite run_worker_add.
  set (q := (run_worker n initial_dispatcher d0).1) in *. set (e := (run_worker n initial_dispatcher d0).2) in *.
  assert (Hlast : worker_step q e ev = Some (set_stage Finished q, e)).
  { unfold BatchApproval.worker_step. rewrite B1, B2. by rewrite lookup_ge_None_2. }
  assert (Hstop : forall m, run_worker m (set_stage Finished q) e = (set_stage Finished q, e)) by (by intros []).
  cbv zeta. cbn [run_worker]. rewrite Hlast, Hstop. cbn [fst snd set_stage w_stage all_results devices_completed devices_failed].
  rewrite firstn_all, (batches_concat Hsize) in B4, B5. split; [done|]. split; [done|]. split.
  - by rewrite B5, B4.
  - intros y d2 Hagg. fold all in B4. destruct (B7 [] true y d2) as (d3 & Hd3 & Hs3); rewrite ?app_nil_r, ?B4; try done.
    exists d3. rewrite app_nil_r, B4 in Hd3. done.
Qed.
End Completion.

(** ** A gated fan-out on which the theorems are exercised *)

#[local] Instance no_roles : Rbac := {| has_role := fun _ _ => false; has_permission := fun _ _ _ => false |}.

Definition gated_signal : FanOutSignal :=
  Signal "inv" [("enabled", JBool true)] (sample_devices ["d1"; "d2"] OK) ∅ None.
Definition gated_plan : FanOutDispatchPlan :=
  DispatchPlan [["d1"]; ["d2"]] 0 true [("enabled", JBool true)] ["d1"; "d2"] (devices (inventory_outcome gated_signal)).
Definition gated_workflow : workflow := WorkflowRow "private" (Some 9) [] branch_nodes branch_edges.
Definition gated_row : WorkflowRun :=
  Run "r" 7 (Some 9) R_running "manual" None None None [] [] None None None None None None None None None None 0%Z.
Definition gated_tables : tables :=
  Tables {[1 := gated_row]} {[(1, "a") := new_step_row "act" "a"; (1, "z") := new_step_row "act" "z"]} ∅ 2.
Definition gated_child (input : DeviceGroupInput) : res child_output :=
  Ok (ChildOutput ∅ {["a" := [("success", dump (sample_devices [if child_index input =? 0 then "d1" else "d2"] OK))]]}).
Definition gated_validate (j : json) : res WorkflowContext :=
  match filter (fun c => dump c = j) [sample_devices ["d1"] OK; sample_devices ["d2"] OK] with
  | c :: _ => Ok c | [] => Raise (ValueError "not a context" []) end.

Definition gated_worker : dispatcher -> tables -> list string -> option (dispatcher * tables) :=
  worker_step sample_engine gated_validate gated_child gated_signal 1 "r" branch_nodes branch_edges gated_plan 1 false.
Definition gated_step : sys -> sys -> Prop :=
  step sample_engine gated_validate (fun i => if i =? 7 then Some gated_workflow else None) gated_child gated_signal 1 "r"
    branch_nodes branch_edges gated_plan 1 false.

Definition paused_tables : tables :=
  match gated_worker initial_dispatcher gated_tables [] with Some (_, d) => d | None => gated_tables end.
Definition paused_state : dict json := build_approval_state true 0 2 0 2 0 0 ["d1"] false.
Definition resumed : dispatcher * tables :=
  default (initial_dispatcher, gated_tables)
    (gated_worker (set_stage Awaiting_event initial_dispatcher) paused_tables [batch_approval_event_key "r" 0]).

(** User 9 started the run, asks for batch 0 and gets it. *)
Lemma batches_authorised_witness :
  let s := Sys resumed.2 [batch_approval_event_key "r" 0] resumed.1 [] [Approval 9 Approve_batch 0] in
  rtc gated_step (Sys gated_tables [] initial_dispatcher [] []) s /\ dispatched (s_worker s) 0 /\
  authorised false (requests_log s) 0.
Proof.
  intros s.
  assert (Hreach : rtc gated_step (Sys gated_tables [] initial_dispatcher [] []) s).
  { eapply rtc_l with (Sys paused_tables [] (set_stage Awaiting_event initial_dispatcher) [] []); [apply step_worker; reflexivity|].
    eapply rtc_l with (Sys paused_tables [] (set_stage Awaiting_event initial_dispatcher) [About_to_push 9 paused_state] [Approval 9 Approve_batch 0]).
    { apply step_ask; reflexivity. }
    eapply rtc_l with (Sys paused_tables [batch_approval_event_key "r" 0] (set_stage Awaiting_event initial_dispatcher) [] [Approval 9 Approve_batch 0]).
    { apply (step_push _ _ _ _ _ _ _ _ _ _ _ _ _ _ _ _ [] []). reflexivity. }
    apply rtc_once. apply step_worker. reflexivity. }
  assert (Hd : dispatched (s_worker s) 0) by (right; split; reflexivity).
  split; [exact Hreach|]. split; [exact Hd|].
  refine (proj1 (batches_authorised sample_engine gated_validate (fun i => if i =? 7 then Some gated_workflow else None) gated_child gated_signal 1 "r"
    branch_nodes branch_edges gated_plan 1 false (Some 9) gated_tables [] s 0 _ _ Hreach Hd)).
  - exists gated_row. split_and!; reflexivity.
  - intros m. apply not_elem_of_nil.
Defined.

Lemma is_ok_exists {A B} (x : res A * B) : is_ok x.1 = true -> exists y b, x = (Ok y, b).
Proof. destruct x as [[y|e] b]; [by exists y, b|done]. Qed.

Lemma prefix_of_two {A} (x y : A) seen more : [x; y] = seen ++ more -> seen = [] \/ seen = [x] \/ seen = [x; y].
Proof. destruct seen as [|a [|b [|c seen]]]; intros H; simplify_eq/=; auto. Qed.

(** Both batches approved beforehand. *)
Lemma wait_and_run_completes_witness :
  let out := run_worker sample_engine gated_validate gated_child gated_signal 1 "r" branch_nodes branch_edges gated_plan 1 false
               [batch_approval_event_key "r" 0; batch_approval_event_key "r" 1] 7 initial_dispatcher gated_tables in
  w_stage out.1 = Finished /\ length (all_results out.1) = 2 /\ devices_completed out.1 = 2 /\
  (sstatus <$> steps out.2 !! (1, "a")) = Some S_success.
Proof.
  intros out.
  destruct (wait_and_run_completes sample_engine gated_validate gated_child gated_signal 1 "r" branch_nodes branch_edges gated_plan 1 false
    [batch_approval_event_key "r" 0; batch_approval_event_key "r" 1] gated_tables) with (fuel := 7) as (H1 & H2 & H3 & _).
  - apply Forall_cons. split; [|apply Forall_singleton]; apply result_wf_singleton; change (NoDup ["success"]); apply NoDup_singleton.
  - exists gated_row. split; reflexivity.
  - lia.
  - intros seen more Hall.
    apply prefix_of_two in Hall as Hpre.
    apply is_ok_exists. destruct Hpre as [->|[->| ->]]; vm_compute; reflexivity.
  - intros k Hk. change (length (batches gated_plan 1)) with 2 in Hk. destruct k as [|[|k]]; [by left|by right; left|lia].
  - change (length (batches gated_plan 1)) with 2. lia.
  - fold out in H1, H2, H3. split; [exact H1|]. split; [by rewrite H2|]. split; [|vm_compute; reflexivity].
    change (tally_batch_failures (plan_groups gated_plan) (run_groups gated_child gated_signal 1 (all_devices gated_plan) (plan_groups gated_plan) 0)) with (2, 0) in H3.
    congruence.
Defined.
