(* ===== verification/RunLifecycle.v ===== *)
(** * The life of a run in the worker

    [hatchet/workflows/workflow_run/__init__.py] and [phase1.py]: the tasks of
    the engine's workflow ([prepare], [execute_steps], [fail_run]);
    [services/execution/run_lifecycle_service.py] and
    [hatchet/workflows/run_reaper.py]: the safety net for runs nothing else can
    finish.

    The tasks are processes (Process.v).  Two stretches are long: the walk of a
    canvas and its resumption behind the fan-in; what others write during
    them is their argument [env], as in StepRunner.v.  A task can be cancelled
    at any of its stretches ([cut_at]); the 24 h limit of [execute_steps] is the
    bound on the gated dispatch, which is cancelled when it runs out. *)
From S2P Require Import Prelude Process Dict Json Graph GraphResolution Context RunStore RunInputs StepRunner Subgraph ChangeStore RunAccess RunService FanOut BatchApproval.

Definition CancelledError : exn := OtherError "CancelledError".

Definition INTERRUPTED : string :=
  "The workflow task ended before the run finished (worker stopped, timeout or engine cancel). Devices may have been changed by the steps that had started.".
Definition DELIVERED_TWICE : string :=
  "The run was delivered to a worker twice; it was not executed again so that no device is configured twice.".
Definition INTERNAL : string := "The workflow engine hit an internal error; see the worker log for this error id.".

(** What a task returns: the run was not executed, or it was closed. *)
Inductive task_result := Skipped (status : run_status) | Closed (status : run_status).

Section Lifecycle.
Context `{Services} (recursion_limit : nat).

(** ** [RunLifecycleService] *)

Definition interrupted_fields (message category error_id : string) (t : Z) : run_fields :=
  Fields None (Some message) (Some category) (Some error_id) None (Some t) None None None.

(** [fail_interrupted]; [_cancel_child_runs] is best effort. *)
Definition fail_interrupted (run_id : nat) (message category : string) : proc system bool :=
  changed ← on_tables (fun s => transition_run run_id R_failed None (interrupted_fields message category (uuid4 s) (wall s)));
  if negb changed then mret false else
  _ ← on_tables (fun s d => (tt, finalise_open_step_results (wall s) run_id message d));
  _ ← catch (fun _ => mret ∅) (cancel_child_runs recursion_limit run_id {[run_id]});
  _ ← reconcile_deploy run_id;
  mret true.

(** What the engine's status says about the run: the message it is failed with. *)
Definition engine_verdict (status : string) : option string :=
  let u := upper status in
  if contains "COMPLETED" u then Some "The engine finished the task but no result was recorded."
  else if contains "FAILED" u || contains "CANCELLED" u then Some "The engine ended the task before the run finished."
  else None.

Context (engine_status : string -> system -> option string).

(** One candidate of [reap_stuck_runs]: its row is the one the listing loaded;
    [true] when it was reaped. *)
Definition reap_one (run_id : nat) (row : WorkflowRun) : proc system bool :=
  match hatchet_run_id row with
  | None | Some "" =>
      match rstatus row with
      | R_pending => fail_interrupted run_id "The run was never handed to the engine." "internal"
      | _ => mret false
      end
  | Some h =>
      status ← read (engine_status h);
      match status with
      | None => mret false
      | Some st => match engine_verdict st with
                   | Some message => fail_interrupted run_id message "internal"
                   | None => mret false
                   end
      end
  end.

Fixpoint reap_all (candidates : list nat) (reaped : nat) : proc system nat :=
  match candidates with
  | [] => mret reaped
  | run_id :: rest =>
      row ← refresh run_id;
      done ← reap_one run_id row;
      reap_all rest (if done : bool then S reaped else reaped)
  end.

Definition reap_stuck_runs (grace : Z) : proc system nat :=
  candidates ← read (fun s => list_active_runs_older_than (wall s - grace) (tables_of s));
  reap_all candidates 0.

(** ** The tasks *)

Definition prepare (run_id : nat) : proc system bool :=
  on_tables (fun s => transition_run run_id R_running (Some [R_pending])
    (Fields None None None None (Some (wall s)) None None None None)).

Definition fail_run (run_id : nat) : proc system unit :=
  _ ← fail_interrupted run_id INTERRUPTED "internal"; mret tt.

Context (E : engine) (validate : json -> res WorkflowContext) (schedule : list node -> list action)
        (env resume_env : nat -> list db_op) (child_run : DeviceGroupInput -> res child_output)
        (approval_events : system -> list string).

(** [_phase1_run_or_early_finish] *)
Definition phase1 (run_id : nat) : proc system (task_result + (string * FanOutSignal * list node * list edge)) :=
  found ← read (fun s => runs (tables_of s) !! run_id);
  match found with
  | None => raise (ValueError "WorkflowRun {run_id} not found" [])
  | Some row =>
      if decide (rstatus row ≠ R_running) then mret (inl (Skipped (rstatus row))) else
      match workflows (run_workflow_id row) with
      | None => raise (ValueError "Workflow {run.workflow_id} not found" [])
      | Some wf =>
          walked ← on_tables (fun _ d => let (r, w) := execute_all E run_id row schedule env (canvas_nodes wf) (canvas_edges wf) d in (r, w_db w));
          result ← lift walked;
          match result with
          | WR_done success =>
              let final_status := if success : bool then R_success else R_failed in
              _ ← on_tables (fun s => update_run_status run_id final_status (at_ (wall s)) false);
              _ ← reconcile_deploy run_id;
              mret (inl (Closed final_status))
          | WR_fan_out signal =>
              graph ← lift (load_execution_graph (canvas_nodes wf) (canvas_edges wf));
              mret (inr (uuid row, signal, graph.1, graph.2))
          end
      end
  end.

(** The gated dispatch (BatchApproval.v), one stretch at a time; while it waits
    for an approval it looks again. *)
Fixpoint gated_dispatch (fuel : nat) (run_id : nat) (run_uuid : string) (signal : FanOutSignal) (nodes : list node) (edges : list edge)
    (plan : FanOutDispatchPlan) (batch_size : nat) (first_batch_auto : bool) (p : dispatcher) : proc system (list (res child_output)) :=
  match w_stage p, fuel with
  | Finished, _ => mret (all_results p)
  | Crashed e, _ => raise e
  | _, 0 => raise CancelledError
  | _, S fuel' =>
      p' ← on_tables (fun s d =>
        match worker_step E validate child_run signal run_id run_uuid nodes edges plan batch_size first_batch_auto p d (approval_events s) with
        | Some (p', d') => (p', d')
        | None => (p, d)
        end);
      gated_dispatch fuel' run_id run_uuid signal nodes edges plan batch_size first_batch_auto p'
  end.

(** [_execute_steps] *)
Definition execute_steps_body (time_limit run_id : nat) : proc system task_result :=
  early ← phase1 run_id;
  match early with
  | inl result => mret result
  | inr (run_uuid, signal, nodes, edges) =>
      dispatched ← on_tables (fun _ d => dispatch_children child_run signal run_id d);
      plan_how ← lift dispatched;
      child_results ← match plan_how.2 with
                      | Dispatched results => mret results
                      | Gated batch_size first_batch_auto =>
                          gated_dispatch time_limit run_id run_uuid signal nodes edges plan_how.1 batch_size first_batch_auto initial_dispatcher
                      end;
      finished ← tx (fun s => let (r, w) := finalize_fan_out_parent E validate schedule resume_env workflows run_id signal nodes edges child_results (store s) in
                              (r, set_store w s));
      final_status ← lift finished;
      mret (Closed final_status)
  end.

(** [execute_steps], cancelled at its [n]-th stretch when [cut] is [Some n] *)
Definition interruption_message (e : exn) : string :=
  if decide (e = CancelledError) then INTERRUPTED
  else match e with RunAlreadyStarted _ => DELIVERED_TWICE | _ => INTERNAL end.

Definition execute_steps (cut : option nat) (time_limit run_id : nat) : proc system task_result :=
  let body := execute_steps_body time_limit run_id in
  catch (fun e => _ ← fail_interrupted run_id (interruption_message e) "internal"; raise e)
    (match cut with Some n => cut_at n CancelledError body | None => body end).
End Lifecycle.

(** * Facts *)

(** ** The long stretches evolve the runs *)

Lemma update_step_evolves rid nid st f d : tables_evolve d (update_step_result rid nid st f d).
Proof. unfold update_step_result. repeat case_match; first [reflexivity|by apply same_runs_evolves]. Qed.
#[export] Hint Resolve update_step_evolves : evolves.

Lemma exec_op_evolves op d : lawful op -> tables_evolve d (exec_op op d).2.
Proof.
  intros Hlaw. destruct op; cbn [exec_op snd]; auto with evolves.
  - unfold create_step_result. destruct (steps d !! _); [reflexivity|]. by apply same_runs_evolves.
Qed.

Lemma exec_ops_evolve ops d : Forall lawful ops -> tables_evolve d (exec_ops ops d).
Proof.
  unfold exec_ops. intros Hl. revert d. induction Hl as [|op ops Hop _ IH]; intros d; [simpl; reflexivity|].
  cbn [foldl]. etrans; [by apply exec_op_evolves|apply IH].
Qed.

Section WalkEvolves.
Context (E : engine) (rid : nat) (row : WorkflowRun) (schedule : list node -> list action) (env : nat -> list db_op).
Context (Hlaw : forall k, Forall lawful (env k)).

Lemma act_evolves edges w a : tables_evolve (w_db w) (w_db (act E rid row edges w a)).
Proof.
  destruct a as [n|n]; cbn [act].
  - unfold start_node. repeat case_match; cbn; first [reflexivity|apply update_step_evolves].
  - unfold finish_node. repeat case_match; cbn; first [reflexivity|apply update_step_evolves].
Qed.

Lemma acts_evolve edges l w : tables_evolve (w_db w) (w_db (foldl (act E rid row edges) w l)).
Proof. revert w. induction l as [|a l IH]; intros w; [simpl; reflexivity|]. cbn [foldl]. etrans; [apply act_evolves|apply IH]. Qed.

Lemma skip_wave_evolves wave w : tables_evolve (w_db w) (w_db (skip_wave rid wave w)).
Proof.
  unfold skip_wave. revert w. induction wave as [|n wave IH]; intros w; [simpl; reflexivity|]. cbn [foldl].
  etrans; [|apply IH]. apply update_step_evolves.
Qed.

Lemma walk_waves_evolves g edges k gens failed reported w :
  tables_evolve (w_db w) (w_db (walk_waves E rid row schedule env g edges k gens failed reported w).2).
Proof.
  revert k failed reported w. induction gens as [|wave gens IH]; intros k failed reported w; cbn [walk_waves]; [simpl; reflexivity|].
  assert (Hi : tables_evolve (w_db w) (w_db (interfere env k w))) by (apply exec_ops_evolve, Hlaw).
  destruct (failed || _).
  - etrans; [exact Hi|]. etrans; [apply (skip_wave_evolves wave)|apply IH].
  - etrans; [exact Hi|]. etrans; [apply (acts_evolve edges (schedule wave))|]. set (w1 := foldl _ _ _).
    destruct (wave_flags wave w1) as [[[] reported']|e]; [apply IH| |simpl; reflexivity].
    destruct (match g with Some _ => _ | None => _ end) as [[signal|]|e]; [simpl; reflexivity|apply IH|simpl; reflexivity].
Qed.

Lemma create_pending_evolves nodes d : tables_evolve d (create_pending_step_results rid nodes d).2.
Proof.
  revert d. induction nodes as [|n nodes IH]; intros d; cbn [create_pending_step_results]; [simpl; reflexivity|].
  unfold create_step_result. destruct (steps d !! _); [simpl; reflexivity|]. etrans; [|apply IH]. by apply same_runs_evolves.
Qed.

Lemma create_missing_evolves nodes existing d : tables_evolve d (create_missing_step_results rid nodes existing d).2.
Proof.
  revert d. induction nodes as [|n nodes IH]; intros d; cbn [create_missing_step_results]; [simpl; reflexivity|].
  destruct (existing !! _); [apply IH|].
  unfold create_step_result. destruct (steps d !! _); [simpl; reflexivity|]. etrans; [|apply IH]. by apply same_runs_evolves.
Qed.

Lemma execute_all_evolves cn ce d : tables_evolve d (w_db (execute_all E rid row schedule env cn ce d).2).
Proof.
  unfold execute_all. destruct (load_execution_graph cn ce) as [[nodes edges]|]; [|simpl; reflexivity].
  case_decide; [simpl; reflexivity|]. destruct (topological_sort _ _ _) as [ordered|]; [|simpl; reflexivity].
  assert (H0 : tables_evolve d (exec_ops (env 0) d)) by (apply exec_ops_evolve, Hlaw).
  pose proof (create_pending_evolves ordered (exec_ops (env 0) d)) as H1.
  destruct (create_pending_step_results rid ordered (exec_ops (env 0) d)) as [[] d']; cbn [snd] in H1; [|by etrans].
  destruct (topological_generations ordered edges) as [gens|]; [|by etrans].
  etrans; [exact H0|]. etrans; [exact H1|]. apply (walk_waves_evolves _ edges 1 gens false false (fresh_walk ∅ d')).
Qed.

Lemma resume_after_join_evolves cn ce merged join d : tables_evolve d (w_db (resume_after_join E rid row schedule env cn ce merged join d).2).
Proof.
  unfold resume_after_join. destruct (load_execution_graph cn ce) as [[nodes edges]|]; [|simpl; reflexivity].
  destruct (topological_sort _ _ _) as [ordered|]; [|simpl; reflexivity].
  assert (H0 : tables_evolve d (exec_ops (env 0) d)) by (apply exec_ops_evolve, Hlaw).
  set (post := filter _ ordered). set (ex := get_step_results_for_run rid d).
  pose proof (create_missing_evolves post ex (exec_ops (env 0) d)) as H1.
  destruct (create_missing_step_results rid post ex (exec_ops (env 0) d)) as [[] d']; cbn [snd] in H1; [|by etrans].
  destruct (topological_generations post edges) as [gens|]; [|by etrans].
  etrans; [exact H0|]. etrans; [exact H1|]. apply (walk_waves_evolves _ edges 1 gens false false (fresh_walk merged d')).
Qed.
End WalkEvolves.

Section FanOutEvolves.
Context (E : engine) (validate : json -> res WorkflowContext) (schedule : list node -> list action) (env : nat -> list db_op).
Context (Hlaw : forall k, Forall lawful (env k)).

Lemma aggregate_evolves rid signal nodes edges results final d :
  tables_evolve d (aggregate_and_persist E validate rid signal nodes edges results final d).2.
Proof.
  unfold aggregate_and_persist. destruct (gather_children _ _ _) as [g|]; [|simpl; reflexivity].
  assert (Hn : forall ex ids m b d0, tables_evolve d0 (aggregate_nodes E rid final ex g ids m b d0).2).
  { intros ex. induction ids as [|nid ids IH]; intros m b d0; cbn [aggregate_nodes]; [simpl; reflexivity|].
    destruct (default [] (per_node g !! nid)).
    - etrans; [|apply IH]. destruct (ex !! (rid, nid)); [|reflexivity]. destruct final; [apply update_step_evolves|reflexivity].
    - destruct (merge_node nid _); [|simpl; reflexivity]. destruct (ex !! (rid, nid)); [|apply IH].
      etrans; [apply update_step_evolves|apply IH]. }
  specialize (Hn (get_step_results_for_run rid d) (elements (child_node_ids (inventory_node_id signal) (join_node_id signal) nodes edges)) ∅ false d).
  by destruct (aggregate_nodes _ _ _ _ _ _ _ _ _) as [[[]|] ?].
Qed.

(** A final status is written last. *)
Lemma finalize_spec workflows rid signal nodes edges results w r w' :
  finalize_fan_out_parent E validate schedule env workflows rid signal nodes edges results w = (r, w') ->
  tables_evolve (db w) (db w') /\
  forall st, r = Ok st -> exists f d, terminal st = true /\ db w' = (update_run_status rid st f false d).2 /\ tables_evolve (db w) d.
Proof.
  unfold finalize_fan_out_parent. destruct (runs (db w) !! rid) as [row|]; [|intros [= <- <-]; split; [reflexivity|done]].
  pose proof (aggregate_evolves rid signal nodes edges results true (db w)) as Ha.
  destruct (aggregate_and_persist _ _ _ _ _ _ _ _ _) as [[[success merged]|e] d]; cbn [snd] in Ha; [|intros [= <- <-]; split; done].
  set (joined := match join_node_id signal with Some _ => _ | None => _ end).
  assert (Hj : tables_evolve (db w) joined.2).
  { unfold joined. destruct (join_node_id signal) as [join|]; [|done]. destruct (workflows _) as [wf|]; [|done].
    set (merged' := merged ∪ _).
    pose proof (resume_after_join_evolves E rid row schedule env Hlaw (canvas_nodes wf) (canvas_edges wf) merged' join d) as Hr.
    destruct (resume_after_join _ _ _ _ _ _ _ _ _ _) as [[[]|] walk]; cbn [snd] in Hr; by etrans. }
  destruct joined as [[ok|e] d']; cbn [snd] in Hj; [|intros [= <- <-]; split; done].
  intros [= <- <-]. rewrite maybe_reconcile_db. cbn [db set_db]. split; [etrans; [exact Hj|apply update_run_status_evolves]|].
  intros st [= <-]. eexists _, d'. split; [by destruct ok|]. split; [reflexivity|done].
Qed.

Lemma worker_step_evolves child_run signal rid uuid nodes edges plan size auto p d ev p' d' :
  worker_step E validate child_run signal rid uuid nodes edges plan size auto p d ev = Some (p', d') -> tables_evolve d d'.
Proof.
  unfold worker_step. destruct (w_stage p).
  - unfold pause_for_approval. repeat case_match; intros [= <- <-]; try reflexivity; simplify_eq. apply update_run_status_evolves.
  - unfold resume_after_approval. repeat case_match; intros [= <- <-]; try reflexivity; simplify_eq. apply update_run_status_evolves.
  - destruct (batches plan size !! batch_index p) as [gs|]; [|done]. unfold run_batch.
    destruct (tally_batch_failures _ _) as [count failed]. pose proof (aggregate_evolves rid signal nodes edges
      (all_results p ++ run_groups child_run signal rid (all_devices plan) gs (group_index_offset p)) false d) as Ha.
    destruct (aggregate_and_persist _ _ _ _ _ _ _ _ _) as [[]]; by intros [= <- <-].
  - done.
  - done.
Qed.

Lemma create_groups_evolves rid gs d : tables_evolve d (create_device_groups rid gs d).
Proof.
  unfold create_device_groups. generalize d at 1 3 as d0. induction gs as [|g gs IH]; intros d0; cbn [foldl]; [reflexivity|].
  etrans; [|apply IH]. destruct (groups d !! (rid, g.1)); [reflexivity|by apply same_runs_evolves].
Qed.

Lemma dispatch_children_evolves child_run signal rid d : tables_evolve d (dispatch_children child_run signal rid d).2.
Proof.
  unfold dispatch_children. repeat case_match; cbn [snd]; first [reflexivity|apply create_groups_evolves].
Qed.
End FanOutEvolves.

Section Tasks.
Context `{Services} (recursion_limit : nat) (engine_status : string -> system -> option string).
Context (E : engine) (validate : json -> res WorkflowContext) (schedule : list node -> list action).
Context (env resume_env : nat -> list db_op) (child_run : DeviceGroupInput -> res child_output) (approval_events : system -> list string).

Abbreviation fail_interrupted := (fail_interrupted recursion_limit).
Abbreviation phase1 := (phase1 E schedule env).
Abbreviation gated_dispatch := (gated_dispatch E validate child_run approval_events).
Abbreviation execute_steps_body := (execute_steps_body E validate schedule env resume_env child_run approval_events).
Abbreviation execute_steps := (execute_steps recursion_limit E validate schedule env resume_env child_run approval_events).

Lemma keeps_fail_interrupted run m c : keeps evolves (fail_interrupted run m c).
Proof. unfold RunLifecycle.fail_interrupted. keeps. Qed.
#[local] Hint Resolve keeps_fail_interrupted : keeps.

Lemma keeps_reap grace : keeps evolves (reap_stuck_runs recursion_limit engine_status grace).
Proof.
  unfold reap_stuck_runs. apply keeps_bind; [apply keeps_read; apply _|intros l]. generalize 0. induction l as [|run l IH]; intros n; cbn [reap_all]; [done|].
  apply keeps_bind; [apply keeps_refresh|intros row]. apply keeps_bind; [|intros b; apply IH]. unfold reap_one. keeps.
Qed.

Lemma keeps_cut {A} n e (p : proc system A) : keeps evolves p -> keeps evolves (cut_at n e p).
Proof.
  revert n. induction p as [r|X f k IH]; intros n; [by destruct n|]. destruct n as [|n]; cbn [cut_at keeps]; [done|].
  intros Hp s. destruct (Hp s) as [Hs Hk]. split; [done|]. by apply IH.
Qed.

Section Lawful.
Context (Hlaw : forall k, Forall lawful (env k)) (Hlaw' : forall k, Forall lawful (resume_env k)).

Lemma keeps_phase1 run : keeps evolves (phase1 run).
Proof.
  unfold RunLifecycle.phase1. apply keeps_bind; [apply keeps_read; apply _|intros [row|]; [|done]]. case_decide; [done|].
  destruct (workflows _) as [wf|]; [|done]. apply keeps_bind; [|intros walked; keeps].
  apply keeps_on_tables. intros _ d. pose proof (execute_all_evolves E run row schedule env Hlaw (canvas_nodes wf) (canvas_edges wf) d) as He.
  by destruct (execute_all _ _ _ _ _ _ _ _) as [r w].
Qed.

Lemma keeps_gated fuel run uuid signal nodes edges plan size auto p : keeps evolves (gated_dispatch fuel run uuid signal nodes edges plan size auto p).
Proof.
  revert p. induction fuel as [|fuel IH]; intros p; cbn [RunLifecycle.gated_dispatch]; destruct (w_stage p); try done;
    (apply keeps_bind; [|intros p'; apply IH]); apply keeps_on_tables; intros s d;
    destruct (worker_step _ _ _ _ _ _ _ _ _ _ _ _ _ _) as [[p' d']|] eqn:Hs; cbn [snd]; [by eapply worker_step_evolves|reflexivity|
      by eapply worker_step_evolves|reflexivity|by eapply worker_step_evolves|reflexivity].
Qed.

Lemma keeps_body limit run : keeps evolves (execute_steps_body limit run).
Proof.
  unfold RunLifecycle.execute_steps_body. apply keeps_bind; [apply keeps_phase1|intros [?|[[[uuid signal] nodes] edges]]; [done|]].
  apply keeps_bind; [apply keeps_on_tables; intros; apply dispatch_children_evolves|intros dispatched].
  apply keeps_bind; [done|intros [plan how]]. apply keeps_bind; [destruct how; [done|apply keeps_gated]|intros results].
  apply keeps_bind; [|by intros [st|]; [done|]]. apply keeps_tx. intros s.
  destruct (finalize_fan_out_parent _ _ _ _ _ _ _ _ _ _ _) as [r w] eqn:Hf. cbn [snd]. by apply finalize_spec in Hf as [Hf _].
Qed.

Lemma keeps_execute_steps cut limit run : keeps evolves (execute_steps cut limit run).
Proof.
  unfold RunLifecycle.execute_steps. apply keeps_catch; [|intros e; keeps].
  destruct cut as [n|]; [apply keeps_cut|]; apply keeps_body.
Qed.
End Lawful.

Section Closing.
Context (Hlaw' : forall k, Forall lawful (resume_env k)).
Context (W : nat -> system) (HW : undeleted_history W).

Lemma exists_later t u run : t <= u -> is_Some (run_row (W t) run) -> is_Some (run_row (W u) run).
Proof. intros Htu [r Hr]. destruct (row_later W HW t u run r Htu Hr) as (r' & -> & _). eauto. Qed.

(** A stretch that writes a terminal status closes the run. *)
Lemma closing_write {X} run (f : system -> tables -> X * tables) t r t' :
  (forall s d, is_Some (runs (f s d).2 !! run) -> exists to_status fields d', terminal to_status = true /\ (f s d).2 = (transition_run run to_status None fields d').2) ->
  is_Some (run_row (W t) run) -> exec W (on_tables f) t r t' -> ended (W t') run.
Proof.
  intros Hf Hr (i & Hi & -> & _ & Ht)%exec_on_tables.
  destruct (exists_later t (i + 1) run ltac:(lia) Hr) as [r' Hr']. unfold run_row in Hr'. rewrite Ht in Hr'.
  destruct (Hf (W i) (tables_of (W i))) as (st & fields & d & Hst & Heq); [by eexists|].
  assert (Hd : is_Some (runs d !! run)).
  { rewrite Heq in Hr'. unfold transition_run in Hr'. destruct (runs d !! run) as [r0|] eqn:Ed; [by eexists|]. simpl in Hr'. by rewrite Ed in Hr'. }
  destruct Hd as [r0 Hr0]. destruct (transition_run_ends run st fields d r0 Hst Hr0) as (r1 & Hr1 & Hterm).
  exists r1. split; [|done]. unfold run_row. by rewrite Ht, Heq.
Qed.

Lemma fail_interrupted_ends run m c t r t' :
  is_Some (run_row (W t) run) -> exec W (fail_interrupted run m c) t r t' -> ended (W t') run.
Proof.
  intros Hr. unfold RunLifecycle.fail_interrupted. intros Hex.
  assert (Hfirst : exists b u, u <= t' /\ exec W (on_tables (fun s => transition_run run R_failed None
                     (interrupted_fields m c (uuid4 s) (wall s)))) t b u).
  { apply exec_bind in Hex as [(b & u & Hb & Hk)|(e & Hb & _)]; [|by exists (Raise e), t'].
    apply exec_le in Hk. exists (Ok b), u. split; [done|exact Hb]. }
  destruct Hfirst as (b & u & Hu & Hb). apply (ended_later W HW u); [done|].
  eapply closing_write; [|exact Hr|exact Hb]. intros s d _. exists R_failed. eexists _, d. split; reflexivity.
Qed.

Lemma exec_update_status_ends run st f t r t' :
  terminal st = true -> is_Some (run_row (W t) run) ->
  exec W (on_tables (fun s => update_run_status run st (f s) false)) t r t' -> ended (W t') run.
Proof.
  intros Hst Hr Hex. eapply closing_write; [|exact Hr|exact Hex]. intros s d _. simpl.
  destruct (update_run_status_transition run st (f s) false d) as [f' ->]. by exists st, f', d.
Qed.

(** What a task that returns has left. *)
Definition left_behind (s : system) (run : nat) (result : task_result) : Prop :=
  match result with
  | Closed _ => ended s run
  | Skipped st => st <> R_running /\ (terminal st = true -> ended s run)
  end.

Lemma phase1_closes run t result t' :
  exec W (phase1 run) t (Ok (inl result)) t' -> is_Some (run_row (W t) run) -> left_behind (W t') run result.
Proof.
  unfold RunLifecycle.phase1. intros Hex Hr.
  apply exec_bind in Hex as [(found & u & (i & Hi & -> & HWi & [= ->])%exec_read & Hk)|(e & _ & [=])].
  fold (run_row (W i) run) in Hk. destruct (run_row (W i) run) as [row|] eqn:Hrow; [|by destruct Hk].
  case_decide as Hst.
  { destruct Hk as [[= ->] ->]. split; [done|]. intros Ht. exists row. by rewrite HWi. }
  destruct (workflows _) as [wf|]; [|by destruct Hk].
  apply exec_bind in Hk as [(walked & u & Hw & Hk)|(e & _ & [=])]. apply exec_le in Hw.
  apply exec_bind in Hk as [(result' & v & [_ ->] & Hk)|(e & _ & [=])]. destruct result' as [ok|signal].
  - apply exec_bind in Hk as [(b & v & Hup & Hk)|(e & _ & [=])]. pose proof (exec_le _ _ _ _ _ Hk) as Hv.
    assert (Hres : result = Closed (if ok : bool then R_success else R_failed)).
    { apply exec_bind in Hk as [(? & ? & _ & Hk)|(e & _ & [=])]. by destruct Hk as [[= ->] _]. }
    subst result. apply (ended_later W HW v); [done|]. eapply exec_update_status_ends; [| |exact Hup]; [by destruct ok|].
    apply (exists_later t); [lia|done].
  - apply exec_bind in Hk as [(? & ? & _ & Hk)|(e & _ & [=])]. by destruct Hk.
Qed.

Lemma body_closes limit run t result t' :
  exec W (execute_steps_body limit run) t (Ok result) t' -> is_Some (run_row (W t) run) -> left_behind (W t') run result.
Proof.
  unfold RunLifecycle.execute_steps_body. intros Hex Hr.
  apply exec_bind in Hex as [(early & u & Hp & Hk)|(e & _ & [=])]. pose proof (exec_le _ _ _ _ _ Hp) as Hu.
  destruct early as [res0|[[[uuid signal] nodes] edges]].
  { destruct Hk as [[= ->] ->]. by eapply phase1_closes. }
  apply exec_bind in Hk as [(? & u1 & H1 & Hk)|(e & _ & [=])]. apply exec_le in H1.
  apply exec_bind in Hk as [(? & u2 & [_ ->] & Hk)|(e & _ & [=])].
  apply exec_bind in Hk as [(? & u3 & H3 & Hk)|(e & _ & [=])]. apply exec_le in H3.
  apply exec_bind in Hk as [(finished & u4 & (i & Hi & -> & y & Hf & [= ->])%exec_tx & Hk)|(e & _ & [=])].
  apply exec_bind in Hk as [(st & u5 & [Hfin ->] & Hk)|(e & _ & [=])]. destruct Hk as [[= ->] ->]. simpl.
  destruct (finalize_fan_out_parent _ _ _ _ _ _ _ _ _ _ _) as [r w] eqn:Hfinal. injection Hf as Hy Hw; subst y.
  destruct (finalize_spec E validate schedule resume_env Hlaw' _ _ _ _ _ _ _ _ _ Hfinal) as [_ Hspec].
  destruct (Hspec st (eq_sym Hfin)) as (f & d & Hst & Hdb & Hd).
  destruct (exists_later t i run ltac:(lia) Hr) as [row Hrow].
  destruct (Hd (history_fresh W HW i)) as [_ Hkeep]. destruct (Hkeep run row Hrow) as (row' & Hrow' & _).
  destruct (update_run_status_transition run st f false d) as [f' Hup].
  destruct (transition_run_ends run st f' d row' Hst Hrow') as (r1 & Hr1 & Hterm).
  exists r1. split; [|done]. unfold run_row, tables_of. rewrite <- Hw. simpl. by rewrite Hdb, Hup.
Qed.

End Closing.

(** A run that waits for an approval when its task is delivered again is left
    as it is: nothing is executed and nothing is closed. *)
Lemma paused_run_left_open limit run s row :
  run_row s run = Some row -> rstatus row = R_paused ->
  Process.run (execute_steps None limit run) s = (Ok (Skipped R_paused), s).
Proof.
  intros Hr Hp. unfold RunLifecycle.execute_steps, RunLifecycle.execute_steps_body, RunLifecycle.phase1.
  rewrite run_catch, run_bind, run_bind. cbn [Process.run read tx]. fold (run_row s run). rewrite Hr.
  rewrite decide_True by (by rewrite Hp). by rewrite Hp.
Qed.
End Tasks.

(** ** What the reaper reaps *)

Section Reaper.
Context `{Services} (recursion_limit : nat) (engine_status : string -> system -> option string) (status : string -> option string).
Context (Hstatus : forall h s, engine_status h s = status h).

Abbreviation fail_interrupted := (fail_interrupted recursion_limit).

Lemma same_rows_ends to X s s' s'' : ends to X s s' -> runs (tables_of s'') = runs (tables_of s') -> ends to X s s''.
Proof. unfold ends, run_row. by intros He ->. Qed.

Lemma ends_weaken to (X : nat -> Prop) s s' : ends to X s s' -> ends to (fun _ => True) s s'.
Proof.
  intros [Hd Hr]. split; [done|]. intros id r Hrow. destruct (Hr id r Hrow) as (r' & ? & ? & [?|(_ & ? & ?)]); exists r'; eauto 7.
Qed.

Lemma ended_ends X s s' id : ends terminal_ X s s' -> ended s id -> ended s' id.
Proof.
  intros [_ Hr] (r & Hrow & Ht). destruct (Hr id r Hrow) as (r' & Hr' & _ & [->|(_ & _ & Ht')]); eexists; eauto.
Qed.

Lemma run_fail_interrupted id r m c s :
  size (runs (tables_of s)) < recursion_limit -> run_row s id = Some r -> active (rstatus r) = true ->
  exists s', run (fail_interrupted id m c) s = (Ok true, s') /\ ends terminal_ (fun x => x = id \/ caused s id x) s s' /\ ended s' id.
Proof.
  intros Hsize Hr Ha. unfold RunLifecycle.fail_interrupted. rewrite run_bind, run_on_tables.
  set (f := interrupted_fields m c (uuid4 s) (wall s)). set (r1 := apply_run_values R_failed f r).
  rewrite (transition_run_set id R_failed None f _ r Hr) by (simpl; by rewrite <- active_terminal). fold r1. cbn [fst snd].
  set (s1 := set_tables _ s). cbn [negb]. rewrite run_bind, run_on_tables. cbn [fst snd]. set (s2 := set_tables _ s1).
  assert (H2 : ends terminal_ (eq id) s s2) by by apply (ends_set terminal_ s s2 id r r1).
  assert (Hr2 : run_row s2 id = Some r1) by apply lookup_insert_eq.
  rewrite run_bind, run_catch. destruct (cancel_child_runs_returns recursion_limit id {[id]} s2) as (seen & s3 & -> & _ & H3).
  { destruct H2 as [-> _]. eapply Nat.le_lt_trans; [|exact Hsize]. rewrite <- size_dom. apply subseteq_size. set_solver. }
  rewrite run_bind. cbn [run write tx reconcile_deploy]. set (s4 := set_store _ s3). exists s4. split; [done|].
  assert (Hs4 : runs (tables_of s4) = runs (tables_of s3)) by (unfold s4, tables_of; simpl; by rewrite maybe_reconcile_db).
  split.
  - apply (same_rows_ends _ _ _ s3); [|done]. eapply (ends_trans terminal_ (eq id) (caused s2 id)); [done|by left| |exact H2|by apply cancels_ends].
    intros x Hx. right. by eapply ends_caused.
  - destruct H3 as [_ H3]. destruct (H3 id r1 Hr2) as (r' & Hr' & _ & Hc). exists r'. unfold run_row in *. rewrite Hs4. split; [done|].
    destruct Hc as [->|(_ & Ha1 & _)]; [done|by rewrite active_terminal in Ha1].
Qed.

Lemma run_fail_finished id r m c s :
  run_row s id = Some r -> terminal (rstatus r) = true -> exists s', run (fail_interrupted id m c) s = (Ok false, s') /\ tables_of s' = tables_of s.
Proof.
  intros Hr Ht. unfold RunLifecycle.fail_interrupted. rewrite run_bind, run_on_tables. unfold transition_run. fold (run_row s id). rewrite Hr.
  simpl. rewrite Ht. cbn [negb]. eexists. split; reflexivity.
Qed.

(** What is known about a run that is still open: nothing ([None]), or why it
    must be failed. *)
Definition verdict (r : WorkflowRun) : option string :=
  match hatchet_run_id r with
  | None | Some "" => match rstatus r with R_pending => Some "The run was never handed to the engine." | _ => None end
  | Some h => status h ≫= engine_verdict
  end.

Lemma run_reap_one id r s :
  run (reap_one recursion_limit engine_status id r) s =
    match verdict r with Some m => run (fail_interrupted id m "internal") s | None => (Ok false, s) end.
Proof.
  unfold reap_one, verdict. destruct (hatchet_run_id r) as [[|ch h]|]; [by destruct (rstatus r)| |by destruct (rstatus r)].
  rewrite run_bind. cbn [run read tx]. rewrite Hstatus. destruct (status (String ch h)) as [st|]; [|done]. simpl.
  by destruct (engine_verdict st).
Qed.

(** A run that is open, older than the grace period, and whose verdict is known. *)
Definition stuck (grace : Z) (s : system) (id : nat) : Prop :=
  exists r, run_row s id = Some r /\ active (rstatus r) = true /\ (run_created_at r < wall s - grace)%Z /\ is_Some (verdict r).
(** The stuck runs and what they caused *)
Definition fallout (grace : Z) (s : system) (id : nat) : Prop := exists p, stuck grace s p /\ (id = p \/ caused s p id).

Lemma reap_all_spec grace s0 candidates n s :
  size (runs (tables_of s0)) < recursion_limit -> ends terminal_ (fallout grace s0) s0 s ->
  (forall id, id ∈ candidates -> exists r, run_row s0 id = Some r /\ active (rstatus r) = true /\ (run_created_at r < wall s0 - grace)%Z) ->
  exists n' s', run (reap_all recursion_limit engine_status candidates n) s = (Ok n', s') /\
    ends terminal_ (fallout grace s0) s0 s' /\ ends terminal_ (fun _ => True) s s' /\
    forall id, id ∈ candidates -> stuck grace s0 id -> ended s' id.
Proof.
  intros Hsize. revert n s. induction candidates as [|id rest IH]; intros n s Hs Hc; cbn [reap_all].
  { exists n, s. split_and!; [done|done|apply ends_refl|]. by intros id ?%not_elem_of_nil. }
  destruct (Hc id) as (r & Hr & Ha & Hold); [by left|]. assert (Hc' : forall x, x ∈ rest -> _) by (intros x Hx; apply Hc; by right).
  destruct (proj2 Hs id r Hr) as (r' & Hr' & _ & Hcase). rewrite run_bind, (run_refresh r') by done. rewrite run_bind, run_reap_one.
  assert (Hstep : exists b s1, match verdict r' with Some m => run (fail_interrupted id m "internal") s | None => (Ok false, s) end = (Ok b, s1) /\
                    ends terminal_ (fallout grace s0) s0 s1 /\ ends terminal_ (fun _ => True) s s1 /\ (stuck grace s0 id -> ended s1 id)).
  { destruct (verdict r') as [m|] eqn:Hv.
    - destruct (active (rstatus r')) eqn:Ha'.
      + destruct Hcase as [->|(_ & _ & Hterm)]; [|by rewrite active_terminal, Hterm in Ha'].
        assert (Hstuck : stuck grace s0 id) by (exists r; rewrite Hv; eauto).
        destruct (run_fail_interrupted id r m "internal" s) as (s1 & Hrun & H1 & He); [|done|done|].
        { rewrite <- size_dom, (proj1 Hs), size_dom. exact Hsize. }
        exists true, s1. split; [done|]. split; [|split; [by eapply ends_weaken|done]]. eapply (ends_trans terminal_); [done|done| |exact Hs|exact H1].
        intros x Hx. exists id. split; [done|]. destruct Hx as [->|Hx]; [by left|right]. by eapply ends_caused.
      + rewrite active_terminal in Ha'. apply negb_false_iff in Ha'. destruct (run_fail_finished id r' m "internal" s Hr' Ha') as (s1 & Hrun & Ht).
        exists false, s1. split; [done|]. assert (He : ended s1 id) by (exists r'; unfold run_row; by rewrite Ht).
        split; [|split; [|done]]; (apply (same_rows_ends _ _ _ s); [first [done|apply ends_refl]|by rewrite Ht]).
    - exists false, s. split; [done|]. split; [done|]. split; [apply ends_refl|]. intros (r0 & Hr0 & _ & _ & Hv0). unfold run_row in *. simplify_eq.
      destruct Hcase as [->|(_ & _ & Hterm)]; [by rewrite Hv in Hv0; destruct Hv0|]. by exists r'. }
  destruct Hstep as (b & s1 & -> & H1 & H1s & He). destruct (IH (if b then S n else n) s1 H1 Hc') as (n' & s' & Hrun & H' & Hs' & Hend).
  exists n', s'. split; [done|]. split; [done|]. split; [by eapply (ends_trans terminal_)|].
  intros x [->|Hx]%elem_of_cons; [|by apply Hend]. intros Hst. eapply ended_ends; [exact Hs'|by apply He].
Qed.

End Reaper.

(** ** A run, executed *)

Definition life_services : Services := {|
  rbac := {| has_role _ _ := false; has_permission _ _ _ := true |};
  workflows w := if decide (w = 7) then Some (WorkflowRow "public" (Some 7) [] walk_nodes walk_edges) else None;
  workflow_name _ := None; ai_release_stamp _ := None; ai_result_node _ := None; release_is_current _ := false; background_tier _ := None;
  blocking_errors _ _ := []; validate_reference_inputs _ _ _ := Ok tt; exn_text _ := ""; encrypt s := s; uuid4 _ := "u";
  run_no_wait _ _ _ := Some "h"; engine_cancel _ _ := true
|}.
Definition life_system : system := System 100 50 (World sample_tables ∅ 1) 0 [].
Definition life_task (cut : option nat) : proc system task_result :=
  execute_steps (H := life_services) 10 sample_engine (fun _ => Raise (ValueError "" [])) starts_first silent silent
    (fun _ => Raise (ValueError "" [])) (fun _ => []) cut 5 1.
Definition life_history (cut : option nat) : nat -> system := history life_system (trace (life_task cut) life_system).

Lemma life_history_undeleted cut : undeleted_history (life_history cut).
Proof.
  split; [|unfold life_history; rewrite history_0; apply (proj1 sample_tables_sane)].
  apply trace_lived; [apply _|]. apply keeps_execute_steps; intros k; constructor.
Qed.


(** The installation of RunService.v: the engine cancelled run 2, cannot be
    asked about run 0, and never got run 3. *)
Definition demo_status (h : string) : option string := if String.eqb h "h2" then Some "Cancelled" else None.

